(* ===== verification/_CoqProject ===== *)
-Q . S2P
Prelude.v
GoStd.v
Floats.v
Hlc.v
Ring.v
Consistency.v
Freshness.v
Version.v
Redis.v
LuaCache.v
Buckets.v
Breaker.v
Admission.v
CacheClient.v
Schema.v
Row.v
Table.v
Mysql.v
Storage.v
Engine.v
EngineSpec.v
RefCache.v
Sessions.v
EngineCache.v
UpdateSpec.v
EngineApi.v
ApiSpec.v
Cdc.v
CdcSpec.v
Sextant.v
SextantSpec.v
Verifier.v
VerifierSpec.v
Sources.v
SourcesSpec.v
Sdk.v
SdkSpec.v
SdkSessions.v
Regexp.v
Proxy.v
ProxySpec.v
RewriteSpec.v
ProxyServer.v
ConnSpec.v
Introspect.v
Config.v
ConfigSpec.v
EnvSpec.v
Boot.v
BootSpec.v
Process.v
ProcessSpec.v
Ctl.v
CtlSpec.v
SextantRun.v
SextantRunSpec.v
FileCheckpoint.v
FileCheckpointSpec.v
Flags.v
Cachetctl.v
CachetctlSpec.v
Server.v
ServerSpec.v
Harness.v
HarnessSpec.v
Results.v
ResultsSpec.v
Faults.v
Bench.v
BenchSpec.v
Benchctl.v
BenchctlSpec.v
Repair.v
