(* ===== verification/Prelude.v ===== *)
(** * Cachet: a verification library for the read cache in [src/]

    Cachet is a cache that sits in the read path of a sharded MySQL database.  An
    engine serves rows by primary key at one of four consistency levels, fills a
    fleet of Redis-compatible cache nodes through Lua scripts, and invalidates
    them after every write; a tailer follows the binlogs for writes that went
    around the engine; a proxy speaks MySQL to applications; a verifier compares
    cache and database from outside; a client library carries sessions; and tools
    operate and measure the whole.  This library models that code and proves what
    each part promises to the others.

    ** How the code is modelled

    - Definitions follow the source function by function and keep its names
      ([Engine_PutRow] is [(e *Engine) PutRow]).  A [Definition] contains every
      guard, early return and state change of its function; log lines, metrics and
      the texts of most errors are left out.
    - A fallible function returns [result A] (a value, an [error] or a panic); code
      over mutable state is in [M S A := S -> result A * S] (below), so a panic or
      an error keeps the state it happened in.  [errors.Is] is [errors_Is] on how
      an error was built.
    - Fixed-width integers are [Z] with their wrap-around written out ([u64],
      [u32], [i64] below); [float64] is IEEE binary64 (Floats.v); strings are bytes.
    - Readings of clocks, random draws, map iteration orders, cancellations and the
      fate of every network or system call are arguments.  A theorem quantifies
      over them: it holds whatever the clock reads and whichever call fails.
    - Code outside [src/] is an interface with its documented behaviour as laws,
      and each interface has an instance the examples run on: Redis ([RedisLaws],
      [mem_redis], Redis.v), MySQL ([MysqlLaws], [mem_mysql], Mysql.v), files and
      crashes (FileCheckpoint.v), and arguments for the rest.
    - Interfaces of the source between its own parts are classes too: [Cache] with
      [CacheLaws] (the engine's cache), the tailer's cache and checkpoint store
      (Cdc.v), the proxy's upstream (ProxyServer.v).  Client theorems are proved
      against the class; EngineCache.v discharges [CacheLaws] for the real client,
      RefCache.v for its specification, FileCheckpointSpec.v the store's laws.
    - Operations of one component run one at a time, in any order: the source
      guards each state with a mutex, a script is atomic on its server, and a
      transaction holds its rows.  Interleavings are lists of operations
      ([lua_run], [runs], clock histories, event lists).

    ** The parts

    Foundations.  This file (errors, results, the state monad, machine integers,
    tactics, lemmas), GoStd.v (the [strings], [strconv], [sort] and
    [encoding/binary] functions used), Floats.v, Regexp.v (Go's [regexp], run on
    syntax trees), Flags.v (the [flag] package).

    Versions, placement and levels.  Hlc.v ([internal/storage/hlc.go]), Ring.v
    ([internal/hashring], [internal/cache/router.go], [internal/storage/shard.go]),
    Consistency.v ([pkg/consistency]), Freshness.v ([internal/engine/freshness.go],
    [lease.go]), Version.v ([internal/cache/version.go]).

    The cache.  Redis.v, LuaCache.v (the scripts of [internal/cache/lua]),
    Buckets.v and Breaker.v ([internal/breaker]), Admission.v
    ([internal/admission]), CacheClient.v ([internal/cache/client.go], [entry.go]).
    A key's hash on a node represents a [cell]: an optional invalidation mark and
    an optional value; a lease is a second key.

    Rows and shards.  Schema.v and Row.v ([internal/schema]), Table.v, Storage.v,
    Introspect.v ([internal/storage]) over Mysql.v.  A shard's state is its clock,
    its database and the open transaction.

    The engine.  Engine.v ([internal/engine/engine.go], [rows.go], [tables.go]),
    with EngineSpec.v (one operation over any lawful cache), Sessions.v (runs of
    operations: what a session reads back), UpdateSpec.v (conditional writes over
    shards), RefCache.v and EngineCache.v (two lawful caches: the specification and
    the deployed client); EngineApi.v and ApiSpec.v (its two gRPC services); Boot.v
    and BootSpec.v ([boot.go]); Server.v and ServerSpec.v ([server.go]).

    Around the engine.  Cdc.v and CdcSpec.v ([internal/cdc/tailer.go]),
    FileCheckpoint.v and FileCheckpointSpec.v ([checkpoint.go]), Repair.v (tailer,
    cache and engine together); Proxy.v, ProxySpec.v, RewriteSpec.v, ProxyServer.v
    and ConnSpec.v ([internal/proxy]); Sdk.v, SdkSpec.v and SdkSessions.v
    ([pkg/cachet]); Sextant.v, Verifier.v, Sources.v and SextantRun.v with their
    Spec files ([pkg/sextant], [internal/sextant], [cmd/sextant]).

    Running it.  Config.v, ConfigSpec.v and EnvSpec.v ([internal/config]);
    Process.v and ProcessSpec.v ([cmd/cachet], [cmd/cachet-proxy], [cmd/flux],
    [internal/obs]); Ctl.v, CtlSpec.v, Cachetctl.v and CachetctlSpec.v
    ([internal/ctl], [cmd/cachetctl]).

    Measuring it.  Harness.v, Results.v, Bench.v, Benchctl.v with their Spec files
    ([bench/harness], [cmd/benchctl], [internal/ctl/bench.go]); Faults.v
    ([internal/faults]).

    ** What the theorems show

    - The scripts refine the cell, command by command, for any run at
      non-decreasing times ([LuaCache.lua_run_refines]); racing fills and
      invalidations converge on the greatest write, an invalidated row is not
      served again, and a lease admits one filler.
    - The client keeps the engine's laws under any faults
      ([EngineCache.client_implements_cache]), is never shed for a tombstone, and
      no row's key is another row's lease.
    - Over any lawful cache, any run and any faults, a session reads its own writes
      and never the past of what it has seen ([Sessions]); through the client
      library and the wire ([SdkSessions]); and over the deployed client from an
      empty start, with no assumption on keys ([EngineCache.deployed_read_own_writes]).
    - A put is one transaction at one version above the clock and the replaced row;
      a conditional write stamps, reports and invalidates exactly the matching rows
      or says that it did not ([Storage], [UpdateSpec]).
    - A checkpoint never passes an undelivered invalidation, survives a crash at
      any system call, and a row written behind the engine is repaired
      ([CdcSpec], [FileCheckpointSpec], [Repair]).
    - A statement is taken for a read or a write of one row only when it is one, and
      the rewrite changes nothing but its assignment ([ProxySpec], [RewriteSpec]);
      ConnSpec.v proves where a connection falls short.
    - The verifier reports exactly the keys that stayed behind longer than the
      propagation bound, and SextantRunSpec.v which deployments it never checks.
    - Encodings read back: versions, uvarints, rows, keys, sessions, checkpoints,
      measurements; and decoding a row never panics, whatever the bytes.
    - Configurations are accepted exactly by the stated rules, boot exactly when
      the databases agree, and every setting reaches its component, but for the
      exceptions ProcessSpec.v proves.
    - Where the code does not do what it or its documentation says, the theorem
      states what it does.

    ** Bounds and fuel

    Recursion that is not structural carries fuel, always a function of the input
    that a theorem or the loop's own bound shows to be enough: [wait_fuel] is the
    policy's attempts ([Sessions.readWaitingForAnyFill_terminates]);
    [invalidate_fuel] the retries that fit the configured interval
    ([CdcSpec.invalidate_terminates]); scans over text, the
    regular expressions, durations and field splitting take the length of the text,
    each step consuming a byte; digits and uvarints take the width of the integer;
    binary search the length of its range; the session cap the number of shards;
    [dispatch] of the load generator any number above the requests of its schedule;
    the probe of the benchmark commands the polls until its deadline.  Counters of
    the breaker and the benchmarks are unbounded; a size that the code compares with
    a Go length is below 2^63 where a theorem says so.

    ** Not modelled, and why

    - Decoding: YAML and its merge with the environment (koanf), JSON, protobuf:
      libraries; the records they fill are arguments.
    - Transport: gRPC, the MySQL and Redis drivers, the binlog reader, dialling,
      TLS, deadlines inside a call, shutdown signals: libraries and I/O; a call is
      its fate.
    - Metrics, logs, percentiles of the histogram library, printed floats and
      dates: library state that nothing reads back, or rendering.  The values the
      code computes for its gauges are modelled (Process.v).
    - Several processes on one cache node are covered by the runs of LuaCache.v;
      the session theorems are of one engine and its clients.
    - Generated code ([api/]), the test fixtures and their containers ([test/]), and
      the demonstration against a live deployment ([examples/]). *)

From stdpp Require Export base tactics gmap strings list fin_maps sorting.
From Stdlib Require Export ZArith Lia Bool Ascii ZifyBool.

(** ** Notation scope of the development *)

Declare Scope go_scope.
Delimit Scope go_scope with go.

(** ** Go errors

    A Go [error] is modelled by how it was built: a sentinel value, an
    [fmt.Errorf] text, a [%w] wrap, or [errors.Join].  The text is the fixed
    part of the source's format string; [errors_Is] is the standard
    library's [errors.Is]. *)

Inductive sentinel :=
  | ErrNoNodes
  | ErrEmptyKey
  | ErrNotFound
  | ErrInvalidRequest
  | ErrInvalidPredicate
  | ErrInvalidBudget
  | ErrCorruptEntry
  | ErrMissingStalenessBound
  | ErrUnexpectedStalenessBound
  | ErrCanceled
  | ErrDeadlineExceeded
  | ErrExternal.

Inductive error :=
  | Errorf (msg : string)
  | Sentinel (s : sentinel)
  | Wrapf (msg : string) (e : error)
  | Join (e1 e2 : error).

#[global] Instance sentinel_eq_dec : EqDecision sentinel.
Proof. solve_decision. Defined.

#[global] Instance error_eq_dec : EqDecision error.
Proof. solve_decision. Defined.

Fixpoint errors_Is (e : error) (s : sentinel) : bool :=
  match e with
  | Errorf _ => false
  | Sentinel s' => bool_decide (s' = s)
  | Wrapf _ e => errors_Is e s
  | Join e1 e2 => errors_Is e1 s || errors_Is e2 s
  end.

(** ** Results

    What a Go call can do: return values with a nil error, return a non-nil
    error, or panic. *)

Inductive result (A : Type) :=
  | Ok (a : A)
  | Err (e : error)
  | Panic (why : string).
Arguments Ok {A} a.
Arguments Err {A} e.
Arguments Panic {A} why.

#[global] Instance result_eq_dec `{EqDecision A} : EqDecision (result A).
Proof. solve_decision. Defined.

#[global] Instance result_ret : MRet result := @Ok.
#[global] Instance result_bind : MBind result := λ A B f m,
  match m with Ok a => f a | Err e => Err e | Panic w => Panic w end.
#[global] Instance result_fmap : FMap result := λ A B f m,
  match m with Ok a => Ok (f a) | Err e => Err e | Panic w => Panic w end.

Definition is_ok {A} (r : result A) : bool :=
  match r with Ok _ => true | _ => false end.

Definition is_err {A} (r : result A) : bool :=
  match r with Err _ => true | _ => false end.

(** [guard_err b e k]: the early return [if b { return e }]. *)
Definition err_if (b : bool) (e : error) : result unit :=
  if b then Err e else Ok tt.

(** ** Stateful, fallible code

    [M S A] threads a state [S]; the state reached is kept on the error and
    panic paths too, because the source's side effects are not undone by an
    early return. *)

Definition M (S A : Type) : Type := S → result A * S.

#[global] Instance M_ret {S} : MRet (M S) := λ A a s, (Ok a, s).
#[global] Instance M_bind {S} : MBind (M S) := λ A B f m s,
  match m s with
  | (Ok a, s') => f a s'
  | (Err e, s') => (Err e, s')
  | (Panic w, s') => (Panic w, s')
  end.

Definition M_get {S} : M S S := λ s, (Ok s, s).
Definition M_put {S} (s : S) : M S unit := λ _, (Ok tt, s).
Definition M_modify {S} (f : S → S) : M S unit := λ s, (Ok tt, f s).
Definition M_lift {S A} (r : result A) : M S A := λ s, (r, s).
Definition M_fail {S A} (e : error) : M S A := λ s, (Err e, s).
Definition M_panic {S A} (why : string) : M S A := λ s, (Panic why, s).

(** [M_try m]: run [m] and hand its outcome to the code that inspects the
    returned error; a panic is not caught. *)
Definition M_try {S A} (m : M S A) : M S (A + error) := λ s,
  match m s with
  | (Ok a, s') => (Ok (inl a), s')
  | (Err e, s') => (Ok (inr e), s')
  | (Panic w, s') => (Panic w, s')
  end.

(** What a program does from a state: [Q] holds of its outcome and the state it
    leaves. *)
Definition wp {S A} (m : M S A) (Q : result A → S → Prop) (s : S) : Prop := Q (m s).1 (m s).2.

(** String concatenation computes, as on a concrete input it should. *)
#[global] Arguments String.append !_ _ / : simpl nomatch.

(** ** Machine integers *)

Definition u64 (z : Z) : Z := (z mod 2 ^ 64)%Z.
Definition u32 (z : Z) : Z := (z mod 2 ^ 32)%Z.
Definition i64 (z : Z) : Z := ((z + 2 ^ 63) mod 2 ^ 64 - 2 ^ 63)%Z.

Definition is_u64 (z : Z) : Prop := (0 ≤ z < 2 ^ 64)%Z.
Definition is_u32 (z : Z) : Prop := (0 ≤ z < 2 ^ 32)%Z.
Definition is_i64 (z : Z) : Prop := (- 2 ^ 63 ≤ z < 2 ^ 63)%Z.

Definition max_u64 : Z := (2 ^ 64 - 1)%Z.

#[global] Instance is_u64_dec z : Decision (is_u64 z).
Proof. unfold is_u64. apply _. Defined.
#[global] Instance is_u32_dec z : Decision (is_u32 z).
Proof. unfold is_u32. apply _. Defined.
#[global] Instance is_i64_dec z : Decision (is_i64 z).
Proof. unfold is_i64. apply _. Defined.

(** ** Automation *)

Create HintDb cachet discriminated.
#[export] Hint Constants Opaque : cachet.
#[export] Hint Variables Opaque : cachet.

(** [zify_bool]: read every boolean integer test in sight as its proposition. *)
Ltac zify_bool :=
  repeat match goal with
  | H : context [bool_decide _] |- _ => progress rewrite ?bool_decide_eq_true, ?bool_decide_eq_false in H
  | H : (_ <? _)%Z = true |- _ => apply Z.ltb_lt in H
  | H : (_ <? _)%Z = false |- _ => apply Z.ltb_ge in H
  | H : (_ <=? _)%Z = true |- _ => apply Z.leb_le in H
  | H : (_ <=? _)%Z = false |- _ => apply Z.leb_gt in H
  | H : (_ =? _)%Z = true |- _ => apply Z.eqb_eq in H
  | H : (_ =? _)%Z = false |- _ => apply Z.eqb_neq in H
  | H : _ && _ = true |- _ => apply andb_true_iff in H as [? ?]
  | H : _ || _ = false |- _ => apply orb_false_iff in H as [? ?]
  | H : negb _ = true |- _ => apply negb_true_iff in H
  | H : negb _ = false |- _ => apply negb_false_iff in H
  end.

(** [case_if]: split on the test of an [if] whose test is a boolean, naming
    nothing; [go_cases] splits every [if] and [match] in the goal. *)
Ltac case_ifs :=
  repeat match goal with
  | |- context [if ?b then _ else _] => destruct b eqn:?
  | H : context [if ?b then _ else _] |- _ => destruct b eqn:?
  end.

(** [mrun]: run the monadic code of the goal as far as its values allow. *)
Ltac mrun :=
  cbv beta iota delta [mbind M_bind result_bind mret M_ret result_ret fmap result_fmap
       M_get M_put M_modify M_lift M_fail M_panic M_try err_if fst snd].
Tactic Notation "mrun" "in" hyp(H) :=
  cbv beta iota delta [mbind M_bind result_bind mret M_ret result_ret fmap result_fmap
       M_get M_put M_modify M_lift M_fail M_panic M_try err_if fst snd] in H.

Ltac zsolve := zify_bool; unfold is_u64, is_u32, is_i64, max_u64 in *; try lia.

(** ** Generic lemmas *)

Lemma u64_id z : is_u64 z → u64 z = z.
Proof. unfold is_u64, u64. intros. apply Z.mod_small. lia. Qed.

Lemma u64_is z : is_u64 (u64 z).
Proof. unfold is_u64, u64. apply Z.mod_pos_bound. lia. Qed.

Lemma u32_id z : is_u32 z → u32 z = z.
Proof. unfold is_u32, u32. intros. apply Z.mod_small. lia. Qed.

Lemma u32_is z : is_u32 (u32 z).
Proof. unfold is_u32, u32. apply Z.mod_pos_bound. lia. Qed.

Lemma i64_id z : is_i64 z → i64 z = z.
Proof. unfold is_i64, i64. intros. rewrite Z.mod_small; lia. Qed.

Lemma i64_is z : is_i64 (i64 z).
Proof.
  unfold is_i64, i64. pose proof (Z.mod_pos_bound (z + 2 ^ 63) (2 ^ 64)). lia.
Qed.

#[export] Hint Resolve u64_is u32_is i64_is : cachet.

(** Unlike [injection], this leaves the terms as they are. *)
Lemma Ok_inj {A} (a b : A) : Ok a = Ok b → a = b.
Proof. by intros [= ->]. Qed.

Lemma result_bind_ok {A B} (f : A → result B) (m : result A) b :
  (a ← m; f a) = Ok b ↔ ∃ a, m = Ok a ∧ f a = Ok b.
Proof.
  destruct m as [a|e|w]; simpl; split.
  - intros H. by exists a.
  - by intros (? & [= ->] & H).
  - done.
  - by intros (? & ? & ?).
  - done.
  - by intros (? & ? & ?).
Qed.

Lemma M_bind_ok {S A B} (f : A → M S B) (m : M S A) s b s' :
  (a ← m; f a) s = (Ok b, s') ↔ ∃ a s1, m s = (Ok a, s1) ∧ f a s1 = (Ok b, s').
Proof.
  unfold mbind, M_bind. destruct (m s) as [[a|e|w] s1] eqn:E; split;
    solve [ intros H; eauto | intros (? & ? & [= ] & ?); by subst | done ].
Qed.

(** Run the first command of a program whose outcome is known. *)
Lemma M_bind_run {S A B} (f : A → M S B) (m : M S A) s a s1 :
  m s = (Ok a, s1) → (a ← m; f a) s = f a s1.
Proof. unfold mbind, M_bind. by intros ->. Qed.

Lemma M_bind_err {S A B} (f : A → M S B) (m : M S A) s e s1 :
  m s = (Err e, s1) → (a ← m; f a) s = (Err e, s1).
Proof. unfold mbind, M_bind. by intros ->. Qed.

Lemma M_bind_panic {S A B} (f : A → M S B) (m : M S A) s why s1 :
  m s = (Panic why, s1) → (a ← m; f a) s = (Panic why, s1).
Proof. unfold mbind, M_bind. by intros ->. Qed.

Lemma wp_mono {S A} (m : M S A) (Q Q' : result A → S → Prop) s :
  wp m Q s → (∀ r s', Q r s' → Q' r s') → wp m Q' s.
Proof. unfold wp. auto. Qed.

Lemma wp_bind {S A B} (m : M S A) (f : A → M S B) Q s :
  wp m (λ r s', match r with Ok a => wp (f a) Q s' | Err e => Q (Err e) s' | Panic p => Q (Panic p) s' end) s →
  wp (a ← m; f a) Q s.
Proof. unfold wp, mbind, M_bind. by destruct (m s) as [[a|e|p] s']. Qed.

Lemma wp_ret {S A} (a : A) (Q : result A → S → Prop) s : Q (Ok a) s → wp (mret a) Q s.
Proof. done. Qed.

Lemma wp_get {S} (Q : result S → S → Prop) s : Q (Ok s) s → wp M_get Q s.
Proof. done. Qed.

Lemma wp_lift {S A} (r : result A) (Q : result A → S → Prop) s : Q r s → wp (M_lift r) Q s.
Proof. done. Qed.

Lemma wp_fail {S A} e (Q : result A → S → Prop) s : Q (Err e) s → wp (M_fail e) Q s.
Proof. done. Qed.

Lemma wp_try {S A} (m : M S A) Q s :
  wp m (λ r s', match r with Ok a => Q (Ok (inl a)) s' | Err e => Q (Ok (inr e)) s' | Panic p => Q (Panic p) s' end) s →
  wp (M_try m) Q s.
Proof. unfold wp, M_try. by destruct (m s) as [[a|e|p] s']. Qed.

Lemma wp_run {S A} (m : M S A) Q s r s' : wp m Q s → m s = (r, s') → Q r s'.
Proof. unfold wp. intros H E. by rewrite E in H. Qed.

Lemma err_if_ok b e u : err_if b e = Ok u ↔ b = false.
Proof. by destruct b, u. Qed.

Lemma filter_id {A} (P : A → Prop) `{!∀ x, Decision (P x)} (l : list A) :
  (∀ x, x ∈ l → P x) → filter P l = l.
Proof.
  induction l as [|x l IH]; [done|]. intros HP.
  rewrite filter_cons_True by (apply HP, list_elem_of_here). f_equal.
  apply IH. intros y Hy. by apply HP, list_elem_of_further.
Qed.

Lemma filter_ext_in {A} (P Q : A → Prop) `{!∀ x, Decision (P x)} `{!∀ x, Decision (Q x)} (l : list A) :
  (∀ x, x ∈ l → P x ↔ Q x) → filter P l = filter Q l.
Proof.
  induction l as [|x l IH]; [done|]. intros HPQ. rewrite !filter_cons.
  assert (filter P l = filter Q l) as -> by (apply IH; intros; by apply HPQ, list_elem_of_further).
  pose proof (HPQ x (list_elem_of_here _ _)). repeat case_decide; tauto || done.
Qed.
