(* ===== verification/GoStd.v ===== *)
(** The parts of the Go standard library the source relies on, over strings of
    bytes: [strconv]'s decimal conversions, [strings]' cutting and trimming,
    [sort.Search], [encoding/binary]'s uvarints. *)

From S2P Require Import Prelude.

Local Open Scope Z_scope.

(** ** Bytes *)

Definition byte_val (c : ascii) : Z := Z.of_N (N_of_ascii c).
Definition byte_of (z : Z) : ascii := ascii_of_N (Z.to_N (z mod 256)).

Lemma byte_val_range c : 0 ≤ byte_val c < 256.
Proof.
  unfold byte_val. pose proof (N_ascii_bounded c). lia.
Qed.

Lemma byte_of_val c : byte_of (byte_val c) = c.
Proof.
  unfold byte_of. rewrite Z.mod_small by apply byte_val_range.
  unfold byte_val. rewrite N2Z.id. apply ascii_N_embedding.
Qed.

Lemma byte_val_of z : 0 ≤ z < 256 → byte_val (byte_of z) = z.
Proof.
  intros Hz. unfold byte_of, byte_val. rewrite Z.mod_small by done.
  rewrite N_ascii_embedding; lia.
Qed.

Lemma byte_val_inj c d : byte_val c = byte_val d → c = d.
Proof. intros H. by rewrite <-(byte_of_val c), H, byte_of_val. Qed.

(** ** strings *)

Fixpoint str_len (s : string) : Z :=
  match s with "" => 0 | String _ s => 1 + str_len s end.

(** [strings.Contains(s, string(c))] for a one-byte needle. *)
Fixpoint contains_byte (c : ascii) (s : string) : bool :=
  match s with
  | "" => false
  | String d s => bool_decide (d = c) || contains_byte c s
  end.

(** [strings.Cut(s, string(c))]: the text before and after the first [c]. *)
Fixpoint cut_byte (c : ascii) (s : string) : option (string * string) :=
  match s with
  | "" => None
  | String d s =>
      if bool_decide (d = c) then Some ("", s)
      else match cut_byte c s with
           | Some (a, b) => Some (String d a, b)
           | None => None
           end
  end.

(** [strings.Split(s, string(c))]. *)
Fixpoint split_byte (c : ascii) (s : string) : list string :=
  match s with
  | "" => [""]
  | String d s =>
      if bool_decide (d = c) then "" :: split_byte c s
      else match split_byte c s with
           | w :: ws => String d w :: ws
           | [] => [String d ""]
           end
  end.

(** [strings.Join(parts, sep)]. *)
Fixpoint join (sep : string) (parts : list string) : string :=
  match parts with
  | [] => ""
  | [p] => p
  | p :: ps => p +:+ sep +:+ join sep ps
  end.

Fixpoint str_repeat (s : string) (n : nat) : string :=
  match n with O => "" | S n => s +:+ str_repeat s n end.

Fixpoint str_all (P : ascii → bool) (s : string) : bool :=
  match s with "" => true | String c s => P c && str_all P s end.

(** Go's [<] on strings: bytewise lexicographic. *)
Fixpoint str_ltb (s t : string) : bool :=
  match s, t with
  | _, "" => false
  | "", String _ _ => true
  | String c s, String d t =>
      if byte_val c <? byte_val d then true
      else if byte_val d <? byte_val c then false
      else str_ltb s t
  end.

(** [strings.HasSuffix], [strings.HasPrefix] and [strings.Contains]. *)
Fixpoint str_suffix (suf s : string) : bool :=
  bool_decide (s = suf) || match s with "" => false | String _ r => str_suffix suf r end.

Fixpoint str_prefix (pre s : string) : bool :=
  match pre, s with
  | "", _ => true
  | String c p, String d r => bool_decide (c = d) && str_prefix p r
  | _, "" => false
  end.

Fixpoint str_contains (sub s : string) : bool :=
  str_prefix sub s || match s with "" => false | String _ r => str_contains sub r end.

Fixpoint str_take (n : nat) (s : string) : string :=
  match n, s with S n, String c s => String c (str_take n s) | _, _ => "" end.

Fixpoint str_drop (n : nat) (s : string) : string :=
  match n, s with S n, String _ s => str_drop n s | _, _ => s end.

Fixpoint str_of_bytes (l : list Z) : string :=
  match l with [] => "" | b :: l => String (byte_of b) (str_of_bytes l) end.

Fixpoint bytes_of_str (s : string) : list Z :=
  match s with "" => [] | String c s => byte_val c :: bytes_of_str s end.

(** [strings.TrimSuffix]. *)
Fixpoint TrimSuffix (s suffix : string) : string :=
  if bool_decide (s = suffix) then ""
  else match s with "" => "" | String c s => String c (TrimSuffix s suffix) end.

Lemma str_app_nil_r s : s +:+ "" = s.
Proof. induction s as [|c s IH]; [done|]. cbn. by f_equal. Qed.

Lemma str_app_assoc s t u : s +:+ (t +:+ u) = (s +:+ t) +:+ u.
Proof. induction s as [|c s IH]; [done|]. cbn. by f_equal. Qed.

Lemma str_app_cons c s t : String c s +:+ t = String c (s +:+ t).
Proof. done. Qed.

Lemma str_len_app s t : str_len (s +:+ t) = str_len s + str_len t.
Proof. induction s as [|c s IH]; [done|]. rewrite str_app_cons. simpl. lia. Qed.

Lemma str_length_app s t : String.length (s +:+ t) = (String.length s + String.length t)%nat.
Proof. induction s as [|c s IH]; [done|]. rewrite str_app_cons. cbn. by rewrite IH. Qed.

Lemma str_len_nonneg s : 0 ≤ str_len s.
Proof. induction s; simpl; lia. Qed.

Lemma str_prefix_app a b : str_prefix a (a +:+ b) = true.
Proof.
  induction a as [|c a IH]; [by destruct b|]. rewrite str_app_cons. cbn [str_prefix].
  rewrite bool_decide_eq_true_2 by done. exact IH.
Qed.

Lemma str_all_app P s t : str_all P (s +:+ t) = str_all P s && str_all P t.
Proof.
  induction s as [|c s IH]; [done|]. rewrite str_app_cons. simpl.
  by rewrite IH, andb_assoc.
Qed.

Lemma contains_byte_app c s t :
  contains_byte c (s +:+ t) = contains_byte c s || contains_byte c t.
Proof.
  induction s as [|d s IH]; [done|]. rewrite str_app_cons. simpl.
  by rewrite IH, orb_assoc.
Qed.

Lemma contains_join c sep ps : contains_byte c sep = false → Forall (λ p, contains_byte c p = false) ps → contains_byte c (join sep ps) = false.
Proof.
  intros Hs. induction 1 as [|p ps Hp Hps IH]; [done|]. destruct ps as [|q ps]; [done|]. cbn [join] in *.
  by rewrite !contains_byte_app, Hp, Hs, IH.
Qed.

Lemma cut_byte_app c s t :
  contains_byte c s = false → cut_byte c (s +:+ String c t) = Some (s, t).
Proof.
  induction s as [|d s IH]; simpl; intros H.
  - by rewrite bool_decide_eq_true_2.
  - apply orb_false_iff in H as [H1 H2]. by rewrite H1, IH.
Qed.

Lemma cut_byte_Some c s a b :
  cut_byte c s = Some (a, b) → s = a +:+ String c b ∧ contains_byte c a = false.
Proof.
  revert a b. induction s as [|d s IH]; intros a b; simpl; [done|].
  case_bool_decide as Hd.
  - intros [= <- <-]. subst. done.
  - destruct (cut_byte c s) as [[a' b']|] eqn:E; [|done].
    intros [= <- <-]. destruct (IH _ _ eq_refl) as [-> Hc].
    split; [done|]. simpl. rewrite Hc. by rewrite bool_decide_eq_false_2.
Qed.

Lemma split_elements c s : Forall (λ e, contains_byte c e = false) (split_byte c s).
Proof.
  induction s as [|d s IH]; [by repeat constructor|]. cbn [split_byte]. case_bool_decide as Hd; [by constructor|].
  destruct (split_byte c s) as [|w ws]; [by repeat constructor; cbn; rewrite bool_decide_eq_false_2|].
  apply Forall_cons in IH as [Hw Hws]. constructor; [|done]. cbn. by rewrite bool_decide_eq_false_2.
Qed.

Lemma split_byte_nonempty c s : split_byte c s ≠ [].
Proof. destruct s; simpl; [done|]. case_bool_decide; [done|]. by case_match. Qed.

Lemma split_byte_none c s : contains_byte c s = false → split_byte c s = [s].
Proof.
  induction s as [|d s IH]; simpl; [done|]. intros [H1 H2]%orb_false_iff.
  by rewrite H1, IH.
Qed.

Lemma split_byte_app c s t :
  contains_byte c s = false → split_byte c (s +:+ String c t) = s :: split_byte c t.
Proof.
  induction s as [|d s IH]; simpl; intros H.
  - by rewrite bool_decide_eq_true_2.
  - apply orb_false_iff in H as [H1 H2]. by rewrite H1, IH.
Qed.

Lemma split_join c ws :
  Forall (λ w, contains_byte c w = false) ws → ws ≠ [] →
  split_byte c (join (String c "") ws) = ws.
Proof.
  induction ws as [|w ws IH]; [done|]. intros Hall%Forall_cons _.
  destruct Hall as [Hw Hws]. destruct ws as [|w' ws]; simpl.
  - by apply split_byte_none.
  - rewrite split_byte_app by done. f_equal. by apply IH.
Qed.

Lemma str_ltb_irrefl s : str_ltb s s = false.
Proof. induction s as [|c s IH]; simpl; [done|]. by rewrite Z.ltb_irrefl. Qed.

(** ** strconv: decimal *)

Definition digit (d : Z) : ascii := byte_of (48 + d).
Definition is_digit (c : ascii) : bool := (48 <=? byte_val c) && (byte_val c <=? 57).
Definition digit_val (c : ascii) : Z := byte_val c - 48.

Fixpoint fmt_dec (fuel : nat) (n : Z) (acc : string) : string :=
  match fuel with
  | O => acc
  | S fuel =>
      if n <? 10 then String (digit n) acc
      else fmt_dec fuel (n / 10) (String (digit (n mod 10)) acc)
  end.

(** [strconv.FormatUint(n, 10)]. *)
Definition FormatUint (n : Z) : string := fmt_dec (S (Z.to_nat (Z.log2 n))) n "".

(** [strconv.FormatInt(n, 10)]. *)
Definition FormatInt (n : Z) : string :=
  if n <? 0 then "-" +:+ FormatUint (- n) else FormatUint n.

Fixpoint dec_val (acc : Z) (s : string) : Z :=
  match s with "" => acc | String c s => dec_val (10 * acc + digit_val c) s end.

(** [strconv.ParseUint(s, 10, bits)]. *)
Definition ParseUint (s : string) (bits : Z) : result Z :=
  if bool_decide (s = "") then Err (Errorf "invalid syntax")
  else if negb (str_all is_digit s) then Err (Errorf "invalid syntax")
  else if dec_val 0 s <? 2 ^ bits then Ok (dec_val 0 s)
  else Err (Errorf "value out of range").

(** [strconv.ParseInt(s, 10, 64)]. *)
Definition ParseInt (s : string) : result Z :=
  match s with
  | "" => Err (Errorf "invalid syntax")
  | String c r =>
      let neg := bool_decide (c = "-"%char) in
      let body := if neg || bool_decide (c = "+"%char) then r else s in
      v ← ParseUint body 64;
      if neg then (if v <=? 2 ^ 63 then Ok (- v) else Err (Errorf "value out of range"))
      else if v <? 2 ^ 63 then Ok v else Err (Errorf "value out of range")
  end.

Lemma digit_val_digit d : 0 ≤ d < 10 → digit_val (digit d) = d.
Proof. intros. unfold digit_val, digit. rewrite byte_val_of; lia. Qed.

Lemma is_digit_digit d : 0 ≤ d < 10 → is_digit (digit d) = true.
Proof. intros. unfold is_digit, digit. rewrite byte_val_of; lia. Qed.

Lemma is_digit_val c : is_digit c = true → 0 ≤ digit_val c < 10.
Proof. unfold is_digit, digit_val. intros. zify_bool. lia. Qed.

Lemma dec_val_app a s t : dec_val a (s +:+ t) = dec_val (dec_val a s) t.
Proof. revert a. induction s as [|c s IH]; intros a; [done|]. rewrite str_app_cons. simpl. apply IH. Qed.

Lemma dec_val_acc a s : dec_val a s = a * 10 ^ str_len s + dec_val 0 s.
Proof.
  revert a. induction s as [|c s IH]; intros a; cbn [dec_val str_len].
  - lia.
  - rewrite (IH (10 * a + _)), (IH (10 * 0 + _)).
    rewrite Z.pow_add_r by (pose proof (str_len_nonneg s); lia). lia.
Qed.

Lemma fmt_dec_fuel_step n :
  10 ≤ n → (S (Z.to_nat (Z.log2 (n / 10))) ≤ Z.to_nat (Z.log2 n))%nat.
Proof.
  intros Hn.
  assert (Z.log2 (n / 10) < Z.log2 n); [|pose proof (Z.log2_nonneg (n/10)); lia].
  apply Z.log2_lt_pow2; [apply Z.div_str_pos; lia|].
  apply Z.div_lt_upper_bound; [lia|].
  pose proof (Z.log2_spec n ltac:(lia)) as [_ H]. rewrite Z.pow_succ_r in H by apply Z.log2_nonneg.
  lia.
Qed.

Lemma fmt_dec_val fuel n acc :
  0 ≤ n → (S (Z.to_nat (Z.log2 n)) ≤ fuel)%nat →
  dec_val 0 (fmt_dec fuel n acc) = n * 10 ^ str_len acc + dec_val 0 acc ∧
  str_all is_digit (fmt_dec fuel n acc) = str_all is_digit acc ∧
  fmt_dec fuel n acc ≠ "".
Proof.
  revert n acc. induction fuel as [|fuel IH]; intros n acc Hn Hf; [lia|].
  cbn [fmt_dec]. destruct (Z.ltb_spec n 10) as [Hlt|Hge].
  - cbn [dec_val str_all]. rewrite digit_val_digit, is_digit_digit by lia.
    rewrite dec_val_acc. split_and!; [lia|done|done].
  - destruct (IH (n / 10) (String (digit (n mod 10)) acc)) as (H1 & H2 & H3).
    { apply Z.div_pos; lia. }
    { pose proof (fmt_dec_fuel_step n Hge). lia. }
    pose proof (Z.mod_pos_bound n 10 ltac:(lia)).
    rewrite H1, H2. cbn [dec_val str_all str_len].
    rewrite is_digit_digit, digit_val_digit by lia.
    split_and!; [|done|done].
    rewrite (dec_val_acc (10 * 0 + _)).
    rewrite Z.pow_add_r by (pose proof (str_len_nonneg acc); lia).
    pose proof (Z.div_mod n 10 ltac:(lia)). nia.
Qed.

Lemma FormatUint_spec n :
  0 ≤ n →
  dec_val 0 (FormatUint n) = n ∧ str_all is_digit (FormatUint n) = true ∧ FormatUint n ≠ "".
Proof.
  intros Hn. destruct (fmt_dec_val (S (Z.to_nat (Z.log2 n))) n "" Hn (le_n _)) as (H1 & H2 & H3).
  split_and!; [|done..]. unfold FormatUint. rewrite H1. cbn [dec_val str_len]. lia.
Qed.

Lemma FormatUint_inj m n : 0 ≤ m → 0 ≤ n → FormatUint m = FormatUint n → m = n.
Proof.
  intros Hm Hn H. destruct (FormatUint_spec m Hm) as [<- _]. rewrite H.
  apply FormatUint_spec, Hn.
Qed.

Lemma ParseUint_FormatUint n bits :
  0 ≤ n < 2 ^ bits → ParseUint (FormatUint n) bits = Ok n.
Proof.
  intros Hn. destruct (FormatUint_spec n) as (H1 & H2 & H3); [lia|].
  unfold ParseUint. rewrite bool_decide_eq_false_2 by done. rewrite H2, H1. simpl.
  by rewrite (proj2 (Z.ltb_lt _ _)) by lia.
Qed.

Lemma ParseUint_range s bits v : ParseUint s bits = Ok v → 0 ≤ v < 2 ^ bits.
Proof.
  unfold ParseUint. case_bool_decide; [done|].
  destruct (str_all is_digit s) eqn:Hd; [|done]. simpl.
  destruct (Z.ltb_spec (dec_val 0 s) (2 ^ bits)); [|done]. intros [= <-].
  split; [|done].
  assert (∀ t a, str_all is_digit t = true → 0 ≤ a → 0 ≤ dec_val a t) as Hnn.
  { induction t as [|c t IH]; intros a Ht Ha; simpl in *; [done|].
    apply andb_true_iff in Ht as [Hc Ht]. pose proof (is_digit_val _ Hc).
    apply IH; [done|lia]. }
  by apply Hnn.
Qed.

Lemma ParseInt_range s v : ParseInt s = Ok v → is_i64 v.
Proof.
  unfold ParseInt, is_i64. destruct s as [|c r]; [done|].
  intros (u & Hu%ParseUint_range & H)%result_bind_ok.
  destruct (bool_decide (c = "-"%char)).
  - destruct (Z.leb_spec u (2 ^ 63)); [|done]. injection H as <-. lia.
  - destruct (Z.ltb_spec u (2 ^ 63)); [|done]. injection H as <-. lia.
Qed.

(** ** fmt: ["%0*d"] for a non-negative integer *)

Definition zero_pad (width : nat) (s : string) : string :=
  str_repeat "0" (width - Z.to_nat (str_len s)) +:+ s.

Lemma zero_repeat_spec n :
  str_len (str_repeat "0" n) = Z.of_nat n ∧
  str_all is_digit (str_repeat "0" n) = true ∧ ∀ s, dec_val 0 (str_repeat "0" n +:+ s) = dec_val 0 s.
Proof.
  induction n as [|n (IH1 & IH2 & IH3)]; [done|]. simpl.
  split_and!.
  - simpl. lia.
  - simpl. by rewrite IH2.
  - intros s. cbn [dec_val].
    change (10 * 0 + digit_val "0") with 0. apply IH3.
Qed.

(** ** sort.Search *)

Fixpoint search_loop (fuel : nat) (f : Z → bool) (i j : Z) : Z :=
  match fuel with
  | O => i
  | S fuel =>
      if i <? j then
        let h := (i + j) / 2 in
        if negb (f h) then search_loop fuel f (h + 1) j else search_loop fuel f i h
      else i
  end.

(** [sort.Search(n, f)]: binary search; [n + 1] rounds are more than enough,
    since each one shrinks the interval. *)
Definition Search (n : Z) (f : Z → bool) : Z := search_loop (S (Z.to_nat n)) f 0 n.

Lemma search_loop_spec fuel f i j lo hi :
  lo ≤ i ≤ j → j ≤ hi → (Z.to_nat (j - i) < fuel)%nat →
  (∀ a b, lo ≤ a ≤ b → b < hi → f a = true → f b = true) →
  (∀ a, lo ≤ a < i → f a = false) → (∀ a, j ≤ a < hi → f a = true) →
  let r := search_loop fuel f i j in
  i ≤ r ≤ j ∧ (∀ a, lo ≤ a < r → f a = false) ∧ (∀ a, r ≤ a < hi → f a = true).
Proof.
  revert i j. induction fuel as [|fuel IH]; intros i j Hij Hj Hf Hm Hlo Hhi; [lia|].
  cbn [search_loop]. destruct (Z.ltb_spec i j) as [Hlt|Hge].
  - pose proof (Z.div_mod (i + j) 2 ltac:(lia)).
    pose proof (Z.mod_pos_bound (i + j) 2 ltac:(lia)).
    set (h := (i + j) / 2) in *.
    destruct (f h) eqn:Hh; simpl.
    + destruct (IH i h) as (H1 & H2 & H3); [lia..|done|done| |].
      { intros a Ha. apply (Hm h a); [lia..|done]. }
      split_and!; [lia..|done|done].
    + destruct (IH (h + 1) j) as (H1 & H2 & H3); [lia..|done| |done|].
      { intros a Ha. destruct (f a) eqn:Hfa; [|done].
        rewrite <-Hh. symmetry. apply (Hm a h); [lia..|done]. }
      split_and!; [lia..|done|done].
  - replace j with i in * by lia. split_and!; [lia..|done|done].
Qed.

(** For a monotone test, [sort.Search] finds the first index that passes. *)
Lemma Search_spec n f :
  0 ≤ n → (∀ a b, 0 ≤ a ≤ b → b < n → f a = true → f b = true) →
  0 ≤ Search n f ≤ n ∧
  (∀ a, 0 ≤ a < Search n f → f a = false) ∧ (∀ a, Search n f ≤ a < n → f a = true).
Proof.
  intros Hn Hm. apply search_loop_spec; [lia..|done| |]; intros a Ha; lia.
Qed.

(** ** sort.Strings *)

Definition str_le (s t : string) : Prop := str_ltb t s = false.
Instance str_le_dec s t : Decision (str_le s t) := decide (str_ltb t s = false).
Definition sort_Strings (l : list string) : list string := merge_sort str_le l.

(** ** time.Duration *)

Definition Millisecond : Z := 1000000.
Definition Second : Z := 1000000000.
Definition Minute : Z := 60 * Second.
Definition Hour : Z := 60 * Minute.

(** [Duration.String]. *)

(** The fraction [v / 10^prec] without trailing zeros, with its point. *)
Fixpoint fmt_frac (prec : nat) (v : Z) (print : bool) (acc : string) : string :=
  match prec with
  | O => if print then "." +:+ acc else ""
  | S prec =>
      let digit := v mod 10 in
      let print := print || negb (digit =? 0) in
      fmt_frac prec (v / 10) print (if print then FormatUint digit +:+ acc else acc)
  end.

Definition Duration_String (d : Z) : string :=
  let u := u64 (Z.abs d) in
  let sign := if d <? 0 then "-" else "" in
  let text (prec : nat) (suffix : string) :=
    FormatUint (u / 10 ^ Z.of_nat prec) +:+ fmt_frac prec u false "" +:+ suffix in
  if u =? 0 then "0s"
  else if u <? 1000 then sign +:+ text 0%nat "ns"
  else if u <? 1000000 then sign +:+ text 3%nat (String "194" (String "181" "s"))
  else if u <? 1000000000 then sign +:+ text 6%nat "ms"
  else
    let s := u / 1000000000 in
    let m := s / 60 in
    let h := m / 60 in
    sign +:+ (if 0 <? h then FormatUint h +:+ "h" else "")
         +:+ (if 0 <? m then FormatUint (m mod 60) +:+ "m" else "")
         +:+ FormatUint (s mod 60) +:+ fmt_frac 9 u false "" +:+ "s".
