(* ===== verification/Floats.v ===== *)
(** Go's [float64] as IEEE 754 binary64: the operations the source uses, by
    Corelib's executable specification (53-bit significand, emax 1024). *)

From Corelib Require Export SpecFloat.
From S2P Require Import Prelude GoStd.

Local Open Scope Z_scope.

Abbreviation float64 := spec_float.

Definition f_of_int (z : Z) : float64 := binary_normalize 53 1024 z 0 false.
Definition f_add : float64 → float64 → float64 := SFadd 53 1024.
Definition f_sub : float64 → float64 → float64 := SFsub 53 1024.
Definition f_mul : float64 → float64 → float64 := SFmul 53 1024.
Definition f_div : float64 → float64 → float64 := SFdiv 53 1024.

(** [time.Duration.Seconds]. *)
Definition Duration_Seconds (d : Z) : float64 :=
  f_add (f_of_int (Z.quot d Second)) (f_div (f_of_int (Z.rem d Second)) (f_of_int Second)).

(** Go's [<] and [<=]: false as soon as one side is NaN. *)
Definition f_lt (x y : float64) : bool := SFltb x y.
Definition f_le (x y : float64) : bool := SFleb x y.

Definition f_zero : float64 := S754_zero false.
Definition f_one : float64 := f_of_int 1.

(** The decimal literal [n/d] rounded to nearest. *)
Definition f_ratio (n d : Z) : float64 := f_div (f_of_int n) (f_of_int d).

Definition is_nan (x : float64) : bool := match x with S754_nan => true | _ => false end.

(** The order on numbers: a sign-magnitude key, compared lexicographically. *)
Definition f_key (x : float64) : Z * Z * Z :=
  match x with
  | S754_nan => (0, 0, 0)
  | S754_infinity s => (if s then -2 else 2, 0, 0)
  | S754_zero _ => (0, 0, 0)
  | S754_finite s m e => if s then (-1, - e, Z.neg m) else (1, e, Z.pos m)
  end.

Definition key_le (a b : Z * Z * Z) : Prop :=
  a.1.1 < b.1.1 ∨ a.1.1 = b.1.1 ∧ (a.1.2 < b.1.2 ∨ a.1.2 = b.1.2 ∧ a.2 ≤ b.2).

Definition key_lt (a b : Z * Z * Z) : Prop := ¬ key_le b a.

Lemma SFcompare_key x y :
  is_nan x = false → is_nan y = false →
  match SFcompare x y with
  | Some Lt => key_lt (f_key x) (f_key y)
  | Some Eq => f_key x = f_key y
  | Some Gt => key_lt (f_key y) (f_key x)
  | None => False
  end.
Proof.
  destruct x as [s|s| |s m e], y as [s'|s'| |s' m' e']; try done; intros _ _;
    unfold key_lt, key_le; simpl;
    try (destruct s; simpl; try done; lia); try (destruct s'; simpl; try done; lia);
    try (destruct s, s'; simpl; try done; lia).
  destruct s, s'; simpl; try lia;
    destruct (Z.compare_spec e e'); simpl; try lia; subst;
    change (Pos.compare_cont Eq m m') with (Pos.compare m m');
    destruct (Pos.compare_spec m m'); simpl; subst; try done; lia.
Qed.

Lemma f_lt_key x y :
  is_nan x = false → is_nan y = false → f_lt x y = true ↔ key_lt (f_key x) (f_key y).
Proof.
  intros Hx Hy. pose proof (SFcompare_key x y Hx Hy) as H. unfold f_lt, SFltb.
  destruct (SFcompare x y) as [[]|]; [| | |done]; unfold key_lt, key_le in *;
    split; intros Hc; first [done | exfalso; rewrite ?H in *; lia | rewrite ?H in *; lia].
Qed.

Lemma f_le_key x y :
  is_nan x = false → is_nan y = false → f_le x y = true ↔ key_le (f_key x) (f_key y).
Proof.
  intros Hx Hy. pose proof (SFcompare_key x y Hx Hy) as H. unfold f_le, SFleb.
  destruct (SFcompare x y) as [[]|]; [| | |done]; unfold key_lt, key_le in *;
    split; intros Hc; first [done | exfalso; rewrite ?H in *; lia | rewrite ?H in *; lia].
Qed.

Lemma f_le_trans x y z :
  is_nan x = false → is_nan y = false → is_nan z = false →
  f_le x y = true → f_le y z = true → f_le x z = true.
Proof. intros Hx Hy Hz. rewrite !f_le_key by done. unfold key_le. lia. Qed.

Lemma f_not_lt x y :
  is_nan x = false → is_nan y = false → f_lt x y = false → f_le y x = true.
Proof.
  intros Hx Hy H. rewrite f_le_key by done. apply dec_stable. intros Hn.
  assert (f_lt x y = true) by (by apply f_lt_key). congruence.
Qed.

Lemma f_le_not_nan x y : f_le x y = true → is_nan x = false ∧ is_nan y = false.
Proof. by destruct x, y. Qed.

Lemma f_lt_le x y : f_lt x y = true → f_le x y = true.
Proof. unfold f_lt, f_le, SFltb, SFleb. by destruct (SFcompare x y) as [[]|]. Qed.

Lemma f_le_refl x : is_nan x = false → f_le x x = true.
Proof. intros Hx. rewrite f_le_key by done. unfold key_le. lia. Qed.
