(* ===== verification/Hlc.v ===== *)
(** Hybrid logical clock: [src/internal/storage/hlc.go].

    A [Version] is a 64-bit integer, 48 bits of milliseconds over 16 bits of
    logical count; a [Clock] is its [last] field, and the reading of the wall
    clock is an argument of the operations that call [c.now()]. *)

From S2P Require Import Prelude.

Local Open Scope Z_scope.

Definition logicalBits : Z := 16.
Definition logicalMask : Z := Z.shiftl 1 logicalBits - 1.
Definition MaxPhysicalMillis : Z := Z.shiftl 1 (64 - logicalBits) - 1.
Definition MaxLogical : Z := logicalMask.

(** ** Versions *)

Definition NewVersion (physicalMillis logical : Z) : result Z :=
  if (physicalMillis <? 0) || (MaxPhysicalMillis <? physicalMillis) then
    Panic "storage: physical millis out of range for a Version"
  else Ok (Z.lor (u64 (Z.shiftl physicalMillis logicalBits)) logical).

Definition Version_PhysicalMillis (v : Z) : Z := Z.shiftr v logicalBits.
Definition Version_Logical (v : Z) : Z := Z.land v logicalMask.

(** ** The clock *)

Record Clock := mkClock { Clock_last : Z }.

Definition NewClock : Clock := mkClock 0.

Definition Clock_advanceLogicalLocked : M Clock Z :=
  c ← M_get;
  if Version_Logical (Clock_last c) =? MaxLogical then
    v ← M_lift (NewVersion (Version_PhysicalMillis (Clock_last c) + 1) 0);
    M_put (mkClock v);; mret v
  else
    v ← M_lift (NewVersion (Version_PhysicalMillis (Clock_last c))
                           (Version_Logical (Clock_last c) + 1));
    M_put (mkClock v);; mret v.

Definition Clock_Next (nowMillis : Z) : M Clock Z :=
  c ← M_get;
  if Version_PhysicalMillis (Clock_last c) <? nowMillis then
    v ← M_lift (NewVersion nowMillis 0);
    M_put (mkClock v);; mret v
  else Clock_advanceLogicalLocked.

Definition Clock_Now (nowMillis : Z) : M Clock Z :=
  candidate ← M_lift (NewVersion nowMillis 0);
  c ← M_get;
  (if Clock_last c <? candidate then M_put (mkClock candidate) else mret tt);;
  c ← M_get;
  mret (Clock_last c).

Definition Clock_Observe (v : Z) : M Clock unit :=
  c ← M_get;
  if Clock_last c <? v then M_put (mkClock v) else mret tt.

(** The operations engines interleave on one shard's clock, and the version
    each of them makes public: the one issued, or the one observed. *)
Inductive clock_op :=
  | OpNext (nowMillis : Z)
  | OpNow (nowMillis : Z)
  | OpObserve (v : Z).

Definition clock_step (op : clock_op) : M Clock Z :=
  match op with
  | OpNext t => Clock_Next t
  | OpNow t => Clock_Now t
  | OpObserve v => Clock_Observe v;; mret v
  end.

Fixpoint clock_run (ops : list clock_op) : M Clock (list Z) :=
  match ops with
  | [] => mret []
  | op :: ops => v ← clock_step op; vs ← clock_run ops; mret (v :: vs)
  end.

Definition op_in_range (op : clock_op) : Prop :=
  match op with
  | OpNext t | OpNow t => 0 ≤ t ≤ MaxPhysicalMillis
  | OpObserve v => is_u64 v
  end.

Definition op_bound (op : clock_op) : Z :=
  match op with OpNext t | OpNow t => Z.shiftl t logicalBits | OpObserve v => v end.

Definition op_issues (op : clock_op) : Z :=
  match op with OpNext _ => 1 | _ => 0 end.

Definition Clock_wf (c : Clock) : Prop := is_u64 (Clock_last c).

(** ** Packing *)

Lemma pack_eq p l : 0 ≤ l < 2 ^ 16 → Z.lor (Z.shiftl p 16) l = p * 2 ^ 16 + l.
Proof.
  intros Hl. assert (Z.land (Z.shiftl p 16) l = 0) as H0.
  { apply Z.bits_inj_iff'. intros n Hn. rewrite Z.land_spec, Z.bits_0.
    destruct (Z.ltb_spec n 16).
    - by rewrite Z.shiftl_spec_low by lia.
    - rewrite <-(Z.mod_small l (2 ^ 16)) by lia.
      rewrite Z.mod_pow2_bits_high by lia. apply andb_false_r. }
  pose proof (Z.add_lor_land (Z.shiftl p 16) l). rewrite Z.shiftl_mul_pow2 in * by lia. lia.
Qed.

Lemma phys_div v : Version_PhysicalMillis v = v / 2 ^ 16.
Proof. unfold Version_PhysicalMillis, logicalBits. by rewrite Z.shiftr_div_pow2. Qed.

Lemma logical_mod v : Version_Logical v = v mod 2 ^ 16.
Proof.
  unfold Version_Logical, logicalMask, logicalBits.
  change (Z.shiftl 1 16 - 1) with (Z.ones 16). by rewrite Z.land_ones.
Qed.

Lemma version_split v :
  v = Version_PhysicalMillis v * 2 ^ 16 + Version_Logical v ∧ 0 ≤ Version_Logical v < 2 ^ 16.
Proof.
  rewrite phys_div, logical_mod. pose proof (Z.div_mod v (2 ^ 16) ltac:(lia)).
  pose proof (Z.mod_pos_bound v (2 ^ 16) ltac:(lia)). lia.
Qed.

Lemma MaxPhysicalMillis_eq : MaxPhysicalMillis = 2 ^ 48 - 1.
Proof. reflexivity. Qed.

Lemma NewVersion_spec p l :
  0 ≤ l < 2 ^ 16 →
  NewVersion p l =
    if decide (0 ≤ p ≤ MaxPhysicalMillis) then Ok (p * 2 ^ 16 + l)
    else Panic "storage: physical millis out of range for a Version".
Proof.
  intros Hl. unfold NewVersion. rewrite MaxPhysicalMillis_eq. case_decide as Hp.
  - rewrite (proj2 (Z.ltb_ge _ _)), (proj2 (Z.ltb_ge _ _)) by lia. simpl. f_equal.
    unfold logicalBits. rewrite u64_id.
    + by apply pack_eq.
    + unfold is_u64. rewrite Z.shiftl_mul_pow2 by lia. lia.
  - destruct ((p <? 0) || (2 ^ 48 - 1 <? p)) eqn:E; [done|]. zify_bool. lia.
Qed.

(** The next version of the clock: the wall clock's when that is ahead of the
    last physical component, else the successor of the last one. *)
Definition next_version (nowMillis last : Z) : Z :=
  if Version_PhysicalMillis last <? nowMillis then nowMillis * 2 ^ 16 else last + 1.

Lemma Clock_Next_eq t c :
  Clock_wf c →
  Clock_Next t c =
    if decide (t ≤ MaxPhysicalMillis ∧ Clock_last c < max_u64 ∨
               Version_PhysicalMillis (Clock_last c) < t ≤ MaxPhysicalMillis)
    then (Ok (next_version t (Clock_last c)), mkClock (next_version t (Clock_last c)))
    else (Panic "storage: physical millis out of range for a Version", c).
Proof.
  intros Hwf. destruct c as [v]. unfold Clock_wf in Hwf. simpl in *.
  pose proof (version_split v) as [Hv Hl].
  unfold Clock_Next, next_version. mrun. cbn [Clock_last].
  destruct (Z.ltb_spec (Version_PhysicalMillis v) t) as [Hlt|Hge].
  - rewrite NewVersion_spec by lia.
    assert (0 ≤ Version_PhysicalMillis v) by zsolve.
    repeat case_decide; rewrite ?Z.add_0_r; mrun; solve [done | zsolve].
  - unfold Clock_advanceLogicalLocked, MaxLogical. mrun. cbn [Clock_last].
    destruct (Z.eqb_spec (Version_Logical v) logicalMask) as [He|Hne].
    + change logicalMask with (2 ^ 16 - 1) in *. rewrite NewVersion_spec by lia.
      rewrite MaxPhysicalMillis_eq.
      repeat case_decide; mrun; try solve [done | zsolve].
      all: do 2 f_equal; lia.
    + change logicalMask with (2 ^ 16 - 1) in *. rewrite NewVersion_spec by lia.
      rewrite MaxPhysicalMillis_eq.
      repeat case_decide; mrun; try solve [done | zsolve].
      all: do 2 f_equal; lia.
Qed.

Lemma Clock_Now_eq t c :
  Clock_Now t c =
    if decide (0 ≤ t ≤ MaxPhysicalMillis)
    then (Ok (Z.max (t * 2 ^ 16) (Clock_last c)), mkClock (Z.max (t * 2 ^ 16) (Clock_last c)))
    else (Panic "storage: physical millis out of range for a Version", c).
Proof.
  destruct c as [v]. unfold Clock_Now. rewrite NewVersion_spec by lia.
  case_decide; mrun; [|done]. cbn [Clock_last]. rewrite Z.add_0_r.
  destruct (Z.ltb_spec v (t * 2 ^ 16)); cbn [Clock_last]; do 2 f_equal; lia.
Qed.

Lemma Clock_Observe_eq v c :
  Clock_Observe v c = (Ok tt, mkClock (Z.max v (Clock_last c))).
Proof.
  destruct c as [l]. unfold Clock_Observe. mrun. cbn [Clock_last].
  destruct (Z.ltb_spec l v); do 2 f_equal; lia.
Qed.

Lemma next_version_gt t v :
  is_u64 v → v < next_version t v.
Proof.
  intros Hv. unfold next_version. pose proof (version_split v) as [? ?].
  destruct (Z.ltb_spec (Version_PhysicalMillis v) t); lia.
Qed.

Lemma next_version_le t v : next_version t v ≤ Z.max (t * 2 ^ 16) v + 1.
Proof. unfold next_version. case_ifs; lia. Qed.

(** What one step guarantees, whichever operation it is. *)
Lemma clock_step_spec op c v c' :
  Clock_wf c → op_in_range op → clock_step op c = (Ok v, c') →
  Clock_wf c' ∧ Clock_last c ≤ Clock_last c' ∧ v ≤ Clock_last c' ∧
  match op with
  | OpNext _ => Clock_last c < v
  | OpNow _ => Clock_last c ≤ v
  | OpObserve w => v = w
  end.
Proof.
  intros Hwf Hop Hs. unfold Clock_wf in *. destruct op as [t|t|w]; simpl in Hs, Hop.
  - rewrite Clock_Next_eq in Hs by done. case_decide as Hd; [|done].
    injection Hs as <- <-. simpl.
    pose proof (next_version_gt t _ Hwf) as Hgt. split_and!; try lia.
    unfold next_version in *. rewrite MaxPhysicalMillis_eq in *.
    destruct (Z.ltb_spec (Version_PhysicalMillis (Clock_last c)) t); zsolve.
  - rewrite Clock_Now_eq in Hs. rewrite decide_True in Hs by done.
    injection Hs as <- <-. simpl. rewrite MaxPhysicalMillis_eq in *.
    split_and!; zsolve.
  - unfold mbind, M_bind in Hs. rewrite Clock_Observe_eq in Hs.
    injection Hs as <- <-. simpl. split_and!; zsolve.
Qed.

Lemma clock_run_cons op ops c vs c' :
  clock_run (op :: ops) c = (Ok vs, c') →
  ∃ v vs' c1, vs = v :: vs' ∧ clock_step op c = (Ok v, c1) ∧ clock_run ops c1 = (Ok vs', c').
Proof.
  cbn [clock_run]. intros (v & c1 & Hv & (vs' & c2 & Hvs & [= <- <-])%M_bind_ok)%M_bind_ok.
  by exists v, vs', c1.
Qed.

Lemma clock_run_lookup_ge ops c vs c' j v :
  Clock_wf c → Forall op_in_range ops → clock_run ops c = (Ok vs, c') → vs !! j = Some v →
  match ops !! j with
  | Some (OpNext _) => Clock_last c < v
  | Some (OpNow _) => Clock_last c ≤ v
  | _ => True
  end.
Proof.
  revert c vs j. induction ops as [|op ops IH]; intros c vs j Hwf Hops Hrun Hj.
  - by destruct j.
  - apply Forall_cons in Hops as [Hop Hops].
    apply clock_run_cons in Hrun as (w & vs' & c1 & -> & Hs & Hrun).
    destruct (clock_step_spec _ _ _ _ Hwf Hop Hs) as (Hwf1 & Hle & _ & Hw).
    destruct j as [|j]; simpl in *.
    + injection Hj as ->. by destruct op.
    + specialize (IH c1 vs' j Hwf1 Hops Hrun Hj). destruct (ops !! j) as [[]|]; lia || done.
Qed.

(** ** Properties *)

(** C29: over any interleaving of Next, Now and Observe on a shard's clock, a
    version issued by Next is strictly above every version issued or observed
    before it, and a fill version read by Now is not below any of them;
    whatever the wall clock does in between (it may go backwards). *)
Theorem clock_history_ordered (c c' : Clock) (ops : list clock_op) (vs : list Z) i j u v :
  Clock_wf c → Forall op_in_range ops → clock_run ops c = (Ok vs, c') →
  (i < j)%nat → vs !! i = Some u → vs !! j = Some v →
  match ops !! j with
  | Some (OpNext _) => u < v
  | Some (OpNow _) => u ≤ v
  | _ => True
  end.
Proof.
  intros Hwf Hops. revert c vs i j Hwf. induction Hops as [|op ops Hop Hops IH];
    intros c vs i j Hwf Hrun Hij Hu Hv; [by destruct j|].
  apply clock_run_cons in Hrun as (w & vs' & c1 & -> & Hs & Hrun).
  destruct (clock_step_spec _ _ _ _ Hwf Hop Hs) as (Hwf1 & Hle & Hw & _).
  destruct j as [|j]; [lia|]. destruct i as [|i]; simpl in *.
  - injection Hu as ->.
    pose proof (clock_run_lookup_ge _ _ _ _ _ _ Hwf1 Hops Hrun Hv).
    destruct (ops !! j) as [[]|]; lia || done.
  - apply (IH c1 vs' i j); auto with lia.
Qed.

(** As long as the wall clock readings and the observed versions stay at
    or below [B], any run of clock operations succeeds and the clock is at most
    one version above [B] per Next: the logical counter borrows milliseconds
    from the future only at one per 65,536 writes, and no operation panics. *)
Theorem clock_run_bounded (c : Clock) (ops : list clock_op) (B : Z) :
  Clock_wf c → Forall op_in_range ops →
  Clock_last c ≤ B → Forall (λ op, op_bound op ≤ B) ops →
  B + Z.of_nat (length ops) < 2 ^ 64 →
  ∃ vs c', clock_run ops c = (Ok vs, c') ∧ Clock_last c' ≤ B + foldr (λ op n, op_issues op + n) 0 ops.
Proof.
  intros Hwf Hops. revert c B Hwf. induction Hops as [|op ops Hop Hops IH];
    intros c B Hwf Hc HB Hlen; simpl in *; [by exists [], c; split; [|lia]|].
  apply Forall_cons in HB as [HB HBs].
  assert (∃ v c1, clock_step op c = (Ok v, c1) ∧ Clock_last c1 ≤ B + op_issues op)
    as (v & c1 & Hs & Hc1).
  { destruct op as [t|t|w]; simpl in *;
      unfold logicalBits in HB; rewrite ?Z.shiftl_mul_pow2 in HB by lia.
    - rewrite Clock_Next_eq by done. rewrite decide_True by (left; zsolve).
      do 2 eexists. split; [done|]. simpl.
      pose proof (next_version_le t (Clock_last c)). lia.
    - rewrite Clock_Now_eq, decide_True by done. do 2 eexists. split; [done|]. simpl. lia.
    - unfold mbind, M_bind. rewrite Clock_Observe_eq. do 2 eexists. split; [done|].
      simpl. lia. }
  destruct (clock_step_spec _ _ _ _ Hwf Hop Hs) as (Hwf1 & _).
  assert (0 ≤ op_issues op ≤ 1) as Hi by (destruct op; simpl; lia).
  destruct (IH c1 (B + op_issues op)) as (vs & c' & Hrun & Hc'); [done|done| |lia|].
  { eapply Forall_impl; [done|]. simpl. lia. }
  exists (v :: vs), c'. split; [|lia].
  unfold mbind, M_bind. by rewrite Hs, Hrun.
Qed.

(** Next panics exactly when the wall clock is past year 10889 or the
    clock has already reached the largest version, which a single observed row
    carrying 2^64-1 is enough to cause. *)
Theorem Clock_Next_panics_iff (c : Clock) (t : Z) :
  Clock_wf c →
  (∃ w c', Clock_Next t c = (Panic w, c')) ↔ MaxPhysicalMillis < t ∨ Clock_last c = max_u64.
Proof.
  intros Hwf. rewrite Clock_Next_eq by done. unfold Clock_wf in Hwf.
  pose proof (version_split (Clock_last c)). rewrite MaxPhysicalMillis_eq.
  case_decide as Hd; split.
  - by intros (? & ? & [=]).
  - intros. exfalso. zsolve.
  - intros _. zsolve.
  - intros _. by do 2 eexists.
Qed.

(** Packing keeps both components and orders versions first by
    millisecond, then by logical count. *)
Theorem NewVersion_order_iso p l p' l' v v' :
  0 ≤ l ≤ MaxLogical → 0 ≤ l' ≤ MaxLogical →
  NewVersion p l = Ok v → NewVersion p' l' = Ok v' →
  is_u64 v ∧ Version_PhysicalMillis v = p ∧ Version_Logical v = l ∧
  (v < v' ↔ p < p' ∨ p = p' ∧ l < l').
Proof.
  unfold MaxLogical. change logicalMask with (2 ^ 16 - 1). intros Hl Hl'.
  rewrite !NewVersion_spec by lia. rewrite MaxPhysicalMillis_eq.
  case_decide; [|done]. case_decide; [|done]. intros [= <-] [= <-].
  rewrite phys_div, logical_mod. unfold is_u64.
  assert ((p * 2 ^ 16 + l) / 2 ^ 16 = p) as -> by (symmetry; apply (Z.div_unique _ _ _ l); lia).
  assert ((p * 2 ^ 16 + l) mod 2 ^ 16 = l) as -> by (symmetry; apply (Z.mod_unique _ _ p); lia).
  split_and!; lia.
Qed.

(** ** Witnesses *)

Lemma clock_history_ordered_witness :
  match clock_run [OpNext 5; OpNow 3; OpObserve 1000000; OpNext 4] NewClock with
  | (Ok vs, _) => vs = [327680; 327680; 1000000; 1000001] ∧ 327680 < 1000001
  | _ => False
  end.
Proof.
  vm_compute clock_run. split; [reflexivity|].
  apply (clock_history_ordered NewClock (mkClock 1000001)
           [OpNext 5; OpNow 3; OpObserve 1000000; OpNext 4] [327680; 327680; 1000000; 1000001] 0 3);
    [vm_compute; intuition congruence | | reflexivity | lia | reflexivity | reflexivity].
  repeat constructor; vm_compute; intuition congruence.
Defined.

Lemma clock_run_bounded_witness :
  ∃ vs c', clock_run [OpNext 5; OpNow 3; OpNext 4] NewClock = (Ok vs, c') ∧ Clock_last c' ≤ 327680 + 2.
Proof.
  apply (clock_run_bounded NewClock [OpNext 5; OpNow 3; OpNext 4] 327680);
    [vm_compute; intuition congruence | | vm_compute; congruence | | vm_compute; congruence].
  all: repeat constructor; vm_compute; intuition congruence.
Defined.

Lemma Clock_Next_panics_iff_witness :
  ∃ w c', Clock_Next 7 (snd (Clock_Observe max_u64 NewClock)) = (Panic w, c').
Proof.
  apply (Clock_Next_panics_iff (mkClock max_u64) 7); [vm_compute; intuition congruence | by right].
Defined.

Lemma NewVersion_order_iso_witness :
  NewVersion 3 65535 = Ok 262143 ∧ NewVersion 4 0 = Ok 262144 ∧ Version_Logical 262143 = 65535.
Proof.
  split; [reflexivity|]. split; [reflexivity|].
  destruct (NewVersion_order_iso 3 65535 4 0 262143 262144) as (_ & _ & H & _);
    [vm_compute; intuition congruence.. | reflexivity | reflexivity | exact H].
Defined.
