(* ===== verification/Ring.v ===== *)
(** Consistent hashing and the two routers built on it:
    [src/internal/hashring/ring.go], [src/internal/cache/router.go] and
    [src/internal/storage/shard.go]. *)

From S2P Require Import Prelude GoStd.

Local Open Scope Z_scope.

Definition ringVirtualNodes : nat := 256.

(** ** Hashing *)

(** [hash/fnv]'s New64a: xor the byte in, multiply by the prime. *)
Fixpoint fnv64a_from (h : Z) (s : string) : Z :=
  match s with
  | "" => h
  | String c s => fnv64a_from (u64 (Z.lxor h (byte_val c) * 1099511628211)) s
  end.

Definition fnv64a (s : string) : Z := fnv64a_from 14695981039346656037 s.

Definition splitMix64 (x : Z) : Z :=
  let x := u64 (x + 0x9E3779B97F4A7C15) in
  let x := u64 (Z.lxor x (Z.shiftr x 30) * 0xBF58476D1CE4E5B9) in
  let x := u64 (Z.lxor x (Z.shiftr x 27) * 0x94D049BB133111EB) in
  Z.lxor x (Z.shiftr x 31).

Definition hashKey (s : string) : Z := splitMix64 (fnv64a s).

(** ** The ring *)

Abbreviation placement := (Z * string)%type.

Definition placement_le (p q : placement) : Prop :=
  p.1 < q.1 ∨ p.1 = q.1 ∧ String.le p.2 q.2.

#[global] Instance placement_le_dec : RelDecision placement_le.
Proof. unfold placement_le. solve_decision. Defined.

Record Ring := mkRing {
  Ring_points : list Z;
  Ring_owner : list string;
  Ring_nodes : list string;
}.

Definition vnode (n : string) (i : nat) : placement :=
  (hashKey (n +:+ "#" +:+ FormatInt (Z.of_nat i)), n).

Definition placements (sorted : list string) : list placement :=
  n ← sorted; vnode n <$> seq 0 ringVirtualNodes.

(** [order] is the order in which Go happens to range over the set of unique
    names. *)
Definition NewRing_ranged (order : list string) : Ring :=
  let sorted := merge_sort String.le order in
  let ps := merge_sort placement_le (placements sorted) in
  mkRing (ps.*1) (ps.*2) sorted.

Definition NewRing (nodes : list string) : Ring :=
  NewRing_ranged (elements (list_to_set nodes : gset string)).

Definition Ring_Lookup (r : Ring) (key : string) : result string :=
  if (Z.of_nat (length (Ring_points r)) =? 0) then Err (Sentinel ErrNoNodes)
  else
    let h := hashKey key in
    let i := Search (Z.of_nat (length (Ring_points r)))
               (λ i, match Ring_points r !! Z.to_nat i with
                     | Some p => h <=? p | None => false end) in
    let i := if i =? Z.of_nat (length (Ring_points r)) then 0 else i in
    match Ring_owner r !! Z.to_nat i with
    | Some n => Ok n
    | None => Panic "index out of range"
    end.

Definition Ring_Nodes (r : Ring) : list string := Ring_nodes r.

(** ** Routers *)

(** The loop both constructors share: reject an empty name, skip repeats. *)
Fixpoint collect_unique (msg : string) (nodes : list string) (seen : gset string)
    (unique : list string) : result (list string * gset string) :=
  match nodes with
  | [] => Ok (unique, seen)
  | n :: nodes =>
      if bool_decide (n = "") then Err (Errorf msg)
      else if bool_decide (n ∈ seen) then collect_unique msg nodes seen unique
      else collect_unique msg nodes ({[n]} ∪ seen) (unique ++ [n])
  end.

Record cache_Router := mkCacheRouter { cRouter_ring : Ring; cRouter_nodes : list string }.

Definition cache_NewRouter (nodes : list string) : result cache_Router :=
  if bool_decide (nodes = []) then Err (Sentinel ErrNoNodes)
  else
    '(unique, _) ← collect_unique "cache: empty node address in cache topology" nodes ∅ [];
    let unique := merge_sort String.le unique in
    Ok (mkCacheRouter (NewRing unique) unique).

Definition Router_NodeFor (r : cache_Router) (key : string) : result string :=
  if bool_decide (key = "") then Err (Sentinel ErrEmptyKey)
  else match Ring_Lookup (cRouter_ring r) key with
       | Err e => Err (Wrapf "cache: route" e)
       | ok => ok
       end.

Record storage_Router := mkShardRouter { sRouter_ring : Ring; sRouter_shards : gset string }.

Definition storage_NewRouter (shards : list string) : result storage_Router :=
  if bool_decide (shards = []) then Err (Sentinel ErrNoNodes)
  else
    '(names, set) ← collect_unique "storage: empty shard id in topology" shards ∅ [];
    Ok (mkShardRouter (NewRing (merge_sort String.le names)) set).

Definition Router_ShardFor (r : storage_Router) (key : string) : result string :=
  if bool_decide (key = "") then Err (Sentinel ErrEmptyKey)
  else Ring_Lookup (sRouter_ring r) key.

Fixpoint Router_Group_loop (r : storage_Router) (keys : list string) (seen : gset string)
    (groups : gmap string (list string)) : result (gmap string (list string)) :=
  match keys with
  | [] => Ok groups
  | k :: keys =>
      if bool_decide (k ∈ seen) then Router_Group_loop r keys seen groups
      else
        id ← Router_ShardFor r k;
        Router_Group_loop r keys ({[k]} ∪ seen)
          (<[id := default [] (groups !! id) ++ [k]]> groups)
  end.

Definition Router_Group (r : storage_Router) (keys : list string) :
    result (gmap string (list string)) :=
  Router_Group_loop r keys ∅ ∅.

Definition Router_Has (r : storage_Router) (id : string) : bool := bool_decide (id ∈ sRouter_shards r).
Definition Router_Shards (r : storage_Router) : list string := Ring_Nodes (sRouter_ring r).

(** ** splitMix64 adds no collisions *)

Lemma xorshift_inj k x y :
  0 < k → is_u64 x → is_u64 y →
  Z.lxor x (Z.shiftr x k) = Z.lxor y (Z.shiftr y k) → x = y.
Proof.
  intros Hk Hx Hy He. unfold is_u64 in *.
  assert (∀ m n, (64 - n <= Z.of_nat m) → 0 ≤ n → Z.testbit x n = Z.testbit y n) as Hb.
  { induction m as [|m IH]; intros n Hm Hn.
    - rewrite <-(Z.mod_small x (2 ^ 64)), <-(Z.mod_small y (2 ^ 64)) by lia.
      rewrite !Z.mod_pow2_bits_high by lia. done.
    - assert (Z.testbit (Z.lxor x (Z.shiftr x k)) n = Z.testbit (Z.lxor y (Z.shiftr y k)) n)
        as Hn' by by rewrite He.
      rewrite !Z.lxor_spec, !Z.shiftr_spec, (IH (n + k)) in Hn' by lia.
      by destruct (Z.testbit x n), (Z.testbit y n), (Z.testbit y (n + k)). }
  apply Z.bits_inj_iff'. intros n Hn. apply (Hb 64%nat); lia.
Qed.

Lemma mul_odd_inj a b x y :
  (a * b) mod 2 ^ 64 = 1 → is_u64 x → is_u64 y → u64 (x * a) = u64 (y * a) → x = y.
Proof.
  intros Hab Hx Hy H. rewrite <-(u64_id x), <-(u64_id y) by done. unfold u64 in *.
  assert (∀ z, z mod 2 ^ 64 = (((z * a) mod 2 ^ 64) * b) mod 2 ^ 64) as Hz.
  { intros z. rewrite Z.mul_mod_idemp_l, <-Z.mul_assoc by lia.
    rewrite <-Z.mul_mod_idemp_r, Hab by lia. by rewrite Z.mul_1_r. }
  by rewrite (Hz x), (Hz y), H.
Qed.

Lemma lxor_shiftr_u64 x k : 0 ≤ k → is_u64 x → is_u64 (Z.lxor x (Z.shiftr x k)).
Proof.
  unfold is_u64. intros Hk Hx.
  assert (0 ≤ Z.shiftr x k < 2 ^ 64) as Hs.
  { rewrite Z.shiftr_div_pow2 by lia. split; [apply Z.div_pos; lia|].
    apply Z.div_lt_upper_bound; [lia|].
    pose proof (Z.pow_pos_nonneg 2 k ltac:(lia) Hk). nia. }
  split; [apply Z.lxor_nonneg; lia|].
  destruct (Z.eq_dec (Z.lxor x (Z.shiftr x k)) 0) as [->|Hne]; [lia|].
  apply Z.log2_lt_pow2; [pose proof (proj2 (Z.lxor_nonneg x (Z.shiftr x k))); lia|].
  pose proof (Z.log2_lxor x (Z.shiftr x k) ltac:(lia) ltac:(lia)).
  assert (∀ z, 0 ≤ z < 2 ^ 64 → Z.log2 z < 64) as Hl.
  { intros z Hz. destruct (Z.eq_dec z 0) as [->|]; [done|]. apply Z.log2_lt_pow2; lia. }
  pose proof (Hl _ Hx). pose proof (Hl _ Hs). lia.
Qed.

Lemma splitMix64_is x : is_u64 (splitMix64 x).
Proof. unfold splitMix64. apply lxor_shiftr_u64; [lia|apply u64_is]. Qed.

Lemma splitMix64_inj x y : is_u64 x → is_u64 y → splitMix64 x = splitMix64 y → x = y.
Proof.
  intros Hx Hy. unfold splitMix64.
  intros H%xorshift_inj; [|lia|apply u64_is..].
  apply (mul_odd_inj _ 3573116690164977347) in H;
    [|reflexivity|apply lxor_shiftr_u64; [lia|apply u64_is]..].
  apply xorshift_inj in H; [|lia|apply u64_is..].
  apply (mul_odd_inj _ 10871156337175269513) in H;
    [|reflexivity|apply lxor_shiftr_u64; [lia|apply u64_is]..].
  apply xorshift_inj in H; [|lia|apply u64_is..].
  assert (∀ z, is_u64 z → u64 (u64 (z + 0x9E3779B97F4A7C15) - 0x9E3779B97F4A7C15) = z) as Hz.
  { intros z Hz. unfold u64. rewrite Zminus_mod_idemp_l. rewrite Z.add_simpl_r.
    by apply (u64_id z). }
  by rewrite <-(Hz x), <-(Hz y), H by done.
Qed.

Lemma fnv64a_from_is s h : is_u64 h → is_u64 (fnv64a_from h s).
Proof. revert h. induction s as [|c s IH]; intros h Hh; simpl; [done|]. apply IH, u64_is. Qed.

Lemma fnv64a_is s : is_u64 (fnv64a s).
Proof. by apply fnv64a_from_is. Qed.

Lemma hashKey_is s : is_u64 (hashKey s).
Proof. apply splitMix64_is. Qed.

#[export] Hint Resolve hashKey_is fnv64a_is splitMix64_is : cachet.

(** ** Sorted placements *)

#[global] Instance placement_le_trans : Transitive placement_le.
Proof.
  intros [p n] [q m] [r o]. unfold placement_le. simpl.
  intros [H1|[H1 H1']] [H2|[H2 H2']]; try (left; lia).
  right. split; [lia|]. by trans m.
Qed.

#[global] Instance placement_le_total : Total placement_le.
Proof.
  intros [p n] [q m]. unfold placement_le. simpl.
  destruct (Z.lt_total p q) as [H|[->|H]]; [by left; left| |by right; left].
  destruct (total String.le n m); [left|right]; right; done.
Qed.

#[global] Instance placement_le_antisymm : AntiSymm (=) placement_le.
Proof.
  intros [p n] [q m]. unfold placement_le. simpl.
  intros [H1|[H1 H1']] [H2|[H2 H2']]; try lia.
  subst. f_equal. by apply (anti_symm String.le).
Qed.

#[global] Instance placement_le_refl : Reflexive placement_le.
Proof. intros q. right. done. Qed.

Lemma StronglySorted_lookup_le {A} (R : A → A → Prop) `{!Reflexive R} l i j x y :
  StronglySorted R l → l !! i = Some x → l !! j = Some y → (i ≤ j)%nat → R x y.
Proof.
  intros Hs. revert i j. induction Hs as [|z l Hs IH Hz]; intros i j Hi Hj Hij; [done|].
  destruct i as [|i], j as [|j]; simpl in *; [|..|lia|].
  - by simplify_eq.
  - injection Hi as <-. rewrite Forall_forall in Hz. apply Hz. by apply list_elem_of_lookup; eauto.
  - apply (IH i j); [done..|lia].
Qed.

Lemma sorted_nodes_unique (order order' : list string) :
  order ≡ₚ order' → merge_sort String.le order = merge_sort String.le order'.
Proof.
  intros Hp. apply (StronglySorted_unique String.le); try apply (StronglySorted_merge_sort _).
  by rewrite !merge_sort_Permutation.
Qed.

Lemma elem_of_placements sorted q :
  q ∈ placements sorted ↔ ∃ n i, n ∈ sorted ∧ (i < ringVirtualNodes)%nat ∧ q = vnode n i.
Proof.
  unfold placements. rewrite list_elem_of_bind. split.
  - intros (n & (i & -> & Hi)%list_elem_of_fmap & Hn). exists n, i.
    apply elem_of_seq in Hi. split_and!; [done|lia|done].
  - intros (n & i & Hn & Hi & ->). exists n. split; [|done].
    apply list_elem_of_fmap. exists i. split; [done|]. apply elem_of_seq. lia.
Qed.

Lemma NewRing_nodes nodes n : n ∈ Ring_nodes (NewRing nodes) ↔ n ∈ nodes.
Proof.
  unfold NewRing, NewRing_ranged. simpl. rewrite merge_sort_Permutation.
  by rewrite elem_of_elements, elem_of_list_to_set.
Qed.

(** ** The reference definition of ownership *)

(** Clockwise distance from a hash to a point, modulo 2^64. *)
Definition dist (h p : Z) : Z := (p - h) mod 2 ^ 64.

(** [n] owns [key] among [nodes]: some virtual node of [n] is at the least
    clockwise distance from the key's hash, ties going to the smaller name. *)
Definition Owns (nodes : list string) (key n : string) : Prop :=
  ∃ i, (i < ringVirtualNodes)%nat ∧ n ∈ nodes ∧
    ∀ m j, m ∈ nodes → (j < ringVirtualNodes)%nat →
      dist (hashKey key) (vnode n i).1 < dist (hashKey key) (vnode m j).1 ∨
      dist (hashKey key) (vnode n i).1 = dist (hashKey key) (vnode m j).1 ∧ String.le n m.

Lemma Owns_unique nodes key n m : Owns nodes key n → Owns nodes key m → n = m.
Proof.
  intros (i & Hi & Hn & Hni) (j & Hj & Hm & Hmj).
  destruct (Hni m j Hm Hj) as [H1|[H1 H1']], (Hmj n i Hn Hi) as [H2|[H2 H2']]; try lia.
  by apply (anti_symm String.le).
Qed.

Lemma Owns_subset nodes nodes' key n :
  Owns nodes key n → (∀ m, m ∈ nodes' → m ∈ nodes) → n ∈ nodes' → Owns nodes' key n.
Proof. intros (i & Hi & _ & Ho) Hsub Hn. exists i. split_and!; [done|done|]. eauto. Qed.

Lemma dist_ge h p : 0 ≤ h → h ≤ p < 2 ^ 64 → dist h p = p - h.
Proof. intros. unfold dist. apply Z.mod_small. lia. Qed.

Lemma dist_lt h p : 0 ≤ p < h → h < 2 ^ 64 → dist h p = p - h + 2 ^ 64.
Proof. intros. unfold dist. symmetry. apply (Z.mod_unique _ _ (-1)); lia. Qed.

(** The entry the binary search picks is at the least distance. *)
Lemma sorted_search_nearest (ps : list placement) h :
  StronglySorted placement_le ps → Forall (λ q, is_u64 q.1) ps → is_u64 h → ps ≠ [] →
  let i := Search (Z.of_nat (length ps.*1))
             (λ i, match ps.*1 !! Z.to_nat i with Some p => h <=? p | None => false end) in
  let i := if i =? Z.of_nat (length ps.*1) then 0 else i in
  ∃ q, ps !! Z.to_nat i = Some q ∧
    ∀ q', q' ∈ ps → dist h q.1 < dist h q'.1 ∨ dist h q.1 = dist h q'.1 ∧ String.le q.2 q'.2.
Proof.
  intros Hs Hr Hh Hne. set (f := λ i : Z, _). cbv zeta.
  rewrite length_fmap. unfold is_u64 in Hh.
  assert (∀ j q, ps !! j = Some q → 0 ≤ q.1 < 2 ^ 64) as Hq.
  { intros j q Hj. exact (Forall_lookup_1 _ _ _ _ Hr Hj). }
  assert (∀ j q, ps !! j = Some q → f (Z.of_nat j) = (h <=? q.1)) as Hf.
  { intros j q Hj. unfold f. by rewrite Nat2Z.id, list_lookup_fmap, Hj. }
  assert (∀ a b q q', ps !! a = Some q → ps !! b = Some q' → (a ≤ b)%nat → placement_le q q')
    as Hord by (intros a b q q'; exact (StronglySorted_lookup_le _ _ _ _ _ _ Hs)).
  assert (0 ≤ Z.of_nat (length ps)) as Hn by lia.
  assert (∀ a b, 0 ≤ a ≤ b → b < Z.of_nat (length ps) → f a = true → f b = true) as Hmono.
  { intros a b Hab Hb Ha.
    destruct (lookup_lt_is_Some_2 ps (Z.to_nat a)) as [q Hqa]; [lia|].
    destruct (lookup_lt_is_Some_2 ps (Z.to_nat b)) as [q' Hqb]; [lia|].
    rewrite <-(Z2Nat.id a), (Hf _ _ Hqa) in Ha by lia.
    rewrite <-(Z2Nat.id b), (Hf _ _ Hqb) by lia.
    destruct (Hord _ _ _ _ Hqa Hqb ltac:(lia)) as [|[]]; zify_bool; lia. }
  destruct (Search_spec _ f Hn Hmono) as (Hi & Hlo & Hhi).
  set (i := Search _ f) in *. clearbody i. clear Hmono.
  assert (length ps ≠ 0)%nat by by destruct ps.
  assert (∀ j q', ps !! j = Some q' → Z.of_nat j < i → q'.1 < h) as Hbelow.
  { intros j q' Hj Hji. pose proof (Hf _ _ Hj). rewrite Hlo in * by lia. zify_bool. lia. }
  assert (∀ j q', ps !! j = Some q' → i ≤ Z.of_nat j → h ≤ q'.1) as Habove.
  { intros j q' Hj Hji. pose proof (Hf _ _ Hj). apply lookup_lt_Some in Hj.
    rewrite Hhi in * by lia. zify_bool. lia. }
  set (k := Z.to_nat (if i =? Z.of_nat (length ps) then 0 else i)).
  destruct (lookup_lt_is_Some_2 ps k) as [q Hk]; [unfold k; case_ifs; lia|].
  exists q. split; [done|]. intros q' (j & Hj)%list_elem_of_lookup.
  pose proof (Hq _ _ Hk). pose proof (Hq _ _ Hj).
  pose proof (lookup_lt_Some _ _ _ Hj).
  destruct (Z.eqb_spec i (Z.of_nat (length ps))) as [He|He].
  - pose proof (Hbelow _ _ Hk ltac:(lia)). pose proof (Hbelow _ _ Hj ltac:(lia)).
    rewrite !dist_lt by lia.
    destruct (Hord _ _ _ _ Hk Hj ltac:(lia)) as [|[]]; [left; lia|right; split; [lia|done]].
  - pose proof (Habove _ _ Hk ltac:(lia)). rewrite (dist_ge h q.1) by lia.
    destruct (Z.lt_ge_cases (Z.of_nat j) i) as [Hji|Hji].
    + pose proof (Hbelow _ _ Hj Hji). rewrite dist_lt by lia. left. lia.
    + pose proof (Habove _ _ Hj Hji). rewrite dist_ge by lia.
      destruct (Hord _ _ _ _ Hk Hj ltac:(lia)) as [|[]]; [left; lia|right; split; [lia|done]].
Qed.

Lemma placements_nonempty nodes : nodes ≠ [] → placements nodes ≠ [].
Proof. by destruct nodes. Qed.

Lemma Ring_Lookup_Owns nodes key :
  nodes ≠ [] → ∃ n, Ring_Lookup (NewRing nodes) key = Ok n ∧ Owns nodes key n.
Proof.
  intros Hne. set (sorted := merge_sort String.le (elements (list_to_set nodes : gset string))).
  set (ps := merge_sort placement_le (placements sorted)).
  assert (Ring_points (NewRing nodes) = ps.*1) as Hpoints by done.
  assert (Ring_owner (NewRing nodes) = ps.*2) as Howner by done.
  unfold Ring_Lookup. rewrite Hpoints, Howner. clear Hpoints Howner.
  assert (∀ n, n ∈ sorted ↔ n ∈ nodes) as Hsorted.
  { intros n. unfold sorted. by rewrite merge_sort_Permutation, elem_of_elements, elem_of_list_to_set. }
  assert (ps ≡ₚ placements sorted) as Hps by apply merge_sort_Permutation.
  assert (∀ q, q ∈ ps ↔ ∃ n i, n ∈ nodes ∧ (i < ringVirtualNodes)%nat ∧ q = vnode n i) as Hin.
  { intros q. rewrite Hps, elem_of_placements. by setoid_rewrite Hsorted. }
  assert (ps ≠ []) as Hpne.
  { intros H0. rewrite H0 in Hps. apply Permutation_nil_l in Hps.
    symmetry in Hps. revert Hps. apply placements_nonempty. intros H1.
    destruct nodes as [|n nodes]; [done|]. specialize (Hsorted n). rewrite H1 in Hsorted.
    by apply (not_elem_of_nil n), Hsorted, list_elem_of_here. }
  destruct (sorted_search_nearest ps (hashKey key)) as (q & Hq & Hmin).
  { apply (StronglySorted_merge_sort _). }
  { apply Forall_forall. intros q Hq. apply Hin in Hq as (n & i & _ & _ & ->). apply hashKey_is. }
  { apply hashKey_is. }
  { done. }
  destruct (Z.eqb_spec (Z.of_nat (length ps.*1)) 0) as [?|_]; [by destruct ps|].
  cbv zeta in Hq. rewrite list_lookup_fmap, Hq. cbn. exists q.2. split; [done|].
  destruct (proj1 (Hin q)) as (n & i & Hn & Hi & ->); [by apply list_elem_of_lookup; eauto|].
  exists i. split_and!; [done|done|]. intros m j Hm Hj.
  apply (Hmin (vnode m j)). apply Hin. by exists m, j.
Qed.

Lemma Ring_Lookup_iff nodes key n :
  Ring_Lookup (NewRing nodes) key = Ok n ↔ nodes ≠ [] ∧ Owns nodes key n.
Proof.
  split.
  - intros H. assert (nodes ≠ []) as Hne by (intros ->; by vm_compute in H).
    split; [done|]. destruct (Ring_Lookup_Owns nodes key Hne) as (m & Hm & Ho). congruence.
  - intros [Hne Ho]. destruct (Ring_Lookup_Owns nodes key Hne) as (m & Hm & Ho').
    by rewrite Hm, (Owns_unique _ _ _ _ Ho Ho').
Qed.

(** ** Routers *)

Lemma collect_unique_ok msg nodes seen unique u s :
  collect_unique msg nodes seen unique = Ok (u, s) →
  ("" ∉ nodes) ∧ (∀ n, n ∈ s ↔ n ∈ seen ∨ n ∈ nodes) ∧
  ((∀ n, n ∈ unique ↔ n ∈ seen) → ∀ n, n ∈ u ↔ n ∈ s).
Proof.
  revert seen unique. induction nodes as [|n nodes IH]; intros seen unique; cbn [collect_unique].
  - intros [= <- <-]. split_and!; [apply not_elem_of_nil| |done].
    intros n. rewrite elem_of_nil. tauto.
  - case_bool_decide as Hn; [done|]. case_bool_decide as Hs; intros H;
      apply IH in H as (H1 & H2 & H3); (split; [by apply not_elem_of_cons|]); split.
    + intros m. rewrite H2, elem_of_cons. intuition (subst; tauto).
    + done.
    + intros m. rewrite H2, elem_of_cons, elem_of_union, elem_of_singleton. tauto.
    + intros Hu. apply H3. intros m.
      rewrite elem_of_app, elem_of_union, elem_of_singleton, list_elem_of_singleton, Hu. tauto.
Qed.

Lemma collect_unique_total msg nodes seen unique :
  "" ∉ nodes → ∃ us, collect_unique msg nodes seen unique = Ok us.
Proof.
  revert seen unique. induction nodes as [|n nodes IH]; intros seen unique Hn; cbn [collect_unique].
  - by eexists.
  - apply not_elem_of_cons in Hn as [Hn Hns].
    rewrite bool_decide_eq_false_2 by done. case_bool_decide; by apply IH.
Qed.

Lemma NewRing_ext nodes nodes' :
  (∀ n, n ∈ nodes ↔ n ∈ nodes') → NewRing nodes = NewRing nodes'.
Proof.
  intros H. unfold NewRing. by assert (list_to_set nodes = list_to_set nodes' :> gset string)
    as -> by set_solver.
Qed.

Lemma cache_NewRouter_ok nodes r :
  cache_NewRouter nodes = Ok r → nodes ≠ [] ∧ "" ∉ nodes ∧ cRouter_ring r = NewRing nodes.
Proof.
  unfold cache_NewRouter. case_bool_decide as Hne; [done|].
  intros ([u s] & Hc & [= <-])%result_bind_ok.
  apply collect_unique_ok in Hc as (H1 & H2 & H3). split_and!; [done..|]. simpl.
  apply NewRing_ext. intros n. rewrite merge_sort_Permutation, H3, H2 by set_solver. set_solver.
Qed.

Lemma storage_NewRouter_ok shards r :
  storage_NewRouter shards = Ok r →
  shards ≠ [] ∧ "" ∉ shards ∧ sRouter_ring r = NewRing shards ∧
  ∀ id, id ∈ sRouter_shards r ↔ id ∈ shards.
Proof.
  unfold storage_NewRouter. case_bool_decide as Hne; [done|].
  intros ([u s] & Hc & [= <-])%result_bind_ok.
  apply collect_unique_ok in Hc as (H1 & H2 & H3). split_and!; [done..| |]; simpl.
  - apply NewRing_ext. intros n. rewrite merge_sort_Permutation, H3, H2 by set_solver. set_solver.
  - intros id. rewrite H2. set_solver.
Qed.

Lemma NodeFor_Owns nodes r key n :
  cache_NewRouter nodes = Ok r → key ≠ "" →
  Router_NodeFor r key = Ok n ↔ Owns nodes key n.
Proof.
  intros (Hne & _ & Hr)%cache_NewRouter_ok Hk. unfold Router_NodeFor.
  rewrite bool_decide_eq_false_2 by done. rewrite Hr.
  destruct (Ring_Lookup_Owns nodes key Hne) as (m & Hm & Ho). rewrite Hm. split.
  - by intros [= ->].
  - intros Ho'. by rewrite (Owns_unique _ _ _ _ Ho Ho').
Qed.

(** The distinct elements of a list, in the order of their first occurrence. *)
Fixpoint nub (l : list string) : list string :=
  match l with [] => [] | x :: l => x :: filter (λ y, y ≠ x) (nub l) end.

Definition group_of (r : storage_Router) (id : string) (ks : list string) : list string :=
  filter (λ k, Router_ShardFor r k = Ok id) ks.

Definition if_nonempty (ks : list string) : option (list string) :=
  match ks with [] => None | _ => Some ks end.

Lemma ShardFor_total shards r k :
  storage_NewRouter shards = Ok r → k ≠ "" →
  ∃ id, Router_ShardFor r k = Ok id ∧ id ∈ shards ∧ Owns shards k id.
Proof.
  intros (Hne & _ & Hr & _)%storage_NewRouter_ok Hk. unfold Router_ShardFor.
  rewrite bool_decide_eq_false_2 by done. rewrite Hr.
  destruct (Ring_Lookup_Owns shards k Hne) as (m & Hm & Ho). exists m. split_and!; [done| |done].
  by destruct Ho as (? & ? & ? & _).
Qed.

Lemma Group_loop_spec shards r keys seen g :
  storage_NewRouter shards = Ok r → "" ∉ keys → (∀ id, g !! id ≠ Some []) →
  ∃ g', Router_Group_loop r keys seen g = Ok g' ∧ (∀ id, g' !! id ≠ Some []) ∧
    ∀ id, default [] (g' !! id) =
          default [] (g !! id) ++ group_of r id (filter (λ k, k ∉ seen) (nub keys)).
Proof.
  intros Hr. revert seen g. induction keys as [|k keys IH]; intros seen g Hk Hg.
  - exists g. split_and!; [done..|]. intros id. unfold group_of. simpl. by rewrite app_nil_r.
  - apply not_elem_of_cons in Hk as [Hk Hks]. cbn [Router_Group_loop nub].
    case_bool_decide as Hseen.
    + destruct (IH seen g Hks Hg) as (g' & Hl & He & Hd). exists g'. split_and!; [done..|].
      intros id. rewrite Hd. do 2 f_equal. rewrite filter_cons_False by (simpl; tauto).
      rewrite list_filter_filter_l; [done|]. intros x Hx ->. done.
    + destruct (ShardFor_total _ _ k Hr ltac:(done)) as (id0 & Hid0 & _). rewrite Hid0. mrun.
      destruct (IH ({[k]} ∪ seen) (<[id0:=default [] (g !! id0) ++ [k]]> g) Hks)
        as (g' & Hl & He & Hd).
      { intros id. destruct (decide (id = id0)) as [->|].
        - rewrite lookup_insert_eq. intros [=H]. by apply (app_cons_not_nil _ [] k (eq_sym H)).
        - by rewrite lookup_insert_ne. }
      exists g'. split_and!; [done..|]. intros id. rewrite Hd.
      rewrite filter_cons_True by done. rewrite list_filter_filter.
      assert (filter (λ x, x ∉ seen ∧ x ≠ k) (nub keys) = filter (λ x, x ∉ {[k]} ∪ seen) (nub keys))
        as -> by (apply list_filter_iff; set_solver).
      unfold group_of. rewrite filter_cons. destruct (decide (id = id0)) as [->|Hne].
      * rewrite lookup_insert_eq. simpl. rewrite decide_True by done. by rewrite <-app_assoc.
      * rewrite lookup_insert_ne by done. rewrite decide_False; [done|]. congruence.
Qed.

Lemma Group_loop_empty r keys seen g :
  "" ∈ keys → "" ∉ seen → (∀ k, k ≠ "" → ∃ id, Router_ShardFor r k = Ok id) →
  Router_Group_loop r keys seen g = Err (Sentinel ErrEmptyKey).
Proof.
  intros Hin Hs Hr. revert seen g Hs. induction keys as [|k keys IH]; intros seen g Hs.
  - by apply not_elem_of_nil in Hin.
  - cbn [Router_Group_loop]. case_bool_decide as Hseen.
    + apply IH; [|done]. apply elem_of_cons in Hin as [<-|]; done.
    + destruct (decide (k = "")) as [->|Hk]; [done|].
      destruct (Hr k Hk) as [id ->]. cbn. apply IH; [|set_solver].
      apply elem_of_cons in Hin as [<-|]; done.
Qed.

(** ** Properties *)

(** The key's owner does not depend on the order in which the topology is
    written, on repeats in it, or on the order in which Go ranges over the set
    of names: the rings built are equal. *)
Theorem NewRing_order_insensitive (nodes nodes' order : list string) :
  (∀ n, n ∈ nodes ↔ n ∈ nodes') → order ≡ₚ elements (list_to_set nodes : gset string) →
  NewRing_ranged order = NewRing nodes'.
Proof.
  intros Hn Ho. rewrite <-(NewRing_ext nodes nodes' Hn).
  unfold NewRing, NewRing_ranged. by rewrite (sorted_nodes_unique _ _ Ho).
Qed.

(** Lookup's binary search over the sorted points returns exactly the node
    that owns the key by the reference definition: a virtual node at the least
    clockwise distance modulo 2^64, ties to the smaller name.  It fails only
    on an empty ring, and never indexes out of range. *)
Theorem Ring_Lookup_spec (nodes : list string) (key : string) :
  match Ring_Lookup (NewRing nodes) key with
  | Ok n => nodes ≠ [] ∧ Owns nodes key n ∧ ∀ m, Owns nodes key m → m = n
  | Err e => nodes = [] ∧ e = Sentinel ErrNoNodes
  | Panic _ => False
  end.
Proof.
  destruct (decide (nodes = [])) as [->|Hne]; [by vm_compute|].
  destruct (Ring_Lookup_Owns nodes key Hne) as (n & -> & Ho).
  split_and!; [done..|]. intros m Hm. by apply (Owns_unique nodes key).
Qed.

(** Consistent hashing.  When a cache topology shrinks (or grows, read the
    other way), a key whose node is in both topologies keeps its node; only
    keys of the removed nodes move. *)
Theorem NodeFor_stable (nodes nodes' : list string) r r' key n n' :
  cache_NewRouter nodes = Ok r → cache_NewRouter nodes' = Ok r' →
  nodes' ⊆ nodes → Router_NodeFor r key = Ok n → Router_NodeFor r' key = Ok n' →
  n ∈ nodes' → n' = n.
Proof.
  intros Hr Hr' Hsub Hn Hn' Hin.
  assert (key ≠ "") as Hk by (intros ->; done).
  apply (NodeFor_Owns _ _ _ _ Hr Hk) in Hn. apply (NodeFor_Owns _ _ _ _ Hr' Hk) in Hn'.
  apply (Owns_unique nodes' key); [done|]. by apply (Owns_subset nodes).
Qed.

(** Group sends every distinct key to the group of the shard that owns it,
    in input order and once; shards that own none of the keys are absent; one
    empty key makes the whole call fail. *)
Theorem Router_Group_spec (shards : list string) r (keys : list string) :
  storage_NewRouter shards = Ok r →
  if decide ("" ∈ keys) then Router_Group r keys = Err (Sentinel ErrEmptyKey)
  else ∃ g, Router_Group r keys = Ok g ∧
    ∀ id, g !! id = if_nonempty (group_of r id (nub keys)).
Proof.
  intros Hr. case_decide as Hk; unfold Router_Group.
  - apply Group_loop_empty; [done|set_solver|]. intros k Hk'.
    destruct (ShardFor_total _ _ k Hr Hk') as (id & ? & _). by exists id.
  - destruct (Group_loop_spec shards r keys ∅ ∅ Hr Hk) as (g & Hg & He & Hd); [done|].
    exists g. split; [done|]. intros id. specialize (Hd id).
    rewrite (filter_id (λ k, k ∉ ∅)) in Hd by (intros; apply not_elem_of_empty).
    change (default [] (∅ !! id)) with (@nil string) in Hd. simpl in Hd. rewrite <-Hd.
    specialize (He id). unfold if_nonempty. by destruct (g !! id) as [[|]|].
Qed.

(** The finaliser adds no collisions: two keys share a ring position
    exactly when their FNV-1a digests are equal. *)
Theorem hashKey_collides_iff (s t : string) : hashKey s = hashKey t ↔ fnv64a s = fnv64a t.
Proof.
  unfold hashKey. split; [apply splitMix64_inj; apply fnv64a_is|by intros ->].
Qed.

(** ** Witnesses *)

Definition ring_of (nodes : list string) : cache_Router :=
  match cache_NewRouter nodes with Ok r => r | _ => mkCacheRouter (mkRing [] [] []) [] end.

Definition shards_of (nodes : list string) : storage_Router :=
  match storage_NewRouter nodes with Ok r => r | _ => mkShardRouter (mkRing [] [] []) ∅ end.

Lemma NewRing_order_insensitive_witness :
  NewRing_ranged ["b"; "a"] = NewRing ["b"; "a"; "b"].
Proof.
  apply (NewRing_order_insensitive ["a"; "b"] ["b"; "a"; "b"] ["b"; "a"]); [set_solver|].
  apply (bool_decide_unpack _). vm_compute. exact I.
Defined.

Lemma NodeFor_stable_witness :
  Router_NodeFor (ring_of ["n2"; "n1"]) "entities:1" = Ok "n2" ∧ "n2" = "n2".
Proof.
  split; [vm_compute; reflexivity|].
  apply (NodeFor_stable ["n2"; "n1"] ["n2"] (ring_of ["n2"; "n1"]) (ring_of ["n2"]) "entities:1");
    [vm_compute; reflexivity | vm_compute; reflexivity | set_solver
    | vm_compute; reflexivity | vm_compute; reflexivity | set_solver].
Defined.

Lemma Router_Group_spec_witness :
  ∃ g : gmap string (list string), Router_Group (shards_of ["s0"; "s1"]) ["k1"; "k2"; "k1"] = Ok g ∧
    ∀ id, g !! id = if_nonempty (group_of (shards_of ["s0"; "s1"]) id ["k1"; "k2"]).
Proof.
  exact (Router_Group_spec ["s0"; "s1"] (shards_of ["s0"; "s1"]) ["k1"; "k2"; "k1"]
           ltac:(vm_compute; reflexivity)).
Defined.
