(* ===== verification/Consistency.v ===== *)
(** Consistency levels, request requirements and session tokens:
    [src/pkg/consistency/level.go], [proto.go] and [session.go].

    A [Level] and a wire enum value are integers, as in the source, so that
    unknown values are values; a [time.Duration] is its nanoseconds. *)

From S2P Require Import Prelude GoStd.

Local Open Scope Z_scope.

Definition Duration_Second : Z := 1000000000.
Definition DefaultMaxAffectedKeys : Z := 1000.
Definition DefaultCDCLagBound : Z := 5 * Duration_Second.

(** ** Levels *)

Definition Session : Z := 0.
Definition Strong : Z := 1.
Definition Bounded : Z := 2.
Definition Eventual : Z := 3.

Definition levelNames (l : Z) : option string :=
  if l =? Session then Some "SESSION"
  else if l =? Strong then Some "STRONG"
  else if l =? Bounded then Some "BOUNDED"
  else if l =? Eventual then Some "EVENTUAL"
  else None.

Definition Level_String (l : Z) : string :=
  match levelNames l with Some n => n | None => "Level(" +:+ FormatInt l +:+ ")" end.

Definition Level_BypassesCache (l : Z) : bool := l =? Strong.
Definition Level_RequiresWatermark (l : Z) : bool := (l =? Session) || (l =? Bounded).

(** ** Requirements *)

Record Requirement := mkRequirement { req_Level : Z; req_StalenessBound : Z }.

Definition Requirement_Validate (r : Requirement) : result unit :=
  match levelNames (req_Level r) with
  | None => Err (Errorf "consistency: unknown level")
  | Some _ =>
      if req_Level r =? Bounded then
        if req_StalenessBound r =? 0 then Err (Sentinel ErrMissingStalenessBound)
        else if req_StalenessBound r <? 0 then Err (Errorf "consistency: negative staleness bound")
        else Ok tt
      else if negb (req_StalenessBound r =? 0) then
        Err (Wrapf "" (Sentinel ErrUnexpectedStalenessBound))
      else Ok tt
  end.

(** ** The wire *)

Definition CONSISTENCY_LEVEL_UNSPECIFIED : Z := 0.
Definition CONSISTENCY_LEVEL_STRONG : Z := 1.
Definition CONSISTENCY_LEVEL_SESSION : Z := 2.
Definition CONSISTENCY_LEVEL_BOUNDED : Z := 3.
Definition CONSISTENCY_LEVEL_EVENTUAL : Z := 4.

Definition levelToProto : list (Z * Z) :=
  [(Strong, CONSISTENCY_LEVEL_STRONG); (Session, CONSISTENCY_LEVEL_SESSION);
   (Bounded, CONSISTENCY_LEVEL_BOUNDED); (Eventual, CONSISTENCY_LEVEL_EVENTUAL)].

Definition Level_Proto (l : Z) : Z :=
  match list_find (λ e, e.1 = l) levelToProto with
  | Some (_, e) => e.2
  | None => CONSISTENCY_LEVEL_UNSPECIFIED
  end.

Definition LevelFromProto (p : Z) : result Z :=
  if p =? CONSISTENCY_LEVEL_UNSPECIFIED then Ok Session
  else match list_find (λ e, e.2 = p) levelToProto with
       | Some (_, e) => Ok e.1
       | None => Err (Errorf "consistency: unsupported wire level")
       end.

(** [durationpb.Duration] is not the program's: its validity check and its
    conversion to nanoseconds are parameters. *)
Section requirement_from_proto.
  Context {PbDuration : Type}
    (CheckValid : PbDuration → option error) (AsDuration : PbDuration → Z).

Definition RequirementFromProto (p : Z) (bound : option PbDuration) : result Requirement :=
  lv ← LevelFromProto p;
  req ← match bound with
        | None => Ok (mkRequirement lv 0)
        | Some b =>
            match CheckValid b with
            | Some e => Err (Wrapf "consistency: invalid staleness bound" e)
            | None => Ok (mkRequirement lv (AsDuration b))
            end
        end;
  Requirement_Validate req;;
  Ok req.

End requirement_from_proto.

(** ** Session tokens *)

Definition DefaultMaxSessionShards : Z := 64.

Record watermark := mkWatermark { wm_version : Z; wm_used : Z }.

Record Token := mkToken {
  tok_max : Z;
  tok_seq : Z;
  tok_entries : gmap string watermark;
  tok_evicted : gset string;
}.

Definition NewToken (maxShards : Z) : Token :=
  mkToken (if maxShards <=? 0 then DefaultMaxSessionShards else maxShards) 0 ∅ ∅.

(** The loop of [evictOldestLocked] over the entries in the order Go ranges
    over them: keep the entry with the least [used] so far. *)
Fixpoint oldest_scan (order : list (string * watermark)) (found : option (string * Z)) :
    option (string * Z) :=
  match order with
  | [] => found
  | (shard, w) :: order =>
      oldest_scan order
        (match found with
         | None => Some (shard, wm_used w)
         | Some (_, oldestUsed) =>
             if wm_used w <? oldestUsed then Some (shard, wm_used w) else found
         end)
  end.

Definition Token_evict_ranged (order : list (string * watermark)) (s : Token) : Token :=
  match oldest_scan order None with
  | None => s
  | Some (oldestShard, _) =>
      mkToken (tok_max s) (tok_seq s) (delete oldestShard (tok_entries s))
        ({[oldestShard]} ∪ tok_evicted s)
  end.

Definition Token_evictOldestLocked (s : Token) : Token :=
  Token_evict_ranged (map_to_list (tok_entries s)) s.

Definition Token_advanceLocked (shard : string) (v : Z) (s0 : Token) : Token :=
  let s := mkToken (tok_max s0) (u64 (tok_seq s0 + 1)) (tok_entries s0) (tok_evicted s0) in
  match tok_entries s !! shard with
  | Some cur =>
      let version := if wm_version cur <? v then v else wm_version cur in
      mkToken (tok_max s) (tok_seq s)
        (<[shard := mkWatermark version (tok_seq s)]> (tok_entries s)) (tok_evicted s)
  | None =>
      let s := if tok_max s <=? Z.of_nat (size (tok_entries s))
               then Token_evictOldestLocked s else s in
      mkToken (tok_max s) (tok_seq s)
        (<[shard := mkWatermark v (tok_seq s)]> (tok_entries s)) (tok_evicted s ∖ {[shard]})
  end.

Definition Token_Advance (shard : string) (v : Z) (s : Token) : Token :=
  if bool_decide (shard = "") then s else Token_advanceLocked shard v s.

Definition Token_Watermark (s : Token) (shard : string) : option Z :=
  wm_version <$> tok_entries s !! shard.

Definition Token_Degraded (s : Token) (shard : string) : bool :=
  bool_decide (shard ∈ tok_evicted s).

(** [Merge], ranging over the other session's map in the given order. *)
Fixpoint Token_Merge_ranged (order : list (string * Z)) (s : Token) : Token :=
  match order with
  | [] => s
  | (shard, v) :: order =>
      Token_Merge_ranged order
        (if bool_decide (shard = "") then s else Token_advanceLocked shard v s)
  end.

Definition Token_Merge (other : gmap string Z) (s : Token) : Token :=
  if bool_decide (other = ∅) then s else Token_Merge_ranged (map_to_list other) s.

Definition Token_Watermarks (s : Token) : gmap string Z := wm_version <$> tok_entries s.

Definition Token_Proto (s : option Token) : gmap string Z :=
  match s with None => ∅ | Some s => Token_Watermarks s end.

Definition TokenFromProto (watermarks : gmap string Z) (maxShards : Z) : Token :=
  Token_Merge watermarks (NewToken maxShards).

(** ** Lemmas: eviction picks the least recently used watermark *)

Lemma oldest_scan_spec order found r :
  oldest_scan order found = r →
  match r with
  | None => order = [] ∧ found = None
  | Some (sh, u) =>
      (found = Some (sh, u) ∨ ∃ w, (sh, w) ∈ order ∧ wm_used w = u) ∧
      (∀ sh' w', (sh', w') ∈ order → u ≤ wm_used w') ∧
      (∀ f, found = Some f → u ≤ f.2)
  end.
Proof.
  revert found. induction order as [|[sh w] order IH]; intros found Hr; cbn [oldest_scan] in Hr.
  - subst r. destruct found as [[sh u]|]; [|done]. split_and!; [by left| |].
    + intros ? ? H%elem_of_nil. done.
    + intros ? [= <-]. simpl. lia.
  - apply IH in Hr. destruct r as [[sh0 u0]|].
    + destruct Hr as (H1 & H2 & H3).
      assert (u0 ≤ wm_used w ∧ ∀ f, found = Some f → u0 ≤ f.2) as [Hw Hf].
      { destruct found as [[shf uf]|].
        - destruct (Z.ltb_spec (wm_used w) uf) as [Hlt|Hge]; specialize (H3 _ eq_refl); simpl in H3;
            (split; [lia|]; intros ? [= <-]; simpl; lia).
        - specialize (H3 _ eq_refl). simpl in H3. split; [lia|done]. }
      split_and!; [|intros sh' w' [[= -> ->]|Hin]%elem_of_cons; eauto|done].
      destruct H1 as [H1|(w1 & Hw1 & <-)]; [|right; exists w1; split; [by right|done]].
      destruct found as [[shf uf]|]; [destruct (wm_used w <? uf)|]; simplify_eq;
        first [by left | right; exists w; split; [left|done]].
    + destruct Hr as [_ Hr]. by destruct found as [[shf uf]|]; [destruct (wm_used w <? uf)|].
Qed.

Record Token_wf (s : Token) : Prop := {
  wf_max : 1 ≤ tok_max s;
  wf_seq : 0 ≤ tok_seq s;
  wf_size : Z.of_nat (size (tok_entries s)) ≤ tok_max s;
  wf_disj : ∀ sh, sh ∈ tok_evicted s → tok_entries s !! sh = None;
  wf_used : ∀ sh w, tok_entries s !! sh = Some w → wm_used w ≤ tok_seq s;
  wf_inj : ∀ sh sh' w w', tok_entries s !! sh = Some w → tok_entries s !! sh' = Some w' →
           wm_used w = wm_used w' → sh = sh';
}.

Lemma NewToken_wf m : Token_wf (NewToken m).
Proof.
  split; simpl; try done.
  - unfold DefaultMaxSessionShards. case_ifs; zsolve.
  - change (size ∅) with 0%nat. unfold DefaultMaxSessionShards. case_ifs; zsolve.
Qed.

(** The effect of an eviction, in whatever order the map is ranged over. *)
Lemma evict_ranged_spec s order :
  Token_wf s → order ≡ₚ map_to_list (tok_entries s) → (0 < size (tok_entries s))%nat →
  ∃ sh w, tok_entries s !! sh = Some w ∧
    (∀ sh' w', tok_entries s !! sh' = Some w' → wm_used w ≤ wm_used w') ∧
    Token_evict_ranged order s =
      mkToken (tok_max s) (tok_seq s) (delete sh (tok_entries s)) ({[sh]} ∪ tok_evicted s).
Proof.
  intros Hwf Ho Hsz. unfold Token_evict_ranged.
  destruct (oldest_scan order None) as [[sh u]|] eqn:E; apply oldest_scan_spec in E.
  - destruct E as ([|(w & Hin & <-)] & Hmin & _); [done|].
    rewrite Ho in Hin. apply elem_of_map_to_list in Hin.
    exists sh, w. split_and!; [done| |done].
    intros sh' w' H'. apply (Hmin sh'). rewrite Ho. by apply elem_of_map_to_list.
  - destruct E as [-> _]. apply Permutation_nil_l in Ho.
    symmetry in Ho. apply map_to_list_empty_iff in Ho. rewrite Ho in Hsz.
    rewrite map_size_empty in Hsz. lia.
Qed.

Lemma evict_ranged_order s order :
  Token_wf s → order ≡ₚ map_to_list (tok_entries s) →
  Token_evict_ranged order s = Token_evictOldestLocked s.
Proof.
  intros Hwf Ho. destruct (decide (size (tok_entries s) = 0%nat)) as [H0|H0].
  - apply map_size_empty_inv in H0. unfold Token_evictOldestLocked, Token_evict_ranged.
    rewrite H0, map_to_list_empty in *. by apply Permutation_nil_r in Ho as ->.
  - destruct (evict_ranged_spec s order Hwf Ho) as (sh & w & Hl & Hm & ->); [lia|].
    unfold Token_evictOldestLocked.
    destruct (evict_ranged_spec s (map_to_list (tok_entries s)) Hwf) as (sh' & w' & Hl' & Hm' & ->);
      [done|lia|].
    assert (wm_used w = wm_used w') as He.
    { specialize (Hm _ _ Hl'). specialize (Hm' _ _ Hl). lia. }
    by rewrite (wf_inj s Hwf _ _ _ _ Hl Hl' He).
Qed.

(** [Advance] on a table with room, or on a shard already in it. *)
Lemma advance_fits s shard v :
  tok_entries s !! shard ≠ None ∨ Z.of_nat (size (tok_entries s)) < tok_max s →
  let s' := Token_advanceLocked shard v s in
  Token_Watermarks s' =
    <[shard := match Token_Watermarks s !! shard with Some u => Z.max u v | None => v end]>
      (Token_Watermarks s) ∧
  tok_max s' = tok_max s ∧ tok_evicted s' ⊆ tok_evicted s ∧
  dom (tok_entries s') = {[shard]} ∪ dom (tok_entries s).
Proof.
  intros Hfit. unfold Token_advanceLocked, Token_Watermarks. cbn [tok_max tok_seq tok_entries tok_evicted].
  rewrite lookup_fmap. destruct (tok_entries s !! shard) as [cur|] eqn:E; simpl.
  - rewrite fmap_insert. simpl. split_and!; [|done|done|by rewrite dom_insert_L].
    f_equal. destruct (Z.ltb_spec (wm_version cur) v); lia.
  - destruct Hfit as [|Hfit]; [done|]. rewrite (proj2 (Z.leb_gt _ _)) by done. simpl.
    rewrite fmap_insert, dom_insert_L. split_and!; [done|done|set_solver|done].
Qed.

(** Writing a freshly used watermark keeps the token well formed, over any part
    of its table. *)
Lemma wf_insert s shard v entries evicted :
  Token_wf s → entries ⊆ tok_entries s →
  Z.of_nat (size (<[shard := mkWatermark v (tok_seq s + 1)]> entries)) ≤ tok_max s →
  (∀ sh, sh ∈ evicted → sh ≠ shard ∧ entries !! sh = None) →
  Token_wf (mkToken (tok_max s) (tok_seq s + 1)
              (<[shard := mkWatermark v (tok_seq s + 1)]> entries) evicted).
Proof.
  intros [Hmax Hseq0 _ _ Hused Hinj] Hsub Hsz Hev.
  assert (∀ sh w, entries !! sh = Some w → tok_entries s !! sh = Some w) as Hl.
  { intros sh w Hw. by eapply lookup_weaken. }
  split; simpl; try done; [lia| | |].
  - intros sh Hin. apply Hev in Hin as [? ?]. by rewrite lookup_insert_ne.
  - intros sh w [[<- <-]|[? Hw%Hl%Hused]]%lookup_insert_Some; simpl; lia.
  - intros sh sh' w w' [[<- <-]|[? Hw%Hl]]%lookup_insert_Some
      [[<- <-]|[? Hw'%Hl]]%lookup_insert_Some; simpl; try done; intros Hu.
    + apply Hused in Hw'. lia.
    + apply Hused in Hw. lia.
    + by eapply Hinj.
Qed.

(** What [advanceLocked] does to a shard the token tracks or has room for. *)
Lemma advance_in_place s shard v :
  Token_wf s → tok_seq s < 2 ^ 64 - 1 →
  tok_entries s !! shard ≠ None ∨ Z.of_nat (size (tok_entries s)) < tok_max s →
  let s' := Token_advanceLocked shard v s in
  Token_wf s' ∧
  wm_version <$> tok_entries s' !! shard =
    Some (match Token_Watermark s shard with Some u => Z.max u v | None => v end) ∧
  (∀ sh, sh ≠ shard → tok_entries s' !! sh = tok_entries s !! sh ∧
     Token_Degraded s' sh = Token_Degraded s sh).
Proof.
  intros Hwf Hseq Hfit. pose proof (wf_seq _ Hwf). pose proof (wf_size _ Hwf).
  unfold Token_advanceLocked, Token_Watermark. cbn [tok_max tok_seq tok_entries tok_evicted].
  rewrite (u64_id (tok_seq s + 1)) by zsolve.
  destruct (tok_entries s !! shard) as [cur|] eqn:E; simpl.
  - split; [|split].
    + apply wf_insert; [done..| |].
      * by rewrite map_size_insert, E.
      * intros sh Hin. apply (wf_disj _ Hwf) in Hin. split; [congruence|done].
    + rewrite lookup_insert_eq. simpl. f_equal. destruct (Z.ltb_spec (wm_version cur) v); lia.
    + intros sh Hne. by rewrite lookup_insert_ne.
  - destruct Hfit as [|Hroom]; [done|]. rewrite (proj2 (Z.leb_gt _ _)) by done. simpl.
    split; [|split].
    + apply wf_insert; [done..| |].
      * rewrite map_size_insert_None by done. lia.
      * intros sh [Hin ?%not_elem_of_singleton]%elem_of_difference.
        split; [done|by apply (wf_disj _ Hwf)].
    + by rewrite lookup_insert_eq.
    + intros sh Hne. rewrite lookup_insert_ne by done. split; [done|].
      apply bool_decide_ext. set_solver.
Qed.

(** What it does to an untracked shard when the token is full. *)
Lemma advance_evicting s shard v :
  Token_wf s → tok_seq s < 2 ^ 64 - 1 →
  tok_entries s !! shard = None → tok_max s ≤ Z.of_nat (size (tok_entries s)) →
  let s' := Token_advanceLocked shard v s in
  Token_wf s' ∧ wm_version <$> tok_entries s' !! shard = Some v ∧
  ∃ old w, tok_entries s !! old = Some w ∧
    (∀ sh' w', tok_entries s !! sh' = Some w' → sh' ≠ old → wm_used w < wm_used w') ∧
    (tok_entries s' !! old = None ∧ Token_Degraded s' old = true) ∧
    ∀ sh, sh ≠ shard → sh ≠ old → tok_entries s' !! sh = tok_entries s !! sh ∧
      Token_Degraded s' sh = Token_Degraded s sh.
Proof.
  intros Hwf Hseq E Hfull. pose proof (wf_seq _ Hwf). pose proof (wf_max _ Hwf).
  pose proof (wf_size _ Hwf).
  unfold Token_advanceLocked. cbn [tok_max tok_seq tok_entries tok_evicted].
  rewrite (u64_id (tok_seq s + 1)) by zsolve. rewrite E, (proj2 (Z.leb_le _ _)) by done.
  set (s1 := mkToken (tok_max s) (tok_seq s + 1) (tok_entries s) (tok_evicted s)).
  assert (Token_wf s1) as Hwf1.
  { destruct Hwf as [? ? ? ? Hused ?]. split; simpl; try done; [lia|].
    intros sh w Hw. specialize (Hused _ _ Hw). lia. }
  destruct (evict_ranged_spec s1 (map_to_list (tok_entries s1)) Hwf1) as (old & w & Hold & Hmin & Hev);
    [done|simpl; lia|].
  unfold Token_evictOldestLocked. rewrite Hev. simpl in *.
  assert (old ≠ shard) by congruence. split; [|split].
  - apply wf_insert; [done|apply delete_subseteq| |].
    + rewrite map_size_insert_None by (by rewrite lookup_delete_ne).
      rewrite map_size_delete, Hold. simpl. lia.
    + intros sh [Hin ?%not_elem_of_singleton]%elem_of_difference. split; [done|].
      destruct (decide (sh = old)) as [->|]; [by rewrite lookup_delete_eq|].
      rewrite lookup_delete_ne by done. apply (wf_disj _ Hwf). set_solver.
  - by rewrite lookup_insert_eq.
  - exists old, w. split; [done|split; [|split; [split|]]].
    + intros sh' w' Hw' Hne. specialize (Hmin _ _ Hw').
      assert (wm_used w ≠ wm_used w') by
        (intros Hu; apply Hne; symmetry; by eapply (wf_inj _ Hwf)). lia.
    + rewrite lookup_insert_ne by done. apply lookup_delete_eq.
    + apply bool_decide_eq_true_2. set_solver.
    + intros sh Hn1 Hn2. rewrite lookup_insert_ne, lookup_delete_ne by done. split; [done|].
      apply bool_decide_ext. set_solver.
Qed.

Lemma LevelFromProto_cases p :
  (∃ lv, LevelFromProto p = Ok lv ∧ (∃ n, levelNames lv = Some n) ∧
     (lv =? Bounded) = (p =? CONSISTENCY_LEVEL_BOUNDED) ∧
     (p = 0 ∧ lv = Session ∨ p ≠ 0 ∧ Level_Proto lv = p) ∧ 0 ≤ lv ≤ 3 ∧ 0 ≤ p ≤ 4) ∨
  (∃ e, LevelFromProto p = Err e ∧ ¬ 0 ≤ p ≤ 4).
Proof.
  destruct (decide (0 ≤ p ≤ 4)) as [Hp|Hp].
  - left. assert (p = 0 ∨ p = 1 ∨ p = 2 ∨ p = 3 ∨ p = 4) as Hc by lia.
    destruct Hc as [->|[->|[->|[->| ->]]]];
      (eexists; split; [reflexivity|]); (split; [by eexists|]); vm_compute; intuition congruence.
  - right. unfold LevelFromProto, levelToProto, CONSISTENCY_LEVEL_UNSPECIFIED.
    rewrite (proj2 (Z.eqb_neq p 0)) by lia. cbn.
    unfold CONSISTENCY_LEVEL_STRONG, CONSISTENCY_LEVEL_SESSION,
      CONSISTENCY_LEVEL_BOUNDED, CONSISTENCY_LEVEL_EVENTUAL.
    do 4 (rewrite decide_False by lia; cbn). by eexists.
Qed.

(** ** Properties: requirements *)

(** A request's requirement is accepted exactly when it is coherent (a
    known level; BOUNDED with a positive bound; any other level with no bound),
    the accepted value is the level and bound sent, UNSPECIFIED meaning
    SESSION, and nothing panics. *)
Theorem RequirementFromProto_spec {D} (CheckValid : D → option error) (AsDuration : D → Z) p bound :
  match RequirementFromProto CheckValid AsDuration p bound with
  | Ok r =>
      (p = 0 ∧ req_Level r = Session ∨ p ≠ 0 ∧ Level_Proto (req_Level r) = p) ∧
      0 ≤ req_Level r ≤ 3 ∧
      match bound with
      | Some d => CheckValid d = None ∧ req_StalenessBound r = AsDuration d
      | None => req_StalenessBound r = 0
      end ∧
      (if req_Level r =? Bounded then 0 < req_StalenessBound r else req_StalenessBound r = 0)
  | Err _ =>
      ¬ (0 ≤ p ≤ 4) ∨
      match bound with
      | Some d => CheckValid d ≠ None ∨
          if p =? CONSISTENCY_LEVEL_BOUNDED then AsDuration d ≤ 0 else AsDuration d ≠ 0
      | None => p = CONSISTENCY_LEVEL_BOUNDED
      end
  | Panic _ => False
  end.
Proof.
  destruct (LevelFromProto_cases p) as [(lv & Elv & Hn & H4 & H1 & H2 & H3)|(e & Elv & Herr)].
  2: { unfold RequirementFromProto. rewrite Elv. mrun. by left. }
  destruct Hn as [n Hn]. unfold RequirementFromProto, Requirement_Validate. rewrite Elv. mrun.
  destruct bound as [d|]; [destruct (CheckValid d) eqn:Ec|]; mrun; simpl; rewrite ?Hn, ?H4; mrun.
  - by right; left.
  - destruct (p =? CONSISTENCY_LEVEL_BOUNDED) eqn:Ep; simpl.
    + destruct (Z.eqb_spec (AsDuration d) 0); [right; right; lia|].
      destruct (Z.ltb_spec (AsDuration d) 0); [right; right; lia|]. simpl. rewrite H4.
      split_and!; auto; lia.
    + destruct (Z.eqb_spec (AsDuration d) 0); simpl; [|right; by right]. rewrite H4.
      split_and!; auto; lia.
  - destruct (Z.eqb_spec p CONSISTENCY_LEVEL_BOUNDED) as [Ep|Ep]; simpl; [by right|].
    rewrite H4. split_and!; auto; lia.
Qed.

(** ** Properties: session tokens *)

(** One Advance moves the shard's watermark to the maximum of the old and
    the new version, and leaves every other shard's watermark and degraded flag
    as they were, except that an untracked shard entering a full token evicts
    exactly the least recently used one, which is then reported degraded. *)
Theorem Token_Advance_spec (s : Token) shard v :
  Token_wf s → tok_seq s < 2 ^ 64 - 1 → shard ≠ "" →
  let s' := Token_Advance shard v s in
  Token_wf s' ∧
  Token_Watermark s' shard =
    Some (match Token_Watermark s shard with Some u => Z.max u v | None => v end) ∧
  Token_Degraded s' shard = false ∧
  ∀ sh, sh ≠ shard →
    Token_Watermark s' sh = Token_Watermark s sh ∧ Token_Degraded s' sh = Token_Degraded s sh ∨
    Token_Watermark s shard = None ∧ Z.of_nat (size (tok_entries s)) = tok_max s ∧
    (∃ w, tok_entries s !! sh = Some w ∧
       ∀ sh' w', tok_entries s !! sh' = Some w' → sh' ≠ sh → wm_used w < wm_used w') ∧
    Token_Watermark s' sh = None ∧ Token_Degraded s' sh = true.
Proof.
  intros Hwf Hseq Hsh. unfold Token_Advance. rewrite bool_decide_eq_false_2 by done.
  assert (∀ s', Token_wf s' → ∀ x, wm_version <$> tok_entries s' !! shard = Some x →
            Token_Degraded s' shard = false) as Hnd.
  { intros s' Hwf' x Hx. apply bool_decide_eq_false_2. intros Hin%(wf_disj _ Hwf').
    by rewrite Hin in Hx. }
  destruct (decide (tok_entries s !! shard = None ∧ tok_max s ≤ Z.of_nat (size (tok_entries s))))
    as [[Hnone Hfull]|Hfit].
  - destruct (advance_evicting s shard v Hwf Hseq Hnone Hfull)
      as (Hwf' & He & old & w & Hold & Hmin & [Ho1 Ho2] & Hcase).
    split; [done|split; [|split; [by eapply Hnd|]]]; unfold Token_Watermark; rewrite Hnone; [done|].
    intros sh Hne. destruct (decide (sh = old)) as [->|Hne'].
    + right. rewrite Ho1. pose proof (wf_size _ Hwf).
      split; [done|split; [lia|split; [by exists w|done]]].
    + left. destruct (Hcase sh Hne Hne') as [-> ->]. done.
  - destruct (advance_in_place s shard v Hwf Hseq) as (Hwf' & He & Hcase).
    { destruct (tok_entries s !! shard); [by left|right].
      destruct (Z.lt_ge_cases (Z.of_nat (size (tok_entries s))) (tok_max s)); [done|].
      by destruct Hfit. }
    split; [done|split; [done|split; [by eapply Hnd|]]].
    intros sh Hne. left. unfold Token_Watermark. destruct (Hcase sh Hne) as [-> ->]. done.
Qed.

(** A merge into a token with room: the shards' maxima, whatever the order. *)
Lemma Merge_ranged_fits order s :
  NoDup order.*1 →
  (∀ D, D = dom (tok_entries s) ∪ (list_to_set order.*1 ∖ {[""]}) → Z.of_nat (size D) ≤ tok_max s) →
  Token_Watermarks (Token_Merge_ranged order s) =
    union_with (λ a b, Some (Z.max a b)) (Token_Watermarks s)
      (delete "" (list_to_map order)) ∧
  tok_evicted (Token_Merge_ranged order s) ⊆ tok_evicted s.
Proof.
  revert s. induction order as [|[shard v] order IH]; intros s Hnd Hfit.
  - simpl. rewrite delete_empty. split; [|done]. apply map_eq. intros i.
    rewrite lookup_union_with, lookup_empty. by destruct (Token_Watermarks s !! i).
  - apply NoDup_cons in Hnd as [Hni Hnd]. cbn [Token_Merge_ranged].
    case_bool_decide as Hsh.
    + subst shard. destruct (IH s Hnd) as [IH1 IH2].
      { intros D ->. eapply Z.le_trans; [|by apply Hfit]. apply inj_le, subseteq_size. set_solver. }
      split; [|done]. rewrite IH1. f_equal. simpl. by rewrite delete_insert_eq.
    + destruct (advance_fits s shard v) as (Hw & Hm & He & Hd).
      { destruct (tok_entries s !! shard) eqn:E; [by left|right].
        assert (Z.of_nat (size (dom (tok_entries s) ∪ {[shard]})) ≤ tok_max s) as Hle.
        { eapply Z.le_trans; [|by apply Hfit]. apply inj_le, subseteq_size. set_solver. }
        rewrite size_union in Hle.
        - rewrite size_singleton, size_dom in Hle. lia.
        - apply disjoint_singleton_r. by apply not_elem_of_dom. }
      destruct (IH (Token_advanceLocked shard v s) Hnd) as [IH1 IH2].
      { intros D ->. rewrite Hm, Hd. eapply Z.le_trans; [|by apply Hfit].
        apply inj_le, subseteq_size. set_solver. }
      split; [|set_solver]. rewrite IH1, Hw. simpl.
      rewrite delete_insert_ne by done. apply map_eq. intros i.
      rewrite !lookup_union_with.
      destruct (decide (i = shard)) as [->|Hne].
      * rewrite !lookup_insert_eq, lookup_delete_ne by done.
        rewrite (not_elem_of_list_to_map_1 order shard Hni). by destruct (_ !! shard).
      * by rewrite !lookup_insert_ne.
Qed.

(** Causal propagation.  Folding another session's watermarks into a token
    that has room for all of them keeps, per shard, the higher of the two and
    loses none, whatever the order in which Go ranges over the map. *)
Theorem Token_Merge_spec (s : Token) (other : gmap string Z) order :
  order ≡ₚ map_to_list other →
  Z.of_nat (size (dom (tok_entries s) ∪ (dom other ∖ {[""]}))) ≤ tok_max s →
  Token_Watermarks (Token_Merge_ranged order s) =
    union_with (λ a b, Some (Z.max a b)) (Token_Watermarks s) (delete "" other) ∧
  Token_Watermarks (Token_Merge other s) = Token_Watermarks (Token_Merge_ranged order s) ∧
  tok_evicted (Token_Merge other s) ⊆ tok_evicted s.
Proof.
  intros Ho Hsz.
  assert (∀ o, o ≡ₚ map_to_list other →
    Token_Watermarks (Token_Merge_ranged o s) =
      union_with (λ a b, Some (Z.max a b)) (Token_Watermarks s) (delete "" other) ∧
    tok_evicted (Token_Merge_ranged o s) ⊆ tok_evicted s) as H.
  { intros o Hp.
    assert (NoDup o.*1) as Hnd by (rewrite Hp; apply NoDup_fst_map_to_list).
    assert (list_to_map o = other) as Hom.
    { rewrite <-(list_to_map_to_list other). by apply list_to_map_proper. }
    destruct (Merge_ranged_fits o s Hnd) as [H1 H2]; [|by rewrite Hom in H1].
    intros D ->. rewrite <-dom_list_to_map_L, Hom. done. }
  destruct (H order Ho) as [H1 H2]. rewrite H1. split; [done|].
  unfold Token_Merge. case_bool_decide as He.
  - subst other. rewrite map_to_list_empty in Ho. apply Permutation_nil_r in Ho as ->.
    split; [|done]. by rewrite <-H1.
  - by apply H.
Qed.

Definition Token_history (ops : list (string * Z)) (s : Token) : Token :=
  foldl (λ s op, Token_Advance op.1 op.2 s) s ops.

(** A session's position is lost silently when its shard is evicted and
    then touched again: the watermark moves backwards (from 9 to 3) and the
    token no longer reports the shard as degraded, although this session wrote
    version 9 there. *)
Theorem Token_eviction_forgets :
  let ops := [("a", 9); ("b", 1); ("a", 3)] in
  let s := Token_history ops (NewToken 1) in
  ("a", 9) ∈ ops ∧ Token_Watermark s "a" = Some 3 ∧ Token_Degraded s "a" = false.
Proof. split; [left|by vm_compute]. Qed.

(** ** Witnesses *)

Definition full_token : Token := Token_history [("a", 9); ("b", 1)] (NewToken 2).

Lemma full_token_wf : Token_wf full_token.
Proof.
  unfold full_token, Token_history. simpl.
  unfold Token_Advance. rewrite !bool_decide_eq_false_2 by done.
  apply advance_in_place.
  - apply advance_in_place; [apply NewToken_wf|done|by right].
  - by vm_compute.
  - right. by vm_compute.
Qed.

Lemma Token_Advance_spec_witness :
  Token_Watermark (Token_Advance "c" 5 full_token) "c" = Some 5 ∧
  Token_Degraded (Token_Advance "c" 5 full_token) "a" = true.
Proof.
  split; [|vm_compute; reflexivity].
  destruct (Token_Advance_spec full_token "c" 5 full_token_wf) as (_ & H & _);
    [vm_compute; reflexivity | congruence | exact H].
Defined.

Lemma Token_Merge_spec_witness :
  Token_Watermarks (Token_Merge_ranged [("a", 3); ("c", 7)] (Token_Advance "a" 9 (NewToken 8))) =
    union_with (λ a b, Some (Z.max a b)) (Token_Watermarks (Token_Advance "a" 9 (NewToken 8)))
      (delete "" {["a" := 3; "c" := 7]}).
Proof.
  refine (proj1 (Token_Merge_spec (Token_Advance "a" 9 (NewToken 8)) {["a" := 3; "c" := 7]}
    [("a", 3); ("c", 7)] _ _)).
  - apply (bool_decide_unpack _). vm_compute. exact I.
  - vm_compute. congruence.
Defined.
