(* ===== verification/Freshness.v ===== *)
(** The request-time freshness decision and the fill-wait schedule:
    [src/internal/engine/freshness.go] and [src/internal/engine/lease.go].

    An instant is its nanoseconds since the Unix epoch; a duration is an int64
    count of nanoseconds. *)

From S2P Require Import Prelude GoStd Hlc Consistency.

Local Open Scope Z_scope.

Definition nanos_per_milli : Z := 1000000.

(** [Version.Time]: [time.UnixMilli(v.PhysicalMillis())]. *)
Definition Version_Time (v : Z) : Z := Version_PhysicalMillis v * nanos_per_milli.

Record Freshness := mkFreshness {
  fr_Requirement : Requirement;
  fr_FillVersion : Z;
  fr_Watermark : Z;
  fr_WatermarkKnown : bool;
  fr_Now : Z;
  fr_MaxClockSkew : Z;
}.

Definition AcceptEntry (f : Freshness) : bool :=
  let level := req_Level (fr_Requirement f) in
  if Level_BypassesCache level then false
  else if Level_RequiresWatermark level && fr_WatermarkKnown f &&
          (fr_FillVersion f <? fr_Watermark f) then false
  else if level =? Bounded then
    let oldest := fr_Now f + i64 (- req_StalenessBound (fr_Requirement f)) + fr_MaxClockSkew f in
    negb (Version_Time (fr_FillVersion f) <? oldest)
  else true.

(** ** Waiting for another caller's fill *)

Record WaitPolicy := mkWaitPolicy { wp_attempts : Z; wp_base : Z; wp_max : Z }.

Definition NewWaitPolicy (attempts base max : Z) : WaitPolicy :=
  let attempts := if attempts <? 0 then 0 else attempts in
  let base := if base <? 0 then 0 else base in
  let max := if max <? base then base else max in
  mkWaitPolicy attempts base max.

Definition WaitPolicy_MaxAttempts (p : WaitPolicy) : Z := wp_attempts p.

(** The doubling loop: at most [attempt] rounds, each an int64 product. *)
Fixpoint backoff_loop (rounds : nat) (max d : Z) : Z :=
  match rounds with
  | O => d
  | S rounds => if d <? max then backoff_loop rounds max (i64 (d * 2)) else d
  end.

Definition WaitPolicy_Backoff (p : WaitPolicy) (attempt : Z) : Z :=
  if (attempt <? 0) || (wp_base p <=? 0) then 0
  else
    let d := backoff_loop (Z.to_nat attempt) (wp_max p) (wp_base p) in
    if wp_max p <? d then wp_max p else d.

(** ** Lemmas *)

Lemma AcceptEntry_true f :
  is_i64 (- req_StalenessBound (fr_Requirement f)) →
  AcceptEntry f = true ↔
    req_Level (fr_Requirement f) ≠ Strong ∧
    (req_Level (fr_Requirement f) = Session ∨ req_Level (fr_Requirement f) = Bounded →
     fr_WatermarkKnown f = true → fr_Watermark f ≤ fr_FillVersion f) ∧
    (req_Level (fr_Requirement f) = Bounded →
     fr_Now f - req_StalenessBound (fr_Requirement f) + fr_MaxClockSkew f
       ≤ Version_Time (fr_FillVersion f)).
Proof.
  intros Hb. unfold AcceptEntry, Level_BypassesCache, Level_RequiresWatermark.
  rewrite (i64_id (- _)) by done. unfold Strong, Session, Bounded.
  set (l := req_Level _). destruct (Z.eqb_spec l 1) as [->|H1]; [split; [done|lia]|].
  destruct (Z.eqb_spec l 0), (Z.eqb_spec l 2), (fr_WatermarkKnown f); simpl;
    try (destruct (Z.ltb_spec (fr_FillVersion f) (fr_Watermark f)); simpl);
    try rewrite negb_true_iff, Z.ltb_ge;
    (split; [intros; split_and!; intros; try done; lia | intros (? & Hw & Ht); try done; try lia]).
  all: try (specialize (Hw (or_introl e) eq_refl); lia).
  all: try (specialize (Hw (or_intror e) eq_refl); lia).
  all: try (specialize (Ht e); lia).
Qed.

Lemma backoff_loop_spec n max d :
  0 < d ≤ max → max ≤ 2 ^ 62 →
  Z.min max (backoff_loop n max d) = Z.min max (d * 2 ^ Z.of_nat n) ∧ 0 < backoff_loop n max d.
Proof.
  revert d. induction n as [|n IH]; intros d Hd Hm; cbn [backoff_loop].
  - rewrite Z.mul_1_r. lia.
  - rewrite Nat2Z.inj_succ, Z.pow_succ_r by lia.
    assert (0 < 2 ^ Z.of_nat n) by (apply Z.pow_pos_nonneg; lia).
    destruct (Z.ltb_spec d max) as [Hlt|Hge].
    + rewrite i64_id by zsolve. destruct (Z.le_gt_cases (d * 2) max) as [Hle|Hgt].
      * destruct (IH (d * 2)) as [-> ?]; [lia..|]. split; [f_equal; lia|done].
      * assert (backoff_loop n max (d * 2) = d * 2) as ->.
        { destruct n; [done|]. cbn [backoff_loop]. by rewrite (proj2 (Z.ltb_ge _ _)) by lia. }
        split; [|lia]. rewrite !Z.min_l; [done| |lia]. nia.
    + split; [|lia]. rewrite !Z.min_l; [done| |lia]. nia.
Qed.

(** ** Properties *)

(** C18: what acceptance means.  A STRONG read never accepts; an accepted
    SESSION or BOUNDED read sees a database state no older than the session's
    watermark; and an accepted BOUNDED entry was filled at most the staleness
    bound before the true time, for any true time within the configured skew of
    the engine's clock. *)
Theorem AcceptEntry_sound (f : Freshness) (true_now : Z) :
  is_i64 (- req_StalenessBound (fr_Requirement f)) →
  Z.abs (true_now - fr_Now f) ≤ fr_MaxClockSkew f →
  AcceptEntry f = true →
  req_Level (fr_Requirement f) ≠ Strong ∧
  (req_Level (fr_Requirement f) = Session ∨ req_Level (fr_Requirement f) = Bounded →
   fr_WatermarkKnown f = true → fr_Watermark f ≤ fr_FillVersion f) ∧
  (req_Level (fr_Requirement f) = Bounded →
   true_now - Version_Time (fr_FillVersion f) ≤ req_StalenessBound (fr_Requirement f)).
Proof.
  intros Hb Hs. rewrite AcceptEntry_true by done. intros (H1 & H2 & H3).
  split_and!; [done|done|]. intros Hl. specialize (H3 Hl). lia.
Qed.

(** The levels are ordered.  Whatever the entry, the session and the
    clocks: what BOUNDED accepts SESSION accepts, what SESSION accepts EVENTUAL
    accepts, and EVENTUAL accepts everything. *)
Theorem AcceptEntry_level_order fv wm known now skew bound :
  let accept l b := AcceptEntry (mkFreshness (mkRequirement l b) fv wm known now skew) in
  (accept Bounded bound = true → accept Session 0 = true) ∧ accept Eventual 0 = true ∧
  accept Strong 0 = false.
Proof.
  unfold AcceptEntry, Level_BypassesCache, Level_RequiresWatermark. simpl.
  destruct (known && (fv <? wm)); done.
Qed.

(** C35: The wait before re-checking is exactly [base * 2^attempt] capped at
    [max], for any policy whose cap is at most 2^62 nanoseconds. *)
Theorem WaitPolicy_Backoff_spec attempts base max attempt :
  0 < base → max ≤ 2 ^ 62 → base ≤ 2 ^ 62 → 0 ≤ attempt →
  let p := NewWaitPolicy attempts base max in
  WaitPolicy_Backoff p attempt = Z.min (Z.max base max) (base * 2 ^ attempt) ∧
  0 < WaitPolicy_Backoff p attempt.
Proof.
  intros Hb Hm Hb' Ha. unfold WaitPolicy_Backoff, NewWaitPolicy. cbn [wp_base wp_max].
  rewrite (proj2 (Z.ltb_ge base 0)), (proj2 (Z.ltb_ge attempt 0)), (proj2 (Z.leb_gt base 0)) by lia.
  simpl. assert ((if max <? base then base else max) = Z.max base max) as ->.
  { destruct (Z.ltb_spec max base); lia. }
  destruct (backoff_loop_spec (Z.to_nat attempt) (Z.max base max) base) as [H1 H2]; [lia..|].
  rewrite Z2Nat.id in H1 by lia.
  destruct (Z.ltb_spec (Z.max base max) (backoff_loop (Z.to_nat attempt) (Z.max base max) base)); lia.
Qed.

(** Past that cap the doubling wraps: the delay becomes negative. *)
Example Backoff_overflows :
  WaitPolicy_Backoff (NewWaitPolicy 3 (2 ^ 62) (2 ^ 63 - 1)) 1 = - 2 ^ 63.
Proof. reflexivity. Qed.

(** ** Witnesses *)

Definition bounded_read : Freshness :=
  mkFreshness (mkRequirement Bounded (2 * Duration_Second)) (Z.shiftl 9000 16) 7 true
    (10 * Duration_Second) (Duration_Second / 10).

Lemma AcceptEntry_sound_witness :
  AcceptEntry bounded_read = true ∧
  10 * Duration_Second + 5000000 - Version_Time (fr_FillVersion bounded_read) ≤ 2 * Duration_Second.
Proof.
  split; [vm_compute; reflexivity|].
  destruct (AcceptEntry_sound bounded_read (10 * Duration_Second + 5000000)) as (_ & _ & H);
    [vm_compute; intuition congruence | vm_compute; congruence | vm_compute; reflexivity |].
  exact (H eq_refl).
Defined.

Lemma WaitPolicy_Backoff_spec_witness :
  WaitPolicy_Backoff (NewWaitPolicy 5 1000 6000) 2 = 4000.
Proof.
  exact (proj1 (WaitPolicy_Backoff_spec 5 1000 6000 2 ltac:(lia) ltac:(lia) ltac:(lia) ltac:(lia))).
Defined.
