(* ===== verification/Version.v ===== *)
(** The text form of versions inside the cache: [src/internal/cache/version.go].

    Versions are compared by Lua as strings, so the encoding must make string
    order the order of the integers. *)

From S2P Require Import Prelude GoStd.

Local Open Scope Z_scope.

Definition versionDigits : nat := 20.

(** [fmt.Sprintf("%0*d", versionDigits, v)]. *)
Definition encodeVersion (v : Z) : string := zero_pad versionDigits (FormatUint v).

Definition decodeVersion (s : string) : result Z :=
  match ParseUint s 64 with
  | Ok v => Ok v
  | Err _ => Err (Wrapf "bad version" (Sentinel ErrCorruptEntry))
  | Panic w => Panic w
  end.

(** ** Lengths *)

Lemma fmt_dec_length fuel n acc :
  0 ≤ n → (S (Z.to_nat (Z.log2 n)) ≤ fuel)%nat →
  str_len acc + 1 ≤ str_len (fmt_dec fuel n acc) ∧
  (0 < n → 10 ^ (str_len (fmt_dec fuel n acc) - str_len acc - 1) ≤ n).
Proof.
  revert n acc. induction fuel as [|fuel IH]; intros n acc Hn Hf; [lia|].
  cbn [fmt_dec]. destruct (Z.ltb_spec n 10) as [Hlt|Hge].
  - cbn [str_len]. split; [lia|]. intros.
    replace (1 + str_len acc - str_len acc - 1) with 0 by lia. simpl. lia.
  - destruct (IH (n / 10) (String (digit (n mod 10)) acc)) as [H1 H2].
    { apply Z.div_pos; lia. }
    { pose proof (fmt_dec_fuel_step n Hge). lia. }
    cbn [str_len] in H1, H2. set (L := str_len (fmt_dec _ _ _)) in *. split; [lia|]. intros _.
    assert (0 < n / 10) as Hpos by (apply Z.div_str_pos; lia). specialize (H2 Hpos).
    replace (L - str_len acc - 1) with (Z.succ (L - (1 + str_len acc) - 1)) by lia.
    rewrite Z.pow_succ_r by lia. pose proof (Z.div_mod n 10 ltac:(lia)).
    pose proof (Z.mod_pos_bound n 10 ltac:(lia)). lia.
Qed.

Lemma FormatUint_length n k : 0 < k → 0 ≤ n < 10 ^ k → 1 ≤ str_len (FormatUint n) ≤ k.
Proof.
  intros Hk Hn. destruct (fmt_dec_length (S (Z.to_nat (Z.log2 n))) n "") as [H1 H2]; [lia..|].
  cbn [str_len] in H1, H2. fold (FormatUint n) in H1, H2.
  set (L := str_len (FormatUint n)) in *. split; [lia|].
  destruct (Z.le_gt_cases L k) as [|Hgt]; [done|exfalso].
  destruct (decide (n = 0)) as [->|Hn0]; [change L with 1 in *; lia|].
  specialize (H2 ltac:(lia)).
  assert (10 ^ k ≤ 10 ^ (L - 0 - 1)) by (apply Z.pow_le_mono_r; lia). lia.
Qed.

Lemma encodeVersion_spec v :
  is_u64 v →
  dec_val 0 (encodeVersion v) = v ∧ str_all is_digit (encodeVersion v) = true ∧
  str_len (encodeVersion v) = 20.
Proof.
  intros Hv. unfold is_u64 in Hv. unfold encodeVersion, zero_pad.
  destruct (zero_repeat_spec (versionDigits - Z.to_nat (str_len (FormatUint v)))) as (H1 & H2 & H3).
  destruct (FormatUint_spec v ltac:(lia)) as (G1 & G2 & G3).
  pose proof (FormatUint_length v 20 ltac:(lia) ltac:(lia)).
  split_and!.
  - by rewrite H3.
  - by rewrite str_all_app, H2, G2.
  - rewrite str_len_app, H1. unfold versionDigits. lia.
Qed.

(** ** Order *)

Lemma dec_val_bound s : str_all is_digit s = true → 0 ≤ dec_val 0 s < 10 ^ str_len s.
Proof.
  induction s as [|c s IH]; [done|]. cbn [str_all dec_val str_len].
  intros [Hc Hs]%andb_true_iff. specialize (IH Hs). apply is_digit_val in Hc.
  rewrite dec_val_acc, Z.pow_add_r by (try pose proof (str_len_nonneg s); lia). nia.
Qed.

(** On digit strings of one length, Lua's string order is the numeric order. *)
Lemma str_ltb_dec s t :
  str_all is_digit s = true → str_all is_digit t = true → str_len s = str_len t →
  str_ltb s t = (dec_val 0 s <? dec_val 0 t).
Proof.
  revert t. induction s as [|c s IH]; intros [|d t]; cbn [str_len].
  - done.
  - pose proof (str_len_nonneg t). lia.
  - pose proof (str_len_nonneg s). lia.
  - cbn [str_all str_ltb dec_val]. intros [Hc Hs]%andb_true_iff [Hd Ht]%andb_true_iff Hl.
    assert (str_len s = str_len t) as Hl' by lia.
    pose proof (dec_val_bound s Hs). pose proof (dec_val_bound t Ht).
    rewrite (dec_val_acc (10 * 0 + _) s), (dec_val_acc (10 * 0 + _) t), <-Hl' in *.
    unfold digit_val in *.
    destruct (Z.ltb_spec (byte_val c) (byte_val d)).
    + symmetry. apply Z.ltb_lt. nia.
    + destruct (Z.ltb_spec (byte_val d) (byte_val c)).
      * symmetry. apply Z.ltb_ge. nia.
      * rewrite IH by done. assert (byte_val c = byte_val d) as -> by lia.
        destruct (Z.ltb_spec (dec_val 0 s) (dec_val 0 t)); symmetry;
          [apply Z.ltb_lt|apply Z.ltb_ge]; lia.
Qed.

Lemma encodeVersion_lt a b :
  is_u64 a → is_u64 b → str_ltb (encodeVersion a) (encodeVersion b) = (a <? b).
Proof.
  intros Ha Hb. destruct (encodeVersion_spec a Ha) as (A1 & A2 & A3).
  destruct (encodeVersion_spec b Hb) as (B1 & B2 & B3).
  rewrite str_ltb_dec by congruence. by rewrite A1, B1.
Qed.

Lemma encodeVersion_inj a b :
  is_u64 a → is_u64 b → encodeVersion a = encodeVersion b → a = b.
Proof.
  intros Ha Hb H. destruct (encodeVersion_spec a Ha) as (<- & _).
  rewrite H. apply encodeVersion_spec, Hb.
Qed.

Lemma decodeVersion_encodeVersion v : is_u64 v → decodeVersion (encodeVersion v) = Ok v.
Proof.
  intros Hv. destruct (encodeVersion_spec v Hv) as (H1 & H2 & H3).
  unfold decodeVersion, ParseUint. rewrite bool_decide_eq_false_2.
  - rewrite H2, H1. simpl. by rewrite (proj2 (Z.ltb_lt _ _)) by (unfold is_u64 in Hv; lia).
  - intros He. by rewrite He in H3.
Qed.

(** ** Properties *)

(** The encoding the Lua scripts compare is an order isomorphism on all
    uint64 versions, including adjacent ones above 2^53, and decodes back. *)
Theorem encodeVersion_order_iso a b :
  is_u64 a → is_u64 b →
  str_ltb (encodeVersion a) (encodeVersion b) = (a <? b) ∧
  (encodeVersion a = encodeVersion b ↔ a = b) ∧
  decodeVersion (encodeVersion a) = Ok a ∧ str_len (encodeVersion a) = 20.
Proof.
  intros Ha Hb. split_and!; [by apply encodeVersion_lt| | |by apply encodeVersion_spec].
  - split; [by apply encodeVersion_inj|by intros ->].
  - by apply decodeVersion_encodeVersion.
Qed.

Lemma encodeVersion_order_iso_witness :
  str_ltb (encodeVersion (2 ^ 53)) (encodeVersion (2 ^ 53 + 1)) = true ∧
  encodeVersion 17 = "00000000000000000017".
Proof.
  split; [|vm_compute; reflexivity].
  exact (proj1 (encodeVersion_order_iso (2 ^ 53) (2 ^ 53 + 1) ltac:(vm_compute; intuition congruence)
    ltac:(vm_compute; intuition congruence))).
Defined.
