(* ===== verification/Redis.v ===== *)
(** What Cachet relies on of its cache server, as an interface: the Redis
    commands the Lua scripts and the client call, with their documented effect
    as laws.  [mem_redis] is one implementation of it, a map. *)

From S2P Require Import Prelude GoStd.

Local Open Scope Z_scope.

Inductive rvalue :=
  | RHash (h : gmap string string)
  | RStr (s : string).

(** A key's value and the instant (in milliseconds) at which it expires. *)
Abbreviation rslot := (rvalue * option Z)%type.

Definition WRONGTYPE : error :=
  Errorf "WRONGTYPE Operation against a key holding the wrong kind of value".

(** Commands take the server's time in milliseconds, which a script sees frozen. *)
Class Redis (R : Type) := {
  look : R → Z → string → option rslot;
  HMGET : Z → string → list string → M R (list (option string));
  GET : Z → string → M R (option string);
  HSET : Z → string → list (string * string) → M R unit;
  HDEL : Z → string → list string → M R unit;
  PEXPIRE : Z → string → Z → M R unit;
  SET_NX_PX : Z → string → string → Z → M R bool;
  DEL : Z → string → M R unit;
  PTTL : Z → string → M R Z;
  FLUSHDB : M R unit;
}.

(** [r'] is [r] with key [k] holding [o]. *)
Definition writes {R} `{Redis R} (now : Z) (k : string) (o : option rslot) (r r' : R) : Prop :=
  ∀ k', look r' now k' = if decide (k' = k) then o else look r now k'.

Definition hset (fvs : list (string * string)) (h : gmap string string) : gmap string string :=
  foldl (λ h fv, <[fv.1 := fv.2]> h) h fvs.

Definition hdel (fs : list string) (h : gmap string string) : gmap string string :=
  foldl (λ h f, delete f h) h fs.

(** The slot once its time has been compared with the clock. *)
Definition alive (now : Z) (o : option rslot) : option rslot :=
  match o with
  | Some (v, Some e) => if now <? e then Some (v, Some e) else None
  | _ => o
  end.

Class RedisLaws (R : Type) `{Redis R} : Prop := {
  look_alive r now k : alive now (look r now k) = look r now k;
  look_later r now now' k : now ≤ now' → look r now' k = alive now' (look r now k);
  HMGET_law r now k fs :
    HMGET now k fs r =
      (match look r now k with
       | None => Ok ((λ _, None) <$> fs)
       | Some (RHash h, _) => Ok ((λ f, h !! f) <$> fs)
       | Some (RStr _, _) => Err WRONGTYPE
       end, r);
  GET_law r now k :
    GET now k r =
      (match look r now k with
       | None => Ok None
       | Some (RStr s, _) => Ok (Some s)
       | Some (RHash _, _) => Err WRONGTYPE
       end, r);
  HSET_law r now k fvs h e :
    look r now k = Some (RHash h, e) ∨ look r now k = None ∧ h = ∅ ∧ e = None →
    ∃ r', HSET now k fvs r = (Ok tt, r') ∧ writes now k (Some (RHash (hset fvs h), e)) r r';
  HDEL_law r now k fs h e :
    look r now k = Some (RHash h, e) →
    ∃ r', HDEL now k fs r = (Ok tt, r') ∧
      writes now k (if bool_decide (hdel fs h = ∅) then None else Some (RHash (hdel fs h), e)) r r';
  PEXPIRE_law r now k ms v e :
    look r now k = Some (v, e) →
    ∃ r', PEXPIRE now k ms r = (Ok tt, r') ∧
      writes now k (if 0 <? ms then Some (v, Some (now + ms)) else None) r r';
  SET_NX_PX_law r now k s ms :
    0 < ms →
    ∃ r', SET_NX_PX now k s ms r = (Ok (bool_decide (look r now k = None)), r') ∧
      writes now k (match look r now k with None => Some (RStr s, Some (now + ms)) | o => o end) r r';
  DEL_law r now k : ∃ r', DEL now k r = (Ok tt, r') ∧ writes now k None r r';
  PTTL_law r now k :
    PTTL now k r =
      (Ok (match look r now k with
           | None => -2
           | Some (_, None) => -1
           | Some (_, Some e) => e - now
           end), r);
  FLUSHDB_law r : ∃ r', FLUSHDB r = (Ok tt, r') ∧ ∀ now k, look r' now k = None;
}.

(** ** An implementation: a map *)

Abbreviation mem := (gmap string rslot).

Definition mem_look (m : mem) (now : Z) (k : string) : option rslot := alive now (m !! k).

#[global] Instance rvalue_eq_dec : EqDecision rvalue.
Proof. solve_decision. Defined.

#[global] Instance mem_redis : Redis mem := {
  look := mem_look;
  HMGET now k fs := λ m,
    (match mem_look m now k with
     | None => Ok ((λ _, None) <$> fs)
     | Some (RHash h, _) => Ok ((λ f, h !! f) <$> fs)
     | Some (RStr _, _) => Err WRONGTYPE
     end, m);
  GET now k := λ m,
    (match mem_look m now k with
     | None => Ok None
     | Some (RStr s, _) => Ok (Some s)
     | Some (RHash _, _) => Err WRONGTYPE
     end, m);
  HSET now k fvs := λ m,
    match mem_look m now k with
    | None => (Ok tt, <[k := (RHash (hset fvs ∅), None)]> m)
    | Some (RHash h, e) => (Ok tt, <[k := (RHash (hset fvs h), e)]> m)
    | Some (RStr _, _) => (Err WRONGTYPE, m)
    end;
  HDEL now k fs := λ m,
    match mem_look m now k with
    | None => (Ok tt, m)
    | Some (RHash h, e) =>
        (Ok tt, if bool_decide (hdel fs h = ∅) then delete k m else <[k := (RHash (hdel fs h), e)]> m)
    | Some (RStr _, _) => (Err WRONGTYPE, m)
    end;
  PEXPIRE now k ms := λ m,
    match mem_look m now k with
    | None => (Ok tt, m)
    | Some (v, _) => (Ok tt, if 0 <? ms then <[k := (v, Some (now + ms))]> m else delete k m)
    end;
  SET_NX_PX now k s ms := λ m,
    match mem_look m now k with
    | None => (Ok true, <[k := (RStr s, Some (now + ms))]> m)
    | Some _ => (Ok false, m)
    end;
  DEL now k := λ m, (Ok tt, delete k m);
  PTTL now k := λ m,
    (Ok (match mem_look m now k with
         | None => -2
         | Some (_, None) => -1
         | Some (_, Some e) => e - now
         end), m);
  FLUSHDB := λ m, (Ok tt, ∅);
}.

Lemma alive_idem now o : alive now (alive now o) = alive now o.
Proof. destruct o as [[v [e|]]|]; simpl; [|done..]. destruct (now <? e) eqn:E; [|done]. simpl. by rewrite E. Qed.

Lemma alive_later now now' o : now ≤ now' → alive now' (alive now o) = alive now' o.
Proof.
  intros H. destruct o as [[v [e|]]|]; simpl; [|done..].
  destruct (Z.ltb_spec now e); simpl; [done|].
  by rewrite (proj2 (Z.ltb_ge now' e)) by lia.
Qed.

Lemma mem_writes_insert (m : mem) now k v e :
  alive now (Some (v, e)) = Some (v, e) → writes now k (Some (v, e)) m (<[k := (v, e)]> m).
Proof.
  intros Ha k'. simpl. unfold mem_look. case_decide as Hk.
  - subst. by rewrite lookup_insert_eq.
  - by rewrite lookup_insert_ne.
Qed.

Lemma mem_writes_delete (m : mem) now k : writes now k None m (delete k m).
Proof.
  intros k'. simpl. unfold mem_look. case_decide as Hk.
  - subst. by rewrite lookup_delete_eq.
  - by rewrite lookup_delete_ne.
Qed.

#[global] Instance mem_redis_laws : RedisLaws mem.
Proof.
  assert (∀ (m : mem) now k o, look m now k = o → alive now o = o) as Ha.
  { intros m now k o <-. apply alive_idem. }
  split; simpl.
  - intros r now k. by eapply Ha.
  - intros r now now' k Hle. unfold mem_look. by rewrite alive_later.
  - done.
  - done.
  - intros r now k fvs h e H. simpl in Ha. pose proof (Ha r now k).
    destruct H as [H|(H & -> & ->)]; rewrite H; eexists; (split; [done|]); apply mem_writes_insert.
    + specialize (Ha _ _ _ _ H). simpl in *. destruct e as [e|]; [|done]. by destruct (now <? e).
    + done.
  - intros r now k fs h e H. rewrite H. eexists. split; [done|].
    case_bool_decide; [apply mem_writes_delete|apply mem_writes_insert].
    specialize (Ha _ _ _ _ H). simpl in *. destruct e as [e|]; [|done]. by destruct (now <? e).
  - intros r now k ms v e H. rewrite H. eexists. split; [done|].
    destruct (Z.ltb_spec 0 ms); [apply mem_writes_insert|apply mem_writes_delete].
    simpl. by rewrite (proj2 (Z.ltb_lt _ _)) by lia.
  - intros r now k s ms Hms. destruct (mem_look r now k) as [[v e]|] eqn:E.
    + eexists. split; [done|]. intros k'. simpl. case_decide; [by subst|done].
    + eexists. split; [done|]. apply mem_writes_insert. simpl.
      by rewrite (proj2 (Z.ltb_lt _ _)) by lia.
  - intros r now k. eexists. split; [done|]. apply mem_writes_delete.
  - done.
  - intros r. eexists. split; [done|]. intros now k. unfold mem_look. by rewrite lookup_empty.
Qed.
