(* ===== verification/LuaCache.v ===== *)
(** The four Lua scripts of [src/internal/cache/lua/], translated command by
    command over the [Redis] interface, and the abstract cell they implement
    (CONSISTENCY.md section 2): a register that only moves up. *)

From S2P Require Import Prelude GoStd Version Redis.

Local Open Scope Z_scope.

(** ** The scripts

    A nil reply is [None]; Lua's string comparison is bytewise. An [if] on a
    nil reply is the source's [if tv and ...]. *)
Section scripts.
  Context {R : Type} `{Redis R}.

Definition releaseLease (now : Z) (lease token : string) : M R unit :=
  if bool_decide (token = "") then mret tt
  else
    cur ← GET now lease;
    if bool_decide (cur = Some token) then DEL now lease else mret tt.

Definition fill_cas (now : Z) (key lease : string)
    (rv fv row negative : string) (ttl : Z) (fingerprint token : string) : M R Z :=
  cur ← HMGET now key ["v"; "f"; "t"];
  let '(crv, cfv, ctv) :=
    match cur with [a; b; c] => (a, b, c) | _ => (None, None, None) end in
  if match ctv with Some tv => str_ltb rv tv | None => false end then
    releaseLease now lease token;; mret 0
  else
    (* the checks inside [if rv then]; true means return 0 *)
    lost ← match crv with
           | None => mret false
           | Some v =>
               if str_ltb rv v then mret true
               else if bool_decide (rv = v) then
                 match cfv with
                 | Some f => mret (negb (str_ltb f fv))
                 | None => M_fail (Errorf "attempt to compare string with boolean")
                 end
               else mret false
           end;
    if (lost : bool) then releaseLease now lease token;; mret 0
    else
      HSET now key [("v", rv); ("f", fv); ("r", row); ("n", negative); ("h", fingerprint)];;
      PEXPIRE now key ttl;;
      releaseLease now lease token;;
      mret 1.

Definition tombstone_cas (now : Z) (key version : string) (ttl : Z) : M R Z :=
  cur ← HMGET now key ["v"; "t"];
  let '(crv, ctv) := match cur with [a; b] => (a, b) | _ => (None, None) end in
  if match crv with Some rv => negb (str_ltb rv version) | None => false end then mret 0
  else if match ctv with Some tv => negb (str_ltb tv version) | None => false end then mret 0
  else
    HSET now key [("t", version)];;
    HDEL now key ["v"; "f"; "r"; "n"; "h"];;
    PEXPIRE now key ttl;;
    mret 1.

(** [read.lua]: no fields on a miss, four on a hit. *)
Definition read_script (now : Z) (key fingerprint : string) : M R (list (option string)) :=
  e ← HMGET now key ["v"; "f"; "r"; "n"; "h"];
  match e with
  | [Some v; f; r; n; h] =>
      if bool_decide (h = Some fingerprint) then mret [Some v; f; r; n] else mret []
  | _ => mret []
  end.

Inductive lease_reply :=
  | ReplyHit (fields : list (option string))
  | ReplyGranted
  | ReplyWait.

Definition read_lease (now : Z) (key lease token : string) (leaseTTL : Z) (fingerprint : string) :
    M R lease_reply :=
  e ← HMGET now key ["v"; "f"; "r"; "n"; "h"];
  match e with
  | [v; f; r; n; h] =>
      if bool_decide (v ≠ None) && bool_decide (h = Some fingerprint) then
        mret (ReplyHit [v; f; r; n])
      else
        won ← SET_NX_PX now lease token leaseTTL;
        mret (if (won : bool) then ReplyGranted else ReplyWait)
  | _ => mret ReplyWait
  end.

End scripts.

(** ** The abstract cell

    What one key promises, on integers: an optional invalidation mark and an
    optional value with its row and fill versions. *)

Record stored := mkStored {
  st_rv : Z; st_fv : Z; st_row : string; st_neg : bool; st_fp : string;
}.

Record cell := mkCell { c_tomb : option Z; c_val : option stored }.

Definition cell_empty : cell := mkCell None None.

Definition fill_wins (e : stored) (c : cell) : bool :=
  match c_tomb c with Some t => t <=? st_rv e | None => true end &&
  match c_val c with
  | Some s => (st_rv s <? st_rv e) || (st_rv s =? st_rv e) && (st_fv s <? st_fv e)
  | None => true
  end.

Definition cell_fill (e : stored) (c : cell) : cell :=
  if fill_wins e c then mkCell (c_tomb c) (Some e) else c.

Definition tombstone_wins (v : Z) (c : cell) : bool :=
  match c_val c with Some s => st_rv s <? v | None => true end &&
  match c_tomb c with Some t => t <? v | None => true end.

Definition cell_tombstone (v : Z) (c : cell) : cell :=
  if tombstone_wins v c then mkCell (Some v) None else c.

(** What a reader of the given shape is served. *)
Definition cell_read (fp : string) (c : cell) : option stored :=
  match c_val c with
  | Some s => if bool_decide (st_fp s = fp) then Some s else None
  | None => None
  end.

(** The invariant of a cell: versions are machine words, and a mark next to a
    value is not above it. *)
Definition stored_wf (s : stored) : Prop := is_u64 (st_rv s) ∧ is_u64 (st_fv s).

Definition cell_wf (c : cell) : Prop :=
  (∀ t, c_tomb c = Some t → is_u64 t ∧ ∀ s, c_val c = Some s → t ≤ st_rv s) ∧
  (∀ s, c_val c = Some s → stored_wf s).

(** The hash that represents a cell. *)
Definition neg_flag (b : bool) : string := if b then "1" else "0".

Definition stored_fields (s : stored) : list (string * string) :=
  [("v", encodeVersion (st_rv s)); ("f", encodeVersion (st_fv s)); ("r", st_row s);
   ("n", neg_flag (st_neg s)); ("h", st_fp s)].

Definition hash_of (c : cell) : gmap string string :=
  hset (match c_val c with Some s => stored_fields s | None => [] end)
    (match c_tomb c with Some t => {["t" := encodeVersion t]} | None => ∅ end).

Section refinement.
  Context {R : Type} `{RedisLaws R}.

(** Key [k] holds the cell [c] at time [now], until [e]. *)
Definition holds (r : R) (now : Z) (k : string) (c : cell) (e : option Z) : Prop :=
  cell_wf c ∧
  look r now k = (if bool_decide (hash_of c = ∅) then None else Some (RHash (hash_of c), e)) ∧
  (hash_of c = ∅ → e = None).

(** Key [k] is a lease: free, or held by a token until an instant. *)
Definition lease_holds (r : R) (now : Z) (k : string) (l : option (string * Z)) : Prop :=
  look r now k = match l with None => None | Some (t, e) => Some (RStr t, Some e) end.

(** *** Commands on a cell *)

Lemma hash_of_lookup c :
  hash_of c !! "v" = encodeVersion ∘ st_rv <$> c_val c ∧
  hash_of c !! "f" = encodeVersion ∘ st_fv <$> c_val c ∧
  hash_of c !! "r" = st_row <$> c_val c ∧
  hash_of c !! "n" = neg_flag ∘ st_neg <$> c_val c ∧
  hash_of c !! "h" = st_fp <$> c_val c ∧
  hash_of c !! "t" = encodeVersion <$> c_tomb c.
Proof.
  unfold hash_of, hset, stored_fields. destruct c as [[t|] [s|]]; simpl;
    split_and!; by simplify_map_eq.
Qed.

Lemma HMGET_cell r now k c e fs :
  holds r now k c e → HMGET now k fs r = (Ok ((λ f, hash_of c !! f) <$> fs), r).
Proof.
  intros (_ & Hl & _). rewrite HMGET_law, Hl. case_bool_decide as Hc; [|done].
  by rewrite Hc.
Qed.

Lemma hash_fill c s : hset (stored_fields s) (hash_of c) = hash_of (mkCell (c_tomb c) (Some s)).
Proof.
  unfold hash_of, hset, stored_fields. destruct c as [t [s'|]]; simpl; [|done].
  apply map_eq. intros i.
  destruct (decide (i = "v")) as [->|?]; [by simplify_map_eq|].
  destruct (decide (i = "f")) as [->|?]; [by simplify_map_eq|].
  destruct (decide (i = "r")) as [->|?]; [by simplify_map_eq|].
  destruct (decide (i = "n")) as [->|?]; [by simplify_map_eq|].
  destruct (decide (i = "h")) as [->|?]; by simplify_map_eq.
Qed.

Lemma hash_tombstone c v :
  hdel ["v"; "f"; "r"; "n"; "h"] (hset [("t", encodeVersion v)] (hash_of c)) =
  hash_of (mkCell (Some v) None).
Proof.
  unfold hash_of, hset, hdel, stored_fields. destruct c as [t [s'|]]; simpl;
    apply map_eq; intros i;
    (destruct (decide (i = "h")) as [->|?]; [by simplify_map_eq|]);
    (destruct (decide (i = "n")) as [->|?]; [by simplify_map_eq|]);
    (destruct (decide (i = "r")) as [->|?]; [by simplify_map_eq|]);
    (destruct (decide (i = "f")) as [->|?]; [by simplify_map_eq|]);
    (destruct (decide (i = "v")) as [->|?]; [by simplify_map_eq|]);
    (destruct (decide (i = "t")) as [->|?]; [by simplify_map_eq|]);
    destruct t; by simplify_map_eq.
Qed.

Lemma hash_of_val_ne c s : c_val c = Some s → hash_of c ≠ ∅.
Proof.
  intros Hs He. destruct (hash_of_lookup c) as (Hv & _). rewrite He, lookup_empty, Hs in Hv. done.
Qed.

Lemma hash_of_tomb_ne c t : c_tomb c = Some t → hash_of c ≠ ∅.
Proof.
  intros Hs He. destruct (hash_of_lookup c) as (_ & _ & _ & _ & _ & Ht).
  rewrite He, lookup_empty, Hs in Ht. done.
Qed.

(** *** The lease *)

Definition lease_release (token : string) (l : option (string * Z)) : option (string * Z) :=
  match l with
  | Some (t, e) => if bool_decide (token ≠ "" ∧ t = token) then None else l
  | None => None
  end.

Lemma releaseLease_refines r now kl token l :
  lease_holds r now kl l →
  ∃ r', releaseLease now kl token r = (Ok tt, r') ∧
    lease_holds r' now kl (lease_release token l) ∧ ∀ k, k ≠ kl → look r' now k = look r now k.
Proof.
  intros Hl. unfold releaseLease, lease_release, lease_holds in *.
  case_bool_decide as Ht.
  - exists r. split; [done|]. split; [|done]. rewrite Hl. destruct l as [[t e]|]; [|done].
    rewrite bool_decide_eq_false_2 by naive_solver. done.
  - rewrite (M_bind_run _ _ r (match l with Some (t, _) => Some t | None => None end) r).
    2: { rewrite GET_law, Hl. by destruct l as [[t e]|]. }
    destruct l as [[t e]|]; [destruct (decide (t = token)) as [->|Hne]|].
    + rewrite !bool_decide_eq_true_2 by done.
      destruct (DEL_law r now kl) as (r' & -> & Hw). exists r'.
      split_and!; [done|by rewrite Hw, decide_True|]. intros k Hk. by rewrite Hw, decide_False.
    + rewrite !bool_decide_eq_false_2 by naive_solver. by exists r.
    + rewrite bool_decide_eq_false_2 by done. by exists r.
Qed.

(** *** The compare-and-set of a fill *)

Lemma cell_fill_wf s c : cell_wf c → stored_wf s → cell_wf (cell_fill s c).
Proof.
  intros [Ht Hs] Hw. unfold cell_fill. destruct (fill_wins s c) eqn:E; [|done].
  unfold fill_wins in E. split; simpl; [|by intros ? [= <-]].
  intros t Hc. rewrite Hc in E. destruct (Ht t Hc) as [? _]. split; [done|].
  intros ? [= <-]. zify_bool. lia.
Qed.

Lemma cell_tombstone_wf v c : cell_wf c → is_u64 v → cell_wf (cell_tombstone v c).
Proof.
  intros [Ht Hs] Hw. unfold cell_tombstone. destruct (tombstone_wins v c) eqn:E; [|done].
  split; simpl; [|done]. by intros ? [= <-].
Qed.

(** The tests the script makes on strings, in the order it makes them. *)
Definition fill_lost (rv fv : string) (h : gmap string string) : bool :=
  match h !! "t" with Some tv => str_ltb rv tv | None => false end ||
  match h !! "v" with
  | Some v => str_ltb rv v || bool_decide (rv = v) &&
      match h !! "f" with Some f => negb (str_ltb f fv) | None => false end
  | None => false
  end.

Lemma fill_lost_wins s c :
  cell_wf c → stored_wf s →
  fill_lost (encodeVersion (st_rv s)) (encodeVersion (st_fv s)) (hash_of c) = negb (fill_wins s c).
Proof.
  intros [Ht Hs] [Hrv Hfv]. unfold fill_lost, fill_wins.
  destruct (hash_of_lookup c) as (-> & -> & _ & _ & _ & ->).
  destruct (c_tomb c) as [t|]; simpl; [destruct (Ht t eq_refl) as [Htu _]; rewrite encodeVersion_lt by done|];
  (destruct (c_val c) as [s'|]; simpl;
    [destruct (Hs s' eq_refl) as [Hr' Hf']; rewrite !encodeVersion_lt by done;
     rewrite (bool_decide_ext _ (st_rv s = st_rv s'))
       by (split; [by apply encodeVersion_inj|by intros ->])|]);
  apply eq_true_iff_eq; repeat case_bool_decide; lia.
Qed.

Lemma fill_cas_run r now k kl rv fv row neg ttl fp token c e :
  holds r now k c e →
  fill_cas now k kl rv fv row neg ttl fp token r =
    if fill_lost rv fv (hash_of c) then (releaseLease now kl token;; mret 0) r
    else (HSET now k [("v", rv); ("f", fv); ("r", row); ("n", neg); ("h", fp)];;
          PEXPIRE now k ttl;; releaseLease now kl token;; mret 1) r.
Proof.
  intros Hh. unfold fill_cas, fill_lost.
  rewrite (M_bind_run _ _ _ _ _ (HMGET_cell _ _ _ _ _ _ Hh)). cbn [fmap list_fmap].
  destruct (hash_of_lookup c) as (Hv & Hf & _ & _ & _ & Ht).
  destruct (hash_of c !! "t") as [tv|]; [destruct (str_ltb rv tv); [done|]|]; simpl orb; cbv iota.
  all: destruct (hash_of c !! "v") as [v|] eqn:Ev; [|done].
  all: destruct (c_val c) as [s'|]; [|done].
  all: simpl in Hf; rewrite Hf.
  all: destruct (str_ltb rv v); [done|]; case_bool_decide; [|done]; simpl; by destruct (negb _).
Qed.

Lemma write_cell r now k c e fvs c' ttl :
  holds r now k c e → 0 < ttl → cell_wf c' → hash_of c' ≠ ∅ → hset fvs (hash_of c) = hash_of c' →
  ∃ r1 r2, HSET now k fvs r = (Ok tt, r1) ∧ PEXPIRE now k ttl r1 = (Ok tt, r2) ∧
    holds r2 now k c' (Some (now + ttl)) ∧ ∀ k', k' ≠ k → look r2 now k' = look r now k'.
Proof.
  intros (_ & Hl & He) Httl Hwf Hne Hh.
  destruct (HSET_law r now k fvs (hash_of c) e) as (r1 & H1 & W1).
  { rewrite Hl. case_bool_decide as Hb; [right|by left]. auto. }
  rewrite Hh in W1.
  destruct (PEXPIRE_law r1 now k ttl (RHash (hash_of c')) e) as (r2 & H2 & W2).
  { by rewrite W1, decide_True. }
  rewrite (proj2 (Z.ltb_lt _ _)) in W2 by done.
  exists r1, r2. split_and!; [done|done| |].
  - split; [done|]. rewrite W2, decide_True by done. by rewrite bool_decide_eq_false_2.
  - intros k' Hk. by rewrite W2, decide_False, W1, decide_False.
Qed.

Lemma fill_cas_refines r now k kl s c e l ttl token :
  holds r now k c e → lease_holds r now kl l → k ≠ kl → stored_wf s → 0 < ttl →
  ∃ r', fill_cas now k kl (encodeVersion (st_rv s)) (encodeVersion (st_fv s)) (st_row s)
          (neg_flag (st_neg s)) ttl (st_fp s) token r =
        (Ok (if fill_wins s c then 1 else 0), r') ∧
    holds r' now k (cell_fill s c) (if fill_wins s c then Some (now + ttl) else e) ∧
    lease_holds r' now kl (lease_release token l) ∧
    ∀ k', k' ≠ k → k' ≠ kl → look r' now k' = look r now k'.
Proof.
  intros Hh Hl Hk Hs Httl. pose proof (proj1 Hh) as Hwf.
  rewrite (fill_cas_run _ _ _ _ _ _ _ _ _ _ _ _ _ Hh), fill_lost_wins by done.
  unfold cell_fill. destruct (fill_wins s c) eqn:Ew; simpl.
  - destruct (write_cell r now k c e (stored_fields s) (mkCell (c_tomb c) (Some s)) ttl Hh Httl)
      as (r1 & r2 & H1 & H2 & Hh2 & Hoth).
    { pose proof (cell_fill_wf s c Hwf Hs) as Hw. unfold cell_fill in Hw. by rewrite Ew in Hw. }
    { by eapply hash_of_val_ne. }
    { apply hash_fill. }
    destruct (releaseLease_refines r2 now kl token l) as (r3 & H3 & Hl3 & Hoth3).
    { unfold lease_holds. by rewrite Hoth. }
    exists r3. fold (stored_fields s).
    rewrite (M_bind_run _ _ _ _ _ H1), (M_bind_run _ _ _ _ _ H2), (M_bind_run _ _ _ _ _ H3).
    split_and!; [done| |done|intros; by rewrite Hoth3, Hoth].
    destruct Hh2 as (? & Hl2 & ?). split_and!; [done| |done]. by rewrite Hoth3.
  - destruct (releaseLease_refines r now kl token l Hl) as (r3 & H3 & Hl3 & Hoth3).
    exists r3. rewrite (M_bind_run _ _ _ _ _ H3).
    split_and!; [done| |done|intros; by rewrite Hoth3].
    destruct Hh as (? & Hl2 & ?). split_and!; [done| |done]. by rewrite Hoth3.
Qed.

(** *** The compare-and-set of an invalidation *)

Lemma tombstone_cas_refines r now k v c e ttl :
  holds r now k c e → is_u64 v → 0 < ttl →
  ∃ r', tombstone_cas now k (encodeVersion v) ttl r = (Ok (if tombstone_wins v c then 1 else 0), r') ∧
    holds r' now k (cell_tombstone v c) (if tombstone_wins v c then Some (now + ttl) else e) ∧
    ∀ k', k' ≠ k → look r' now k' = look r now k'.
Proof.
  intros Hh Hv Httl. pose proof (cell_tombstone_wf v c (proj1 Hh) Hv) as Hwf'.
  pose proof Hh as ((Ht & Hs) & Hl & He). unfold tombstone_cas.
  rewrite (M_bind_run _ _ _ _ _ (HMGET_cell _ _ _ _ _ _ Hh)). cbn [fmap list_fmap].
  destruct (hash_of_lookup c) as (Hcv & _ & _ & _ & _ & Hct). rewrite Hcv, Hct.
  assert (match encodeVersion ∘ st_rv <$> c_val c with
          | Some rv => negb (str_ltb rv (encodeVersion v)) | None => false end =
          negb match c_val c with Some s => st_rv s <? v | None => true end) as ->.
  { destruct (c_val c) as [s|]; [|done]. simpl. destruct (Hs s eq_refl) as [? _].
    by rewrite encodeVersion_lt. }
  assert (match encodeVersion <$> c_tomb c with
          | Some tv => negb (str_ltb tv (encodeVersion v)) | None => false end =
          negb match c_tomb c with Some t => t <? v | None => true end) as ->.
  { destruct (c_tomb c) as [t|]; [|done]. simpl. destruct (Ht t eq_refl) as [? _].
    by rewrite encodeVersion_lt. }
  unfold cell_tombstone, tombstone_wins in *.
  destruct (match c_val c with Some _ => _ | None => _ end); simpl in *; [|by exists r].
  destruct (match c_tomb c with Some _ => _ | None => _ end); simpl in *; [|by exists r].
  destruct (HSET_law r now k [("t", encodeVersion v)] (hash_of c) e) as (r1 & H1 & W1).
  { rewrite Hl. case_bool_decide as Hb; [right|by left]. auto. }
  destruct (HDEL_law r1 now k ["v"; "f"; "r"; "n"; "h"]
              (hset [("t", encodeVersion v)] (hash_of c)) e) as (r2 & H2 & W2).
  { by rewrite W1, decide_True. }
  rewrite hash_tombstone in W2.
  assert (hash_of (mkCell (Some v) None) ≠ ∅) as Hne by by eapply hash_of_tomb_ne.
  rewrite bool_decide_eq_false_2 in W2 by done.
  destruct (PEXPIRE_law r2 now k ttl (RHash (hash_of (mkCell (Some v) None))) e) as (r3 & H3 & W3).
  { by rewrite W2, decide_True. }
  rewrite (proj2 (Z.ltb_lt _ _)) in W3 by done.
  rewrite (M_bind_run _ _ _ _ _ H1), (M_bind_run _ _ _ _ _ H2), (M_bind_run _ _ _ _ _ H3).
  exists r3. split; [done|]. split; [split; [done|split]|].
  - rewrite W3, decide_True by done. by rewrite bool_decide_eq_false_2.
  - done.
  - intros k' Hk. by rewrite W3, decide_False, W2, decide_False, W1, decide_False.
Qed.

(** *** The reads *)

Definition fields_of (s : stored) : list (option string) :=
  [Some (encodeVersion (st_rv s)); Some (encodeVersion (st_fv s)); Some (st_row s);
   Some (neg_flag (st_neg s))].

Lemma read_refines r now k fp c e :
  holds r now k c e →
  read_script now k fp r =
    (Ok (match cell_read fp c with Some s => fields_of s | None => [] end), r).
Proof.
  intros Hh. unfold read_script, cell_read.
  rewrite (M_bind_run _ _ _ _ _ (HMGET_cell _ _ _ _ _ _ Hh)). cbn [fmap list_fmap].
  destruct (hash_of_lookup c) as (-> & -> & -> & -> & -> & _).
  destruct (c_val c) as [s|]; [|done]. simpl.
  rewrite (bool_decide_ext (Some (st_fp s) = Some fp) (st_fp s = fp)) by naive_solver.
  by case_bool_decide.
Qed.

Lemma read_lease_refines r now k kl token leaseTTL fp c e l :
  holds r now k c e → lease_holds r now kl l → k ≠ kl → 0 < leaseTTL →
  ∃ r', read_lease now k kl token leaseTTL fp r =
      (Ok (match cell_read fp c, l with
           | Some s, _ => ReplyHit (fields_of s)
           | None, None => ReplyGranted
           | None, Some _ => ReplyWait
           end), r') ∧
    holds r' now k c e ∧
    lease_holds r' now kl
      (match cell_read fp c, l with
       | None, None => Some (token, now + leaseTTL)
       | _, _ => l
       end) ∧
    ∀ k', k' ≠ k → k' ≠ kl → look r' now k' = look r now k'.
Proof.
  intros Hh Hl Hk Httl. unfold read_lease.
  rewrite (M_bind_run _ _ _ _ _ (HMGET_cell _ _ _ _ _ _ Hh)). cbn [fmap list_fmap].
  assert (bool_decide (hash_of c !! "v" ≠ None) && bool_decide (hash_of c !! "h" = Some fp) =
          bool_decide (cell_read fp c ≠ None)) as Hb.
  { destruct (hash_of_lookup c) as (-> & _ & _ & _ & -> & _). unfold cell_read.
    destruct (c_val c) as [s|]; [|done]. simpl.
    rewrite (bool_decide_ext (Some (st_fp s) = Some fp) (st_fp s = fp)) by naive_solver.
    by case_bool_decide. }
  rewrite Hb. clear Hb. destruct (cell_read fp c) as [s|] eqn:Ec; simpl.
  - exists r. split_and!; try done. unfold cell_read in Ec.
    destruct (hash_of_lookup c) as (-> & -> & -> & -> & _ & _).
    destruct (c_val c) as [s'|]; [|done]. case_bool_decide; [|done]. by injection Ec as ->.
  - destruct (SET_NX_PX_law r now kl token leaseTTL Httl) as (r' & H1 & W1).
    rewrite (M_bind_run _ _ _ _ _ H1). exists r'. unfold lease_holds in *. rewrite Hl in *.
    assert (∀ k', k' ≠ kl → look r' now k' = look r now k') as Hoth.
    { intros k' ?. by rewrite W1, decide_False. }
    split; [|split_and!].
    + by destruct l as [[t e']|].
    + destruct Hh as (? & Hl2 & ?). split_and!; [done| |done]. by rewrite Hoth.
    + rewrite W1, decide_True by done. by destruct l as [[t e']|].
    + intros. by apply Hoth.
Qed.

(** *** Time *)

Definition cell_age (now : Z) (c : cell) (e : option Z) : cell :=
  match e with Some e => if now <? e then c else cell_empty | None => c end.

Definition exp_age (now : Z) (e : option Z) : option Z :=
  match e with Some e' => if now <? e' then e else None | None => None end.

Definition lease_age (now : Z) (l : option (string * Z)) : option (string * Z) :=
  match l with Some (_, e) => if now <? e then l else None | None => None end.

Lemma hash_of_empty : hash_of cell_empty = ∅.
Proof. done. Qed.

Lemma cell_empty_wf : cell_wf cell_empty.
Proof. by split. Qed.

Lemma holds_later r now now' k c e :
  holds r now k c e → now ≤ now' → holds r now' k (cell_age now' c e) (exp_age now' e).
Proof.
  intros (Hwf & Hl & He) Hn.
  pose proof (look_later r now now' k Hn) as Hl'. rewrite Hl in Hl'.
  destruct e as [e|]; simpl in *.
  - destruct (bool_decide (hash_of c = ∅)) eqn:Eb.
    + apply bool_decide_eq_true in Eb. by specialize (He Eb).
    + simpl in Hl'. destruct (now' <? e).
      * split_and!; [done| |by intros ?%He]. by rewrite Eb.
      * split; [apply cell_empty_wf|]. by rewrite bool_decide_eq_true_2.
  - split_and!; [done| |done]. rewrite Hl'. by case_bool_decide.
Qed.

Lemma lease_holds_later r now now' k l :
  lease_holds r now k l → now ≤ now' → lease_holds r now' k (lease_age now' l).
Proof.
  unfold lease_holds. intros Hl Hn. rewrite (look_later r now now' k Hn), Hl.
  destruct l as [[t e]|]; [|done]. simpl. by destruct (now' <? e).
Qed.

End refinement.

(** ** Runs of scripts on one key

    Engines, tailers and retries interleave; since a script is atomic, what
    happens to a key is a sequence of script executions at non-decreasing server
    times. *)

Inductive lua_call :=
  | CFill (s : stored) (token : string)
  | CTomb (v : Z)
  | CRead (fp : string)
  | CLease (token fp : string).

Inductive lua_reply :=
  | RInt (n : Z)
  | RFields (l : list (option string))
  | RLease (l : lease_reply).

Definition call_wf (c : lua_call) : Prop :=
  match c with CFill s _ => stored_wf s | CTomb v => is_u64 v | _ => True end.

Fixpoint times_from (t : Z) (calls : list (Z * lua_call)) : Prop :=
  match calls with [] => True | (t1, _) :: calls => t ≤ t1 ∧ times_from t1 calls end.

(** The abstract state of a key: its cell and expiry, and its lease. *)
Record kstate := mkK { k_cell : cell; k_exp : option Z; k_lease : option (string * Z) }.

Definition k_fresh : kstate := mkK cell_empty None None.

Definition k_age (now : Z) (a : kstate) : kstate :=
  mkK (cell_age now (k_cell a) (k_exp a)) (exp_age now (k_exp a)) (lease_age now (k_lease a)).

Section runs.
  Context {R : Type} `{RedisLaws R}.
  Context (k kl : string) (ttl leaseTTL : Z).
  Hypothesis Hk : k ≠ kl.
  Hypothesis Httl : 0 < ttl.
  Hypothesis Hlttl : 0 < leaseTTL.

Definition lua_exec (now : Z) (c : lua_call) : M R lua_reply :=
  match c with
  | CFill s token =>
      n ← fill_cas now k kl (encodeVersion (st_rv s)) (encodeVersion (st_fv s)) (st_row s)
            (neg_flag (st_neg s)) ttl (st_fp s) token;
      mret (RInt n)
  | CTomb v => n ← tombstone_cas now k (encodeVersion v) ttl; mret (RInt n)
  | CRead fp => l ← read_script now k fp; mret (RFields l)
  | CLease token fp => l ← read_lease now k kl token leaseTTL fp; mret (RLease l)
  end.

Fixpoint lua_run (calls : list (Z * lua_call)) : M R (list lua_reply) :=
  match calls with
  | [] => mret []
  | (now, c) :: calls => x ← lua_exec now c; xs ← lua_run calls; mret (x :: xs)
  end.

(** The same calls on the abstract state. *)
Definition k_exec (now : Z) (call : lua_call) (a0 : kstate) : lua_reply * kstate :=
  let '(mkK c e l) := k_age now a0 in
  match call with
  | CFill s token =>
      (RInt (if fill_wins s c then 1 else 0),
       mkK (cell_fill s c) (if fill_wins s c then Some (now + ttl) else e) (lease_release token l))
  | CTomb v =>
      (RInt (if tombstone_wins v c then 1 else 0),
       mkK (cell_tombstone v c) (if tombstone_wins v c then Some (now + ttl) else e) l)
  | CRead fp =>
      (RFields (match cell_read fp c with Some s => fields_of s | None => [] end), mkK c e l)
  | CLease token fp =>
      match cell_read fp c, l with
      | Some s, _ => (RLease (ReplyHit (fields_of s)), mkK c e l)
      | None, Some _ => (RLease ReplyWait, mkK c e l)
      | None, None => (RLease ReplyGranted, mkK c e (Some (token, now + leaseTTL)))
      end
  end.

Fixpoint k_run (calls : list (Z * lua_call)) (a : kstate) : list lua_reply * kstate :=
  match calls with
  | [] => ([], a)
  | (now, c) :: calls =>
      let '(x, a) := k_exec now c a in
      let '(xs, a) := k_run calls a in
      (x :: xs, a)
  end.

Definition sim (r : R) (now : Z) (a : kstate) : Prop :=
  holds r now k (k_cell a) (k_exp a) ∧ lease_holds r now kl (k_lease a).

Lemma sim_later r now now' a : sim r now a → now ≤ now' → sim r now' (k_age now' a).
Proof. intros [Hh Hl] Hn. split; [by eapply holds_later|by eapply lease_holds_later]. Qed.

Lemma sim_fresh r now : look r now k = None → look r now kl = None → sim r now k_fresh.
Proof.
  intros H1 H2. split; [|done]. split_and!; [apply cell_empty_wf| |done].
  by rewrite bool_decide_eq_true_2.
Qed.

Lemma lua_exec_refines r t now call a :
  sim r t a → t ≤ now → call_wf call →
  ∃ r', lua_exec now call r = (Ok (k_exec now call a).1, r') ∧ sim r' now (k_exec now call a).2.
Proof.
  intros Hs Ht Hc. apply (sim_later _ _ now) in Hs; [|done]. unfold k_exec.
  destruct (k_age now a) as [c e l]. destruct Hs as [Hh Hl]. simpl in Hh, Hl.
  destruct call as [s token|v|fp|token fp]; simpl in *.
  - destruct (fill_cas_refines r now k kl s c e l ttl token Hh Hl Hk Hc Httl) as (r' & H1 & H2 & H3 & _).
    rewrite (M_bind_run _ _ _ _ _ H1). exists r'. by split.
  - destruct (tombstone_cas_refines r now k v c e ttl Hh Hc Httl) as (r' & H1 & H2 & H3).
    rewrite (M_bind_run _ _ _ _ _ H1). exists r'. split; [done|]. split; [done|].
    unfold lease_holds in *. simpl. by rewrite H3.
  - rewrite (M_bind_run _ _ _ _ _ (read_refines _ _ _ _ _ _ Hh)). exists r. by split.
  - destruct (read_lease_refines r now k kl token leaseTTL fp c e l Hh Hl Hk Hlttl)
      as (r' & H1 & H2 & H3 & _).
    rewrite (M_bind_run _ _ _ _ _ H1). exists r'.
    destruct (cell_read fp c) as [s|], l as [[t0 e0]|]; by split.
Qed.

Lemma lua_run_sim calls r t a :
  sim r t a → times_from t calls → Forall (λ tc, call_wf tc.2) calls →
  ∃ r', lua_run calls r = (Ok (k_run calls a).1, r') ∧
    sim r' (default t (fst <$> last calls)) (k_run calls a).2.
Proof.
  revert r t a. induction calls as [|[now c] calls IH]; intros r t a Hs Ht Hc; cbn [lua_run k_run].
  - by exists r.
  - destruct Ht as [Hle Ht]. apply Forall_cons in Hc as [Hc Hcs]. simpl in Hc.
    destruct (lua_exec_refines r t now c a Hs Hle Hc) as (r1 & H1 & Hs1).
    destruct (k_exec now c a) as [x a1]. destruct (IH r1 now a1 Hs1 Ht Hcs) as (r2 & H2 & Hs2).
    destruct (k_run calls a1) as [xs a2]. simpl in *.
    rewrite (M_bind_run _ _ _ _ _ H1), (M_bind_run _ _ _ _ _ H2).
    exists r2. split; [done|]. rewrite last_cons. by destruct (last calls).
Qed.

(** *** The lease admits one filler *)

Lemma k_exec_lease now call a l E :
  k_lease a = Some (l, E) → now < E →
  (∀ s, call ≠ CFill s l) →
  k_lease (k_exec now call a).2 = Some (l, E) ∧ (k_exec now call a).1 ≠ RLease ReplyGranted.
Proof.
  intros Hl Hn Hc. unfold k_exec, k_age. rewrite Hl. simpl. rewrite (proj2 (Z.ltb_lt _ _)) by done.
  destruct call as [s token|v|fp|token fp]; simpl; [|done..|by destruct (cell_read _ _)].
  unfold lease_release. rewrite bool_decide_eq_false_2; [done|].
  intros [_ ->]. by apply (Hc s).
Qed.

Lemma k_run_lease calls t a l E j tj cj :
  times_from t calls → k_lease a = Some (l, E) →
  calls !! j = Some (tj, cj) → (k_run calls a).1 !! j = Some (RLease ReplyGranted) →
  E ≤ tj ∨ ∃ m tm s, (m < j)%nat ∧ calls !! m = Some (tm, CFill s l).
Proof.
  revert t a j. induction calls as [|[now c] calls IH]; intros t a j Ht Hl Hj Hr; [done|].
  destruct Ht as [Hle Ht]. cbn [k_run] in Hr.
  destruct (Z.le_gt_cases E now) as [HE|HE].
  - left. assert (now ≤ tj); [|lia]. clear -Ht Hj. destruct j as [|j]; simpl in Hj.
    + injection Hj as -> _. lia.
    + revert now j Ht Hj. induction calls as [|[n1 c1] calls IH]; intros now j Ht Hj; [done|].
      destruct Ht as [Hle Ht]. destruct j as [|j]; simpl in Hj.
      * injection Hj as -> _. lia.
      * specialize (IH n1 j Ht Hj). lia.
  - assert ((∃ s, c = CFill s l) ∨ ∀ s, c ≠ CFill s l) as [[s ->]|Hc].
    { destruct c as [s tk|v|fp|tk fp]; [|by right..].
      destruct (decide (tk = l)) as [->|]; [left; by eexists|right; congruence]. }
    + destruct j as [|j].
      * simpl in Hr. unfold k_exec in Hr. destruct (k_age now a), (k_run calls _). done.
      * right. exists 0%nat, now, s. split; [lia|done].
    + destruct (k_exec_lease now c a l E Hl HE Hc) as [Hl1 Hng].
      destruct (k_exec now c a) as [x a1]. simpl in Hl1, Hng.
      destruct (k_run calls a1) as [xs a2] eqn:Er.
      destruct j as [|j]; [simpl in Hr; congruence|].
      destruct (IH now a1 j Ht Hl1 Hj) as [|(m & tm & s & Hm & Hs)]; [by rewrite Er|by left|].
      right. exists (S m), tm, s. split; [lia|done].
Qed.

Lemma k_run_grants calls t a i j ti ci tj cj tok fp :
  times_from t calls → (i < j)%nat →
  calls !! i = Some (ti, ci) → ci = CLease tok fp → (k_run calls a).1 !! i = Some (RLease ReplyGranted) →
  calls !! j = Some (tj, cj) → (k_run calls a).1 !! j = Some (RLease ReplyGranted) →
  ti + leaseTTL ≤ tj ∨ ∃ m tm s, (i < m < j)%nat ∧ calls !! m = Some (tm, CFill s tok).
Proof.
  intros Ht Hij Hi Hci Hri Hj Hrj. revert t a i j Ht Hij Hi Hri Hj Hrj.
  induction calls as [|[now c] calls IH]; intros t a i j Ht Hij Hi Hri Hj Hrj; [done|].
  destruct Ht as [Hle Ht]. cbn [k_run] in Hri, Hrj.
  destruct (k_exec now c a) as [x a1] eqn:Ex. destruct (k_run calls a1) as [xs a2] eqn:Er.
  destruct j as [|j]; [lia|]. destruct i as [|i]; simpl in *.
  - injection Hi as -> ->. injection Hri as ->. subst ci.
    assert (k_lease a1 = Some (tok, ti + leaseTTL)) as Hl.
    { unfold k_exec in Ex. destruct (k_age ti a) as [c e l]. destruct (cell_read fp c), l; by simplify_eq. }
    destruct (k_run_lease calls ti a1 tok _ j tj cj Ht Hl Hj) as [|(m & tm & s & Hm & Hs)];
      [by rewrite Er|by left|]. right. exists (S m), tm, s. split; [lia|done].
  - destruct (IH now a1 i j Ht) as [|(m & tm & s & Hm & Hs)]; [lia|done|by rewrite Er|done|by rewrite Er|by left|].
    right. exists (S m), tm, s. split; [lia|done].
Qed.

End runs.

(** ** Convergence

    Without expiry a cell is a register that keeps the greatest write: by
    version first, then a fill over an invalidation of the same version, then
    by fill version. [rank] writes that order as one integer. *)

Definition fill_rank (s : stored) : Z := st_rv s * 2 ^ 65 + 1 + st_fv s.

Definition call_rank (c : lua_call) : option Z :=
  match c with
  | CFill s _ => Some (fill_rank s)
  | CTomb v => Some (v * 2 ^ 65)
  | _ => None
  end.

Definition cell_rank (c : cell) : Z :=
  match c_val c, c_tomb c with
  | Some s, _ => fill_rank s
  | None, Some t => t * 2 ^ 65
  | None, None => -1
  end.

(** [c] holds the greatest of the writes among [calls], whatever their order:
    no write outranks it, and what it holds was written. *)
Definition cell_latest (calls : list lua_call) (c : cell) : Prop :=
  (∀ call x, call ∈ calls → call_rank call = Some x → x ≤ cell_rank c) ∧
  match c_val c, c_tomb c with
  | Some s, _ => ∃ token, CFill s token ∈ calls
  | None, Some t => CTomb t ∈ calls
  | None, None => True
  end.

Definition cell_step (call : lua_call) (c : cell) : cell :=
  match call with
  | CFill s _ => cell_fill s c
  | CTomb v => cell_tombstone v c
  | _ => c
  end.

Lemma cell_step_wf call c : cell_wf c → call_wf call → cell_wf (cell_step call c).
Proof. destruct call; simpl; auto using cell_fill_wf, cell_tombstone_wf. Qed.

Lemma fill_wins_rank s c :
  cell_wf c → stored_wf s → fill_wins s c = (cell_rank c <? fill_rank s).
Proof.
  intros [Ht Hs] [? ?]. unfold fill_wins, cell_rank, fill_rank, is_u64 in *.
  destruct c as [[t|] [s'|]]; simpl in *.
  - destruct (Ht _ eq_refl) as [? Hts]. specialize (Hts _ eq_refl).
    destruct (Hs _ eq_refl) as [[??] [??]]. lia.
  - destruct (Ht _ eq_refl) as [[??] _]. lia.
  - destruct (Hs _ eq_refl) as [[??] [??]]. lia.
  - lia.
Qed.

Lemma tombstone_wins_rank v c :
  cell_wf c → is_u64 v → tombstone_wins v c = (cell_rank c <? v * 2 ^ 65).
Proof.
  intros [Ht Hs] ?. unfold tombstone_wins, cell_rank, fill_rank, is_u64 in *.
  destruct c as [[t|] [s'|]]; simpl in *.
  - destruct (Ht _ eq_refl) as [? Hts]. specialize (Hts _ eq_refl).
    destruct (Hs _ eq_refl) as [[??] [??]]. lia.
  - destruct (Ht _ eq_refl) as [[??] _]. lia.
  - destruct (Hs _ eq_refl) as [[??] [??]]. lia.
  - lia.
Qed.

Lemma cell_latest_snoc calls call c :
  cell_wf c → call_wf call → cell_latest calls c → cell_latest (calls ++ [call]) (cell_step call c).
Proof.
  intros Hwf Hc [Hall Hval].
  assert (∀ x, call_rank call = Some x → x ≤ cell_rank c → cell_latest (calls ++ [call]) c) as Hkeep.
  { intros x Hx Hle. split.
    - intros call' y [Hin| ->%list_elem_of_singleton]%elem_of_app Hy; [by eapply Hall|congruence].
    - destruct (c_val c) as [s|], (c_tomb c) as [t|]; try destruct Hval as [tok Hval]; try exists tok;
        try (apply elem_of_app; by left); done. }
  assert (∀ c', cell_rank c < cell_rank c' → call_rank call = Some (cell_rank c') →
            ∀ call' x, call' ∈ calls ++ [call] → call_rank call' = Some x → x ≤ cell_rank c') as Hup.
  { intros c' Hlt Hr call' y [Hin| ->%list_elem_of_singleton]%elem_of_app Hy; [|naive_solver lia].
    specialize (Hall _ _ Hin Hy). lia. }
  destruct call as [s tk|v|fp|tk fp]; simpl in *.
  - unfold cell_fill. rewrite fill_wins_rank by done.
    destruct (Z.ltb_spec (cell_rank c) (fill_rank s)); [|by eapply Hkeep].
    split; [by apply Hup|]. exists tk. apply elem_of_app. right. left.
  - unfold cell_tombstone. rewrite tombstone_wins_rank by done.
    destruct (Z.ltb_spec (cell_rank c) (v * 2 ^ 65)); [|by eapply Hkeep].
    split; [by apply Hup|]. apply elem_of_app. right. left.
  - split; [intros call' y [Hin| ->%list_elem_of_singleton]%elem_of_app Hy; [by eapply Hall|done]|].
    destruct (c_val c), (c_tomb c); try destruct Hval as [tok Hval]; try exists tok; set_solver.
  - split; [intros call' y [Hin| ->%list_elem_of_singleton]%elem_of_app Hy; [by eapply Hall|done]|].
    destruct (c_val c), (c_tomb c); try destruct Hval as [tok Hval]; try exists tok; set_solver.
Qed.

Section window.
  Context (ttl leaseTTL t0 : Z).
  Hypothesis Httl : 0 < ttl.

(** Nothing written since [t0] expires before [t0 + ttl]. *)
Definition unexpired (a : kstate) : Prop :=
  match k_exp a with Some e => t0 + ttl ≤ e | None => True end.

Lemma k_exec_window now call a :
  t0 ≤ now < t0 + ttl → unexpired a →
  k_cell (k_exec ttl leaseTTL now call a).2 = cell_step call (k_cell a) ∧
  unexpired (k_exec ttl leaseTTL now call a).2 ∧
  (k_exec ttl leaseTTL now call a).1 =
    (k_exec ttl leaseTTL now call (mkK (k_cell a) None (k_lease a))).1.
Proof.
  intros Hn Hu. unfold k_exec, k_age, unexpired in *. destruct a as [c e l]. simpl in *.
  assert (cell_age now c e = c) as ->.
  { destruct e as [e|]; [|done]. simpl. by rewrite (proj2 (Z.ltb_lt _ _)) by lia. }
  assert (exp_age now e = e) as ->.
  { destruct e as [e|]; [|done]. simpl. by rewrite (proj2 (Z.ltb_lt _ _)) by lia. }
  destruct call as [s tk|v|fp|tk fp]; simpl.
  - split_and!; [done| |done]. destruct (fill_wins s c); [lia|done].
  - split_and!; [done| |done]. destruct (tombstone_wins v c); [lia|done].
  - done.
  - by destruct (cell_read fp c), (lease_age now l) as [[]|].
Qed.

(** Every script of a run sees a cell holding the greatest write before it. *)
Lemma k_run_at prior a calls j tj cj :
  cell_wf (k_cell a) → unexpired a → cell_latest prior (k_cell a) →
  Forall (λ tc, t0 ≤ tc.1 < t0 + ttl ∧ call_wf tc.2) calls → calls !! j = Some (tj, cj) →
  ∃ c l, (k_run ttl leaseTTL calls a).1 !! j = Some (k_exec ttl leaseTTL tj cj (mkK c None l)).1 ∧
    cell_wf c ∧ cell_latest (prior ++ (take j calls).*2) c.
Proof.
  revert prior a j. induction calls as [|[now call] calls IH]; intros prior a j Hwf Hu Hlat Hall Hj; [done|].
  apply Forall_cons in Hall as [[Hn Hc] Hall]. simpl in Hn, Hc. cbn [k_run].
  destruct (k_exec_window now call a Hn Hu) as (H1 & H2 & H3).
  destruct (k_exec ttl leaseTTL now call a) as [x a1] eqn:Ex. simpl in H1, H2, H3.
  destruct (k_run ttl leaseTTL calls a1) as [xs a2] eqn:Er.
  destruct j as [|j]; simpl in Hj |- *.
  - injection Hj as -> ->. exists (k_cell a), (k_lease a). rewrite app_nil_r. by rewrite H3.
  - destruct (IH (prior ++ [call]) a1 j) as (c & l & Hr & Hw & Hl); [|done| |done|done|].
    + rewrite H1. by apply cell_step_wf.
    + rewrite H1. by apply cell_latest_snoc.
    + rewrite Er in Hr. exists c, l. split_and!; [done|done|]. by rewrite <-app_assoc in Hl.
Qed.

End window.

Section read_back.
  Context {R : Type} `{RedisLaws R}.

Lemma cas_at (k kl : string) (ttl leaseTTL t0 : Z) calls (r : R) j tj fp :
  k ≠ kl → 0 < ttl → 0 < leaseTTL →
  look r t0 k = None → look r t0 kl = None → times_from t0 calls →
  Forall (λ tc, t0 ≤ tc.1 < t0 + ttl ∧ call_wf tc.2) calls →
  calls !! j = Some (tj, CRead fp) →
  ∃ replies r' c, lua_run k kl ttl leaseTTL calls r = (Ok replies, r') ∧
    cell_latest (take j calls).*2 c ∧
    replies !! j =
      Some (RFields (match cell_read fp c with Some s => fields_of s | None => [] end)).
Proof.
  intros Hk Httl Hl H1 H2 Ht Hall Hj.
  destruct (lua_run_sim k kl ttl leaseTTL Hk Httl Hl calls r t0 k_fresh) as (r' & Hr & _);
    [by apply sim_fresh|done|by eapply Forall_impl; [done|intros ? []]|].
  destruct (k_run_at ttl leaseTTL t0 [] k_fresh calls j tj (CRead fp)) as (c & l & Hr' & Hw & Hlat);
    [apply cell_empty_wf|done| |done|done|].
  { split; [|done]. intros ? ? ?%not_elem_of_nil. done. }
  exists (k_run ttl leaseTTL calls k_fresh).1, r', c. split_and!; [done|done|].
  by rewrite Hr'.
Qed.

End read_back.

(** ** Properties *)

Section properties.
  Context {R : Type} `{RedisLaws R}.

(** C1: the Lua scripts, command by command against any cache server obeying
    the documented Redis laws, refine the abstract cell and lease: every run of
    fills, invalidations, reads and lease requests on a key succeeds, returns
    the replies of the abstract run, and leaves the server holding its state. *)
Theorem lua_run_refines (k kl : string) (ttl leaseTTL : Z) calls (r : R) t a :
  k ≠ kl → 0 < ttl → 0 < leaseTTL →
  sim k kl r t a → times_from t calls → Forall (λ tc, call_wf tc.2) calls →
  ∃ r', lua_run k kl ttl leaseTTL calls r = (Ok (k_run ttl leaseTTL calls a).1, r') ∧
    sim k kl r' (default t (fst <$> last calls)) (k_run ttl leaseTTL calls a).2.
Proof. intros. by apply lua_run_sim. Qed.

(** C12: the lease admits one filler at a time.  If two callers are granted the
    lease on a key, either the first one's interval had run out, or a fill
    carrying the first one's token was executed in between: nobody else can
    release it. *)
Theorem lease_exclusive (k kl : string) (ttl leaseTTL : Z) calls (r : R) t a replies r'
    i j ti tj tok fp cj :
  k ≠ kl → 0 < ttl → 0 < leaseTTL →
  sim k kl r t a → times_from t calls → Forall (λ tc, call_wf tc.2) calls →
  lua_run k kl ttl leaseTTL calls r = (Ok replies, r') →
  (i < j)%nat → calls !! i = Some (ti, CLease tok fp) → replies !! i = Some (RLease ReplyGranted) →
  calls !! j = Some (tj, cj) → replies !! j = Some (RLease ReplyGranted) →
  ti + leaseTTL ≤ tj ∨ ∃ m tm s, (i < m < j)%nat ∧ calls !! m = Some (tm, CFill s tok).
Proof.
  intros Hk Httl Hl Hs Ht Hc Hr Hij Hi Hri Hj Hrj.
  destruct (lua_run_sim k kl ttl leaseTTL Hk Httl Hl calls r t a Hs Ht Hc) as (r1 & Hr1 & _).
  rewrite Hr in Hr1. injection Hr1 as -> _.
  by eapply k_run_grants.
Qed.



End properties.

(** ** Witnesses *)

Definition demo_row (rv fv : Z) : stored := mkStored rv fv "row" false "h".

Definition demo_calls : list (Z * lua_call) :=
  [(0, CLease "a" "h"); (1, CFill (demo_row 4 6) "a"); (2, CTomb 9); (3, CFill (demo_row 8 20) "");
   (4, CLease "b" "h"); (5, CFill (demo_row 9 12) "b"); (6, CRead "h")].

Lemma demo_calls_ok :
  times_from 0 demo_calls ∧ Forall (λ tc, 0 ≤ tc.1 < 0 + 1000 ∧ call_wf tc.2) demo_calls.
Proof.
  split; [vm_compute; intuition congruence|].
  repeat constructor; vm_compute; intuition congruence.
Defined.

Lemma demo_wf : Forall (λ tc, call_wf tc.2) demo_calls.
Proof. repeat constructor; vm_compute; intuition congruence. Defined.

Lemma lua_run_refines_witness :
  ∃ r', lua_run "k" "kl" 1000 50 demo_calls (∅ : mem) =
    (Ok [RLease ReplyGranted; RInt 1; RInt 1; RInt 0; RLease ReplyGranted; RInt 1;
         RFields (fields_of (demo_row 9 12))], r') ∧
    sim "k" "kl" r' 6 (k_run 1000 50 demo_calls k_fresh).2.
Proof.
  exact (lua_run_refines "k" "kl" 1000 50 demo_calls (∅ : mem) 0 k_fresh ltac:(done) ltac:(lia)
    ltac:(lia) (sim_fresh "k" "kl" (∅ : mem) 0 eq_refl eq_refl) (proj1 demo_calls_ok) demo_wf).
Defined.

Lemma lease_exclusive_witness :
  0 + 50 ≤ 4 ∨ ∃ m tm s, (0 < m < 4)%nat ∧ demo_calls !! m = Some (tm, CFill s "a").
Proof.
  apply (lease_exclusive "k" "kl" 1000 50 demo_calls (∅ : mem) 0 k_fresh
    (k_run 1000 50 demo_calls k_fresh).1 (snd (lua_run "k" "kl" 1000 50 demo_calls (∅ : mem)))
    0 4 0 4 "a" "h" (CLease "b" "h"));
    [done | lia | lia | exact (sim_fresh "k" "kl" (∅ : mem) 0 eq_refl eq_refl)
    | exact (proj1 demo_calls_ok) | exact demo_wf | vm_compute; reflexivity | lia
    | reflexivity | vm_compute; reflexivity | reflexivity | vm_compute; reflexivity].
Defined.


