(* ===== verification/Buckets.v ===== *)
(** A sliding window kept as a ring of buckets, as both the circuit breaker and
    the admission sketch keep it: the head bucket takes the current slice of
    time, and moving the head on clears what it lands on.

    Events carry their time; [tally] is what a bucket holds for the events of
    its slice.  [ring_ok]: the bucket [d] behind the head holds the events of
    the [d]-th slice behind the head's. *)

From S2P Require Import Prelude.

Local Open Scope Z_scope.

(** [time.Time.Sub], which saturates. *)
Definition Time_Sub (a b : Z) : Z := Z.max (- 2 ^ 63) (Z.min (2 ^ 63 - 1) (a - b)).

Definition in_slot {X} (lo len : Z) (ev : Z * X) : Prop := lo ≤ ev.1 < lo + len.

#[global] Instance in_slot_dec {X} lo len (ev : Z * X) : Decision (in_slot lo len ev).
Proof. unfold in_slot. apply _. Defined.

(** Calls under a clock that does not step back: each starts no earlier than the
    previous one ended. *)
Fixpoint in_order {A} (from : Z) (calls : list (A * (Z * Z))) (last : Z) : Prop :=
  match calls with
  | [] => from ≤ last
  | (_, (now, now')) :: calls => from ≤ now ≤ now' ∧ in_order now' calls last
  end.

Lemma in_order_le {A} from (calls : list (A * (Z * Z))) last : in_order from calls last → from ≤ last.
Proof.
  revert from. induction calls as [|[? [now now']] calls IH]; intros from; simpl; [done|].
  intros [? ?%IH]. lia.
Qed.

Lemma filter_nil {A} (P : A → Prop) `{!∀ x, Decision (P x)} (l : list A) :
  (∀ x, x ∈ l → ¬ P x) → filter P l = [].
Proof.
  induction l as [|x l IH]; [done|]. intros HP.
  rewrite filter_cons_False by (apply HP, list_elem_of_here).
  apply IH. intros y Hy. by apply HP, list_elem_of_further.
Qed.

(** Sums over a ring, in any order. *)
Definition sum_of {A} (f : A → Z) (l : list A) : Z := foldr (λ x s, f x + s) 0 l.

Lemma sum_of_Permutation {A} (f : A → Z) l l' : l ≡ₚ l' → sum_of f l = sum_of f l'.
Proof. induction 1; simpl; lia. Qed.

Lemma sum_of_app {A} (f : A → Z) l l' : sum_of f (l ++ l') = sum_of f l + sum_of f l'.
Proof. induction l as [|x l IH]; simpl; lia. Qed.

Lemma sum_of_fmap {A B} (f : B → Z) (g : A → B) l : sum_of f (g <$> l) = sum_of (f ∘ g) l.
Proof. induction l as [|x l IH]; [done|]. simpl. f_equal. exact IH. Qed.

Lemma sum_of_mono {A} (f g : A → Z) l : (∀ x, x ∈ l → f x ≤ g x) → sum_of f l ≤ sum_of g l.
Proof.
  induction l as [|x l IH]; intros H; simpl; [done|].
  pose proof (H x (list_elem_of_here _ _)). pose proof (IH (λ y Hy, H y (list_elem_of_further _ _ _ Hy))). lia.
Qed.

(** Counting slot by slot counts the whole span of the slots. *)
Lemma slots_count {X} (P : Z * X → Prop) `{!∀ x, Decision (P x)} (start bk : Z) (evs : list (Z * X)) (m : nat) :
  0 < bk →
  sum_of (λ d : nat, Z.of_nat (length (filter P (filter (in_slot (start - Z.of_nat d * bk) bk) evs)))) (seq 0 m) =
  Z.of_nat (length (filter P (filter (in_slot (start - (Z.of_nat m - 1) * bk) (Z.of_nat m * bk)) evs))).
Proof.
  intros Hbk. induction m as [|m IH].
  { simpl. rewrite (filter_nil (in_slot _ _)); [done|]. unfold in_slot. intros ev _. lia. }
  rewrite seq_S, sum_of_app, IH. clear IH. simpl (sum_of _ [_]). rewrite Z.add_0_r, Nat2Z.inj_succ.
  replace (Z.succ (Z.of_nat m) - 1) with (Z.of_nat m) by lia.
  induction evs as [|ev evs IH]; [done|]. rewrite !(filter_cons (in_slot _ _)).
  destruct (decide (in_slot (start - Z.of_nat m * bk) bk ev)) as [H1|H1],
    (decide (in_slot (start - (Z.of_nat m - 1) * bk) (Z.of_nat m * bk) ev)) as [H2|H2],
    (decide (in_slot (start - Z.of_nat m * bk) (Z.succ (Z.of_nat m) * bk) ev)) as [H3|H3];
    rewrite ?(filter_cons P); repeat case_decide; cbn [length]; try lia; exfalso; unfold in_slot in *; nia.
Qed.

Section ring.
Context {A X : Type} (zero : A).

(** The stepping loop: move the head and clear what it lands on. *)
Fixpoint roll_steps (steps : nat) (head : Z) (bs : list A) : Z * list A :=
  match steps with
  | O => (head, bs)
  | S steps =>
      let head := (head + 1) mod Z.of_nat (length bs) in
      roll_steps steps head (<[Z.to_nat head := zero]> bs)
  end.

(** The buckets read from the oldest slot to the head, as a permutation. *)
Lemma rotation (h n : Z) :
  0 ≤ h < n →
  (λ d : nat, Z.to_nat ((h - Z.of_nat d) mod n)) <$> seq 0 (Z.to_nat n) ≡ₚ seq 0 (Z.to_nat n).
Proof.
  intros Hh. apply submseteq_length_Permutation; [|by rewrite length_fmap].
  apply NoDup_submseteq.
  - apply NoDup_fmap_2_strong; [|apply NoDup_seq]. intros x y Hx Hy Hxy.
    apply elem_of_seq in Hx. apply elem_of_seq in Hy.
    apply Z2Nat.inj in Hxy; [|apply Z.mod_pos_bound; lia..].
    pose proof (Z.div_mod (h - Z.of_nat x) n ltac:(lia)) as H1.
    pose proof (Z.div_mod (h - Z.of_nat y) n ltac:(lia)) as H2. rewrite Hxy in H1.
    set (q := (h - Z.of_nat x) / n) in H1. set (q' := (h - Z.of_nat y) / n) in H2.
    assert (q = q'); [|subst; nia]. clearbody q q'.
    destruct (Z.lt_total q q') as [Hq|[Hq|Hq]]; [exfalso; nia|done|exfalso; nia].
  - intros x (d & -> & Hd)%list_elem_of_fmap. apply elem_of_seq.
    pose proof (Z.mod_pos_bound (h - Z.of_nat d) n ltac:(lia)). lia.
Qed.

Lemma roll_steps_spec steps head bs :
  let n := Z.of_nat (length bs) in
  0 ≤ head < n → Z.of_nat steps ≤ n →
  let '(head', bs') := roll_steps steps head bs in
  head' = (head + Z.of_nat steps) mod n ∧ length bs' = length bs ∧
  ∀ d, 0 ≤ d < n →
    bs' !! Z.to_nat ((head' - d) mod n) =
    if d <? Z.of_nat steps then Some (zero) else bs !! Z.to_nat ((head' - d) mod n).
Proof.
  revert head bs. induction steps as [|steps IH]; intros head bs n Hh Hs; cbn [roll_steps].
  - split_and!; [|done|].
    + rewrite Z.add_0_r, Z.mod_small; done.
    + intros d Hd. by rewrite (proj2 (Z.ltb_ge d (Z.of_nat 0))) by lia.
  - set (h1 := (head + 1) mod Z.of_nat (length bs)).
    assert (0 ≤ h1 < n) as Hh1 by (apply Z.mod_pos_bound; lia).
    specialize (IH h1 (<[Z.to_nat h1:=zero]> bs)). cbv zeta in IH.
    rewrite length_insert in IH. specialize (IH Hh1 ltac:(lia)).
    destruct (roll_steps steps h1 _) as [h' bs']. destruct IH as (H1 & H2 & H3). fold n in H1, H3.
    split_and!; [|done|].
    + rewrite H1. unfold h1. fold n. rewrite Zplus_mod_idemp_l. f_equal. lia.
    + intros d Hd. rewrite H3 by done.
      destruct (Z.ltb_spec d (Z.of_nat steps)); [by rewrite (proj2 (Z.ltb_lt _ _)) by lia|].
      assert ((h' - d) mod n = (h1 + (Z.of_nat steps - d)) mod n) as Hidx.
      { rewrite H1, Zminus_mod_idemp_l. f_equal. lia. }
      destruct (Z.ltb_spec d (Z.of_nat (S steps))).
      * assert (d = Z.of_nat steps) as -> by lia. rewrite Hidx, Z.sub_diag, Z.add_0_r, Z.mod_small by lia.
        apply list_lookup_insert_eq. lia.
      * apply list_lookup_insert_ne. intros He. apply Z2Nat.inj in He; [|lia|apply Z.mod_pos_bound; lia].
        rewrite Hidx in He. pose proof (Z.div_mod (h1 + (Z.of_nat steps - d)) n ltac:(lia)) as Hdm.
        rewrite <-He in Hdm. set (q := _ / n) in Hdm. clearbody q h1 n.
        destruct (Z.le_gt_cases q (-1)); nia.
Qed.

Context (tally : list (Z * X) → A).

Record ring_ok (bk head start : Z) (bs : list A) (evs : list (Z * X)) : Prop := {
  tr_len : 0 < Z.of_nat (length bs);
  tr_bk : 0 < bk;
  tr_head : 0 ≤ head < Z.of_nat (length bs);
  tr_past : Forall (λ ev, ev.1 < start + bk) evs;
  tr_slot : ∀ d, 0 ≤ d < Z.of_nat (length bs) →
    bs !! Z.to_nat ((head - d) mod Z.of_nat (length bs)) =
    Some (tally (filter (in_slot (start - d * bk) bk) evs));
}.

Context (tally_nil : tally [] = zero).

Lemma ring_new n bk start : 0 < n → 0 < bk → ring_ok bk 0 start (replicate (Z.to_nat n) zero) [].
Proof.
  intros Hn Hbk. split; rewrite ?length_replicate; [lia|done|lia|done|].
  intros d Hd. rewrite lookup_replicate_2; [by rewrite <-tally_nil|].
  pose proof (Z.mod_pos_bound (0 - d) (Z.of_nat (Z.to_nat n)) ltac:(lia)). lia.
Qed.

(** Clearing every bucket, once the whole window has passed. *)
Lemma ring_clear bk head start bs evs start' bs' :
  ring_ok bk head start bs evs → start + Z.of_nat (length bs) * bk ≤ start' →
  length bs' = length bs → (∀ i, (i < length bs)%nat → bs' !! i = Some zero) →
  ring_ok bk 0 start' bs' evs.
Proof.
  intros [Hlen Hbk Hhead Hpast Hslot] Hs Hl Hz. rewrite Forall_forall in Hpast.
  split; rewrite ?Hl; [done|done|lia| |].
  - apply Forall_forall. intros ev Hev. specialize (Hpast _ Hev). nia.
  - intros d Hd. set (n := Z.of_nat (length bs)) in *. rewrite Hz.
    2: { pose proof (Z.mod_pos_bound (0 - d) n Hlen). unfold n in *. lia. }
    rewrite filter_nil; [by rewrite tally_nil|]. intros ev Hev [? ?]. specialize (Hpast _ Hev). nia.
Qed.

(** Moving the head by fewer steps than there are buckets. *)
Lemma ring_roll bk head start bs evs steps head' bs' :
  ring_ok bk head start bs evs → 0 ≤ steps < Z.of_nat (length bs) →
  roll_steps (Z.to_nat steps) head bs = (head', bs') →
  length bs' = length bs ∧ ring_ok bk head' (start + steps * bk) bs' evs.
Proof.
  intros [Hlen Hbk Hhead Hpast Hslot] Hsteps Hr. rewrite Forall_forall in Hpast.
  pose proof (roll_steps_spec (Z.to_nat steps) head bs Hhead ltac:(lia)) as Hroll.
  rewrite Hr in Hroll. set (n := Z.of_nat (length bs)) in *.
  destruct Hroll as (Hh' & Hl' & Hd'). rewrite Z2Nat.id in Hh', Hd' by lia. split; [done|].
  split; rewrite ?Hl'; fold n; [lia|lia|rewrite Hh'; apply Z.mod_pos_bound; lia| |].
  - apply Forall_forall. intros ev Hev. specialize (Hpast _ Hev). nia.
  - intros d Hd. rewrite Hd' by done. destruct (Z.ltb_spec d steps) as [Hds|Hds].
    + rewrite filter_nil; [by rewrite tally_nil|]. intros ev Hev [? ?]. specialize (Hpast _ Hev). nia.
    + rewrite Hh', Zminus_mod_idemp_l.
      replace (head + steps - d) with (head - (d - steps)) by lia.
      replace (start + steps * bk - d * bk) with (start - (d - steps) * bk) by lia.
      apply Hslot. lia.
Qed.

(** An event of the current slice, put in the head bucket. *)
Lemma ring_record bk head start bs evs ev k' :
  ring_ok bk head start bs evs → start ≤ ev.1 < start + bk →
  (∀ k, bs !! Z.to_nat head = Some k → k = tally (filter (in_slot start bk) evs) →
     k' = tally (ev :: filter (in_slot start bk) evs)) →
  ring_ok bk head start (<[Z.to_nat head := k']> bs) (ev :: evs).
Proof.
  intros [Hlen Hbk Hhead Hpast Hslot] Hev Hk. split; rewrite ?length_insert; [done|done|done| |].
  - apply Forall_cons. split; [simpl; lia|done].
  - intros d Hd. set (n := Z.of_nat (length bs)) in *. destruct (decide (d = 0)) as [->|Hd0].
    + specialize (Hslot 0 ltac:(lia)). rewrite Z.sub_0_r, Z.mod_small in * by lia.
      replace (start - 0 * bk) with start in * by lia.
      rewrite list_lookup_insert_eq by lia. f_equal.
      rewrite filter_cons_True by (unfold in_slot; lia). by apply (Hk _ Hslot).
    + rewrite list_lookup_insert_ne.
      * rewrite Hslot by done. by rewrite filter_cons_False by (unfold in_slot; simpl; nia).
      * intros He. apply Z2Nat.inj in He; [|lia|apply Z.mod_pos_bound; lia].
        pose proof (Z.div_mod (head - d) n ltac:(lia)) as Hdm. rewrite <-He in Hdm.
        set (q := _ / n) in Hdm. clearbody q n. destruct (Z.le_gt_cases q (-1)); nia.
Qed.

(** The ring read from the head backwards is the ring. *)
Lemma ring_slots bk head start bs evs :
  ring_ok bk head start bs evs →
  bs ≡ₚ (λ d : nat, tally (filter (in_slot (start - Z.of_nat d * bk) bk) evs)) <$> seq 0 (length bs).
Proof.
  intros [Hlen Hbk Hhead Hpast Hslot].
  trans ((λ i : nat, default zero (bs !! i)) <$> seq 0 (length bs)).
  - assert (bs = (λ i : nat, default zero (bs !! i)) <$> seq 0 (length bs)) as <-; [|done].
    apply list_eq. intros i. rewrite list_lookup_fmap.
    destruct (decide (i < length bs)%nat) as [Hi|Hi].
    + rewrite lookup_seq_lt by done. simpl.
      destruct (lookup_lt_is_Some_2 bs i) as [k Hk]; [lia|]. by rewrite Hk.
    + rewrite lookup_seq_ge by lia. apply lookup_ge_None. lia.
  - pose proof (rotation head (Z.of_nat (length bs)) Hhead) as Hr. rewrite Nat2Z.id in Hr.
    rewrite <-Hr at 1. rewrite <-list_fmap_compose.
    apply Permutation_refl', list_fmap_ext. intros i d Hd. apply lookup_seq in Hd as [-> Hi]. simpl.
    by rewrite Hslot by lia.
Qed.
End ring.
