(* ===== verification/Breaker.v ===== *)
(** The proportional circuit breaker: [src/internal/breaker/breaker.go].

    Time readings ([opts.Now()]) and random draws ([opts.Rand()]) are arguments
    of the operations that take them; counters are unbounded integers. *)

From S2P Require Import Prelude GoStd Floats Buckets.

Local Open Scope Z_scope.

Record Options := mkOptions {
  Window : Z;
  Buckets : Z;
  MinRequests : Z;
  FailureFloor : float64;
  MaxShed : float64;
}.

Record bucket := mkBucket { successes : Z; failures : Z }.

Record Breaker := mkBreaker {
  b_opts : Options;
  b_bucketed : Z;
  b_buckets : list bucket;
  b_head : Z;
  b_headStart : Z;
}.

Record Stats := mkStats {
  st_Successes : Z; st_Failures : Z; st_Total : Z; st_FailureRate : float64; st_ShedRate : float64;
}.

Definition breaker_New (opts : Options) (now : Z) : result Breaker :=
  if Window opts <=? 0 then Err (Errorf "breaker: window must be positive")
  else if Buckets opts <=? 0 then Err (Errorf "breaker: buckets must be positive")
  else if MinRequests opts <? 0 then Err (Errorf "breaker: min_requests must not be negative")
  else if f_lt (FailureFloor opts) f_zero || f_le f_one (FailureFloor opts) then
    Err (Errorf "breaker: failure_floor must be in [0,1)")
  else if f_lt (MaxShed opts) f_zero then Err (Errorf "breaker: max_shed must not be negative")
  else if f_le f_one (MaxShed opts) then
    Err (Errorf "breaker: max_shed must be below 1 so probe traffic can detect recovery")
  else
    Ok (mkBreaker opts (Window opts / Buckets opts)
          (replicate (Z.to_nat (Buckets opts)) (mkBucket 0 0)) 0 now).

(** [now] and [now'] are the two readings the body can take. *)
Definition Breaker_rollLocked (now now' : Z) : M Breaker unit :=
  b ← M_get;
  let elapsed := Time_Sub now (b_headStart b) in
  if elapsed <? b_bucketed b then mret tt
  else if b_bucketed b =? 0 then M_panic "runtime error: integer divide by zero"
  else
    let steps := elapsed / b_bucketed b in
    if Z.of_nat (length (b_buckets b)) <=? steps then
      M_put (mkBreaker (b_opts b) (b_bucketed b)
               ((λ _, mkBucket 0 0) <$> b_buckets b) 0 now')
    else
      let '(head, bs) := roll_steps (mkBucket 0 0) (Z.to_nat steps) (b_head b) (b_buckets b) in
      M_put (mkBreaker (b_opts b) (b_bucketed b) bs head
               (b_headStart b + steps * b_bucketed b)).

Definition bump (ok : bool) (k : bucket) : bucket :=
  if ok then mkBucket (successes k + 1) (failures k)
  else mkBucket (successes k) (failures k + 1).

(** [Success] and [Failure]. *)
Definition Breaker_record (ok : bool) (now now' : Z) : M Breaker unit :=
  Breaker_rollLocked now now';;
  b ← M_get;
  match b_buckets b !! Z.to_nat (b_head b) with
  | Some k =>
      M_put (mkBreaker (b_opts b) (b_bucketed b)
               (<[Z.to_nat (b_head b) := bump ok k]> (b_buckets b)) (b_head b) (b_headStart b))
  | None => M_panic "runtime error: index out of range"
  end.

Definition Breaker_Success (now now' : Z) : M Breaker unit := Breaker_record true now now'.
Definition Breaker_Failure (now now' : Z) : M Breaker unit := Breaker_record false now now'.

Definition Breaker_countLocked (b : Breaker) : Z * Z :=
  foldl (λ acc k, (acc.1 + successes k, acc.2 + failures k)) (0, 0) (b_buckets b).

(** The shed fraction of a window's counts. *)
Definition shed_of (opts : Options) (successes failures : Z) : float64 :=
  let total := successes + failures in
  if total <? MinRequests opts then f_zero
  else
    let rate := f_div (f_of_int failures) (f_of_int total) in
    if f_le rate (FailureFloor opts) then f_zero
    else
      let shed := f_mul (f_div (f_sub rate (FailureFloor opts))
                               (f_sub f_one (FailureFloor opts))) (MaxShed opts) in
      if f_lt (MaxShed opts) shed then MaxShed opts else shed.

Definition Breaker_shedLocked (now now' : Z) : M Breaker float64 :=
  Breaker_rollLocked now now';;
  b ← M_get;
  let '(successes, failures) := Breaker_countLocked b in
  mret (shed_of (b_opts b) successes failures).

Definition Breaker_ShedProbability (now now' : Z) : M Breaker float64 := Breaker_shedLocked now now'.

Definition Breaker_Allow (now now' : Z) (rand : float64) : M Breaker bool :=
  p ← Breaker_ShedProbability now now';
  if f_le p f_zero then mret true else mret (f_le p rand).

Definition Breaker_Stats (now now' : Z) : M Breaker Stats :=
  b ← M_get;
  let '(successes, failures) := Breaker_countLocked b in
  let total := successes + failures in
  shed ← Breaker_shedLocked now now';
  mret (mkStats successes failures total
          (if 0 <? total then f_div (f_of_int failures) (f_of_int total) else f_zero) shed).

(** ** Groups: one breaker per node *)

Record Group := mkGroup { g_opts : Options; g_breakers : gmap string Breaker }.

Definition NewGroup (opts : Options) (now : Z) : result Group :=
  breaker_New opts now;; Ok (mkGroup opts ∅).

(** Run [m] on the node's breaker, created on first use: [g.For(node)] followed
    by a call on the breaker it returns. *)
Definition Group_For {A} (node : string) (created : Z) (m : M Breaker A) : M Group A := λ g,
  match (match g_breakers g !! node with
         | Some b => Ok b
         | None =>
             match breaker_New (g_opts g) created with
             | Ok b => Ok b
             | _ => Panic "breaker: group options became invalid"
             end
         end) with
  | Ok b =>
      let '(r, b') := m b in
      (r, mkGroup (g_opts g) (<[node := b']> (g_breakers g)))
  | Err e => (Err e, g)
  | Panic w => (Panic w, g)
  end.

Definition Group_Nodes (now now' : Z) (g : Group) : gmap string (result Stats) :=
  (λ b, (Breaker_Stats now now' b).1) <$> g_breakers g.

(** ** The ring of buckets counts the recent calls

    A history is the recorded calls with their times, and [tally] what a bucket
    holds for the calls of its slice. *)

Abbreviation call := (Z * bool)%type.

Definition tally (evs : list call) : bucket :=
  foldr (λ ev k, bump ev.2 k) (mkBucket 0 0) evs.

Definition tracks (b : Breaker) (evs : list call) : Prop :=
  ring_ok tally (b_bucketed b) (b_head b) (b_headStart b) (b_buckets b) evs.

(** Rolling to a later time keeps the ring in step with the same history. *)
Lemma roll_tracks b evs now now' :
  tracks b evs → b_headStart b ≤ now ≤ now' → now - b_headStart b < 2 ^ 63 →
  ∃ b', Breaker_rollLocked now now' b = (Ok tt, b') ∧ tracks b' evs ∧
    b_opts b' = b_opts b ∧ b_bucketed b' = b_bucketed b ∧
    length (b_buckets b') = length (b_buckets b) ∧
    b_headStart b ≤ b_headStart b' ∧ now - b_bucketed b < b_headStart b' ≤ now'.
Proof.
  intros Ht Hnow Hsat. pose proof (tr_len _ _ _ _ _ _ Ht) as Hlen. pose proof (tr_bk _ _ _ _ _ _ Ht) as Hbk.
  unfold Breaker_rollLocked, Time_Sub. mrun. rewrite Z.min_r, Z.max_r by lia.
  destruct (Z.ltb_spec (now - b_headStart b) (b_bucketed b)) as [Hlt|Hge].
  { exists b. split_and!; try done; lia. }
  destruct (Z.eqb_spec (b_bucketed b) 0) as [?|_]; [lia|].
  set (n := Z.of_nat (length (b_buckets b))) in *. set (bk := b_bucketed b) in *.
  set (steps := (now - b_headStart b) / bk).
  pose proof (Z.div_mod (now - b_headStart b) bk ltac:(lia)) as Hdm. fold steps in Hdm.
  pose proof (Z.mod_pos_bound (now - b_headStart b) bk Hbk) as Hmod.
  assert (1 ≤ steps) as H1 by (apply Z.div_le_lower_bound; lia).
  destruct (Z.leb_spec n steps) as [Hall|Hsome].
  - eexists. split; [done|]. split; [|simpl; rewrite length_fmap; split_and!; try done; lia].
    eapply (ring_clear (mkBucket 0 0) tally eq_refl _ _ _ _ _ _ _ Ht); simpl.
    + fold n bk. nia.
    + apply length_fmap.
    + intros i Hi. rewrite list_lookup_fmap. by destruct (lookup_lt_is_Some_2 _ _ Hi) as [k ->].
  - destruct (roll_steps (mkBucket 0 0) (Z.to_nat steps) (b_head b) (b_buckets b)) as [h' bs'] eqn:Hr.
    destruct (ring_roll (mkBucket 0 0) tally eq_refl _ _ _ _ _ steps _ _ Ht ltac:(fold n; lia) Hr) as [Hl' Ht'].
    eexists. split; [done|]. split; [exact Ht'|]. simpl. split_and!; try done; fold bk; nia.
Qed.

(** Counting the ring counts the history over the last [n] intervals. *)
Lemma countLocked_sum b :
  Breaker_countLocked b =
    (foldr (λ k s, successes k + s) 0 (b_buckets b), foldr (λ k s, failures k + s) 0 (b_buckets b)).
Proof.
  unfold Breaker_countLocked.
  assert (∀ bs a c, foldl (λ acc k, (acc.1 + successes k, acc.2 + failures k)) (a, c) bs =
    (a + foldr (λ k s, successes k + s) 0 bs, c + foldr (λ k s, failures k + s) 0 bs)) as H.
  { induction bs as [|k bs IH]; intros a c; simpl; [f_equal; lia|].
    rewrite IH. simpl. f_equal; lia. }
  by rewrite H.
Qed.

Definition tally_add (k k' : bucket) : bucket :=
  mkBucket (successes k + successes k') (failures k + failures k').

Lemma tally_split lo mid hi evs :
  lo ≤ mid ≤ hi →
  tally (filter (in_slot lo (hi - lo)) evs) =
    tally_add (tally (filter (in_slot lo (mid - lo)) evs)) (tally (filter (in_slot mid (hi - mid)) evs)).
Proof.
  intros H. induction evs as [|ev evs IH]; [done|]. rewrite !filter_cons. unfold in_slot in *.
  destruct (decide (lo ≤ ev.1 < lo + (hi - lo))) as [H1|H1],
    (decide (lo ≤ ev.1 < lo + (mid - lo))) as [H2|H2],
    (decide (mid ≤ ev.1 < mid + (hi - mid))) as [H3|H3]; try lia; simpl; rewrite ?IH; try done;
    unfold tally_add, bump; destruct ev.2; simpl; f_equal; lia.
Qed.

Lemma foldr_sum_Permutation (f : bucket → Z) l l' :
  l ≡ₚ l' → foldr (λ k s, f k + s) 0 l = foldr (λ k s, f k + s) 0 l'.
Proof. induction 1; simpl; lia. Qed.

Lemma foldr_sum_snoc (f : bucket → Z) l k :
  foldr (λ k s, f k + s) 0 (l ++ [k]) = foldr (λ k s, f k + s) 0 l + f k.
Proof. induction l as [|k' l IH]; simpl; lia. Qed.

Lemma tracks_count b evs :
  tracks b evs →
  let n := Z.of_nat (length (b_buckets b)) in
  Breaker_countLocked b =
    let k := tally (filter (in_slot (b_headStart b - (n - 1) * b_bucketed b) (n * b_bucketed b)) evs) in
    (successes k, failures k).
Proof.
  intros Ht n. pose proof (tr_len _ _ _ _ _ _ Ht) as Hlen. pose proof (tr_bk _ _ _ _ _ _ Ht) as Hbk. fold n in Hlen.
  set (slot := λ d : nat, tally (filter (in_slot (b_headStart b - Z.of_nat d * b_bucketed b) (b_bucketed b)) evs)).
  assert (b_buckets b ≡ₚ slot <$> seq 0 (Z.to_nat n)) as Hp.
  { unfold n. rewrite Nat2Z.id. apply (ring_slots (mkBucket 0 0) tally _ _ _ _ _ Ht). }
  rewrite countLocked_sum, !(foldr_sum_Permutation _ _ _ Hp). clear Hp.
  assert (∀ m : nat, (1 ≤ m)%nat →
    let k := tally (filter (in_slot (b_headStart b - (Z.of_nat m - 1) * b_bucketed b)
                                    (Z.of_nat m * b_bucketed b)) evs) in
    (foldr (λ k s, successes k + s) 0 (slot <$> seq 0 m), foldr (λ k s, failures k + s) 0 (slot <$> seq 0 m)) =
    (successes k, failures k)) as H; [|specialize (H (Z.to_nat n)); rewrite Z2Nat.id in H by lia; apply H; lia].
  induction m as [|m IH]; [lia|]. intros _. destruct m as [|m].
  - simpl. unfold slot. rewrite !Z.mul_0_l, !Z.sub_0_r, Z.mul_1_l. f_equal; lia.
  - specialize (IH ltac:(lia)). pose proof (f_equal fst IH) as IH1. pose proof (f_equal snd IH) as IH2.
    cbn [fst snd] in IH1, IH2.
    rewrite seq_S, fmap_app. change (slot <$> [(0 + S m)%nat]) with [slot (S m)].
    rewrite (foldr_sum_snoc successes), (foldr_sum_snoc failures), IH1, IH2.
    pose proof (tally_split (b_headStart b - Z.of_nat (S m) * b_bucketed b)
      (b_headStart b - Z.of_nat m * b_bucketed b) (b_headStart b + b_bucketed b) evs ltac:(nia)) as Hs.
    unfold slot. cbv zeta.
    replace (Z.of_nat (S m) - 1) with (Z.of_nat m) by lia.
    replace (Z.of_nat (S (S m)) - 1) with (Z.of_nat (S m)) by lia.
    replace (Z.of_nat (S (S m)) * b_bucketed b) with
      (b_headStart b + b_bucketed b - (b_headStart b - Z.of_nat (S m) * b_bucketed b)) by lia.
    rewrite Hs. unfold tally_add. cbn [successes failures].
    replace (b_headStart b - Z.of_nat m * b_bucketed b - (b_headStart b - Z.of_nat (S m) * b_bucketed b))
      with (b_bucketed b) by lia.
    replace (b_headStart b + b_bucketed b - (b_headStart b - Z.of_nat m * b_bucketed b))
      with (Z.of_nat (S m) * b_bucketed b) by lia.
    f_equal; lia.
Qed.

(** Recording a call adds it to the history. *)
Lemma record_tracks b evs ok now now' :
  tracks b evs → b_headStart b ≤ now ≤ now' → now - b_headStart b < 2 ^ 63 →
  ∃ b' now'', Breaker_record ok now now' b = (Ok tt, b') ∧ tracks b' ((now'', ok) :: evs) ∧
    b_opts b' = b_opts b ∧ b_bucketed b' = b_bucketed b ∧
    length (b_buckets b') = length (b_buckets b) ∧ now ≤ now'' ≤ now' ∧
    b_headStart b ≤ b_headStart b' ≤ now'.
Proof.
  intros Ht Hnow Hsat.
  destruct (roll_tracks b evs now now' Ht Hnow Hsat) as (b1 & Hr & Ht1 & Ho & Hb & Hl & Hmono & Hhs).
  unfold Breaker_record. rewrite (M_bind_run _ _ _ _ _ Hr).
  pose proof (tr_slot _ _ _ _ _ _ Ht1 0 ltac:(pose proof (tr_len _ _ _ _ _ _ Ht1); lia)) as H0.
  pose proof (tr_head _ _ _ _ _ _ Ht1) as Hhead. pose proof (tr_bk _ _ _ _ _ _ Ht1) as Hbk1.
  rewrite Z.sub_0_r, Z.mod_small in H0 by lia. replace (b_headStart b1 - 0 * b_bucketed b1) with (b_headStart b1) in H0 by lia.
  unfold mbind, M_bind, M_get. rewrite H0. set (k := tally _) in *.
  exists (mkBreaker (b_opts b1) (b_bucketed b1) (<[Z.to_nat (b_head b1) := bump ok k]> (b_buckets b1))
            (b_head b1) (b_headStart b1)), (Z.max now (b_headStart b1)).
  split; [done|]. simpl. rewrite length_insert. split_and!; [|done|done|done|lia..].
  apply (ring_record tally _ _ _ _ _ _ _ Ht1); simpl; [lia|]. by intros k' _ ->.
Qed.

(** ** Properties *)

(** A run of recorded calls: outcome and the two clock readings of each. *)
Fixpoint Breaker_run (calls : list (bool * (Z * Z))) : M Breaker unit :=
  match calls with
  | [] => mret tt
  | (ok, (now, now')) :: calls => Breaker_record ok now now';; Breaker_run calls
  end.

Lemma breaker_New_ok opts t0 b :
  breaker_New opts t0 = Ok b →
  0 < Buckets opts ∧ 0 < Window opts ∧ 0 ≤ MinRequests opts ∧
  b = mkBreaker opts (Window opts / Buckets opts)
        (replicate (Z.to_nat (Buckets opts)) (mkBucket 0 0)) 0 t0.
Proof.
  unfold breaker_New. intros H. case_ifs; try done. injection H as <-. zify_bool. done.
Qed.

Lemma New_tracks opts t0 b :
  breaker_New opts t0 = Ok b → Buckets opts ≤ Window opts → tracks b [].
Proof.
  intros (Hb & Hw & _ & ->)%breaker_New_ok Hbw.
  apply ring_new; [done|lia|]. apply Z.div_str_pos. lia.
Qed.

Lemma run_tracks calls b evs t last :
  tracks b evs → b_headStart b ≤ t → in_order t calls last → last - b_headStart b < 2 ^ 63 →
  ∃ b' evs', Breaker_run calls b = (Ok tt, b') ∧ tracks b' (evs' ++ evs) ∧
    Forall2 (λ c ev, ev.2 = c.1 ∧ c.2.1 ≤ ev.1 ≤ c.2.2) (reverse calls) evs' ∧
    b_opts b' = b_opts b ∧ b_bucketed b' = b_bucketed b ∧
    length (b_buckets b') = length (b_buckets b) ∧ b_headStart b ≤ b_headStart b' ≤ last.
Proof.
  revert b evs t. induction calls as [|[ok [now now']] calls IH]; intros b evs t Ht Hs Hr Hsat;
    cbn [Breaker_run].
  - exists b, []. simpl in Hr. rewrite reverse_nil. split_and!; try done; lia.
  - destruct Hr as [Hnow Hr]. pose proof (in_order_le _ _ _ Hr) as Hle.
    destruct (record_tracks b evs ok now now' Ht ltac:(lia) ltac:(lia))
      as (b1 & n'' & H1 & Ht1 & Ho1 & Hb1 & Hlen1 & Hn'' & Hhs1).
    rewrite (M_bind_run _ _ _ _ _ H1).
    destruct (IH b1 _ now' Ht1 ltac:(lia) Hr ltac:(lia))
      as (b2 & evs2 & H2 & Ht2 & HF & Ho2 & Hb2 & Hlen2 & Hhs2).
    exists b2, (evs2 ++ [(n'', ok)]). rewrite <-app_assoc, reverse_cons.
    split_and!; [done|done| |congruence..|lia|lia].
    apply Forall2_app; [done|]. apply Forall2_cons. simpl. split; [by split|done].
Qed.

(** The breaker counts exactly the recent calls.  After any run of recorded
    successes and failures under a monotone clock, the counts it judges the
    node on at time [now] are those of the calls at or after a cutoff that is
    less than a window and at least a window minus one bucket in the past: old
    failures always age out, and no recent call is lost or counted twice. *)
Theorem Breaker_counts_window opts t0 b calls last now :
  breaker_New opts t0 = Ok b → Buckets opts ≤ Window opts →
  in_order t0 calls last → last ≤ now → now - t0 < 2 ^ 63 →
  ∃ b1 b2 evs cutoff,
    Breaker_run calls b = (Ok tt, b1) ∧ Breaker_rollLocked now now b1 = (Ok tt, b2) ∧
    Forall2 (λ c ev, ev.2 = c.1 ∧ c.2.1 ≤ ev.1 ≤ c.2.2) (reverse calls) evs ∧
    (let k := tally (filter (λ ev, cutoff ≤ ev.1) evs) in
     Breaker_countLocked b2 = (successes k, failures k)) ∧
    now - Window opts < cutoff ≤ now - (Buckets opts - 1) * (Window opts / Buckets opts).
Proof.
  intros HN Hbw Hr Hlast Hsat.
  pose proof (New_tracks opts t0 b HN Hbw) as Ht.
  apply breaker_New_ok in HN as (Hb & Hw & _ & Hbe).
  assert (b_headStart b = t0 ∧ b_bucketed b = Window opts / Buckets opts ∧
          Z.of_nat (length (b_buckets b)) = Buckets opts) as (Hb1 & Hb2 & Hb3).
  { subst b. simpl. rewrite length_replicate. split_and!; [done|done|lia]. }
  clear Hbe. rewrite <-Hb1 in Hr, Hsat. pose proof (in_order_le _ _ _ Hr).
  destruct (run_tracks calls b [] (b_headStart b) last Ht ltac:(lia) Hr ltac:(lia))
    as (b1 & evs & H1 & Ht1 & HF & Ho1 & Hbk1 & Hlen1 & Hhs1).
  rewrite app_nil_r in Ht1.
  destruct (roll_tracks b1 evs now now Ht1 ltac:(lia) ltac:(lia))
    as (b2 & H2 & Ht2 & Ho2 & Hbk2 & Hlen2 & Hmono & Hhs2).
  pose proof (tracks_count b2 evs Ht2) as Hc. cbv zeta in Hc.
  rewrite Hlen2, Hlen1, Hb3, Hbk2, Hbk1, Hb2 in Hc. rewrite Hbk1, Hb2 in Hhs2.
  set (bk := Window opts / Buckets opts) in *.
  exists b1, b2, evs, (b_headStart b2 - (Buckets opts - 1) * bk).
  split_and!; [done|done|done| | |lia].
  - cbv zeta. rewrite Hc.
    assert (filter (in_slot (b_headStart b2 - (Buckets opts - 1) * bk) (Buckets opts * bk)) evs =
            filter (λ ev, b_headStart b2 - (Buckets opts - 1) * bk ≤ ev.1) evs) as ->; [|done].
    apply filter_ext_in. intros ev Hev. pose proof (tr_past _ _ _ _ _ _ Ht2) as Hp.
    rewrite Forall_forall in Hp. specialize (Hp _ Hev). rewrite Hbk2, Hbk1, Hb2 in Hp.
    unfold in_slot. lia.
  - pose proof (Z.mul_div_le (Window opts) (Buckets opts) Hb) as Hm. fold bk in Hm. lia.
Qed.

(** Probe traffic always gets through.  Whatever the window holds, the shed
    fraction, when it is a number at all, is at most [MaxShed] or zero, so a
    request whose draw is at or above [MaxShed] is sent to the node. *)
Theorem Breaker_Allow_probe (b b1 : Breaker) now now' rand p :
  Breaker_ShedProbability now now' b = (Ok p, b1) → is_nan p = false →
  is_nan (MaxShed (b_opts b1)) = false →
  (f_le p (MaxShed (b_opts b1)) = true ∨ p = f_zero) ∧
  (f_le (MaxShed (b_opts b1)) rand = true → Breaker_Allow now now' rand b = (Ok true, b1)).
Proof.
  intros Hp Hn HM.
  assert (f_le p (MaxShed (b_opts b1)) = true ∨ p = f_zero) as Hcap.
  { unfold Breaker_ShedProbability, Breaker_shedLocked in Hp.
    apply M_bind_ok in Hp as ([] & b2 & _ & Hp). mrun in Hp.
    destruct (Breaker_countLocked b2) as [s f]. injection Hp as <- <-.
    unfold shed_of in *. cbv zeta in *. case_ifs; try (by right); left.
    - by apply f_le_refl.
    - by apply f_not_lt. }
  split; [done|]. intros Hr. unfold Breaker_Allow. rewrite (M_bind_run _ _ _ _ _ Hp).
  destruct (f_le p f_zero) eqn:Hz; [done|]. destruct Hcap as [Hcap| ->]; [|done].
  mrun. rewrite (f_le_trans p (MaxShed (b_opts b1)) rand); [done|done|done| |done|done].
  by apply f_le_not_nan in Hr as [_ ?].
Qed.

(** Below the evidence threshold nothing is shed: a breaker that has seen
    fewer than [MinRequests] calls in the window admits every request. *)
Theorem Breaker_Allow_evidence (b b1 : Breaker) now now' rand :
  Breaker_rollLocked now now' b = (Ok tt, b1) →
  (Breaker_countLocked b1).1 + (Breaker_countLocked b1).2 < MinRequests (b_opts b1) →
  Breaker_Allow now now' rand b = (Ok true, b1).
Proof.
  intros Hr Hc. unfold Breaker_Allow, Breaker_ShedProbability, Breaker_shedLocked.
  unfold mbind, M_bind. rewrite Hr. unfold M_get, mret, M_ret.
  destruct (Breaker_countLocked b1) as [s f]. simpl in Hc. unfold shed_of.
  by rewrite (proj2 (Z.ltb_lt _ _)).
Qed.

(** [min_requests = 0], which New accepts, latches the breaker open: with no
    traffic the failure rate is 0/0, the shed fraction is NaN, and Allow refuses
    every request whatever the draw, so no call is ever recorded. *)
Theorem Breaker_min_requests_zero_latches opts t0 now rand b :
  breaker_New opts t0 = Ok b → MinRequests opts = 0 → Buckets opts ≤ Window opts →
  t0 ≤ now → now - t0 < 2 ^ 63 →
  ∃ b1, Breaker_Allow now now rand b = (Ok false, b1).
Proof.
  intros HN Hm Hbw Hnow Hsat. pose proof (New_tracks opts t0 b HN Hbw) as Ht.
  apply breaker_New_ok in HN as (Hb & Hw & _ & Hbe).
  assert (b_headStart b = t0 ∧ b_opts b = opts) as [Hhs Ho] by by subst b.
  destruct (roll_tracks b [] now now Ht ltac:(lia) ltac:(lia)) as (b1 & Hr & Ht1 & Ho1 & _).
  exists b1. unfold Breaker_Allow, Breaker_ShedProbability, Breaker_shedLocked.
  unfold mbind, M_bind. rewrite Hr. unfold M_get, mret, M_ret.
  rewrite (tracks_count b1 [] Ht1). unfold shed_of. rewrite Ho1, Ho, Hm. simpl.
  destruct (MaxShed opts); done.
Qed.

(** A window shorter than its bucket count in nanoseconds passes
    validation and then panics on the first recorded call. *)
Theorem Breaker_zero_bucket_panics opts t0 b ok now :
  breaker_New opts t0 = Ok b → Window opts < Buckets opts → t0 ≤ now →
  Breaker_record ok now now b = (Panic "runtime error: integer divide by zero", b).
Proof.
  intros (Hb & Hw & _ & ->)%breaker_New_ok Hbw Hnow.
  unfold Breaker_record, Breaker_rollLocked, Time_Sub. mrun. cbn [b_bucketed b_headStart].
  rewrite Z.div_small by lia. rewrite (proj2 (Z.ltb_ge _ _)) by lia. done.
Qed.

(** A stale report: [Stats] counts before it rolls the window, so after an idle
    period it reports the old failures next to a shed rate of zero. *)
Example Stats_reports_stale_counts :
  let opts := mkOptions 100 10 1 (f_ratio 5 100) (f_ratio 95 100) in
  match breaker_New opts 0 with
  | Ok b =>
      match (Breaker_Failure 1 1;; Breaker_Stats 5000 5000) b with
      | (Ok s, _) => st_Failures s = 1 ∧ st_ShedRate s = f_zero
      | _ => False
      end
  | _ => False
  end.
Proof. vm_compute. done. Qed.

(** ** Witnesses *)

Definition demo_opts (minRequests : Z) : Options :=
  mkOptions 1000 10 minRequests (f_ratio 5 100) (f_ratio 95 100).

Definition demo_breaker (minRequests : Z) : Breaker :=
  mkBreaker (demo_opts minRequests) 100 (replicate 10 (mkBucket 0 0)) 0 0.

Definition demo_failing : Breaker :=
  (Breaker_run [(false, (10, 10)); (true, (20, 20)); (false, (150, 150))] (demo_breaker 2)).2.

Lemma Breaker_counts_window_witness :
  ∃ b1 b2 evs cutoff,
    Breaker_run [(false, (10, 10)); (true, (120, 120))] (demo_breaker 2) = (Ok tt, b1) ∧
    Breaker_rollLocked 1050 1050 b1 = (Ok tt, b2) ∧
    Forall2 (λ c ev, ev.2 = c.1 ∧ c.2.1 ≤ ev.1 ≤ c.2.2) [(true, (120, 120)); (false, (10, 10))] evs ∧
    (let k := tally (filter (λ ev, cutoff ≤ ev.1) evs) in
     Breaker_countLocked b2 = (successes k, failures k)) ∧
    1050 - 1000 < cutoff ≤ 1050 - (10 - 1) * (1000 / 10).
Proof.
  exact (Breaker_counts_window (demo_opts 2) 0 (demo_breaker 2)
    [(false, (10, 10)); (true, (120, 120))] 120 1050 ltac:(vm_compute; reflexivity)
    ltac:(vm_compute; congruence) ltac:(simpl; lia) ltac:(lia) ltac:(lia)).
Defined.

Lemma Breaker_Allow_probe_witness :
  (Breaker_Allow 200 200 (f_ratio 96 100) demo_failing).1 = Ok true.
Proof.
  destruct (Breaker_Allow_probe demo_failing (Breaker_ShedProbability 200 200 demo_failing).2 200 200
    (f_ratio 96 100) (shed_of (demo_opts 2) 1 2)) as [_ H];
    [vm_compute; reflexivity | vm_compute; reflexivity | vm_compute; reflexivity |].
  rewrite H; [reflexivity | vm_compute; reflexivity].
Defined.

Lemma Breaker_Allow_evidence_witness :
  Breaker_Allow 30 30 f_zero (demo_breaker 2) = (Ok true, demo_breaker 2).
Proof.
  apply (Breaker_Allow_evidence (demo_breaker 2) (demo_breaker 2) 30 30 f_zero);
    [vm_compute; reflexivity | vm_compute; reflexivity].
Defined.

Lemma Breaker_min_requests_zero_latches_witness :
  ∃ b1, Breaker_Allow 30 30 (f_ratio 99 100) (demo_breaker 0) = (Ok false, b1).
Proof.
  exact (Breaker_min_requests_zero_latches (demo_opts 0) 0 30 (f_ratio 99 100) (demo_breaker 0)
    ltac:(vm_compute; reflexivity) eq_refl ltac:(vm_compute; congruence) ltac:(lia) ltac:(lia)).
Defined.

Lemma Breaker_zero_bucket_panics_witness :
  ∃ b, Breaker_record true 3 3 b = (Panic "runtime error: integer divide by zero", b).
Proof.
  eexists. apply (Breaker_zero_bucket_panics (mkOptions 5 10 1 f_zero f_zero) 0 _ true 3);
    [vm_compute; reflexivity | vm_compute; reflexivity | lia].
Defined.
