(* ===== verification/Admission.v ===== *)
(** Admission: which keys are worth caching, [src/internal/admission].

    [sketch.go] counts reads and writes per key in a count-min sketch over a
    sliding window, [policy.go] decides from the ratio with hysteresis and a
    minimum dwell, and [controller.go] keeps each key's state.  Readings of the
    clock are arguments. *)

From S2P Require Import Prelude GoStd Floats Ring Buckets.

Local Open Scope Z_scope.

(** ** The sketch *)

Record SketchOptions := mkSketchOptions { so_Width : Z; so_Depth : Z; so_Window : Z; so_Buckets : Z }.

Record Sketch := mkSketch {
  sk_width : Z;
  sk_depth : Z;
  sk_buckets : Z;
  sk_slice : Z;
  sk_reads : list (list Z);
  sk_writes : list (list Z);
  sk_head : Z;
  sk_headStart : Z;
}.

Definition defaultWidth : Z := 4096.
Definition defaultDepth : Z := 4.
Definition defaultWindow : Z := 60000000000.
Definition defaultBuckets : Z := 6.

Definition NewSketch (opts : SketchOptions) (now : Z) : Sketch :=
  let width := if so_Width opts <=? 0 then defaultWidth else so_Width opts in
  let depth := if so_Depth opts <=? 0 then defaultDepth else so_Depth opts in
  let window := if so_Window opts <=? 0 then defaultWindow else so_Window opts in
  let buckets := if so_Buckets opts <=? 0 then defaultBuckets else so_Buckets opts in
  let tables := replicate (Z.to_nat buckets) (replicate (Z.to_nat (width * depth)) 0) in
  mkSketch width depth buckets (window / buckets) tables tables 0 now.

(** [cell]: FNV-1a over the key and the row byte, finished by SplitMix64. *)
Definition sketch_cell (width : Z) (key : string) (row : Z) : Z :=
  let x := splitMix64 (fnv64a (key +:+ String (byte_of (Z.land row 255)) "")) in
  let width := if width <=? 0 then defaultWidth else width in
  row * width + Z.land (x mod width) (2 ^ 31 - 1).

Definition Sketch_cells (s : Sketch) (key : string) : list nat :=
  (λ d : nat, Z.to_nat (sketch_cell (sk_width s) key (Z.of_nat d))) <$> seq 0 (Z.to_nat (sk_depth s)).

(** [clear]. *)
Definition clear_row (t : list Z) : list Z := (λ _, 0) <$> t.

(** The stepping loop, on both tables. *)
Fixpoint sketch_steps (steps : nat) (buckets head : Z) (rd wr : list (list Z)) : Z * list (list Z) * list (list Z) :=
  match steps with
  | O => (head, rd, wr)
  | S steps =>
      let head := (head + 1) mod buckets in
      sketch_steps steps buckets head (alter clear_row (Z.to_nat head) rd) (alter clear_row (Z.to_nat head) wr)
  end.

Definition Sketch_rollLocked (now now' : Z) : M Sketch unit :=
  s ← M_get;
  let elapsed := Time_Sub now (sk_headStart s) in
  if elapsed <? sk_slice s then mret tt
  else if sk_slice s =? 0 then M_panic "runtime error: integer divide by zero"
  else
    let steps := elapsed / sk_slice s in
    if sk_buckets s <=? steps then
      M_put (mkSketch (sk_width s) (sk_depth s) (sk_buckets s) (sk_slice s)
               (clear_row <$> sk_reads s) (clear_row <$> sk_writes s) 0 now')
    else
      let '(head, rd, wr) := sketch_steps (Z.to_nat steps) (sk_buckets s) (sk_head s) (sk_reads s) (sk_writes s) in
      M_put (mkSketch (sk_width s) (sk_depth s) (sk_buckets s) (sk_slice s) rd wr head
               (sk_headStart s + steps * sk_slice s)).

(** [for _, c := range cells { table[c]++ }] on uint32 counters; the cells are
    inside the table. *)
Definition bump_cells (cells : list nat) (t : list Z) : list Z :=
  foldl (λ t c, alter (λ n, u32 (n + 1)) c t) t cells.

Definition Sketch_record (isRead : bool) (now now' : Z) (key : string) : M Sketch unit :=
  s ← M_get;
  let cells := Sketch_cells s key in
  Sketch_rollLocked now now';;
  s ← M_get;
  let bump := alter (bump_cells cells) (Z.to_nat (sk_head s)) in
  M_put (if isRead
         then mkSketch (sk_width s) (sk_depth s) (sk_buckets s) (sk_slice s) (bump (sk_reads s)) (sk_writes s)
                (sk_head s) (sk_headStart s)
         else mkSketch (sk_width s) (sk_depth s) (sk_buckets s) (sk_slice s) (sk_reads s) (bump (sk_writes s))
                (sk_head s) (sk_headStart s)).

Definition row_min (cells : list nat) (t : list Z) : Z :=
  foldl (λ m c, let v := default 0 (t !! c) in if v <? m then v else m) (2 ^ 32 - 1) cells.

Definition Sketch_estimateLocked (tables : list (list Z)) (cells : list nat) : Z :=
  foldl (λ total t, u32 (total + row_min cells t)) 0 tables.

Definition Sketch_Counts (now now' : Z) (key : string) : M Sketch (Z * Z) :=
  s ← M_get;
  let cells := Sketch_cells s key in
  Sketch_rollLocked now now';;
  s ← M_get;
  mret (Sketch_estimateLocked (sk_reads s) cells, Sketch_estimateLocked (sk_writes s) cells).

(** ** The policy *)

Record PolicyOptions := mkPolicyOptions {
  po_AdmitRatio : float64;
  po_EvictRatio : float64;
  po_MinSamples : Z;
  po_MinDwell : Z;
  po_DefaultAdmit : bool;
}.

(** [st_Since]: [None] is the zero time. *)
Record KeyState := mkKeyState {
  st_Reads : Z; st_Writes : Z; st_Admitted : bool; st_Since : option Z; st_Now : Z;
}.

Inductive reason := TooFewSamples | HeldByDwell | AboveAdmit | BelowEvict | InsideBand.

Record admission_Decision := mkDecision { dc_Admit : bool; dc_Ratio : float64; dc_Reason : reason }.

Definition f_inf : float64 := S754_infinity false.

Definition Ratio (reads writes : Z) : float64 :=
  if writes =? 0 then (if reads =? 0 then f_zero else f_inf)
  else f_div (f_of_int reads) (f_of_int writes).

Definition NewPolicy (opts : PolicyOptions) : PolicyOptions :=
  let ar := if f_le (po_AdmitRatio opts) f_zero then f_of_int 20 else po_AdmitRatio opts in
  let er := if f_le (po_EvictRatio opts) f_zero || f_lt ar (po_EvictRatio opts)
            then f_div ar (f_of_int 2) else po_EvictRatio opts in
  mkPolicyOptions ar er
    (if po_MinSamples opts =? 0 then 20 else po_MinSamples opts)
    (if po_MinDwell opts <? 0 then 0 else po_MinDwell opts) (po_DefaultAdmit opts).

Definition NewPolicyChecked (opts : PolicyOptions) : result PolicyOptions :=
  if f_le (po_AdmitRatio opts) f_zero then Err (Errorf "admission: admit_ratio must be positive")
  else if f_le (po_EvictRatio opts) f_zero then Err (Errorf "admission: evict_ratio must be positive")
  else if f_lt (po_AdmitRatio opts) (po_EvictRatio opts) then
    Err (Errorf "admission: evict_ratio is above admit_ratio")
  else if po_MinDwell opts <? 0 then Err (Errorf "admission: min_dwell must not be negative")
  else Ok (NewPolicy opts).

Definition Policy_Decide (p : PolicyOptions) (s : KeyState) : admission_Decision :=
  let ratio := Ratio (st_Reads s) (st_Writes s) in
  let total := u32 (st_Reads s + st_Writes s) in
  if total <? po_MinSamples p then mkDecision (po_DefaultAdmit p) ratio TooFewSamples
  else if (0 <? po_MinDwell p) &&
          match st_Since s with Some since => Time_Sub (st_Now s) since <? po_MinDwell p | None => false end
       then mkDecision (st_Admitted s) ratio HeldByDwell
  else if negb (st_Admitted s) && f_le (po_AdmitRatio p) ratio then mkDecision true ratio AboveAdmit
  else if st_Admitted s && f_lt ratio (po_EvictRatio p) then mkDecision false ratio BelowEvict
  else mkDecision (st_Admitted s) ratio InsideBand.

(** ** The controller *)

(** The states in the order of the list, most recently decided first; [byKey]
    indexes the same elements. *)
Record keyState := mkkeyState { ks_key : string; ks_admitted : bool; ks_since : Z }.

Record Controller := mkController {
  ct_sketch : Sketch;
  ct_policy : PolicyOptions;
  ct_bound : Z;
  ct_order : list keyState;
}.

Definition defaultStatesTracked : Z := 100000.

Definition NewController (sketch : option Sketch) (policy : PolicyOptions) (statesTracked now : Z) : Controller :=
  mkController (match sketch with Some s => s | None => NewSketch (mkSketchOptions 0 0 0 0) now end) policy
    (if statesTracked <=? 0 then defaultStatesTracked else statesTracked) [].

Definition on_sketch {A} (m : M Sketch A) : M Controller A := λ c,
  let '(r, s) := m (ct_sketch c) in (r, mkController s (ct_policy c) (ct_bound c) (ct_order c)).

Definition Controller_RecordRead (now now' : Z) (key : string) : M Controller unit :=
  on_sketch (Sketch_record true now now' key).
Definition Controller_RecordWrite (now now' : Z) (key : string) : M Controller unit :=
  on_sketch (Sketch_record false now now' key).

(** The states after the lookup, the key's own at the front. *)
Definition touch_state (bound : Z) (order : list keyState) (key : string) (now : Z) : keyState * list keyState :=
  match List.find (λ s, bool_decide (ks_key s = key)) order with
  | Some s => (s, filter (λ s', ks_key s' ≠ key) order)
  | None =>
      (mkkeyState key true now,
       if bound <=? Z.of_nat (length order) then take (length order - 1) order else order)
  end.

(** [Explain]; [now], [now'] are the sketch's readings and [at_] the controller's. *)
Definition Controller_Explain (now now' at_ : Z) (key : string) : M Controller admission_Decision :=
  counts ← on_sketch (Sketch_Counts now now' key);
  c ← M_get;
  let '(state, rest) := touch_state (ct_bound c) (ct_order c) key at_ in
  let d := Policy_Decide (ct_policy c)
             (mkKeyState counts.1 counts.2 (ks_admitted state) (Some (ks_since state)) at_) in
  let state := if Bool.eqb (dc_Admit d) (ks_admitted state) then state
               else mkkeyState key (dc_Admit d) at_ in
  M_put (mkController (ct_sketch c) (ct_policy c) (ct_bound c) (state :: rest));;
  mret d.

Definition Controller_ShouldCache (now now' at_ : Z) (key : string) : M Controller bool :=
  d ← Controller_Explain now now' at_ key; mret (dc_Admit d).

Definition Controller_Counts (now now' : Z) (key : string) : M Controller (Z * Z) :=
  on_sketch (Sketch_Counts now now' key).

Definition Controller_TrackedKeys (c : Controller) : Z := Z.of_nat (length (ct_order c)).

(** ** Lemmas: no operation returns an error *)

Lemma Sketch_rollLocked_no_err now now' s er : (Sketch_rollLocked now now' s).1 ≠ Err er.
Proof.
  unfold Sketch_rollLocked. mrun. case_ifs; try done. by destruct (sketch_steps _ _ _ _ _) as [[h rd] wr].
Qed.

Lemma Sketch_record_no_err r now now' key s er : (Sketch_record r now now' key s).1 ≠ Err er.
Proof.
  unfold Sketch_record. mrun. pose proof (Sketch_rollLocked_no_err now now' s er).
  destruct (Sketch_rollLocked now now' s) as [[u|e|m] s']; cbn in *; [done|congruence|done].
Qed.

Lemma Controller_ShouldCache_no_err now now' at_ key c er : (Controller_ShouldCache now now' at_ key c).1 ≠ Err er.
Proof.
  unfold Controller_ShouldCache, Controller_Explain, on_sketch, Sketch_Counts. mrun.
  pose proof (Sketch_rollLocked_no_err now now' (ct_sketch c) er).
  destruct (Sketch_rollLocked now now' (ct_sketch c)) as [[u|e|m] s']; cbn in *; [|congruence|done].
  by destruct (touch_state _ _ _ _).
Qed.

Lemma Controller_record_no_err r now now' key c er :
  (on_sketch (Sketch_record r now now' key) c).1 ≠ Err er.
Proof.
  unfold on_sketch. pose proof (Sketch_record_no_err r now now' key (ct_sketch c) er).
  by destruct (Sketch_record r now now' key (ct_sketch c)).
Qed.

(** ** Lemmas: cells *)

Lemma sketch_cell_range width key row :
  0 < width → row * width ≤ sketch_cell width key row < (row + 1) * width.
Proof.
  intros Hw. unfold sketch_cell. rewrite (proj2 (Z.leb_gt _ _)) by lia. set (x := splitMix64 _).
  pose proof (Z.mod_pos_bound x width Hw) as Hm. change (2 ^ 31 - 1) with (Z.ones 31).
  rewrite Z.land_ones by lia. pose proof (Z.mod_pos_bound (x mod width) (2 ^ 31) ltac:(lia)).
  pose proof (Z.mod_le (x mod width) (2 ^ 31) ltac:(lia) ltac:(lia)). lia.
Qed.

(** A key's cells in a sketch of the given dimensions. *)
Definition cells_of (width depth : Z) (key : string) : list nat :=
  (λ d : nat, Z.to_nat (sketch_cell width key (Z.of_nat d))) <$> seq 0 (Z.to_nat depth).

Lemma cells_of_NoDup width depth key : 0 < width → NoDup (cells_of width depth key).
Proof.
  intros Hw. apply NoDup_fmap_2_strong; [|apply NoDup_seq]. intros i j _ _ He.
  pose proof (sketch_cell_range width key (Z.of_nat i) Hw). pose proof (sketch_cell_range width key (Z.of_nat j) Hw).
  apply Z2Nat.inj in He; [|nia..]. destruct (Nat.lt_total i j) as [Hij|[Hij|Hij]]; [exfalso; nia|done|exfalso; nia].
Qed.

Lemma cells_of_range width depth key c :
  0 < width → c ∈ cells_of width depth key → (c < Z.to_nat (width * depth))%nat.
Proof.
  intros Hw (d & -> & Hd%elem_of_seq)%list_elem_of_fmap.
  pose proof (sketch_cell_range width key (Z.of_nat d) Hw). apply Z2Nat.inj_lt; nia.
Qed.

Lemma bump_cells_length cells t : length (bump_cells cells t) = length t.
Proof.
  unfold bump_cells. revert t. induction cells as [|c cells IH]; intros t; [done|]. simpl.
  by rewrite IH, length_alter.
Qed.

Lemma bump_cells_lookup cells t i :
  NoDup cells →
  bump_cells cells t !! i = (if decide (i ∈ cells) then (λ n, u32 (n + 1)) <$> t !! i else t !! i).
Proof.
  unfold bump_cells. revert t. induction cells as [|c cells IH]; intros t Hnd.
  { cbn [foldl]. case_decide as Hd; [by apply elem_of_nil in Hd|done]. }
  apply NoDup_cons in Hnd as [Hc Hnd]. cbn [foldl]. rewrite IH by done.
  destruct (decide (i = c)) as [->|Hne].
  - rewrite decide_False by done. rewrite decide_True by left. by rewrite list_lookup_alter_eq.
  - rewrite list_lookup_alter_ne by done.
    destruct (decide (i ∈ cells)); [rewrite decide_True by (by right); done|].
    rewrite decide_False; [done|]. by intros [->|?]%elem_of_cons.
Qed.

(** ** Lemmas: what a bucket counts *)

Abbreviation access := (Z * (bool * string))%type.

Section tables.
Context (width depth : Z) (Hwidth : 0 < width) (isRead : bool).
Let N : nat := Z.to_nat (width * depth).

Definition sketch_tally (evs : list access) : list Z :=
  foldr (λ ev t, if Bool.eqb ev.2.1 isRead then bump_cells (cells_of width depth ev.2.2) t else t)
        (replicate N 0) evs.

(** The accesses of this kind that hit a cell, and those of a key. *)
Definition hits (c : nat) (evs : list access) : nat :=
  length (filter (λ ev, ev.2.1 = isRead ∧ c ∈ cells_of width depth ev.2.2) evs).

Definition accesses (key : string) (evs : list access) : nat :=
  length (filter (λ ev, ev.2 = (isRead, key)) evs).

Definition accesses_all (evs : list access) : nat :=
  length (filter (λ ev, ev.2.1 = isRead) evs).

Lemma tally_length evs : length (sketch_tally evs) = N.
Proof.
  induction evs as [|ev evs IH]; simpl; [apply length_replicate|].
  case_match; [by rewrite bump_cells_length|done].
Qed.

Lemma tally_lookup evs c : (c < N)%nat → sketch_tally evs !! c = Some (u32 (Z.of_nat (hits c evs))).
Proof.
  intros Hc. induction evs as [|ev evs IH]; simpl; [by rewrite lookup_replicate_2|].
  unfold hits in *. rewrite filter_cons. destruct (Bool.eqb ev.2.1 isRead) eqn:Er.
  - apply eqb_prop in Er. rewrite bump_cells_lookup by by apply cells_of_NoDup. rewrite IH.
    destruct (decide (c ∈ cells_of width depth ev.2.2)) as [Hin|Hin].
    + case_decide as Hd; [|by destruct Hd]. cbn [length fmap option_fmap option_map]. f_equal.
      unfold u32. rewrite Zplus_mod_idemp_l. f_equal. lia.
    + case_decide as Hd; [by destruct Hd|done].
  - case_decide as Hd; [|done]. destruct Hd as [He _]. rewrite He, Bool.eqb_reflx in Er. done.
Qed.

Lemma filter_length_mono {A} (P Q : A → Prop) `{!∀ x, Decision (P x)} `{!∀ x, Decision (Q x)} (l : list A) :
  (∀ x, P x → Q x) → (length (filter P l) ≤ length (filter Q l))%nat.
Proof.
  intros HPQ. induction l as [|x l IH]; [done|]. rewrite !filter_cons.
  pose proof (HPQ x). repeat case_decide; simpl; try lia. tauto.
Qed.

Lemma accesses_hits key c evs :
  c ∈ cells_of width depth key → (accesses key evs ≤ hits c evs ≤ accesses_all evs)%nat.
Proof.
  intros Hc. split; apply filter_length_mono.
  - intros [t [b k]] [= -> ->]. done.
  - by intros x [? _].
Qed.

(** The minimum over a key's rows counts at least its accesses, and at most
    everything. *)
Lemma row_min_spec key evs :
  0 < depth → Z.of_nat (length evs) < 2 ^ 32 →
  Z.of_nat (accesses key evs) ≤ row_min (cells_of width depth key) (sketch_tally evs) ≤
  Z.of_nat (accesses_all evs).
Proof.
  intros Hd Hlen. unfold row_min.
  pose proof (λ P HP, @length_filter access P HP evs) as Hf.
  assert (∀ cells m, (∀ c, c ∈ cells → c ∈ cells_of width depth key) →
    Z.of_nat (accesses key evs) ≤ m →
    Z.of_nat (accesses key evs) ≤ foldl (λ m c, let v := default 0 (sketch_tally evs !! c) in if v <? m then v else m) m cells ∧
    (cells ≠ [] ∨ m ≤ Z.of_nat (accesses_all evs) →
     foldl (λ m c, let v := default 0 (sketch_tally evs !! c) in if v <? m then v else m) m cells ≤ Z.of_nat (accesses_all evs))) as H.
  { induction cells as [|c cells IH]; intros m Hin Hm; cbn [foldl].
    { split; [done|]. by intros [?|?]. }
    assert (c ∈ cells_of width depth key) as Hc by (apply Hin; left).
    pose proof (accesses_hits key c evs Hc) as Hh. pose proof (Hf (λ ev, ev.2.1 = isRead) _) as Hall.
    unfold accesses_all in *.
    rewrite tally_lookup by by eapply cells_of_range. cbn [default from_option id].
    rewrite u32_id by (unfold is_u32; lia).
    destruct (IH (if Z.of_nat (hits c evs) <? m then Z.of_nat (hits c evs) else m)) as [H1 H2].
    - intros c' Hc'. apply Hin. by right.
    - destruct (Z.ltb_spec (Z.of_nat (hits c evs)) m); lia.
    - split; [done|]. intros _. apply H2. right. destruct (Z.ltb_spec (Z.of_nat (hits c evs)) m); lia. }
  destruct (H (cells_of width depth key) (2 ^ 32 - 1) (λ c H, H)) as [H1 H2].
  - pose proof (Hf (λ ev, ev.2 = (isRead, key)) _). unfold accesses. lia.
  - split; [done|]. apply H2. left. unfold cells_of. intros He. apply fmap_nil_inv in He.
    apply (f_equal length) in He. rewrite length_seq in He. simpl in He. lia.
Qed.
End tables.

(** ** Lemmas: the ring of tables *)

Lemma clear_row_replicate t n : length t = n → clear_row t = replicate n 0.
Proof.
  intros <-. unfold clear_row. induction t as [|x t IH]; [done|]. cbn. f_equal. exact IH.
Qed.

(** The source's loop over both tables is the stepping loop on each. *)
Lemma sketch_steps_roll N steps : ∀ head rd wr,
  length rd = length wr → Forall (λ t, length t = N) rd → Forall (λ t, length t = N) wr →
  0 < Z.of_nat (length rd) →
  sketch_steps steps (Z.of_nat (length rd)) head rd wr =
    let '(h, rd') := roll_steps (replicate N 0) steps head rd in
    (h, rd', (roll_steps (replicate N 0) steps head wr).2).
Proof.
  assert (∀ (l : list (list Z)) i, Forall (λ t, length t = N) l →
    alter clear_row i l = <[i := replicate N 0]> l) as Ha.
  { intros l i Hl. destruct (l !! i) as [t|] eqn:E.
    - rewrite Forall_lookup in Hl. apply list_eq. intros j. destruct (decide (i = j)) as [<-|Hne].
      + rewrite list_lookup_alter_eq, E, list_lookup_insert_eq by (by eapply lookup_lt_Some).
        cbn. f_equal. by apply clear_row_replicate, (Hl i).
      + by rewrite list_lookup_alter_ne, list_lookup_insert_ne.
    - apply lookup_ge_None in E. rewrite list_insert_ge by done. apply list_eq. intros j.
      destruct (decide (i = j)) as [<-|Hne]; [|by rewrite list_lookup_alter_ne].
      rewrite list_lookup_alter_eq. by rewrite (proj2 (lookup_ge_None l i) E). }
  induction steps as [|steps IH]; intros head rd wr Hl Hrd Hwr Hpos; cbn [sketch_steps roll_steps]; [done|].
  rewrite !Ha by done. rewrite <-Hl. set (h := Z.to_nat _).
  assert (∀ l : list (list Z), Forall (λ t, length t = N) l →
    Forall (λ t, length t = N) (<[h := replicate N 0]> l)) as Hins.
  { intros l Hall. apply Forall_insert; [done|apply length_replicate]. }
  specialize (IH ((head + 1) mod Z.of_nat (length rd)) (<[h := replicate N 0]> rd) (<[h := replicate N 0]> wr)).
  rewrite !length_insert in IH. apply IH; [done|by apply Hins..|done].
Qed.

Definition sketch_N (s : Sketch) : nat := Z.to_nat (sk_width s * sk_depth s).

(** The sketch is in step with a history of accesses. *)
Definition sketch_tracks (s : Sketch) (evs : list access) : Prop :=
  0 < sk_width s ∧ 0 < sk_depth s ∧ Z.of_nat (length (sk_reads s)) = sk_buckets s ∧
  length (sk_reads s) = length (sk_writes s) ∧
  ring_ok (sketch_tally (sk_width s) (sk_depth s) true) (sk_slice s) (sk_head s) (sk_headStart s) (sk_reads s) evs ∧
  ring_ok (sketch_tally (sk_width s) (sk_depth s) false) (sk_slice s) (sk_head s) (sk_headStart s) (sk_writes s) evs.

(** The parts of a sketch that no operation changes. *)
Definition same_shape (s s' : Sketch) : Prop :=
  sk_width s' = sk_width s ∧ sk_depth s' = sk_depth s ∧ sk_buckets s' = sk_buckets s ∧ sk_slice s' = sk_slice s.

Lemma ring_rows width depth r bk head start bs evs :
  ring_ok (sketch_tally width depth r) bk head start bs evs →
  Forall (λ t, length t = Z.to_nat (width * depth)) bs.
Proof.
  intros Hr. rewrite (ring_slots (replicate (Z.to_nat (width * depth)) 0) _ _ _ _ _ _ Hr).
  apply Forall_fmap, Forall_forall. intros d _. apply tally_length.
Qed.

Lemma sketch_roll s evs now now' :
  sketch_tracks s evs → sk_headStart s ≤ now ≤ now' → now - sk_headStart s < 2 ^ 63 →
  ∃ s', Sketch_rollLocked now now' s = (Ok tt, s') ∧ sketch_tracks s' evs ∧ same_shape s s' ∧
    sk_headStart s ≤ sk_headStart s' ∧ now - sk_slice s < sk_headStart s' ≤ now'.
Proof.
  intros (Hw & Hd & Hlen & Hlw & Hr & Hwr) Hnow Hsat.
  pose proof (tr_len _ _ _ _ _ _ Hr) as Hpos. pose proof (tr_bk _ _ _ _ _ _ Hr) as Hbk.
  pose proof (tr_head _ _ _ _ _ _ Hr) as Hhead.
  unfold Sketch_rollLocked, Time_Sub. mrun. rewrite Z.min_r, Z.max_r by lia.
  destruct (Z.ltb_spec (now - sk_headStart s) (sk_slice s)) as [Hlt|Hge].
  { exists s. split_and!; try done; lia. }
  rewrite (proj2 (Z.eqb_neq _ _)) by lia. set (steps := (now - sk_headStart s) / sk_slice s).
  pose proof (Z.div_mod (now - sk_headStart s) (sk_slice s) ltac:(lia)) as Hdm. fold steps in Hdm.
  pose proof (Z.mod_pos_bound (now - sk_headStart s) (sk_slice s) Hbk) as Hmod.
  assert (1 ≤ steps) as H1 by (apply Z.div_le_lower_bound; lia).
  pose proof (ring_rows _ _ _ _ _ _ _ _ Hr) as Hrows. pose proof (ring_rows _ _ _ _ _ _ _ _ Hwr) as Hwrows.
  destruct (Z.leb_spec (sk_buckets s) steps) as [Hall|Hsome].
  - eexists. split; [done|]. rewrite <-Hlen in Hall.
    assert (∀ r bs, length bs = length (sk_reads s) → Forall (λ t, length t = sketch_N s) bs →
      ring_ok (sketch_tally (sk_width s) (sk_depth s) r) (sk_slice s) (sk_head s) (sk_headStart s) bs evs →
      ring_ok (sketch_tally (sk_width s) (sk_depth s) r) (sk_slice s) 0 now' (clear_row <$> bs) evs) as Hc.
    { intros r bs Hl Hb Hok. eapply (ring_clear (replicate (sketch_N s) 0) _ eq_refl _ _ _ _ _ _ _ Hok).
      - rewrite Hl. nia.
      - apply length_fmap.
      - intros i Hi. rewrite list_lookup_fmap. destruct (lookup_lt_is_Some_2 _ _ Hi) as [t Ht]. rewrite Ht.
        cbn. f_equal. apply clear_row_replicate. rewrite Forall_lookup in Hb. by apply (Hb i). }
    split; [|split; [done|cbn; lia]]. unfold sketch_tracks. cbn.
    rewrite !length_fmap. split_and!; [done..|apply Hc; done|apply Hc; done].
  - rewrite <-Hlen, (sketch_steps_roll (sketch_N s)) by done.
    destruct (roll_steps _ _ _ (sk_reads s)) as [h rd] eqn:Erd.
    destruct (roll_steps _ _ _ (sk_writes s)) as [h' wr] eqn:Ewr. cbn [snd].
    rewrite <-Hlen in Hsome.
    destruct (ring_roll (replicate (sketch_N s) 0) _ eq_refl _ _ _ _ _ steps _ _ Hr ltac:(lia) Erd) as [Hl1 Hok1].
    destruct (ring_roll (replicate (sketch_N s) 0) _ eq_refl _ _ _ _ _ steps _ _ Hwr ltac:(lia) Ewr) as [Hl2 Hok2].
    assert (h' = h) as ->.
    { pose proof (roll_steps_spec (replicate (sketch_N s) 0) (Z.to_nat steps) (sk_head s) (sk_reads s) Hhead ltac:(lia)) as H2.
      pose proof (roll_steps_spec (replicate (sketch_N s) 0) (Z.to_nat steps) (sk_head s) (sk_writes s)
        ltac:(lia) ltac:(lia)) as H3.
      rewrite Erd in H2. rewrite Ewr in H3. destruct H2 as [-> _], H3 as [-> _]. by rewrite Hlw. }
    eexists. split; [done|]. split; [|split; [by split_and!|cbn; nia]].
    unfold sketch_tracks. cbn. split_and!; [done|done|lia|congruence|done|done].
Qed.

Lemma sketch_record_tracks s evs r key now now' :
  sketch_tracks s evs → sk_headStart s ≤ now ≤ now' → now - sk_headStart s < 2 ^ 63 →
  ∃ s' at_, Sketch_record r now now' key s = (Ok tt, s') ∧ sketch_tracks s' ((at_, (r, key)) :: evs) ∧
    same_shape s s' ∧ now ≤ at_ ≤ now' ∧ sk_headStart s ≤ sk_headStart s' ≤ now'.
Proof.
  intros Ht Hnow Hsat.
  destruct (sketch_roll s evs now now' Ht Hnow Hsat) as (s1 & Hroll & (Hw & Hd & Hlen & Hlw & Hr & Hwr) & Hsh & Hmono & Hhs).
  unfold Sketch_record. rewrite (M_bind_run _ _ s s s) by done. cbv zeta.
  rewrite (M_bind_run _ _ _ _ _ Hroll).
  pose proof (tr_bk _ _ _ _ _ _ Hr) as Hbk. pose proof (tr_head _ _ _ _ _ _ Hr) as Hhead.
  assert (Sketch_cells s key = cells_of (sk_width s1) (sk_depth s1) key) as Hcells.
  { destruct Hsh as (-> & -> & _). done. }
  rewrite Hcells. set (at_ := Z.max now (sk_headStart s1)).
  assert (∀ r' bs, length bs = length (sk_reads s1) →
    ring_ok (sketch_tally (sk_width s1) (sk_depth s1) r') (sk_slice s1) (sk_head s1) (sk_headStart s1) bs evs →
    ring_ok (sketch_tally (sk_width s1) (sk_depth s1) r') (sk_slice s1) (sk_head s1) (sk_headStart s1)
      (if Bool.eqb r r' then alter (bump_cells (cells_of (sk_width s1) (sk_depth s1) key)) (Z.to_nat (sk_head s1)) bs else bs)
      ((at_, (r, key)) :: evs)) as Hrec.
  { intros r' bs Hl Hok. assert (Z.to_nat (sk_head s1) < length bs)%nat as Hi by lia.
    destruct (lookup_lt_is_Some_2 _ _ Hi) as [t Ht0].
    assert ((if Bool.eqb r r' then alter (bump_cells (cells_of (sk_width s1) (sk_depth s1) key)) (Z.to_nat (sk_head s1)) bs else bs) =
      <[Z.to_nat (sk_head s1) := if Bool.eqb r r' then bump_cells (cells_of (sk_width s1) (sk_depth s1) key) t else t]> bs) as ->.
    { destruct (Bool.eqb r r'); [|by rewrite list_insert_id]. apply list_eq. intros j.
      destruct (decide (Z.to_nat (sk_head s1) = j)) as [<-|Hne].
      - by rewrite list_lookup_alter_eq, list_lookup_insert_eq, Ht0.
      - by rewrite list_lookup_alter_ne, list_lookup_insert_ne. }
    apply ring_record; [done|unfold at_; cbn; destruct Hsh as (_ & _ & _ & Hs); lia|].
    intros k Hk Htally. rewrite Ht0 in Hk. injection Hk as ->. cbn. by rewrite Htally. }
  assert (at_ <= now' ∧ now ≤ at_) as Hat by (unfold at_; lia).
  pose proof (Hrec true (sk_reads s1) eq_refl Hr) as H1.
  pose proof (Hrec false (sk_writes s1) (eq_sym Hlw) Hwr) as H2.
  mrun. destruct r; cbn [Bool.eqb] in H1, H2; eexists _, at_;
    (split; [reflexivity|]); (split; [|split; [exact Hsh|cbn; lia]]);
    unfold sketch_tracks; cbn; rewrite ?length_alter; by split_and!.
Qed.

(** ** Lemmas: estimates *)

Lemma estimate_sum tables cells :
  Sketch_estimateLocked tables cells = u32 (sum_of (row_min cells) tables).
Proof.
  unfold Sketch_estimateLocked. rewrite <-(Z.add_0_l (sum_of _ _)).
  assert (∀ z, foldl (λ total t, u32 (total + row_min cells t)) (u32 z) tables =
               u32 (z + sum_of (row_min cells) tables)) as H; [|exact (H 0)].
  induction tables as [|t tables IH]; intros z; simpl; [by rewrite Z.add_0_r|].
  replace (u32 (u32 z + row_min cells t)) with (u32 (z + row_min cells t))
    by (unfold u32; by rewrite Zplus_mod_idemp_l).
  rewrite IH. f_equal. lia.
Qed.

(** The accesses of the kept slots. *)
Definition since {X} (cutoff : Z) (evs : list (Z * X)) : list (Z * X) := filter (λ ev, cutoff ≤ ev.1) evs.

Definition kept_from (s : Sketch) : Z := sk_headStart s - (sk_buckets s - 1) * sk_slice s.

Lemma ring_estimate width depth r bk head start tables evs key :
  0 < width → 0 < depth → Z.of_nat (length evs) < 2 ^ 32 →
  ring_ok (sketch_tally width depth r) bk head start tables evs →
  let kept := since (start - (Z.of_nat (length tables) - 1) * bk) evs in
  Z.of_nat (accesses r key kept) ≤ Sketch_estimateLocked tables (cells_of width depth key) ≤
  Z.of_nat (accesses_all r kept).
Proof.
  intros Hw Hd Hlen Hr kept. pose proof (tr_bk _ _ _ _ _ _ Hr) as Hbk.
  rewrite estimate_sum, (sum_of_Permutation _ _ _ (ring_slots (replicate (Z.to_nat (width * depth)) 0) _ _ _ _ _ _ Hr)).
  rewrite sum_of_fmap.
  assert (filter (in_slot (start - (Z.of_nat (length tables) - 1) * bk) (Z.of_nat (length tables) * bk)) evs = kept) as Hk.
  { apply filter_ext_in. intros ev Hev. pose proof (tr_past _ _ _ _ _ _ Hr) as Hp.
    rewrite Forall_forall in Hp. specialize (Hp _ Hev). unfold in_slot. nia. }
  assert (∀ d : nat, let slot := filter (in_slot (start - Z.of_nat d * bk) bk) evs in
    Z.of_nat (accesses r key slot) ≤ row_min (cells_of width depth key) (sketch_tally width depth r slot) ≤
    Z.of_nat (accesses_all r slot)) as Hslot.
  { intros d slot. apply row_min_spec; [done..|].
    pose proof (length_filter (in_slot (start - Z.of_nat d * bk) bk) evs). subst slot. lia. }
  pose proof (slots_count (λ ev : access, ev.2 = (r, key)) start bk evs (length tables) Hbk) as Hlo.
  pose proof (slots_count (λ ev : access, ev.2.1 = r) start bk evs (length tables) Hbk) as Hhi.
  rewrite Hk in Hlo, Hhi. unfold accesses at 1, accesses_all at 1. rewrite <-Hlo, <-Hhi.
  match goal with |- _ ≤ u32 ?z ≤ ?hi => assert (z ≤ hi) as H2 end.
  { apply sum_of_mono. intros d _. apply Hslot. }
  match goal with |- ?lo ≤ u32 ?z ≤ _ => assert (lo ≤ z) as H1 end.
  { apply sum_of_mono. intros d _. apply Hslot. }
  pose proof (length_filter (λ ev : access, ev.2.1 = r) kept).
  pose proof (length_filter (λ ev : access, start - (Z.of_nat (length tables) - 1) * bk ≤ ev.1) evs) as Hf.
  fold (since (start - (Z.of_nat (length tables) - 1) * bk) evs) in Hf. fold kept in Hf.
  rewrite u32_id; [lia|]. unfold is_u32. rewrite Hlo in H1. rewrite Hhi in H2. lia.
Qed.

Lemma NewSketch_tracks opts now : 0 < sk_slice (NewSketch opts now) → sketch_tracks (NewSketch opts now) [].
Proof.
  unfold NewSketch, sketch_tracks. cbv zeta. cbn. unfold defaultWidth, defaultDepth, defaultBuckets.
  set (w := if so_Width opts <=? 0 then _ else _). set (d := if so_Depth opts <=? 0 then _ else _).
  set (b := if so_Buckets opts <=? 0 then _ else _). intros Hs.
  assert (0 < w ∧ 0 < d ∧ 0 < b) as (Hw & Hd & Hb) by (subst w d b; case_ifs; zsolve).
  rewrite length_replicate. split_and!; [done..|lia|done| |]; by apply ring_new.
Qed.

(** ** Runs *)

(** One call of [RecordRead] ([true]) or [RecordWrite], with its two readings of
    the clock. *)
Abbreviation recorded := (bool * string * (Z * Z))%type.

Fixpoint Sketch_run (ops : list recorded) : M Sketch unit :=
  match ops with
  | [] => mret tt
  | (r, key, (now, now')) :: ops => Sketch_record r now now' key;; Sketch_run ops
  end.

Lemma Sketch_run_tracks ops : ∀ s evs from last,
  sketch_tracks s evs → sk_headStart s ≤ from → in_order from ops last → last - sk_headStart s < 2 ^ 63 →
  ∃ s' evs', Sketch_run ops s = (Ok tt, s') ∧ sketch_tracks s' (evs' ++ evs) ∧ same_shape s s' ∧
    Forall2 (λ (op : recorded) (ev : access), ev.2 = op.1 ∧ op.2.1 ≤ ev.1 ≤ op.2.2) (reverse ops) evs' ∧
    sk_headStart s ≤ sk_headStart s' ≤ last.
Proof.
  induction ops as [|[[r key] [now now']] ops IH]; intros s evs from last Ht Hf Ho Hsat; cbn [Sketch_run].
  - exists s, []. simpl in Ho. split_and!; try done; lia.
  - destruct Ho as [Hn Ho]. pose proof (in_order_le _ _ _ Ho).
    destruct (sketch_record_tracks s evs r key now now' Ht ltac:(lia) ltac:(lia))
      as (s1 & at_ & Hr & Ht1 & Hsh1 & Hat & Hhs1).
    destruct (IH s1 _ now' last Ht1 ltac:(lia) Ho ltac:(lia)) as (s2 & evs2 & Hrun & Ht2 & Hsh2 & HF & Hhs2).
    exists s2, (evs2 ++ [(at_, (r, key))]). rewrite (M_bind_run _ _ _ _ _ Hr), <-app_assoc, reverse_cons.
    split_and!; [done|done| | |lia|lia].
    + destruct Hsh1 as (? & ? & ? & ?), Hsh2 as (? & ? & ? & ?). split_and!; congruence.
    + apply Forall2_app; [done|]. apply Forall2_cons. simpl. split; [by split|done].
Qed.

(** ** Lemmas: the policy *)

(** Evidence a decision acts on, and a dwell that is over. *)
Definition enough (p : PolicyOptions) (s : KeyState) : bool :=
  po_MinSamples p <=? u32 (st_Reads s + st_Writes s).

Definition dwelt (p : PolicyOptions) (s : KeyState) : Prop :=
  0 < po_MinDwell p → ∀ t, st_Since s = Some t → po_MinDwell p ≤ Time_Sub (st_Now s) t.

(** The ratio asks for the other state. *)
Definition crossed (p : PolicyOptions) (s : KeyState) : Prop :=
  let ratio := Ratio (st_Reads s) (st_Writes s) in
  if st_Admitted s then f_lt ratio (po_EvictRatio p) = true else f_le (po_AdmitRatio p) ratio = true.

Lemma Policy_Decide_cases p s :
  (enough p s = false ∧ dc_Admit (Policy_Decide p s) = po_DefaultAdmit p) ∨
  (enough p s = true ∧
   ((dc_Admit (Policy_Decide p s) = negb (st_Admitted s) ∧ dwelt p s ∧ crossed p s) ∨
    (dc_Admit (Policy_Decide p s) = st_Admitted s ∧ ¬ (dwelt p s ∧ crossed p s)))).
Proof.
  unfold Policy_Decide, enough, dwelt, crossed. cbv zeta.
  rewrite (Z.leb_antisym (u32 _)). destruct (_ <? po_MinSamples p) eqn:E; simpl; [by left|]. right.
  split; [done|]. destruct ((0 <? po_MinDwell p) && _) eqn:Ed.
  - right. split; [done|]. intros [Hd _]. apply andb_true_iff in Ed as [Hp Hs]. apply Z.ltb_lt in Hp.
    destruct (st_Since s) as [t|]; [|done]. specialize (Hd Hp t eq_refl). zify_bool. lia.
  - assert (0 < po_MinDwell p → ∀ t, st_Since s = Some t → po_MinDwell p ≤ Time_Sub (st_Now s) t) as Hd.
    { intros Hp t Ht. rewrite Ht, (proj2 (Z.ltb_lt _ _) Hp) in Ed. simpl in Ed. zify_bool. lia. }
    destruct (st_Admitted s); cbn [negb andb].
    + destruct (f_lt _ _) eqn:Ef; [left; done|]. right. split; [done|]. intros [_ [=]].
    + destruct (f_le _ _) eqn:Ef; [left; done|]. right. split; [done|]. intros [_ [=]].
Qed.

Lemma f_le_lt_contra a b x : f_lt a b = false → f_le a x = true → f_lt x b = true → False.
Proof.
  intros Hab Hax Hxb. destruct (f_le_not_nan _ _ Hax) as [Ha Hx].
  destruct (f_le_not_nan _ _ (f_lt_le _ _ Hxb)) as [_ Hb].
  pose proof (f_not_lt _ _ Ha Hb Hab) as Hba. pose proof (f_le_trans b a x Hb Ha Hx Hba Hax) as Hbx.
  apply f_lt_key in Hxb; [|done..]. apply f_le_key in Hbx; [|done..]. by apply Hxb.
Qed.

(** ** Lemmas: the controller *)

Definition tracked (order : list keyState) (key : string) : option keyState :=
  List.find (λ s, bool_decide (ks_key s = key)) order.

Definition order_ok (c : Controller) : Prop :=
  0 < ct_bound c ∧ NoDup (ks_key <$> ct_order c) ∧ Z.of_nat (length (ct_order c)) ≤ ct_bound c.

Lemma tracked_key order key st : tracked order key = Some st → ks_key st = key ∧ st ∈ order.
Proof.
  intros [Hin Hk]%List.find_some. apply bool_decide_eq_true in Hk. split; [done|]. by apply list_elem_of_In.
Qed.

Lemma tracked_none order key : tracked order key = None → key ∉ (ks_key <$> order).
Proof.
  intros Hn (st & -> & Hin)%list_elem_of_fmap.
  pose proof (List.find_none _ _ Hn st (proj1 (list_elem_of_In _ _) Hin)) as H.
  by apply bool_decide_eq_false in H.
Qed.

Lemma filter_keys (order : list keyState) key :
  ks_key <$> filter (λ s, ks_key s ≠ key) order = filter (λ k, k ≠ key) (ks_key <$> order).
Proof.
  induction order as [|s order IH]; [done|]. cbn [fmap list_fmap]. rewrite !filter_cons.
  repeat case_decide; cbn [fmap list_fmap]; rewrite ?IH; done.
Qed.

(** Moving a key's element to the front, or making room for a new one, keeps the
    list a bounded set of keys. *)
Lemma touch_state_ok bound order key now st rest :
  0 < bound → NoDup (ks_key <$> order) → Z.of_nat (length order) ≤ bound →
  touch_state bound order key now = (st, rest) →
  ks_key st = key ∧ st = default (mkkeyState key true now) (tracked order key) ∧
  key ∉ (ks_key <$> rest) ∧ NoDup (ks_key <$> rest) ∧ Z.of_nat (length rest) < bound ∧
  ∀ s, s ∈ rest → s ∈ order.
Proof.
  intros Hb Hnd Hlen. unfold touch_state. fold (tracked order key).
  destruct (tracked order key) as [s|] eqn:Et; intros [= <- <-].
  - destruct (tracked_key _ _ _ Et) as [Hk Hin]. split_and!; [done|done| | | |].
    + rewrite filter_keys. intros [? _]%list_elem_of_filter. done.
    + rewrite filter_keys. by apply NoDup_filter.
    + assert (length (filter (λ s', ks_key s' ≠ key) order) < length order)%nat; [|lia].
      apply length_filter_lt with s; [done|]. by intros ?.
    + by intros s' [_ ?]%list_elem_of_filter.
  - pose proof (tracked_none _ _ Et) as Hn.
    assert (∀ n s, s ∈ take n order → s ∈ order) as Htake.
    { intros n s (i & Hi & _)%elem_of_take. by apply list_elem_of_lookup_2 in Hi. }
    destruct (Z.leb_spec bound (Z.of_nat (length order))).
    + split_and!; [done|done| | | |apply Htake].
      * intros (s & -> & Hs%Htake)%list_elem_of_fmap. by apply Hn, list_elem_of_fmap_2.
      * rewrite fmap_take. eapply sublist_NoDup; [done|apply sublist_take].
      * rewrite length_take. lia.
    + split_and!; [done..|lia|done].
Qed.

(** ** Properties *)

(** The sketch never under-counts.  After any run of recorded accesses under a
    monotone clock, the estimates of a key's reads and writes at time [now] are
    at least its accesses since a cutoff and at most all accesses of that kind
    since then; the cutoff is less than the kept span and at least that span
    minus one slice in the past.  (The counters are [uint32]: the run is shorter
    than [2^32].) *)
Theorem Sketch_counts_window opts t0 ops last now key :
  let s := NewSketch opts t0 in
  0 < sk_slice s → in_order t0 ops last → last ≤ now → now - t0 < 2 ^ 63 →
  Z.of_nat (length ops) < 2 ^ 32 →
  ∃ s1 s2 rd wr evs cutoff,
    Sketch_run ops s = (Ok tt, s1) ∧ Sketch_Counts now now key s1 = (Ok (rd, wr), s2) ∧
    Forall2 (λ (op : recorded) (ev : access), ev.2 = op.1 ∧ op.2.1 ≤ ev.1 ≤ op.2.2) (reverse ops) evs ∧
    Z.of_nat (accesses true key (since cutoff evs)) ≤ rd ≤ Z.of_nat (accesses_all true (since cutoff evs)) ∧
    Z.of_nat (accesses false key (since cutoff evs)) ≤ wr ≤ Z.of_nat (accesses_all false (since cutoff evs)) ∧
    now - sk_buckets s * sk_slice s < cutoff ≤ now - (sk_buckets s - 1) * sk_slice s.
Proof.
  intros s Hs Ho Hlast Hsat Hlen. pose proof (NewSketch_tracks opts t0 Hs) as Ht.
  pose proof (in_order_le _ _ _ Ho). assert (sk_headStart s = t0) as Hh by done.
  destruct (Sketch_run_tracks ops s [] t0 last Ht ltac:(lia) Ho ltac:(lia))
    as (s1 & evs & Hrun & Ht1 & (Hw1 & Hd1 & Hb1 & Hs1) & HF & Hhs1). rewrite app_nil_r in Ht1.
  destruct (sketch_roll s1 evs now now Ht1 ltac:(lia) ltac:(lia))
    as (s2 & Hroll & (Hw & Hd & Hlr & Hlw & Hr & Hwr) & (Hw2 & Hd2 & Hb2 & Hs2) & Hmono & Hhs2).
  exists s1, s2, (Sketch_estimateLocked (sk_reads s2) (cells_of (sk_width s2) (sk_depth s2) key)),
    (Sketch_estimateLocked (sk_writes s2) (cells_of (sk_width s2) (sk_depth s2) key)), evs, (kept_from s2).
  assert (Z.of_nat (length evs) < 2 ^ 32) as Hl.
  { apply Forall2_length in HF. rewrite length_reverse in HF. lia. }
  rewrite Hb1 in Hb2. rewrite Hs1 in Hs2. rewrite Hs1 in Hhs2.
  assert (kept_from s2 = sk_headStart s2 - (sk_buckets s - 1) * sk_slice s) as Hkept
    by (unfold kept_from; by rewrite Hb2, Hs2).
  pose proof (ring_estimate _ _ _ _ _ _ _ _ key Hw Hd Hl Hr) as Her.
  pose proof (ring_estimate _ _ _ _ _ _ _ _ key Hw Hd Hl Hwr) as Hew.
  cbv zeta in Her, Hew. rewrite Hlr in Her. rewrite <-Hlw, Hlr in Hew. fold (kept_from s2) in Her, Hew.
  split; [done|]. split; [|split; [done|split; [exact Her|split; [exact Hew|lia]]]].
  unfold Sketch_Counts. rewrite (M_bind_run _ _ s1 s1 s1) by done. cbv zeta.
  rewrite (M_bind_run _ _ _ _ _ Hroll). mrun. unfold cells_of. rewrite Hw2, Hd2. done.
Qed.

(** Hysteresis.  Under a policy that [NewPolicyChecked] accepts, a decision on
    enough evidence changes a key's state exactly when the dwell is over and the
    ratio is across the threshold for leaving that state, and no change is undone
    by the same evidence, whenever it is judged again.  With too little evidence
    the default is taken whatever the state. *)
Theorem Policy_Decide_hysteresis opts p s s' :
  NewPolicyChecked opts = Ok p →
  st_Reads s' = st_Reads s → st_Writes s' = st_Writes s → st_Admitted s' = dc_Admit (Policy_Decide p s) →
  if enough p s then
    (dc_Admit (Policy_Decide p s) ≠ st_Admitted s ↔ dwelt p s ∧ crossed p s) ∧
    (dc_Admit (Policy_Decide p s) ≠ st_Admitted s →
     dc_Admit (Policy_Decide p s') = dc_Admit (Policy_Decide p s))
  else dc_Admit (Policy_Decide p s) = po_DefaultAdmit p.
Proof.
  intros Hp Hrd Hwr Hadm.
  assert (f_lt (po_AdmitRatio p) (po_EvictRatio p) = false) as Hband.
  { unfold NewPolicyChecked in Hp.
    destruct (f_le (po_AdmitRatio opts) f_zero) eqn:E1; [done|].
    destruct (f_le (po_EvictRatio opts) f_zero) eqn:E2; [done|].
    destruct (f_lt (po_AdmitRatio opts) (po_EvictRatio opts)) eqn:E3; [done|].
    destruct (po_MinDwell opts <? 0); [done|]. apply Ok_inj in Hp as <-. unfold NewPolicy. cbn.
    by rewrite E1, E2, E3. }
  destruct (Policy_Decide_cases p s) as [[-> H]|[Hen H]]; [done|]. rewrite Hen.
  assert (enough p s' = enough p s) as He by (unfold enough; by rewrite Hrd, Hwr).
  destruct H as [(H & Hd & Hc)|(H & Hn)]; rewrite H in *.
  - split; [split; [done|by destruct (st_Admitted s)]|]. intros _.
    destruct (Policy_Decide_cases p s') as [[Hs' H']|[Hs' [(H' & _ & Hc')|(H' & _)]]];
      [congruence|exfalso|congruence].
    unfold crossed in Hc, Hc'. rewrite Hadm, Hrd, Hwr in Hc'.
    destruct (st_Admitted s); cbn [negb] in Hc'; by eapply f_le_lt_contra.
  - split; [split; [done|by intros ?%Hn]|done].
Qed.

(** A decision of the controller keeps its list of states a set of at most
    [bound] keys with the key just decided in front, and moves that key's state
    only as the policy says: on enough evidence the state flips exactly when it
    has dwelt and its ratio has crossed, and only a flip restarts the dwell. *)
Theorem Controller_Explain_spec c key now now' at_ rd wr sk :
  order_ok c → Sketch_Counts now now' key (ct_sketch c) = (Ok (rd, wr), sk) →
  let p := ct_policy c in
  let old := default (mkkeyState key true at_) (tracked (ct_order c) key) in
  let st := mkKeyState rd wr (ks_admitted old) (Some (ks_since old)) at_ in
  ∃ d c' new rest, Controller_Explain now now' at_ key c = (Ok d, c') ∧ order_ok c' ∧
    ct_sketch c' = sk ∧ ct_order c' = new :: rest ∧ ks_key new = key ∧ ks_admitted new = dc_Admit d ∧
    (∀ s, s ∈ rest → s ∈ ct_order c ∧ ks_key s ≠ key) ∧
    if enough p st then
      dc_Admit d = negb (ks_admitted old) ∧ ks_since new = at_ ∧ dwelt p st ∧ crossed p st ∨
      new = old ∧ ¬ (dwelt p st ∧ crossed p st)
    else dc_Admit d = po_DefaultAdmit p.
Proof.
  intros (Hb & Hnd & Hlen) Hc p old st. unfold Controller_Explain.
  rewrite (M_bind_run _ _ c (rd, wr) (mkController sk (ct_policy c) (ct_bound c) (ct_order c)))
    by (unfold on_sketch; by rewrite Hc).
  mrun. cbn [ct_bound ct_order ct_policy ct_sketch].
  destruct (touch_state (ct_bound c) (ct_order c) key at_) as [st0 rest] eqn:Et.
  destruct (touch_state_ok _ _ _ _ _ _ Hb Hnd Hlen Et) as (Hk & Ho & Hni & Hnd' & Hlen' & Hsub).
  fold old in Ho. subst st0. fold st p.
  set (new := if Bool.eqb (dc_Admit (Policy_Decide p st)) (ks_admitted old) then old
              else mkkeyState key (dc_Admit (Policy_Decide p st)) at_).
  assert (ks_key new = key ∧ ks_admitted new = dc_Admit (Policy_Decide p st)) as [Hnk Hna].
  { subst new. destruct (Bool.eqb _ _) eqn:E; [|done]. apply eqb_prop in E. by rewrite E. }
  eexists _, (mkController sk p (ct_bound c) (new :: rest)), new, rest.
  split; [reflexivity|]. split_and!; try done.
  - unfold order_ok. cbn [ct_bound ct_order fmap list_fmap length]. rewrite Hnk, NoDup_cons.
    split_and!; [done..|lia].
  - intros s Hs. split; [by apply Hsub|]. intros He. apply Hni. apply list_elem_of_fmap. by exists s.
  - destruct (Policy_Decide_cases p st) as [[-> H]|[-> [(H & Hd & Hx)|(H & Hn)]]]; [done|left|right].
    + subst new. rewrite H. cbn. split_and!; [done| |done|done]. by destruct (ks_admitted old).
    + subst new. rewrite H. cbn. by rewrite Bool.eqb_reflx.
Qed.

(** ** Witnesses *)

Definition small_sketch : SketchOptions := mkSketchOptions 8 2 600 6.

Definition demo_policy (default_ : bool) : PolicyOptions :=
  mkPolicyOptions (f_of_int 20) (f_of_int 10) 4 1000 default_.

Definition reads_of (key : string) (n : nat) (at_ : Z) : list recorded := replicate n (true, key, (at_, at_)).
Definition writes_of (key : string) (n : nat) (at_ : Z) : list recorded := replicate n (false, key, (at_, at_)).

Lemma Sketch_counts_window_witness :
  ∃ s1 s2 rd wr evs cutoff,
    Sketch_run (reads_of "a" 2 10 ++ writes_of "b" 1 450) (NewSketch small_sketch 0) = (Ok tt, s1) ∧
    Sketch_Counts 650 650 "a" s1 = (Ok (rd, wr), s2) ∧
    Forall2 (λ (op : recorded) (ev : access), ev.2 = op.1 ∧ op.2.1 ≤ ev.1 ≤ op.2.2)
      (reverse (reads_of "a" 2 10 ++ writes_of "b" 1 450)) evs ∧
    Z.of_nat (accesses true "a" (since cutoff evs)) ≤ rd ≤ Z.of_nat (accesses_all true (since cutoff evs)) ∧
    Z.of_nat (accesses false "a" (since cutoff evs)) ≤ wr ≤ Z.of_nat (accesses_all false (since cutoff evs)) ∧
    650 - 600 < cutoff ≤ 650 - 500.
Proof.
  exact (Sketch_counts_window small_sketch 0 (reads_of "a" 2 10 ++ writes_of "b" 1 450) 450 650 "a"
    ltac:(vm_compute; reflexivity) ltac:(vm_compute; intuition congruence) ltac:(lia) ltac:(lia)
    ltac:(vm_compute; reflexivity)).
Defined.

Lemma Policy_Decide_hysteresis_witness :
  let s := mkKeyState 3 1 true (Some 0) 5000 in
  dc_Admit (Policy_Decide (demo_policy true) s) = false ∧
  dc_Admit (Policy_Decide (demo_policy true) (mkKeyState 3 1 false (Some 5000) 9000)) = false.
Proof.
  split; [vm_compute; reflexivity|].
  pose proof (Policy_Decide_hysteresis (demo_policy true) (demo_policy true)
    (mkKeyState 3 1 true (Some 0) 5000) (mkKeyState 3 1 false (Some 5000) 9000)
    ltac:(vm_compute; reflexivity) eq_refl eq_refl ltac:(vm_compute; reflexivity)) as [_ H].
  apply H. vm_compute. congruence.
Defined.

(** A controller that has seen ten writes and no read of a key admitted at 0. *)
Definition churned (default_ : bool) : Controller :=
  mkController (Sketch_run (writes_of "k" 10 700) (NewSketch small_sketch 0)).2 (demo_policy default_) 2
    [mkkeyState "k" true 0; mkkeyState "l" true 3].

Lemma Controller_Explain_spec_witness :
  ∃ d c' new rest, Controller_Explain 1200 1200 1200 "k" (churned true) = (Ok d, c') ∧ order_ok c' ∧
    ct_order c' = new :: rest ∧ ks_key new = "k" ∧ ks_admitted new = dc_Admit d.
Proof.
  destruct (Controller_Explain_spec (churned true) "k" 1200 1200 1200 0 10
      (Sketch_Counts 1200 1200 "k" (ct_sketch (churned true))).2)
    as (d & c' & new & rest & H1 & H2 & _ & H3 & H4 & H5 & _).
  - unfold order_ok. split_and!; [vm_compute; reflexivity| |vm_compute; congruence].
    apply (bool_decide_unpack _). vm_compute. exact I.
  - vm_compute. reflexivity.
  - exact (ex_intro _ d (ex_intro _ c' (ex_intro _ new (ex_intro _ rest
      (conj H1 (conj H2 (conj H3 (conj H4 H5)))))))).
Defined.

(** The dwell does not bound the flip rate.  A key evicted on its evidence at
    time 1200 is admitted again 110 ns later, about a tenth of the minimum dwell,
    once its counts have left the window and the default applies. *)
Theorem Controller_dwell_bypassed :
  let c1 := (Controller_Explain 1200 1200 1200 "k" (churned true)).2 in
  (Controller_Explain 1200 1200 1200 "k" (churned true)).1 = Ok (mkDecision false f_zero BelowEvict) ∧
  (Controller_Explain 1310 1310 1310 "k" c1).1 = Ok (mkDecision true f_zero TooFewSamples) ∧
  po_MinDwell (ct_policy c1) = 1000.
Proof. split_and!; vm_compute; reflexivity. Qed.
