(* ===== verification/CacheClient.v ===== *)
(** The cache-side data path: [src/internal/cache/client.go] and [entry.go].

    The client's world is the cache nodes (one [Redis] state per address) and
    the breaker group; clock readings, random draws, the server's time and the
    fate of the network call are the inputs [io] of each operation. *)

From S2P Require Import Prelude GoStd Floats Ring Version Redis LuaCache Breaker.

Local Open Scope Z_scope.

(** ** Entries *)

(** [Row] is a [[]byte]: [None] is the nil slice. *)
Record Entry := mkEntry {
  RowVersion : Z;
  FillVersion : Z;
  Row : option string;
  Fingerprint : string;
  Negative : bool;
}.

Definition corrupt (what : string) : error := Wrapf what (Sentinel ErrCorruptEntry).

(** [entryFromLua]: [res] is the reply's elements, a nil being [None]; the
    callers have checked that there are four. *)
Definition entryFromLua (res : list (option string)) : result Entry :=
  match res with
  | [rv; fv; r; n] =>
      match rv with
      | None => Err (corrupt "row version")
      | Some rvRaw =>
          rv ← decodeVersion rvRaw;
          fv ← match fv with Some fvRaw => decodeVersion fvRaw | None => Ok 0 end;
          Ok (mkEntry rv fv r "" (match n with Some n => bool_decide (n = "1") | None => false end))
      end
  | _ => Panic "runtime error: index out of range"
  end.

Definition leaseKey (key : string) : string := key +:+ String (byte_of 0) "lease".

(** ** The client *)

Definition DefaultLeaseTTL : Z := 2000000000.

Definition DefaultBreaker : Options :=
  mkOptions 10000000000 10 20 (f_ratio 5 100) (f_ratio 95 100).

Record CacheOptions := mkCacheOptions {
  co_Fingerprint : string;
  co_Addresses : list string;
  co_TTL : Z;
  co_Breaker : Options;
  co_LeaseTTL : Z;
}.

Record Client := mkClient {
  cl_router : cache_Router;
  cl_pools : gset string;
  cl_ttl : Z;
  cl_leaseTTL : Z;
  cl_fingerprint : string;
}.

(** One round of the connecting loop: a node that does not answer its boot probe
    fails the whole construction. *)
Definition connect (ping : string → result unit) (pools : result (gset string)) (addr : string) :
    result (gset string) :=
  pools ← pools;
  match ping addr with
  | Ok _ => Ok ({[addr]} ∪ pools)
  | Err e => Err (Wrapf "cache: ping" e)
  | Panic w => Panic w
  end.

(** [New]: [ping addr] is whether the boot probe of a node succeeded. *)
Definition cache_New (opts : CacheOptions) (now : Z) (ping : string → result unit) :
    result (Client * Group) :=
  if bool_decide (co_Addresses opts = []) then Err (Errorf "cache: no addresses configured")
  else if co_TTL opts <=? 0 then Err (Errorf "cache: ttl must be positive")
  else
    router ← cache_NewRouter (co_Addresses opts);
    let bopts := if (Window (co_Breaker opts) =? 0) && (Buckets (co_Breaker opts) =? 0)
                 then DefaultBreaker else co_Breaker opts in
    breakers ← NewGroup bopts now;
    let leaseTTL := if co_LeaseTTL opts <=? 0 then DefaultLeaseTTL else co_LeaseTTL opts in
    pools ← foldl (connect ping) (Ok ∅) (cRouter_nodes router);
    Ok (mkClient router pools (co_TTL opts) leaseTTL (co_Fingerprint opts), breakers).

(** [time.Duration.Milliseconds]. *)
Definition Milliseconds (d : Z) : Z := Z.quot d 1000000.

Inductive fault :=
  | Answered                     (* the node executed the script and its reply arrived *)
  | NilReply                     (* the driver reported [redis.Nil] *)
  | NotExecuted (e : error)      (* the call failed before the node executed it *)
  | ReplyLost (e : error).       (* the node executed it, the caller saw an error *)

(** The inputs of one operation: breaker clock readings (at creation, at Allow,
    at Success or Failure), the random draw, the server's milliseconds, the fate
    of the call and the random lease token. *)
Record io := mkIO {
  io_created : Z;
  io_allow : Z * Z;
  io_record : Z * Z;
  io_rand : float64;
  io_server : Z;
  io_fault : fault;
  io_token : result string;
}.

Inductive LeaseResult :=
  | LeaseHit (e : Entry)
  | LeaseGranted (token : string)
  | LeaseWait
  | LeaseShed.

Section client.
  Context {R : Type} `{Redis R}.

Record World := mkWorld { w_nodes : gmap string R; w_breakers : Group }.

Definition on_breaker {A} (node : string) (i : io) (m : M Breaker A) : M World A := λ w,
  let '(r, g) := Group_For node (io_created i) m (w_breakers w) in (r, mkWorld (w_nodes w) g).

Definition Allow (node : string) (i : io) : M World bool :=
  on_breaker node i (Breaker_Allow (io_allow i).1 (io_allow i).2 (io_rand i)).
Definition Success (node : string) (i : io) : M World unit :=
  on_breaker node i (Breaker_Success (io_record i).1 (io_record i).2).
Definition Failure (node : string) (i : io) : M World unit :=
  on_breaker node i (Breaker_Failure (io_record i).1 (io_record i).2).

(** A script call on a node: the driver's reply or error. [None] is
    [redis.Nil]. *)
Definition run_script {A} (node : string) (f : fault) (m : M R A) : M World (option A + error) := λ w,
  match w_nodes w !! node with
  | None => (Ok (inr (Errorf "dial")), w)
  | Some r =>
      match f with
      | NotExecuted e => (Ok (inr e), w)
      | NilReply => (Ok (inl None), w)
      | ReplyLost e =>
          (Ok (inr e), mkWorld (<[node := (m r).2]> (w_nodes w)) (w_breakers w))
      | Answered =>
          (match (m r).1 with
           | Ok a => Ok (inl (Some a))
           | Err e => Ok (inr e)
           | Panic p => Panic p
           end, mkWorld (<[node := (m r).2]> (w_nodes w)) (w_breakers w))
      end
  end.

Definition Client_poolFor (c : Client) (key : string) : result string :=
  node ← Router_NodeFor (cl_router c) key;
  if bool_decide (node ∈ cl_pools c) then Ok node
  else Err (Errorf "cache: no connection pool for node").

Definition Client_Get (c : Client) (i : io) (key : string) : M World (option Entry) :=
  node ← M_lift (Client_poolFor c key);
  ok ← Allow node i;
  if negb ok then mret None
  else
    res ← run_script node (io_fault i) (read_script (io_server i) key (cl_fingerprint c));
    match res with
    | inl None => Success node i;; mret None
    | inr err => Failure node i;; M_fail (Wrapf "cache: get" err)
    | inl (Some res) =>
        Success node i;;
        if bool_decide (length res = 0%nat) then mret None
        else if bool_decide (length res ≠ 4%nat) then
          M_fail (Wrapf "cache: get" (corrupt "fields"))
        else
          match entryFromLua res with
          | Ok entry => mret (Some entry)
          | Err err => M_fail (Wrapf "cache: get" err)
          | Panic p => M_panic p
          end
    end.

Definition Client_FillWithLease (c : Client) (i : io) (key : string) (e : Entry) (token : string) :
    M World bool :=
  node ← M_lift (Client_poolFor c key);
  ok ← Allow node i;
  if negb ok then mret false
  else
    let negative := if Negative e then "1" else "0" in
    res ← run_script node (io_fault i)
            (fill_cas (io_server i) key (leaseKey key)
               (encodeVersion (RowVersion e)) (encodeVersion (FillVersion e)) (default "" (Row e))
               negative (Milliseconds (cl_ttl c)) (cl_fingerprint c) token);
    match res with
    | inr err => Failure node i;; M_fail (Wrapf "cache: fill" err)
    | inl None => Failure node i;; M_fail (Wrapf "cache: fill" (Errorf "redis: nil"))
    | inl (Some applied) => Success node i;; mret (applied =? 1)
    end.

Definition Client_Fill (c : Client) (i : io) (key : string) (e : Entry) : M World bool :=
  Client_FillWithLease c i key e "".

Definition Client_GetOrLease (c : Client) (i : io) (key : string) : M World LeaseResult :=
  node ← M_lift (Client_poolFor c key);
  ok ← Allow node i;
  if negb ok then mret LeaseShed
  else
    token ← M_lift (io_token i);
    res ← run_script node (io_fault i)
            (read_lease (io_server i) key (leaseKey key) token
               (Milliseconds (cl_leaseTTL c)) (cl_fingerprint c));
    match res with
    | inr err => Failure node i;; M_fail (Wrapf "cache: get-or-lease" err)
    | inl None => Failure node i;; M_fail (Wrapf "cache: get-or-lease" (Errorf "redis: nil"))
    | inl (Some reply) =>
        Success node i;;
        match reply with
        | ReplyHit fields =>
            if bool_decide (S (length fields) ≠ 5%nat) then
              M_fail (Wrapf "cache: get-or-lease" (corrupt "fields"))
            else
              match entryFromLua fields with
              | Ok entry => mret (LeaseHit entry)
              | Err err => M_fail (Wrapf "cache: get-or-lease" err)
              | Panic p => M_panic p
              end
        | ReplyGranted => mret (LeaseGranted token)
        | ReplyWait => mret LeaseWait
        end
    end.

(** Not gated by the breaker. *)
Definition Client_Tombstone (c : Client) (i : io) (key : string) (version : Z) : M World bool :=
  node ← M_lift (Client_poolFor c key);
  res ← run_script node (io_fault i)
          (tombstone_cas (io_server i) key (encodeVersion version) (Milliseconds (cl_ttl c)));
  match res with
  | inr err => Failure node i;; M_fail (Wrapf "cache: tombstone" err)
  | inl None => Failure node i;; M_fail (Wrapf "cache: tombstone" (Errorf "redis: nil"))
  | inl (Some applied) => Success node i;; mret (applied =? 1)
  end.

(** [RemainingTTL], in milliseconds; the second component is whether the entry
    is there. *)
Definition Client_RemainingTTL (c : Client) (i : io) (key : string) : M World (Z * bool) :=
  node ← M_lift (Client_poolFor c key);
  res ← run_script node (io_fault i) (PTTL (io_server i) key);
  match res with
  | inr err => M_fail (Wrapf "cache: ttl" err)
  | inl None => M_fail (Wrapf "cache: ttl" (Errorf "redis: nil"))
  | inl (Some d) =>
      if d =? -2 then mret (0, false)
      else if d =? -1 then M_fail (Errorf "cache: entry has no expiry set")
      else mret (d, true)
  end.

(** [Flush]: every node in order, stopping at the first error. *)
Definition Client_Flush (c : Client) (flt : string → fault) : M World unit :=
  foldr (λ addr rest,
    res ← run_script addr (flt addr) FLUSHDB;
    match res with
    | inr err => M_fail (Wrapf "cache: flush" err)
    | inl _ => rest
    end) (mret tt) (cRouter_nodes (cl_router c)).

End client.
Arguments World R : clear implicits.

(** ** Lemmas *)

Lemma leaseKey_ne key : key ≠ leaseKey key.
Proof.
  intros He. apply (f_equal str_len) in He. unfold leaseKey in He. rewrite str_len_app in He.
  change (str_len (String (byte_of 0) "lease")) with 6 in He. lia.
Qed.

(** The breakers are in working order at time [t]: configured with buckets of at
    least a nanosecond, and not ahead of the clock. *)
Definition group_ok (t : Z) (g : Group) : Prop :=
  0 ≤ t < 2 ^ 62 ∧ (∀ now, is_ok (breaker_New (g_opts g) now) = true) ∧
  Buckets (g_opts g) ≤ Window (g_opts g) ∧
  ∀ node b, g_breakers g !! node = Some b → (∃ evs, tracks b evs) ∧ 0 ≤ b_headStart b ≤ t.

(** The clock readings of an operation that starts at [t] and ends by [t']. *)
Definition io_ok (t : Z) (i : io) (t' : Z) : Prop :=
  t ≤ io_created i ≤ (io_allow i).1 ∧ (io_allow i).1 ≤ (io_allow i).2 ≤ (io_record i).1 ∧
  (io_record i).1 ≤ (io_record i).2 ≤ t' ∧ t' < 2 ^ 62.

Lemma group_ok_later t t' g : group_ok t g → t ≤ t' < 2 ^ 62 → group_ok t' g.
Proof.
  intros (Ht & HN & Hb & Hg) Hle. split_and!; [lia|lia|done|done|].
  intros node b Hl. destruct (Hg node b Hl) as [? ?]. split; [done|lia].
Qed.

(** Any step on a node's breaker that keeps its ring in order. *)
Lemma on_breaker_ok {R} `{Redis R} {A} node i (m : M Breaker A) (w : World R) t T t' :
  group_ok t (w_breakers w) → 0 ≤ io_created i ≤ T → t ≤ T ≤ t' → t' < 2 ^ 62 →
  (∀ b evs, tracks b evs → 0 ≤ b_headStart b ≤ T →
     ∃ a b' evs', m b = (Ok a, b') ∧ tracks b' evs' ∧ b_headStart b ≤ b_headStart b' ≤ t') →
  ∃ a w', on_breaker node i m w = (Ok a, w') ∧ w_nodes w' = w_nodes w ∧
    group_ok t' (w_breakers w').
Proof.
  intros Hg Hc HT Ht' Hm. pose proof Hg as (Ht & HN & Hb & Hgs).
  unfold on_breaker, Group_For.
  assert (∃ b evs, (match g_breakers (w_breakers w) !! node with
           | Some b => Ok b
           | None => match breaker_New (g_opts (w_breakers w)) (io_created i) with
                     | Ok b => Ok b | _ => Panic "breaker: group options became invalid" end
           end) = Ok b ∧ tracks b evs ∧ 0 ≤ b_headStart b ≤ T) as (b & evs & -> & Htr & Hhs).
  { destruct (g_breakers (w_breakers w) !! node) as [b|] eqn:E.
    - destruct (Hgs node b E) as [[evs Htr] Hhs]. exists b, evs. split_and!; [done|done|lia..].
    - pose proof (HN (io_created i)) as Hn.
      destruct (breaker_New (g_opts (w_breakers w)) (io_created i)) as [b|?|?] eqn:E'; [|done..].
      exists b, []. pose proof (New_tracks _ _ _ E' Hb) as Htr.
      apply breaker_New_ok in E' as (_ & _ & _ & Heq).
      split_and!; [done|done| |]; subst b; simpl; lia. }
  destruct (Hm b evs Htr Hhs) as (a & b' & evs' & -> & Htr' & Hhs').
  exists a, (mkWorld (w_nodes w) (mkGroup (g_opts (w_breakers w))
               (<[node := b']> (g_breakers (w_breakers w))))).
  split_and!; [done|done|]. split_and!; simpl; [lia|lia|done|done|].
  intros node' b0 [[<- <-]|[_ Hl]]%lookup_insert_Some.
  - split; [by exists evs'|lia].
  - destruct (Hgs node' b0 Hl) as [? ?]. split; [done|lia].
Qed.

Lemma Breaker_Allow_ok b evs now now' rand :
  tracks b evs → b_headStart b ≤ now ≤ now' → now - b_headStart b < 2 ^ 63 →
  ∃ ok b', Breaker_Allow now now' rand b = (Ok ok, b') ∧ tracks b' evs ∧
    b_headStart b ≤ b_headStart b' ≤ now'.
Proof.
  intros Ht Hn Hs. destruct (roll_tracks b evs now now' Ht Hn Hs) as (b' & Hr & Ht' & _ & _ & _ & Hm & Hh).
  unfold Breaker_Allow, Breaker_ShedProbability, Breaker_shedLocked.
  unfold mbind, M_bind. rewrite Hr. unfold M_get, mret, M_ret.
  destruct (Breaker_countLocked b') as [s f]. destruct (f_le _ f_zero);
    (do 2 eexists; split; [done|]; split; [done|lia]).
Qed.

Section spec.
  Context {R : Type} `{RedisLaws R}.

Lemma Allow_ok node i (w : World R) t t' :
  group_ok t (w_breakers w) → io_ok t i t' →
  ∃ ok w', Allow node i w = (Ok ok, w') ∧ w_nodes w' = w_nodes w ∧
    group_ok (io_allow i).2 (w_breakers w').
Proof.
  intros Hg (Hi1 & Hi2 & Hi3 & Hi4). pose proof Hg as (? & _).
  apply (on_breaker_ok node i _ w t (io_allow i).1); [done|lia..|].
  intros b evs Ht Hhs.
  destruct (Breaker_Allow_ok b evs (io_allow i).1 (io_allow i).2 (io_rand i) Ht)
    as (ok & b' & E1 & E2 & E3); [lia|lia|]. by exists ok, b', evs.
Qed.

Lemma record_ok (ok : bool) node i (w : World R) t0 t t' :
  group_ok t0 (w_breakers w) → io_ok t i t' → 0 ≤ t → t0 ≤ (io_record i).1 →
  ∃ w', (if ok then Success node i else Failure node i) w = (Ok tt, w') ∧
    w_nodes w' = w_nodes w ∧ group_ok t' (w_breakers w').
Proof.
  intros Hg (Hi1 & Hi2 & Hi3 & Hi4) Ht0 Hle.
  assert (∃ a w', on_breaker node i (Breaker_record ok (io_record i).1 (io_record i).2) w = (Ok a, w') ∧
            w_nodes w' = w_nodes w ∧ group_ok t' (w_breakers w')) as ([] & w' & H1 & H2 & H3).
  { apply (on_breaker_ok node i _ w t0 (io_record i).1); [done|lia..|].
    intros b evs Ht Hhs.
    destruct (record_tracks b evs ok (io_record i).1 (io_record i).2 Ht)
      as (b' & n'' & E1 & E2 & _ & _ & _ & _ & E3); [lia|lia|].
    exists tt, b', ((n'', ok) :: evs). split_and!; [done|done|lia..]. }
  exists w'. by destruct ok.
Qed.

(** What a key's node holds: a cell and a lease, at the server's time. *)
Definition key_at (w : World R) (c : Client) (key : string) (now : Z) (x : cell) (e : option Z)
    (l : option (string * Z)) : Prop :=
  ∃ node r, Client_poolFor c key = Ok node ∧ w_nodes w !! node = Some r ∧
    holds r now key x e ∧ lease_holds r now (leaseKey key) l.

Lemma key_at_nodes w w' c key now x e l :
  w_nodes w' = w_nodes w → key_at w c key now x e l → key_at w' c key now x e l.
Proof. intros Hn (node & r & H1 & H2 & H3). exists node, r. by rewrite Hn. Qed.

(** A script call: what the caller learns and what the node did, by the fate of
    the call. *)
Definition script_outcome {A} (f : fault) (reply : A) : option A + error :=
  match f with
  | Answered => inl (Some reply)
  | NilReply => inl None
  | NotExecuted e | ReplyLost e => inr e
  end.

Definition executed (f : fault) : bool :=
  match f with Answered | ReplyLost _ => true | _ => false end.

Definition fault_ok (f : fault) : bool := match f with Answered => true | _ => false end.

Lemma run_script_spec {A} node f (m : M R A) (w : World R) r reply r' :
  w_nodes w !! node = Some r → m r = (Ok reply, r') →
  run_script node f m w =
    (Ok (script_outcome f reply),
     if executed f then mkWorld (<[node := r']> (w_nodes w)) (w_breakers w) else w).
Proof. intros Hw Hm. unfold run_script. rewrite Hw, Hm. by destruct f. Qed.

(** The boilerplate every operation shares once the node has been contacted:
    record the outcome on the breaker, and the nodes are as the script left
    them. *)
Lemma after_call {A} (w : World R) node (r' : R) i t0 t t' (ex ok : bool) (k : M (World R) A) res :
  group_ok t0 (w_breakers w) → io_ok t i t' → 0 ≤ t → t0 ≤ (io_record i).1 →
  (∀ w', k w' = (res, w')) →
  ∃ w', ((if ok then Success node i else Failure node i);; k)
          (if ex then mkWorld (<[node := r']> (w_nodes w)) (w_breakers w) else w) = (res, w') ∧
    w_nodes w' = (if ex then <[node := r']> (w_nodes w) else w_nodes w) ∧
    group_ok t' (w_breakers w').
Proof.
  intros Hg Hi Ht Hle Hk.
  set (w1 := if ex then mkWorld (<[node := r']> (w_nodes w)) (w_breakers w) else w).
  assert (group_ok t0 (w_breakers w1)) as Hg1 by (by destruct ex).
  destruct (record_ok ok node i w1 t0 t t' Hg1 Hi Ht Hle) as (w2 & H2 & Hn2 & Hg2).
  exists w2. rewrite (M_bind_run _ _ _ _ _ H2), Hk. split_and!; [done| |done].
  rewrite Hn2. unfold w1. by destruct ex.
Qed.

Lemma leases_apart c (w : World R) key now x e l node r r' :
  Client_poolFor c key = Ok node → w_nodes w !! node = Some r →
  holds r' now key x e → lease_holds r' now (leaseKey key) l →
  ∀ w', w_nodes w' = <[node := r']> (w_nodes w) → key_at w' c key now x e l.
Proof.
  intros Hp Hn Hh Hl w' Hw'. exists node, r'. rewrite Hw', lookup_insert_eq. done.
Qed.

Definition call_err (op : string) (f : fault) : error :=
  match f with
  | NotExecuted e | ReplyLost e => Wrapf op e
  | _ => Wrapf op (Errorf "redis: nil")
  end.

Lemma tombstone_run c i key v (w : World R) x e l t t' :
  group_ok t (w_breakers w) → io_ok t i t' → is_u64 v → 1000000 ≤ cl_ttl c →
  key_at w c key (io_server i) x e l →
  ∃ w', Client_Tombstone c i key v w =
      (if fault_ok (io_fault i) then Ok (tombstone_wins v x) else Err (call_err "cache: tombstone" (io_fault i)), w') ∧
    group_ok t' (w_breakers w') ∧
    if executed (io_fault i)
    then key_at w' c key (io_server i) (cell_tombstone v x)
           (if tombstone_wins v x then Some (io_server i + Milliseconds (cl_ttl c)) else e) l
    else w_nodes w' = w_nodes w.
Proof.
  intros Hg Hi Hv Httl (node & r & Hp & Hn & Hh & Hl). pose proof Hg as [Ht0 _].
  assert (0 < Milliseconds (cl_ttl c)) as Hms.
  { unfold Milliseconds. rewrite Z.quot_div_nonneg by lia. apply Z.div_str_pos. lia. }
  destruct (tombstone_cas_refines r (io_server i) key v x e _ Hh Hv Hms) as (r' & Hm & Hh' & Hoth).
  unfold Client_Tombstone.
  rewrite (M_bind_run _ _ w node w) by (unfold M_lift; by rewrite Hp).
  rewrite (M_bind_run _ _ _ _ _ (run_script_spec node (io_fault i) _ w r _ r' Hn Hm)).
  pose proof Hi as (Hi1 & Hi2 & Hi3 & Hi4).
  destruct (after_call w node r' i t t t' (executed (io_fault i)) (fault_ok (io_fault i))
    (if fault_ok (io_fault i) then mret (tombstone_wins v x) else M_fail (call_err "cache: tombstone" (io_fault i)))
    (if fault_ok (io_fault i) then Ok (tombstone_wins v x) else Err (call_err "cache: tombstone" (io_fault i))) Hg Hi)
    as (w' & Hw & Hn' & Hg'); [lia|lia|by destruct (fault_ok _)|].
  exists w'. split_and!; [|done|].
  - rewrite <-Hw. destruct (io_fault i); simpl; try done. by destruct (tombstone_wins v x).
  - destruct (executed (io_fault i)); [|done].
    eapply leases_apart; [done|done|done| |done]. unfold lease_holds.
    rewrite Hoth; [done|]. intros Heq. by apply (leaseKey_ne key).
Qed.

(** ** Properties *)

(** C23: an invalidation is never shed.  Whatever the breaker thinks of the node,
    Tombstone reaches it: if the node executes the script the cell becomes the
    tombstoned cell, the reported boolean is whether it won, and an invalidation
    whose reply is lost is reported as an error although it may have been
    applied; if it was not executed nothing changes. *)
Theorem Client_Tombstone_spec c i key v (w : World R) x e l t t' :
  group_ok t (w_breakers w) → io_ok t i t' → is_u64 v → 1000000 ≤ cl_ttl c →
  key_at w c key (io_server i) x e l →
  ∃ w', Client_Tombstone c i key v w =
      (if fault_ok (io_fault i) then Ok (tombstone_wins v x) else Err (call_err "cache: tombstone" (io_fault i)), w') ∧
    group_ok t' (w_breakers w') ∧
    if executed (io_fault i)
    then key_at w' c key (io_server i) (cell_tombstone v x)
           (if tombstone_wins v x then Some (io_server i + Milliseconds (cl_ttl c)) else e) l
    else w_nodes w' = w_nodes w.
Proof. apply tombstone_run. Qed.

(** The entry a caller gets for a stored value, and the value an entry is stored
    as by this client. *)
Definition entry_of (s : stored) : Entry := mkEntry (st_rv s) (st_fv s) (Some (st_row s)) "" (st_neg s).

Definition stored_of (c : Client) (e : Entry) : stored :=
  mkStored (RowVersion e) (FillVersion e) (default "" (Row e)) (Negative e) (cl_fingerprint c).

Lemma entryFromLua_fields s : stored_wf s → entryFromLua (fields_of s) = Ok (entry_of s).
Proof.
  intros [Hr Hf]. unfold entryFromLua, fields_of.
  rewrite (decodeVersion_encodeVersion _ Hr). mrun.
  rewrite (decodeVersion_encodeVersion _ Hf). mrun. unfold entry_of. f_equal. f_equal.
  destruct (st_neg s); reflexivity.
Qed.

Lemma cell_read_wf fp x s : cell_wf x → cell_read fp x = Some s → stored_wf s.
Proof.
  intros [_ Hs]. unfold cell_read. destruct (c_val x) as [s'|]; [|done].
  case_bool_decide; [|done]. intros [= ->]. by apply Hs.
Qed.

Lemma get_run c i key (w : World R) x e l node t t' :
  group_ok t (w_breakers w) → io_ok t i t' → Client_poolFor c key = Ok node →
  key_at w c key (io_server i) x e l →
  ∃ ok w', (Allow node i w).1 = Ok ok ∧
    Client_Get c i key w =
      (if negb ok then Ok None
       else match io_fault i with
            | Answered => Ok (entry_of <$> cell_read (cl_fingerprint c) x)
            | NilReply => Ok None
            | _ => Err (call_err "cache: get" (io_fault i))
            end, w') ∧
    w_nodes w' = w_nodes w ∧ group_ok t' (w_breakers w').
Proof.
  intros Hg Hi Hp (node' & r & Hp' & Hn & Hh & Hl). rewrite Hp in Hp'. injection Hp' as <-.
  pose proof Hg as [Ht0 _]. pose proof Hi as (Hi1 & Hi2 & Hi3 & Hi4).
  destruct (Allow_ok node i w t t' Hg Hi) as (ok & w1 & Hok & Hn1 & Hg1).
  exists ok. unfold Client_Get.
  rewrite (M_bind_run _ _ w node w) by (unfold M_lift; by rewrite Hp).
  rewrite (M_bind_run _ _ _ _ _ Hok), Hok. destruct ok; simpl.
  2: { exists w1. split_and!; [done|done|done|]. eapply group_ok_later; [done|lia]. }
  pose proof (read_refines r (io_server i) key (cl_fingerprint c) x e Hh) as Hm.
  rewrite <-Hn1 in Hn.
  rewrite (M_bind_run _ _ _ _ _ (run_script_spec node (io_fault i) _ w1 r _ r Hn Hm)).
  set (good := match io_fault i with Answered | NilReply => true | _ => false end).
  set (res := match io_fault i with
              | Answered => Ok (entry_of <$> cell_read (cl_fingerprint c) x)
              | NilReply => Ok None
              | _ => Err (call_err "cache: get" (io_fault i))
              end).
  destruct (after_call w1 node r i _ t t' (executed (io_fault i)) good (M_lift res) res Hg1 Hi)
    as (w' & Hw & Hn' & Hg'); [lia|lia|done|].
  exists w'. split_and!; [done| |rewrite Hn', <-Hn1|done].
  - rewrite <-Hw. unfold good, res, M_lift. destruct (io_fault i); simpl; try done.
    destruct (cell_read (cl_fingerprint c) x) as [s|] eqn:Es; [|done].
    cbn [length fields_of]. rewrite bool_decide_eq_false_2, bool_decide_eq_false_2 by auto.
    by rewrite entryFromLua_fields by (eapply cell_read_wf; [apply Hh|done]).
  - destruct (executed (io_fault i)); [|done]. by apply insert_id.
Qed.

(** A read returns exactly what the cell holds for this client's schema, or
    a miss.  A shed read is a miss that did not contact the node; a failed call
    is an error, never a miss; and no read changes any node. *)
Theorem Client_Get_spec c i key (w : World R) x e l node t t' :
  group_ok t (w_breakers w) → io_ok t i t' → Client_poolFor c key = Ok node →
  key_at w c key (io_server i) x e l →
  ∃ ok w', (Allow node i w).1 = Ok ok ∧
    Client_Get c i key w =
      (if negb ok then Ok None
       else match io_fault i with
            | Answered => Ok (entry_of <$> cell_read (cl_fingerprint c) x)
            | NilReply => Ok None
            | _ => Err (call_err "cache: get" (io_fault i))
            end, w') ∧
    w_nodes w' = w_nodes w ∧ group_ok t' (w_breakers w').
Proof. apply get_run. Qed.

(** A fill reports whether it won the compare-and-set and leaves the cell as
    the specification says, handing back the lease it was given only if that
    lease is still the caller's; a shed fill touches neither cell nor lease. *)
Theorem Client_FillWithLease_spec c i key ent token (w : World R) x e l node t t' :
  group_ok t (w_breakers w) → io_ok t i t' → Client_poolFor c key = Ok node →
  is_u64 (RowVersion ent) → is_u64 (FillVersion ent) → 1000000 ≤ cl_ttl c →
  key_at w c key (io_server i) x e l →
  ∃ ok w', (Allow node i w).1 = Ok ok ∧
    Client_FillWithLease c i key ent token w =
      (if negb ok then Ok false
       else if fault_ok (io_fault i) then Ok (fill_wins (stored_of c ent) x)
       else Err (call_err "cache: fill" (io_fault i)), w') ∧
    group_ok t' (w_breakers w') ∧
    if ok && executed (io_fault i)
    then key_at w' c key (io_server i) (cell_fill (stored_of c ent) x)
           (if fill_wins (stored_of c ent) x then Some (io_server i + Milliseconds (cl_ttl c)) else e)
           (lease_release token l)
    else w_nodes w' = w_nodes w.
Proof.
  intros Hg Hi Hp Hrv Hfv Httl (node' & r & Hp' & Hn & Hh & Hl). rewrite Hp in Hp'. injection Hp' as <-.
  pose proof Hg as [Ht0 _]. pose proof Hi as (Hi1 & Hi2 & Hi3 & Hi4).
  assert (0 < Milliseconds (cl_ttl c)) as Hms.
  { unfold Milliseconds. rewrite Z.quot_div_nonneg by lia. apply Z.div_str_pos. lia. }
  destruct (Allow_ok node i w t t' Hg Hi) as (ok & w1 & Hok & Hn1 & Hg1).
  exists ok. unfold Client_FillWithLease.
  rewrite (M_bind_run _ _ w node w) by (unfold M_lift; by rewrite Hp).
  rewrite (M_bind_run _ _ _ _ _ Hok), Hok. destruct ok; simpl.
  2: { exists w1. split_and!; [done|done| |done]. eapply group_ok_later; [done|lia]. }
  destruct (fill_cas_refines r (io_server i) key (leaseKey key) (stored_of c ent) x e l _ token
    Hh Hl (leaseKey_ne key) (conj Hrv Hfv) Hms) as (r' & Hm & Hh' & Hl' & _).
  rewrite <-Hn1 in Hn.
  rewrite (M_bind_run _ _ _ _ _ (run_script_spec node (io_fault i) _ w1 r _ r' Hn Hm)).
  set (res := if fault_ok (io_fault i) then Ok (fill_wins (stored_of c ent) x)
              else Err (call_err "cache: fill" (io_fault i))).
  destruct (after_call w1 node r' i _ t t' (executed (io_fault i)) (fault_ok (io_fault i))
    (M_lift res) res Hg1 Hi) as (w' & Hw & Hn' & Hg'); [lia|lia|done|].
  exists w'. split_and!; [done| |done|].
  - rewrite <-Hw. unfold res, M_lift. destruct (io_fault i); simpl; try done.
    by destruct (fill_wins (stored_of c ent) x).
  - destruct (executed (io_fault i)); [|by rewrite Hn'].
    by eapply leases_apart.
Qed.

(** C26: GetOrLease decides hit, granted or wait as the node's cell and lease
    say, in one step: a granted caller's token is what the lease key holds, until
    the lease interval has passed; a shed caller is told so, is never granted,
    and leaves the node untouched. *)
Theorem Client_GetOrLease_spec c i key token (w : World R) x e l node t t' :
  group_ok t (w_breakers w) → io_ok t i t' → Client_poolFor c key = Ok node →
  io_token i = Ok token → 1000000 ≤ cl_leaseTTL c →
  key_at w c key (io_server i) x e l →
  let hit := cell_read (cl_fingerprint c) x in
  ∃ ok w', (Allow node i w).1 = Ok ok ∧
    Client_GetOrLease c i key w =
      (if negb ok then Ok LeaseShed
       else if fault_ok (io_fault i) then
         Ok (match hit, l with
             | Some s, _ => LeaseHit (entry_of s)
             | None, None => LeaseGranted token
             | None, Some _ => LeaseWait
             end)
       else Err (call_err "cache: get-or-lease" (io_fault i)), w') ∧
    group_ok t' (w_breakers w') ∧
    if ok && executed (io_fault i)
    then key_at w' c key (io_server i) x e
           (match hit, l with
            | None, None => Some (token, io_server i + Milliseconds (cl_leaseTTL c))
            | _, _ => l
            end)
    else w_nodes w' = w_nodes w.
Proof.
  intros Hg Hi Hp Htok Httl (node' & r & Hp' & Hn & Hh & Hl) hit. rewrite Hp in Hp'. injection Hp' as <-.
  pose proof Hg as [Ht0 _]. pose proof Hi as (Hi1 & Hi2 & Hi3 & Hi4).
  assert (0 < Milliseconds (cl_leaseTTL c)) as Hms.
  { unfold Milliseconds. rewrite Z.quot_div_nonneg by lia. apply Z.div_str_pos. lia. }
  destruct (Allow_ok node i w t t' Hg Hi) as (ok & w1 & Hok & Hn1 & Hg1).
  exists ok. unfold Client_GetOrLease.
  rewrite (M_bind_run _ _ w node w) by (unfold M_lift; by rewrite Hp).
  rewrite (M_bind_run _ _ _ _ _ Hok), Hok. destruct ok; simpl.
  2: { exists w1. split_and!; [done|done| |done]. eapply group_ok_later; [done|lia]. }
  rewrite (M_bind_run _ _ w1 token w1) by (unfold M_lift; by rewrite Htok).
  destruct (read_lease_refines r (io_server i) key (leaseKey key) token _ (cl_fingerprint c) x e l
    Hh Hl (leaseKey_ne key) Hms) as (r' & Hm & Hh' & Hl' & _).
  rewrite <-Hn1 in Hn.
  rewrite (M_bind_run _ _ _ _ _ (run_script_spec node (io_fault i) _ w1 r _ r' Hn Hm)).
  set (res := if fault_ok (io_fault i) then
         Ok (match hit, l with
             | Some s, _ => LeaseHit (entry_of s)
             | None, None => LeaseGranted token
             | None, Some _ => LeaseWait
             end)
       else Err (call_err "cache: get-or-lease" (io_fault i))).
  destruct (after_call w1 node r' i _ t t' (executed (io_fault i)) (fault_ok (io_fault i))
    (M_lift res) res Hg1 Hi) as (w' & Hw & Hn' & Hg'); [lia|lia|done|].
  exists w'. split_and!; [done| |done|].
  - rewrite <-Hw. unfold res, M_lift, hit. destruct (io_fault i); simpl; try done.
    destruct (cell_read (cl_fingerprint c) x) as [s|] eqn:Es; [|by destruct l].
    cbn [length fields_of]. rewrite bool_decide_eq_false_2 by auto.
    by rewrite entryFromLua_fields by (eapply cell_read_wf; [apply Hh|done]).
  - destruct (executed (io_fault i)); [|by rewrite Hn']. by eapply leases_apart.
Qed.

End spec.

Lemma foldl_pings (ping : string → result unit) nodes pools pools' :
  foldl (connect ping) pools nodes = Ok pools' →
  ∃ p, pools = Ok p ∧ (∀ a, a ∈ pools' ↔ a ∈ p ∨ a ∈ nodes) ∧ ∀ a, a ∈ nodes → ping a = Ok tt.
Proof.
  revert pools. induction nodes as [|a nodes IH]; intros pools; simpl.
  - intros ->. exists pools'. split_and!; [done| |by intros ? ?%not_elem_of_nil].
    intros a. rewrite elem_of_nil. tauto.
  - intros H. apply IH in H as (p & Hp & Hin & Hping).
    apply result_bind_ok in Hp as (p0 & -> & Hp). destruct (ping a) as [[]|?|?] eqn:Ea; [|done..].
    injection Hp as <-. exists p0. split_and!; [done| |].
    + intros a'. rewrite Hin, elem_of_union, elem_of_singleton, elem_of_cons. tauto.
    + intros a' [->|Ha']%elem_of_cons; [done|by apply Hping].
Qed.

(** A client that boots can route: every configured node answered its
    probe, the intervals are positive, and each non-empty key goes to the node
    that owns it on the ring, whose pool exists; the "no connection pool" error
    is unreachable. *)
Theorem cache_New_ready opts now ping c g key :
  cache_New opts now ping = Ok (c, g) → key ≠ "" →
  0 < cl_ttl c ∧ 0 < cl_leaseTTL c ∧
  (∀ a, a ∈ co_Addresses opts → ping a = Ok tt) ∧
  ∃ node, Client_poolFor c key = Ok node ∧ node ∈ co_Addresses opts ∧
    Owns (co_Addresses opts) key node.
Proof.
  unfold cache_New. case_bool_decide as Hne; [done|].
  destruct (Z.leb_spec (co_TTL opts) 0) as [|Httl]; [done|].
  intros (router & Hr & (br & Hb & (pools & Hp & [= <- <-])%result_bind_ok)%result_bind_ok)%result_bind_ok Hk.
  apply foldl_pings in Hp as (p & [= <-] & Hin & Hping).
  pose proof (cache_NewRouter_ok _ _ Hr) as (_ & _ & Hring).
  assert (∀ n, n ∈ cRouter_nodes router ↔ n ∈ co_Addresses opts) as Hnodes.
  { unfold cache_NewRouter in Hr. rewrite bool_decide_eq_false_2 in Hr by done.
    apply result_bind_ok in Hr as ([u s] & Hc & [= <-]). simpl. intros n.
    apply collect_unique_ok in Hc as (_ & H2 & H3).
    rewrite merge_sort_Permutation, H3, H2 by set_solver. set_solver. }
  simpl. split_and!; [done| | |].
  - unfold DefaultLeaseTTL. case_ifs; zsolve.
  - intros a Ha. by apply Hping, Hnodes.
  - destruct (Ring_Lookup_Owns (co_Addresses opts) key Hne) as (node & Hl & Ho).
    assert (node ∈ co_Addresses opts) as Hmem by by destruct Ho as (? & ? & ? & _).
    exists node. split_and!; [|done|done]. unfold Client_poolFor. simpl.
    rewrite (proj2 (NodeFor_Owns _ _ _ _ Hr Hk) Ho). mrun.
    rewrite bool_decide_eq_true_2; [done|]. apply Hin. right. by apply Hnodes.
Qed.

(** ** Witnesses *)

Definition demo_cache_opts : CacheOptions :=
  mkCacheOptions "h" ["n1"] 60000000000 (mkOptions 0 0 0 f_zero f_zero) 0.

Definition demo_client : Client :=
  mkClient (ring_of ["n1"]) {["n1"]} 60000000000 DefaultLeaseTTL "h".

Definition demo_world : World mem := mkWorld {["n1" := ∅]} (mkGroup DefaultBreaker ∅).

Definition demo_io : io := mkIO 1 (2, 2) (3, 3) f_zero 1000 Answered (Ok "tok").

Definition demo_entry : Entry := mkEntry 7 9 (Some "row") "" false.

Lemma demo_group_ok : group_ok 0 (w_breakers demo_world).
Proof.
  split_and!; [lia|lia| |vm_compute; congruence|].
  - intros now. vm_compute. reflexivity.
  - intros node b. simpl. by rewrite lookup_empty.
Qed.

Lemma demo_io_ok : io_ok 0 demo_io 5.
Proof. unfold io_ok. simpl. lia. Qed.

Lemma demo_pool : Client_poolFor demo_client "k" = Ok "n1".
Proof. vm_compute. reflexivity. Qed.

Lemma demo_key_at : key_at demo_world demo_client "k" 1000 cell_empty None None.
Proof.
  exists "n1", ∅. split_and!; [apply demo_pool|done| |done].
  split_and!; [apply cell_empty_wf| |done]. by rewrite bool_decide_eq_true_2.
Qed.

Lemma cache_New_ready_witness :
  ∃ node, Client_poolFor demo_client "k" = Ok node ∧ node ∈ ["n1"] ∧ Owns ["n1"] "k" node.
Proof.
  apply (cache_New_ready demo_cache_opts 0 (λ _, Ok tt) demo_client (mkGroup DefaultBreaker ∅) "k");
    [vm_compute; reflexivity | congruence].
Defined.

Lemma Client_Tombstone_spec_witness :
  ∃ w', Client_Tombstone demo_client demo_io "k" 12 demo_world = (Ok true, w') ∧
    group_ok 5 (w_breakers w') ∧
    key_at w' demo_client "k" 1000 (mkCell (Some 12) None) (Some 61000) None.
Proof.
  exact (Client_Tombstone_spec demo_client demo_io "k" 12 demo_world cell_empty None None 0 5
    demo_group_ok demo_io_ok ltac:(vm_compute; intuition congruence) ltac:(vm_compute; congruence)
    demo_key_at).
Defined.

Lemma Client_Get_spec_witness :
  ∃ ok w', (Allow "n1" demo_io demo_world).1 = Ok ok ∧
    Client_Get demo_client demo_io "k" demo_world = (if negb ok then Ok None else Ok None, w') ∧
    w_nodes w' = w_nodes demo_world ∧ group_ok 5 (w_breakers w').
Proof.
  exact (Client_Get_spec demo_client demo_io "k" demo_world cell_empty None None "n1" 0 5
    demo_group_ok demo_io_ok demo_pool demo_key_at).
Defined.

Lemma Client_FillWithLease_spec_witness :
  ∃ ok w', (Allow "n1" demo_io demo_world).1 = Ok ok ∧
    Client_FillWithLease demo_client demo_io "k" demo_entry "" demo_world =
      (if negb ok then Ok false else Ok true, w') ∧
    group_ok 5 (w_breakers w') ∧
    if ok && true
    then key_at w' demo_client "k" 1000 (mkCell None (Some (mkStored 7 9 "row" false "h")))
           (Some 61000) None
    else w_nodes w' = w_nodes demo_world.
Proof.
  exact (Client_FillWithLease_spec demo_client demo_io "k" demo_entry "" demo_world cell_empty None
    None "n1" 0 5 demo_group_ok demo_io_ok demo_pool ltac:(vm_compute; intuition congruence)
    ltac:(vm_compute; intuition congruence) ltac:(vm_compute; congruence) demo_key_at).
Defined.

Lemma Client_GetOrLease_spec_witness :
  ∃ ok w', (Allow "n1" demo_io demo_world).1 = Ok ok ∧
    Client_GetOrLease demo_client demo_io "k" demo_world =
      (if negb ok then Ok LeaseShed else Ok (LeaseGranted "tok"), w') ∧
    group_ok 5 (w_breakers w') ∧
    if ok && true
    then key_at w' demo_client "k" 1000 cell_empty None (Some ("tok", 3000))
    else w_nodes w' = w_nodes demo_world.
Proof.
  exact (Client_GetOrLease_spec demo_client demo_io "k" "tok" demo_world cell_empty None None "n1"
    0 5 demo_group_ok demo_io_ok demo_pool eq_refl ltac:(vm_compute; congruence) demo_key_at).
Defined.
