(* ===== verification/Schema.v ===== *)
(** Table descriptors and row keys: [src/internal/schema/schema.go] and
    [src/internal/schema/key.go]. *)

From S2P Require Import Prelude GoStd.

Local Open Scope Z_scope.

(** ** Column types *)

Inductive Type_ :=
  | Uint8 | Uint32 | Uint64 | Int64 | String_ | Bytes_ | Text
  | OtherType (name : string).

#[global] Instance Type_eq_dec : EqDecision Type_.
Proof. solve_decision. Defined.

Definition Type_text (t : Type_) : string :=
  match t with
  | Uint8 => "uint8" | Uint32 => "uint32" | Uint64 => "uint64" | Int64 => "int64"
  | String_ => "string" | Bytes_ => "bytes" | Text => "text" | OtherType n => n
  end.

Definition integerTypes (t : Type_) : bool :=
  match t with Uint8 | Uint32 | Uint64 | Int64 => true | _ => false end.

Definition Type_valid (t : Type_) : bool :=
  match t with OtherType _ => false | _ => true end.

(** ** Declarations and descriptors *)

Record ColumnConfig := mkColumnConfig {
  cc_Name : string; cc_Type : Type_; cc_Nullable : bool; cc_Collation : string;
}.

Record TableConfig := mkTableConfig {
  tc_Name : string;
  tc_PrimaryKey : list string;
  tc_VersionColumn : string;
  tc_Columns : list ColumnConfig;
}.

Record Column := mkColumn {
  col_Name : string;
  col_Type : Type_;
  col_Nullable : bool;
  col_Index : Z;
  col_Collation : string;
}.

Record Descriptor := mkDescriptor {
  d_Name : string;
  d_Columns : list Column;
  d_PrimaryKey : list Column;
  d_VersionColumn : Column;
  d_Fingerprint : string;
  d_byName : gmap string Column;
}.

Definition Descriptor_Column (d : Descriptor) (name : string) : option Column := d_byName d !! name.

(** ** Identifiers *)

Definition is_alpha_ (c : ascii) : bool :=
  let b := byte_val c in
  (65 <=? b) && (b <=? 90) || (97 <=? b) && (b <=? 122) || (b =? 95).

Definition is_ident_char (c : ascii) : bool := is_alpha_ c || is_digit c || (byte_val c =? 36).

(** [identifierRe]: a letter or underscore, then at most 63 of letters, digits,
    underscore and dollar. *)
Definition validIdentifier (s : string) : bool :=
  match s with
  | "" => false
  | String c r => is_alpha_ c && str_all is_ident_char r && (str_len r <=? 63)
  end.

(** [strings.ReplaceAll(s, "`", "``")]. *)
Fixpoint double_backticks (s : string) : string :=
  match s with
  | "" => ""
  | String c r =>
      if byte_val c =? 96 then String c (String c (double_backticks r))
      else String c (double_backticks r)
  end.

Definition quote (s : string) : string := "`" +:+ double_backticks s +:+ "`".

Definition Column_Quoted (c : Column) : string := quote (col_Name c).
Definition Descriptor_QuotedName (d : Descriptor) : string := quote (d_Name d).

(** ** Building a descriptor

    [ToLower] is [strings.ToLower] (Unicode); [sha256_16] is the first eight
    bytes of a SHA-256 digest in hexadecimal. *)

Definition newline : string := String (byte_of 10) "".

Definition FormatBool (b : bool) : string := if b then "true" else "false".

(** What [fingerprint] writes before hashing. *)
Definition column_line (c : Column) : string :=
  FormatInt (col_Index c) +:+ ":" +:+ col_Name c +:+ ":" +:+ Type_text (col_Type c) +:+ ":" +:+
  FormatBool (col_Nullable c) +:+ newline.

Definition fingerprint_text (name : string) (columns pk : list Column) : string :=
  "cachet.schema.v1" +:+ newline +:+ name +:+ newline +:+
  foldr (λ c s, column_line c +:+ s) "" columns +:+
  "pk" +:+ newline +:+ foldr (λ c s, col_Name c +:+ newline +:+ s) "" pk.

Section descriptor.
  Context (ToLower sha256_16 : string → string).

Definition fingerprint (name : string) (columns pk : list Column) : string :=
  sha256_16 (fingerprint_text name columns pk).

Definition checkKeyCollation (cfg : TableConfig) (col : Column) : result unit :=
  if negb (bool_decide (col_Type col = String_)) && negb (bool_decide (col_Type col = Text)) then Ok tt
  else
    let declared := foldl (λ declared c, if bool_decide (cc_Name c = col_Name col)
                                         then ToLower (cc_Collation c) else declared)
                      "" (tc_Columns cfg) in
    if bool_decide (declared = "") then Err (Errorf "schema: string primary key declares no collation")
    else if str_suffix "_ci" declared || str_suffix "_ai" declared ||
            str_contains "_ai_" declared || str_contains "_ci_" declared then
      Err (Errorf "schema: collation folds case or accent")
    else Ok tt.

(** The column loop.  [byName] is the map as it stands while the loop runs. *)
Fixpoint build_columns (byName : gmap string Column) (i : Z) (cols : list ColumnConfig)
    (acc : list Column) : result (list Column) :=
  match cols with
  | [] => Ok acc
  | c :: cols =>
      if negb (validIdentifier (cc_Name c)) then Err (Errorf "schema: column name is not a plain SQL identifier")
      else if negb (Type_valid (cc_Type c)) then Err (Errorf "schema: type is not one Cachet can round-trip")
      else if bool_decide (is_Some (byName !! cc_Name c)) then Err (Errorf "schema: column declared twice")
      else build_columns byName (i + 1) cols
             (acc ++ [mkColumn (cc_Name c) (cc_Type c) (cc_Nullable c) i (cc_Collation c)])
  end.

Fixpoint build_pk (cfg : TableConfig) (byName : gmap string Column) (names : list string)
    (acc : list Column) : result (list Column) :=
  match names with
  | [] => Ok acc
  | name :: names =>
      match byName !! name with
      | None => Err (Errorf "schema: primary key column is not declared")
      | Some col =>
          if col_Nullable col then Err (Errorf "schema: nullable column cannot be part of a primary key")
          else checkKeyCollation cfg col;; build_pk cfg byName names (acc ++ [col])
      end
  end.

Definition index_by_name (columns : list Column) : gmap string Column :=
  foldl (λ m c, <[col_Name c := c]> m) ∅ columns.

Definition NewDescriptor (cfg : TableConfig) : result Descriptor :=
  if negb (validIdentifier (tc_Name cfg)) then Err (Errorf "schema: table name is not a plain SQL identifier")
  else if bool_decide (tc_Columns cfg = []) then Err (Errorf "schema: table declares no columns")
  else
    (* [byName] is filled only after the loop *)
    columns ← build_columns ∅ 0 (tc_Columns cfg) [];
    let byName := index_by_name columns in
    if bool_decide (tc_PrimaryKey cfg = []) then Err (Errorf "schema: declares no primary key")
    else
      pk ← build_pk cfg byName (tc_PrimaryKey cfg) [];
      if bool_decide (tc_VersionColumn cfg = "") then Err (Errorf "schema: declares no version column")
      else match byName !! tc_VersionColumn cfg with
           | None => Err (Errorf "schema: version column is not declared")
           | Some ver =>
               if negb (integerTypes (col_Type ver)) then Err (Errorf "schema: version column must be an integer")
               else if col_Nullable ver then Err (Errorf "schema: a NULL version cannot be compared")
               else Ok (mkDescriptor (tc_Name cfg) columns pk ver
                          (fingerprint (tc_Name cfg) columns pk) byName)
           end.

End descriptor.

(** ** Keys *)

Record Key := mkKey { key_Table : string; key_Values : list string }.

(** The dynamic types [canonical] switches on. *)
Inductive keyarg :=
  | ArgUint64 (v : Z) | ArgUint32 (v : Z) | ArgUint8 (v : Z)
  | ArgInt64 (v : Z) | ArgInt (v : Z)
  | ArgString (s : string) | ArgBytes (s : string)
  | ArgOther.

Definition hexDigit (n : Z) : ascii := byte_of (if n <? 10 then 48 + n else 55 + n).

Definition must_escape (c : ascii) : bool :=
  bool_decide (c = ":"%char) || bool_decide (c = "%"%char) || (byte_val c <? 32) || (byte_val c =? 127).

Fixpoint writeEscaped (s : string) : string :=
  match s with
  | "" => ""
  | String c r =>
      if must_escape c then
        String "%" (String (hexDigit (Z.shiftr (byte_val c) 4))
          (String (hexDigit (Z.land (byte_val c) 15)) (writeEscaped r)))
      else String c (writeEscaped r)
  end.

Definition Key_String (k : Key) : string :=
  foldl (λ b v, b +:+ ":" +:+ writeEscaped v) (key_Table k) (key_Values k).

Definition canonical (v : keyarg) : result string :=
  match v with
  | ArgUint64 v | ArgUint32 v | ArgUint8 v => Ok (FormatUint v)
  | ArgInt64 v | ArgInt v => Ok (FormatInt v)
  | ArgString s | ArgBytes s => Ok s
  | ArgOther => Err (Errorf "schema: cannot use as a primary key value")
  end.

Fixpoint canonical_all (vs : list keyarg) : result (list string) :=
  match vs with
  | [] => Ok []
  | v :: vs => s ← canonical v; ss ← canonical_all vs; Ok (s :: ss)
  end.

Definition Descriptor_Key (d : Descriptor) (values : list keyarg) : result Key :=
  if negb (length values =? length (d_PrimaryKey d))%nat then
    Err (Errorf "schema: wrong number of primary key values")
  else out ← canonical_all values; Ok (mkKey (d_Name d) out).

Definition KeyOf (table : string) (values : list keyarg) : result Key :=
  if negb (validIdentifier table) then Err (Errorf "schema: not a plain SQL identifier")
  else if bool_decide (values = []) then Err (Errorf "schema: key has no values")
  else out ← canonical_all values; Ok (mkKey table out).

Definition hexVal (c : ascii) : result Z :=
  let b := byte_val c in
  if (48 <=? b) && (b <=? 57) then Ok (b - 48)
  else if (65 <=? b) && (b <=? 70) then Ok (b - 65 + 10)
  else if (97 <=? b) && (b <=? 102) then Ok (b - 97 + 10)
  else Err (Errorf "invalid escape digit").

(** The decoding loop of [unescape]. *)
Fixpoint unescape_loop (s : string) : result string :=
  match s with
  | "" => Ok ""
  | String c r =>
      if negb (bool_decide (c = "%"%char)) then t ← unescape_loop r; Ok (String c t)
      else match r with
           | String h (String l r) =>
               hi ← hexVal h;
               lo ← hexVal l;
               t ← unescape_loop r;
               Ok (String (byte_of (Z.lor (Z.shiftl hi 4) lo)) t)
           | _ => Err (Errorf "truncated escape")
           end
  end.

Definition unescape (s : string) : result string :=
  if negb (contains_byte "%" s) then Ok s else unescape_loop s.

Fixpoint unescape_all (ps : list string) : result (list string) :=
  match ps with
  | [] => Ok []
  | p :: ps =>
      v ← match unescape p with Ok v => Ok v | Err e => Err (Wrapf "schema: key" e) | Panic w => Panic w end;
      vs ← unescape_all ps;
      Ok (v :: vs)
  end.

Definition ParseKey (s : string) : result Key :=
  match cut_byte ":" s with
  | None => Err (Errorf "schema: key must be <table>:<value>")
  | Some (table, rest) =>
      if negb (validIdentifier table) then Err (Errorf "schema: key has an invalid table name")
      else values ← unescape_all (split_byte ":" rest); Ok (mkKey table values)
  end.

(** [fits]: one primary key value against the column that holds it. *)
Definition fits (col : Column) (text : string) : result unit :=
  let bad := Err (Errorf "value does not fit the column") in
  match col_Type col with
  | Uint8 | Uint32 | Uint64 =>
      let bits := match col_Type col with Uint8 => 8 | Uint32 => 32 | _ => 64 end in
      match ParseUint text bits with
      | Ok v => if bool_decide (text = FormatUint v) then Ok tt else bad
      | _ => bad
      end
  | Int64 =>
      match ParseInt text with
      | Ok v => if bool_decide (text = FormatInt v) then Ok tt else bad
      | _ => bad
      end
  | String_ | Bytes_ | Text => Ok tt
  | OtherType _ => Err (Errorf "type cannot be a primary key")
  end.

Fixpoint fits_all (cols : list Column) (vals : list string) : result unit :=
  match cols, vals with
  | col :: cols, v :: vals => fits col v;; fits_all cols vals
  | [], _ => Ok tt
  | _ :: _, [] => Panic "runtime error: index out of range"
  end.

Definition Descriptor_Validate (d : Descriptor) (k : Key) : result unit :=
  if negb (bool_decide (key_Table k = d_Name d)) then Err (Errorf "schema: key does not name table")
  else if negb (length (key_Values k) =? length (d_PrimaryKey d))%nat then
    Err (Errorf "schema: wrong number of primary key columns")
  else match fits_all (d_PrimaryKey d) (key_Values k) with
       | Err e => Err (Wrapf "schema: key" e)
       | r => r
       end.

(** ** Lemmas on keys *)

Lemma ident_chars s : validIdentifier s = true → str_all is_ident_char s = true.
Proof.
  destruct s as [|c r]; [done|]. cbn [validIdentifier str_all]. intros H.
  apply andb_true_iff in H as [[Hc Hr]%andb_true_iff _]. rewrite Hr, andb_true_r.
  unfold is_ident_char. by rewrite Hc.
Qed.

Lemma str_all_contains P c s : str_all P s = true → P c = false → contains_byte c s = false.
Proof.
  induction s as [|d s IH]; [done|]. cbn [str_all contains_byte]. intros [Hd Hs]%andb_true_iff Hc.
  rewrite bool_decide_eq_false_2 by (intros ->; congruence). by apply IH.
Qed.

Lemma hexVal_hexDigit n : 0 ≤ n < 16 → hexVal (hexDigit n) = Ok n.
Proof.
  intros Hn.
  assert (n = 0 ∨ n = 1 ∨ n = 2 ∨ n = 3 ∨ n = 4 ∨ n = 5 ∨ n = 6 ∨ n = 7 ∨ n = 8 ∨ n = 9 ∨ n = 10 ∨
          n = 11 ∨ n = 12 ∨ n = 13 ∨ n = 14 ∨ n = 15) as Hc by lia.
  by destruct Hc as [->|[->|[->|[->|[->|[->|[->|[->|[->|[->|[->|[->|[->|[->|[->| ->]]]]]]]]]]]]]]].
Qed.

Lemma nibbles c :
  0 ≤ Z.shiftr (byte_val c) 4 < 16 ∧ 0 ≤ Z.land (byte_val c) 15 < 16 ∧
  byte_of (Z.lor (Z.shiftl (Z.shiftr (byte_val c) 4) 4) (Z.land (byte_val c) 15)) = c.
Proof.
  destruct c as [[] [] [] [] [] [] [] []]; vm_compute; (split_and!; congruence).
Qed.

Lemma hexDigit_not n c : 0 ≤ n < 16 → c = ":"%char ∨ c = "%"%char → hexDigit n ≠ c.
Proof.
  intros Hn Hc.
  assert (n = 0 ∨ n = 1 ∨ n = 2 ∨ n = 3 ∨ n = 4 ∨ n = 5 ∨ n = 6 ∨ n = 7 ∨ n = 8 ∨ n = 9 ∨ n = 10 ∨
          n = 11 ∨ n = 12 ∨ n = 13 ∨ n = 14 ∨ n = 15) as H by lia.
  destruct Hc as [-> | ->];
  by destruct H as [->|[->|[->|[->|[->|[->|[->|[->|[->|[->|[->|[->|[->|[->|[->| ->]]]]]]]]]]]]]]].
Qed.

Lemma escaped_no_colon s : contains_byte ":" (writeEscaped s) = false.
Proof.
  induction s as [|c s IH]; [done|]. cbn [writeEscaped].
  destruct (must_escape c) eqn:He; cbn [contains_byte]; rewrite IH.
  - destruct (nibbles c) as (H1 & H2 & _).
    rewrite !bool_decide_eq_false_2; [done|apply hexDigit_not; auto..|done].
  - rewrite bool_decide_eq_false_2; [done|]. intros ->. done.
Qed.

Lemma unescape_loop_escaped s : unescape_loop (writeEscaped s) = Ok s.
Proof.
  induction s as [|c s IH]; [done|]. cbn [writeEscaped].
  destruct (must_escape c) eqn:He; cbn [unescape_loop].
  - rewrite bool_decide_eq_true_2 by done. simpl.
    destruct (nibbles c) as (H1 & H2 & H3). rewrite !hexVal_hexDigit by done. mrun.
    rewrite IH, H3. done.
  - rewrite bool_decide_eq_false_2 by (intros ->; done). simpl. by rewrite IH.
Qed.

Lemma unescape_plain s : contains_byte "%" s = false → unescape_loop s = Ok s.
Proof.
  induction s as [|c s IH]; [done|]. cbn [contains_byte unescape_loop].
  intros [Hc Hs]%orb_false_iff. rewrite Hc. simpl. by rewrite IH.
Qed.

Lemma unescape_escaped s : unescape (writeEscaped s) = Ok s.
Proof.
  unfold unescape. destruct (contains_byte "%" (writeEscaped s)) eqn:E; simpl.
  - apply unescape_loop_escaped.
  - rewrite <-(unescape_loop_escaped s). by rewrite unescape_plain.
Qed.

Lemma unescape_all_escaped vs : unescape_all (writeEscaped <$> vs) = Ok vs.
Proof.
  induction vs as [|v vs IH]; [done|]. cbn [fmap list_fmap unescape_all].
  by rewrite unescape_escaped, IH.
Qed.

Lemma Key_String_join k :
  key_Values k ≠ [] →
  Key_String k = key_Table k +:+ ":" +:+ join ":" (writeEscaped <$> key_Values k).
Proof.
  unfold Key_String. destruct k as [t vs]. simpl.
  assert (∀ vs b, foldl (λ b v, b +:+ ":" +:+ writeEscaped v) b vs =
            b +:+ foldr (λ v s, ":" +:+ writeEscaped v +:+ s) "" vs) as Hf.
  { induction vs0 as [|v vs0 IH]; intros b; simpl; [by rewrite str_app_nil_r|].
    rewrite IH. change (String ":" (writeEscaped v)) with (":" +:+ writeEscaped v).
    rewrite <-!str_app_assoc. done. }
  intros Hne. rewrite Hf. f_equal. destruct vs as [|v vs]; [done|]. clear Hf Hne.
  simpl. f_equal. revert v. induction vs as [|v' vs IH]; intros v; simpl; [apply str_app_nil_r|].
  f_equal. simpl. f_equal. apply IH.
Qed.

Lemma escaped_all_no_colon vs : Forall (λ w, contains_byte ":" w = false) (writeEscaped <$> vs).
Proof. apply Forall_fmap, Forall_true. intros v. apply escaped_no_colon. Qed.

Lemma ParseKey_String k :
  validIdentifier (key_Table k) = true → key_Values k ≠ [] → ParseKey (Key_String k) = Ok k.
Proof.
  intros Ht Hv. rewrite Key_String_join by done. unfold ParseKey.
  change (":" +:+ ?x) with (String ":" x).
  rewrite cut_byte_app.
  - rewrite Ht. simpl. rewrite split_join.
    + rewrite unescape_all_escaped. by destruct k.
    + apply escaped_all_no_colon.
    + by destruct (key_Values k).
  - apply (str_all_contains is_ident_char); [by apply ident_chars|done].
Qed.

(** ** Lemmas on descriptors *)

Lemma build_columns_ok byName i cols acc out :
  build_columns byName i cols acc = Ok out →
  ∃ built, out = acc ++ built ∧ length built = length cols ∧
    (∀ j c, cols !! j = Some c →
       built !! j = Some (mkColumn (cc_Name c) (cc_Type c) (cc_Nullable c) (i + Z.of_nat j) (cc_Collation c)) ∧
       validIdentifier (cc_Name c) = true ∧ Type_valid (cc_Type c) = true).
Proof.
  revert i acc. induction cols as [|c cols IH]; intros i acc; cbn [build_columns].
  - intros [= <-]. exists []. by rewrite app_nil_r.
  - destruct (validIdentifier (cc_Name c)) eqn:Hn; [|done].
    destruct (Type_valid (cc_Type c)) eqn:Ht; [|done]. simpl.
    case_bool_decide; [done|]. intros (built & -> & Hl & Hb)%IH.
    eexists (_ :: built). rewrite <-app_assoc. split_and!; [done|simpl; lia|].
    intros [|j] c0; simpl.
    + intros [= <-]. by rewrite Z.add_0_r.
    + intros Hj. destruct (Hb j c0 Hj) as (-> & ? & ?). split_and!; [|done..]. do 2 f_equal. lia.
Qed.

Lemma build_columns_total i cols acc :
  Forall (λ c, validIdentifier (cc_Name c) = true ∧ Type_valid (cc_Type c) = true) cols →
  is_ok (build_columns ∅ i cols acc) = true.
Proof.
  intros Hc. revert i acc. induction Hc as [|c cols [Hn Ht] _ IH]; intros i acc; [done|].
  cbn [build_columns]. rewrite Hn, Ht. simpl.
  rewrite bool_decide_eq_false_2; [apply IH|]. rewrite lookup_empty. by intros [? ?].
Qed.

Lemma index_by_name_in columns name c :
  index_by_name columns !! name = Some c → c ∈ columns ∧ col_Name c = name.
Proof.
  unfold index_by_name.
  assert (∀ m : gmap string Column, (foldl (λ m c, <[col_Name c := c]> m) m columns) !! name = Some c →
            m !! name = Some c ∨ c ∈ columns ∧ col_Name c = name) as H.
  { induction columns as [|c0 cols IH]; intros m; simpl; [by left|].
    intros [H|[H1 H2]]%IH.
    - apply lookup_insert_Some in H as [[<- <-]|[_ H]]; [right; by split; [left|]|by left].
    - right. split; [by right|done]. }
  intros [Hl|Hl]%H; [by rewrite lookup_empty in Hl|done].
Qed.

Lemma build_pk_ok ToLower cfg byName names acc out :
  build_pk ToLower cfg byName names acc = Ok out →
  ∃ built, out = acc ++ built ∧
    Forall2 (λ name col, byName !! name = Some col ∧ col_Nullable col = false) names built.
Proof.
  revert acc. induction names as [|name names IH]; intros acc; cbn [build_pk].
  - intros [= <-]. exists []. by rewrite app_nil_r.
  - destruct (byName !! name) as [col|] eqn:E; [|done].
    destruct (col_Nullable col) eqn:En; [done|].
    intros ([] & _ & (built & -> & HF)%IH)%result_bind_ok.
    exists (col :: built). rewrite <-app_assoc. split; [done|]. by constructor.
Qed.

(** *** What the fingerprint covers *)

(** A line break ends an identifier-and-type line. *)
Lemma line_inj s t u v :
  contains_byte (byte_of 10) s = false → contains_byte (byte_of 10) t = false →
  s +:+ newline +:+ u = t +:+ newline +:+ v → s = t ∧ u = v.
Proof.
  intros Hs Ht He. pose proof (cut_byte_app _ s u Hs) as H1. pose proof (cut_byte_app _ t v Ht) as H2.
  change (s +:+ String (byte_of 10) u = t +:+ String (byte_of 10) v) in He.
  rewrite He, H2 in H1. by injection H1 as -> ->.
Qed.

Lemma field_inj s t u v :
  contains_byte ":" s = false → contains_byte ":" t = false →
  s +:+ ":" +:+ u = t +:+ ":" +:+ v → s = t ∧ u = v.
Proof.
  intros Hs Ht He. pose proof (cut_byte_app _ s u Hs) as H1. pose proof (cut_byte_app _ t v Ht) as H2.
  change (s +:+ String ":" u = t +:+ String ":" v) in He.
  rewrite He, H2 in H1. by injection H1 as -> ->.
Qed.

Lemma FormatUint_no c n : is_digit c = false → 0 ≤ n → contains_byte c (FormatUint n) = false.
Proof. intros Hc Hn. eapply str_all_contains; [apply FormatUint_spec, Hn|done]. Qed.

Lemma Type_text_inj t t' :
  Type_valid t = true → Type_valid t' = true → Type_text t = Type_text t' → t = t'.
Proof. by destruct t, t'. Qed.

Lemma Type_text_plain t c :
  Type_valid t = true → c = ":"%char ∨ c = byte_of 10 → contains_byte c (Type_text t) = false.
Proof. by destruct t; intros Hv [->| ->]. Qed.

(** The columns a descriptor can hold, as the fingerprint needs them. *)
Definition column_ok (c : Column) : Prop :=
  0 ≤ col_Index c ∧ validIdentifier (col_Name c) = true ∧ Type_valid (col_Type c) = true.

(** What the fingerprint keeps of a column: everything but the collation. *)
Definition column_shape (c : Column) : Z * string * Type_ * bool :=
  (col_Index c, col_Name c, col_Type c, col_Nullable c).

Lemma ident_no c s :
  validIdentifier s = true → is_ident_char c = false → contains_byte c s = false.
Proof. intros Hs Hc. eapply str_all_contains; [by apply ident_chars|done]. Qed.

Definition column_body (c : Column) : string :=
  FormatInt (col_Index c) +:+ ":" +:+ col_Name c +:+ ":" +:+ Type_text (col_Type c) +:+ ":" +:+
  FormatBool (col_Nullable c).

Lemma column_line_body c : column_line c = column_body c +:+ newline.
Proof. unfold column_line, column_body. by rewrite <-!str_app_assoc. Qed.

Lemma FormatInt_nonneg n : 0 ≤ n → FormatInt n = FormatUint n.
Proof. intros. unfold FormatInt. by rewrite (proj2 (Z.ltb_ge _ _)). Qed.

Lemma column_body_plain c : column_ok c → contains_byte (byte_of 10) (column_body c) = false.
Proof.
  intros (Hi & Hn & Ht). unfold column_body. rewrite !contains_byte_app, FormatInt_nonneg by done.
  rewrite FormatUint_no, (ident_no _ _ Hn), Type_text_plain by (try done; auto).
  by destruct (col_Nullable c).
Qed.

Lemma column_body_inj c c' :
  column_ok c → column_ok c' → column_body c = column_body c' → column_shape c = column_shape c'.
Proof.
  intros (Hi & Hn & Ht) (Hi' & Hn' & Ht') He. unfold column_body in He.
  rewrite !FormatInt_nonneg in He by done.
  apply field_inj in He as [H1 He]; [|by apply FormatUint_no..].
  apply field_inj in He as [H2 He]; [|by apply ident_no..].
  apply field_inj in He as [H3 He]; [|apply Type_text_plain; auto..].
  apply FormatUint_inj in H1; [|done..]. apply Type_text_inj in H3; [|done..].
  unfold column_shape. rewrite H1, H2, H3. f_equal. by destruct (col_Nullable c), (col_Nullable c').
Qed.

(** The body of a column line is never the line that starts the key section. *)
Lemma column_body_not_pk c : column_ok c → column_body c ≠ "pk".
Proof.
  intros (Hi & _) He. apply (f_equal (contains_byte ":")) in He. unfold column_body in He.
  rewrite contains_byte_app in He. simpl in He. by rewrite orb_true_r in He.
Qed.

Lemma columns_text_inj cols cols' u v :
  Forall column_ok cols → Forall column_ok cols' →
  foldr (λ c s, column_line c +:+ s) "" cols +:+ "pk" +:+ newline +:+ u =
  foldr (λ c s, column_line c +:+ s) "" cols' +:+ "pk" +:+ newline +:+ v →
  column_shape <$> cols = column_shape <$> cols' ∧ u = v.
Proof.
  intros Hc. revert cols'. induction Hc as [|c cols Hok Hc IH]; intros [|c' cols'] Hc'; cbn [foldr].
  - intros He. split; [done|]. by apply (line_inj "pk" "pk") in He as [_ ?].
  - apply Forall_cons in Hc' as [Hok' _]. rewrite column_line_body, <-!str_app_assoc. intros He.
    apply (line_inj "pk") in He as [He _]; [|done|by apply column_body_plain].
    by destruct (column_body_not_pk c').
  - rewrite column_line_body, <-!str_app_assoc. intros He.
    apply (line_inj _ "pk") in He as [He _]; [|by apply column_body_plain|done].
    by destruct (column_body_not_pk c).
  - apply Forall_cons in Hc' as [Hok' Hc']. rewrite !column_line_body, <-!str_app_assoc. intros He.
    apply line_inj in He as [H1 He]; [|by apply column_body_plain..].
    apply column_body_inj in H1; [|done..].
    apply IH in He as [H2 ->]; [|done]. cbn [fmap list_fmap]. by rewrite H1, H2.
Qed.

Lemma pk_text_inj pk pk' :
  Forall column_ok pk → Forall column_ok pk' →
  foldr (λ c s, col_Name c +:+ newline +:+ s) "" pk = foldr (λ c s, col_Name c +:+ newline +:+ s) "" pk' →
  col_Name <$> pk = col_Name <$> pk'.
Proof.
  assert (∀ c s, column_ok c → col_Name c +:+ newline +:+ s ≠ "") as Hne.
  { intros c s (_ & Hn & _). by destruct (col_Name c). }
  intros Hc. revert pk'. induction Hc as [|c pk Hok Hc IH]; intros [|c' pk'] Hc'; cbn [foldr]; [done|..].
  - apply Forall_cons in Hc' as [Hok' _]. intros He. by destruct (Hne c' _ Hok' (eq_sym He)).
  - intros He. by destruct (Hne c _ Hok He).
  - apply Forall_cons in Hc' as [(_ & Hn' & _) Hc']. destruct Hok as (_ & Hn & _). intros He.
    apply line_inj in He as [H1 He]; [|by apply ident_no..].
    cbn [fmap list_fmap]. by rewrite H1, (IH _ Hc' He).
Qed.

Lemma fingerprint_text_inj name name' cols cols' pk pk' :
  validIdentifier name = true → validIdentifier name' = true →
  Forall column_ok cols → Forall column_ok cols' → Forall column_ok pk → Forall column_ok pk' →
  fingerprint_text name cols pk = fingerprint_text name' cols' pk' →
  name = name' ∧ column_shape <$> cols = column_shape <$> cols' ∧ col_Name <$> pk = col_Name <$> pk'.
Proof.
  intros Hn Hn' Hc Hc' Hp Hp' He. unfold fingerprint_text in He.
  apply line_inj in He as [_ He]; [|done..].
  apply line_inj in He as [H1 He]; [|by apply ident_no..].
  apply columns_text_inj in He as [H2 He]; [|done..].
  apply pk_text_inj in He; [|done..]. done.
Qed.

(** *** Built descriptors *)

Lemma descriptor_wf ToLower sha cfg d :
  NewDescriptor ToLower sha cfg = Ok d →
  validIdentifier (d_Name d) = true ∧ d_Name d = tc_Name cfg ∧
  length (d_Columns d) = length (tc_Columns cfg) ∧ Forall column_ok (d_Columns d) ∧
  col_Index <$> d_Columns d = Z.of_nat <$> seq 0 (length (d_Columns d)) ∧
  d_PrimaryKey d ≠ [] ∧
  Forall (λ c, c ∈ d_Columns d ∧ col_Nullable c = false) (d_PrimaryKey d) ∧
  col_Name <$> d_PrimaryKey d = tc_PrimaryKey cfg ∧
  d_VersionColumn d ∈ d_Columns d ∧ integerTypes (col_Type (d_VersionColumn d)) = true ∧
  col_Nullable (d_VersionColumn d) = false ∧
  d_Fingerprint d = sha (fingerprint_text (d_Name d) (d_Columns d) (d_PrimaryKey d)).
Proof.
  unfold NewDescriptor. destruct (validIdentifier (tc_Name cfg)) eqn:Hn; [|done]. simpl.
  case_bool_decide as Hc; [done|].
  intros (columns & Hb & H)%result_bind_ok. case_bool_decide as Hpk; [done|].
  apply result_bind_ok in H as (pk & Hp & H). case_bool_decide; [done|].
  destruct (index_by_name columns !! tc_VersionColumn cfg) as [ver|] eqn:Ev; [|done].
  destruct (integerTypes (col_Type ver)) eqn:Ei; [|done]. simpl in H.
  destruct (col_Nullable ver) eqn:Enl; [done|]. injection H as <-. simpl.
  apply build_columns_ok in Hb as (built & Hbe & Hl & Hb). simpl in Hbe. subst built.
  apply build_pk_ok in Hp as (built & Hpe & HF). simpl in Hpe. subst built.
  assert (∀ j c, columns !! j = Some c → ∃ cc, tc_Columns cfg !! j = Some cc) as Hcc.
  { intros j c Hj. apply lookup_lt_is_Some_2. rewrite <-Hl. by eapply lookup_lt_Some. }
  split_and!; try done.
  - apply Forall_lookup. intros j c Hj. destruct (Hcc j c Hj) as [cc Hcj].
    destruct (Hb j cc Hcj) as (Hj' & ? & ?). rewrite Hj in Hj'. injection Hj' as ->.
    split_and!; simpl; [lia|done|done].
  - apply list_eq. intros j. rewrite !list_lookup_fmap.
    destruct (columns !! j) as [c|] eqn:Hj.
    + destruct (Hcc j c Hj) as [cc Hcj]. destruct (Hb j cc Hcj) as (Hj' & _ & _).
      rewrite Hj in Hj'. injection Hj' as ->. rewrite lookup_seq_lt by (by eapply lookup_lt_Some). done.
    + rewrite lookup_seq_ge; [done|]. by apply lookup_ge_None.
  - intros ->. by inversion HF; subst.
  - clear -HF. induction HF as [|n c ns cs [H1 H2] HF IH]; constructor; [|done].
    by apply index_by_name_in in H1 as [? _].
  - clear -HF. induction HF as [|n c ns cs [H1 H2] HF IH]; [done|]. cbn [fmap list_fmap].
    apply index_by_name_in in H1 as [_ ->]. by f_equal.
  - by apply index_by_name_in in Ev as [? _].
Qed.

Lemma descriptor_columns ToLower sha cfg d :
  NewDescriptor ToLower sha cfg = Ok d →
  validIdentifier (d_Name d) = true ∧ Forall column_ok (d_Columns d) ∧ Forall column_ok (d_PrimaryKey d).
Proof.
  intros (H1 & _ & _ & H2 & _ & _ & H3 & _)%descriptor_wf. split_and!; [done|done|].
  rewrite Forall_forall in H2. eapply Forall_impl; [exact H3|]. intros c [Hc _]. by apply H2.
Qed.

(** ** Properties *)

(** Keys are injective and parse back: the key rendered for a table and its
    primary key values parses to exactly them, whatever bytes the values hold
    (separators, escapes, control bytes, the empty string), so two rows never
    share a key. *)
Theorem ParseKey_roundtrip (k k' : Key) :
  validIdentifier (key_Table k) = true → key_Values k ≠ [] →
  validIdentifier (key_Table k') = true → key_Values k' ≠ [] →
  ParseKey (Key_String k) = Ok k ∧ (Key_String k = Key_String k' ↔ k = k').
Proof.
  intros Ht Hv Ht' Hv'. split; [by apply ParseKey_String|]. split; [|by intros ->].
  intros He. pose proof (ParseKey_String k Ht Hv) as H. rewrite He, ParseKey_String in H by done.
  by injection H.
Qed.

(** What a built descriptor guarantees: plain identifiers, round-trippable
    types and positions for every column, a non-empty primary key of non-null
    columns, an integer non-null version column, all taken from the declared
    columns. *)
Theorem NewDescriptor_wf ToLower sha cfg d :
  NewDescriptor ToLower sha cfg = Ok d →
  validIdentifier (d_Name d) = true ∧ d_Name d = tc_Name cfg ∧
  length (d_Columns d) = length (tc_Columns cfg) ∧ Forall column_ok (d_Columns d) ∧
  col_Index <$> d_Columns d = Z.of_nat <$> seq 0 (length (d_Columns d)) ∧
  d_PrimaryKey d ≠ [] ∧
  Forall (λ c, c ∈ d_Columns d ∧ col_Nullable c = false) (d_PrimaryKey d) ∧
  col_Name <$> d_PrimaryKey d = tc_PrimaryKey cfg ∧
  d_VersionColumn d ∈ d_Columns d ∧ integerTypes (col_Type (d_VersionColumn d)) = true ∧
  col_Nullable (d_VersionColumn d) = false ∧
  d_Fingerprint d = sha (fingerprint_text (d_Name d) (d_Columns d) (d_PrimaryKey d)).
Proof. apply descriptor_wf. Qed.

(** The fingerprint covers the shape of a row: two descriptors hash the same
    text only if they agree on the table, on every column's position, name,
    type and nullability, and on the primary key, so (barring a SHA-256
    collision) an entry is never decoded into another shape. *)
Theorem fingerprint_covers_shape ToLower sha cfg cfg' d d' :
  NewDescriptor ToLower sha cfg = Ok d → NewDescriptor ToLower sha cfg' = Ok d' →
  fingerprint_text (d_Name d) (d_Columns d) (d_PrimaryKey d) =
    fingerprint_text (d_Name d') (d_Columns d') (d_PrimaryKey d') →
  d_Name d = d_Name d' ∧ column_shape <$> d_Columns d = column_shape <$> d_Columns d' ∧
  col_Name <$> d_PrimaryKey d = col_Name <$> d_PrimaryKey d'.
Proof.
  intros Hd Hd'.
  destruct (descriptor_columns _ _ _ _ Hd) as (H1 & H2 & H3).
  destruct (descriptor_columns _ _ _ _ Hd') as (H1' & H2' & H3').
  by apply fingerprint_text_inj.
Qed.

(** A repeated column is accepted.  The check runs against a map that is
    filled only after the loop, so no declaration is ever refused for declaring
    a column twice. *)
Theorem NewDescriptor_accepts_duplicates :
  is_ok (NewDescriptor (λ s, s) (λ s, s)
    (mkTableConfig "t" ["id"] "version"
       [mkColumnConfig "id" Uint64 false ""; mkColumnConfig "version" Uint64 false "";
        mkColumnConfig "x" Uint64 true ""; mkColumnConfig "x" Text false ""])) = true.
Proof. vm_compute. reflexivity. Qed.

(** Validation makes integer keys canonical: a validated key names its
    table, has one value per primary key column, and each integer value is the
    plain decimal rendering of an integer in the column's range, so distinct
    validated keys name distinct rows. *)
Theorem Validate_canonical (d : Descriptor) (k : Key) :
  Descriptor_Validate d k = Ok tt →
  key_Table k = d_Name d ∧
  Forall2 (λ col text,
    match col_Type col with
    | Uint8 => ∃ v, 0 ≤ v < 2 ^ 8 ∧ text = FormatUint v
    | Uint32 => ∃ v, 0 ≤ v < 2 ^ 32 ∧ text = FormatUint v
    | Uint64 => ∃ v, 0 ≤ v < 2 ^ 64 ∧ text = FormatUint v
    | Int64 => ∃ v, is_i64 v ∧ text = FormatInt v
    | OtherType _ => False
    | _ => True
    end) (d_PrimaryKey d) (key_Values k).
Proof.
  unfold Descriptor_Validate. case_bool_decide as Ht; [|done]. simpl.
  destruct (Nat.eqb_spec (length (key_Values k)) (length (d_PrimaryKey d))) as [Hl|]; [|done]. simpl.
  destruct (fits_all (d_PrimaryKey d) (key_Values k)) as [[]| |] eqn:Hf; [|done..]. intros _.
  split; [done|]. clear Ht. revert Hl Hf. generalize (key_Values k). generalize (d_PrimaryKey d).
  intros cols. induction cols as [|col cols IH]; intros [|v vs] Hl Hf; try done.
  apply result_bind_ok in Hf as ([] & Hv & Hf). constructor; [|by apply IH; [simpl in Hl; lia|]].
  unfold fits in Hv. destruct (col_Type col); try done.
  4: { destruct (ParseInt v) as [u| |] eqn:Ep; [|done..]. case_bool_decide; [|done].
       exists u. split; [by apply ParseInt_range in Ep|done]. }
  all: destruct (ParseUint v _) as [u| |] eqn:Ep; [|done..]; case_bool_decide; [|done];
    exists u; (split; [by apply ParseUint_range in Ep|done]).
Qed.

(** ** Witnesses *)

Definition demo_table : TableConfig :=
  mkTableConfig "entities" ["id"; "region"] "version"
    [mkColumnConfig "id" Uint64 false ""; mkColumnConfig "region" String_ false "utf8mb4_bin";
     mkColumnConfig "version" Uint64 false ""; mkColumnConfig "body" Bytes_ true ""].

Definition demo_descriptor : Descriptor :=
  match NewDescriptor (λ s, s) (λ s, s) demo_table with
  | Ok d => d
  | _ => mkDescriptor "" [] [] (mkColumn "" Uint8 false 0 "") "" ∅
  end.

Lemma ParseKey_roundtrip_witness :
  ParseKey "entities:12:a%3Ab" = Ok (mkKey "entities" ["12"; "a:b"]).
Proof.
  exact (proj1 (ParseKey_roundtrip (mkKey "entities" ["12"; "a:b"]) (mkKey "t" ["1"])
    ltac:(vm_compute; reflexivity) ltac:(discriminate) ltac:(vm_compute; reflexivity)
    ltac:(discriminate))).
Defined.

Lemma NewDescriptor_wf_witness : validIdentifier (d_Name demo_descriptor) = true.
Proof.
  refine (proj1 (NewDescriptor_wf (λ s, s) (λ s, s) demo_table demo_descriptor _)).
  vm_compute. reflexivity.
Defined.

Lemma fingerprint_covers_shape_witness :
  column_shape <$> d_Columns demo_descriptor = column_shape <$> d_Columns demo_descriptor.
Proof.
  refine (proj1 (proj2 (fingerprint_covers_shape (λ s, s) (λ s, s) demo_table demo_table
    demo_descriptor demo_descriptor _ _ eq_refl))); vm_compute; reflexivity.
Defined.

Lemma Validate_canonical_witness :
  ∃ v, 0 ≤ v < 2 ^ 64 ∧ "12" = FormatUint v.
Proof.
  destruct (Validate_canonical demo_descriptor (mkKey "entities" ["12"; "eu"])) as [_ H];
    [vm_compute; reflexivity|].
  exact (proj1 (Forall2_cons_1 _ _ _ _ _ H)).
Defined.
