(* ===== verification/Row.v ===== *)
(** Column values and the encoding of rows: [src/internal/schema/row.go].

    A [[]byte] is a string of bytes; where the source distinguishes the nil
    slice, [None] is nil. *)

From S2P Require Import Prelude GoStd Schema.

Local Open Scope Z_scope.

#[local] Arguments Nat.modulo : simpl never.
#[local] Arguments Nat.div : simpl never.

(** ** Values *)

Record Value := mkValue { IsNull : bool; v_Bytes : option string }.

Definition bytes (v : Value) : string := default "" (v_Bytes v).

#[global] Instance Value_eq_dec : EqDecision Value.
Proof. solve_decision. Defined.

Definition Null : Value := mkValue true None.
Definition Str (s : string) : Value := mkValue false (Some s).
Definition Bin (b : option string) : Value := mkValue false b.

(** [appendUintTo]: the digit loop. *)
Fixpoint digits_loop (fuel : nat) (u : Z) (tmp : string) : string :=
  match fuel with
  | O => tmp
  | S fuel => if 0 <? u then digits_loop fuel (u / 10) (String (byte_of (48 + u mod 10)) tmp) else tmp
  end.

Definition appendUintTo (u : Z) : string := if u =? 0 then "0" else digits_loop 20 u "".

Definition appendInt (i : Z) : string :=
  if i <? 0 then "-" +:+ appendUintTo (u64 (- u64 i)) else appendUintTo (u64 i).

Definition Uint (u : Z) : Value := mkValue false (Some (appendUintTo u)).
Definition Int (i : Z) : Value := mkValue false (Some (appendInt i)).

Definition Value_Equal (v o : Value) : bool :=
  if IsNull v || IsNull o then IsNull v && IsNull o else bool_decide (bytes v = bytes o).

(** [Uint64]'s loop, with its own overflow test. *)
Fixpoint uint64_loop (u : Z) (s : string) : result Z :=
  match s with
  | "" => Ok u
  | String c s =>
      if negb (is_digit c) then Err (Errorf "schema: not an unsigned integer")
      else
        let next := u64 (u * 10 + digit_val c) in
        if next <? u then Err (Errorf "schema: overflows a uint64")
        else uint64_loop next s
  end.

Definition Value_Uint64 (v : Value) : result Z :=
  if IsNull v then Err (Errorf "schema: value is NULL")
  else if bool_decide (bytes v = "") then Err (Errorf "schema: empty value is not an integer")
  else uint64_loop 0 (bytes v).

(** A query argument: SQL NULL, a byte slice, a string or an integer. *)
Inductive sqlarg := ArgNull | ArgBlob (b : string) | ArgText (s : string) | ArgNum (n : Z).

#[global] Instance sqlarg_eq_dec : EqDecision sqlarg.
Proof. solve_decision. Defined.

Definition Value_SQL (v : Value) : sqlarg :=
  if IsNull v then ArgNull else ArgBlob (bytes v).

Definition Column_Arg (c : Column) (v : Value) : sqlarg :=
  if IsNull v then ArgNull
  else if bool_decide (col_Type c = Bytes_) then ArgBlob (bytes v)
  else ArgText (bytes v).

(** ** encoding/binary's uvarints *)

Fixpoint AppendUvarint_loop (fuel : nat) (x : Z) : string :=
  match fuel with
  | O => ""
  | S fuel =>
      if 128 <=? x then String (byte_of (Z.lor (Z.land x 255) 128)) (AppendUvarint_loop fuel (Z.shiftr x 7))
      else String (byte_of x) ""
  end.

(** Ten bytes hold any uint64. *)
Definition AppendUvarint (x : Z) : string := AppendUvarint_loop 10 x.

(** [Uvarint]: the value and the number of bytes read; zero bytes on a short
    buffer, a negative count on overflow. *)
Fixpoint Uvarint_loop (i x s : Z) (buf : string) : Z * Z :=
  match buf with
  | "" => (0, 0)
  | String c buf =>
      let b := byte_val c in
      if i =? 10 then (0, - (i + 1))
      else if b <? 128 then
        if (i =? 9) && (1 <? b) then (0, - (i + 1))
        else (Z.lor x (u64 (Z.shiftl b s)), i + 1)
      else Uvarint_loop (i + 1) (Z.lor x (u64 (Z.shiftl (Z.land b 127) s))) (s + 7) buf
  end.

Definition Uvarint (buf : string) : Z * Z := Uvarint_loop 0 0 0 buf.

(** ** Rows *)

Definition rowFormat : Z := 1.

Definition nullBytes (d : Descriptor) : nat := (length (d_Columns d) + 7) / 8.

(** [nulls[i/8] |= 1 << (i % 8)] *)
Definition set_null (i : nat) (nulls : list Z) : list Z :=
  alter (λ b, Z.lor b (Z.shiftl 1 (Z.of_nat (i mod 8)))) (i / 8)%nat nulls.

(** [nulls[i/8] & (1 << (i % 8)) != 0] *)
Definition test_null (i : nat) (nulls : list Z) : bool :=
  match nulls !! (i / 8)%nat with
  | Some b => negb (Z.land b (Z.shiftl 1 (Z.of_nat (i mod 8))) =? 0)
  | None => false
  end.

(** The loop over the values that builds the null bitmap. *)
Fixpoint null_loop (cols : list Column) (i : nat) (values : list Value) (nulls : list Z) :
    result (list Z) :=
  match values with
  | [] => Ok nulls
  | v :: values =>
      if negb (IsNull v) then null_loop cols (S i) values nulls
      else match cols !! i with
           | None => Panic "runtime error: index out of range"
           | Some col =>
               if negb (col_Nullable col) then Err (Errorf "schema: column is NOT NULL but the value is NULL")
               else null_loop cols (S i) values (set_null i nulls)
           end
  end.

Fixpoint encode_values (values : list Value) : string :=
  match values with
  | [] => ""
  | v :: values =>
      (if IsNull v then "" else AppendUvarint (u64 (str_len (bytes v))) +:+ bytes v) +:+
      encode_values values
  end.

Definition EncodeRow (d : Descriptor) (values : list Value) : result string :=
  if negb (length values =? length (d_Columns d))%nat then Err (Errorf "schema: wrong number of values")
  else
    nulls ← null_loop (d_Columns d) 0 values (replicate (nullBytes d) 0);
    Ok (String (byte_of rowFormat) (str_of_bytes nulls) +:+ encode_values values).

(** [append([]byte(nil), b...)]: nil when [b] is empty. *)
Definition copy_bytes (b : string) : option string := if bool_decide (b = "") then None else Some b.

Fixpoint decode_loop (cols : list Column) (i : nat) (nulls : list Z) (rest : string) :
    result (list Value * string) :=
  match cols with
  | [] => Ok ([], rest)
  | col :: cols =>
      if test_null i nulls then
        if negb (col_Nullable col) then Err (Errorf "schema: column is NOT NULL but the encoded row marks it NULL")
        else '(vs, rest) ← decode_loop cols (S i) nulls rest; Ok (Null :: vs, rest)
      else
        let '(n, used) := Uvarint rest in
        if used <=? 0 then Err (Errorf "schema: truncated length")
        else
          let rest := str_drop (Z.to_nat used) rest in
          if str_len rest <? n then Err (Errorf "schema: value claims more bytes than remain")
          else
            '(vs, rest') ← decode_loop cols (S i) nulls (str_drop (Z.to_nat n) rest);
            Ok (mkValue false (copy_bytes (str_take (Z.to_nat n) rest)) :: vs, rest')
  end.

Definition DecodeRow (d : Descriptor) (b : string) : result (list Value) :=
  if str_len b <? 1 + Z.of_nat (nullBytes d) then Err (Errorf "schema: encoded row too short")
  else match b with
       | "" => Panic "runtime error: index out of range"
       | String c tail =>
           if negb (byte_val c =? rowFormat) then Err (Errorf "schema: encoded row has an unknown format")
           else
             let nulls := bytes_of_str (str_take (nullBytes d) tail) in
             '(values, rest) ← decode_loop (d_Columns d) 0 nulls (str_drop (nullBytes d) tail);
             if negb (str_len rest =? 0) then Err (Errorf "schema: bytes left over")
             else Ok values
       end.

(** ** Lemmas: bytes *)

Lemma byte_val_of_mod z : byte_val (byte_of z) = z mod 256.
Proof.
  unfold byte_val, byte_of. pose proof (Z.mod_pos_bound z 256 ltac:(lia)).
  rewrite N_ascii_embedding; lia.
Qed.

Lemma str_take_app s t : str_take (Z.to_nat (str_len s)) (s +:+ t) = s.
Proof.
  induction s as [|c s IH]; [by destruct t|]. cbn [str_len]. pose proof (str_len_nonneg s).
  rewrite Z2Nat.inj_add by lia. change (Z.to_nat 1) with 1%nat. simpl. by rewrite IH.
Qed.

Lemma str_drop_app s t : str_drop (Z.to_nat (str_len s)) (s +:+ t) = t.
Proof.
  induction s as [|c s IH]; [by destruct t|]. cbn [str_len]. pose proof (str_len_nonneg s).
  rewrite Z2Nat.inj_add by lia. change (Z.to_nat 1) with 1%nat. simpl. by rewrite IH.
Qed.

Lemma app_assoc_s (a b c : string) : (a +:+ b) +:+ c = a +:+ (b +:+ c).
Proof. induction a as [|x a IH]; simpl; [done|]. by rewrite IH. Qed.

Lemma str_of_bytes_len l : str_len (str_of_bytes l) = Z.of_nat (length l).
Proof. induction l; simpl; lia. Qed.

Lemma bytes_of_str_of_bytes l :
  Forall (λ b, 0 ≤ b < 256) l → bytes_of_str (str_of_bytes l) = l.
Proof.
  induction 1 as [|b l Hb _ IH]; [done|]. simpl. by rewrite byte_val_of, IH.
Qed.

(** ** Lemmas: uvarints *)

Lemma lor_shift_add x b s : 0 ≤ s → 0 ≤ x < 2 ^ s → 0 ≤ b → Z.lor x (Z.shiftl b s) = x + b * 2 ^ s.
Proof.
  intros Hs Hx Hb. assert (Z.land x (Z.shiftl b s) = 0) as H0.
  { apply Z.bits_inj_iff'. intros n Hn. rewrite Z.land_spec, Z.bits_0.
    destruct (Z.ltb_spec n s).
    - rewrite Z.shiftl_spec_low by lia. apply andb_false_r.
    - rewrite <-(Z.mod_small x (2 ^ s)) by lia. by rewrite Z.mod_pow2_bits_high by lia. }
  pose proof (Z.add_lor_land x (Z.shiftl b s)). rewrite Z.shiftl_mul_pow2 in * by lia. lia.
Qed.

Lemma lor_128 x : 0 ≤ x → Z.lor (Z.land x 255) 128 = 128 + x mod 128.
Proof.
  intros Hx. change 255 with (Z.ones 8). rewrite Z.land_ones by lia. change (2 ^ 8) with 256.
  assert (∀ c, Z.lor (byte_val c) 128 = 128 + byte_val c mod 128) as Hall.
  { intros [[] [] [] [] [] [] [] []]; reflexivity. }
  pose proof (Z.mod_pos_bound x 256 ltac:(lia)).
  rewrite <-(byte_val_of (x mod 256)) at 1 by done. rewrite Hall, byte_val_of by done.
  pose proof (Z.div_mod x 256 ltac:(lia)). pose proof (Z.div_mod (x mod 256) 128 ltac:(lia)).
  pose proof (Z.mod_pos_bound (x mod 256) 128 ltac:(lia)).
  f_equal. apply (Z.mod_unique _ _ (2 * (x / 256) + x mod 256 / 128)); lia.
Qed.

Lemma Uvarint_loop_append fuel i acc x rest :
  (Z.of_nat fuel = 10 - i) → 0 ≤ i ≤ 9 → 0 ≤ acc < 2 ^ (7 * i) → 0 ≤ x < 2 ^ (64 - 7 * i) →
  Uvarint_loop i acc (7 * i) (AppendUvarint_loop fuel x +:+ rest) =
    (acc + x * 2 ^ (7 * i), i + str_len (AppendUvarint_loop fuel x)) ∧
  1 ≤ str_len (AppendUvarint_loop fuel x).
Proof.
  revert i acc x. induction fuel as [|fuel IH]; intros i acc x Hf Hi Hacc Hx; [lia|].
  cbn [AppendUvarint_loop]. destruct (Z.leb_spec 128 x) as [Hge|Hlt]; cbn [Uvarint_loop String.append].
  - assert (i ≤ 8) as Hi8.
    { destruct (decide (i = 9)) as [->|]; [change (64 - 7 * 9) with 1 in Hx; lia|lia]. }
    rewrite (proj2 (Z.eqb_neq i 10)) by lia.
    rewrite byte_val_of_mod, lor_128 by lia.
    pose proof (Z.mod_pos_bound x 128 ltac:(lia)) as Hm.
    rewrite (Z.mod_small (128 + x mod 128)) by lia. rewrite (proj2 (Z.ltb_ge _ _)) by lia.
    assert (Z.land (128 + x mod 128) 127 = x mod 128) as Hl.
    { change 127 with (Z.ones 7). rewrite Z.land_ones by lia. change (2 ^ 7) with 128.
      symmetry. apply (Z.mod_unique _ _ 1); lia. }
    rewrite Hl. assert (0 < 2 ^ (7 * i)) by (apply Z.pow_pos_nonneg; lia).
    assert (2 ^ (7 * i) ≤ 2 ^ 56) by (apply Z.pow_le_mono_r; lia).
    rewrite u64_id.
    2: { unfold is_u64. rewrite Z.shiftl_mul_pow2 by lia. nia. }
    rewrite lor_shift_add by lia. rewrite Z.shiftr_div_pow2 by lia. change (2 ^ 7) with 128.
    replace (7 * i + 7) with (7 * (i + 1)) by lia.
    assert (2 ^ (7 * (i + 1)) = 128 * 2 ^ (7 * i)) as Hp.
    { replace (7 * (i + 1)) with (7 + 7 * i) by lia. by rewrite Z.pow_add_r by lia. }
    assert (2 ^ (64 - 7 * i) = 128 * 2 ^ (64 - 7 * (i + 1))) as Hp'.
    { replace (64 - 7 * i) with (7 + (64 - 7 * (i + 1))) by lia. by rewrite Z.pow_add_r by lia. }
    pose proof (Z.div_mod x 128 ltac:(lia)).
    destruct (IH (i + 1) (acc + x mod 128 * 2 ^ (7 * i)) (x / 128)) as [-> ?]; [lia|lia| | |].
    + rewrite Hp. nia.
    + split; [apply Z.div_pos; lia|]. apply Z.div_lt_upper_bound; [lia|]. lia.
    + cbn [str_len]. rewrite Hp. split; [f_equal; nia|lia].
  - rewrite (proj2 (Z.eqb_neq i 10)) by lia. rewrite byte_val_of by lia.
    rewrite (proj2 (Z.ltb_lt x 128)) by done.
    assert ((i =? 9) && (1 <? x) = false) as ->.
    { destruct (Z.eqb_spec i 9) as [->|]; [|done]. change (2 ^ (64 - 7 * 9)) with 2 in Hx. simpl. lia. }
    assert (0 < 2 ^ (7 * i)) by (apply Z.pow_pos_nonneg; lia).
    assert (x * 2 ^ (7 * i) < 2 ^ 64).
    { replace 64 with (64 - 7 * i + 7 * i) by lia. rewrite Z.pow_add_r by lia. nia. }
    rewrite u64_id by (unfold is_u64; rewrite Z.shiftl_mul_pow2 by lia; nia).
    rewrite lor_shift_add by lia. cbn [str_len]. split; [f_equal; lia|lia].
Qed.

Lemma Uvarint_append x rest :
  is_u64 x → Uvarint (AppendUvarint x +:+ rest) = (x, str_len (AppendUvarint x)) ∧
             1 ≤ str_len (AppendUvarint x).
Proof.
  intros Hx. unfold is_u64 in Hx.
  destruct (Uvarint_loop_append 10 0 0 x rest) as [H1 H2]; [lia|lia|simpl; lia|simpl; lia|].
  unfold Uvarint, AppendUvarint. change (7 * 0) with 0 in H1. rewrite H1. split; [f_equal; lia|done].
Qed.

(** ** Lemmas: the null bitmap *)

Lemma test_null_bit i nulls :
  test_null i nulls = match nulls !! (i / 8)%nat with
                      | Some b => Z.testbit b (Z.of_nat (i mod 8)) | None => false end.
Proof.
  unfold test_null. destruct (nulls !! (i / 8)%nat) as [b|]; [|done].
  set (k := Z.of_nat (i mod 8)). assert (0 ≤ k) as Hk by lia.
  destruct (Z.eqb_spec (Z.land b (Z.shiftl 1 k)) 0) as [H0|H0]; simpl.
  - apply (f_equal (λ z, Z.testbit z k)) in H0. rewrite Z.land_spec, Z.shiftl_spec, Z.bits_0 in H0 by lia.
    rewrite Z.sub_diag in H0. simpl in H0. by rewrite andb_true_r in H0.
  - destruct (Z.testbit b k) eqn:Eb; [done|]. exfalso. apply H0. apply Z.bits_inj_iff'. intros n Hn.
    rewrite Z.land_spec, Z.bits_0. destruct (Z.eq_dec n k) as [->|Hne]; [by rewrite Eb|].
    rewrite Z.shiftl_spec by lia. destruct (Z.ltb_spec n k).
    + rewrite (Z.testbit_neg_r 1 (n - k)) by lia. apply andb_false_r.
    + rewrite (Z.bits_above_log2 1 (n - k)); [apply andb_false_r|lia|simpl; lia].
Qed.

Lemma test_set_null i j nulls :
  (i / 8 < length nulls)%nat → test_null j (set_null i nulls) = bool_decide (i = j) || test_null j nulls.
Proof.
  intros Hi. rewrite !test_null_bit. unfold set_null.
  destruct (decide (i / 8 = j / 8)%nat) as [He|He].
  - rewrite <-He, list_lookup_alter_eq.
    destruct (lookup_lt_is_Some_2 nulls (i / 8)%nat Hi) as [b ->]. simpl.
    rewrite Z.lor_spec, Z.shiftl_spec by lia. rewrite orb_comm. f_equal.
    pose proof (Nat.div_mod_eq i 8). pose proof (Nat.div_mod_eq j 8).
    destruct (decide (i = j)) as [->|Hne].
    + rewrite bool_decide_eq_true_2, Z.sub_diag by done. done.
    + rewrite bool_decide_eq_false_2 by done.
      assert (i mod 8 ≠ j mod 8)%nat by lia.
      destruct (Z.ltb_spec (Z.of_nat (j mod 8)) (Z.of_nat (i mod 8))).
      * by rewrite Z.testbit_neg_r by lia.
      * apply Z.bits_above_log2; [lia|]. simpl. lia.
  - rewrite list_lookup_alter_ne by done.
    rewrite bool_decide_eq_false_2 by (intros ->; done). done.
Qed.

Lemma set_null_range i nulls :
  Forall (λ b, 0 ≤ b < 256) nulls → Forall (λ b, 0 ≤ b < 256) (set_null i nulls).
Proof.
  intros H. unfold set_null. apply Forall_alter; [done|]. intros b _ Hb. simpl.
  assert (i mod 8 < 8)%nat as Hm by (apply Nat.mod_upper_bound; lia).
  assert (∀ c k, (k < 8)%nat → 0 ≤ Z.lor (byte_val c) (Z.shiftl 1 (Z.of_nat k)) < 256) as Hall.
  { intros c k Hk. destruct k as [|[|[|[|[|[|[|[|]]]]]]]]; [..|lia];
      destruct c as [[] [] [] [] [] [] [] []]; vm_compute; split; congruence. }
  rewrite <-(byte_val_of b) by done. by apply Hall.
Qed.

Lemma null_loop_spec cols i values nulls nulls' :
  null_loop cols i values nulls = Ok nulls' →
  Forall (λ b, 0 ≤ b < 256) nulls →
  (∀ j, (j < i + length values)%nat → (j / 8 < length nulls)%nat) →
  length nulls' = length nulls ∧ Forall (λ b, 0 ≤ b < 256) nulls' ∧
  (∀ j, test_null j nulls' =
     test_null j nulls || match values !! (j - i)%nat with
                          | Some v => bool_decide (i ≤ j)%nat && IsNull v | None => false end) ∧
  (∀ j v col, values !! j = Some v → cols !! (i + j)%nat = Some col → IsNull v = true → col_Nullable col = true).
Proof.
  revert i nulls. induction values as [|v values IH]; intros i nulls; cbn [null_loop]; intros H Hr Hlen.
  - injection H as <-. split_and!; [done|done| |done]. intros j. by rewrite orb_false_r.
  - assert (∀ nulls1 : list Z, length nulls1 = length nulls →
      ∀ j, (j < S i + length values)%nat → (j / 8 < length nulls1)%nat) as Hlen1.
    { intros n1 Hn1 j Hj. rewrite Hn1. apply Hlen. simpl. lia. }
    assert (∀ j : nat, (j < i)%nat ∨ i = j ∨ (i < j)%nat ∧ (j - i)%nat = S (j - S i)) as Hcase by lia.
    destruct (IsNull v) eqn:Ev; simpl in H.
    + destruct (cols !! i) as [col|] eqn:Ec; [|done]. destruct (col_Nullable col) eqn:En; [|done]. simpl in H.
      assert (i / 8 < length nulls)%nat as Hi by (apply Hlen; simpl; lia).
      assert (length (set_null i nulls) = length nulls) as Hl by apply length_alter.
      destruct (IH (S i) _ H (set_null_range i _ Hr) (Hlen1 _ Hl)) as (H1 & H2 & H3 & H4).
      split_and!; [congruence|done| |].
      * intros j. rewrite H3, test_set_null by done. destruct (Hcase j) as [Hj|[->|[Hj Hji]]].
        -- replace (j - i)%nat with 0%nat by lia. replace (j - S i)%nat with 0%nat by lia. simpl.
           rewrite (bool_decide_eq_false_2 (i = j)), (bool_decide_eq_false_2 (i ≤ j)%nat) by lia. simpl.
           destruct values as [|v' values]; [done|]. simpl. by rewrite bool_decide_eq_false_2 by lia.
        -- rewrite Nat.sub_diag, (bool_decide_eq_true_2 (j = j)), (bool_decide_eq_true_2 (j ≤ j)%nat) by lia.
           simpl. rewrite Ev, orb_true_r. done.
        -- rewrite Hji, (bool_decide_eq_false_2 (i = j)) by lia. simpl.
           destruct (values !! (j - S i)%nat); [|done].
           by rewrite !bool_decide_eq_true_2 by lia.
      * intros [|j] v0 col0; simpl.
        -- intros [= <-]. rewrite Nat.add_0_r, Ec. intros [= <-] _. done.
        -- rewrite Nat.add_succ_r. apply H4.
    + destruct (IH (S i) _ H Hr (Hlen1 _ eq_refl)) as (H1 & H2 & H3 & H4). split_and!; [done|done| |].
      * intros j. rewrite H3. f_equal. destruct (Hcase j) as [Hj|[->|[Hj Hji]]].
        -- replace (j - i)%nat with 0%nat by lia. replace (j - S i)%nat with 0%nat by lia. simpl.
           rewrite (bool_decide_eq_false_2 (i ≤ j)%nat) by lia.
           destruct values as [|v' values]; [done|]. simpl. by rewrite bool_decide_eq_false_2 by lia.
        -- rewrite Nat.sub_diag. simpl. rewrite Ev, andb_false_r.
           replace (j - S j)%nat with 0%nat by lia.
           destruct values as [|v' values]; [done|]. simpl. by rewrite bool_decide_eq_false_2 by lia.
        -- rewrite Hji. simpl. destruct (values !! (j - S i)%nat); [|done].
           by rewrite !bool_decide_eq_true_2 by lia.
      * intros [|j] v0 col0; simpl.
        -- intros [= <-] _ ?. congruence.
        -- rewrite Nat.add_succ_r. apply H4.
Qed.

Lemma test_null_zero n j : test_null j (replicate n 0) = false.
Proof.
  rewrite test_null_bit. destruct (replicate n 0 !! (j / 8)%nat) as [b|] eqn:E; [|done].
  apply lookup_replicate in E as [-> _]. apply Z.bits_0.
Qed.

(** ** Lemmas: rows *)

(** What a value is after a trip through the encoding: a NULL has no bytes, and
    an empty value has none to copy. *)
Definition norm (v : Value) : Value :=
  if IsNull v then Null else mkValue false (copy_bytes (bytes v)).

Lemma bytes_copy b : default "" (copy_bytes b) = b.
Proof. unfold copy_bytes. by case_bool_decide. Qed.

Lemma norm_Equal v : Value_Equal (norm v) v = true.
Proof.
  unfold norm, Value_Equal. destruct (IsNull v); simpl; [done|].
  apply bool_decide_eq_true. apply bytes_copy.
Qed.

Lemma decode_loop_encode cols : ∀ i values nulls rest,
  length values = length cols →
  (∀ j v, values !! j = Some v → test_null (i + j) nulls = IsNull v) →
  (∀ j v col, values !! j = Some v → cols !! j = Some col → IsNull v = true → col_Nullable col = true) →
  Forall (λ v, str_len (bytes v) < 2 ^ 63) values →
  decode_loop cols i nulls (encode_values values +:+ rest) = Ok (norm <$> values, rest).
Proof.
  induction cols as [|col cols IH]; intros i [|v values] nulls rest Hlen Hnull Hcol Hsz; try done.
  simpl in Hlen. injection Hlen as Hlen. apply Forall_cons in Hsz as [Hv Hsz].
  pose proof (Hnull 0%nat v eq_refl) as Hn0. rewrite Nat.add_0_r in Hn0.
  assert (∀ j v', values !! j = Some v' → test_null (S i + j) nulls = IsNull v') as Hnull'.
  { intros j v' Hj. rewrite <-(Hnull (S j) v' Hj). f_equal. lia. }
  specialize (IH (S i) values nulls rest Hlen Hnull' (λ j, Hcol (S j)) Hsz).
  cbn [decode_loop encode_values]. rewrite Hn0.
  change (norm <$> v :: values) with (norm v :: (norm <$> values)). unfold norm at 1.
  destruct (IsNull v) eqn:Ev.
  - rewrite (Hcol 0%nat v col eq_refl eq_refl Ev). cbn [String.append negb].
    rewrite IH. done.
  - pose proof (str_len_nonneg (bytes v)).
    assert (is_u64 (u64 (str_len (bytes v)))) as Hu.
    { rewrite u64_id; unfold is_u64; lia. }
    rewrite !app_assoc_s.
    destruct (Uvarint_append (u64 (str_len (bytes v))) (bytes v +:+ encode_values values +:+ rest) Hu) as [-> H1].
    rewrite u64_id in * by (unfold is_u64; lia).
    rewrite (proj2 (Z.leb_gt _ 0)) by lia. rewrite str_drop_app.
    rewrite str_len_app. pose proof (str_len_nonneg (encode_values values +:+ rest)).
    rewrite (proj2 (Z.ltb_ge _ _)) by lia. rewrite str_take_app, str_drop_app, IH. done.
Qed.

Lemma decode_loop_shape cols : ∀ i nulls rest vs rest',
  decode_loop cols i nulls rest = Ok (vs, rest') →
  Forall2 (λ col v, col_Nullable col = true ∨ IsNull v = false) cols vs.
Proof.
  induction cols as [|col cols IH]; intros i nulls rest vs rest'; cbn [decode_loop].
  { intros [= <- <-]. constructor. }
  destruct (test_null i nulls).
  - destruct (col_Nullable col) eqn:En; [|done]. simpl.
    destruct (decode_loop cols (S i) nulls rest) as [[vs1 r1]|e|m] eqn:E; simpl; [|done..].
    intros [= <- <-]. constructor; [by left|]. by eapply IH.
  - destruct (Uvarint rest) as [n used]. destruct (used <=? 0); [done|].
    destruct (str_len _ <? n); [done|].
    destruct (decode_loop cols _ _ _) as [[vs1 r1]|e|m] eqn:E; simpl; [|done..].
    intros [= <- <-]. constructor; [by right|]. by eapply IH.
Qed.

Lemma decode_loop_total cols : ∀ i nulls rest m, decode_loop cols i nulls rest ≠ Panic m.
Proof.
  induction cols as [|col cols IH]; intros i nulls rest m; cbn [decode_loop]; [done|].
  destruct (test_null i nulls).
  - destruct (negb _); [done|].
    destruct (decode_loop cols (S i) nulls rest) as [[vs1 r1]|e|m1] eqn:E; [done..|by destruct (IH _ _ _ _ E)].
  - destruct (Uvarint rest) as [n used]. destruct (used <=? 0); [done|].
    destruct (str_len _ <? n); [done|].
    destruct (decode_loop cols _ _ _) as [[vs1 r1]|e|m1] eqn:E; [done..|by destruct (IH _ _ _ _ E)].
Qed.

Lemma null_loop_ok cols : ∀ i values nulls,
  (i + length values ≤ length cols)%nat →
  (∀ j v col, values !! j = Some v → cols !! (i + j)%nat = Some col → IsNull v = true → col_Nullable col = true) →
  ∃ nulls', null_loop cols i values nulls = Ok nulls'.
Proof.
  intros i values. revert i. induction values as [|v values IH]; intros i nulls Hlen Hok; cbn [null_loop].
  { by eexists. }
  simpl in Hlen.
  assert (∀ nulls, ∃ nulls', null_loop cols (S i) values nulls = Ok nulls') as Hrec.
  { intros n1. apply IH; [lia|]. intros j v' col' Hj Hc. apply (Hok (S j) v' col' Hj).
    by rewrite Nat.add_succ_r. }
  destruct (IsNull v) eqn:Ev; [|apply Hrec]. simpl.
  destruct (lookup_lt_is_Some_2 cols i ltac:(lia)) as [col Hc]. rewrite Hc.
  rewrite (Hok 0%nat v col eq_refl); [apply Hrec|by rewrite Nat.add_0_r|done].
Qed.

Lemma null_loop_total cols : ∀ i values nulls m,
  (i + length values ≤ length cols)%nat → null_loop cols i values nulls ≠ Panic m.
Proof.
  intros i values. revert i. induction values as [|v values IH]; intros i nulls m Hlen; cbn [null_loop]; [done|].
  simpl in Hlen. destruct (IsNull v); [|apply IH; lia]. simpl.
  destruct (lookup_lt_is_Some_2 cols i ltac:(lia)) as [col ->].
  destruct (col_Nullable col); [|done]. apply IH. lia.
Qed.

Lemma digits_loop_S fuel u tmp :
  0 < u → digits_loop (S fuel) u tmp = digits_loop fuel (u / 10) (String (byte_of (48 + u mod 10)) tmp).
Proof. intros H. cbn [digits_loop]. by rewrite (proj2 (Z.ltb_lt 0 u)) by done. Qed.

Lemma digits_loop_dec fuel : ∀ u tmp,
  0 ≤ u < 10 ^ Z.of_nat fuel → str_all is_digit tmp = true →
  dec_val 0 (digits_loop fuel u tmp) = dec_val u tmp ∧ str_all is_digit (digits_loop fuel u tmp) = true ∧
  (0 < u ∨ tmp ≠ "" → digits_loop fuel u tmp ≠ "").
Proof.
  induction fuel as [|fuel IH]; intros u tmp Hu Ht.
  - assert (u = 0) as -> by (simpl in Hu; lia). split_and!; [done|done|]. intros [?|?]; [lia|done].
  - destruct (Z.ltb_spec 0 u) as [Hpos|].
    2: { assert (u = 0) as -> by lia. split_and!; [done|done|]. intros [?|?]; [lia|done]. }
    rewrite digits_loop_S by done. pose proof (Z.mod_pos_bound u 10 ltac:(lia)).
    pose proof (Z.div_mod u 10 ltac:(lia)).
    rewrite Nat2Z.inj_succ, Z.pow_succ_r in Hu by lia.
    destruct (IH (u / 10) (String (byte_of (48 + u mod 10)) tmp)) as (H1 & H2 & H3).
    + split; [apply Z.div_pos; lia|]. apply Z.div_lt_upper_bound; lia.
    + cbn [str_all]. rewrite Ht, andb_true_r. by apply is_digit_digit.
    + split_and!; [|done|intros _; apply H3; by right].
      rewrite H1. simpl. unfold digit_val. rewrite byte_val_of by lia. f_equal. lia.
Qed.

(** The source's own digit loop renders what [strconv.FormatUint] does. *)
Lemma digits_loop_fmt_dec fuel : ∀ f2 u tmp,
  0 < u < 10 ^ Z.of_nat fuel → (Z.to_nat (Z.log2 u) < f2)%nat → digits_loop fuel u tmp = fmt_dec f2 u tmp.
Proof.
  induction fuel as [|fuel IH]; intros f2 u tmp Hu Hf; [simpl in Hu; lia|].
  destruct f2 as [|f2]; [lia|]. rewrite digits_loop_S by lia. cbn [fmt_dec].
  destruct (Z.ltb_spec u 10) as [Hlt|Hge].
  - rewrite Z.div_small, Z.mod_small by lia. by destruct fuel.
  - pose proof (fmt_dec_fuel_step u Hge). rewrite Nat2Z.inj_succ, Z.pow_succ_r in Hu by lia.
    apply IH; [|lia]. split; [apply Z.div_str_pos; lia|]. apply Z.div_lt_upper_bound; lia.
Qed.

Lemma appendUintTo_FormatUint u : is_u64 u → appendUintTo u = FormatUint u.
Proof.
  unfold is_u64, appendUintTo, FormatUint. intros Hu. destruct (Z.eqb_spec u 0) as [->|Hne]; [done|].
  apply digits_loop_fmt_dec; [simpl; lia|lia].
Qed.

Lemma appendUintTo_spec u :
  is_u64 u → dec_val 0 (appendUintTo u) = u ∧ str_all is_digit (appendUintTo u) = true ∧ appendUintTo u ≠ "".
Proof.
  unfold is_u64, appendUintTo. intros Hu. destruct (Z.eqb_spec u 0) as [->|Hne]; [done|].
  destruct (digits_loop_dec 20 u "") as (H1 & H2 & H3); [simpl; lia|done|].
  split_and!; [done|done|]. apply H3. left. lia.
Qed.

Lemma dec_val_mono s : ∀ a, 0 ≤ a → str_all is_digit s = true → a ≤ dec_val a s.
Proof.
  induction s as [|c s IH]; intros a Ha Hs; simpl in *; [lia|].
  apply andb_prop in Hs as [Hc Hs]. apply is_digit_val in Hc.
  specialize (IH (10 * a + digit_val c) ltac:(lia) Hs). lia.
Qed.

Lemma uint64_loop_ok s : ∀ u,
  0 ≤ u → str_all is_digit s = true → dec_val u s < 2 ^ 64 → uint64_loop u s = Ok (dec_val u s).
Proof.
  induction s as [|c s IH]; intros u Hu Hs Hv; simpl in *; [done|].
  apply andb_prop in Hs as [Hc Hs]. rewrite Hc. simpl. apply is_digit_val in Hc.
  pose proof (dec_val_mono s (10 * u + digit_val c) ltac:(lia) Hs).
  rewrite u64_id by (unfold is_u64; lia). rewrite (proj2 (Z.ltb_ge _ _)) by lia.
  replace (u * 10 + digit_val c) with (10 * u + digit_val c) by lia. by apply IH; [lia| |].
Qed.

(** A row fits its descriptor: one value per column, NULL only where the
    column is declared nullable. *)
Definition row_ok (d : Descriptor) (values : list Value) : Prop :=
  Forall2 (λ col v, col_Nullable col = true ∨ IsNull v = false) (d_Columns d) values.

#[global] Instance row_ok_dec d values : Decision (row_ok d values).
Proof. unfold row_ok. apply Forall2_dec. intros col v. apply _. Defined.

Lemma row_ok_nulls d values :
  row_ok d values ↔ length values = length (d_Columns d) ∧
    ∀ j v col, values !! j = Some v → d_Columns d !! j = Some col → IsNull v = true → col_Nullable col = true.
Proof.
  unfold row_ok. rewrite Forall2_same_length_lookup. split; intros [Hl H]; (split; [done|]).
  - intros j v col Hv Hc Hn. destruct (H j col v Hc Hv); [done|congruence].
  - intros j col v Hc Hv. destruct (IsNull v) eqn:E; [|by right]. left. by eapply H.
Qed.

Lemma EncodeRow_spec d values :
  Forall (λ v, str_len (bytes v) < 2 ^ 63) values →
  (row_ok d values → ∃ b, EncodeRow d values = Ok b ∧ DecodeRow d b = Ok (norm <$> values)) ∧
  (¬ row_ok d values → ∃ e, EncodeRow d values = Err e).
Proof.
  intros Hsz. rewrite row_ok_nulls. unfold EncodeRow.
  destruct (Nat.eqb_spec (length values) (length (d_Columns d))) as [Hlen|Hlen]; simpl negb; cbn iota.
  2: { split; [by intros [? _]|intros _; by eexists]. }
  assert (∀ j, (j < 0 + length values)%nat → (j / 8 < length (replicate (nullBytes d) 0%Z))%nat) as Hb.
  { intros j Hj. rewrite length_replicate. unfold nullBytes. rewrite <-Hlen. clear -Hj.
    apply Nat.div_lt_upper_bound; [lia|].
    pose proof (Nat.div_mod_eq (length values + 7) 8). pose proof (Nat.mod_upper_bound (length values + 7) 8 ltac:(lia)). lia. }
  split.
  - intros [_ Hok]. destruct (null_loop_ok (d_Columns d) 0 values (replicate (nullBytes d) 0)) as [nulls Hn];
      [lia|done|]. rewrite Hn. eexists. split; [done|].
    destruct (null_loop_spec _ _ _ _ _ Hn) as (Hl & Hr & Ht & _);
      [by apply Forall_replicate|exact Hb|]. rewrite length_replicate in Hl.
    unfold DecodeRow. cbn [String.append str_len].
    rewrite str_len_app, str_of_bytes_len, Hl. pose proof (str_len_nonneg (encode_values values)).
    rewrite (proj2 (Z.ltb_ge _ _)) by lia. rewrite byte_val_of by (unfold rowFormat; lia).
    rewrite Z.eqb_refl. simpl negb. cbn iota.
    replace (nullBytes d) with (Z.to_nat (str_len (str_of_bytes nulls))) by (rewrite str_of_bytes_len; lia).
    rewrite str_take_app, str_drop_app, bytes_of_str_of_bytes by done.
    pose proof (decode_loop_encode (d_Columns d) 0 values nulls "" Hlen) as Hd.
    rewrite str_app_nil_r in Hd. rewrite Hd; [done| |done|done].
    intros j v Hj. rewrite Ht, test_null_zero, Nat.sub_0_r. simpl. by rewrite Hj.
  - intros Hno. destruct (null_loop _ _ _ _) as [nulls|e|m] eqn:E; [|by eexists|].
    + destruct Hno. split; [done|].
      destruct (null_loop_spec _ _ _ _ _ E) as (_ & _ & _ & Hcol); [by apply Forall_replicate|exact Hb|exact Hcol].
    + exfalso. eapply null_loop_total; [|exact E]. lia.
Qed.

Lemma DecodeRow_spec d b :
  (∀ m, DecodeRow d b ≠ Panic m) ∧ (∀ values, DecodeRow d b = Ok values → row_ok d values).
Proof.
  unfold DecodeRow. destruct (Z.ltb_spec (str_len b) (1 + Z.of_nat (nullBytes d))); [done|].
  destruct b as [|c tail]; [simpl in *; lia|]. destruct (negb _); [done|].
  destruct (decode_loop _ _ _ _) as [[vs r]|e|m] eqn:E; simpl.
  - destruct (negb _); [done|]. split; [done|]. intros values [= <-]. by eapply decode_loop_shape.
  - done.
  - by destruct (decode_loop_total _ _ _ _ _ E).
Qed.

(** What encodes decodes, and nothing here panics. *)
Lemma EncodeRow_decodes d values b :
  Forall (λ v, str_len (bytes v) < 2 ^ 63) values → EncodeRow d values = Ok b →
  DecodeRow d b = Ok (norm <$> values).
Proof.
  intros Hsz He. destruct (EncodeRow_spec d values Hsz) as [Hok Hno].
  destruct (decide (row_ok d values)) as [Hr|Hr].
  - destruct (Hok Hr) as (b' & Hb & Hd). congruence.
  - destruct (Hno Hr) as [e Hb]. congruence.
Qed.

Lemma EncodeRow_no_panic d values m : EncodeRow d values ≠ Panic m.
Proof.
  unfold EncodeRow. destruct (Nat.eqb_spec (length values) (length (d_Columns d))) as [Hl|]; [|done]. cbn [negb].
  destruct (null_loop _ _ _ _) eqn:E; [done|done|]. intros _. eapply null_loop_total; [|exact E]. lia.
Qed.

(** ** Properties *)

(** C33: For every descriptor and every list of values (each shorter than
    2^63 bytes), EncodeRow succeeds exactly when there is one value per column
    and every NULL is in a nullable column; what it writes, DecodeRow reads
    back as the same row, NULLs and empty values kept apart; otherwise it is an
    error, never a panic. *)
Theorem EncodeRow_roundtrip d values :
  Forall (λ v, str_len (bytes v) < 2 ^ 63) values →
  (row_ok d values → ∃ b, EncodeRow d values = Ok b ∧ DecodeRow d b = Ok (norm <$> values)) ∧
  (¬ row_ok d values → ∃ e, EncodeRow d values = Err e).
Proof. apply EncodeRow_spec. Qed.

(** C34: Whatever bytes the cache holds, DecodeRow answers with a row or an
    error, never a panic, and a row it returns has one value per column and no
    NULL in a NOT NULL column: a corrupt or hostile entry is refused, not served. *)
Theorem DecodeRow_safe d b :
  (∀ m, DecodeRow d b ≠ Panic m) ∧ (∀ values, DecodeRow d b = Ok values → row_ok d values).
Proof. apply DecodeRow_spec. Qed.

(** Value.Uint64 reads back every uint64 that Uint writes. Its overflow
    test is only that the wrapped product did not become smaller, so it accepts
    some numerals above 2^64-1, with the value wrapped: 29999999999999999999 is
    read as 11553255926290448383. *)
Theorem Value_Uint64_overflow :
  (∀ u, is_u64 u → Value_Uint64 (Uint u) = Ok u) ∧
  dec_val 0 "29999999999999999999" = 29999999999999999999 ∧
  2 ^ 64 < 29999999999999999999 ∧
  Value_Uint64 (Str "29999999999999999999") = Ok 11553255926290448383.
Proof.
  split_and!; [|done|done|by vm_compute].
  intros u Hu. destruct (appendUintTo_spec u Hu) as (Hd & Ha & Hne).
  unfold Value_Uint64, Uint, bytes. cbn [IsNull v_Bytes default from_option id].
  rewrite bool_decide_eq_false_2 by done.
  rewrite uint64_loop_ok, Hd; [done|lia|done|]. rewrite Hd. unfold is_u64 in Hu. lia.
Qed.

(** ** Witnesses *)

Definition row_d : Descriptor :=
  let id := mkColumn "id" Uint64 false 0 "" in
  let bio := mkColumn "bio" Text true 1 "" in
  let raw := mkColumn "raw" Bytes_ true 2 "" in
  mkDescriptor "users" [id; bio; raw] [id] id "" ∅.

Lemma EncodeRow_roundtrip_witness :
  ∃ b, EncodeRow row_d [Uint 300; Null; Str ""] = Ok b ∧
       DecodeRow row_d b = Ok [Uint 300; Null; mkValue false None].
Proof.
  destruct (EncodeRow_roundtrip row_d [Uint 300; Null; Str ""]) as [H _].
  - repeat constructor.
  - destruct H as (b & Hb & Hd).
    + unfold row_ok. repeat (apply Forall2_cons_2; [first [by left|by right]|]). apply Forall2_nil_2.
    + exists b. split; [exact Hb|exact Hd].
Defined.

Lemma DecodeRow_safe_witness :
  row_ok row_d [Uint 300; Null; mkValue false None] ∧ is_err (DecodeRow row_d "abc") = true.
Proof.
  split; [|vm_compute; reflexivity].
  apply (proj2 (DecodeRow_safe row_d (match EncodeRow row_d [Uint 300; Null; Str ""] with Ok b => b | _ => "" end))).
  vm_compute. reflexivity.
Defined.
