(* ===== verification/Table.v ===== *)
(** The statements of one declared table: [src/internal/storage/table.go].

    Every statement is the string the source builds.  [strings.EqualFold] is a
    parameter.  A column pointer of a descriptor is its [Column]; two pointers
    into the same descriptor are equal when their positions are. *)

From S2P Require Import Prelude GoStd Schema Row.

Local Open Scope Z_scope.

Record PredicateSpec := mkPredicateSpec { ps_Match : list string; ps_Set : list string }.

Record Index := mkIndex { ix_Name : string; ix_Columns : list string }.

Record LiveColumn := mkLiveColumn { lc_Name : string; lc_Nullable : bool; lc_Collation : string }.

Record Predicate := mkPredicate {
  p_spec : PredicateSpec;
  p_resolve : string;
  p_update : string;
  p_updateByKey : string;
}.

Record Table := mkTable {
  t_d : Descriptor;
  t_get : string;
  t_batchGet : string;
  t_insert : string;
  t_update : string;
  t_upsert : string;
  t_del : string;
  t_lockRow : string;
  t_predicates : list Predicate;
  t_upsertAssigned : list nat;
}.

(** [strings.TrimSuffix(strings.Repeat("?, ", n), ", ")]: the placeholder run. *)
Definition placeholders (n : nat) : string := TrimSuffix (str_repeat "?, " n) ", ".

Definition eq_placeholder (c : Column) : string := Column_Quoted c +:+ " = ?".

(** The loop that builds the assignments of the upsert: every column that is
    not part of the primary key, by name, with its position. *)
Fixpoint upsert_assigned (isKey : gset string) (i : nat) (cols : list Column) : list (nat * string) :=
  match cols with
  | [] => []
  | c :: cols =>
      if bool_decide (col_Name c ∈ isKey) then upsert_assigned isKey (S i) cols
      else (i, eq_placeholder c) :: upsert_assigned isKey (S i) cols
  end.

Definition same_column (a b : Column) : bool := col_Index a =? col_Index b.

Fixpoint validate_match (d : Descriptor) (names : list string) : result unit :=
  match names with
  | [] => Ok tt
  | name :: names =>
      match Descriptor_Column d name with
      | None => Err (Errorf "storage: predicate matches on a column which is not declared")
      | Some _ => validate_match d names
      end
  end.

Fixpoint validate_set (d : Descriptor) (names : list string) : result unit :=
  match names with
  | [] => Ok tt
  | name :: names =>
      match Descriptor_Column d name with
      | None => Err (Errorf "storage: predicate sets a column which is not declared")
      | Some col =>
          if same_column col (d_VersionColumn d) then
            Err (Errorf "storage: predicate sets the version column")
          else if existsb (same_column col) (d_PrimaryKey d) then
            Err (Errorf "storage: predicate sets part of the primary key")
          else validate_set d names
      end
  end.

(** A leading prefix of [match_]'s length, all of whose columns are wanted. *)
Fixpoint coveredByLeadingPrefix (match_ : list string) (indexes : list Index) : bool :=
  match indexes with
  | [] => false
  | idx :: indexes =>
      if (length (ix_Columns idx) <? length match_)%nat then coveredByLeadingPrefix match_ indexes
      else if forallb (λ c, bool_decide (c ∈ match_)) (take (length match_) (ix_Columns idx)) then true
      else coveredByLeadingPrefix match_ indexes
  end.

Definition validatePredicate (d : Descriptor) (p : PredicateSpec) (indexes : list Index) : result unit :=
  if bool_decide (ps_Match p = []) then
    Err (Errorf "storage: a conditional write must match on at least one column")
  else
    validate_match d (ps_Match p);;
    validate_set d (ps_Set p);;
    if negb (coveredByLeadingPrefix (ps_Match p) indexes) then
      Err (Errorf "storage: no index begins with the matched columns")
    else Ok tt.

(** [t.d.Column(name).Quoted() + " = ?"] for each name; a nil column panics. *)
Fixpoint quoted_eqs (d : Descriptor) (names : list string) : result (list string) :=
  match names with
  | [] => Ok []
  | name :: names =>
      match Descriptor_Column d name with
      | None => Panic "runtime error: invalid memory address or nil pointer dereference"
      | Some c => rest ← quoted_eqs d names; Ok (eq_placeholder c :: rest)
      end
  end.

Definition buildPredicate (d : Descriptor) (spec : PredicateSpec) : result Predicate :=
  match d_PrimaryKey d with
  | [pk] =>
      match_ ← quoted_eqs d (ps_Match spec);
      assign ← quoted_eqs d (ps_Set spec);
      let where_ := join " AND " match_ in
      let set := join ", " (assign ++ [eq_placeholder (d_VersionColumn d)]) in
      let pk := Column_Quoted pk in
      Ok (mkPredicate spec
            ("SELECT " +:+ pk +:+ ", " +:+ Column_Quoted (d_VersionColumn d) +:+ " FROM " +:+
             Descriptor_QuotedName d +:+ " WHERE " +:+ where_ +:+ " ORDER BY " +:+ pk +:+ " LIMIT ? FOR UPDATE")
            ("UPDATE " +:+ Descriptor_QuotedName d +:+ " SET " +:+ set +:+ " WHERE " +:+ where_)
            ("UPDATE " +:+ Descriptor_QuotedName d +:+ " SET " +:+ set +:+ " WHERE " +:+ pk +:+ " IN "))
  | _ => Err (Errorf "storage: composite primary key; conditional writes are single-column only")
  end.

(** The loop over the declared predicates. *)
Fixpoint build_predicates (d : Descriptor) (indexes : list Index) (specs : list PredicateSpec) :
    result (list Predicate) :=
  match specs with
  | [] => Ok []
  | p :: specs =>
      validatePredicate d p indexes;;
      built ← buildPredicate d p;
      rest ← build_predicates d indexes specs;
      Ok (built :: rest)
  end.

Definition NewTable (d : option Descriptor) (indexes : list Index) (predicates : list PredicateSpec) :
    result Table :=
  match d with
  | None => Err (Errorf "storage: no descriptor")
  | Some d =>
      let selectList := join ", " (Column_Quoted <$> d_Columns d) in
      let pkMatch := join " AND " (eq_placeholder <$> d_PrimaryKey d) in
      let assignments := eq_placeholder <$> d_Columns d in
      let name := Descriptor_QuotedName d in
      match d_PrimaryKey d with
      | [] => Panic "runtime error: index out of range"
      | pk0 :: _ =>
          let insert := "INSERT INTO " +:+ name +:+ " (" +:+ selectList +:+ ") VALUES (" +:+
                        placeholders (length (d_Columns d)) +:+ ")" in
          let assigned := upsert_assigned (list_to_set (col_Name <$> d_PrimaryKey d)) 0 (d_Columns d) in
          built ← build_predicates d indexes predicates;
          Ok (mkTable d
            ("SELECT " +:+ selectList +:+ " FROM " +:+ name +:+ " WHERE " +:+ pkMatch)
            ("SELECT " +:+ selectList +:+ " FROM " +:+ name +:+ " WHERE " +:+ Column_Quoted pk0 +:+ " IN ")
            insert
            ("UPDATE " +:+ name +:+ " SET " +:+ join ", " assignments +:+ " WHERE " +:+ pkMatch)
            (insert +:+ " ON DUPLICATE KEY UPDATE " +:+ join ", " (snd <$> assigned))
            ("DELETE FROM " +:+ name +:+ " WHERE " +:+ pkMatch)
            ("SELECT " +:+ Column_Quoted (d_VersionColumn d) +:+ " FROM " +:+ name +:+ " WHERE " +:+
             pkMatch +:+ " FOR UPDATE")
            built
            (fst <$> assigned))
      end
  end.

Definition Predicate_UpdateByKeyStmt (p : Predicate) (n : Z) : result string :=
  if n <=? 0 then Err (Errorf "storage: update by key without keys")
  else Ok (p_updateByKey p +:+ "(" +:+ placeholders (Z.to_nat n) +:+ ")").

Definition Table_BatchGetStmt (t : Table) (n : Z) : result string :=
  if negb (length (d_PrimaryKey (t_d t)) =? 1)%nat then
    Err (Errorf "storage: composite primary key; batch reads are single-column only")
  else if n <=? 0 then Err (Errorf "storage: batch of no rows")
  else Ok (t_batchGet t +:+ "(" +:+ placeholders (Z.to_nat n) +:+ ")").

(** [sameColumns]: [seen] counts the declared occurrences not yet matched. *)
Definition count_columns (declared : list string) : gmap string Z :=
  foldl (λ seen c, <[c := default 0 (seen !! c) + 1]> seen) ∅ declared.

Fixpoint take_columns (seen : gmap string Z) (requested : list string) : bool :=
  match requested with
  | [] => true
  | c :: requested =>
      let n := default 0 (seen !! c) - 1 in
      if n <? 0 then false else take_columns (<[c := n]> seen) requested
  end.

Definition sameColumns (declared requested : list string) : bool :=
  if negb (length declared =? length requested)%nat then false
  else take_columns (count_columns declared) requested.

Definition Table_Predicate (t : Table) (match_ set : list string) : result Predicate :=
  match List.find (λ p, sameColumns (ps_Match (p_spec p)) match_ && sameColumns (ps_Set (p_spec p)) set)
                  (t_predicates t) with
  | Some p => Ok p
  | None => Err (Wrapf "storage: none declared" (Sentinel ErrInvalidPredicate))
  end.

(** [KeyOf]: the loop over the primary key columns. *)
Fixpoint key_values (row : list Value) (pk : list Column) : result (list keyarg) :=
  match pk with
  | [] => Ok []
  | col :: pk =>
      match row !! Z.to_nat (col_Index col) with
      | None => Panic "runtime error: index out of range"
      | Some v =>
          if IsNull v then Err (Errorf "storage: NULL cannot name a row")
          else rest ← key_values row pk; Ok (ArgString (bytes v) :: rest)
      end
  end.

Definition Table_KeyOf (t : Table) (row : list Value) : result Key :=
  if negb (length row =? length (d_Columns (t_d t)))%nat then
    Err (Errorf "storage: wrong number of columns")
  else values ← key_values row (d_PrimaryKey (t_d t)); Descriptor_Key (t_d t) values.

(** ** The live table *)

Section live.
Variable EqualFold : string → string → bool.

Definition storage_checkKeyCollation (d : Descriptor) (col : Column) (actual : LiveColumn) : result unit :=
  if negb (existsb (λ k, bool_decide (col_Name k = col_Name col)) (d_PrimaryKey d))
     || bool_decide (lc_Collation actual = "") then Ok tt
  else if negb (EqualFold (col_Collation col) (lc_Collation actual)) then
    Err (Errorf "storage: primary key column declared with another collation than the table has")
  else Ok tt.

Fixpoint verify_columns (d : Descriptor) (byName : gmap string LiveColumn) (cols : list Column) : result unit :=
  match cols with
  | [] => Ok tt
  | col :: cols =>
      match byName !! col_Name col with
      | None => Err (Errorf "storage: declared but the table does not have it")
      | Some actual =>
          if negb (Bool.eqb (lc_Nullable actual) (col_Nullable col)) then
            Err (Errorf "storage: declared nullability differs from the table's")
          else storage_checkKeyCollation d col actual;; verify_columns d byName cols
      end
  end.

Definition VerifyAgainstLive (d : Descriptor) (live : list LiveColumn) : result unit :=
  verify_columns d (foldl (λ m c, <[lc_Name c := c]> m) ∅ live) (d_Columns d).
End live.

Definition UndeclaredColumns (d : Descriptor) (live : list LiveColumn) : list string :=
  lc_Name <$> filter (λ c, Descriptor_Column d (lc_Name c) = None) live.

(** ** Lemmas: counting placeholders *)

Fixpoint count_byte (c : ascii) (s : string) : nat :=
  match s with
  | "" => 0
  | String d s => (if bool_decide (d = c) then 1 else 0) + count_byte c s
  end.

Definition qs : string → nat := count_byte "?".

(** Count the placeholders of the literals in the goal. *)
Ltac qs_lits :=
  repeat match goal with
  | |- context [qs (String ?c ?s)] =>
      let n := eval vm_compute in (qs (String c s)) in change (qs (String c s)) with n
  end; lia.

Lemma qs_app s t : qs (s +:+ t) = (qs s + qs t)%nat.
Proof. induction s as [|c s IH]; [done|]. rewrite str_app_cons. unfold qs in *. cbn [count_byte]. lia. Qed.

Lemma qs_none s : contains_byte "?" s = false → qs s = 0%nat.
Proof.
  induction s as [|c s IH]; [done|]. cbn [contains_byte]. intros [Hc Hs]%orb_false_iff.
  unfold qs in *. cbn [count_byte]. rewrite Hc. by apply IH.
Qed.

Lemma qs_join sep ps : qs sep = 0%nat → qs (join sep ps) = sum_list (qs <$> ps).
Proof.
  intros Hs. induction ps as [|p ps IH]; [done|]. destruct ps as [|p' ps].
  - cbn. lia.
  - change (join sep (p :: p' :: ps)) with (p +:+ sep +:+ join sep (p' :: ps)).
    rewrite !qs_app, IH, Hs. cbn. lia.
Qed.

Lemma double_backticks_no c s :
  contains_byte c s = false → contains_byte c (double_backticks s) = false.
Proof.
  induction s as [|d s IH]; [done|]. cbn [double_backticks contains_byte].
  intros [Hd Hs]%orb_false_iff. destruct (byte_val d =? 96); cbn [contains_byte]; by rewrite Hd, IH.
Qed.

Lemma quote_qs s : validIdentifier s = true → qs (quote s) = 0%nat.
Proof.
  intros Hs. apply qs_none. unfold quote. rewrite !contains_byte_app.
  rewrite double_backticks_no; [done|]. by apply (ident_no "?" s Hs).
Qed.

Lemma eq_placeholder_qs c : validIdentifier (col_Name c) = true → qs (eq_placeholder c) = 1%nat.
Proof. intros Hc. unfold eq_placeholder, Column_Quoted. by rewrite qs_app, quote_qs. Qed.

Lemma TrimSuffix_app s suf : suf ≠ "" → TrimSuffix (s +:+ suf) suf = s.
Proof.
  intros Hne. induction s as [|c s IH].
  - cbn [String.append]. destruct suf as [|c suf]; [done|]. cbn [TrimSuffix].
    by rewrite bool_decide_eq_true_2.
  - rewrite str_app_cons. cbn [TrimSuffix]. rewrite bool_decide_eq_false_2; [by rewrite IH|].
    intros He. apply (f_equal str_len) in He. cbn [str_len] in He. rewrite str_len_app in He.
    pose proof (str_len_nonneg s). lia.
Qed.

Lemma placeholders_join n : placeholders n = join ", " (replicate n "?").
Proof.
  destruct n as [|n]; [done|]. unfold placeholders.
  assert (str_repeat "?, " (S n) = join ", " (replicate (S n) "?") +:+ ", ") as ->.
  { induction n as [|n IH]; [done|]. cbn [str_repeat] in *. rewrite IH.
    change (replicate (S (S n)) "?") with ("?" :: replicate (S n) "?").
    change (replicate (S n) "?") with ("?" :: replicate n "?") at 2.
    change (join ", " ("?" :: "?" :: replicate n "?")) with ("?" +:+ ", " +:+ join ", " (replicate (S n) "?")).
    by rewrite <-!str_app_assoc. }
  by apply TrimSuffix_app.
Qed.

Lemma placeholders_qs n : qs (placeholders n) = n.
Proof.
  rewrite placeholders_join, qs_join by done. induction n as [|n IH]; [done|].
  change (qs <$> replicate (S n) "?") with (1%nat :: (qs <$> replicate n "?")). simpl. by rewrite IH.
Qed.

(** A descriptor whose identifiers are plain and whose key columns are its own. *)
Definition desc_ok (d : Descriptor) : Prop :=
  validIdentifier (d_Name d) = true ∧
  Forall (λ c, validIdentifier (col_Name c) = true) (d_Columns d) ∧
  (∀ i c, d_Columns d !! i = Some c → col_Index c = Z.of_nat i) ∧
  d_PrimaryKey d ≠ [] ∧ Forall (λ c, c ∈ d_Columns d ∧ col_Nullable c = false) (d_PrimaryKey d) ∧
  d_VersionColumn d ∈ d_Columns d ∧
  (∀ name c, Descriptor_Column d name = Some c → c ∈ d_Columns d ∧ col_Name c = name).

Lemma NewDescriptor_byName ToLower sha cfg d :
  NewDescriptor ToLower sha cfg = Ok d → d_byName d = index_by_name (d_Columns d).
Proof.
  unfold NewDescriptor. destruct (negb _); [done|]. case_bool_decide as H1; [done|].
  intros (columns & _ & H)%result_bind_ok. case_bool_decide as H2; [done|].
  apply result_bind_ok in H as (pk & _ & H). case_bool_decide as H3; [done|].
  destruct (index_by_name columns !! _); [|done]. destruct (negb _); [done|].
  destruct (col_Nullable _); [done|]. by injection H as <-.
Qed.

Lemma NewDescriptor_ok ToLower sha cfg d : NewDescriptor ToLower sha cfg = Ok d → desc_ok d.
Proof.
  intros Hd. pose proof (descriptor_wf _ _ _ _ Hd) as (Hn & _ & _ & Hc & Hi & Hne & Hpk & _ & Hv & _).
  split_and!; [done| | |done|done|done|].
  - eapply Forall_impl; [done|]. by intros c (_ & ? & _).
  - intros i c Hl. apply (f_equal (λ l, l !! i)) in Hi. rewrite !list_lookup_fmap, Hl in Hi. simpl in Hi.
    destruct (seq 0 (length (d_Columns d)) !! i) as [k|] eqn:Ek; [|done].
    apply lookup_seq in Ek as [-> _]. by injection Hi.
  - intros name c. unfold Descriptor_Column. rewrite (NewDescriptor_byName _ _ _ _ Hd).
    apply index_by_name_in.
Qed.

Lemma quoted_no d c : desc_ok d → c ∈ d_Columns d → qs (Column_Quoted c) = 0%nat ∧ qs (eq_placeholder c) = 1%nat.
Proof.
  intros (_ & Hc & _) Hin. rewrite Forall_forall in Hc. specialize (Hc c Hin).
  split; [by apply quote_qs|by apply eq_placeholder_qs].
Qed.

Lemma sum_const {A} (f : A → nat) k l : (∀ x, x ∈ l → f x = k) → sum_list (f <$> l) = (k * length l)%nat.
Proof.
  induction l as [|x l IH]; intros H; [simpl; lia|].
  assert (sum_list (f <$> l) = (k * length l)%nat) as Hl.
  { apply IH. intros y Hy. apply H. by apply list_elem_of_further. }
  change (f <$> x :: l) with (f x :: (f <$> l)). simpl. rewrite Hl, (H x) by apply list_elem_of_here. lia.
Qed.

Lemma quoted_list_qs d sep cs :
  desc_ok d → (∀ c, c ∈ cs → c ∈ d_Columns d) → qs sep = 0%nat →
  qs (join sep (Column_Quoted <$> cs)) = 0%nat ∧ qs (join sep (eq_placeholder <$> cs)) = length cs.
Proof.
  intros Hd Hin Hs. rewrite !qs_join by done. rewrite <-!list_fmap_compose. split.
  - rewrite (sum_const _ 0); [lia|]. intros c Hc. by eapply quoted_no; [|apply Hin].
  - rewrite (sum_const _ 1); [lia|]. intros c Hc. by eapply quoted_no; [|apply Hin].
Qed.

Lemma pk_in d c : desc_ok d → c ∈ d_PrimaryKey d → c ∈ d_Columns d.
Proof. intros (_ & _ & _ & _ & Hpk & _) Hc. rewrite Forall_forall in Hpk. by apply Hpk. Qed.

Lemma upsert_assigned_spec isKey cols : ∀ i,
  (∀ j s, (j, s) ∈ upsert_assigned isKey i cols ↔
     ∃ k c, j = (i + k)%nat ∧ cols !! k = Some c ∧ col_Name c ∉ isKey ∧ s = eq_placeholder c).
Proof.
  induction cols as [|c0 cols IH]; intros i j s; cbn [upsert_assigned].
  { split; [by intros ?%elem_of_nil|by intros (? & ? & _ & ? & _)]. }
  assert ((∃ k c, j = (S i + k)%nat ∧ cols !! k = Some c ∧ col_Name c ∉ isKey ∧ s = eq_placeholder c) ↔
          (∃ k c, j = (i + S k)%nat ∧ cols !! k = Some c ∧ col_Name c ∉ isKey ∧ s = eq_placeholder c)) as Hs.
  { split; intros (k & c & ? & ?); exists k, c; (split; [lia|done]). }
  case_bool_decide as Hk; [rewrite (IH (S i)), Hs|rewrite elem_of_cons, (IH (S i)), Hs]; split.
  - intros (k & c & ?). by exists (S k), c.
  - intros ([|k] & c & ? & Hl & Hn & ?); [|by exists k, c]. injection Hl as ->. done.
  - intros [[= -> ->]|(k & c & ?)]; [exists 0%nat, c0; split_and!; [lia|done..]|by exists (S k), c].
  - intros ([|k] & c & -> & Hl & Hn & ->); [|right; by exists k, c].
    left. injection Hl as ->. f_equal. lia.
Qed.

Lemma upsert_assigned_qs isKey cols i :
  (∀ c, c ∈ cols → qs (eq_placeholder c) = 1%nat) →
  qs (join ", " (snd <$> upsert_assigned isKey i cols)) = length (upsert_assigned isKey i cols).
Proof.
  intros Hc. rewrite qs_join by done. rewrite <-list_fmap_compose, (sum_const _ 1); [lia|].
  intros [j s] (k & c & _ & Hk & _ & ->)%upsert_assigned_spec. simpl. apply Hc.
  by eapply list_elem_of_lookup_2.
Qed.

Lemma quoted_eqs_ok d names l :
  quoted_eqs d names = Ok l →
  ∃ cs, l = eq_placeholder <$> cs ∧ length cs = length names ∧
    Forall2 (λ n c, Descriptor_Column d n = Some c) names cs.
Proof.
  revert l. induction names as [|n names IH]; intros l; cbn [quoted_eqs].
  { intros [= <-]. by exists []. }
  destruct (Descriptor_Column d n) as [c|] eqn:Ec; [|done].
  intros (rest & Hr & [= <-])%result_bind_ok. destruct (IH _ Hr) as (cs & -> & Hl & HF).
  exists (c :: cs). split_and!; [done|simpl; lia|]. by constructor.
Qed.

Lemma quoted_eqs_qs d sep names l :
  desc_ok d → qs sep = 0%nat → quoted_eqs d names = Ok l →
  qs (join sep l) = length names ∧ sum_list (qs <$> l) = length names.
Proof.
  intros Hd Hs (cs & -> & Hl & HF)%quoted_eqs_ok. rewrite <-Hl.
  assert (∀ c, c ∈ cs → c ∈ d_Columns d) as Hin.
  { intros c (i & Hc)%list_elem_of_lookup.
    destruct (Forall2_lookup_r _ _ _ _ _ HF Hc) as (n & _ & Hn). destruct Hd as (_ & _ & _ & _ & _ & _ & Hb).
    by apply Hb in Hn as [? _]. }
  split; [by eapply quoted_list_qs|]. rewrite <-list_fmap_compose, (sum_const _ 1); [lia|].
  intros c Hc. by eapply quoted_no; [|apply Hin].
Qed.

Lemma build_predicates_ok d indexes specs built :
  build_predicates d indexes specs = Ok built →
  Forall2 (λ p b, validatePredicate d p indexes = Ok tt ∧ buildPredicate d p = Ok b) specs built.
Proof.
  revert built. induction specs as [|p specs IH]; intros built; cbn [build_predicates].
  { by intros [= <-]. }
  intros ([] & Hv & (b & Hb & (rest & Hr & [= <-])%result_bind_ok)%result_bind_ok)%result_bind_ok.
  constructor; [done|]. by apply IH.
Qed.

(** What [NewTable] built, field by field. *)
Lemma NewTable_fields d indexes specs t :
  NewTable (Some d) indexes specs = Ok t →
  ∃ pk0 rest built, d_PrimaryKey d = pk0 :: rest ∧ build_predicates d indexes specs = Ok built ∧
    t_d t = d ∧ t_predicates t = built ∧
    t_upsertAssigned t = fst <$> upsert_assigned (list_to_set (col_Name <$> d_PrimaryKey d)) 0 (d_Columns d) ∧
    t_batchGet t = "SELECT " +:+ join ", " (Column_Quoted <$> d_Columns d) +:+ " FROM " +:+
      Descriptor_QuotedName d +:+ " WHERE " +:+ Column_Quoted pk0 +:+ " IN ".
Proof.
  unfold NewTable. destruct (d_PrimaryKey d) as [|pk0 rest] eqn:Epk; [done|].
  intros (built & Hb & Ht)%result_bind_ok. injection Ht as <-.
  exists pk0, rest, built. by split_and!.
Qed.

Lemma buildPredicate_qs d spec b :
  desc_ok d → buildPredicate d spec = Ok b →
  p_spec b = spec ∧
  qs (p_resolve b) = (length (ps_Match spec) + 1)%nat ∧
  qs (p_update b) = (length (ps_Set spec) + 1 + length (ps_Match spec))%nat ∧
  (∀ n s, Predicate_UpdateByKeyStmt b n = Ok s → qs s = (length (ps_Set spec) + 1 + Z.to_nat n)%nat).
Proof.
  intros Hd. unfold buildPredicate. destruct (d_PrimaryKey d) as [|pk [|]] eqn:Epk; [done| |done].
  intros (ms & Hm & (as_ & Ha & Hb)%result_bind_ok)%result_bind_ok.
  apply Ok_inj in Hb. subst b.
  assert (pk ∈ d_Columns d) as Hpk by (apply (pk_in d pk Hd); rewrite Epk; apply list_elem_of_here).
  assert (d_VersionColumn d ∈ d_Columns d) as Hv by apply Hd.
  destruct (quoted_no d pk Hd Hpk) as [Hq1 _]. destruct (quoted_no d _ Hd Hv) as [Hq2 Hq3].
  assert (qs (Descriptor_QuotedName d) = 0%nat) as Hq4 by (apply quote_qs, Hd).
  destruct (quoted_eqs_qs d " AND " _ _ Hd eq_refl Hm) as [Hq5 _].
  destruct (quoted_eqs_qs d ", " _ _ Hd eq_refl Ha) as [_ Hq6].
  assert (qs (join ", " (as_ ++ [eq_placeholder (d_VersionColumn d)])) = (length (ps_Set spec) + 1)%nat) as Hq7.
  { rewrite qs_join by done.
    assert (∀ l k, sum_list (l ++ [k]) = (sum_list l + k)%nat) as Hs.
    { induction l as [|x l IH]; intros k; simpl; [lia|]. rewrite IH. lia. }
    rewrite fmap_app. change (qs <$> [eq_placeholder (d_VersionColumn d)]) with [qs (eq_placeholder (d_VersionColumn d))].
    rewrite Hs, Hq6, Hq3. lia. }
  split_and!; [done| | |].
  - cbn [p_resolve]. rewrite !qs_app, Hq1, Hq2, Hq4, Hq5. qs_lits.
  - cbn [p_update]. rewrite !qs_app, Hq4, Hq5, Hq7. qs_lits.
  - intros n s. unfold Predicate_UpdateByKeyStmt. destruct (n <=? 0); [done|]. intros <-%Ok_inj.
    cbn [p_updateByKey]. rewrite !qs_app, Hq1, Hq4, Hq7, placeholders_qs. qs_lits.
Qed.

(** ** Properties *)

(** Every statement built at boot has exactly the placeholders its callers
    bind: the key's columns for get, delete and lock, n for a batch of n, all the
    columns for insert, the columns and then the reassigned ones for upsert
    (those outside the primary key, by position, each once), and for a declared
    predicate its matches and a limit, its assignments and the version and its
    matches, or those and the n keys. *)
Theorem NewTable_statements ToLower sha cfg d indexes specs t :
  NewDescriptor ToLower sha cfg = Ok d → NewTable (Some d) indexes specs = Ok t →
  let cols := length (d_Columns d) in let pk := length (d_PrimaryKey d) in
  qs (t_get t) = pk ∧ qs (t_del t) = pk ∧ qs (t_lockRow t) = pk ∧
  qs (t_insert t) = cols ∧ qs (t_update t) = (cols + pk)%nat ∧
  qs (t_upsert t) = (cols + length (t_upsertAssigned t))%nat ∧
  (∀ j, j ∈ t_upsertAssigned t ↔
     ∃ c, d_Columns d !! j = Some c ∧ col_Name c ∉ col_Name <$> d_PrimaryKey d) ∧
  (∀ n s, Table_BatchGetStmt t n = Ok s → qs s = Z.to_nat n) ∧
  Forall2 (λ spec p, p_spec p = spec ∧
    qs (p_resolve p) = (length (ps_Match spec) + 1)%nat ∧
    qs (p_update p) = (length (ps_Set spec) + 1 + length (ps_Match spec))%nat ∧
    (∀ n s, Predicate_UpdateByKeyStmt p n = Ok s → qs s = (length (ps_Set spec) + 1 + Z.to_nat n)%nat))
    specs (t_predicates t).
Proof.
  intros Hd%NewDescriptor_ok Ht cols pk. subst pk. unfold NewTable in Ht.
  destruct (d_PrimaryKey d) as [|pk0 rest] eqn:Epk; [done|].
  apply result_bind_ok in Ht as (built & Hb & Ht). rewrite <-Epk in Ht. rewrite <-Epk.
  assert (∀ c, c ∈ d_PrimaryKey d → c ∈ d_Columns d) as Hpk by (intros c; by apply pk_in).
  destruct (quoted_list_qs d ", " (d_Columns d) Hd (λ c H, H) eq_refl) as [Hs1 Hs2].
  destruct (quoted_list_qs d " AND " (d_PrimaryKey d) Hd Hpk eq_refl) as [_ Hs3].
  assert (qs (Descriptor_QuotedName d) = 0%nat) as Hs4 by (apply quote_qs, Hd).
  destruct (quoted_no d (d_VersionColumn d) Hd) as [Hs5 _]; [apply Hd|].
  destruct (quoted_no d pk0 Hd) as [Hs6 _]; [apply Hpk; rewrite Epk; apply list_elem_of_here|].
  set (isKey := list_to_set (col_Name <$> d_PrimaryKey d) : gset string) in *.
  pose proof (upsert_assigned_qs isKey (d_Columns d) 0 (λ c H, proj2 (quoted_no d c Hd H))) as Hs7.
  apply Ok_inj in Ht. subst t. cbn [t_get t_del t_lockRow t_insert t_update t_upsert t_upsertAssigned t_predicates].
  rewrite !qs_app, Hs1, Hs2, Hs3, Hs4, Hs5, Hs7, !placeholders_qs, length_fmap.
  split_and!; try (unfold cols; qs_lits).
  - intros j. split.
    + intros ([j' s] & -> & (k & c & -> & Hk & Hn & _)%upsert_assigned_spec)%list_elem_of_fmap.
      exists c. split; [done|]. unfold isKey in Hn. by rewrite elem_of_list_to_set in Hn.
    + intros (c & Hk & Hn). apply list_elem_of_fmap. exists (j, eq_placeholder c). split; [done|].
      apply upsert_assigned_spec. exists j, c. split_and!; [lia|done| |done].
      unfold isKey. by rewrite elem_of_list_to_set.
  - intros n s. unfold Table_BatchGetStmt. destruct (negb _); [done|]. destruct (n <=? 0); [done|].
    intros <-%Ok_inj. cbn [t_batchGet]. rewrite !qs_app, Hs1, Hs4, Hs6, placeholders_qs. qs_lits.
  - apply build_predicates_ok in Hb. eapply Forall2_impl; [exact Hb|]. intros spec p [_ Hp].
    by apply (buildPredicate_qs d).
Qed.

(** ** Lemmas: column sets *)

Definition occ (c : string) (l : list string) : nat := count_occ String.string_dec l c.

Lemma count_columns_spec l c : default 0 (count_columns l !! c) = Z.of_nat (occ c l).
Proof.
  unfold count_columns, occ.
  assert (∀ m : gmap string Z, default 0 (foldl (λ seen c, <[c := default 0 (seen !! c) + 1]> seen) m l !! c) =
    default 0 (m !! c) + Z.of_nat (count_occ String.string_dec l c)) as H.
  { induction l as [|x l IH]; intros m; simpl; [lia|]. rewrite IH.
    destruct (String.string_dec x c) as [->|Hne].
    - rewrite lookup_insert_eq. simpl. lia.
    - by rewrite lookup_insert_ne by done. }
  rewrite H, lookup_empty. simpl. lia.
Qed.

Lemma take_columns_spec l : ∀ seen,
  (∀ c, 0 ≤ default 0 (seen !! c)) →
  take_columns seen l = true ↔ ∀ c, Z.of_nat (occ c l) ≤ default 0 (seen !! c).
Proof.
  unfold occ. induction l as [|x l IH]; intros seen Hs; cbn [take_columns].
  { split; [intros _ c; simpl; apply Hs|done]. }
  destruct (Z.ltb_spec (default 0 (seen !! x) - 1) 0) as [Hlt|Hge].
  - split; [done|]. intros H. specialize (H x). simpl in H.
    destruct (String.string_dec x x); [|done]. lia.
  - rewrite IH.
    + split; intros H c; specialize (H c); simpl in *; destruct (String.string_dec x c) as [->|Hne].
      * rewrite lookup_insert_eq in H. simpl in H. lia.
      * by rewrite lookup_insert_ne in H by done.
      * rewrite lookup_insert_eq. simpl. lia.
      * by rewrite lookup_insert_ne by done.
    + intros c. destruct (decide (x = c)) as [->|Hne].
      * rewrite lookup_insert_eq. simpl. lia.
      * rewrite lookup_insert_ne by done. apply Hs.
Qed.

Lemma occ_perm l k : (∀ c, occ c l = occ c k) → l ≡ₚ k.
Proof. intros H. apply (Permutation_count_occ String.string_dec). exact H. Qed.

Lemma occ_le_perm l k : length l = length k → (∀ c, (occ c k ≤ occ c l)%nat) → l ≡ₚ k.
Proof.
  unfold occ. revert l. induction k as [|x k IH]; intros l Hl Ho.
  { by destruct l. }
  assert (x ∈ l) as Hx.
  { apply list_elem_of_In. apply (count_occ_In String.string_dec). specialize (Ho x). simpl in Ho.
    destruct (String.string_dec x x); [lia|done]. }
  apply list_elem_of_split in Hx as (l1 & l2 & ->).
  assert (l1 ++ x :: l2 ≡ₚ x :: (l1 ++ l2)) as Hp by (symmetry; apply Permutation_middle).
  rewrite Hp. constructor. apply IH.
  - rewrite length_app in *. simpl in Hl. lia.
  - intros c. specialize (Ho c). rewrite (Permutation_count_occ String.string_dec) in Hp. rewrite Hp in Ho.
    simpl in Ho. destruct (String.string_dec x c); lia.
Qed.

Lemma sameColumns_iff declared requested : sameColumns declared requested = true ↔ declared ≡ₚ requested.
Proof.
  unfold sameColumns. destruct (Nat.eqb_spec (length declared) (length requested)) as [Hl|Hl]; simpl.
  - rewrite take_columns_spec by (intros c; rewrite count_columns_spec; lia). split.
    + intros H. apply occ_le_perm; [done|]. intros c. specialize (H c). rewrite count_columns_spec in H. lia.
    + intros Hp c. rewrite count_columns_spec. unfold occ.
      rewrite (Permutation_count_occ String.string_dec) in Hp. rewrite Hp. lia.
  - split; [done|]. intros Hp. by apply Permutation_length in Hp.
Qed.

Lemma coveredByLeadingPrefix_iff m indexes :
  coveredByLeadingPrefix m indexes = true ↔
  ∃ idx, idx ∈ indexes ∧ (length m ≤ length (ix_Columns idx))%nat ∧
         ∀ c, c ∈ take (length m) (ix_Columns idx) → c ∈ m.
Proof.
  induction indexes as [|idx indexes IH]; cbn [coveredByLeadingPrefix].
  { split; [done|]. by intros (? & ?%elem_of_nil & _). }
  assert (∀ l, forallb (λ c, bool_decide (c ∈ m)) l = true ↔ ∀ c, c ∈ l → c ∈ m) as Hf.
  { intros l. rewrite forallb_forall. split; intros H c Hc.
    - eapply bool_decide_eq_true. by apply H, list_elem_of_In.
    - apply bool_decide_eq_true. by apply H, list_elem_of_In. }
  destruct (Nat.ltb_spec (length (ix_Columns idx)) (length m)) as [Hlt|Hge].
  - rewrite IH. split; intros (i & Hi & Hl & Hc); exists i.
    + split_and!; [by right|done|done].
    + apply elem_of_cons in Hi as [->|Hi]; [lia|by split_and!].
  - destruct (forallb _ _) eqn:Ef.
    + split; [|done]. intros _. exists idx. split_and!; [left|done|by apply Hf].
    + rewrite IH. split; intros (i & Hi & Hl & Hc); exists i.
      * split_and!; [by right|done|done].
      * apply elem_of_cons in Hi as [->|Hi]; [|by split_and!]. apply Hf in Hc. congruence.
Qed.

(** With distinct columns, a covering index leads with exactly the matched ones. *)
Lemma covered_perm (m : list string) (cols : list string) :
  NoDup cols → (length m ≤ length cols)%nat → (∀ c, c ∈ take (length m) cols → c ∈ m) →
  take (length m) cols ≡ₚ m.
Proof.
  intros Hnd Hl Hc.
  assert (length (take (length m) cols) = length m) as Hlt by (rewrite length_take; lia).
  apply submseteq_length_Permutation; [|lia]. apply NoDup_submseteq; [|done].
  by eapply sublist_NoDup, sublist_take || (apply NoDup_take; done).
Qed.

Lemma validate_match_ok d names :
  validate_match d names = Ok tt ↔ ∀ n, n ∈ names → is_Some (Descriptor_Column d n).
Proof.
  induction names as [|n names IH]; cbn [validate_match].
  { split; [|done]. by intros _ n ?%elem_of_nil. }
  destruct (Descriptor_Column d n) as [c|] eqn:Ec.
  - rewrite IH. split.
    + intros H n' [->|Hn]%elem_of_cons; [by eexists|by apply H].
    + intros H n' Hn. apply H. by right.
  - split; [done|]. intros H. destruct (H n) as [c Hc]; [left|congruence].
Qed.

Lemma validate_set_ok d names :
  validate_set d names = Ok tt →
  ∀ n, n ∈ names → ∃ c, Descriptor_Column d n = Some c ∧ c ≠ d_VersionColumn d ∧ c ∉ d_PrimaryKey d.
Proof.
  induction names as [|n names IH]; cbn [validate_set].
  { by intros _ n ?%elem_of_nil. }
  destruct (Descriptor_Column d n) as [c|] eqn:Ec; [|done].
  destruct (same_column c (d_VersionColumn d)) eqn:Ev; [done|].
  destruct (existsb (same_column c) (d_PrimaryKey d)) eqn:Ek; [done|].
  intros H n' [->|Hn]%elem_of_cons; [|by apply IH]. exists c. split_and!; [done| |].
  - intros ->. unfold same_column in Ev. by rewrite Z.eqb_refl in Ev.
  - intros Hin. rewrite <-not_true_iff_false, existsb_exists in Ek. apply Ek.
    exists c. split; [by apply list_elem_of_In|]. unfold same_column. apply Z.eqb_refl.
Qed.

(** A conditional write is served exactly when the deployment declared its
    shape: the columns matched and the columns set are those of a declaration,
    in any order.  Every declared shape sets neither the version column nor any
    part of the primary key, and some index leads with exactly its matched
    columns. *)
Theorem Table_Predicate_declared ToLower sha cfg d indexes specs t m s :
  NewDescriptor ToLower sha cfg = Ok d → NewTable (Some d) indexes specs = Ok t →
  (∀ p, Table_Predicate t m s = Ok p →
     p_spec p ∈ specs ∧ ps_Match (p_spec p) ≡ₚ m ∧ ps_Set (p_spec p) ≡ₚ s ∧ m ≠ [] ∧
     (∀ n, n ∈ m → is_Some (Descriptor_Column d n)) ∧
     (∀ n, n ∈ s → ∃ c, Descriptor_Column d n = Some c ∧ c ≠ d_VersionColumn d ∧ c ∉ d_PrimaryKey d) ∧
     (∃ idx, idx ∈ indexes ∧ (NoDup (ix_Columns idx) → take (length m) (ix_Columns idx) ≡ₚ m))) ∧
  (is_ok (Table_Predicate t m s) = true ↔
     ∃ spec, spec ∈ specs ∧ ps_Match spec ≡ₚ m ∧ ps_Set spec ≡ₚ s) ∧
  (is_ok (Table_Predicate t m s) = false →
     ∃ e, Table_Predicate t m s = Err e ∧ errors_Is e ErrInvalidPredicate = true).
Proof.
  intros _ Ht. destruct (NewTable_fields d indexes specs t Ht) as (pk0 & rest & built & _ & Hb & _ & Hp & _).
  apply build_predicates_ok in Hb. rewrite <-Hp in Hb.
  assert (∀ spec p, validatePredicate d spec indexes = Ok tt ∧ buildPredicate d spec = Ok p → p_spec p = spec) as Hsp.
  { intros spec p [_ H]. unfold buildPredicate in H. destruct (d_PrimaryKey d) as [|pk [|]]; [done| |done].
    apply result_bind_ok in H as (? & _ & H). apply result_bind_ok in H as (? & _ & H).
    apply Ok_inj in H. by subst p. }
  unfold Table_Predicate.
  destruct (List.find _ (t_predicates t)) as [p|] eqn:Ef.
  - apply List.find_some in Ef as [Hin Hm]. apply list_elem_of_In in Hin.
    apply andb_true_iff in Hm as [Hm1%sameColumns_iff Hm2%sameColumns_iff].
    apply list_elem_of_lookup in Hin as [i Hi].
    destruct (Forall2_lookup_r _ _ _ _ _ Hb Hi) as (spec & Hspec & Hv).
    pose proof (Hsp _ _ Hv) as <-. destruct Hv as [Hv _]. apply list_elem_of_lookup_2 in Hspec.
    split_and!; [|split; [by intros _; exists (p_spec p)|done]|done].
    intros p' <-%Ok_inj. unfold validatePredicate in Hv. case_bool_decide as Hne; [done|].
    apply result_bind_ok in Hv as ([] & Hvm & Hv). apply result_bind_ok in Hv as ([] & Hvs & Hv).
    destruct (coveredByLeadingPrefix _ _) eqn:Ec; [|done].
    apply coveredByLeadingPrefix_iff in Ec as (idx & Hidx & Hl & Hc).
    split_and!; [done..| | | |].
    + intros ->. by apply Permutation_nil_r in Hm1.
    + intros n Hn. rewrite <-Hm1 in Hn. by eapply validate_match_ok.
    + intros n Hn. rewrite <-Hm2 in Hn. by eapply validate_set_ok.
    + exists idx. split; [done|]. intros Hnd. rewrite <-Hm1 at 2.
      rewrite <-(Permutation_length Hm1). by apply covered_perm.
  - split_and!; [done| |intros _; by eexists]. split; [done|]. intros (spec & Hspec & Hm1 & Hm2).
    apply list_elem_of_lookup in Hspec as [i Hi].
    destruct (Forall2_lookup_l _ _ _ _ _ Hb Hi) as (p & Hp' & Hv). pose proof (Hsp _ _ Hv) as <-.
    apply list_elem_of_lookup_2, list_elem_of_In in Hp'.
    pose proof (List.find_none _ _ Ef _ Hp') as Hno. simpl in Hno.
    apply andb_false_iff in Hno as [Hno|Hno]; apply not_true_iff_false in Hno;
      destruct Hno; by apply sameColumns_iff.
Qed.

(** A declaration is accepted exactly when the live table has every declared
    column with the declared nullability, and with the declared collation where
    the column is part of the key. *)
Theorem VerifyAgainstLive_iff EqualFold d live :
  NoDup (lc_Name <$> live) →
  VerifyAgainstLive EqualFold d live = Ok tt ↔
  ∀ col, col ∈ d_Columns d → ∃ a, a ∈ live ∧ lc_Name a = col_Name col ∧
    lc_Nullable a = col_Nullable col ∧
    (lc_Collation a ≠ "" → (∃ k, k ∈ d_PrimaryKey d ∧ col_Name k = col_Name col) →
     EqualFold (col_Collation col) (lc_Collation a) = true).
Proof.
  intros Hnd. unfold VerifyAgainstLive.
  assert (∀ name a, foldl (λ m c, <[lc_Name c := c]> m) (∅ : gmap string LiveColumn) live !! name = Some a ↔
    a ∈ live ∧ lc_Name a = name) as Hmap.
  { intros name a.
    assert (∀ m : gmap string LiveColumn, NoDup (lc_Name <$> live) →
      foldl (λ m c, <[lc_Name c := c]> m) m live !! name = Some a ↔
      (a ∈ live ∧ lc_Name a = name) ∨ (name ∉ lc_Name <$> live ∧ m !! name = Some a)) as H.
    { clear Hnd. induction live as [|c live IH]; intros m Hn; cbn [foldl].
      { split; [right; split; [apply not_elem_of_nil|done]|]. by intros [[?%elem_of_nil _]|[_ ?]]. }
      change (lc_Name <$> c :: live) with (lc_Name c :: (lc_Name <$> live)) in *.
      apply NoDup_cons in Hn as [Hc Hn]. rewrite (IH _ Hn). rewrite elem_of_cons, not_elem_of_cons.
      destruct (decide (name = lc_Name c)) as [->|Hne].
      - rewrite lookup_insert_eq. split.
        + intros [[Ha Hna]|[_ [= ->]]]; [|left; auto]. left. auto.
        + intros [[[->|Ha] Hna]|[[? _] _]]; [right; auto|left; auto|done].
      - rewrite lookup_insert_ne by done. split.
        + intros [[Ha Hna]|[Hx Hm]]; [left; auto|right; auto].
        + intros [[[->|Ha] Hna]|[[_ Hx] Hm]]; [by destruct Hne|left; auto|right; auto]. }
    rewrite H by done. rewrite lookup_empty. naive_solver. }
  generalize (d_Columns d) as cols. induction cols as [|col cols IH]; cbn [verify_columns].
  { split; [|done]. by intros _ ? ?%elem_of_nil. }
  set (m := foldl _ _ live) in *.
  assert (∀ a, storage_checkKeyCollation EqualFold d col a = Ok tt ↔
    (lc_Collation a ≠ "" → (∃ k, k ∈ d_PrimaryKey d ∧ col_Name k = col_Name col) →
     EqualFold (col_Collation col) (lc_Collation a) = true)) as Hck.
  { intros a. unfold storage_checkKeyCollation.
    destruct (existsb _ (d_PrimaryKey d)) eqn:Ee; simpl.
    - apply existsb_exists in Ee as (k & Hk & Hn%bool_decide_eq_true). apply list_elem_of_In in Hk.
      case_bool_decide as Hc; [split; [done|]; auto|].
      destruct (EqualFold _ _); split; try done; auto. intros H. specialize (H Hc). discriminate H. by exists k.
    - split; [|done]. intros _ _ (k & Hk & Hn). exfalso. rewrite <-not_true_iff_false in Ee. apply Ee.
      apply existsb_exists. exists k. split; [by apply list_elem_of_In|by apply bool_decide_eq_true]. }
  destruct (m !! col_Name col) as [a|] eqn:Em.
  - pose proof (proj1 (Hmap _ _) Em) as [Ha Hna]. destruct (Bool.eqb _ _) eqn:En; simpl.
    + apply Bool.eqb_prop in En. split.
      * intros ([] & H1 & H2)%result_bind_ok. pose proof (proj1 (Hck a) H1) as H1'.
        intros col' [->|Hc]%elem_of_cons; [by exists a|]. by apply (proj1 IH).
      * intros H. apply result_bind_ok. exists tt. split.
        -- apply Hck. destruct (H col) as (a' & Ha' & Hna' & _ & Hcol); [left|].
           assert (m !! col_Name col = Some a') as Hm' by by apply Hmap.
           rewrite Em in Hm'. by injection Hm' as ->.
        -- apply IH. intros col' Hc'. apply H. by right.
    + split; [done|]. intros H. exfalso. destruct (H col) as (a' & Ha' & Hna' & Hnl & _); [left|].
      assert (m !! col_Name col = Some a') as Hm' by by apply Hmap.
      rewrite Em in Hm'. injection Hm' as ->. rewrite Hnl, eqb_reflx in En. done.
  - split; [done|]. intros H. exfalso. destruct (H col) as (a' & Ha' & Hna' & _); [left|].
    assert (m !! col_Name col = Some a') as Hm' by by apply Hmap. congruence.
Qed.

(** An empty answer proves that an entry holds the whole row. *)
Theorem UndeclaredColumns_nil d live :
  UndeclaredColumns d live = [] ↔ ∀ c, c ∈ live → is_Some (Descriptor_Column d (lc_Name c)).
Proof.
  unfold UndeclaredColumns. split.
  - intros H c Hc. destruct (Descriptor_Column d (lc_Name c)) eqn:E; [by eexists|].
    apply fmap_nil_inv in H. assert (c ∈ filter (λ c, Descriptor_Column d (lc_Name c) = None) live) as Hin
      by by apply list_elem_of_filter.
    rewrite H in Hin. by apply elem_of_nil in Hin.
  - intros H. assert (filter (λ c, Descriptor_Column d (lc_Name c) = None) live = []) as ->; [|done].
    apply elem_of_nil_inv. intros c [Hn Hc]%list_elem_of_filter. destruct (H c Hc). congruence.
Qed.

(** ** Witnesses *)

Definition users_config : TableConfig :=
  mkTableConfig "users" ["id"] "version"
    [mkColumnConfig "id" Uint64 false ""; mkColumnConfig "tenant" String_ false "";
     mkColumnConfig "status" Text true ""; mkColumnConfig "version" Uint64 false ""].

Definition users_indexes : list Index :=
  [mkIndex "PRIMARY" ["id"]; mkIndex "by_tenant" ["tenant"; "status"]].

Definition users_predicates : list PredicateSpec := [mkPredicateSpec ["tenant"] ["status"]].

Definition users_d : Descriptor :=
  match NewDescriptor (λ s, s) (λ s, s) users_config with
  | Ok d => d
  | _ => mkDescriptor "" [] [] (mkColumn "" Uint8 false 0 "") "" ∅
  end.

Definition users_t : Table :=
  match NewTable (Some users_d) users_indexes users_predicates with
  | Ok t => t
  | _ => mkTable users_d "" "" "" "" "" "" "" [] []
  end.

Lemma users_d_ok : NewDescriptor (λ s, s) (λ s, s) users_config = Ok users_d.
Proof. vm_compute. reflexivity. Qed.

Lemma users_t_ok : NewTable (Some users_d) users_indexes users_predicates = Ok users_t.
Proof. vm_compute. reflexivity. Qed.

Lemma NewTable_statements_witness : qs (t_get users_t) = 1%nat ∧ qs (t_upsert users_t) = 7%nat.
Proof.
  destruct (NewTable_statements _ _ _ _ _ _ _ users_d_ok users_t_ok) as (H1 & _ & _ & _ & _ & H2 & _).
  split; [exact H1|exact H2].
Defined.

Lemma Table_Predicate_declared_witness :
  is_ok (Table_Predicate users_t ["tenant"] ["status"]) = true ∧
  is_ok (Table_Predicate users_t ["status"] ["tenant"]) = false.
Proof.
  destruct (Table_Predicate_declared _ _ _ _ _ _ _ ["tenant"] ["status"] users_d_ok users_t_ok)
    as (_ & [_ H] & _).
  split; [|vm_compute; reflexivity]. apply H.
  exists (mkPredicateSpec ["tenant"] ["status"]). split_and!; [left|reflexivity|reflexivity].
Defined.
