(* ===== verification/Mysql.v ===== *)
(** The database as the storage layer sees it.

    MySQL is not part of the source: [Mysql] is its interface, a statement text
    and its arguments in, rows of cells or a count out, on a state [D] that is
    the contents of a shard.  [MysqlLaws] is what the storage layer relies on
    for the statements of one table: the documented meaning of SELECT, UPDATE,
    DELETE and INSERT ... ON DUPLICATE KEY UPDATE on rows named by their primary
    key, in strict mode and under a collation in which only equal key texts
    compare equal.  [mem_mysql] is an instance for the table of the witnesses. *)

From S2P Require Import Prelude GoStd Schema Row Table.

Local Open Scope Z_scope.

(** A cell of a result: SQL NULL, or bytes. *)
Abbreviation cells := (list (option string)).

Class Mysql (D : Type) := {
  my_query : D → string → list sqlarg → result (list cells);
  my_exec : D → string → list sqlarg → result Z * D;
}.

Definition cell (c : Column) (r : cells) : option string := r !!! Z.to_nat (col_Index c).

Definition version_cell (t : Table) (r : cells) : option string := cell (d_VersionColumn (t_d t)) r.

(** The key texts of a row. *)
Definition cells_key (t : Table) (r : cells) : list string :=
  (λ c, default "" (cell c r)) <$> d_PrimaryKey (t_d t).

(** A key whose texts fit the key columns, as the engine validates it. *)
Definition key_fits (t : Table) (k : list string) : Prop :=
  Descriptor_Validate (t_d t) (mkKey (d_Name (t_d t)) k) = Ok tt.

(** The arguments of an upsert: every column, then those reassigned. *)
Definition upsert_args (t : Table) (row : list Value) : list sqlarg :=
  zip_with Column_Arg (d_Columns (t_d t)) row ++
  ((λ i, match d_Columns (t_d t) !! i, row !! i with
         | Some c, Some v => Column_Arg c v
         | _, _ => ArgNull
         end) <$> t_upsertAssigned t).

(** The contents after some rows were stamped with version [v]. *)
Definition stamped (t : Table) (v : Z) (ks : list (list string)) (m m' : gmap (list string) cells) : Prop :=
  ∀ k, (k ∉ ks → m' !! k = m !! k) ∧
       (k ∈ ks → is_Some (m !! k) → ∃ r, m' !! k = Some r ∧ version_cell t r = Some (FormatUint v)) ∧
       (m !! k = None → m' !! k = None).

Class MysqlLaws (D : Type) `{Mysql D} (t : Table)
    (tbl : D → gmap (list string) cells)
    (sel : D → Predicate → list sqlarg → list (list string)) := {
  my_rows_wf : ∀ db k r, tbl db !! k = Some r →
    length r = length (d_Columns (t_d t)) ∧ cells_key t r = k ∧ key_fits t k ∧
    ∀ c, c ∈ d_PrimaryKey (t_d t) → is_Some (cell c r);
  my_get : ∀ db k, key_fits t k →
    my_query db (t_get t) (ArgText <$> k) = Ok (option_list (tbl db !! k));
  my_lock : ∀ db k, key_fits t k →
    my_query db (t_lockRow t) (ArgText <$> k) =
      Ok ((λ r, [version_cell t r]) <$> option_list (tbl db !! k));
  my_batch : ∀ db ks stmt, Table_BatchGetStmt t (Z.of_nat (length ks)) = Ok stmt →
    (∀ k, k ∈ ks → key_fits t [k]) →
    ∃ rs, my_query db stmt (ArgText <$> ks) = Ok rs ∧
          rs ≡ₚ omap (λ k, tbl db !! [k]) (remove_dups ks);
  my_upsert : ∀ db row k v, length row = length (d_Columns (t_d t)) → key_fits t k →
    key_values row (d_PrimaryKey (t_d t)) = Ok (ArgString <$> k) →
    row !! Z.to_nat (col_Index (d_VersionColumn (t_d t))) = Some (Uint v) → is_u64 v →
    match my_exec db (t_upsert t) (upsert_args t row) with
    | (Ok _, db') => ∃ r, tbl db' = <[k := r]> (tbl db) ∧ version_cell t r = Some (FormatUint v)
    | (Err _, db') => tbl db' = tbl db
    | (Panic _, _) => False
    end;
  my_delete : ∀ db k, key_fits t k →
    match my_exec db (t_del t) (ArgText <$> k) with
    | (Ok n, db') => tbl db' = delete k (tbl db) ∧ (n = 0 ↔ tbl db !! k = None)
    | (Err _, db') => tbl db' = tbl db
    | (Panic _, _) => False
    end;
  my_sel : ∀ db p args, p ∈ t_predicates t →
    NoDup (sel db p args) ∧ ∀ k, k ∈ sel db p args → is_Some (tbl db !! k);
  my_resolve : ∀ db p args limit, p ∈ t_predicates t → 0 ≤ limit →
    length args = length (ps_Match (p_spec p)) →
    my_query db (p_resolve p) (args ++ [ArgNum limit]) =
      Ok ((λ k, let r := default [] (tbl db !! k) in
                [Some (default "" (head k)); version_cell t r]) <$> take (Z.to_nat limit) (sel db p args));
  my_update : ∀ db p set v args, p ∈ t_predicates t → is_u64 v →
    length args = length (ps_Match (p_spec p)) → length set = length (ps_Set (p_spec p)) →
    match my_exec db (p_update p) (set ++ [ArgNum v] ++ args) with
    | (Ok _, db') => stamped t v (sel db p args) (tbl db) (tbl db')
    | (Err _, db') => tbl db' = tbl db
    | (Panic _, _) => False
    end;
  my_update_by_key : ∀ db p set v ks stmt, p ∈ t_predicates t → is_u64 v →
    length set = length (ps_Set (p_spec p)) →
    Predicate_UpdateByKeyStmt p (Z.of_nat (length ks)) = Ok stmt →
    match my_exec db stmt (set ++ [ArgNum v] ++ (ArgText <$> ks)) with
    | (Ok _, db') => stamped t v ((λ k, [k]) <$> ks) (tbl db) (tbl db')
    | (Err _, db') => tbl db' = tbl db
    | (Panic _, _) => False
    end;
}.

(** ** An in-memory instance *)

Section mem.
Context (t : Table).

Definition row_wf (k : list string) (r : cells) : Prop :=
  length r = length (d_Columns (t_d t)) ∧ cells_key t r = k ∧ key_fits t k ∧
  Forall (λ c, is_Some (cell c r)) (d_PrimaryKey (t_d t)).

#[local] Instance row_wf_dec k r : Decision (row_wf k r).
Proof. unfold row_wf, key_fits. apply _. Defined.

Definition mem_tbl (m : gmap (list string) cells) : gmap (list string) cells :=
  filter (λ kr, row_wf kr.1 kr.2) m.

Definition arg_cell (a : sqlarg) : option string :=
  match a with ArgNull => None | ArgBlob b | ArgText b => Some b | ArgNum n => Some (FormatInt n) end.

Definition arg_text (a : sqlarg) : string := default "" (arg_cell a).

Definition mem_matches (p : Predicate) (args : list sqlarg) (r : cells) : bool :=
  forallb (λ na, match Descriptor_Column (t_d t) na.1, arg_cell na.2 with
                 | Some c, Some a => bool_decide (cell c r = Some a)
                 | _, _ => false
                 end) (zip (ps_Match (p_spec p)) args).

(** The order of [ORDER BY] on a text key. *)
Definition key_le (a b : list string) : Prop :=
  str_ltb (default "" (head b)) (default "" (head a)) = false.

#[local] Instance key_le_dec a b : Decision (key_le a b).
Proof. unfold key_le. apply _. Defined.

Definition mem_sel (m : gmap (list string) cells) (p : Predicate) (args : list sqlarg) : list (list string) :=
  merge_sort key_le (fst <$> filter (λ kr, mem_matches p args kr.2 = true) (map_to_list (mem_tbl m))).

Definition mem_query (m : gmap (list string) cells) (stmt : string) (args : list sqlarg) : result (list cells) :=
  let rows := mem_tbl m in
  if str_prefix (t_batchGet t) stmt then
    Ok (omap (λ k, rows !! [k]) (remove_dups (arg_text <$> args)))
  else if bool_decide (stmt = t_get t) then Ok (option_list (rows !! (arg_text <$> args)))
  else if bool_decide (stmt = t_lockRow t) then
    Ok ((λ r, [version_cell t r]) <$> option_list (rows !! (arg_text <$> args)))
  else match List.find (λ p, bool_decide (stmt = p_resolve p)) (t_predicates t) with
       | Some p =>
           let n := length (ps_Match (p_spec p)) in
           let limit := match args !! n with Some (ArgNum l) => Z.to_nat l | _ => 0%nat end in
           Ok ((λ k, let r := default [] (rows !! k) in [Some (default "" (head k)); version_cell t r]) <$>
               take limit (mem_sel m p (take n args)))
       | None => Err (Errorf "mysql: unknown statement")
       end.

(** Assign the set columns and the version. *)
Definition stamp (p : Predicate) (set : list sqlarg) (v : sqlarg) (r : cells) : cells :=
  let r := foldl (λ r na, match Descriptor_Column (t_d t) na.1 with
                          | Some c => <[Z.to_nat (col_Index c) := arg_cell na.2]> r
                          | None => r
                          end) r (zip (ps_Set (p_spec p)) set) in
  <[Z.to_nat (col_Index (d_VersionColumn (t_d t))) := arg_cell v]> r.

Definition stamp_ok (p : Predicate) (set : list sqlarg) (v : sqlarg) (k : list string) (r : cells) : Prop :=
  row_wf k (stamp p set v r) ∧ version_cell t (stamp p set v r) = arg_cell v.

#[local] Instance stamp_ok_dec p set v k r : Decision (stamp_ok p set v k r).
Proof. unfold stamp_ok. apply _. Defined.

Definition stamp_rows (p : Predicate) (set : list sqlarg) (v : sqlarg) (ks : list (list string))
    (rows : gmap (list string) cells) : result Z * gmap (list string) cells :=
  if decide (map_Forall (λ k r, k ∈ ks → stamp_ok p set v k r) rows) then
    (Ok (Z.of_nat (length ks)),
     map_imap (λ k r, Some (if decide (k ∈ ks) then stamp p set v r else r)) rows)
  else (Err (Errorf "mysql: rejected"), rows).

Definition mem_exec (m : gmap (list string) cells) (stmt : string) (args : list sqlarg) :
    result Z * gmap (list string) cells :=
  let rows := mem_tbl m in
  match List.find (λ p, str_prefix (p_updateByKey p) stmt) (t_predicates t) with
  | Some p =>
      let n := length (ps_Set (p_spec p)) in
      stamp_rows p (take n args) (default ArgNull (args !! n))
        ((λ a, [arg_text a]) <$> drop (S n) args) rows
  | None =>
      if bool_decide (stmt = t_upsert t) then
        let r := arg_cell <$> take (length (d_Columns (t_d t))) args in
        let k := cells_key t r in
        if decide (row_wf k r) then (Ok 1, <[k := r]> rows) else (Err (Errorf "mysql: rejected"), rows)
      else if bool_decide (stmt = t_del t) then
        let k := arg_text <$> args in
        (Ok (if decide (is_Some (rows !! k)) then 1 else 0), delete k rows)
      else match List.find (λ p, bool_decide (stmt = p_update p)) (t_predicates t) with
           | Some p =>
               let n := length (ps_Set (p_spec p)) in
               stamp_rows p (take n args) (default ArgNull (args !! n))
                 (mem_sel m p (drop (S n) args)) rows
           | None => (Err (Errorf "mysql: unknown statement"), rows)
           end
  end.

Definition mem_mysql : Mysql (gmap (list string) cells) :=
  {| my_query := mem_query; my_exec := mem_exec |}.
End mem.

(** ** The instance obeys the laws

    for a table whose statement texts are distinct. *)

Record texts_ok (t : Table) : Prop := {
  tx_get : str_prefix (t_batchGet t) (t_get t) = false;
  tx_lock : str_prefix (t_batchGet t) (t_lockRow t) = false ∧ t_lockRow t ≠ t_get t;
  tx_resolve : ∀ p, p ∈ t_predicates t →
    str_prefix (t_batchGet t) (p_resolve p) = false ∧ p_resolve p ≠ t_get t ∧ p_resolve p ≠ t_lockRow t ∧
    List.find (λ q, bool_decide (p_resolve p = p_resolve q)) (t_predicates t) = Some p;
  tx_upsert : List.find (λ q, str_prefix (p_updateByKey q) (t_upsert t)) (t_predicates t) = None;
  tx_del : List.find (λ q, str_prefix (p_updateByKey q) (t_del t)) (t_predicates t) = None ∧
    t_del t ≠ t_upsert t;
  tx_update : ∀ p, p ∈ t_predicates t →
    List.find (λ q, str_prefix (p_updateByKey q) (p_update p)) (t_predicates t) = None ∧
    p_update p ≠ t_upsert t ∧ p_update p ≠ t_del t ∧
    List.find (λ q, bool_decide (p_update p = p_update q)) (t_predicates t) = Some p;
  tx_by_key : ∀ p s, p ∈ t_predicates t →
    List.find (λ q, str_prefix (p_updateByKey q) (p_updateByKey p +:+ s)) (t_predicates t) = Some p;
}.

Section mem_laws.
Context (t : Table) (Htx : texts_ok t).
Context (Hwf : ∀ i c, d_Columns (t_d t) !! i = Some c → col_Index c = Z.of_nat i).
Context (Hver : d_VersionColumn (t_d t) ∈ d_Columns (t_d t)).
Context (Hpk : ∀ c, c ∈ d_PrimaryKey (t_d t) → c ∈ d_Columns (t_d t)).

#[local] Existing Instance row_wf_dec.

Lemma arg_text_map (ks : list string) : arg_text <$> (ArgText <$> ks) = ks.
Proof. rewrite <-list_fmap_compose. apply list_fmap_id. Qed.

Lemma mem_tbl_lookup m k r : mem_tbl t m !! k = Some r → row_wf t k r.
Proof. unfold mem_tbl. by intros [_ H]%map_lookup_filter_Some. Qed.

Lemma mem_tbl_id m : (∀ k r, m !! k = Some r → row_wf t k r) → mem_tbl t m = m.
Proof. intros H. apply map_filter_id. intros k r Hl. by apply H. Qed.

Lemma mem_tbl_idem m : mem_tbl t (mem_tbl t m) = mem_tbl t m.
Proof. apply mem_tbl_id. apply mem_tbl_lookup. Qed.

Lemma mem_sel_spec m p args :
  NoDup (mem_sel t m p args) ∧ ∀ k, k ∈ mem_sel t m p args → is_Some (mem_tbl t m !! k).
Proof.
  unfold mem_sel. split.
  - rewrite merge_sort_Permutation.
    assert (∀ l : list (list string * cells), NoDup (fst <$> l) → NoDup (fst <$> filter (λ kr, mem_matches t p args kr.2 = true) l)) as H.
    { induction l as [|x l IH]; intros Hn; [done|]. apply NoDup_cons in Hn as [Hx Hn].
      rewrite filter_cons. case_decide as Hd; [|by apply IH]. apply NoDup_cons. split; [|by apply IH].
      intros (y & Hy & [_ Hin]%list_elem_of_filter)%list_elem_of_fmap. apply Hx. apply list_elem_of_fmap.
      by exists y. }
    apply H, NoDup_fst_map_to_list.
  - intros k. rewrite merge_sort_Permutation. intros (kr & -> & [_ Hin]%list_elem_of_filter)%list_elem_of_fmap. destruct kr as [k r].
    apply elem_of_map_to_list in Hin. by exists r.
Qed.

Lemma stamp_rows_spec p set v ks rows :
  (∀ k r, rows !! k = Some r → row_wf t k r) → is_u64 v →
  match stamp_rows t p set (ArgNum v) ks rows with
  | (Ok _, rows') => stamped t v ks rows (mem_tbl t rows')
  | (Err _, rows') => mem_tbl t rows' = rows
  | (Panic _, _) => False
  end.
Proof.
  intros Hr Hv. unfold stamp_rows. case_decide as Hd; [|by apply mem_tbl_id].
  rewrite mem_tbl_id.
  - intros k. rewrite map_lookup_imap. split_and!.
    + intros Hk. destruct (rows !! k) as [r|]; [|done]. simpl. by rewrite decide_False.
    + intros Hk [r Hl]. rewrite Hl. simpl. rewrite decide_True by done. eexists. split; [done|].
      destruct (Hd k r Hl Hk) as [_ ->]. simpl. unfold FormatInt. unfold is_u64 in Hv.
      by rewrite (proj2 (Z.ltb_ge _ _)) by lia.
    + by intros ->.
  - intros k r. rewrite map_lookup_imap. destruct (rows !! k) as [r0|] eqn:E; [|done]. simpl.
    case_decide as Hk; intros [= <-]; [by apply (Hd k r0 E)|by apply Hr].
Qed.

Lemma version_arg row v :
  length row = length (d_Columns (t_d t)) →
  row !! Z.to_nat (col_Index (d_VersionColumn (t_d t))) = Some (Uint v) → is_u64 v →
  (arg_cell <$> zip_with Column_Arg (d_Columns (t_d t)) row)
    !!! Z.to_nat (col_Index (d_VersionColumn (t_d t))) = Some (FormatUint v).
Proof.
  intros Hl Hr Hv. apply list_elem_of_lookup in Hver as [i Hi].
  rewrite (Hwf i _ Hi), Nat2Z.id in *. apply list_lookup_total_correct.
  rewrite list_lookup_fmap, lookup_zip_with, Hi, Hr. cbn [mbind option_bind fmap option_fmap option_map].
  unfold Column_Arg, Uint. cbn [IsNull].
  by case_bool_decide; simpl; rewrite appendUintTo_FormatUint.
Qed.

Lemma take_app_map {A} (l k : list A) n : length l = n → take n (l ++ k) = l ∧ drop n (l ++ k) = k.
Proof. intros <-. split; [apply take_app_length|apply drop_app_length]. Qed.

Lemma mem_laws : @MysqlLaws _ (mem_mysql t) t (mem_tbl t) (mem_sel t).
Proof.
  split.
  - intros m k r (H1 & H2 & H3 & H4)%mem_tbl_lookup. split_and!; [done..|]. by apply Forall_forall.
  - intros m k _. cbn [my_query mem_mysql]. unfold mem_query. rewrite (tx_get t Htx).
    rewrite bool_decide_eq_true_2 by done. by rewrite arg_text_map.
  - intros m k _. cbn [my_query mem_mysql]. unfold mem_query. destruct (tx_lock t Htx) as [-> Hne].
    rewrite bool_decide_eq_false_2, bool_decide_eq_true_2 by done. by rewrite arg_text_map.
  - intros m ks stmt. unfold Table_BatchGetStmt. destruct (negb _); [done|]. destruct (_ <=? 0); [done|].
    intros <-%Ok_inj _. cbn [my_query mem_mysql]. unfold mem_query.
    rewrite str_prefix_app, arg_text_map. by eexists.
  - intros m row k v Hl Hk Hkv Hr Hv. cbn [my_exec mem_mysql]. unfold mem_exec. rewrite (tx_upsert t Htx).
    rewrite bool_decide_eq_true_2 by done. unfold upsert_args.
    assert (length (zip_with Column_Arg (d_Columns (t_d t)) row) = length (d_Columns (t_d t))) as Hlz.
    { rewrite length_zip_with. lia. }
    destruct (take_app_map _ ((λ i, match d_Columns (t_d t) !! i, row !! i with
         | Some c, Some v => Column_Arg c v | _, _ => ArgNull end) <$> t_upsertAssigned t) _ Hlz) as [-> _].
    case_decide as Hw; [|apply mem_tbl_idem].
    assert (cells_key t (arg_cell <$> zip_with Column_Arg (d_Columns (t_d t)) row) = k) as Hck.
    { unfold cells_key. clear -Hkv Hwf Hpk Hl. revert k Hkv.
      induction (d_PrimaryKey (t_d t)) as [|c pk IH]; intros k Hkv.
      { by destruct k. }
      cbn [key_values] in Hkv. destruct (row !! Z.to_nat (col_Index c)) as [v|] eqn:Er; [|done].
      destruct (IsNull v) eqn:En; [done|]. apply result_bind_ok in Hkv as (rest & Hrest & Heq).
      apply Ok_inj in Heq. destruct k as [|kt k]; [done|].
      change (ArgString <$> kt :: k) with (ArgString kt :: (ArgString <$> k)) in Heq.
      injection Heq as <- ->.
      change ((λ c0, default "" (cell c0 (arg_cell <$> zip_with Column_Arg (d_Columns (t_d t)) row))) <$> c :: pk)
        with (default "" (cell c (arg_cell <$> zip_with Column_Arg (d_Columns (t_d t)) row)) ::
              ((λ c0, default "" (cell c0 (arg_cell <$> zip_with Column_Arg (d_Columns (t_d t)) row))) <$> pk)).
      f_equal; [|apply IH; [|done]].
      - assert (c ∈ d_Columns (t_d t)) as (i & Hi)%list_elem_of_lookup by (apply Hpk; left).
        unfold cell. rewrite (Hwf i c Hi), Nat2Z.id in *. erewrite list_lookup_total_correct.
        2: { rewrite list_lookup_fmap, lookup_zip_with, Hi, Er. reflexivity. }
        unfold Column_Arg. rewrite En. by case_bool_decide.
      - intros c' Hc'. apply Hpk. by right. }
    rewrite Hck in *. exists (arg_cell <$> zip_with Column_Arg (d_Columns (t_d t)) row). split.
    + apply mem_tbl_id. intros k' r' [[<- <-]|[_ Hm]]%lookup_insert_Some; [done|by eapply mem_tbl_lookup].
    + by apply version_arg.
  - intros m k _. cbn [my_exec mem_mysql]. unfold mem_exec. destruct (tx_del t Htx) as [-> Hne].
    rewrite bool_decide_eq_false_2, bool_decide_eq_true_2 by done. rewrite arg_text_map. split.
    + apply mem_tbl_id. intros k' r' [_ Hm]%lookup_delete_Some. by eapply mem_tbl_lookup.
    + case_decide as Hd; [|split; [intros _; by apply eq_None_not_Some|done]].
      split; [done|]. intros Hn. rewrite Hn in Hd. by destruct Hd.
  - intros m p args _. apply mem_sel_spec.
  - intros m p args limit Hp _ Hla. cbn [my_query mem_mysql]. unfold mem_query.
    destruct (tx_resolve t Htx p Hp) as (-> & Hn1 & Hn2 & ->).
    rewrite !bool_decide_eq_false_2 by done. rewrite <-Hla.
    rewrite lookup_app_r by lia. rewrite Nat.sub_diag. cbn [lookup list_lookup].
    by rewrite take_app_length.
  - intros m p set v args Hp Hv Hla Hls. cbn [my_exec mem_mysql]. unfold mem_exec.
    destruct (tx_update t Htx p Hp) as (-> & Hn1 & Hn2 & ->). rewrite !bool_decide_eq_false_2 by done.
    rewrite <-Hls. rewrite take_app_length, lookup_app_r by lia. rewrite Nat.sub_diag.
    cbn [lookup list_lookup app default from_option]. rewrite drop_app_ge by lia.
    replace (S (length set) - length set)%nat with 1%nat by lia. cbn [drop]. rewrite ?drop_0.
    apply stamp_rows_spec; [apply mem_tbl_lookup|done].
  - intros m p set v ks stmt Hp Hv Hls. unfold Predicate_UpdateByKeyStmt. destruct (_ <=? 0); [done|].
    intros <-%Ok_inj. cbn [my_exec mem_mysql]. unfold mem_exec. rewrite (tx_by_key t Htx p _ Hp).
    rewrite <-Hls. rewrite take_app_length, lookup_app_r by lia. rewrite Nat.sub_diag.
    cbn [lookup list_lookup app default from_option]. rewrite drop_app_ge by lia.
    replace (S (length set) - length set)%nat with 1%nat by lia. cbn [drop]. rewrite ?drop_0.
    assert ((λ a, [arg_text a]) <$> (ArgText <$> ks) = (λ k, [k]) <$> ks) as ->.
    { rewrite <-list_fmap_compose. by apply list_fmap_ext. }
    apply stamp_rows_spec; [apply mem_tbl_lookup|done].
Qed.
End mem_laws.

(** The table of the witnesses. *)

Definition users_p : Predicate :=
  match t_predicates users_t with p :: _ => p | [] => mkPredicate (mkPredicateSpec [] []) "" "" "" end.

Lemma users_preds : t_predicates users_t = [users_p].
Proof. vm_compute. reflexivity. Qed.

Lemma users_texts_ok : texts_ok users_t.
Proof.
  assert (∀ P : Predicate → Prop, P users_p → ∀ p, p ∈ t_predicates users_t → P p) as Hall.
  { intros P HP p Hp. rewrite users_preds in Hp. by apply list_elem_of_singleton in Hp as ->. }
  split.
  - vm_compute. reflexivity.
  - split; [vm_compute; reflexivity|vm_compute; discriminate].
  - apply Hall. split_and!; try (vm_compute; reflexivity); vm_compute; discriminate.
  - vm_compute. reflexivity.
  - split; [vm_compute; reflexivity|vm_compute; discriminate].
  - apply Hall. split_and!; try (vm_compute; reflexivity); vm_compute; discriminate.
  - intros p s Hp. revert p Hp. apply Hall. rewrite users_preds. unfold List.find. by rewrite str_prefix_app.
Qed.

Lemma users_laws : @MysqlLaws _ (mem_mysql users_t) users_t (mem_tbl users_t) (mem_sel users_t).
Proof.
  pose proof (NewDescriptor_ok _ _ _ _ users_d_ok) as (_ & _ & Hi & _ & Hpk & Hv & _).
  assert (t_d users_t = users_d) as Hd by (vm_compute; reflexivity).
  apply mem_laws; [apply users_texts_ok|rewrite Hd..].
  - exact Hi.
  - exact Hv.
  - intros c Hc. rewrite Forall_forall in Hpk. by apply Hpk.
Qed.
