(* ===== verification/Storage.v ===== *)
(** A shard's operations on rows: [src/internal/storage/rows.go] and
    [update.go].

    A shard's state is its clock, the contents of its database and the open
    transaction, if any: a private copy of the contents that [Commit] installs.
    Clock readings and the fate of each call to the database are arguments of
    the operations. *)

From S2P Require Import Prelude GoStd Hlc Schema Row Table Mysql.

Local Open Scope Z_scope.

Record Shard := mkShard { sh_id : string; sh_tables : gmap string Table }.

Record ShardW (D : Type) := mkShardW { sw_clock : Clock; sw_db : D; sw_tx : option D }.
Arguments mkShardW {D} _ _ _.
Arguments sw_clock {D} _.
Arguments sw_db {D} _.
Arguments sw_tx {D} _.

(** A statement's call either reaches the database or fails with an error; a
    commit that fails may have been applied. *)
Abbreviation fate := (option error).
Inductive commit_fate := Committed | CommitFails (e : error) | CommitLost (e : error).

(** Reading a result: [iter] is the row count after which the iteration fails,
    and the error it fails with. *)
Abbreviation iter_fate := (option (nat * error)).

Record write_io := mkWriteIO {
  wi_begin : fate;
  wi_lock : fate;
  wi_iter : iter_fate;
  wi_now : Z;
  wi_exec : fate;
  wi_commit : commit_fate;
}.

Record ColumnValue := mkColumnValue { cv_Column : string; cv_Value : Value }.

Record UpdateResult := mkUpdateResult {
  ur_Version : Z;
  ur_Matched : Z;
  ur_AffectedKeys : list Key;
  ur_Degraded : bool;
}.

(** [fmt.Errorf("...: %w", err)] around a call. *)
Definition wrapping {S A} (msg : string) (m : M S A) : M S A := λ s,
  match m s with (Err e, s') => (Err (Wrapf msg e), s') | r => r end.

(** ** Rows *)

Definition Table_keyArgs (t : Table) (key : Key) : result (list sqlarg) :=
  if negb (bool_decide (key_Table key = d_Name (t_d t))) then Err (Errorf "storage: key does not name table")
  else if negb (length (key_Values key) =? length (d_PrimaryKey (t_d t)))%nat then
    Err (Errorf "storage: wrong number of primary key columns")
  else Ok (ArgText <$> key_Values key).

Definition Table_rowVersion (t : Table) (row : list Value) : result Z :=
  match row !! Z.to_nat (col_Index (d_VersionColumn (t_d t))) with
  | None => Panic "runtime error: index out of range"
  | Some v => match Value_Uint64 v with
              | Err e => Err (Wrapf "storage: reading the version column" e)
              | r => r
              end
  end.

(** A scanned cell: copied, never a nil slice. *)
Definition value_of_cell (c : option string) : Value :=
  match c with None => Null | Some b => Bin (Some b) end.

Definition scanInto (t : Table) (r : cells) : result (list Value) :=
  if negb (length r =? length (d_Columns (t_d t)))%nat then
    Err (Errorf "sql: wrong number of destination arguments in Scan")
  else Ok (value_of_cell <$> r).

(** [argsInDeclaredOrder]: the inner loop over the given values. *)
Fixpoint find_value (name : string) (given : list ColumnValue) (found : option sqlarg) : result (option sqlarg) :=
  match given with
  | [] => Ok found
  | g :: given =>
      if negb (bool_decide (cv_Column g = name)) then find_value name given found
      else match found with
           | Some _ => Err (Wrapf "column appears twice in one conditional write" (Sentinel ErrInvalidPredicate))
           | None => find_value name given (Some (Value_SQL (cv_Value g)))
           end
  end.

Fixpoint argsInDeclaredOrder (declared : list string) (given : list ColumnValue) : result (list sqlarg) :=
  match declared with
  | [] => Ok []
  | name :: declared =>
      found ← find_value name given None;
      match found with
      | None => Err (Wrapf "no value given" (Sentinel ErrInvalidPredicate))
      | Some a => rest ← argsInDeclaredOrder declared given; Ok (a :: rest)
      end
  end.

Section shard.
Context {D : Type} `{Mysql D}.

Definition on_clock {A} (m : M Clock A) : M (ShardW D) A := λ w,
  let '(r, c) := m (sw_clock w) in (r, mkShardW c (sw_db w) (sw_tx w)).

Definition db_query (f : fate) (stmt : string) (args : list sqlarg) : M (ShardW D) (list cells) := λ w,
  match f with Some e => (Err e, w) | None => (my_query (sw_db w) stmt args, w) end.

Definition tx_done : error := Errorf "sql: transaction has already been committed or rolled back".

Definition tx_query (f : fate) (stmt : string) (args : list sqlarg) : M (ShardW D) (list cells) := λ w,
  match f, sw_tx w with
  | Some e, _ => (Err e, w)
  | None, Some d => (my_query d stmt args, w)
  | None, None => (Err tx_done, w)
  end.

Definition tx_exec (f : fate) (stmt : string) (args : list sqlarg) : M (ShardW D) Z := λ w,
  match f, sw_tx w with
  | Some e, _ => (Err e, w)
  | None, Some d => let '(r, d') := my_exec d stmt args in (r, mkShardW (sw_clock w) (sw_db w) (Some d'))
  | None, None => (Err tx_done, w)
  end.

Definition BeginTx (f : fate) : M (ShardW D) unit := λ w,
  match f with
  | Some e => (Err e, w)
  | None => (Ok tt, mkShardW (sw_clock w) (sw_db w) (Some (sw_db w)))
  end.

Definition Rollback : M (ShardW D) unit := λ w, (Ok tt, mkShardW (sw_clock w) (sw_db w) None).

Definition Commit (f : commit_fate) : M (ShardW D) unit := λ w,
  let applied := mkShardW (sw_clock w) (default (sw_db w) (sw_tx w)) None in
  match f with
  | Committed => (Ok tt, applied)
  | CommitLost e => (Err e, applied)
  | CommitFails e => (Err e, mkShardW (sw_clock w) (sw_db w) None)
  end.

(** The deferred function: [Rollback] when the body returns an error; a panic
    passes it with a nil error. *)
Definition finish {A} (r : result A * ShardW D) : result A * ShardW D :=
  match r with (Err e, w') => (Err e, (Rollback w').2) | r => r end.

Definition with_tx {A} (f : fate) (body : M (ShardW D) A) : M (ShardW D) A :=
  wrapping "begin" (BeginTx f);;
  ((λ w, finish (body w)) : M (ShardW D) A).

Context (s : Shard).

Definition Shard_Table (name : string) : result Table :=
  match sh_tables s !! name with
  | Some t => Ok t
  | None => Err (Errorf "storage: shard serves no such table")
  end.

(** The row and the fill version; no row is the source's [ErrNotFound], which
    carries the fill version too. *)
Definition Shard_GetRow (now : Z) (f : fate) (key : Key) : M (ShardW D) (option (list Value) * Z) :=
  fill ← on_clock (Clock_Now now);
  t ← M_lift (Shard_Table (key_Table key));
  args ← M_lift (Table_keyArgs t key);
  rows ← wrapping "get" (db_query f (t_get t) args);
  match rows with
  | [] => mret (None, fill)
  | r :: _ =>
      row ← wrapping "get" (M_lift (scanInto t r));
      v ← M_lift (Table_rowVersion t row);
      on_clock (Clock_Observe v);;
      mret (Some row, fill)
  end.

Fixpoint batch_args (t : Table) (keys : list Key) : result (list sqlarg) :=
  match keys with
  | [] => Ok []
  | k :: keys =>
      if negb (bool_decide (key_Table k = d_Name (t_d t))) then Err (Errorf "storage: batch mixes tables")
      else a ← Table_keyArgs t k; rest ← batch_args t keys; Ok (a ++ rest)
  end.

Fixpoint batch_rows (t : Table) (rows : list cells) (out : gmap string (list Value)) :
    M (ShardW D) (gmap string (list Value)) :=
  match rows with
  | [] => mret out
  | r :: rows =>
      row ← wrapping "batch get" (M_lift (scanInto t r));
      key ← wrapping "batch get" (M_lift (Table_KeyOf t row));
      v ← M_lift (Table_rowVersion t row);
      on_clock (Clock_Observe v);;
      batch_rows t rows (<[Key_String key := row]> out)
  end.

Definition Shard_BatchGetRows (now : Z) (f : fate) (it : iter_fate) (keys : list Key) :
    M (ShardW D) (gmap string (list Value) * Z) :=
  fill ← on_clock (Clock_Now now);
  match keys with
  | [] => mret (∅, fill)
  | k0 :: _ =>
      t ← M_lift (Shard_Table (key_Table k0));
      stmt ← M_lift (Table_BatchGetStmt t (Z.of_nat (length keys)));
      args ← M_lift (batch_args t keys);
      rows ← wrapping "batch get" (db_query f stmt args);
      out ← batch_rows t (match it with Some (n, _) => take n rows | None => rows end) ∅;
      match it with
      | Some (_, e) => M_fail (Wrapf "batch get" e)
      | None => mret (out, fill)
      end
  end.

(** Lock a row and fold its version into the clock. *)
Definition Shard_observeRowVersion (f : fate) (t : Table) (key : Key) : M (ShardW D) unit :=
  args ← M_lift (Table_keyArgs t key);
  rows ← wrapping "lock" (tx_query f (t_lockRow t) args);
  match rows with
  | [] => mret tt
  | r :: _ =>
      if negb (length r =? 1)%nat then
        M_fail (Wrapf "lock" (Errorf "sql: wrong number of destination arguments in Scan"))
      else
        existing ← wrapping "lock" (M_lift (Value_Uint64 (Bin (default None (head r)))));
        on_clock (Clock_Observe existing)
  end.

Definition Shard_PutRow (i : write_io) (table : string) (row : list Value) : M (ShardW D) Z :=
  t ← M_lift (Shard_Table table);
  if negb (length row =? length (d_Columns (t_d t)))%nat then M_fail (Errorf "storage: wrong number of columns")
  else
    key ← M_lift (Table_KeyOf t row);
    with_tx (wi_begin i) (
      Shard_observeRowVersion (wi_lock i) t key;;
      version ← on_clock (Clock_Next (wi_now i));
      (* the version column is a column of the row *)
      let stamped := <[Z.to_nat (col_Index (d_VersionColumn (t_d t))) := Uint version]> row in
      wrapping "put" (tx_exec (wi_exec i) (t_upsert t) (upsert_args t stamped));;
      wrapping "put: commit" (Commit (wi_commit i));;
      mret version).

(** The boolean is false where the source returns [ErrNotFound] beside the
    version. *)
Definition Shard_DeleteRow (i : write_io) (key : Key) : M (ShardW D) (Z * bool) :=
  t ← M_lift (Shard_Table (key_Table key));
  args ← M_lift (Table_keyArgs t key);
  with_tx (wi_begin i) (
    Shard_observeRowVersion (wi_lock i) t key;;
    version ← on_clock (Clock_Next (wi_now i));
    n ← wrapping "delete" (tx_exec (wi_exec i) (t_del t) args);
    wrapping "delete: commit" (Commit (wi_commit i));;
    mret (version, negb (n =? 0))).

Fixpoint resolve_rows (t : Table) (rows : list cells) (keys : list Key) : M (ShardW D) (list Key) :=
  match rows with
  | [] => mret keys
  | r :: rows =>
      match r with
      | [rawKey; rawVersion] =>
          version ← wrapping "update where" (M_lift (Value_Uint64 (Bin rawVersion)));
          on_clock (Clock_Observe version);;
          key ← wrapping "update where" (M_lift (Descriptor_Key (t_d t) [ArgString (default "" rawKey)]));
          resolve_rows t rows (keys ++ [key])
      | _ => M_fail (Wrapf "update where: scan" (Errorf "sql: wrong number of destination arguments in Scan"))
      end
  end.

Definition Shard_resolveAffected (f : fate) (it : iter_fate) (t : Table) (p : Predicate)
    (matchArgs : list sqlarg) (maxAffected : Z) : M (ShardW D) (list Key) :=
  rows ← wrapping "update where: resolve"
           (tx_query f (p_resolve p) (matchArgs ++ [ArgNum (i64 (maxAffected + 1))]));
  keys ← resolve_rows t (match it with Some (n, _) => take n rows | None => rows end) [];
  match it with
  | Some (_, e) => M_fail (Wrapf "update where: resolve" e)
  | None => mret keys
  end.

Fixpoint first_values (keys : list Key) : result (list sqlarg) :=
  match keys with
  | [] => Ok []
  | k :: keys =>
      match key_Values k with
      | v :: _ => rest ← first_values keys; Ok (ArgText v :: rest)
      | [] => Panic "runtime error: index out of range"
      end
  end.

Definition Shard_UpdateWhere (i : write_io) (table : string) (match_ set : list ColumnValue)
    (maxAffected : Z) : M (ShardW D) UpdateResult :=
  if maxAffected <=? 0 then M_fail (Wrapf "got" (Sentinel ErrInvalidBudget))
  else
    t ← M_lift (Shard_Table table);
    pred ← M_lift (Table_Predicate t (cv_Column <$> match_) (cv_Column <$> set));
    matchArgs ← M_lift (argsInDeclaredOrder (ps_Match (p_spec pred)) match_);
    setArgs ← M_lift (argsInDeclaredOrder (ps_Set (p_spec pred)) set);
    with_tx (wi_begin i) (
      keys ← Shard_resolveAffected (wi_lock i) (wi_iter i) t pred matchArgs maxAffected;
      let degraded := maxAffected <? Z.of_nat (length keys) in
      version ← on_clock (Clock_Next (wi_now i));
      let write := setArgs ++ [ArgNum version] in
      affected ←
        (if degraded then
           wrapping "update where: write" (tx_exec (wi_exec i) (p_update pred) (write ++ matchArgs))
         else match keys with
              | [] => mret 0
              | _ =>
                  stmt ← M_lift (Predicate_UpdateByKeyStmt pred (Z.of_nat (length keys)));
                  args ← M_lift (first_values keys);
                  wrapping "update where: write" (tx_exec (wi_exec i) stmt (write ++ args))
              end);
      wrapping "update where: commit" (Commit (wi_commit i));;
      mret (if degraded then mkUpdateResult version affected [] true
            else mkUpdateResult version (Z.of_nat (length keys)) keys false)).

End shard.

(** ** Lemmas: values and arguments *)

Lemma uint64_loop_range s : ∀ u v, is_u64 u → uint64_loop u s = Ok v → is_u64 v.
Proof.
  induction s as [|c s IH]; intros u v Hu; cbn [uint64_loop]; [by intros [= <-]|].
  destruct (negb _); [done|]. destruct (_ <? u); [done|]. apply IH, u64_is.
Qed.

Lemma Value_Uint64_range v u : Value_Uint64 v = Ok u → is_u64 u.
Proof.
  unfold Value_Uint64. destruct (IsNull v); [done|]. case_bool_decide; [done|].
  by apply uint64_loop_range.
Qed.

Lemma Value_Uint64_FormatUint v : is_u64 v → Value_Uint64 (Bin (Some (FormatUint v))) = Ok v.
Proof.
  intros Hv. destruct (appendUintTo_spec v Hv) as (Hd & Ha & Hne).
  rewrite appendUintTo_FormatUint in * by done. unfold Value_Uint64, Bin, bytes. cbn [IsNull v_Bytes default from_option id].
  rewrite bool_decide_eq_false_2 by done. rewrite uint64_loop_ok, Hd; [done|lia|done|].
  rewrite Hd. unfold is_u64 in Hv. lia.
Qed.

(** The version a stored row carries, when its version column reads as one. *)
Definition stored_version (t : Table) (r : cells) : result Z := Value_Uint64 (Bin (version_cell t r)).

Lemma key_fits_length t k : key_fits t k → length k = length (d_PrimaryKey (t_d t)).
Proof.
  unfold key_fits, Descriptor_Validate. cbn [key_Table key_Values]. rewrite bool_decide_eq_true_2 by done.
  simpl. destruct (Nat.eqb_spec (length k) (length (d_PrimaryKey (t_d t)))); done.
Qed.

Lemma keyArgs_fits t k : key_fits t k → Table_keyArgs t (mkKey (d_Name (t_d t)) k) = Ok (ArgText <$> k).
Proof.
  intros Hk%key_fits_length. unfold Table_keyArgs. cbn [key_Table key_Values].
  rewrite bool_decide_eq_true_2 by done. by rewrite Hk, Nat.eqb_refl.
Qed.

Lemma key_values_length row pk vs : key_values row pk = Ok vs → length vs = length pk.
Proof.
  revert vs. induction pk as [|c pk IH]; intros vs; cbn [key_values]; [by intros [= <-]|].
  destruct (row !! _); [|done]. destruct (IsNull _); [done|].
  intros (rest & Hr & [= <-])%result_bind_ok. simpl. f_equal. by apply IH.
Qed.

Lemma canonical_all_strings ks : canonical_all (ArgString <$> ks) = Ok ks.
Proof. induction ks as [|k ks IH]; [done|]. cbn in *. by rewrite IH. Qed.

Lemma KeyOf_spec t row k :
  length row = length (d_Columns (t_d t)) → key_values row (d_PrimaryKey (t_d t)) = Ok (ArgString <$> k) →
  Table_KeyOf t row = Ok (mkKey (d_Name (t_d t)) k).
Proof.
  intros Hl Hk. unfold Table_KeyOf. rewrite Hl, Nat.eqb_refl. cbn [negb]. rewrite Hk. cbn [mbind result_bind].
  unfold Descriptor_Key. rewrite (key_values_length _ _ _ Hk), Nat.eqb_refl. cbn [negb].
  by rewrite canonical_all_strings.
Qed.

(** ** Lemmas: the transaction *)

Section lemmas.
Context {D : Type} `{Mysql D}.
Implicit Types w : ShardW D.

Lemma on_clock_Observe v w :
  on_clock (Clock_Observe v) w =
    (Ok tt, mkShardW (mkClock (Z.max v (Clock_last (sw_clock w)))) (sw_db w) (sw_tx w)).
Proof. unfold on_clock. by rewrite Clock_Observe_eq. Qed.

Lemma on_clock_Next now w :
  Clock_wf (sw_clock w) →
  (∃ v, on_clock (Clock_Next now) w = (Ok v, mkShardW (mkClock v) (sw_db w) (sw_tx w)) ∧
        Clock_last (sw_clock w) < v ∧ is_u64 v) ∨
  (∃ m, on_clock (Clock_Next now) w = (Panic m, w) ∧
        (MaxPhysicalMillis < now ∨ Clock_last (sw_clock w) = max_u64)).
Proof.
  intros Hwf. unfold on_clock. destruct w as [c d tx]. cbn [sw_clock sw_db sw_tx] in *.
  rewrite Clock_Next_eq by done. case_decide as Hd.
  - left. eexists. split; [done|]. pose proof (next_version_gt now _ Hwf) as Hgt. split; [done|].
    unfold Clock_wf in Hwf. pose proof (version_split (Clock_last c)).
    unfold next_version in *. rewrite MaxPhysicalMillis_eq in *.
    destruct (Z.ltb_spec (Version_PhysicalMillis (Clock_last c)) now); zsolve.
  - right. eexists. split; [done|]. unfold Clock_wf in Hwf. pose proof (version_split (Clock_last c)).
    rewrite MaxPhysicalMillis_eq in *. zsolve.
Qed.

Context (t : Table) (tbl : D → gmap (list string) cells)
  (sel : D → Predicate → list sqlarg → list (list string)).
Context `{!MysqlLaws D t tbl sel}.

(** The locking read: it can fail, it never panics, and when it succeeds the
    clock is not behind the row. *)
Lemma observe_spec f k w d :
  sw_tx w = Some d → Clock_wf (sw_clock w) → key_fits t k →
  ∃ r c, Shard_observeRowVersion f t (mkKey (d_Name (t_d t)) k) w = (r, mkShardW c (sw_db w) (Some d)) ∧
    Clock_wf c ∧ Clock_last (sw_clock w) ≤ Clock_last c ∧
    (r = Ok tt ∧ (∀ row, tbl d !! k = Some row → ∃ u, stored_version t row = Ok u ∧ u ≤ Clock_last c) ∨
     ∃ e, r = Err e).
Proof.
  intros Htx Hwf Hk. unfold Shard_observeRowVersion. rewrite keyArgs_fits by done.
  destruct w as [c0 db tx]. cbn [sw_clock sw_db sw_tx] in *. subst tx.
  rewrite (M_bind_run _ _ _ (ArgText <$> k) (mkShardW c0 db (Some d))) by done.
  destruct f as [e|].
  { eexists _, c0. split; [reflexivity|]. split_and!; [done|lia|]. right. by eexists. }
  assert (wrapping "lock" (tx_query None (t_lockRow t) (ArgText <$> k)) (mkShardW c0 db (Some d)) =
    (Ok ((λ r, [version_cell t r]) <$> option_list (tbl d !! k)), mkShardW c0 db (Some d))) as Hq.
  { unfold wrapping, tx_query. cbn [sw_tx]. by rewrite my_lock by done. }
  rewrite (M_bind_run _ _ _ _ _ Hq). destruct (tbl d !! k) as [row|] eqn:Erow.
  - change ((λ r, [version_cell t r]) <$> option_list (Some row)) with [[version_cell t row]].
    cbn [length Nat.eqb negb head default from_option].
    change (Value_Uint64 (Bin (id (version_cell t row)))) with (stored_version t row).
    destruct (stored_version t row) as [u|e|m] eqn:Ev.
    + rewrite (M_bind_run _ _ _ u (mkShardW c0 db (Some d))) by done.
      rewrite on_clock_Observe. cbn [sw_clock sw_db sw_tx]. eexists _, _. split; [reflexivity|].
      apply Value_Uint64_range in Ev as Hu. unfold Clock_wf in *. cbn [Clock_last].
      split_and!; [unfold is_u64 in *; lia|lia|]. left. split; [done|].
      intros row' [= <-]. exists u. split; [done|lia].
    + eexists _, c0. split; [reflexivity|]. split_and!; [done|lia|]. right. by eexists.
    + exfalso. clear -Ev. unfold stored_version, Value_Uint64 in Ev. destruct (IsNull _); [done|].
      case_bool_decide; [done|]. revert Ev. generalize 0. generalize (bytes (Bin (version_cell t row))).
      intros s. induction s as [|ch s IH]; intros z; cbn [uint64_loop]; [done|].
      destruct (negb _); [done|]. destruct (_ <? z); [done|]. apply IH.
  - eexists _, c0. split; [reflexivity|]. split_and!; [done|lia|]. left. split; [done|]. by intros ? [=].
Qed.

(** What a failed write leaves: the contents it found, no transaction, a clock
    that did not go back. *)
Definition failed {A} (w : ShardW D) (r : result A * ShardW D) : Prop :=
  ∃ e c, r = (Err e, mkShardW c (sw_db w) None) ∧ Clock_wf c ∧ Clock_last (sw_clock w) ≤ Clock_last c.

Definition clock_panic {A} (now : Z) (r : result A * ShardW D) : Prop :=
  ∃ m w', r = (Panic m, w') ∧ (MaxPhysicalMillis < now ∨ Clock_last (sw_clock w') = max_u64).

(** The common start of a write: begin, a step that reads under lock and folds
    versions into the clock, and the stamp. *)
Lemma tx_prefix {A B} (pre : M (ShardW D) B) (Q : B → Clock → Prop) (K : B → Z → M (ShardW D) A) fb now w :
  Clock_wf (sw_clock w) → sw_tx w = None →
  (∃ r c, pre (mkShardW (sw_clock w) (sw_db w) (Some (sw_db w))) = (r, mkShardW c (sw_db w) (Some (sw_db w))) ∧
     Clock_wf c ∧ Clock_last (sw_clock w) ≤ Clock_last c ∧
     ((∃ b, r = Ok b ∧ Q b c) ∨ ∃ e, r = Err e)) →
  let r := with_tx fb (b ← pre; version ← on_clock (Clock_Next now); K b version) w in
  failed w r ∨ clock_panic now r ∨
  ∃ b c v, r = finish (K b v (mkShardW (mkClock v) (sw_db w) (Some (sw_db w)))) ∧
       Clock_last (sw_clock w) ≤ Clock_last c < v ∧ is_u64 v ∧ Q b c.
Proof.
  intros Hwf Htx (r & c' & Ho & Hwf' & Hle & Hr). destruct w as [c db tx]. cbn [sw_clock sw_db sw_tx] in *. subst tx.
  unfold with_tx. destruct fb as [e|].
  { left. eexists _, c. split; [reflexivity|]. split; [done|cbn; lia]. }
  set (w1 := mkShardW c db (Some db)) in *.
  rewrite (M_bind_run _ _ _ tt w1) by done. cbv zeta.
  destruct Hr as [(b & -> & HQ)|[e ->]].
  - rewrite (M_bind_run _ _ _ _ _ Ho).
    destruct (on_clock_Next now (mkShardW c' db (Some db)) Hwf') as [(v & Hv & Hlt & Hu)|(m & Hm & Hp)].
    + right; right. exists b, c', v. rewrite (M_bind_run _ _ _ _ _ Hv). cbn in *. split_and!; [done|lia|lia|done|done].
    + right; left. exists m, (mkShardW c' db (Some db)). split; [|done].
      unfold mbind at 1, M_bind. by rewrite Hm.
  - left. exists e, c'. unfold mbind, M_bind. rewrite Ho. split; [done|]. split; [done|cbn in *; lia].
Qed.

(** The same for a write of one row. *)
Lemma write_prefix {A} (K : Z → M (ShardW D) A) fb fl now k w :
  Clock_wf (sw_clock w) → key_fits t k → sw_tx w = None →
  let r := with_tx fb (Shard_observeRowVersion fl t (mkKey (d_Name (t_d t)) k);;
                       version ← on_clock (Clock_Next now); K version) w in
  failed w r ∨ clock_panic now r ∨
  ∃ v, r = finish (K v (mkShardW (mkClock v) (sw_db w) (Some (sw_db w)))) ∧
       Clock_last (sw_clock w) < v ∧ is_u64 v ∧
       (∀ row, tbl (sw_db w) !! k = Some row → ∃ u, stored_version t row = Ok u ∧ u < v).
Proof.
  intros Hwf Hk Htx.
  destruct (tx_prefix (Shard_observeRowVersion fl t (mkKey (d_Name (t_d t)) k))
    (λ _ c, ∀ row, tbl (sw_db w) !! k = Some row → ∃ u, stored_version t row = Ok u ∧ u ≤ Clock_last c)
    (λ _, K) fb now w Hwf Htx) as [?|[?|([] & c & v & Hr & Hlt & Hu & HQ)]].
  - destruct (observe_spec fl k (mkShardW (sw_clock w) (sw_db w) (Some (sw_db w))) (sw_db w) eq_refl Hwf Hk)
      as (r & c & Ho & Hwf' & Hle & Hr). exists r, c. split_and!; [done..|].
    destruct Hr as [[-> Hq]|He]; [left; by exists tt|by right].
  - by left.
  - by right; left.
  - right; right. exists v. split_and!; [done|lia|done|]. intros row Hl.
    destruct (HQ row Hl) as (u & Hu' & Hle). exists u. split; [done|lia].
Qed.

(** The common end of a write: one statement and the commit. *)
Lemma write_end {A} fe fc msg1 msg2 stmt args (ret : Z → A) v db :
  let w1 := mkShardW (mkClock v) db (Some db) in
  let r := finish ((n ← wrapping msg1 (tx_exec fe stmt args);
                    wrapping msg2 (Commit fc);; mret (ret n)) w1) in
  (∃ e c db', r = (Err e, mkShardW c db' None) ∧ c = mkClock v ∧
     (db' = db ∨ (∃ n, my_exec db stmt args = (Ok n, db')) ∧ ∃ e', fc = CommitLost e')) ∨
  (∃ m db', my_exec db stmt args = (Panic m, db')) ∨
  (∃ n db', my_exec db stmt args = (Ok n, db') ∧ fc = Committed ∧
     r = (Ok (ret n), mkShardW (mkClock v) db' None)).
Proof.
  intros w1 r. subst w1 r. destruct fe as [e|].
  { left. eexists _, _, db. split; [reflexivity|]. split; [done|by left]. }
  unfold wrapping, tx_exec. mrun. cbn [sw_tx sw_clock sw_db].
  destruct (my_exec db stmt args) as [[n|e|m] db'] eqn:Ex.
  - destruct fc as [|e|e]; cbn.
    + right; right. exists n, db'. done.
    + left. eexists _, _, db. split; [reflexivity|]. split; [done|by left].
    + left. eexists _, _, db'. split; [reflexivity|]. split; [done|]. right. split; [by exists n|by exists e].
  - left. eexists _, _, db. split; [reflexivity|]. split; [done|by left].
  - right; left. by exists m, db'.
Qed.
End lemmas.

(** ** Outcomes *)

(** A table in order: its descriptor, and a version column that is not part of
    the key. *)
Definition table_ok (t : Table) : Prop := desc_ok (t_d t) ∧ d_VersionColumn (t_d t) ∉ d_PrimaryKey (t_d t).

Section outcomes.
Context {D : Type} (t : Table) (tbl : D → gmap (list string) cells).

(** The row is stored under [k] with version [v], above the clock and the row
    it replaces; nothing else changed. *)
Definition row_put (k : list string) (w : ShardW D) (v : Z) (w' : ShardW D) : Prop :=
  sw_tx w' = None ∧ sw_clock w' = mkClock v ∧ Clock_last (sw_clock w) < v ∧ is_u64 v ∧
  (∀ row, tbl (sw_db w) !! k = Some row → ∃ u, stored_version t row = Ok u ∧ u < v) ∧
  ∃ r, tbl (sw_db w') = <[k := r]> (tbl (sw_db w)) ∧ stored_version t r = Ok v.

(** The row under [k] is gone, at version [v]; [existed] is whether it was there. *)
Definition row_deleted (k : list string) (w : ShardW D) (v : Z) (existed : bool) (w' : ShardW D) : Prop :=
  sw_tx w' = None ∧ sw_clock w' = mkClock v ∧ Clock_last (sw_clock w) < v ∧ is_u64 v ∧
  (∀ row, tbl (sw_db w) !! k = Some row → ∃ u, stored_version t row = Ok u ∧ u < v) ∧
  tbl (sw_db w') = delete k (tbl (sw_db w)) ∧ (existed = true ↔ is_Some (tbl (sw_db w) !! k)).

(** Nothing was written, and the clock did not go back. *)
Definition untouched (w w' : ShardW D) : Prop :=
  sw_tx w' = None ∧ Clock_wf (sw_clock w') ∧ Clock_last (sw_clock w) ≤ Clock_last (sw_clock w') ∧
  tbl (sw_db w') = tbl (sw_db w).

Definition put_outcome (k : list string) (i : write_io) (w : ShardW D) (r : result Z * ShardW D) : Prop :=
  match r with
  | (Ok v, w') => row_put k w v w'
  | (Err _, w') => untouched w w' ∨ (∃ e, wi_commit i = CommitLost e) ∧ ∃ v, row_put k w v w'
  | (Panic _, w') => MaxPhysicalMillis < wi_now i ∨ Clock_last (sw_clock w') = max_u64
  end.

Definition delete_outcome (k : list string) (i : write_io) (w : ShardW D) (r : result (Z * bool) * ShardW D) : Prop :=
  match r with
  | (Ok (v, existed), w') => row_deleted k w v existed w'
  | (Err _, w') => untouched w w' ∨ (∃ e, wi_commit i = CommitLost e) ∧ ∃ v existed, row_deleted k w v existed w'
  | (Panic _, w') => MaxPhysicalMillis < wi_now i ∨ Clock_last (sw_clock w') = max_u64
  end.
End outcomes.

Lemma key_values_insert row i v pk :
  (∀ c, c ∈ pk → Z.to_nat (col_Index c) ≠ i) → key_values (<[i := v]> row) pk = key_values row pk.
Proof.
  induction pk as [|c pk IH]; intros Hne; [done|]. cbn [key_values].
  rewrite list_lookup_insert_ne by (intros He; apply (Hne c); [left|congruence]).
  destruct (row !! _); [|done]. destruct (IsNull _); [done|]. rewrite IH; [done|].
  intros c' Hc'. apply Hne. by right.
Qed.

(** Columns of one descriptor with one position are one column. *)
Lemma same_index d c c' :
  desc_ok d → c ∈ d_Columns d → c' ∈ d_Columns d → Z.to_nat (col_Index c) = Z.to_nat (col_Index c') → c = c'.
Proof.
  intros (_ & _ & Hi & _) (i & Hc)%list_elem_of_lookup (j & Hc')%list_elem_of_lookup He.
  rewrite (Hi _ _ Hc), (Hi _ _ Hc'), !Nat2Z.id in He. subst j. congruence.
Qed.

Lemma version_index d : desc_ok d → (Z.to_nat (col_Index (d_VersionColumn d)) < length (d_Columns d))%nat.
Proof.
  intros Hd. assert (d_VersionColumn d ∈ d_Columns d) as (i & Hv)%list_elem_of_lookup by apply Hd.
  destruct Hd as (_ & _ & Hi & _). rewrite (Hi _ _ Hv), Nat2Z.id. by eapply lookup_lt_Some.
Qed.

Section specs.
Context {D : Type} `{Mysql D} (s : Shard) (t : Table) (tbl : D → gmap (list string) cells)
  (sel : D → Predicate → list sqlarg → list (list string)).
Context `{!MysqlLaws D t tbl sel} (Hok : table_ok t).

Lemma failed_untouched {A} w (r : result A * ShardW D) :
  failed w r → ∃ e w', r = (Err e, w') ∧ untouched tbl w w'.
Proof. intros (e & c & -> & Hc & Hle). eexists _, _. split; [done|]. by split_and!. Qed.

Lemma stored_version_FormatUint r v :
  version_cell t r = Some (FormatUint v) → is_u64 v → stored_version t r = Ok v.
Proof. intros Hr Hv. unfold stored_version. rewrite Hr. by apply Value_Uint64_FormatUint. Qed.

(** The upsert of a stamped row. *)
Lemma upsert_law row k v db :
  length row = length (d_Columns (t_d t)) →
  key_values row (d_PrimaryKey (t_d t)) = Ok (ArgString <$> k) → key_fits t k → is_u64 v →
  let stamped := <[Z.to_nat (col_Index (d_VersionColumn (t_d t))) := Uint v]> row in
  match my_exec db (t_upsert t) (upsert_args t stamped) with
  | (Ok _, db') => ∃ r, tbl db' = <[k := r]> (tbl db) ∧ version_cell t r = Some (FormatUint v)
  | (Err _, db') => tbl db' = tbl db
  | (Panic _, _) => False
  end.
Proof.
  intros Hl Hkv Hk Hv stamped. destruct Hok as [Hd Hnk]. apply my_upsert; unfold stamped.
  - by rewrite length_insert.
  - done.
  - rewrite key_values_insert; [done|]. intros c Hc He. apply Hnk.
    rewrite <-(same_index (t_d t) c (d_VersionColumn (t_d t)) Hd); [done|by apply pk_in|apply Hd|done].
  - apply list_lookup_insert_eq. rewrite Hl. by apply version_index.
  - done.
Qed.

Lemma put_spec i row k w :
  sh_tables s !! d_Name (t_d t) = Some t → Clock_wf (sw_clock w) → sw_tx w = None →
  length row = length (d_Columns (t_d t)) →
  key_values row (d_PrimaryKey (t_d t)) = Ok (ArgString <$> k) → key_fits t k →
  put_outcome t tbl k i w (Shard_PutRow s i (d_Name (t_d t)) row w).
Proof.
  intros Ht Hwf Htx Hl Hkv Hk. unfold Shard_PutRow, Shard_Table.
  rewrite (M_bind_run _ _ _ t w) by (by rewrite Ht). rewrite Hl, Nat.eqb_refl. cbn [negb].
  rewrite (M_bind_run _ _ _ (mkKey (d_Name (t_d t)) k) w) by (by unfold M_lift; rewrite (KeyOf_spec t row k)).
  match goal with |- put_outcome _ _ _ _ _ (with_tx _ (_;; version ← _; @?K version) _) =>
    destruct (write_prefix t tbl sel K (wi_begin i) (wi_lock i) (wi_now i) k w Hwf Hk Htx)
      as [Hf|[Hp|(v & -> & Hlt & Hu & Hold)]] end.
  - destruct (failed_untouched _ _ Hf) as (e & w' & -> & Hun). by left.
  - destruct Hp as (m & w' & -> & Hp). exact Hp.
  - pose proof (upsert_law row k v (sw_db w) Hl Hkv Hk Hu) as Hlaw. cbv zeta in Hlaw.
    match goal with |- context [upsert_args t ?st] => set (stamped := st) in * end.
    assert (∀ n db', my_exec (sw_db w) (t_upsert t) (upsert_args t stamped) = (Ok n, db') →
      row_put t tbl k w v (mkShardW (mkClock v) db' None)) as Hput.
    { intros n db' Hx. rewrite Hx in Hlaw. destruct Hlaw as (r & Hr & Hvc).
      split_and!; [done..|]. exists r. split; [done|]. by apply stored_version_FormatUint. }
    destruct (write_end (wi_exec i) (wi_commit i) "put" "put: commit" (t_upsert t) (upsert_args t stamped)
      (λ _, v) v (sw_db w)) as [(e & c & db' & He & -> & Hdb)|[(m & db' & Hp)|(n & db' & Hx & _ & He)]].
    + cbv zeta in He. cbv zeta. rewrite He. destruct Hdb as [->|[[n Hx] Hc]].
      * left. split_and!; cbn; [done|exact Hu|lia|done].
      * right. split; [done|]. exists v. by eapply Hput.
    + by rewrite Hp in Hlaw.
    + cbv zeta in He. cbv zeta. rewrite He. by eapply Hput.
Qed.

Lemma delete_spec i k w :
  sh_tables s !! d_Name (t_d t) = Some t → Clock_wf (sw_clock w) → sw_tx w = None → key_fits t k →
  delete_outcome t tbl k i w (Shard_DeleteRow s i (mkKey (d_Name (t_d t)) k) w).
Proof.
  intros Ht Hwf Htx Hk. unfold Shard_DeleteRow, Shard_Table. cbn [key_Table].
  rewrite (M_bind_run _ _ _ t w) by (by rewrite Ht).
  rewrite (M_bind_run _ _ _ (ArgText <$> k) w) by (by rewrite keyArgs_fits).
  match goal with |- delete_outcome _ _ _ _ _ (with_tx _ (_;; version ← _; @?K version) _) =>
    destruct (write_prefix t tbl sel K (wi_begin i) (wi_lock i) (wi_now i) k w Hwf Hk Htx)
      as [Hf|[Hp|(v & -> & Hlt & Hu & Hold)]] end.
  - destruct (failed_untouched _ _ Hf) as (e & w' & -> & Hun). by left.
  - destruct Hp as (m & w' & -> & Hp). exact Hp.
  - pose proof (my_delete (sw_db w) k Hk) as Hlaw.
    assert (∀ n db', my_exec (sw_db w) (t_del t) (ArgText <$> k) = (Ok n, db') →
      row_deleted t tbl k w v (negb (n =? 0)) (mkShardW (mkClock v) db' None)) as Hdel.
    { intros n db' Hx. rewrite Hx in Hlaw. destruct Hlaw as [Hr Hn]. split_and!; [done..|]. cbn. split.
      - intros Hb. destruct (tbl (sw_db w) !! k) eqn:E; [by eexists|]. destruct Hn as [_ Hn].
        by rewrite Hn in Hb.
      - intros [r Hr']. destruct (Z.eqb_spec n 0) as [->|]; [|done]. destruct Hn as [Hn _].
        rewrite Hn in Hr' by done. done. }
    destruct (write_end (wi_exec i) (wi_commit i) "delete" "delete: commit" (t_del t) (ArgText <$> k)
      (λ n, (v, negb (n =? 0))) v (sw_db w)) as [(e & c & db' & He & -> & Hdb)|[(m & db' & Hp)|(n & db' & Hx & _ & He)]].
    + cbv zeta in He. cbv zeta. rewrite He. destruct Hdb as [->|[[n Hx] Hc]].
      * left. split_and!; cbn; [done|exact Hu|lia|done].
      * right. split; [done|]. exists v, (negb (n =? 0)). by eapply Hdel.
    + by rewrite Hp in Hlaw.
    + cbv zeta in He. cbv zeta. rewrite He. by eapply Hdel.
Qed.

(** *** Reading *)

Lemma rowVersion_spec r :
  length r = length (d_Columns (t_d t)) →
  (∃ u, stored_version t r = Ok u ∧ Table_rowVersion t (value_of_cell <$> r) = Ok u) ∨
  (is_err (stored_version t r) = true ∧ is_err (Table_rowVersion t (value_of_cell <$> r)) = true).
Proof.
  intros Hl. destruct Hok as [Hd _]. pose proof (version_index _ Hd) as Hi. rewrite <-Hl in Hi.
  unfold Table_rowVersion, stored_version, version_cell, cell. rewrite list_lookup_fmap.
  destruct (lookup_lt_is_Some_2 r _ Hi) as [c Hc]. rewrite Hc, (list_lookup_total_correct _ _ _ Hc).
  cbn [fmap option_fmap option_map]. destruct c as [b|]; [|by right].
  cbn [value_of_cell]. pose proof (Value_Uint64_range (Bin (Some b))) as Hrange.
  destruct (Value_Uint64 (Bin (Some b))) as [u|e|m] eqn:E; [left; by exists u|by right|].
  exfalso. clear -E. unfold Value_Uint64 in E. destruct (IsNull _); [done|]. case_bool_decide; [done|].
  revert E. generalize 0. generalize (bytes (Bin (Some b))).
  intros x. induction x as [|ch x IH]; intros z; cbn [uint64_loop]; [done|].
  destruct (negb _); [done|]. destruct (_ <? z); [done|]. apply IH.
Qed.

(** What a read answers: the row as stored and a fill version sampled before it
    was read, the clock no longer behind either; or that there is no row. *)
Definition get_outcome (k : list string) (now : Z) (f : fate) (w : ShardW D)
    (r : result (option (list Value) * Z) * ShardW D) : Prop :=
  let fill0 := Z.max (now * 2 ^ 16) (Clock_last (sw_clock w)) in
  match r with
  | (Ok (Some row, fill), w') => f = None ∧ fill = fill0 ∧
      ∃ cs u, tbl (sw_db w) !! k = Some cs ∧ row = value_of_cell <$> cs ∧ stored_version t cs = Ok u ∧
        Table_rowVersion t row = Ok u ∧ length row = length (d_Columns (t_d t)) ∧ is_u64 u ∧
        w' = mkShardW (mkClock (Z.max u fill)) (sw_db w) (sw_tx w)
  | (Ok (None, fill), w') => f = None ∧ fill = fill0 ∧ tbl (sw_db w) !! k = None ∧
      w' = mkShardW (mkClock fill) (sw_db w) (sw_tx w)
  | (Err _, w') => w' = mkShardW (mkClock fill0) (sw_db w) (sw_tx w) ∧
      (f = None → ∃ cs, tbl (sw_db w) !! k = Some cs ∧ is_err (stored_version t cs) = true)
  | (Panic _, w') => ¬ (0 ≤ now ≤ MaxPhysicalMillis) ∧ w' = w
  end.

Lemma get_spec now f k w :
  sh_tables s !! d_Name (t_d t) = Some t → key_fits t k →
  get_outcome k now f w (Shard_GetRow s now f (mkKey (d_Name (t_d t)) k) w).
Proof.
  intros Ht Hk. unfold Shard_GetRow, get_outcome, Shard_Table. cbn [key_Table]. cbv zeta.
  destruct w as [c db tx]. cbn [sw_clock sw_db sw_tx].
  assert (on_clock (Clock_Now now) (mkShardW c db tx) =
    let '(r, c') := Clock_Now now c in (r, mkShardW c' db tx)) as Hn by done.
  rewrite Clock_Now_eq in Hn. case_decide as Hd.
  2: { unfold mbind at 1, M_bind. rewrite Hn. done. }
  set (fill0 := Z.max (now * 2 ^ 16) (Clock_last c)) in *.
  rewrite (M_bind_run _ _ _ _ _ Hn). set (w1 := mkShardW (mkClock fill0) db tx).
  rewrite (M_bind_run _ _ _ t w1) by (by rewrite Ht).
  rewrite (M_bind_run _ _ _ (ArgText <$> k) w1) by (by rewrite keyArgs_fits).
  destruct f as [e|]; [by split|].
  assert (wrapping "get" (db_query None (t_get t) (ArgText <$> k)) w1 = (Ok (option_list (tbl db !! k)), w1)) as Hq.
  { unfold wrapping, db_query. cbn [sw_db w1]. by rewrite my_get by done. }
  rewrite (M_bind_run _ _ _ _ _ Hq). destruct (tbl db !! k) as [cs|] eqn:Ecs; [|done].
  change (option_list (Some cs)) with [cs]. cbv beta iota. destruct (my_rows_wf db k cs Ecs) as (Hl & _ & _ & _).
  rewrite (M_bind_run _ _ _ (value_of_cell <$> cs) w1).
  2: { unfold wrapping, M_lift, scanInto. rewrite Hl, Nat.eqb_refl. done. }
  destruct (rowVersion_spec cs Hl) as [(u & Hs & Hv)|[Hs Hv]].
  - rewrite (M_bind_run _ _ _ u w1) by (unfold M_lift; by rewrite Hv).
    rewrite (M_bind_run _ _ _ _ _ (on_clock_Observe u w1)). cbn [sw_clock sw_db sw_tx w1].
    split_and!; [done|done|]. exists cs, u.
    split_and!; [done..|by rewrite length_fmap|by eapply Value_Uint64_range|done].
  - unfold mbind, M_bind, M_lift. destruct (Table_rowVersion t _); [done| |done].
    split; [done|]. intros _. by exists cs.
Qed.

(** *** Conditional writes *)

Definition update_done (p : Predicate) (args : list sqlarg) (w : ShardW D) (maxAffected v : Z) (w' : ShardW D) : Prop :=
  let ks := sel (sw_db w) p args in
  sw_tx w' = None ∧ sw_clock w' = mkClock v ∧ Clock_last (sw_clock w) < v ∧ is_u64 v ∧
  (∀ k, k ∈ take (Z.to_nat (maxAffected + 1)) ks →
     ∃ row u, tbl (sw_db w) !! k = Some row ∧ stored_version t row = Ok u ∧ u < v) ∧
  stamped t v ks (tbl (sw_db w)) (tbl (sw_db w')).

Definition update_outcome (p : Predicate) (args : list sqlarg) (maxAffected : Z) (i : write_io) (w : ShardW D)
    (r : result UpdateResult * ShardW D) : Prop :=
  let ks := sel (sw_db w) p args in
  match r with
  | (Ok res, w') =>
      update_done p args w maxAffected (ur_Version res) w' ∧
      if maxAffected <? Z.of_nat (length ks) then ur_Degraded res = true ∧ ur_AffectedKeys res = []
      else ur_Degraded res = false ∧ ur_Matched res = Z.of_nat (length ks) ∧
           ur_AffectedKeys res = mkKey (d_Name (t_d t)) <$> ks
  | (Err _, w') => untouched tbl w w' ∨
      (∃ e, wi_commit i = CommitLost e) ∧ ∃ v, update_done p args w maxAffected v w'
  | (Panic _, w') => MaxPhysicalMillis < wi_now i ∨ Clock_last (sw_clock w') = max_u64
  end.

Context (Hpk1 : length (d_PrimaryKey (t_d t)) = 1%nat).

(** The keys of one-column tables. *)
Lemma sel_single db p args :
  p ∈ t_predicates t → ∃ xs, sel db p args = (λ x, [x]) <$> xs.
Proof.
  intros Hp. destruct (my_sel db p args Hp) as [_ Hin]. revert Hin. generalize (sel db p args) as ks.
  induction ks as [|k ks IH]; intros Hin; [by exists []|].
  destruct IH as [xs ->]; [intros k' Hk'; apply Hin; by right|].
  destruct (Hin k) as [r Hr]; [left|]. destruct (my_rows_wf _ _ _ Hr) as (_ & _ & Hf & _).
  apply key_fits_length in Hf. rewrite Hpk1 in Hf. destruct k as [|x [|]]; [done| |done]. by exists (x :: xs).
Qed.

Lemma stored_version_total r : (∃ u, stored_version t r = Ok u) ∨ ∃ e, stored_version t r = Err e.
Proof.
  unfold stored_version. generalize (Bin (version_cell t r)) as v. intros v. unfold Value_Uint64.
  destruct (IsNull v); [by right; eexists|]. case_bool_decide; [by right; eexists|].
  generalize 0. generalize (bytes v). intros x.
  induction x as [|ch x IH]; intros z; cbn [uint64_loop]; [by left; eexists|].
  destruct (negb _); [by right; eexists|]. destruct (_ <? z); [by right; eexists|]. apply IH.
Qed.

(** Reading the locked rows: their keys in order, the clock behind none of them. *)
Lemma resolve_rows_spec (d : D) xs : ∀ acc c (db : D) tx,
  Clock_wf c → (∀ x, x ∈ xs → is_Some (tbl d !! [x])) →
  ∃ r c', resolve_rows t ((λ k, let r := default [] (tbl d !! k) in
        [Some (default "" (head k)); version_cell t r]) <$> ((λ x, [x]) <$> xs)) acc (mkShardW c db tx)
      = (r, mkShardW c' db tx) ∧
    Clock_wf c' ∧ Clock_last c ≤ Clock_last c' ∧
    ((r = Ok (acc ++ (mkKey (d_Name (t_d t)) <$> ((λ x, [x]) <$> xs))) ∧
      ∀ x, x ∈ xs → ∃ row u, tbl d !! [x] = Some row ∧ stored_version t row = Ok u ∧ u ≤ Clock_last c') ∨
     ∃ e, r = Err e).
Proof.
  induction xs as [|x xs IH]; intros acc c db tx Hwf Hin.
  { eexists _, c. split; [reflexivity|]. split_and!; [done|lia|]. left. split; [by rewrite app_nil_r|].
    by intros ? ?%elem_of_nil. }
  destruct (Hin x) as [row Hrow]; [left|]. cbn [fmap list_fmap resolve_rows]. rewrite Hrow.
  cbn [default from_option id head].
  destruct (stored_version_total row) as [[u Hu]|[e He]].
  - rewrite (M_bind_run _ _ _ u (mkShardW c db tx)).
    2: { unfold wrapping, M_lift. unfold stored_version in Hu. by rewrite Hu. }
    rewrite (M_bind_run _ _ _ _ _ (on_clock_Observe u _)). cbn [sw_clock sw_db sw_tx].
    rewrite (M_bind_run _ _ _ (mkKey (d_Name (t_d t)) [x]) (mkShardW (mkClock (Z.max u (Clock_last c))) db tx)).
    2: { unfold wrapping, M_lift, Descriptor_Key. by rewrite Hpk1. }
    pose proof (Value_Uint64_range _ _ Hu) as Hur. unfold Clock_wf in Hwf.
    destruct (IH (acc ++ [mkKey (d_Name (t_d t)) [x]]) (mkClock (Z.max u (Clock_last c))) db tx)
      as (r & c' & Hr & Hwf' & Hle & Hres).
    { unfold Clock_wf, is_u64 in *. cbn. lia. }
    { intros y Hy. apply Hin. by right. }
    cbn [Clock_last] in Hle. exists r, c'. split; [exact Hr|]. split_and!; [done|lia|].
    destruct Hres as [[-> Hall]|He]; [|by right]. left. split; [by rewrite <-app_assoc|].
    intros y [->|Hy]%elem_of_cons; [exists row, u; split_and!; [done|done|lia]|by apply Hall].
  - eexists _, c. unfold mbind at 1, M_bind, wrapping, M_lift. unfold stored_version in He. rewrite He.
    split; [reflexivity|]. split_and!; [done|lia|]. right. by eexists.
Qed.

Lemma argsInDeclaredOrder_length names given args :
  argsInDeclaredOrder names given = Ok args → length args = length names.
Proof.
  revert args. induction names as [|n names IH]; intros args; cbn [argsInDeclaredOrder]; [by intros [= <-]|].
  intros (f & _ & Hf)%result_bind_ok. destruct f as [a|]; [|done].
  apply result_bind_ok in Hf as (rest & Hr & [= <-]). simpl. f_equal. by apply IH.
Qed.

Lemma first_values_spec xs :
  first_values (mkKey (d_Name (t_d t)) <$> ((λ x, [x]) <$> xs)) = Ok (ArgText <$> xs).
Proof. induction xs as [|x xs IH]; [done|]. cbn in *. by rewrite IH. Qed.

Lemma resolve_spec f it p args maxAffected c db :
  p ∈ t_predicates t → Clock_wf c → 0 < maxAffected < 2 ^ 63 - 1 → length args = length (ps_Match (p_spec p)) →
  let ks := take (Z.to_nat (maxAffected + 1)) (sel db p args) in
  ∃ r c', Shard_resolveAffected f it t p args maxAffected (mkShardW c db (Some db)) = (r, mkShardW c' db (Some db)) ∧
    Clock_wf c' ∧ Clock_last c ≤ Clock_last c' ∧
    ((∃ keys, r = Ok keys ∧ keys = mkKey (d_Name (t_d t)) <$> ks ∧
       ∀ k, k ∈ ks → ∃ row u, tbl db !! k = Some row ∧ stored_version t row = Ok u ∧ u ≤ Clock_last c') ∨
     ∃ e, r = Err e).
Proof.
  intros Hp Hwf Hmax Hla ks. unfold Shard_resolveAffected.
  rewrite i64_id by (unfold is_i64; lia). destruct f as [e|].
  { eexists _, c. split; [reflexivity|]. split_and!; [done|lia|]. right. by eexists. }
  destruct (sel_single db p args Hp) as [xs Hxs]. destruct (my_sel db p args Hp) as [_ Hin].
  rewrite Hxs in Hin.
  assert (wrapping "update where: resolve" (tx_query None (p_resolve p) (args ++ [ArgNum (maxAffected + 1)]))
    (mkShardW c db (Some db)) = (Ok ((λ k, let r := default [] (tbl db !! k) in
       [Some (default "" (head k)); version_cell t r]) <$> ks), mkShardW c db (Some db))) as Hq.
  { unfold wrapping, tx_query. cbn [sw_tx]. by rewrite my_resolve by (done || lia). }
  rewrite (M_bind_run _ _ _ _ _ Hq). subst ks. rewrite Hxs, <-!fmap_take.
  set (n := Z.to_nat (maxAffected + 1)).
  assert (∀ ys : list string, (∀ x, x ∈ ys → x ∈ xs) → ∀ x, x ∈ ys → is_Some (tbl db !! [x])) as Hsome.
  { intros ys Hys x Hx. apply Hin. apply list_elem_of_fmap. exists x. split; [done|by apply Hys]. }
  destruct it as [[m e]|]; cbv beta iota.
  - rewrite <-!fmap_take.
    destruct (resolve_rows_spec db (take m (take n xs)) [] c db (Some db) Hwf) as (r & c' & Hr & Hwf' & Hle & Hres).
    { apply Hsome. intros x Hx. eapply elem_of_take in Hx as (i & Hi & _). apply list_elem_of_lookup_2 in Hi.
      by apply elem_of_take in Hi as (j & Hj & _); apply list_elem_of_lookup_2 in Hj. }
    destruct Hres as [[-> _]|[e' ->]].
    + rewrite (M_bind_run _ _ _ _ _ Hr). eexists _, c'. split; [reflexivity|]. split_and!; [done|lia|].
      right. by eexists.
    + rewrite (M_bind_err _ _ _ _ _ Hr). eexists _, c'. split; [reflexivity|]. split_and!; [done|lia|].
      right. by eexists.
  - destruct (resolve_rows_spec db (take n xs) [] c db (Some db) Hwf) as (r & c' & Hr & Hwf' & Hle & Hres).
    { apply Hsome. intros x Hx. by apply elem_of_take in Hx as (j & Hj & _); apply list_elem_of_lookup_2 in Hj. }
    destruct Hres as [[-> Hall]|[e' ->]].
    + rewrite (M_bind_run _ _ _ _ _ Hr). eexists _, c'. split; [reflexivity|]. split_and!; [done|lia|].
      left. eexists. split_and!; [done|done|].
      intros k (x & -> & Hx)%list_elem_of_fmap. by apply Hall.
    + rewrite (M_bind_err _ _ _ _ _ Hr). eexists _, c'. split; [reflexivity|]. split_and!; [done|lia|].
      right. by eexists.
Qed.

Lemma update_spec i match_ set p args sargs maxAffected w :
  sh_tables s !! d_Name (t_d t) = Some t → Clock_wf (sw_clock w) → sw_tx w = None →
  0 < maxAffected < 2 ^ 63 - 1 →
  Table_Predicate t (cv_Column <$> match_) (cv_Column <$> set) = Ok p →
  argsInDeclaredOrder (ps_Match (p_spec p)) match_ = Ok args →
  argsInDeclaredOrder (ps_Set (p_spec p)) set = Ok sargs →
  update_outcome p args maxAffected i w (Shard_UpdateWhere s i (d_Name (t_d t)) match_ set maxAffected w).
Proof.
  intros Ht Hwf Htx Hmax Hp Hm Hs.
  assert (p ∈ t_predicates t) as Hin.
  { unfold Table_Predicate in Hp. destruct (List.find _ _) as [p'|] eqn:Ef; [|done].
    apply Ok_inj in Hp as <-. apply List.find_some in Ef as [Hin _]. by apply list_elem_of_In. }
  unfold Shard_UpdateWhere, Shard_Table. rewrite (proj2 (Z.leb_gt _ 0)) by lia.
  rewrite (M_bind_run _ _ _ t w) by (by rewrite Ht).
  rewrite (M_bind_run _ _ _ p w) by (unfold M_lift; by rewrite Hp).
  rewrite (M_bind_run _ _ _ args w) by (unfold M_lift; by rewrite Hm).
  rewrite (M_bind_run _ _ _ sargs w) by (unfold M_lift; by rewrite Hs).
  pose proof (argsInDeclaredOrder_length _ _ _ Hm) as Hla. pose proof (argsInDeclaredOrder_length _ _ _ Hs) as Hls.
  match goal with |- update_outcome _ _ _ _ _ (with_tx _ (keys ← _; version ← _; @?K keys version) _) =>
    destruct (tx_prefix (Shard_resolveAffected (wi_lock i) (wi_iter i) t p args maxAffected)
      (λ keys c, keys = mkKey (d_Name (t_d t)) <$> take (Z.to_nat (maxAffected + 1)) (sel (sw_db w) p args) ∧
         ∀ k, k ∈ take (Z.to_nat (maxAffected + 1)) (sel (sw_db w) p args) →
           ∃ row u, tbl (sw_db w) !! k = Some row ∧ stored_version t row = Ok u ∧ u ≤ Clock_last c)
      K (wi_begin i) (wi_now i) w Hwf Htx) as [Hf|[Hf|(keys & c & v & -> & Hlt & Hu & -> & Hall)]] end.
  - destruct (resolve_spec (wi_lock i) (wi_iter i) p args maxAffected (sw_clock w) (sw_db w) Hin Hwf Hmax Hla)
      as (r & c & Hr & Hwf' & Hle & Hres). exists r, c. split_and!; [done..|].
    destruct Hres as [(keys & -> & Hk & Hall)|He]; [left; by exists keys|by right].
  - destruct (failed_untouched _ _ Hf) as (e & w' & -> & Hun). by left.
  - destruct Hf as (m & w' & -> & Hf). exact Hf.
  - cbv zeta. set (ks := sel (sw_db w) p args) in *. set (n := Z.to_nat (maxAffected + 1)) in *.
    assert (∀ k, k ∈ take n ks → ∃ row u, tbl (sw_db w) !! k = Some row ∧ stored_version t row = Ok u ∧ u < v) as Hold.
    { intros k Hk. destruct (Hall k Hk) as (row & u & ? & ? & ?). exists row, u. split_and!; [done|done|lia]. }
    assert (∀ db', stamped t v ks (tbl (sw_db w)) (tbl db') →
      update_done p args w maxAffected v (mkShardW (mkClock v) db' None)) as Hdone.
    { intros db' Hst. split_and!; [done|done|lia|done|done|exact Hst]. }
    assert (untouched tbl w (mkShardW (mkClock v) (sw_db w) None)) as Hun.
    { split_and!; cbn; [done|exact Hu|lia|done]. }
    rewrite length_fmap, length_take. unfold update_outcome. cbv zeta. fold ks.
    assert ((maxAffected <? Z.of_nat (Nat.min n (length ks))) = (maxAffected <? Z.of_nat (length ks))) as Hdeg.
    { subst n. destruct (Z.ltb_spec maxAffected (Z.of_nat (length ks))); zify_bool; lia. }
    rewrite Hdeg. destruct (Z.ltb_spec maxAffected (Z.of_nat (length ks))) as [Hd|Hd].
    + rewrite <-(app_assoc sargs).
      pose proof (my_update (sw_db w) p sargs v args Hin Hu Hla Hls) as Hlaw.
      destruct (write_end (wi_exec i) (wi_commit i) "update where: write" "update where: commit" (p_update p)
        (sargs ++ [ArgNum v] ++ args) (λ n, mkUpdateResult v n [] true) v (sw_db w))
        as [(e & c' & db' & He & -> & Hdb)|[(m & db' & Hx)|(k & db' & Hx & _ & He)]].
      * cbv zeta in He. rewrite He. destruct Hdb as [->|[[k Hx] Hc]]; [by left|].
        right. split; [done|]. exists v. apply Hdone. by rewrite Hx in Hlaw.
      * by rewrite Hx in Hlaw.
      * cbv zeta in He. rewrite He. split; [|done]. apply Hdone. by rewrite Hx in Hlaw.
    + assert (take n ks = ks) as Htk by (apply take_ge; subst n; lia). rewrite Htk in *.
      rewrite Nat.min_r by (subst n; lia).
      destruct (sel_single (sw_db w) p args Hin) as [xs Hxs]. fold ks in Hxs.
      destruct xs as [|x xs].
      * rewrite Hxs in *. cbn [fmap list_fmap length].
        assert (stamped t v [] (tbl (sw_db w)) (tbl (sw_db w))) as Hst.
        { intros k. split_and!; [done|by intros ?%elem_of_nil|done]. }
        destruct (wi_commit i) as [|e|e] eqn:Ec; cbn.
        -- split; [by apply Hdone|done].
        -- by left.
        -- right. split; [by eexists|]. exists v. by apply Hdone.
      * assert (0 < Z.of_nat (length ks)) as Hpos by (rewrite Hxs; simpl; lia).
        destruct (Predicate_UpdateByKeyStmt p (Z.of_nat (length ks))) as [stmt|e|m] eqn:Est.
        2, 3: unfold Predicate_UpdateByKeyStmt in Est; rewrite (proj2 (Z.leb_gt _ 0)) in Est by lia; done.
        pose proof (my_update_by_key (sw_db w) p sargs v (x :: xs) stmt Hin Hu Hls) as Hlaw.
        rewrite Hxs, length_fmap in Est. specialize (Hlaw Est). rewrite <-Hxs in Hlaw.
        destruct (write_end (wi_exec i) (wi_commit i) "update where: write" "update where: commit" stmt
          (sargs ++ [ArgNum v] ++ (ArgText <$> x :: xs))
          (λ _, mkUpdateResult v (Z.of_nat (length ks)) (mkKey (d_Name (t_d t)) <$> ks) false) v (sw_db w))
          as [(e & c' & db' & He & -> & Hdb)|[(m & db' & Hx)|(k & db' & Hx & _ & He)]].
        all: match goal with |- context [finish ((?prog ≫= _) _)] =>
          assert (prog = wrapping "update where: write" (tx_exec (wi_exec i) stmt
            (sargs ++ [ArgNum v] ++ (ArgText <$> x :: xs)))) as Hprog end.
        1, 3, 5: rewrite Hxs, first_values_spec, (app_assoc sargs); reflexivity.
        all: rewrite Hprog.
        -- cbv zeta in He. rewrite He. destruct Hdb as [->|[[k Hx] Hc]]; [by left|].
           right. split; [done|]. exists v. apply Hdone. by rewrite Hx in Hlaw.
        -- by rewrite Hx in Hlaw.
        -- cbv zeta in He. rewrite He. split; [|done]. apply Hdone. by rewrite Hx in Hlaw.
Qed.
End specs.

(** ** Properties *)

(** C10: a put is one transaction at one version.  If it succeeds the row is
    stored under its key, stamped with the returned version, which is above the
    shard's clock and above the version of the row it replaces, whoever wrote it;
    no other row changes.  If it fails nothing changed, unless the commit's
    answer was lost, in which case the whole put may have happened.  No
    transaction is left open, and it panics only on an exhausted clock. *)
Theorem Shard_PutRow_spec {D} `{Mysql D} (s : Shard) (t : Table) (tbl : D → gmap (list string) cells) sel
    `{!MysqlLaws D t tbl sel} (i : write_io) (row : list Value) (k : list string) (w : ShardW D) :
  table_ok t → sh_tables s !! d_Name (t_d t) = Some t → Clock_wf (sw_clock w) → sw_tx w = None →
  length row = length (d_Columns (t_d t)) →
  key_values row (d_PrimaryKey (t_d t)) = Ok (ArgString <$> k) → key_fits t k →
  put_outcome t tbl k i w (Shard_PutRow s i (d_Name (t_d t)) row w).
Proof. intros. by eapply put_spec. Qed.

(** A delete is one transaction at one version above the row it removes, so
    that its tombstone outranks it; it reports whether the row was there, and a
    failed delete changed nothing unless the commit's answer was lost. *)
Theorem Shard_DeleteRow_spec {D} `{Mysql D} (s : Shard) (t : Table) (tbl : D → gmap (list string) cells) sel
    `{!MysqlLaws D t tbl sel} (i : write_io) (k : list string) (w : ShardW D) :
  sh_tables s !! d_Name (t_d t) = Some t → Clock_wf (sw_clock w) → sw_tx w = None → key_fits t k →
  delete_outcome t tbl k i w (Shard_DeleteRow s i (mkKey (d_Name (t_d t)) k) w).
Proof. intros. by eapply delete_spec. Qed.

(** A read returns the row exactly as stored, or reports that there is none;
    its fill version is the clock before the query, the clock afterwards is not
    behind the row's version, and nothing is written.  It fails only with the
    query or on a row whose version does not read as one. *)
Theorem Shard_GetRow_spec {D} `{Mysql D} (s : Shard) (t : Table) (tbl : D → gmap (list string) cells) sel
    `{!MysqlLaws D t tbl sel} (now : Z) (f : fate) (k : list string) (w : ShardW D) :
  table_ok t → sh_tables s !! d_Name (t_d t) = Some t → key_fits t k →
  get_outcome t tbl k now f w (Shard_GetRow s now f (mkKey (d_Name (t_d t)) k) w).
Proof. intros. by eapply get_spec. Qed.

(** C14: a declared conditional write resolves and writes in one transaction.
    Within the budget it reports exactly the rows the predicate matched and
    writes exactly those, all stamped with the returned version, which is above
    the clock and above the version of every row it replaces.  Past the budget it
    writes every matching row, reports degraded and no keys; the version is then
    known to be above only the first [maxAffected + 1] of them.  A failed write
    changed nothing unless the commit's answer was lost. *)
Theorem Shard_UpdateWhere_spec {D} `{Mysql D} (s : Shard) (t : Table) (tbl : D → gmap (list string) cells) sel
    `{!MysqlLaws D t tbl sel} (i : write_io) match_ set p args sargs (maxAffected : Z) (w : ShardW D) :
  sh_tables s !! d_Name (t_d t) = Some t → length (d_PrimaryKey (t_d t)) = 1%nat →
  Clock_wf (sw_clock w) → sw_tx w = None → 0 < maxAffected < 2 ^ 63 - 1 →
  Table_Predicate t (cv_Column <$> match_) (cv_Column <$> set) = Ok p →
  argsInDeclaredOrder (ps_Match (p_spec p)) match_ = Ok args →
  argsInDeclaredOrder (ps_Set (p_spec p)) set = Ok sargs →
  update_outcome t tbl sel p args maxAffected i w
    (Shard_UpdateWhere s i (d_Name (t_d t)) match_ set maxAffected w).
Proof. intros. by eapply update_spec. Qed.

(** ** Witnesses *)

Definition users_shard : Shard := mkShard "s0" {["users" := users_t]}.

Definition users_row (id tenant status version : string) : cells :=
  [Some id; Some tenant; Some status; Some version].

Definition users_w : ShardW (gmap (list string) cells) :=
  mkShardW (mkClock 40) (list_to_map
    [(["1"], users_row "1" "acme" "new" "10"); (["2"], users_row "2" "acme" "new" "20");
     (["3"], users_row "3" "acme" "new" "900000"); (["4"], users_row "4" "other" "new" "30")]) None.

Definition users_io (now : Z) : write_io := mkWriteIO None None None now None Committed.

Lemma users_table_ok : table_ok users_t.
Proof.
  assert (t_d users_t = users_d) as Hd by (vm_compute; reflexivity).
  split; rewrite Hd; [apply (NewDescriptor_ok _ _ _ _ users_d_ok)|].
  vm_compute. intros Hin. apply list_elem_of_In in Hin. naive_solver.
Qed.

#[local] Existing Instance mem_mysql.
#[local] Instance users_mysql : Mysql (gmap (list string) cells) := mem_mysql users_t.
#[local] Instance users_mysql_laws : MysqlLaws _ users_t (mem_tbl users_t) (mem_sel users_t) := users_laws.

Definition new_row : list Value := [Str "1"; Str "acme"; Str "done"; Null].

Lemma Shard_PutRow_spec_witness :
  (Shard_PutRow users_shard (users_io 0) "users" new_row users_w).1 = Ok 41 ∧
  put_outcome users_t (mem_tbl users_t) ["1"] (users_io 0) users_w
    (Shard_PutRow users_shard (users_io 0) "users" new_row users_w).
Proof.
  split; [vm_compute; reflexivity|].
  apply (Shard_PutRow_spec users_shard users_t (mem_tbl users_t) (mem_sel users_t) (users_io 0) new_row ["1"] users_w);
    [apply users_table_ok|vm_compute; reflexivity|vm_compute; intuition congruence|vm_compute; reflexivity..].
Defined.

Lemma Shard_DeleteRow_spec_witness :
  (Shard_DeleteRow users_shard (users_io 0) (mkKey "users" ["2"]) users_w).1 = Ok (41, true) ∧
  delete_outcome users_t (mem_tbl users_t) ["2"] (users_io 0) users_w
    (Shard_DeleteRow users_shard (users_io 0) (mkKey "users" ["2"]) users_w).
Proof.
  split; [vm_compute; reflexivity|].
  apply (Shard_DeleteRow_spec users_shard users_t (mem_tbl users_t) (mem_sel users_t) (users_io 0) ["2"] users_w);
    [vm_compute; reflexivity|vm_compute; intuition congruence|vm_compute; reflexivity..].
Defined.

Lemma Shard_GetRow_spec_witness :
  (Shard_GetRow users_shard 0 None (mkKey "users" ["2"]) users_w).1 =
    Ok (Some [Str "2"; Str "acme"; Str "new"; Str "20"], 40) ∧
  get_outcome users_t (mem_tbl users_t) ["2"] 0 None users_w
    (Shard_GetRow users_shard 0 None (mkKey "users" ["2"]) users_w).
Proof.
  split; [vm_compute; reflexivity|].
  apply (Shard_GetRow_spec users_shard users_t (mem_tbl users_t) (mem_sel users_t) 0 None ["2"] users_w);
    [apply users_table_ok|vm_compute; reflexivity..].
Defined.

Definition acme : list ColumnValue := [mkColumnValue "tenant" (Str "acme")].
Definition archived : list ColumnValue := [mkColumnValue "status" (Str "archived")].

Lemma Shard_UpdateWhere_spec_witness :
  (Shard_UpdateWhere users_shard (users_io 0) "users" acme archived 10 users_w).1 =
    Ok (mkUpdateResult 900001 3 [mkKey "users" ["1"]; mkKey "users" ["2"]; mkKey "users" ["3"]] false) ∧
  update_outcome users_t (mem_tbl users_t) (mem_sel users_t) users_p [ArgBlob "acme"] 10 (users_io 0) users_w
    (Shard_UpdateWhere users_shard (users_io 0) "users" acme archived 10 users_w).
Proof.
  split; [vm_compute; reflexivity|].
  apply (Shard_UpdateWhere_spec users_shard users_t (mem_tbl users_t) (mem_sel users_t) (users_io 0)
           acme archived users_p [ArgBlob "acme"] [ArgBlob "archived"] 10 users_w);
    [vm_compute; reflexivity|vm_compute; reflexivity|vm_compute; intuition congruence|vm_compute; reflexivity
    |lia|vm_compute; reflexivity..].
Defined.

(** Past the budget, a conditional write can move a row's version back: only
    the first [maxAffected + 1] rows advance the clock, so here the third row,
    written by an engine whose clock ran ahead at version 900000, is overwritten
    at version 41, and the invalidation that carries 41 loses to the entry cached
    at 900000. *)
Theorem UpdateWhere_degraded_regresses :
  let r := Shard_UpdateWhere users_shard (users_io 0) "users" acme archived 1 users_w in
  r.1 = Ok (mkUpdateResult 41 3 [] true) ∧
  (stored_version users_t <$> mem_tbl users_t (sw_db users_w) !! ["3"]) = Some (Ok 900000) ∧
  (stored_version users_t <$> mem_tbl users_t (sw_db r.2) !! ["3"]) = Some (Ok 41).
Proof. split_and!; vm_compute; reflexivity. Qed.
