(* ===== verification/Engine.v ===== *)
(** The engine: [src/internal/engine/engine.go], [rows.go] and [tables.go].

    Every read and write of a row: routing, the cache with its leases, the
    standby pool (the gutter), admission, the shards and the session token.  The
    cache is an interface of the source and a class here; the shards are those of
    Storage.v.  Clock readings, cancellations and the fate of each database call
    are the inputs of an operation; metrics and logging are left out. *)

From S2P Require Import Prelude GoStd Hlc Ring Consistency Freshness Schema Row Table Mysql Storage Admission CacheClient.

Local Open Scope Z_scope.

(** ** The cache, as its consumer declares it *)

Class Cache (C : Type) := {
  cache_Get : string → M C (option Entry);
  cache_Fill : string → Entry → M C bool;
  cache_Tombstone : string → Z → M C bool;
  cache_GetOrLease : string → M C LeaseResult;
  cache_FillWithLease : string → Entry → string → M C bool;
}.

(** ** Tables *)

Record TableSpec := mkTableSpec { ts_Descriptor : option Descriptor; ts_Shards : list string }.

Record table := mktable { tb_d : Descriptor; tb_router : storage_Router; tb_shards : gmap string Shard }.

Definition table_shardFor (t : table) (key : string) : result (Shard * string) :=
  match Router_ShardFor (tb_router t) key with
  | Err e => Err (Wrapf "engine: route" e)
  | Panic w => Panic w
  | Ok id =>
      match tb_shards t !! id with
      | Some s => Ok (s, id)
      | None => Err (Errorf "engine: shard has no connection")
      end
  end.

(** The connections of one declaration, each of which has to know the table. *)
Fixpoint build_owned (name : string) (shards : gmap string Shard) (ids : list string) (owned : gmap string Shard) :
    result (gmap string Shard) :=
  match ids with
  | [] => Ok owned
  | id :: ids =>
      match shards !! id with
      | None => Err (Errorf "engine: table is declared on a shard which has no connection")
      | Some s =>
          match Shard_Table s name with
          | Err e => Err (Wrapf "engine" e)
          | Panic w => Panic w
          | Ok _ => build_owned name shards ids (<[id := s]> owned)
          end
      end
  end.

Fixpoint build_specs (shards : gmap string Shard) (specs : list TableSpec) (out : gmap string table)
    (order : list string) : result (gmap string table * list string) :=
  match specs with
  | [] => Ok (out, order)
  | spec :: specs =>
      match ts_Descriptor spec with
      | None => Err (Errorf "engine: a table was declared with no descriptor")
      | Some d =>
          let name := d_Name d in
          if bool_decide (is_Some (out !! name)) then Err (Errorf "engine: table is declared twice")
          else if bool_decide (ts_Shards spec = []) then Err (Errorf "engine: table names no shards")
          else
            owned ← build_owned name shards (ts_Shards spec) ∅;
            match storage_NewRouter (ts_Shards spec) with
            | Err e => Err (Wrapf "engine: table" e)
            | Panic w => Panic w
            | Ok router => build_specs shards specs (<[name := mktable d router owned]> out) (order ++ [name])
            end
      end
  end.

Definition buildTables (specs : list TableSpec) (shards : gmap string Shard) :
    result (gmap string table * list string) :=
  if bool_decide (specs = []) then Err (Errorf "engine: no table declared; Cachet has no built-in table")
  else build_specs shards specs ∅ [].

(** ** The engine *)

(** What does not change once the engine is built.  Whether there is a cache, a
    gutter or an admission controller is in the state below. *)
Record Engine := mkEngine {
  e_tables : gmap string table;
  e_tableOrder : list string;
  e_gutterTTL : Z;
  e_maxSessionShards : Z;
  e_maxAffectedKeys : Z;
  e_leases : WaitPolicy;
  e_cdcLagBound : Z;
  e_maxClockSkew : Z;
  e_syncInvalidation : bool;
  e_version : string;
}.

Record engine_Options := mkEngineOptions {
  eo_Shards : gmap string Shard;
  eo_Tables : list TableSpec;
  eo_GutterTTL : Z;
  eo_MaxSessionShards : Z;
  eo_MaxAffectedKeys : Z;
  eo_CDCLagBound : Z;
  eo_MaxClockSkew : Z;
  eo_SynchronousInvalidation : bool;
  eo_Leases : WaitPolicy;
  eo_Version : string;
}.

Definition engine_New (opts : engine_Options) : result Engine :=
  '(tables, order) ← buildTables (eo_Tables opts) (eo_Shards opts);
  Ok (mkEngine tables order (eo_GutterTTL opts)
        (if eo_MaxSessionShards opts <=? 0 then DefaultMaxSessionShards else eo_MaxSessionShards opts)
        (if eo_MaxAffectedKeys opts <=? 0 then DefaultMaxAffectedKeys else eo_MaxAffectedKeys opts)
        (eo_Leases opts)
        (if eo_CDCLagBound opts <=? 0 then DefaultCDCLagBound else eo_CDCLagBound opts)
        (eo_MaxClockSkew opts) (eo_SynchronousInvalidation opts) (eo_Version opts)).

Definition Engine_tableFor (e : Engine) (key : Key) : result table :=
  match e_tables e !! key_Table key with
  | None => Err (Wrapf "no such table is served by this engine" (Sentinel ErrInvalidRequest))
  | Some t =>
      match Descriptor_Validate (tb_d t) key with
      | Err err => Err (Join (Sentinel ErrInvalidRequest) err)
      | Panic w => Panic w
      | Ok _ => Ok t
      end
  end.

Definition Engine_parseKey (e : Engine) (raw : string) : result (Key * table) :=
  key ← ParseKey raw; t ← Engine_tableFor e key; Ok (key, t).

Definition Engine_Table (e : Engine) (name : string) : result Descriptor :=
  match e_tables e !! name with
  | Some t => Ok (tb_d t)
  | None => Err (Errorf "engine: no such table is served by this engine")
  end.

(** A missing entry is the nil pointer of the source's map lookup. *)
Definition Engine_Tables (e : Engine) : result (list Descriptor) :=
  mapM (λ name, match e_tables e !! name with
                | Some t => Ok (tb_d t)
                | None => Panic "nil pointer dereference"
                end) (e_tableOrder e).

Definition Engine_soleTable (e : Engine) : result table :=
  match e_tableOrder e with
  | [name] => match e_tables e !! name with
              | Some t => Ok t
              | None => Panic "nil pointer dereference"
              end
  | _ => Err (Errorf "engine: this endpoint cannot name a table")
  end.

Definition ProtocolVersion : string := "cachet.v1".

Record HandshakeResponse := mkHandshakeResponse {
  hs_ProtocolVersion : string; hs_ServerVersion : string; hs_Compatible : bool; hs_SupportedLevels : list Z;
  hs_IncompatibilityReason : string;
}.

Definition Engine_Handshake (e : Engine) (clientVersion : string) : HandshakeResponse :=
  let incompatible := negb (bool_decide (clientVersion = "")) && negb (bool_decide (clientVersion = ProtocolVersion)) in
  mkHandshakeResponse ProtocolVersion (e_version e) (negb incompatible)
    [Level_Proto Strong; Level_Proto Session; Level_Proto Bounded; Level_Proto Eventual]
    (if incompatible then "client speaks " +:+ clientVersion +:+ ", this server speaks " +:+ ProtocolVersion else "").

(** gRPC status codes. *)
Inductive code := Canceled | DeadlineExceeded | InvalidArgument | FailedPrecondition | Internal.

Definition Engine_rpcError (err : error) : code :=
  if errors_Is err ErrCanceled then Canceled
  else if errors_Is err ErrDeadlineExceeded then DeadlineExceeded
  else if errors_Is err ErrInvalidRequest then InvalidArgument
  else Internal.

(** The version column of a row of the table's shape. *)
Definition rowVersion (d : Descriptor) (row : list Value) : result Z :=
  if negb (length row =? length (d_Columns d))%nat then Err (Errorf "engine: wrong number of columns")
  else match row !! Z.to_nat (col_Index (d_VersionColumn d)) with
       | None => Panic "runtime error: index out of range"
       | Some v => match Value_Uint64 v with
                   | Err e => Err (Wrapf "engine" e)
                   | r => r
                   end
       end.

(** [fromCacheOrLease] and the shards share this state; [ew_token] is the
    session token of the request being served. *)
Record EngineW (C D : Type) := mkEngineW {
  ew_shards : gmap string (ShardW D);
  ew_cache : option C;
  ew_gutter : option C;
  ew_admission : option Controller;
  ew_token : Token;
}.
Arguments mkEngineW {C D} _ _ _ _ _.
Arguments ew_shards {C D} _.
Arguments ew_cache {C D} _.
Arguments ew_gutter {C D} _.
Arguments ew_admission {C D} _.
Arguments ew_token {C D} _.

(** The inputs of a read: the readings of the admission sketch's and
    controller's clocks, whether the caller gave up waiting at an attempt, the
    engine's clock, and the shard's clock and query. *)
Record read_io := mkReadIO {
  ri_record : Z * Z;
  ri_counts : Z * Z;
  ri_decide : Z;
  ri_cancelled : Z → bool;
  ri_now : Z;
  ri_shard_now : Z;
  ri_fate : fate;
}.

Record RowResult := mkRowResult {
  rr_Found : bool;
  rr_Row : list Value;
  rr_RowVersion : Z;
  rr_FillVersion : Z;
  rr_CacheHit : bool;
  rr_Entry : option Entry;
  rr_FromGutter : bool;
}.

Record UpdateOutcome := mkUpdateOutcome {
  uo_Matched : Z; uo_AffectedKeys : list string; uo_Degraded : bool; uo_Newest : Z;
}.

Definition is_some {A} (o : option A) : bool := match o with Some _ => true | None => false end.

Section engine.
Context {C D : Type} `{Cache C} `{Mysql D}.
Notation W := (EngineW C D).

(** *** The parts of the state *)

Definition nil_pointer {A} : result A := Panic "invalid memory address or nil pointer dereference".

Definition with_shard (id : string) (sw : ShardW D) (w : W) : W :=
  mkEngineW (<[id := sw]> (ew_shards w)) (ew_cache w) (ew_gutter w) (ew_admission w) (ew_token w).
Definition with_cache (c : C) (w : W) : W :=
  mkEngineW (ew_shards w) (Some c) (ew_gutter w) (ew_admission w) (ew_token w).
Definition with_gutter (c : C) (w : W) : W :=
  mkEngineW (ew_shards w) (ew_cache w) (Some c) (ew_admission w) (ew_token w).
Definition with_admission (a : Controller) (w : W) : W :=
  mkEngineW (ew_shards w) (ew_cache w) (ew_gutter w) (Some a) (ew_token w).
Definition with_token (t : Token) (w : W) : W :=
  mkEngineW (ew_shards w) (ew_cache w) (ew_gutter w) (ew_admission w) t.

(** Run a method of one part. *)
Definition on_part {X A} (part : option X) (put : X → W → W) (m : M X A) : M W A := λ w,
  match part with
  | None => (nil_pointer, w)
  | Some x => let '(r, x') := m x in (r, put x' w)
  end.

Definition on_shard {A} (id : string) (m : M (ShardW D) A) : M W A := λ w,
  on_part (ew_shards w !! id) (with_shard id) m w.
Definition on_cache {A} (m : M C A) : M W A := λ w, on_part (ew_cache w) with_cache m w.
Definition on_gutter {A} (m : M C A) : M W A := λ w, on_part (ew_gutter w) with_gutter m w.
Definition on_admission {A} (m : M Controller A) : M W A := λ w, on_part (ew_admission w) with_admission m w.

Definition Advance (id : string) (v : Z) : M W unit := λ w,
  (Ok tt, with_token (Token_Advance id v (ew_token w)) w).

Context (e : Engine).

(** *** Reading the cache *)

(** The loop of [readWaitingForAnyFill] from [attempt]: the entry, the lease and
    whether the node did not answer.  [fuel] bounds the rounds; running out is
    ruled out below. *)
Fixpoint wait_loop (fuel : nat) (cancelled : Z → bool) (key : string) (attempt : Z) :
    M W (option Entry * string * bool) :=
  match fuel with
  | O => M_panic "out of fuel"
  | S fuel =>
      res ← M_try (on_cache (cache_GetOrLease key));
      match res with
      | inr _ => mret (None, "", true)
      | inl (LeaseHit entry) => mret (Some entry, "", false)
      | inl (LeaseGranted token) => mret (None, token, false)
      | inl LeaseShed => mret (None, "", true)
      | inl LeaseWait =>
          if WaitPolicy_MaxAttempts (e_leases e) <=? attempt then mret (None, "", false)
          else if cancelled attempt then mret (None, "", false)
          else wait_loop fuel cancelled key (attempt + 1)
      end
  end.

Definition wait_fuel : nat := S (Z.to_nat (WaitPolicy_MaxAttempts (e_leases e))).

Definition Engine_readWaitingForAnyFill (cancelled : Z → bool) (key : string) :
    M W (option Entry * string * bool) :=
  wait_loop wait_fuel cancelled key 0.

Definition Engine_readGutter (key : string) : M W (option Entry) :=
  w ← M_get;
  match ew_gutter w with
  | None => mret None
  | Some _ =>
      res ← M_try (on_gutter (cache_Get key));
      mret (match res with inl (Some entry) => Some entry | _ => None end)
  end.

Definition Engine_leaseForRefill (key : string) : M W string :=
  res ← M_try (on_cache (cache_GetOrLease key));
  mret (match res with inl (LeaseGranted token) => token | _ => "" end).

(** Whether admission lets the key be cached; the read is counted first. *)
Definition admitted (i : read_io) (key : string) : M W bool :=
  w ← M_get;
  match ew_admission w with
  | None => mret true
  | Some _ =>
      on_admission (Controller_RecordRead (ri_record i).1 (ri_record i).2 key);;
      on_admission (Controller_ShouldCache (ri_counts i).1 (ri_counts i).2 (ri_decide i) key)
  end.

(** The entry that serves the read, if any, the lease for the refill, and
    whether the home node is not answering. *)
Definition Engine_fromCacheOrLease (i : read_io) (req : Requirement) (key shardID : string) :
    M W (option Entry * string * bool) :=
  w ← M_get;
  if negb (is_some (ew_cache w)) || Level_BypassesCache (req_Level req) then mret (None, "", false)
  else
    ok ← admitted i key;
    if negb ok then mret (None, "", false)
    else
      '(hit, lease, unavailable) ← Engine_readWaitingForAnyFill (ri_cancelled i) key;
      let gutterPath := unavailable && is_some (ew_gutter w) in
      gHit ← (if negb (is_some hit) && unavailable then Engine_readGutter key else mret None);
      let servedFromGutter := is_some gHit in
      match (if servedFromGutter then gHit else hit) with
      | None => mret (None, lease, gutterPath)
      | Some entry =>
          w ← M_get;
          let watermark := Token_Watermark (ew_token w) shardID in
          if negb (AcceptEntry (mkFreshness req (FillVersion entry) (default 0 watermark) (is_some watermark)
                                  (ri_now i) (e_maxClockSkew e))) then
            if servedFromGutter then mret (None, "", true)
            else lease ← Engine_leaseForRefill key; mret (None, lease, gutterPath)
          else if servedFromGutter then mret (Some entry, "", true)
          else mret (Some entry, "", gutterPath)
      end.

(** *** Filling and invalidating *)

Definition Engine_fillGutter (key : string) (entry : Entry) : M W unit :=
  w ← M_get;
  match ew_gutter w with
  | None => mret tt
  | Some _ => M_try (on_gutter (cache_Fill key entry));; mret tt
  end.

Definition Engine_tombstoneGutter (key : string) (version : Z) : M W unit :=
  w ← M_get;
  match ew_gutter w with
  | None => mret tt
  | Some _ => M_try (on_gutter (cache_Tombstone key version));; mret tt
  end.

Definition Engine_applyFillHoldingLease (key : string) (entry : Entry) (lease : string) : M W unit :=
  M_try (on_cache (cache_FillWithLease key entry lease));; mret tt.

Definition Engine_applyFill (key : string) (entry : Entry) : M W unit :=
  Engine_applyFillHoldingLease key entry "".

(** The lease is not handed on: [_ = lease]. *)
Definition Engine_fillNegativeHoldingLease (key : string) (fillVersion : Z) (lease : string) (toGutter : bool) :
    M W unit :=
  w ← M_get;
  if negb (is_some (ew_cache w)) then mret tt
  else
    let entry := mkEntry 0 fillVersion None "" true in
    if toGutter then Engine_fillGutter key entry
    else Engine_applyFill key entry.

Definition Engine_fillNegative (key : string) (fillVersion : Z) : M W unit :=
  Engine_fillNegativeHoldingLease key fillVersion "" false.

Definition Engine_fillRowHoldingLease (t : table) (key : string) (row : list Value) (version fillVersion : Z)
    (lease : string) (toGutter : bool) : M W unit :=
  w ← M_get;
  if negb (is_some (ew_cache w)) then mret tt
  else
    match EncodeRow (tb_d t) row with
    | Err _ => mret tt
    | Panic p => M_panic p
    | Ok encoded =>
        let entry := mkEntry version fillVersion (Some encoded) "" false in
        if toGutter then Engine_fillGutter key entry
        else Engine_applyFillHoldingLease key entry lease
    end.

Definition Engine_fillRow (t : table) (key : string) (row : list Value) (version fillVersion : Z) : M W unit :=
  Engine_fillRowHoldingLease t key row version fillVersion "" false.

(** [at_]: the sketch's clock readings when the write is counted. *)
Definition Engine_invalidate (at_ : Z * Z) (key : string) (version : Z) : M W unit :=
  w ← M_get;
  match ew_admission w with
  | None => mret tt
  | Some _ => on_admission (Controller_RecordWrite at_.1 at_.2 key)
  end;;
  if negb (is_some (ew_cache w)) || negb (e_syncInvalidation e) then mret tt
  else
    res ← M_try (on_cache (cache_Tombstone key version));
    match res with
    | inr _ => Engine_tombstoneGutter key version
    | inl _ => mret tt
    end.

(** *** Operations on rows *)

(** The origin read of [GetRow]. *)
Definition originRead (i : read_io) (t : table) (shard : Shard) (id : string) (key : Key) (lease : string)
    (gutterPath : bool) : M W RowResult :=
  '(found, fill) ← on_shard id (Shard_GetRow shard (ri_shard_now i) (ri_fate i) key);
  match found with
  | None =>
      Engine_fillNegativeHoldingLease (Key_String key) fill lease gutterPath;;
      mret (mkRowResult false [] 0 fill false None false)
  | Some row =>
      version ← M_lift (rowVersion (tb_d t) row);
      Advance id version;;
      Engine_fillRowHoldingLease t (Key_String key) row version fill lease gutterPath;;
      mret (mkRowResult true row version fill false None false)
  end.

Definition Engine_GetRow (i : read_io) (key : Key) (req : Requirement) : M W RowResult :=
  t ← M_lift (Engine_tableFor e key);
  '(shard, id) ← M_lift (table_shardFor t (Key_String key));
  '(served, lease, gutterPath) ← Engine_fromCacheOrLease i req (Key_String key) id;
  match served with
  | None => originRead i t shard id key lease gutterPath
  | Some entry =>
      Advance id (RowVersion entry);;
      match DecodeRow (tb_d t) (default "" (Row entry)) with
      | Panic p => M_panic p
      | Err _ =>
          if negb (Negative entry) then originRead i t shard id key lease gutterPath
          else mret (mkRowResult false [] (RowVersion entry) (FillVersion entry) true (Some entry) gutterPath)
      | Ok row =>
          mret (mkRowResult (negb (Negative entry)) row (RowVersion entry) (FillVersion entry) true (Some entry)
                  gutterPath)
      end
  end.

(** [PutRow]'s loop over the primary key columns. *)
Fixpoint key_matches_row (pk : list Column) (values : list string) (row : list Value) : result unit :=
  match pk with
  | [] => Ok tt
  | col :: pk =>
      match row !! Z.to_nat (col_Index col) with
      | None => Panic "runtime error: index out of range"
      | Some v =>
          let mismatch := Err (Wrapf "key does not match the row's column" (Sentinel ErrInvalidRequest)) in
          if IsNull v then mismatch
          else match values with
               | [] => Panic "runtime error: index out of range"
               | text :: values =>
                   if negb (bool_decide (bytes v = text)) then mismatch else key_matches_row pk values row
               end
      end
  end.

Definition Engine_PutRow (i : write_io) (at_ : Z * Z) (key : Key) (row : list Value) : M W Z :=
  t ← M_lift (Engine_tableFor e key);
  if negb (length row =? length (d_Columns (tb_d t)))%nat then
    M_fail (Wrapf "wrong number of columns" (Sentinel ErrInvalidRequest))
  else
    M_lift (key_matches_row (d_PrimaryKey (tb_d t)) (key_Values key) row);;
    '(shard, id) ← M_lift (table_shardFor t (Key_String key));
    version ← on_shard id (Shard_PutRow shard i (d_Name (tb_d t)) row);
    Engine_invalidate at_ (Key_String key) version;;
    Advance id version;;
    mret version.

Definition Engine_DeleteRow (i : write_io) (at_ : Z * Z) (key : Key) : M W (bool * Z) :=
  t ← M_lift (Engine_tableFor e key);
  '(shard, id) ← M_lift (table_shardFor t (Key_String key));
  '(version, existed) ← on_shard id (Shard_DeleteRow shard i key);
  if negb existed then mret (false, 0)
  else
    Engine_invalidate at_ (Key_String key) version;;
    Advance id version;;
    mret (true, version).

(** The keys a shard reports, invalidated one by one; [ats] has the sketch's
    clock readings at each key. *)
Fixpoint invalidate_all (ats : string → Z * Z) (keys : list Key) (version : Z) (acc : list string) : M W (list string) :=
  match keys with
  | [] => mret acc
  | key :: keys =>
      Engine_invalidate (ats (Key_String key)) (Key_String key) version;;
      invalidate_all ats keys version (acc ++ [Key_String key])
  end.

Fixpoint update_shards (ios : string → write_io) (ats : string → string → Z * Z) (t : table) (name : string)
    (match_ set : list ColumnValue) (ids : list string) (out : UpdateOutcome) : M W UpdateOutcome :=
  match ids with
  | [] => mret out
  | id :: ids =>
      match tb_shards t !! id with
      | None => M_fail (Errorf "engine: no open shard")
      | Some shard =>
          r ← M_try (on_shard id (Shard_UpdateWhere shard (ios id) name match_ set (e_maxAffectedKeys e)));
          match r with
          | inr err =>
              M_fail (if errors_Is err ErrInvalidPredicate then Join (Sentinel ErrInvalidRequest) err else err)
          | inl res =>
              let matched := if 0 <? ur_Matched res then u64 (uo_Matched out + u64 (ur_Matched res)) else uo_Matched out in
              newest ← (if 0 <? ur_Version res then
                          Advance id (ur_Version res);;
                          mret (if uo_Newest out <? ur_Version res then ur_Version res else uo_Newest out)
                        else mret (uo_Newest out));
              if ur_Degraded res then
                update_shards ios ats t name match_ set ids (mkUpdateOutcome matched (uo_AffectedKeys out) true newest)
              else
                keys ← invalidate_all (ats id) (ur_AffectedKeys res) (ur_Version res) (uo_AffectedKeys out);
                update_shards ios ats t name match_ set ids (mkUpdateOutcome matched keys (uo_Degraded out) newest)
          end
      end
  end.

Definition Engine_UpdateRowsWhere (ios : string → write_io) (ats : string → string → Z * Z) (name : string)
    (match_ set : list ColumnValue) : M W UpdateOutcome :=
  match e_tables e !! name with
  | None => M_fail (Wrapf "no such table is served by this engine" (Sentinel ErrInvalidRequest))
  | Some t =>
      out ← update_shards ios ats t name match_ set (Router_Shards (tb_router t)) (mkUpdateOutcome 0 [] false 0);
      mret (if uo_Degraded out then mkUpdateOutcome (uo_Matched out) [] true (uo_Newest out) else out)
  end.

(** *** Batches *)

(** The inputs of a batch: per table and shard, the clock reading and the fate
    of the query and its rows. *)
Abbreviation batch_io := (string → string → Z * fate * iter_fate).

Fixpoint batch_fills (t : table) (id : string) (fill : Z) (rows : gmap string (list Value)) (keys : list string)
    (out : gmap string (list Value)) : M W (gmap string (list Value)) :=
  match keys with
  | [] => mret out
  | k :: keys =>
      match rows !! k with
      | None => Engine_fillNegative k fill;; batch_fills t id fill rows keys out
      | Some row =>
          version ← M_lift (rowVersion (tb_d t) row);
          Advance id version;;
          Engine_fillRow t k row version fill;;
          batch_fills t id fill rows keys (<[k := row]> out)
      end
  end.

(** The shards' groups, in the order Go ranges over the map. *)
Fixpoint batch_groups (io : string → Z * fate * iter_fate) (t : table) (byString : gmap string Key)
    (groups : list (string * list string)) (out : gmap string (list Value)) (newest : Z) :
    M W (gmap string (list Value) * Z) :=
  match groups with
  | [] => mret (out, newest)
  | (id, keys) :: groups =>
      match tb_shards t !! id with
      | None => M_lift nil_pointer
      | Some shard =>
          let '(now, f, it) := io id in
          '(rows, fill) ← on_shard id (Shard_BatchGetRows shard now f it
                                         ((λ k, default (mkKey "" []) (byString !! k)) <$> keys));
          out ← batch_fills t id fill rows keys out;
          batch_groups io t byString groups out (if newest <? fill then fill else newest)
      end
  end.

Fixpoint batch_tables (io : batch_io) (tables : list (string * list Key)) (out : gmap string (list Value))
    (newest : Z) : M W (gmap string (list Value) * Z) :=
  match tables with
  | [] => mret (out, newest)
  | (name, keys) :: tables =>
      match e_tables e !! name with
      | None => M_lift nil_pointer
      | Some t =>
          let byString := foldl (λ m k, <[Key_String k := k]> m) ∅ keys in
          groups ← M_lift (Router_Group (tb_router t) (Key_String <$> keys));
          '(out, newest) ← batch_groups (io name) t byString (map_to_list groups) out newest;
          batch_tables io tables out newest
      end
  end.

(** The keys of each table, in the order given. *)
Definition group_by_table (keys : list Key) : gmap string (list Key) :=
  foldl (λ m k, <[key_Table k := default [] (m !! key_Table k) ++ [k]]> m) ∅ keys.

Fixpoint check_tables (keys : list Key) : result unit :=
  match keys with
  | [] => Ok tt
  | k :: keys => Engine_tableFor e k;; check_tables keys
  end.

(** Maps are ranged over in the order of [map_to_list]; Go's order is any. *)
Definition Engine_BatchGetRows (io : batch_io) (keys : list Key) : M W (gmap string (list Value) * Z) :=
  M_lift (check_tables keys);;
  batch_tables io (map_to_list (group_by_table keys)) ∅ 0.

End engine.
