(* ===== verification/EngineSpec.v ===== *)
(** What the engine promises, over any cache that obeys the interface's laws.

    [CacheLaws] is what a cache client promises its consumer; EngineCache.v
    discharges it for the client of [src/internal/cache/client.go].  The theorems
    of this file are about the operations of Engine.v on any such cache and any
    database that obeys [MysqlLaws]. *)

From S2P Require Import Prelude GoStd Hlc Ring Consistency Freshness Schema Row Table Mysql Storage Admission CacheClient Engine.

Local Open Scope Z_scope.

(** ** The cache interface *)

Definition no_panic {A} (r : result A) : Prop := ∀ p, r ≠ Panic p.

(** An entry as a reader gets it back. *)
Definition as_read (e : Entry) : Entry :=
  mkEntry (RowVersion e) (FillVersion e) (Some (default "" (Row e))) "" (Negative e).

(** [cached c k e]: a reader of [k] can be served [e].  Only a fill adds an
    entry, its own; a tombstone that answers leaves none below its version; and
    no call panics.  [kok] are the keys a client may be asked for. *)
Class CacheLaws (C : Type) `{Cache C} (cached : C → string → Entry → Prop) (cwf : C → Prop) (kok : string → Prop) := {
  law_get : ∀ c k, cwf c → kok k →
    wp (cache_Get k) (λ r c', no_panic r ∧ cwf c' ∧ (∀ k' e', cached c' k' e' → cached c k' e') ∧
                              ∀ e, r = Ok (Some e) → cached c k e) c;
  law_lease : ∀ c k, cwf c → kok k →
    wp (cache_GetOrLease k) (λ r c', no_panic r ∧ cwf c' ∧ (∀ k' e', cached c' k' e' → cached c k' e') ∧
                              ∀ e, r = Ok (LeaseHit e) → cached c k e) c;
  law_fill : ∀ c k e, cwf c → kok k → is_u64 (RowVersion e) → is_u64 (FillVersion e) →
    wp (cache_Fill k e) (λ r c', no_panic r ∧ cwf c' ∧
                              ∀ k' e', cached c' k' e' → cached c k' e' ∨ k' = k ∧ e' = as_read e) c;
  law_fill_lease : ∀ c k e token, cwf c → kok k → is_u64 (RowVersion e) → is_u64 (FillVersion e) →
    wp (cache_FillWithLease k e token) (λ r c', no_panic r ∧ cwf c' ∧
                              ∀ k' e', cached c' k' e' → cached c k' e' ∨ k' = k ∧ e' = as_read e) c;
  law_tombstone : ∀ c k v, cwf c → kok k → is_u64 v →
    wp (cache_Tombstone k v) (λ r c', no_panic r ∧ cwf c' ∧ (∀ k' e', cached c' k' e' → cached c k' e') ∧
                              (is_ok r = true → ∀ e, cached c' k e → v ≤ RowVersion e)) c;
}.

Section spec.
Context {C D : Type} `{Cache C} `{Mysql D}.
Context (cached : C → string → Entry → Prop) (cwf : C → Prop) (kok : string → Prop).
Context `{!CacheLaws C cached cwf kok}.
Implicit Types w : EngineW C D.

(** ** Frames *)

Definition pool_has (p : option C) (k : string) (e : Entry) : Prop := ∃ c, p = Some c ∧ cached c k e.
Definition pool_wf (p : option C) : Prop := ∀ c, p = Some c → cwf c.

Definition in_cache w := pool_has (ew_cache w).
Definition in_gutter w := pool_has (ew_gutter w).
Definition pools_wf w : Prop := pool_wf (ew_cache w) ∧ pool_wf (ew_gutter w).

(** What an operation on the pools leaves: everything else as it was, and no new
    entries but those of [P]. *)
Record frame (P : string → Entry → Prop) w w' : Prop := {
  fm_shards : ew_shards w' = ew_shards w;
  fm_token : ew_token w' = ew_token w;
  fm_cache : is_some (ew_cache w') = is_some (ew_cache w);
  fm_gutter : is_some (ew_gutter w') = is_some (ew_gutter w);
  fm_admission : is_some (ew_admission w') = is_some (ew_admission w);
  fm_wf : pools_wf w';
  fm_in_cache : ∀ k e, in_cache w' k e → in_cache w k e ∨ P k e;
  fm_in_gutter : ∀ k e, in_gutter w' k e → in_gutter w k e ∨ P k e;
}.

Definition nothing : string → Entry → Prop := λ _ _, False.

Lemma frame_refl P w : pools_wf w → frame P w w.
Proof. intros Hwf. split; try done; by left. Qed.

Lemma frame_mono (P Q : string → Entry → Prop) w w' : (∀ k e, P k e → Q k e) → frame P w w' → frame Q w w'.
Proof.
  intros HPQ [H1 H2 H3 H4 H5 H6 H7 H8]. split; try done.
  - intros k e [?|?]%H7; [by left|right; by apply HPQ].
  - intros k e [?|?]%H8; [by left|right; by apply HPQ].
Qed.

Lemma frame_trans P w1 w2 w3 : frame P w1 w2 → frame P w2 w3 → frame P w1 w3.
Proof.
  intros [H1 H2 H3 H4 H5 H6 H7 H8] [G1 G2 G3 G4 G5 G6 G7 G8]. split; try congruence; try done.
  - intros k e [?|?]%G7; [by apply H7|by right].
  - intros k e [?|?]%G8; [by apply H8|by right].
Qed.

Lemma frame_nothing_l P w1 w2 w3 : frame nothing w1 w2 → frame P w2 w3 → frame P w1 w3.
Proof. intros Hn. apply frame_trans. by apply (frame_mono nothing). Qed.

Lemma frame_nothing_r P w1 w2 w3 : frame P w1 w2 → frame nothing w2 w3 → frame P w1 w3.
Proof. intros Hp Hn. eapply frame_trans; [done|]. by apply (frame_mono nothing). Qed.

(** A call on the cache or on the gutter that obeys a law. *)
Definition adds (P : string → Entry → Prop) (c c' : C) : Prop :=
  ∀ k e, cached c' k e → cached c k e ∨ P k e.

Lemma on_cache_wp {A} (m : M C A) (Q : result A → EngineW C D → Prop) P w c :
  ew_cache w = Some c → pools_wf w →
  wp m (λ r c', cwf c' ∧ adds P c c' ∧
                ∀ w', w' = with_cache c' w → frame P w w' → Q r w') c →
  wp (on_cache m) Q w.
Proof.
  intros Hc [Hw1 Hw2]. unfold wp, on_cache, on_part. rewrite Hc. destruct (m c) as [r c']. cbn.
  intros (Hwf & Hadd & HQ). apply HQ; [done|]. split; cbn; try done.
  - by rewrite Hc.
  - split; cbn; [by intros ? [= <-]|done].
  - intros k e (c1 & [= <-] & Hin). destruct (Hadd _ _ Hin) as [?|?]; [left; by exists c|by right].
  - by left.
Qed.

Lemma on_gutter_wp {A} (m : M C A) (Q : result A → EngineW C D → Prop) P w c :
  ew_gutter w = Some c → pools_wf w →
  wp m (λ r c', cwf c' ∧ adds P c c' ∧
                ∀ w', w' = with_gutter c' w → frame P w w' → Q r w') c →
  wp (on_gutter m) Q w.
Proof.
  intros Hc [Hw1 Hw2]. unfold wp, on_gutter, on_part. rewrite Hc. destruct (m c) as [r c']. cbn.
  intros (Hwf & Hadd & HQ). apply HQ; [done|]. split; cbn; try done.
  - by rewrite Hc.
  - split; cbn; [done|by intros ? [= <-]].
  - by left.
  - intros k e (c1 & [= <-] & Hin). destruct (Hadd _ _ Hin) as [?|?]; [left; by exists c|by right].
Qed.

Lemma on_admission_wp {A} (m : M Controller A) (Q : result A → EngineW C D → Prop) w :
  is_some (ew_admission w) = true → pools_wf w → (∀ a er, (m a).1 ≠ Err er) →
  (∀ r w', frame nothing w w' → ew_cache w' = ew_cache w → ew_gutter w' = ew_gutter w →
     (∀ er, r ≠ Err er) → Q r w') → wp (on_admission m) Q w.
Proof.
  intros Ha Hw Hne HQ. unfold wp, on_admission, on_part. destruct (ew_admission w) as [a|] eqn:E; [|done].
  specialize (Hne a). destruct (m a) as [r a']. apply HQ; [|done..].
  split; cbn; try done; try by left. by rewrite E.
Qed.

Lemma cache_wf w c : pools_wf w → ew_cache w = Some c → cwf c.
Proof. intros [Hw _]. apply Hw. Qed.

Lemma gutter_wf w c : pools_wf w → ew_gutter w = Some c → cwf c.
Proof. intros [_ Hw]. apply Hw. Qed.

(** A nil pointer is there or not. *)
Lemma is_some_true {A} (o : option A) : is_some o = true → ∃ a, o = Some a.
Proof. destruct o; [by eexists|done]. Qed.

Context (e : Engine).

(** ** Reading the cache *)

Lemma wait_loop_wp fuel cancelled key : ∀ attempt w,
  pools_wf w → kok key → is_some (ew_cache w) = true →
  wp (wait_loop e fuel cancelled key attempt) (λ r w', frame nothing w w' ∧
    match r with
    | Ok (hit, _, unavailable) =>
        (∀ en, hit = Some en → in_cache w key en ∧ unavailable = false)
    | Err _ => False
    | Panic _ => Z.of_nat fuel ≤ Z.max 0 (WaitPolicy_MaxAttempts (e_leases e) - attempt)
    end) w.
Proof.
  induction fuel as [|fuel IH]; intros attempt w Hwf Hk Hc; cbn [wait_loop].
  { unfold wp. cbn. split; [by apply frame_refl|lia]. }
  destruct (is_some_true _ Hc) as [c Hc']. apply wp_bind, wp_try.
  apply (on_cache_wp _ _ nothing w c); [done..|]. eapply wp_mono; [apply law_lease; [by eapply cache_wf|done]|].
  intros r c' (Hnp & Hcwf & Hkept & Hhit). split; [done|]. split; [intros ? ? ?; left; by apply Hkept|].
  intros w' _ Hf. destruct r as [[en|token| |]|er|p].
  - apply wp_ret. split; [done|]. intros ? [= <-]. split; [|done]. exists c. split; [done|by apply Hhit].
  - apply wp_ret. split; [done|]. done.
  - destruct (Z.leb_spec (WaitPolicy_MaxAttempts (e_leases e)) attempt); [by apply wp_ret|].
    destruct (cancelled attempt); [by apply wp_ret|].
    eapply wp_mono; [apply IH; [apply Hf|done|by rewrite (fm_cache _ _ _ Hf)]|].
    intros r w2 [Hf2 Hr]. split; [by eapply frame_trans|].
    destruct r as [[[hit l] u]|?|?]; [|done|lia]. intros en Hen. destruct (Hr en Hen) as [Hin Hu].
    split; [|done]. by destruct (fm_in_cache _ _ _ Hf _ _ Hin).
  - by apply wp_ret.
  - by apply wp_ret.
  - by destruct (Hnp p).
Qed.

(** More fuel than the attempts left changes nothing. *)
Lemma wait_loop_fuel fuel fuel' cancelled key : ∀ attempt w,
  Z.max 0 (WaitPolicy_MaxAttempts (e_leases e) - attempt) < Z.of_nat fuel →
  Z.max 0 (WaitPolicy_MaxAttempts (e_leases e) - attempt) < Z.of_nat fuel' →
  wait_loop e fuel cancelled key attempt w = wait_loop e fuel' cancelled key attempt w.
Proof.
  revert fuel'. induction fuel as [|fuel IH]; intros [|fuel'] attempt w H1 H2; [lia..|]. cbn [wait_loop].
  unfold mbind, M_bind. destruct (M_try _ w) as [[[res|er]|er|p] w']; try done.
  destruct res as [en|tok| |]; try done.
  destruct (Z.leb_spec (WaitPolicy_MaxAttempts (e_leases e)) attempt); [done|].
  destruct (cancelled attempt); [done|]. apply IH; lia.
Qed.

Lemma readGutter_wp key w :
  pools_wf w → kok key →
  wp (Engine_readGutter key) (λ r w', frame nothing w w' ∧
    ∃ hit, r = Ok hit ∧ ∀ en, hit = Some en → in_gutter w key en) w.
Proof.
  intros Hwf Hk. unfold Engine_readGutter. apply wp_bind, wp_get. destruct (ew_gutter w) as [c|] eqn:Hc.
  2: { apply wp_ret. split; [by apply frame_refl|]. by exists None. }
  apply wp_bind, wp_try. apply (on_gutter_wp _ _ nothing w c); [done..|].
  eapply wp_mono; [apply law_get; [by eapply gutter_wf|done]|].
  intros r c' (Hnp & Hcwf & Hkept & Hhit). split; [done|]. split; [intros ? ? ?; left; by apply Hkept|].
  intros w' _ Hf. destruct r as [hit|er|p]; [| |by destruct (Hnp p)]; apply wp_ret; (split; [done|]).
  - destruct hit as [en|]; eexists; (split; [done|]); [|done]. intros ? [= <-]. exists c.
    split; [done|by apply Hhit].
  - eexists. split; [done|]. done.
Qed.

Lemma leaseForRefill_wp key w :
  pools_wf w → kok key → is_some (ew_cache w) = true →
  wp (Engine_leaseForRefill key) (λ r w', frame nothing w w' ∧ ∃ l, r = Ok l) w.
Proof.
  intros Hwf Hk [c Hc]%is_some_true. unfold Engine_leaseForRefill. apply wp_bind, wp_try.
  apply (on_cache_wp _ _ nothing w c); [done..|]. eapply wp_mono; [apply law_lease; [by eapply cache_wf|done]|].
  intros r c' (Hnp & Hcwf & Hkept & Hhit). split; [done|]. split; [intros ? ? ?; left; by apply Hkept|].
  intros w' _ Hf. destruct r as [res|er|p]; [| |by destruct (Hnp p)]; apply wp_ret; (split; [done|]);
    by eexists.
Qed.

Lemma admitted_wp i key w :
  pools_wf w →
  wp (admitted i key) (λ r w', frame nothing w w' ∧
    (is_some (ew_admission w) = false → r = Ok true) ∧ ∀ er, r ≠ Err er) w.
Proof.
  intros Hwf. unfold admitted. apply wp_bind, wp_get. destruct (ew_admission w) as [a|] eqn:Ha.
  2: { apply wp_ret. split; [by apply frame_refl|done]. }
  assert (is_some (ew_admission w) = true) as Hs by by rewrite Ha.
  apply wp_bind, on_admission_wp; [done|done|intros; apply Controller_record_no_err|]. intros r w' Hf _ _ Hne.
  destruct r as [u|er|p]; [|by destruct (Hne er)|by split_and!].
  apply on_admission_wp; [by rewrite (fm_admission _ _ _ Hf)|apply Hf|intros; apply Controller_ShouldCache_no_err|].
  intros r w2 Hf2 _ _ Hne2. split_and!; [by eapply frame_trans|done|done].
Qed.

(** The entry was accepted for this reader. *)
Definition acceptable (i : read_io) (req : Requirement) (id : string) (t : Token) (en : Entry) : Prop :=
  AcceptEntry (mkFreshness req (FillVersion en) (default 0 (Token_Watermark t id))
    (is_some (Token_Watermark t id)) (ri_now i) (e_maxClockSkew e)) = true.

Lemma fromCacheOrLease_wp i req key id w :
  pools_wf w → kok key →
  wp (Engine_fromCacheOrLease e i req key id) (λ r w', frame nothing w w' ∧
    match r with
    | Ok (Some en, _, gutterPath) =>
        (if gutterPath then in_gutter w key en else in_cache w key en) ∧ acceptable i req id (ew_token w) en
    | Ok (None, _, _) => True
    | Err _ => False
    | Panic _ => is_some (ew_admission w) = true
    end) w.
Proof.
  intros Hwf Hk. unfold Engine_fromCacheOrLease. apply wp_bind, wp_get.
  destruct (is_some (ew_cache w)) eqn:Hc; cbn [negb orb].
  2: { apply wp_ret. split; [by apply frame_refl|done]. }
  destruct (Level_BypassesCache _); [apply wp_ret; split; [by apply frame_refl|done]|].
  apply wp_bind. eapply wp_mono; [by apply admitted_wp|]. intros r w1 (Hf1 & Ha & Hne).
  assert (r ≠ Ok true → is_some (ew_admission w) = true) as Hadm.
  { intros Hn. destruct (is_some (ew_admission w)); [done|]. destruct Hn. by apply Ha. }
  destruct r as [ok|er|p]; [|by destruct (Hne er)|split; [done|by apply Hadm]].
  destruct ok; cbn [negb]; [|by apply wp_ret]. clear Ha Hadm.
  apply wp_bind. eapply wp_mono; [apply wait_loop_wp; [apply Hf1|done|by rewrite (fm_cache _ _ _ Hf1)]|].
  intros r w2 [Hf2 Hr]. pose proof (frame_trans _ _ _ _ Hf1 Hf2) as Hf12.
  destruct r as [[[hit lease] unavailable]|er|p]; [|done|unfold wait_fuel in Hr; lia].
  apply wp_bind.
  assert (wp (if negb (is_some hit) && unavailable then Engine_readGutter key else mret None)
    (λ r w3, frame nothing w w3 ∧ ∃ gHit, r = Ok gHit ∧ ∀ en, gHit = Some en →
       in_gutter w key en ∧ is_some (ew_gutter w) = true ∧ unavailable = true) w2) as Hg.
  { destruct hit as [en|], unavailable; cbn [is_some negb andb].
    1, 2, 4: apply wp_ret; (split; [done|]); by exists None.
    eapply wp_mono; [apply readGutter_wp; [apply Hf2|done]|]. intros r w3 [Hf3 (gHit & -> & Hin)].
    split; [by eapply frame_trans|]. eexists. split; [done|]. intros en Hen. specialize (Hin _ Hen).
    destruct (fm_in_gutter _ _ _ Hf12 _ _ Hin) as [Hin'|[]]. split_and!; [done| |done].
    destruct Hin' as (c & Hcw & _). by rewrite Hcw. }
  eapply wp_mono; [apply Hg|]. clear Hg. intros r w3 [Hf3 (gHit & -> & Hg)].
  destruct gHit as [en|]; cbn [is_some].
  - destruct (Hg en eq_refl) as (Hin & _ & _). apply wp_bind, wp_get.
    rewrite (fm_token _ _ _ Hf3). destruct (AcceptEntry _) eqn:Hacc; cbn [negb]; by apply wp_ret.
  - destruct hit as [en|]; [|by apply wp_ret]. destruct (Hr en eq_refl) as [Hin ->]. cbn [andb].
    apply wp_bind, wp_get. rewrite (fm_token _ _ _ Hf3). destruct (AcceptEntry _) eqn:Hacc; cbn [negb].
    + apply wp_ret. split; [done|]. split; [|done]. by destruct (fm_in_cache _ _ _ Hf1 _ _ Hin).
    + apply wp_bind. eapply wp_mono; [apply leaseForRefill_wp; [apply Hf3|done|by rewrite (fm_cache _ _ _ Hf3)]|].
      intros r w4 [Hf4 [l ->]]. apply wp_ret. split; [by eapply frame_trans|done].
Qed.

(** ** Filling and invalidating *)

Definition only (key : string) (en : Entry) : string → Entry → Prop := λ k en', k = key ∧ en' = as_read en.

Lemma fillGutter_wp key en w :
  pools_wf w → kok key → is_u64 (RowVersion en) → is_u64 (FillVersion en) →
  wp (Engine_fillGutter key en) (λ r w', frame (only key en) w w' ∧ r = Ok tt) w.
Proof.
  intros Hwf Hk Hrv Hfv. unfold Engine_fillGutter. apply wp_bind, wp_get.
  destruct (ew_gutter w) as [c|] eqn:Hc; [|apply wp_ret; split; [by apply frame_refl|done]].
  apply wp_bind, wp_try. apply (on_gutter_wp _ _ (only key en) w c); [done..|].
  eapply wp_mono; [apply law_fill; [by eapply gutter_wf|done..]|].
  intros r c' (Hnp & Hcwf & Hadd). split; [done|]. split; [exact Hadd|]. intros w' _ Hf.
  destruct r as [b|er|p]; [by apply wp_ret|by apply wp_ret|by destruct (Hnp p)].
Qed.

Lemma applyFill_wp key en lease w :
  pools_wf w → kok key → is_some (ew_cache w) = true → is_u64 (RowVersion en) → is_u64 (FillVersion en) →
  wp (Engine_applyFillHoldingLease key en lease) (λ r w', frame (only key en) w w' ∧ r = Ok tt) w.
Proof.
  intros Hwf Hk [c Hc]%is_some_true Hrv Hfv. unfold Engine_applyFillHoldingLease.
  apply wp_bind, wp_try. apply (on_cache_wp _ _ (only key en) w c); [done..|].
  eapply wp_mono; [apply law_fill_lease; [by eapply cache_wf|done..]|].
  intros r c' (Hnp & Hcwf & Hadd). split; [done|]. split; [exact Hadd|]. intros w' _ Hf.
  destruct r as [b|er|p]; [by apply wp_ret|by apply wp_ret|by destruct (Hnp p)].
Qed.

Definition negative_entry (fill : Z) : Entry := mkEntry 0 fill None "" true.

Lemma fillNegative_wp key fill lease toGutter w :
  pools_wf w → kok key → is_u64 fill →
  wp (Engine_fillNegativeHoldingLease key fill lease toGutter)
    (λ r w', frame (only key (negative_entry fill)) w w' ∧ r = Ok tt) w.
Proof.
  intros Hwf Hk Hf. unfold Engine_fillNegativeHoldingLease. apply wp_bind, wp_get.
  destruct (is_some (ew_cache w)) eqn:Hc; cbn [negb]; [|apply wp_ret; split; [by apply frame_refl|done]].
  destruct toGutter; [by apply fillGutter_wp|by apply applyFill_wp].
Qed.

(** The entries a fill of a row may add: the row, encoded. *)
Definition row_entry (d : Descriptor) (key : string) (row : list Value) (version fill : Z) :
    string → Entry → Prop := λ k en,
  k = key ∧ ∃ b, EncodeRow d row = Ok b ∧ en = mkEntry version fill (Some b) "" false.

Lemma fillRow_wp t key row version fill lease toGutter w :
  pools_wf w → kok key → is_u64 version → is_u64 fill →
  wp (Engine_fillRowHoldingLease t key row version fill lease toGutter)
    (λ r w', frame (row_entry (tb_d t) key row version fill) w w' ∧ r = Ok tt) w.
Proof.
  intros Hwf Hk Hv Hf. unfold Engine_fillRowHoldingLease. apply wp_bind, wp_get.
  destruct (is_some (ew_cache w)) eqn:Hc; cbn [negb]; [|apply wp_ret; split; [by apply frame_refl|done]].
  destruct (EncodeRow (tb_d t) row) as [b|er|p] eqn:He;
    [|apply wp_ret; split; [by apply frame_refl|done]|by destruct (EncodeRow_no_panic _ _ _ He)].
  assert (∀ k en, only key (mkEntry version fill (Some b) "" false) k en →
    row_entry (tb_d t) key row version fill k en) as Hsub by (intros k en [-> ->]; split; [done|by exists b]).
  destruct toGutter; (eapply wp_mono; [first [by apply fillGutter_wp|by apply applyFill_wp]|]);
    intros r w' [Hfr Hr]; (split; [by eapply frame_mono|done]).
Qed.

(** After an answered tombstone no entry of the key is below its version; when
    the home node does not answer, the same goes for the gutter. *)
Definition tombstoned (key : string) (v : Z) w w' : Prop :=
  e_syncInvalidation e = true → ∀ c, ew_cache w = Some c →
  if is_ok (cache_Tombstone key v c).1 then ∀ en, in_cache w' key en → v ≤ RowVersion en
  else ∀ g, ew_gutter w = Some g → is_ok (cache_Tombstone key v g).1 = true →
       ∀ en, in_gutter w' key en → v ≤ RowVersion en.

Lemma tombstoneGutter_wp key v w :
  pools_wf w → kok key → is_u64 v →
  wp (Engine_tombstoneGutter key v) (λ r w', frame nothing w w' ∧ ew_cache w' = ew_cache w ∧ r = Ok tt ∧
    ∀ g, ew_gutter w = Some g → is_ok (cache_Tombstone key v g).1 = true →
         ∀ en, in_gutter w' key en → v ≤ RowVersion en) w.
Proof.
  intros Hwf Hk Hv. unfold Engine_tombstoneGutter. apply wp_bind, wp_get.
  destruct (ew_gutter w) as [g|] eqn:Hg; [|apply wp_ret; split_and!; [by apply frame_refl|done..]].
  apply wp_bind, wp_try. apply (on_gutter_wp _ _ nothing w g); [done..|].
  pose proof (law_tombstone g key v ltac:(by eapply gutter_wf) Hk Hv) as Hlaw. unfold wp in *.
  destruct (cache_Tombstone key v g) as [r c'] eqn:Et. cbn [fst snd] in *. destruct Hlaw as (Hnp & Hcwf & Hkept & Hmark).
  split; [done|]. split; [intros ? ? ?; left; by apply Hkept|]. intros w' -> Hf.
  destruct r as [b|er|p]; [| |by destruct (Hnp p)]; apply wp_ret; (split; [done|]); (split; [done|]);
    (split; [done|]); intros ? [= <-]; rewrite Et; intros Hok en (c1 & [= <-] & Hin); first [done|by apply Hmark].
Qed.

Lemma invalidate_wp at_ key v w :
  pools_wf w → kok key → is_u64 v →
  wp (Engine_invalidate e at_ key v) (λ r w', frame nothing w w' ∧
    match r with
    | Ok _ => tombstoned key v w w'
    | Err _ => False
    | Panic _ => is_some (ew_admission w) = true
    end) w.
Proof.
  intros Hwf Hk Hv. unfold Engine_invalidate. apply wp_bind, wp_get. apply wp_bind.
  assert (wp (match ew_admission w with
              | Some _ => on_admission (Controller_RecordWrite at_.1 at_.2 key)
              | None => mret ()
              end)
    (λ r w1, frame nothing w w1 ∧ ew_cache w1 = ew_cache w ∧ ew_gutter w1 = ew_gutter w ∧
       (r = Ok tt ∨ is_some (ew_admission w) = true) ∧ ∀ er, r ≠ Err er) w) as Hadm.
  { destruct (ew_admission w) as [a|] eqn:Ha.
    - assert (is_some (ew_admission w) = true) as Hs by by rewrite Ha.
      apply on_admission_wp; [done|done|intros; apply Controller_record_no_err|].
      intros r w' Hf ? ? Hne. split_and!; [done..|by right|done].
    - apply wp_ret. split_and!; [by apply frame_refl|done|done|by left|done]. }
  eapply wp_mono; [apply Hadm|]. clear Hadm. intros r w1 (Hf1 & Hc1 & Hg1 & Hr & Hne).
  destruct r as [[]|er|p]; [|by destruct (Hne er)|split; [done|destruct Hr as [Hr|Hr]; done]].
  destruct (is_some (ew_cache w)) eqn:Hc; cbn [negb orb].
  2: { apply wp_ret. split; [done|]. intros _ c Hcw. by rewrite Hcw in Hc. }
  destruct (e_syncInvalidation e) eqn:Hs; cbn [negb].
  2: { apply wp_ret. split; [done|]. unfold tombstoned. by rewrite Hs. }
  apply is_some_true in Hc as [c Hc]. apply wp_bind, wp_try.
  assert (pools_wf w1) as Hwf1 by apply Hf1. assert (ew_cache w1 = Some c) as Hcw1 by congruence.
  apply (on_cache_wp _ _ nothing w1 c); [done..|].
  pose proof (law_tombstone c key v ltac:(by eapply cache_wf) Hk Hv) as Hlaw. unfold wp at 1 in Hlaw. unfold wp at 1.
  assert ((cache_Tombstone key v c).1 = (cache_Tombstone key v c).1) as Hres by done. revert Hres.
  destruct (cache_Tombstone key v c) as [r c'] eqn:Ht. cbn [fst snd] in *. intros _.
  destruct Hlaw as (Hnp & Hcwf & Hkept & Hmark).
  split; [done|]. split; [intros ? ? ?; left; by apply Hkept|]. intros w2 Hw2 Hf2.
  assert (ew_cache w2 = Some c' ∧ ew_gutter w2 = ew_gutter w) as [Hc2 Hg2] by (subst w2; cbn; by rewrite Hg1).
  pose proof (frame_trans _ _ _ _ Hf1 Hf2) as Hf12.
  destruct r as [b|er|p]; [| |by destruct (Hnp p)].
  - apply wp_ret. split; [done|]. intros _ c0 Hc0. assert (c0 = c) as -> by congruence. rewrite Ht. cbn [fst is_ok].
    intros en (c1 & Hc1' & Hin). assert (c1 = c') as -> by congruence. by apply Hmark.
  - eapply wp_mono; [apply tombstoneGutter_wp; [apply Hf2|done..]|]. intros r w3 (Hf3 & _ & -> & Hgut).
    split; [by eapply frame_trans|]. intros _ c0 Hc0. assert (c0 = c) as -> by congruence. rewrite Ht. cbn [fst is_ok].
    intros g Hgw. apply Hgut. congruence.
Qed.

(** ** Reading a row *)

(** Where a key lives: its table, its shard and the shard's state. *)
Record routed w (key : Key) (t : table) (shard : Shard) (id : string) (sw : ShardW D) : Prop := {
  rt_table : Engine_tableFor e key = Ok t;
  rt_shard : table_shardFor t (Key_String key) = Ok (shard, id);
  rt_state : ew_shards w !! id = Some sw;
  rt_key : kok (Key_String key);
}.

Definition pool_entry w (fromGutter : bool) : string → Entry → Prop :=
  if fromGutter then in_gutter w else in_cache w.

(** A cached entry answered: one that a pool held and the reader's level and
    session accept; nothing was read or written elsewhere. *)
Definition served_cached (i : read_io) (req : Requirement) (id : string) (t : table) (key : string) w
    (rr : RowResult) w' : Prop :=
  ∃ en, rr_Entry rr = Some en ∧ rr_CacheHit rr = true ∧ pool_entry w (rr_FromGutter rr) key en ∧
    acceptable i req id (ew_token w) en ∧
    rr_RowVersion rr = RowVersion en ∧ rr_FillVersion rr = FillVersion en ∧ rr_Found rr = negb (Negative en) ∧
    (Negative en = false → DecodeRow (tb_d t) (default "" (Row en)) = Ok (rr_Row rr)) ∧
    frame nothing (with_token (Token_Advance id (RowVersion en) (ew_token w)) w) w'.

(** The token an origin read starts from: the request's, or that advanced past
    an entry that did not decode. *)
Definition origin_token (i : read_io) (req : Requirement) (id : string) (t : table) (key : string) w (tok : Token) :
    Prop :=
  tok = ew_token w ∨
  ∃ en gp er, pool_entry w gp key en ∧ acceptable i req id (ew_token w) en ∧
    DecodeRow (tb_d t) (default "" (Row en)) = Err er ∧ tok = Token_Advance id (RowVersion en) (ew_token w).

(** The shard answered, and what it answered is what may now be cached. *)
Definition served_origin (i : read_io) (req : Requirement) (key : Key) (t : table) (shard : Shard) (id : string)
    (sw : ShardW D) w (rr : RowResult) w' : Prop :=
  ∃ tok found fill sw', origin_token i req id t (Key_String key) w tok ∧
    Shard_GetRow shard (ri_shard_now i) (ri_fate i) key sw = (Ok (found, fill), sw') ∧
    rr_CacheHit rr = false ∧ rr_Entry rr = None ∧ rr_FromGutter rr = false ∧ rr_FillVersion rr = fill ∧
    match found with
    | None => rr_Found rr = false ∧
        frame (only (Key_String key) (negative_entry fill)) (with_shard id sw' (with_token tok w)) w'
    | Some row => ∃ v, rowVersion (tb_d t) row = Ok v ∧ rr_Found rr = true ∧ rr_Row rr = row ∧ rr_RowVersion rr = v ∧
        frame (row_entry (tb_d t) (Key_String key) row v fill)
          (with_shard id sw' (with_token (Token_Advance id v tok) w)) w'
    end.

(** A read fails only as its shard's read fails. *)
Definition origin_failed (i : read_io) (req : Requirement) (key : Key) (t : table) (shard : Shard) (id : string)
    (sw : ShardW D) w (er : error) w' : Prop :=
  ∃ tok sw', origin_token i req id t (Key_String key) w tok ∧
    frame nothing (with_shard id sw' (with_token tok w)) w' ∧
    (Shard_GetRow shard (ri_shard_now i) (ri_fate i) key sw = (Err er, sw') ∨
     ∃ row fill, Shard_GetRow shard (ri_shard_now i) (ri_fate i) key sw = (Ok (Some row, fill), sw') ∧
       rowVersion (tb_d t) row = Err er).

Definition origin_panicked (i : read_io) (key : Key) (t : table) (shard : Shard) (sw : ShardW D) : Prop :=
  (∃ p sw', Shard_GetRow shard (ri_shard_now i) (ri_fate i) key sw = (Panic p, sw')) ∨
  ∃ row fill sw' p, Shard_GetRow shard (ri_shard_now i) (ri_fate i) key sw = (Ok (Some row, fill), sw') ∧
    rowVersion (tb_d t) row = Panic p.

Definition read_post (i : read_io) (req : Requirement) (key : Key) (t : table) (shard : Shard) (id : string)
    (sw : ShardW D) w (r : result RowResult) w' : Prop :=
  match r with
  | Ok rr => served_cached i req id t (Key_String key) w rr w' ∨ served_origin i req key t shard id sw w rr w'
  | Err er => origin_failed i req key t shard id sw w er w'
  | Panic _ => is_some (ew_admission w) = true ∨ origin_panicked i key t shard sw
  end.

Lemma rowVersion_range d row v : rowVersion d row = Ok v → is_u64 v.
Proof.
  unfold rowVersion. destruct (negb _); [done|]. destruct (row !! _) as [x|]; [|done].
  pose proof (Value_Uint64_range x). destruct (Value_Uint64 x); [|done..]. intros [= ->]. by apply H1.
Qed.

Lemma on_shard_wp {A} id (m : M (ShardW D) A) (Q : result A → EngineW C D → Prop) w sw :
  ew_shards w !! id = Some sw →
  (∀ r sw', m sw = (r, sw') → Q r (with_shard id sw' w)) → wp (on_shard id m) Q w.
Proof.
  intros Hs HQ. unfold wp, on_shard, on_part. rewrite Hs. destruct (m sw) as [r sw'] eqn:E. by apply HQ.
Qed.

(** Pool changes commute with the shard and the token. *)
Lemma frame_rebase P id sw t w1 w2 w3 :
  frame nothing w1 w2 → frame P (with_shard id sw (with_token t w2)) w3 →
  frame P (with_shard id sw (with_token t w1)) w3.
Proof.
  intros [F1 F2 F3 F4 F5 F6 F7 F8] [H1 H2 H3 H4 H5 H6 H7 H8]. unfold in_cache, in_gutter in *. cbn in *.
  split; unfold in_cache, in_gutter; cbn; try congruence.
  - intros k en [Hin|?]%H7; [|by right]. left. by destruct (F7 _ _ Hin).
  - intros k en [Hin|?]%H8; [|by right]. left. by destruct (F8 _ _ Hin).
Qed.

Lemma originRead_wp i req key t shard id sw lease gp tok w0 w :
  routed w0 key t shard id sw → frame nothing w0 w → origin_token i req id t (Key_String key) w0 tok →
  (∀ found fill sw', Shard_GetRow shard (ri_shard_now i) (ri_fate i) key sw = (Ok (found, fill), sw') → is_u64 fill) →
  wp (originRead i t shard id key lease gp) (read_post i req key t shard id sw w0) (with_token tok w).
Proof.
  intros Hrt Hf Htok Hfill. unfold originRead. apply wp_bind.
  assert (ew_shards (with_token tok w) !! id = Some sw) as Hs by (cbn; rewrite (fm_shards _ _ _ Hf); apply Hrt).
  apply (on_shard_wp _ _ _ _ sw Hs). intros r sw' Hget.
  assert (pools_wf (with_shard id sw' (with_token tok w))) as Hwf1 by apply Hf.
  destruct r as [[found fill]|er|p].
  2: { exists tok, sw'. split_and!; [done| |by left]. eapply frame_rebase; [done|]. by apply frame_refl. }
  2: { right. left. by exists p, sw'. }
  pose proof (Hfill _ _ _ Hget) as Hu. destruct found as [row|].
  - apply wp_bind, wp_lift. destruct (rowVersion (tb_d t) row) as [v|er|p] eqn:Hv.
    2: { exists tok, sw'. split_and!; [done| |right; by exists row, fill]. eapply frame_rebase; [done|].
         by apply frame_refl. }
    2: { right. right. by exists row, fill, sw', p. }
    apply wp_bind. unfold wp at 1. cbn [Advance fst snd]. apply wp_bind.
    eapply wp_mono; [apply fillRow_wp; [exact Hwf1|apply Hrt|by eapply rowVersion_range|done]|].
    intros r w2 [Hf2 ->]. apply wp_ret. right. exists tok, (Some row), fill, sw'. split_and!; try done.
    exists v. split_and!; try done. eapply frame_rebase; [done|]. exact Hf2.
  - apply wp_bind. eapply wp_mono; [apply fillNegative_wp; [exact Hwf1|apply Hrt|done]|].
    intros r w2 [Hf2 ->]. apply wp_ret. right. exists tok, None, fill, sw'. split_and!; try done.
    eapply frame_rebase; [done|]. exact Hf2.
Qed.

Lemma GetRow_wp i req key t shard id sw w :
  pools_wf w → routed w key t shard id sw →
  (∀ found fill sw', Shard_GetRow shard (ri_shard_now i) (ri_fate i) key sw = (Ok (found, fill), sw') → is_u64 fill) →
  wp (Engine_GetRow e i key req) (read_post i req key t shard id sw w) w.
Proof.
  intros Hwf Hrt Hfill. unfold Engine_GetRow.
  apply wp_bind, wp_lift. rewrite (rt_table _ _ _ _ _ _ Hrt).
  apply wp_bind, wp_lift. rewrite (rt_shard _ _ _ _ _ _ Hrt). apply wp_bind.
  eapply wp_mono; [apply fromCacheOrLease_wp; [done|apply Hrt]|]. intros r w1 [Hf Hr].
  destruct r as [[[served lease] gp]|er|p]; [|done|by left].
  destruct served as [en|].
  2: { assert (w1 = with_token (ew_token w) w1) as -> by (rewrite <-(fm_token _ _ _ Hf); by destruct w1).
       eapply originRead_wp; [done|done|by left|done]. }
  destruct Hr as [Hin Hacc]. apply wp_bind. unfold wp at 1. cbn [Advance fst snd].
  rewrite (fm_token _ _ _ Hf).
  assert (frame nothing (with_token (Token_Advance id (RowVersion en) (ew_token w)) w)
            (with_token (Token_Advance id (RowVersion en) (ew_token w)) w1)) as Hf'.
  { destruct Hf as [F1 F2 F3 F4 F5 F6 F7 F8]. by split. }
  destruct (DecodeRow (tb_d t) (default "" (Row en))) as [row|er|p] eqn:Hd.
  - apply wp_ret. left. exists en. split_and!; try done. by destruct gp.
  - destruct (Negative en) eqn:Hneg; cbn [negb].
    + apply wp_ret. left. exists en. cbn. rewrite Hneg. split_and!; try done. by destruct gp.
    + eapply originRead_wp; [done|done| |done]. right. exists en, gp, er. split_and!; try done. by destruct gp.
  - by destruct (proj1 (DecodeRow_spec (tb_d t) (default "" (Row en))) p).
Qed.

(** ** Writing a row *)

(** The write is committed at [v], the key invalidated, and the session's
    watermark moved. *)
Definition acked (id key : string) (v : Z) (sw' : ShardW D) w w' : Prop :=
  ∃ w1, frame nothing (with_shard id sw' w) w1 ∧ tombstoned key v w w1 ∧
        w' = with_token (Token_Advance id v (ew_token w)) w1.

Lemma ack_wp {A} (res : A) at_ id key v sw' w :
  pools_wf w → kok key → is_u64 v →
  wp (Engine_invalidate e at_ key v;; Advance id v;; mret res) (λ r w',
    match r with
    | Ok res' => res' = res ∧ acked id key v sw' w w'
    | Err _ => False
    | Panic _ => is_some (ew_admission w) = true
    end) (with_shard id sw' w).
Proof.
  intros Hwf Hk Hv. apply wp_bind. eapply wp_mono; [by apply invalidate_wp|].
  intros r w1 [Hf Hr]. destruct r as [[]|er|p]; [|done|done].
  apply wp_bind. unfold wp at 1. cbn [Advance fst snd]. apply wp_ret. split; [done|].
  exists w1. split_and!; [done|exact Hr|]. by rewrite (fm_token _ _ _ Hf).
Qed.

(** The row is of the table's shape and its key columns are the key's. *)
Definition row_names_key (t : table) (key : Key) (row : list Value) : Prop :=
  length row = length (d_Columns (tb_d t)) ∧ key_matches_row (d_PrimaryKey (tb_d t)) (key_Values key) row = Ok tt.

Lemma key_matches_row_values pk : ∀ values row,
  key_matches_row pk values row = Ok tt → length values = length pk →
  key_values row pk = Ok (ArgString <$> values).
Proof.
  induction pk as [|c pk IH]; intros [|text values] row; cbn [key_matches_row key_values]; try done.
  destruct (row !! _) as [v|]; [|done]. destruct (IsNull v); [done|].
  case_bool_decide as Hb; cbn [negb]; [|done]. intros Hm [= Hl]. rewrite (IH _ _ Hm Hl). cbn. by rewrite Hb.
Qed.

Lemma tableFor_key key t :
  Engine_tableFor e key = Ok t →
  e_tables e !! key_Table key = Some t ∧ Descriptor_Validate (tb_d t) key = Ok tt ∧
  key = mkKey (d_Name (tb_d t)) (key_Values key) ∧ length (key_Values key) = length (d_PrimaryKey (tb_d t)).
Proof.
  unfold Engine_tableFor. destruct (e_tables e !! key_Table key) as [t'|] eqn:Et; [|done].
  destruct (Descriptor_Validate (tb_d t') key) as [[]|?|?] eqn:Ev; [|done..]. intros [= ->].
  split_and!; [done|done| |]; unfold Descriptor_Validate in Ev.
  - case_bool_decide as Hn; [|done]. rewrite <-Hn. by destruct key.
  - case_bool_decide; [|done]. cbn [negb] in Ev.
    by destruct (Nat.eqb_spec (length (key_Values key)) (length (d_PrimaryKey (tb_d t)))).
Qed.

Lemma PutRow_wp i at_ key t shard id sw row w :
  pools_wf w → routed w key t shard id sw →
  (row_names_key t key row → ∀ v sw', Shard_PutRow shard i (d_Name (tb_d t)) row sw = (Ok v, sw') → is_u64 v) →
  wp (Engine_PutRow e i at_ key row) (λ r w',
    match r with
    | Ok v => row_names_key t key row ∧
        ∃ sw', Shard_PutRow shard i (d_Name (tb_d t)) row sw = (Ok v, sw') ∧ acked id (Key_String key) v sw' w w'
    | Err er => (¬ row_names_key t key row ∧ w' = w) ∨ row_names_key t key row ∧
        ∃ sw', Shard_PutRow shard i (d_Name (tb_d t)) row sw = (Err er, sw') ∧ w' = with_shard id sw' w
    | Panic _ => is_some (ew_admission w) = true ∨
        (∃ p, key_matches_row (d_PrimaryKey (tb_d t)) (key_Values key) row = Panic p) ∨
        ∃ p sw', Shard_PutRow shard i (d_Name (tb_d t)) row sw = (Panic p, sw')
    end) w.
Proof.
  intros Hwf Hrt Hu. unfold Engine_PutRow.
  apply wp_bind, wp_lift. rewrite (rt_table _ _ _ _ _ _ Hrt).
  destruct (Nat.eqb_spec (length row) (length (d_Columns (tb_d t)))) as [Hl|Hl]; cbn [negb].
  2: { apply wp_fail. left. split; [|done]. by intros [? _]. }
  apply wp_bind, wp_lift. destruct (key_matches_row _ _ _) as [[]|er|p] eqn:Hm.
  2: { left. split; [|done]. intros [_ Hm']. congruence. }
  2: { right. left. by exists p. }
  apply wp_bind, wp_lift. rewrite (rt_shard _ _ _ _ _ _ Hrt). apply wp_bind.
  apply (on_shard_wp _ _ _ _ sw (rt_state _ _ _ _ _ _ Hrt)). intros r sw' Hput.
  destruct r as [v|er|p]; [|right; split; [by split|by exists sw']|right; right; by exists p, sw'].
  eapply wp_mono; [apply (ack_wp v); [done|apply Hrt|by apply (Hu (conj Hl Hm) v sw')]|].
  intros r w' Hr. destruct r as [v'|er|p]; [|done|by left]. destruct Hr as [-> Hack].
  split; [by split|]. by exists sw'.
Qed.

Lemma DeleteRow_wp i at_ key t shard id sw w :
  pools_wf w → routed w key t shard id sw →
  (∀ v b sw', Shard_DeleteRow shard i key sw = (Ok (v, b), sw') → is_u64 v) →
  wp (Engine_DeleteRow e i at_ key) (λ r w',
    match r with
    | Ok (existed, v) =>
        ∃ v' sw', Shard_DeleteRow shard i key sw = (Ok (v', existed), sw') ∧
          if existed then v = v' ∧ acked id (Key_String key) v sw' w w' else v = 0 ∧ w' = with_shard id sw' w
    | Err er => ∃ sw', Shard_DeleteRow shard i key sw = (Err er, sw') ∧ w' = with_shard id sw' w
    | Panic _ => is_some (ew_admission w) = true ∨ ∃ p sw', Shard_DeleteRow shard i key sw = (Panic p, sw')
    end) w.
Proof.
  intros Hwf Hrt Hu. unfold Engine_DeleteRow.
  apply wp_bind, wp_lift. rewrite (rt_table _ _ _ _ _ _ Hrt).
  apply wp_bind, wp_lift. rewrite (rt_shard _ _ _ _ _ _ Hrt). apply wp_bind.
  apply (on_shard_wp _ _ _ _ sw (rt_state _ _ _ _ _ _ Hrt)). intros r sw' Hdel.
  destruct r as [[v existed]|er|p]; [|by exists sw'|right; by exists p, sw'].
  destruct existed; cbn [negb].
  - eapply wp_mono; [apply (ack_wp (true, v)); [done|apply Hrt|by eapply Hu]|].
    intros r w' Hr. destruct r as [v'|er|p]; [|done|by left]. destruct Hr as [-> Hack].
    exists v, sw'. done.
  - apply wp_ret. exists v, sw'. done.
Qed.
End spec.

(** ** Construction *)

(** A table as the engine built it: every shard it was declared on is connected
    and knows it, and the router is over exactly those. *)
Definition table_ready (shards : gmap string Shard) (name : string) (ids : list string) (t : table) : Prop :=
  d_Name (tb_d t) = name ∧ storage_NewRouter ids = Ok (tb_router t) ∧
  ∀ id, id ∈ ids → ∃ s tab, tb_shards t !! id = Some s ∧ shards !! id = Some s ∧ Shard_Table s name = Ok tab.

Lemma build_owned_ok name shards ids : ∀ owned owned',
  build_owned name shards ids owned = Ok owned' →
  (∀ id, id ∉ ids → owned' !! id = owned !! id) ∧
  ∀ id, id ∈ ids → ∃ s tab, owned' !! id = Some s ∧ shards !! id = Some s ∧ Shard_Table s name = Ok tab.
Proof.
  induction ids as [|id ids IH]; intros owned owned'; cbn [build_owned].
  { intros [= ->]. split; [done|]. by intros id ?%elem_of_nil. }
  destruct (shards !! id) as [s|] eqn:Es; [|done]. destruct (Shard_Table s name) as [tab|?|?] eqn:Et; [|done..].
  intros (H1 & H2)%IH. split.
  - intros id' [Hne Hin]%not_elem_of_cons. rewrite H1 by done. by rewrite lookup_insert_ne by done.
  - intros id' Hin. destruct (decide (id' ∈ ids)) as [|Hn]; [by apply H2|].
    apply elem_of_cons in Hin as [->|?]; [|done]. exists s, tab. by rewrite H1, lookup_insert_eq.
Qed.

Definition declared (shards : gmap string Shard) (specs : list TableSpec) (name : string) (t : table) : Prop :=
  ∃ spec, spec ∈ specs ∧ ts_Descriptor spec = Some (tb_d t) ∧ table_ready shards name (ts_Shards spec) t.

(** The name a declaration gives. *)
Definition spec_name (spec : TableSpec) : option string := d_Name <$> ts_Descriptor spec.

Lemma build_specs_ok shards specs : ∀ out order out' order',
  build_specs shards specs out order = Ok (out', order') →
  NoDup order → (∀ name, name ∈ order ↔ is_Some (out !! name)) →
  NoDup order' ∧ (∀ name, name ∈ order' ↔ is_Some (out' !! name)) ∧
  Some <$> order' = (Some <$> order) ++ (spec_name <$> specs) ∧
  ∀ name t, out' !! name = Some t → out !! name = Some t ∨ declared shards specs name t.
Proof.
  induction specs as [|spec specs IH]; intros out order out' order'; cbn [build_specs].
  { intros [= -> ->] Hnd Hdom. split_and!; [done|done|by rewrite app_nil_r|by left]. }
  destruct (ts_Descriptor spec) as [d|] eqn:Ed; [|done].
  case_bool_decide as Hdup; [done|]. case_bool_decide as Hne; [done|].
  intros (owned & Hown & Hrest)%result_bind_ok Hnd Hdom.
  destruct (storage_NewRouter (ts_Shards spec)) as [router|?|?] eqn:Er; [|done..].
  destruct (IH _ _ _ _ Hrest) as (H1 & H2 & H3 & H4).
  { apply NoDup_app. split_and!; [done| |apply NoDup_singleton].
    intros x Hx%Hdom ->%list_elem_of_singleton. done. }
  { intros name. rewrite elem_of_app, list_elem_of_singleton, Hdom.
    destruct (decide (name = d_Name d)) as [->|Hn];
      [rewrite lookup_insert_eq|rewrite lookup_insert_ne by done]; naive_solver. }
  split_and!; [done|done| |].
  - rewrite H3, fmap_app, <-app_assoc. cbn. unfold spec_name at 2. by rewrite Ed.
  - intros name t Hl. destruct (H4 name t Hl) as [Ho|(spec' & Hin & ?)].
    2: { right. exists spec'. split; [by right|done]. }
    apply lookup_insert_Some in Ho as [[<- <-]|[_ Ho]]; [|by left]. right. exists spec.
    split; [left|]. split; [done|]. split_and!; [done|done|]. by apply (build_owned_ok _ _ _ _ _ Hown).
Qed.

Lemma engine_New_ok opts e :
  engine_New opts = Ok e →
  0 < e_maxSessionShards e ∧ 0 < e_maxAffectedKeys e ∧ 0 < e_cdcLagBound e ∧
  NoDup (e_tableOrder e) ∧ (∀ name, name ∈ e_tableOrder e ↔ is_Some (e_tables e !! name)) ∧
  Some <$> e_tableOrder e = spec_name <$> eo_Tables opts ∧
  ∀ name t, e_tables e !! name = Some t →
    declared (eo_Shards opts) (eo_Tables opts) name t ∧
    ∀ key, key ≠ "" → ∃ s id tab, table_shardFor t key = Ok (s, id) ∧ eo_Shards opts !! id = Some s ∧
      Shard_Table s name = Ok tab.
Proof.
  unfold engine_New. intros ([tables order] & Hb & [= <-])%result_bind_ok.
  unfold buildTables in Hb. case_bool_decide as Hne; [done|]. cbn.
  destruct (build_specs_ok _ _ _ _ _ _ Hb) as (H1 & H2 & H3 & H4); [apply NoDup_nil_2| |].
  { intros name. rewrite lookup_empty. split; [by intros ?%elem_of_nil|by intros []]. }
  split; [unfold DefaultMaxSessionShards; case_ifs; zsolve|].
  split; [unfold DefaultMaxAffectedKeys; case_ifs; zsolve|].
  split; [unfold DefaultCDCLagBound, Duration_Second; case_ifs; zsolve|].
  split_and!; [done|done|done|]. intros name t Ht.
  destruct (H4 name t Ht) as [?|Hd]; [done|]. split; [done|].
  destruct Hd as (spec & _ & _ & Hname & Hr & Hsh). intros key Hk.
  destruct (ShardFor_total _ _ key Hr Hk) as (id & Hid & Hin & _).
  destruct (Hsh id Hin) as (s & tab & Hs & Hs' & Htab). exists s, id, tab. split_and!; [|done|done].
  unfold table_shardFor. by rewrite Hid, Hs.
Qed.

(** An engine that builds can serve.  Its tables are the declared ones, once
    each, in declaration order; every non-empty key of a table routes to one of
    the shards the table was declared on, with an open connection that knows the
    table, so the "no connection" errors cannot happen afterwards; and its
    budgets are positive. *)
Theorem engine_New_ready opts e :
  engine_New opts = Ok e →
  0 < e_maxSessionShards e ∧ 0 < e_maxAffectedKeys e ∧ 0 < e_cdcLagBound e ∧
  NoDup (e_tableOrder e) ∧ (∀ name, name ∈ e_tableOrder e ↔ is_Some (e_tables e !! name)) ∧
  Some <$> e_tableOrder e = spec_name <$> eo_Tables opts ∧
  ∀ name t, e_tables e !! name = Some t →
    declared (eo_Shards opts) (eo_Tables opts) name t ∧
    ∀ key, key ≠ "" → ∃ s id tab, table_shardFor t key = Ok (s, id) ∧ eo_Shards opts !! id = Some s ∧
      Shard_Table s name = Ok tab.
Proof. apply engine_New_ok. Qed.

Definition users_engine : engine_Options :=
  mkEngineOptions {["s0" := users_shard]} [mkTableSpec (Some users_d) ["s0"]] 0 0 0 0 0 true (mkWaitPolicy 3 1000 10000) "dev".

Lemma engine_New_ready_witness :
  ∃ e, engine_New users_engine = Ok e ∧ 0 < e_maxAffectedKeys e ∧ Some <$> e_tableOrder e = [Some "users"].
Proof.
  assert (∃ r, storage_NewRouter ["s0"] = Ok r) as [r Hr].
  { unfold storage_NewRouter. rewrite bool_decide_eq_false_2 by congruence. cbn [collect_unique].
    rewrite bool_decide_eq_false_2 by congruence.
    destruct (bool_decide ("s0" ∈ (∅ : gset string))); eexists; reflexivity. }
  assert (is_ok (engine_New users_engine) = true) as Hok.
  { unfold engine_New, buildTables. rewrite bool_decide_eq_false_2 by (unfold users_engine; cbn; congruence).
    unfold users_engine. cbn [eo_Tables eo_Shards build_specs ts_Descriptor ts_Shards].
    rewrite bool_decide_eq_false_2 by (rewrite lookup_empty; intros [? [=]]).
    rewrite bool_decide_eq_false_2 by congruence. cbn [build_owned].
    rewrite lookup_singleton_eq.
    assert (Shard_Table users_shard (d_Name users_d) = Ok users_t) as -> by (vm_compute; reflexivity).
    mrun. rewrite Hr. reflexivity. }
  destruct (engine_New users_engine) as [e|er|p] eqn:E; [|discriminate Hok..]. exists e. split; [reflexivity|].
  destruct (engine_New_ready users_engine e E) as (_ & Ha & _ & _ & _ & Hd & _). split; [exact Ha|exact Hd].
Defined.
