(* ===== verification/RefCache.v ===== *)
(** The cache as specified: one abstract cell per key (LuaCache.v) and a lease for
    whoever asks, as an instance of the engine's interface.  It is the model the
    engine's theorems are evaluated on. *)

From S2P Require Import Prelude GoStd LuaCache CacheClient Engine EngineSpec.

Local Open Scope Z_scope.

Definition ref_cell (c : gmap string cell) (k : string) : cell := default cell_empty (c !! k).

Definition ref_stored (e : Entry) : stored :=
  mkStored (RowVersion e) (FillVersion e) (default "" (Row e)) (Negative e) "h".

Definition ref_fill (k : string) (e : Entry) : M (gmap string cell) bool := λ c,
  (Ok (fill_wins (ref_stored e) (ref_cell c k)), <[k := cell_fill (ref_stored e) (ref_cell c k)]> c).

#[local] Instance ref_cache : Cache (gmap string cell) := {
  cache_Get k := λ c, (Ok (entry_of <$> cell_read "h" (ref_cell c k)), c);
  cache_Fill := ref_fill;
  cache_Tombstone k v := λ c,
    (Ok (tombstone_wins v (ref_cell c k)), <[k := cell_tombstone v (ref_cell c k)]> c);
  cache_GetOrLease k := λ c,
    (Ok (match cell_read "h" (ref_cell c k) with Some s => LeaseHit (entry_of s) | None => LeaseGranted "lease" end), c);
  cache_FillWithLease k e _ := ref_fill k e;
}.

(** What a reader can be served after a write, it was served before or it is what was
    written. *)
Lemma cell_tombstone_read fp v x s :
  cell_wf x → cell_read fp (cell_tombstone v x) = Some s → cell_read fp x = Some s ∧ v ≤ st_rv s.
Proof.
  intros [Hwf _]. unfold cell_tombstone, tombstone_wins. destruct (c_val x) as [s'|] eqn:Ev.
  2: { intros Hs. unfold cell_read in Hs. destruct (_ && _) in Hs; cbn in Hs; [done|]. by rewrite Ev in Hs. }
  destruct (Z.ltb_spec (st_rv s') v) as [Hlt|Hge]; cbn [andb].
  - destruct (c_tomb x) as [t|] eqn:Et; [|done]. destruct (Z.ltb_spec t v); [done|].
    destruct (Hwf t eq_refl) as [_ Ht]. specialize (Ht _ eq_refl). lia.
  - intros Hs. split; [done|]. unfold cell_read in Hs. rewrite Ev in Hs. case_bool_decide; [|done].
    by injection Hs as <-.
Qed.

Lemma cell_fill_read fp s x s' : cell_read fp (cell_fill s x) = Some s' → cell_read fp x = Some s' ∨ s' = s.
Proof.
  unfold cell_fill. destruct (fill_wins s x); [|by left]. cbn. case_bool_decide; [|done]. intros [= <-]. by right.
Qed.

Definition ref_cached (c : gmap string cell) (k : string) (e : Entry) : Prop :=
  ∃ s, cell_read "h" (ref_cell c k) = Some s ∧ e = entry_of s.

Definition ref_wf (c : gmap string cell) : Prop := ∀ k, cell_wf (ref_cell c k).

Lemma ref_cell_insert c k x k' : ref_cell (<[k := x]> c) k' = if decide (k' = k) then x else ref_cell c k'.
Proof.
  unfold ref_cell. destruct (decide (k' = k)) as [->|Hne]; [by rewrite lookup_insert_eq|].
  by rewrite lookup_insert_ne.
Qed.

Lemma ref_fill_law c k e :
  ref_wf c → is_u64 (RowVersion e) → is_u64 (FillVersion e) →
  wp (ref_fill k e) (λ r c', no_panic r ∧ ref_wf c' ∧
    ∀ k' e', ref_cached c' k' e' → ref_cached c k' e' ∨ k' = k ∧ e' = as_read e) c.
Proof.
  intros Hwf Hr Hf. unfold wp, ref_fill. cbn. split; [done|]. split.
  - intros k'. rewrite ref_cell_insert. case_decide; [by apply cell_fill_wf|done].
  - intros k' e' (s & Hs & ->). unfold ref_cached. rewrite ref_cell_insert in Hs. case_decide as Hk.
    2: { left. by exists s. }
    subst k'. destruct (cell_fill_read _ _ _ _ Hs) as [Hold| ->]; [left; by exists s|by right].
Qed.

Lemma ref_laws : CacheLaws (gmap string cell) ref_cached ref_wf (λ _, True).
Proof.
  split.
  - intros c k Hwf _. unfold wp. cbn. split_and!; [done|done|done|].
    intros e [= He]. destruct (cell_read "h" (ref_cell c k)) as [s|] eqn:E; [|done]. injection He as <-. by exists s.
  - intros c k Hwf _. unfold wp. cbn. split_and!; [done|done|done|].
    intros e He. destruct (cell_read "h" (ref_cell c k)) as [s|] eqn:E; [|done]. injection He as <-. by exists s.
  - intros c k e Hwf _. by apply ref_fill_law.
  - intros c k e token Hwf _. by apply ref_fill_law.
  - intros c k v Hwf _ Hv. unfold wp. cbn. split; [done|]. split; [|split].
    + intros k'. rewrite ref_cell_insert. case_decide; [by apply cell_tombstone_wf|done].
    + intros k' e' (s & Hs & ->). exists s. split; [|done]. rewrite ref_cell_insert in Hs. case_decide as Hk; [subst k'|done].
      by destruct (cell_tombstone_read _ _ _ _ (Hwf k) Hs).
    + intros _ e' (s & Hs & ->). rewrite ref_cell_insert, decide_True in Hs by done.
      by destruct (cell_tombstone_read _ _ _ _ (Hwf k) Hs).
Qed.
