(* ===== verification/Sessions.v ===== *)
(** What a session reads back: the engine's guarantees over runs of operations.

    One engine serves one table on several shards, over any cache that obeys
    [CacheLaws] and any database that obeys [MysqlLaws]; operations run one after
    another, each with any session token.  The cached entries always satisfy an
    invariant that relates them to the rows, and from it the reads of a session
    that has seen a key's last write are current, whether or not invalidation
    worked. *)

From S2P Require Import LuaCache.
From S2P Require Import Prelude GoStd Hlc Ring Consistency Freshness Schema Row Table Mysql Storage Admission CacheClient Engine EngineSpec.
From S2P Require Import RefCache.

Local Open Scope Z_scope.

(** ** Lemmas: tokens and versions *)

Lemma Token_Advance_watermark id v s :
  id ≠ "" → ∃ wm, Token_Watermark (Token_Advance id v s) id = Some wm ∧ v ≤ wm.
Proof.
  intros Hid. unfold Token_Advance. rewrite bool_decide_eq_false_2 by done.
  unfold Token_advanceLocked, Token_Watermark. cbn [tok_entries tok_seq tok_max tok_evicted].
  destruct (tok_entries s !! id) as [cur|]; cbn [tok_entries];
    rewrite lookup_insert_eq; cbn; eexists; (split; [done|]); [|lia].
  destruct (Z.ltb_spec (wm_version cur) v); lia.
Qed.

Lemma rowVersion_Table (t : Table) row :
  length row = length (d_Columns (t_d t)) →
  ∀ u, Table_rowVersion t row = Ok u → rowVersion (t_d t) row = Ok u.
Proof.
  intros Hl u. unfold Table_rowVersion, rowVersion. rewrite Hl, Nat.eqb_refl. cbn [negb].
  destruct (row !! _) as [v|]; [|done]. by destruct (Value_Uint64 v).
Qed.

Section sessions.
Context {C D : Type} `{Cache C} `{Mysql D}.
Context (cached : C → string → Entry → Prop) (cwf : C → Prop) (kok : string → Prop).
Context `{!CacheLaws C cached cwf kok}.
Context (e : Engine) (t : table) (tab : Table) (tbl : D → gmap (list string) cells)
  (sel : D → Predicate → list sqlarg → list (list string)).
Context `{!MysqlLaws D tab tbl sel}.
Implicit Types w : EngineW C D.

(** The engine serves this table, and its shards know it by the same
    descriptor. *)
Record serving : Prop := {
  sv_only : e_tables e = {[d_Name (tb_d t) := t]};
  sv_d : t_d tab = tb_d t;
  sv_ok : table_ok tab;
  sv_shards : ∀ id s, tb_shards t !! id = Some s → id ≠ "" ∧ sh_tables s !! d_Name (tb_d t) = Some tab;
  sv_kok : ∀ key, Engine_tableFor e key = Ok t → kok (Key_String key);
}.

(** Shards between operations. *)
Definition shard_ready (sw : ShardW D) : Prop := Clock_wf (sw_clock sw) ∧ sw_tx sw = None.

(** ** One read *)

Section one.
Context (Hserv : serving).

Lemma serving_fits key : Engine_tableFor e key = Ok t →
  key = mkKey (d_Name (t_d tab)) (key_Values key) ∧ key_fits tab (key_Values key).
Proof.
  intros Ht. rewrite (sv_d Hserv). destruct (tableFor_key _ _ _ Ht) as (_ & Hv & Hk & _). split; [done|].
  unfold key_fits. rewrite (sv_d Hserv). by rewrite <-Hk.
Qed.

Lemma table_of_shard key shard id :
  table_shardFor t (Key_String key) = Ok (shard, id) → id ≠ "" ∧ sh_tables shard !! d_Name (t_d tab) = Some tab.
Proof.
  unfold table_shardFor. destruct (Router_ShardFor _ _) as [id'|?|?]; [|done..].
  destruct (tb_shards t !! id') as [s|] eqn:Es; [|done]. intros [= -> ->]. rewrite (sv_d Hserv).
  by apply (sv_shards Hserv).
Qed.

(** The shard's answer to a read, in the engine's terms. *)
Lemma shard_get i key shard id sw w :
  routed kok e w key t shard id sw →
  get_outcome tab tbl (key_Values key) (ri_shard_now i) (ri_fate i) sw
    (Shard_GetRow shard (ri_shard_now i) (ri_fate i) key sw).
Proof.
  intros Hrt. destruct (serving_fits key) as [Hk Hfit]; [apply Hrt|].
  destruct (table_of_shard key shard id) as [_ Htab]; [apply Hrt|].
  rewrite Hk at 2. by apply (get_spec shard tab tbl sel (sv_ok Hserv)).
Qed.

Lemma shard_get_fill i key shard id sw w found fill sw' :
  routed kok e w key t shard id sw → shard_ready sw →
  Shard_GetRow shard (ri_shard_now i) (ri_fate i) key sw = (Ok (found, fill), sw') → is_u64 fill.
Proof.
  intros Hrt [Hwf _] Hg. pose proof (shard_get i key shard id sw w Hrt) as Ho. rewrite Hg in Ho.
  assert (fill = Z.max (ri_shard_now i * 2 ^ 16) (Clock_last (sw_clock sw))) as Hf.
  { unfold get_outcome in Ho. destruct found; by destruct Ho as (_ & -> & _). }
  assert (0 ≤ ri_shard_now i ≤ MaxPhysicalMillis) as Hn.
  { unfold Shard_GetRow in Hg. unfold mbind at 1, M_bind, on_clock in Hg. rewrite Clock_Now_eq in Hg.
    case_decide; [done|]. cbn in Hg. done. }
  unfold Clock_wf, is_u64 in *. rewrite MaxPhysicalMillis_eq in Hn. lia.
Qed.

(** The row a read must answer with. *)
Definition answers (row : option cells) (rr : RowResult) : Prop :=
  match row with
  | None => rr_Found rr = false
  | Some cs => rr_Found rr = true ∧ norm <$> rr_Row rr = norm <$> (value_of_cell <$> cs) ∧
               stored_version tab cs = Ok (rr_RowVersion rr)
  end.

(** A read answered by its shard. *)
Lemma origin_answers i req key shard id sw w rr w' :
  routed kok e w key t shard id sw →
  served_origin cached cwf e i req key t shard id sw w rr w' →
  answers (tbl (sw_db sw) !! key_Values key) rr ∧ ri_fate i = None ∧
  rr_FillVersion rr = Z.max (ri_shard_now i * 2 ^ 16) (Clock_last (sw_clock sw)).
Proof.
  intros Hrt (tok & found & fill & sw' & _ & Hg & _ & _ & _ & Hfill & Hrr).
  pose proof (shard_get i key shard id sw w Hrt) as Ho. rewrite Hg in Ho. unfold get_outcome in Ho.
  destruct found as [row|].
  - destruct Ho as (Hf & -> & cs & u & Hcs & -> & Hsv & Htv & Hl & _).
    destruct Hrr as (v & Hv & Hfound & Hrow & Hrv & _).
    apply rowVersion_Table in Htv; [|done]. rewrite (sv_d Hserv), Hv in Htv. injection Htv as ->.
    split; [|split; [done|congruence]]. rewrite Hcs. cbn. rewrite Hrow, Hrv. done.
  - destruct Ho as (Hf & -> & Hcs & _). destruct Hrr as [Hfound _]. split; [|split; [done|congruence]].
    by rewrite Hcs.
Qed.

Lemma get_panics i key shard id sw w :
  routed kok e w key t shard id sw → origin_panicked i key t shard sw →
  ¬ (0 ≤ ri_shard_now i ≤ MaxPhysicalMillis).
Proof.
  intros Hrt Hp. pose proof (shard_get i key shard id sw w Hrt) as Ho.
  destruct Hp as [(p & sw' & Hg)|(row & fill & sw' & p & Hg & Hv)]; rewrite Hg in Ho; unfold get_outcome in Ho.
  - by destruct Ho as [? _].
  - destruct Ho as (_ & _ & cs & u & _ & -> & _ & Htv & Hl & _). apply rowVersion_Table in Htv; [|done].
    rewrite (sv_d Hserv) in Htv. congruence.
Qed.

Lemma get_fails i req key shard id sw w er w' :
  routed kok e w key t shard id sw → origin_failed cached cwf e i req key t shard id sw w er w' →
  ri_fate i ≠ None ∨ ∃ cs, tbl (sw_db sw) !! key_Values key = Some cs ∧ is_err (stored_version tab cs) = true.
Proof.
  intros Hrt (tok & sw' & _ & _ & Hf). pose proof (shard_get i key shard id sw w Hrt) as Ho.
  destruct Hf as [Hg|(row & fill & Hg & Hv)]; rewrite Hg in Ho; unfold get_outcome in Ho.
  - destruct Ho as [_ Ho]. destruct (ri_fate i); [by left|]. right. by apply Ho.
  - destruct Ho as (_ & _ & cs & u & _ & -> & _ & Htv & Hl & _). apply rowVersion_Table in Htv; [|done].
    rewrite (sv_d Hserv) in Htv. congruence.
Qed.

(** ** Coherence of the pools *)

Definition versions : Type := string → list string → Z.

(** An entry that shows the row as it is. *)
Definition reflects (row : option cells) (en : Entry) : Prop :=
  match row with
  | None => Negative en = true
  | Some cs => Negative en = false ∧ stored_version tab cs = Ok (RowVersion en) ∧
      ∃ b, EncodeRow (tb_d t) (value_of_cell <$> cs) = Ok b ∧ Row en = Some b
  end.

(** [g id k] is the version of the last change of row [k] on shard [id].  An entry
    either shows the row as it is or was filled before that change. *)
Record coherent w (g : versions) : Prop := {
  co_wf : pools_wf cwf w;
  co_ready : ∀ id sw, ew_shards w !! id = Some sw → shard_ready sw;
  co_shards : ∀ id s, tb_shards t !! id = Some s → is_Some (ew_shards w !! id);
  co_last : ∀ id sw k, ew_shards w !! id = Some sw → g id k ≤ Clock_last (sw_clock sw);
  co_entry : ∀ key shard id sw gp en, routed kok e w key t shard id sw →
    pool_entry cached w gp (Key_String key) en →
    FillVersion en ≤ Clock_last (sw_clock sw) ∧
    (reflects (tbl (sw_db sw) !! key_Values key) en ∨ FillVersion en < g id (key_Values key));
}.

(** The last changes after a step. *)
Definition changes w w' (g : versions) : versions := λ id k,
  match ew_shards w !! id, ew_shards w' !! id with
  | Some sw, Some sw' =>
      if decide (tbl (sw_db sw) !! k = tbl (sw_db sw') !! k) then g id k else Clock_last (sw_clock sw')
  | _, _ => g id k
  end.

(** What any operation does to a shard: the clock does not go back, and if
    anything was written it moved on. *)
Definition advances (sw sw' : ShardW D) : Prop :=
  shard_ready sw' ∧ Clock_last (sw_clock sw) ≤ Clock_last (sw_clock sw') ∧
  (tbl (sw_db sw') = tbl (sw_db sw) ∨ Clock_last (sw_clock sw) < Clock_last (sw_clock sw')).

Lemma advances_refl sw : shard_ready sw → advances sw sw.
Proof. intros Hr. split; [done|]. split; [lia|by left]. Qed.

(** A step keeps the pools coherent and every shard advances. *)
Definition step_ok w g w' : Prop :=
  coherent w' (changes w w' g) ∧
  ∀ id sw, ew_shards w !! id = Some sw → ∃ sw', ew_shards w' !! id = Some sw' ∧ advances sw sw'.

Lemma coherent_step (P : string → Entry → Prop) w w' g tok id sw sw' :
  coherent w g → ew_shards w !! id = Some sw → advances sw sw' →
  frame cached cwf P (with_shard id sw' (with_token tok w)) w' →
  (∀ key shard id' sw1 en, routed kok e w' key t shard id' sw1 → P (Key_String key) en →
     FillVersion en ≤ Clock_last (sw_clock sw1) ∧ reflects (tbl (sw_db sw1) !! key_Values key) en) →
  step_ok w g w'.
Proof.
  intros [Hwf Hready Hsh Hlast Hent] Hs Hadv Hf HP. pose proof Hadv as (Hr' & Hle & Hmove).
  assert (ew_shards w' = <[id := sw']> (ew_shards w)) as Hw' by (by rewrite (fm_shards _ _ _ _ _ Hf)).
  assert (∀ id' sw1, ew_shards w' !! id' = Some sw1 → id' = id ∧ sw1 = sw' ∨ id' ≠ id ∧ ew_shards w !! id' = Some sw1)
    as Hcase.
  { intros id' sw1. rewrite Hw'. intros [[<- <-]|[? ?]]%lookup_insert_Some; [by left|by right]. }
  assert (∀ id' sw1 k, ew_shards w' !! id' = Some sw1 →
    changes w w' g id' k = (if decide (id' = id ∧ tbl (sw_db sw) !! k ≠ tbl (sw_db sw') !! k)
                            then Clock_last (sw_clock sw') else g id' k)) as Hch.
  { intros id' sw1 k Hl. unfold changes. rewrite Hl. destruct (Hcase _ _ Hl) as [[-> ->]|[Hne Ho]].
    - rewrite Hs. repeat case_decide; naive_solver.
    - rewrite Ho. rewrite decide_True by done. rewrite decide_False by naive_solver. done. }
  split.
  2: { intros id' sw0 Hl. rewrite Hw'. destruct (decide (id = id')) as [<-|Hne].
       - rewrite lookup_insert_eq. eexists. split; [done|]. congruence.
       - rewrite lookup_insert_ne by done. exists sw0. split; [done|]. apply advances_refl. by eapply Hready. }
  split.
  - apply Hf.
  - intros id' sw1 Hl. destruct (Hcase _ _ Hl) as [[-> ->]|[Hne Ho]]; [done|by eapply Hready].
  - intros id' s Hl. rewrite Hw'. destruct (Hsh _ _ Hl). destruct (decide (id = id')) as [->|];
      [rewrite lookup_insert_eq|rewrite lookup_insert_ne by done]; by eexists.
  - intros id' sw1 k Hl. rewrite (Hch _ _ _ Hl). destruct (Hcase _ _ Hl) as [[-> ->]|[Hne Ho]].
    + case_decide; [done|]. pose proof (Hlast _ _ k Hs). lia.
    + rewrite decide_False by naive_solver. by eapply Hlast.
  - intros key shard id' sw1 gp en Hrt Hin. pose proof (rt_state _ _ _ _ _ _ _ _ Hrt) as Hl.
    assert (pool_entry cached w gp (Key_String key) en ∨ P (Key_String key) en) as [Hold|Hnew].
    { destruct gp; [apply (fm_in_gutter _ _ _ _ _ Hf) in Hin|apply (fm_in_cache _ _ _ _ _ Hf) in Hin]; exact Hin. }
    2: { destruct (HP _ _ _ _ _ Hrt Hnew). split; [done|by left]. }
    rewrite (Hch _ _ _ Hl). destruct (Hcase _ _ Hl) as [[-> ->]|[Hne Ho]].
    + destruct (Hent key shard id sw gp en) as [Hfill Hor]; [|done|].
      { destruct Hrt. by split. }
      split; [lia|]. case_decide as Hd; [right; destruct Hd as [_ Hd]|].
      * destruct Hmove as [Hsame|?]; [by rewrite Hsame in Hd|lia].
      * destruct (decide (tbl (sw_db sw) !! key_Values key = tbl (sw_db sw') !! key_Values key)) as [<-|?]; [done|].
        by destruct Hd.
    + rewrite decide_False by naive_solver. apply (Hent key shard id' sw1 gp en); [|done].
      destruct Hrt. by split.
Qed.

(** *** Keys are told apart by their text *)

Lemma Key_String_inj key key' :
  Engine_tableFor e key = Ok t → Engine_tableFor e key' = Ok t → Key_String key = Key_String key' → key = key'.
Proof.
  intros H1 H2 He. destruct (sv_ok Hserv) as [Hd _]. rewrite (sv_d Hserv) in Hd.
  assert (∀ k, Engine_tableFor e k = Ok t → ParseKey (Key_String k) = Ok k) as Hp.
  { intros k Hk. destruct (tableFor_key _ _ _ Hk) as (_ & _ & Hkey & Hlen). apply ParseKey_String.
    - rewrite Hkey. apply Hd.
    - intros Hn. rewrite Hn in Hlen. assert (d_PrimaryKey (tb_d t) ≠ []) as Hne by apply Hd.
      by destruct (d_PrimaryKey (tb_d t)). }
  apply Hp in H1. apply Hp in H2. rewrite He in H1. congruence.
Qed.

Lemma routed_same w w' key key' shard shard' id id' sw sw' :
  routed kok e w key t shard id sw → routed kok e w' key' t shard' id' sw' → Key_String key = Key_String key' →
  key = key' ∧ id = id' ∧ shard = shard'.
Proof.
  intros [H1 H2 _ _] [G1 G2 _ _] He. pose proof (Key_String_inj _ _ H1 G1 He) as ->. rewrite H2 in G2. by simplify_eq.
Qed.

(** *** The shards advance *)

Lemma get_advances i key shard id sw w r sw' :
  routed kok e w key t shard id sw → shard_ready sw →
  Shard_GetRow shard (ri_shard_now i) (ri_fate i) key sw = (r, sw') → no_panic r →
  advances sw sw' ∧ sw_db sw' = sw_db sw ∧ ∀ found fill, r = Ok (found, fill) → fill ≤ Clock_last (sw_clock sw').
Proof.
  intros Hrt [Hwf Htx] Hg Hnp. pose proof (shard_get i key shard id sw w Hrt) as Ho.
  assert (0 ≤ ri_shard_now i ≤ MaxPhysicalMillis) as Hn.
  { unfold Shard_GetRow in Hg. unfold mbind at 1, M_bind, on_clock in Hg. rewrite Clock_Now_eq in Hg.
    case_decide; [done|]. cbn in Hg. injection Hg as <- _. by destruct (Hnp _ eq_refl). }
  rewrite Hg in Ho. unfold get_outcome in Ho. rewrite MaxPhysicalMillis_eq in Hn. unfold Clock_wf, is_u64 in *.
  destruct r as [[[row|] fill]|er|p]; [| | |by destruct (Hnp p)].
  - destruct Ho as (_ & -> & cs & u & _ & _ & _ & _ & _ & Hu & ->). unfold advances, shard_ready, Clock_wf, is_u64 in *.
    cbn. split_and!; try done; try lia; [by left|]. intros ? ? [= <- <-]. lia.
  - destruct Ho as (_ & -> & _ & ->). unfold advances, shard_ready, Clock_wf, is_u64 in *. cbn.
    split_and!; try done; try lia; [by left|]. intros ? ? [= <- <-]. lia.
  - destruct Ho as [-> _]. unfold advances, shard_ready, Clock_wf, is_u64 in *. cbn.
    split_and!; try done; try lia. by left.
Qed.

Lemma put_advances k i sw r sw' :
  shard_ready sw → put_outcome tab tbl k i sw (r, sw') → no_panic r → advances sw sw'.
Proof.
  intros Hr Ho Hnp. unfold put_outcome in Ho. destruct r as [v|er|p]; [| |by destruct (Hnp p)].
  - destruct Ho as (Htx & Hc & Hlt & Hu & _). unfold advances, shard_ready. rewrite Hc. cbn.
    split_and!; [done|done|lia|by right].
  - destruct Ho as [(Htx & Hwf & Hle & Ht)|(_ & v & Htx & Hc & Hlt & Hu & _)].
    + split; [by split|]. split; [done|by left].
    + unfold advances, shard_ready. rewrite Hc. cbn. split_and!; [done|done|lia|by right].
Qed.

Lemma delete_advances k i sw r sw' :
  shard_ready sw → delete_outcome tab tbl k i sw (r, sw') → no_panic r → advances sw sw'.
Proof.
  intros Hr Ho Hnp. unfold delete_outcome in Ho. destruct r as [[v b]|er|p]; [| |by destruct (Hnp p)].
  - destruct Ho as (Htx & Hc & Hlt & Hu & _). unfold advances, shard_ready. rewrite Hc. cbn.
    split_and!; [done|done|lia|by right].
  - destruct Ho as [(Htx & Hwf & Hle & Ht)|(_ & v & b & Htx & Hc & Hlt & Hu & _)].
    + split; [by split|]. split; [done|by left].
    + unfold advances, shard_ready. rewrite Hc. cbn. split_and!; [done|done|lia|by right].
Qed.

(** ** Runs *)

Inductive op :=
  | OpGet (i : read_io) (key : Key) (req : Requirement)
  | OpPut (i : write_io) (at_ : Z * Z) (key : Key) (row : list Value)
  | OpDelete (i : write_io) (at_ : Z * Z) (key : Key).

(** The state an operation leaves, when the process survives it. *)
Definition survived {A} (r : result A * EngineW C D) : option (EngineW C D) :=
  match r.1 with Panic _ => None | _ => Some r.2 end.

Definition run_op (o : op) w : option (EngineW C D) :=
  match o with
  | OpGet i key req => survived (Engine_GetRow e i key req w)
  | OpPut i at_ key row => survived (Engine_PutRow e i at_ key row w)
  | OpDelete i at_ key => survived (Engine_DeleteRow e i at_ key w)
  end.

(** Operations in turn, each with the session token its request carries. *)
Inductive runs : EngineW C D → versions → EngineW C D → versions → Prop :=
  | runs_nil w g : runs w g w g
  | runs_step w g tok o w1 w2 g2 :
      run_op o (with_token tok w) = Some w1 → runs w1 (changes w w1 g) w2 g2 → runs w g w2 g2.

(** A request is routed, or leaves everything as it was. *)
Lemma request_routed w key :
  (∀ id s, tb_shards t !! id = Some s → is_Some (ew_shards w !! id)) →
  (∃ shard id sw, routed kok e w key t shard id sw) ∨
  (∀ t', Engine_tableFor e key = Ok t' → t' = t ∧ ∀ x, table_shardFor t (Key_String key) ≠ Ok x).
Proof.
  intros Hsh. destruct (Engine_tableFor e key) as [t'|er|p] eqn:Et; [|by right..].
  assert (t' = t) as ->.
  { destruct (tableFor_key _ _ _ Et) as (Hl & _). rewrite (sv_only Hserv) in Hl.
    by apply lookup_singleton_Some in Hl as [_ ?]. }
  destruct (table_shardFor t (Key_String key)) as [[shard id]|er|p] eqn:Es;
    [left|right; intros t' [= <-]; split; [done|by intros x]..].
  assert (is_Some (ew_shards w !! id)) as [sw Hsw].
  { unfold table_shardFor in Es. destruct (Router_ShardFor _ _) as [id'|?|?]; [|done..].
    destruct (tb_shards t !! id') as [s|] eqn:El; [|done]. injection Es as -> ->. by eapply Hsh. }
  exists shard, id, sw. split; [done|done|done|by apply (sv_kok Hserv)].
Qed.

Lemma unrouted w key :
  (∀ t', Engine_tableFor e key = Ok t' → t' = t ∧ ∀ x, table_shardFor t (Key_String key) ≠ Ok x) →
  (∀ i req, wp (Engine_GetRow e i key req) (λ r w', w' = w ∧ ∀ rr, r ≠ Ok rr) w) ∧
  (∀ i at_ row, wp (Engine_PutRow e i at_ key row) (λ r w', w' = w ∧ ∀ v, r ≠ Ok v) w) ∧
  (∀ i at_, wp (Engine_DeleteRow e i at_ key) (λ r w', w' = w ∧ ∀ v, r ≠ Ok v) w).
Proof.
  intros Hu. unfold Engine_GetRow, Engine_PutRow, Engine_DeleteRow.
  split_and!; intros; apply wp_bind, wp_lift; destruct (Engine_tableFor e key) as [t'|er|p] eqn:Et; try done;
    destruct (Hu _ eq_refl) as [-> Hno].
  2: { destruct (negb _); [by apply wp_fail|]. apply wp_bind, wp_lift. destruct (key_matches_row _ _ _); try done.
       apply wp_bind, wp_lift. by destruct (table_shardFor t (Key_String key)) as [x|?|?]; [destruct (Hno x)|..]. }
  all: apply wp_bind, wp_lift; by destruct (table_shardFor t (Key_String key)) as [x|?|?]; [destruct (Hno x)|..].
Qed.

Lemma coherent_ext w g g' : (∀ id k, g id k = g' id k) → coherent w g → coherent w g'.
Proof.
  intros Hg [H1 H2 H3 H4 H5]. split; try done.
  - intros. rewrite <-Hg. by eapply H4.
  - intros. rewrite <-Hg. by eapply H5.
Qed.

Lemma changes_refl w g id k : changes w w g id k = g id k.
Proof. unfold changes. destruct (ew_shards w !! id); [by rewrite decide_True|done]. Qed.

Lemma coherent_token w g tok : coherent w g ↔ coherent (with_token tok w) g.
Proof.
  split; intros [H1 H2 H3 H4 H5]; split; try done; intros key shard id sw gp en [R1 R2 R3 R4] Hin;
    (apply (H5 key shard id sw gp en); [by split|]); by destruct gp.
Qed.

(** The shard's side of a routed write. *)
Lemma put_routed i key shard id sw w row :
  routed kok e w key t shard id sw → shard_ready sw → row_names_key t key row →
  put_outcome tab tbl (key_Values key) i sw (Shard_PutRow shard i (d_Name (tb_d t)) row sw).
Proof.
  intros Hrt [Hwf Htx] [Hl Hm]. destruct (serving_fits key) as [Hk Hfit]; [apply Hrt|].
  destruct (table_of_shard key shard id) as [_ Htab]; [apply Hrt|].
  destruct (tableFor_key _ _ _ (rt_table _ _ _ _ _ _ _ _ Hrt)) as (_ & _ & _ & Hlen).
  rewrite <-(sv_d Hserv). apply (put_spec shard tab tbl sel (sv_ok Hserv)); try done.
  - by rewrite (sv_d Hserv).
  - rewrite (sv_d Hserv). by apply key_matches_row_values.
Qed.

Lemma delete_routed i key shard id sw w :
  routed kok e w key t shard id sw → shard_ready sw →
  delete_outcome tab tbl (key_Values key) i sw (Shard_DeleteRow shard i key sw).
Proof.
  intros Hrt [Hwf Htx]. destruct (serving_fits key) as [Hk Hfit]; [apply Hrt|].
  destruct (table_of_shard key shard id) as [_ Htab]; [apply Hrt|].
  rewrite Hk at 2. by apply (delete_spec shard tab tbl sel).
Qed.

Lemma put_version i k sw v sw' : put_outcome tab tbl k i sw (Ok v, sw') → is_u64 v.
Proof. by intros (_ & _ & _ & ? & _). Qed.

Lemma acked_frame id key v sw' w w' :
  acked cached cwf e id key v sw' w w' →
  frame cached cwf nothing (with_shard id sw' (with_token (ew_token w') w)) w'.
Proof.
  intros (w1 & Hf & _ & ->). destruct Hf as [F1 F2 F3 F4 F5 F6 F7 F8]. by split.
Qed.

(** *** Every operation keeps the pools coherent *)

Lemma step_same w g : coherent w g → step_ok w g w.
Proof.
  intros Hco. split.
  - eapply coherent_ext; [|done]. intros. by rewrite changes_refl.
  - intros id sw Hl. exists sw. split; [done|]. apply advances_refl. by eapply co_ready.
Qed.

(** A step that adds no entry. *)
Lemma step_nothing w g tok id sw sw' w' :
  coherent w g → ew_shards w !! id = Some sw → advances sw sw' →
  frame cached cwf nothing (with_shard id sw' (with_token tok w)) w' → step_ok w g w'.
Proof. intros Hco Hs Ha Hf. eapply coherent_step; [done|done|done|done|]. by intros ? ? ? ? ? ? []. Qed.

Lemma with_shard_same w id sw : ew_shards w !! id = Some sw → with_shard id sw w = w.
Proof. intros Hs. unfold with_shard. rewrite insert_id by done. by destruct w. Qed.

Lemma with_token_same w : with_token (ew_token w) w = w.
Proof. by destruct w. Qed.

Lemma get_step i req key w g w1 :
  coherent w g → survived (Engine_GetRow e i key req w) = Some w1 → step_ok w g w1.
Proof.
  intros Hco. destruct (request_routed w key (co_shards _ _ Hco)) as [(shard & id & sw & Hrt)|Hu].
  2: { destruct (unrouted w key Hu) as (Hget & _). specialize (Hget i req). unfold wp in Hget. unfold survived.
       destruct (Engine_GetRow e i key req w) as [r w']. cbn in *. destruct Hget as [-> _].
       destruct r; [intros [= <-]; by apply step_same..|done]. }
  pose proof (rt_state _ _ _ _ _ _ _ _ Hrt) as Hs. pose proof (co_ready _ _ Hco _ _ Hs) as Hready.
  pose proof (GetRow_wp cached cwf kok e i req key t shard id sw w (co_wf _ _ Hco) Hrt
    (λ found fill sw', shard_get_fill i key shard id sw w found fill sw' Hrt Hready)) as Hget.
  unfold wp in Hget. unfold survived. destruct (Engine_GetRow e i key req w) as [r w']. cbn [fst snd] in *.
  destruct r as [rr|er|p]; [| |done]; intros [= <-].
  - destruct Hget as [(en & _ & _ & _ & _ & _ & _ & _ & _ & Hf)|Horig].
    + eapply (step_nothing _ _ _ id sw sw); [done|done|by apply advances_refl|].
      rewrite with_shard_same; [exact Hf|done].
    + destruct Horig as (tok & found & fill & sw' & _ & Hg & _ & _ & _ & _ & Hrr).
      destruct (get_advances i key shard id sw w _ _ Hrt Hready Hg) as (Hadv & Hdb & Hfill); [done|].
      specialize (Hfill _ _ eq_refl). pose proof (shard_get i key shard id sw w Hrt) as Ho. rewrite Hg in Ho.
      assert (∀ key' shard' id' sw1, routed kok e w' key' t shard' id' sw1 → Key_String key' = Key_String key →
        ew_shards w' = <[id := sw']> (ew_shards w) → key' = key ∧ sw1 = sw') as Hsame.
      { intros key' shard' id' sw1 Hrt' Heq Hw'. destruct (routed_same _ _ _ _ _ _ _ _ _ _ Hrt' Hrt Heq) as (-> & -> & ->).
        split; [done|]. pose proof (rt_state _ _ _ _ _ _ _ _ Hrt') as Hl. rewrite Hw', lookup_insert_eq in Hl. congruence. }
      destruct found as [row|].
      * destruct Hrr as (v & Hv & _ & _ & _ & Hf). eapply coherent_step; [done|exact Hs|exact Hadv|exact Hf|].
        intros key' shard' id' sw1 en Hrt' [Heq (b & Hb & ->)].
        destruct (Hsame _ _ _ _ Hrt' Heq) as [-> ->]; [by rewrite (fm_shards _ _ _ _ _ Hf)|]. split; [done|].
        rewrite Hdb. destruct Ho as (_ & _ & cs & u & -> & -> & Hsv & Htv & Hl & _). cbn.
        apply rowVersion_Table in Htv; [|done]. rewrite (sv_d Hserv), Hv in Htv. injection Htv as ->.
        split; [done|]. split; [done|]. by exists b.
      * destruct Hrr as [_ Hf]. eapply coherent_step; [done|exact Hs|exact Hadv|exact Hf|].
        intros key' shard' id' sw1 en Hrt' [Heq ->].
        destruct (Hsame _ _ _ _ Hrt' Heq) as [-> ->]; [by rewrite (fm_shards _ _ _ _ _ Hf)|]. split; [done|].
        rewrite Hdb. destruct Ho as (_ & _ & -> & _). done.
  - destruct Hget as (tok & sw' & _ & Hf & Hor).
    assert (∃ r, Shard_GetRow shard (ri_shard_now i) (ri_fate i) key sw = (r, sw') ∧ no_panic r) as (r & Hg & Hnp)
      by (destruct Hor as [?|(row & fill & ? & _)]; by eexists).
    destruct (get_advances i key shard id sw w _ _ Hrt Hready Hg Hnp) as (Hadv & _ & _).
    by eapply step_nothing.
Qed.

Lemma shard_only_step w g id sw sw' :
  coherent w g → ew_shards w !! id = Some sw → advances sw sw' → step_ok w g (with_shard id sw' w).
Proof.
  intros Hco Hs Ha. eapply (step_nothing _ _ (ew_token w)); [done|done|done|]. rewrite with_token_same.
  apply frame_refl. apply (co_wf _ _ Hco).
Qed.

Lemma put_step i at_ key row w g w1 :
  coherent w g → survived (Engine_PutRow e i at_ key row w) = Some w1 → step_ok w g w1.
Proof.
  intros Hco. destruct (request_routed w key (co_shards _ _ Hco)) as [(shard & id & sw & Hrt)|Hu].
  2: { destruct (unrouted w key Hu) as (_ & Hput & _). specialize (Hput i at_ row). unfold wp in Hput. unfold survived.
       destruct (Engine_PutRow e i at_ key row w) as [r w']. cbn in *. destruct Hput as [-> _].
       destruct r; [intros [= <-]; by apply step_same..|done]. }
  pose proof (rt_state _ _ _ _ _ _ _ _ Hrt) as Hs. pose proof (co_ready _ _ Hco _ _ Hs) as Hready.
  assert (∀ r sw', row_names_key t key row → Shard_PutRow shard i (d_Name (tb_d t)) row sw = (r, sw') →
    put_outcome tab tbl (key_Values key) i sw (r, sw')) as Hout.
  { intros r sw' Hn <-. by eapply put_routed. }
  pose proof (PutRow_wp cached cwf kok e i at_ key t shard id sw row w (co_wf _ _ Hco) Hrt
    (λ Hn v sw' Hp, put_version _ _ _ _ _ (Hout _ _ Hn Hp))) as Hput.
  unfold survived. unfold wp in Hput. destruct (Engine_PutRow e i at_ key row w) as [r w']. cbn [fst snd] in *.
  destruct r as [v|er|p]; [| |done]; intros [= <-].
  - destruct Hput as (Hn & sw' & Hp & Hack). apply acked_frame in Hack.
    eapply (step_nothing _ _ _ id sw sw'); [done|done| |exact Hack].
    eapply put_advances; [done|by apply Hout|done].
  - destruct Hput as [[_ ->]|(Hn & sw' & Hp & ->)]; [by apply step_same|].
    eapply shard_only_step; [done|done|]. eapply put_advances; [done|by apply Hout|done].
Qed.

Lemma delete_step i at_ key w g w1 :
  coherent w g → survived (Engine_DeleteRow e i at_ key w) = Some w1 → step_ok w g w1.
Proof.
  intros Hco. destruct (request_routed w key (co_shards _ _ Hco)) as [(shard & id & sw & Hrt)|Hu].
  2: { destruct (unrouted w key Hu) as (_ & _ & Hdel). specialize (Hdel i at_). unfold wp in Hdel. unfold survived.
       destruct (Engine_DeleteRow e i at_ key w) as [r w']. cbn in *. destruct Hdel as [-> _].
       destruct r; [intros [= <-]; by apply step_same..|done]. }
  pose proof (rt_state _ _ _ _ _ _ _ _ Hrt) as Hs. pose proof (co_ready _ _ Hco _ _ Hs) as Hready.
  pose proof (delete_routed i key shard id sw w Hrt Hready) as Hout.
  assert (∀ v b sw', Shard_DeleteRow shard i key sw = (Ok (v, b), sw') → is_u64 v) as Hu.
  { intros v b sw' Hd. rewrite Hd in Hout. by destruct Hout as (_ & _ & _ & ? & _). }
  pose proof (DeleteRow_wp cached cwf kok e i at_ key t shard id sw w (co_wf _ _ Hco) Hrt Hu) as Hdel.
  unfold survived. unfold wp in Hdel. destruct (Engine_DeleteRow e i at_ key w) as [r w']. cbn [fst snd] in *.
  destruct r as [[existed v]|er|p]; [| |done]; intros [= <-].
  - destruct Hdel as (v' & sw' & Hd & Hack). rewrite Hd in Hout.
    assert (advances sw sw') as Hadv by by eapply delete_advances.
    destruct existed; [|destruct Hack as [_ ->]; by eapply shard_only_step].
    destruct Hack as [_ Hack%acked_frame]. by eapply step_nothing.
  - destruct Hdel as (sw' & Hd & ->). rewrite Hd in Hout.
    eapply shard_only_step; [done|done|]. by eapply delete_advances.
Qed.

Lemma op_step o w g w1 : coherent w g → run_op o w = Some w1 → step_ok w g w1.
Proof. destruct o; cbn [run_op]; [apply get_step|apply put_step|apply delete_step]. Qed.

(** Over a run the pools stay coherent, and a row whose last change is the same
    is the same. *)
Lemma runs_coherent w g w2 g2 :
  runs w g w2 g2 → coherent w g →
  coherent w2 g2 ∧ ∀ id sw, ew_shards w !! id = Some sw → ∃ sw2, ew_shards w2 !! id = Some sw2 ∧
    ∀ k, g id k ≤ g2 id k ∧ (g id k = g2 id k → tbl (sw_db sw) !! k = tbl (sw_db sw2) !! k).
Proof.
  induction 1 as [w g|w g tok o w1 w2 g2 Hop Hruns IH]; intros Hco.
  { split; [done|]. intros id sw Hl. exists sw. split; [done|]. intros k. split; [lia|done]. }
  apply (coherent_token _ _ tok) in Hco as Hco'. destruct (op_step _ _ _ _ Hco' Hop) as [Hco1 Hsh].
  destruct (IH Hco1) as [Hco2 Hsh2]. split; [done|]. intros id sw Hl.
  destruct (Hsh id sw Hl) as (sw1 & Hl1 & Hready & Hle & Hmove). destruct (Hsh2 id sw1 Hl1) as (sw2 & Hl2 & Hk).
  exists sw2. split; [done|]. intros k. destruct (Hk k) as [Hg Hsame]. pose proof (co_last _ _ Hco id sw k Hl) as Hlast.
  unfold changes in Hg, Hsame. cbn [with_token ew_shards] in Hg, Hsame. rewrite Hl, Hl1 in Hg, Hsame.
  destruct (decide (tbl (sw_db sw) !! k = tbl (sw_db sw1) !! k)) as [Heq|Hne].
  - split; [done|]. intros He. rewrite Heq. by apply Hsame.
  - destruct Hmove as [Ht|Hlt]; [by rewrite Ht in Hne|]. split; [lia|]. intros He. lia.
Qed.

(** *** What a session reads *)

Lemma norm_idem v : norm (norm v) = norm v.
Proof. unfold norm. destruct (IsNull v) eqn:E; [done|]. cbn. f_equal. unfold bytes. cbn. by rewrite bytes_copy. Qed.

(** A reader whose level honours the watermark, and whose watermark covers the
    row's last change, is answered with the row as it is. *)
Lemma cached_answers i req key shard id sw w g rr w' wm :
  coherent w g → routed kok e w key t shard id sw → Level_RequiresWatermark (req_Level req) = true →
  Token_Watermark (ew_token w) id = Some wm → g id (key_Values key) ≤ wm →
  (∀ cs, tbl (sw_db sw) !! key_Values key = Some cs → Forall (λ v, str_len (bytes v) < 2 ^ 63) (value_of_cell <$> cs)) →
  served_cached cached cwf e i req id t (Key_String key) w rr w' →
  answers (tbl (sw_db sw) !! key_Values key) rr.
Proof.
  intros Hco Hrt Hlev Hwm Hg Hsz (en & _ & _ & Hin & Hacc & Hrv & _ & Hfound & Hrow & _).
  assert (wm ≤ FillVersion en) as Hfresh.
  { unfold acceptable in Hacc. rewrite Hwm in Hacc. change (default 0 (Some wm)) with wm in Hacc. cbn [is_some] in Hacc.
    unfold AcceptEntry in Hacc. cbn [fr_Requirement fr_WatermarkKnown fr_FillVersion fr_Watermark] in Hacc.
    destruct (Level_BypassesCache _); [done|]. rewrite Hlev in Hacc. cbn [andb] in Hacc.
    destruct (Z.ltb_spec (FillVersion en) wm); [done|lia]. }
  destruct (co_entry _ _ Hco key shard id sw _ en Hrt Hin) as [_ [Hrefl|Hlt]]; [|lia].
  unfold answers, reflects in *. destruct (tbl (sw_db sw) !! key_Values key) as [cs|].
  - destruct Hrefl as (Hneg & Hsv & b & Hb & Hr). rewrite Hneg in Hfound. split; [done|]. split; [|by rewrite Hrv].
    specialize (Hrow Hneg). rewrite Hr in Hrow. change (default "" (Some b)) with b in Hrow.
    rewrite (EncodeRow_decodes _ _ _ (Hsz _ eq_refl) Hb) in Hrow. apply Ok_inj in Hrow as <-.
    rewrite <-list_fmap_compose. apply list_fmap_ext. intros ? v _. apply norm_idem.
  - by rewrite Hfound, Hrefl.
Qed.

(** Before the first request: connected shards, and pools that hold nothing. *)
Definition fresh w : Prop :=
  pools_wf cwf w ∧ (∀ gp k en, ¬ pool_entry cached w gp k en) ∧
  (∀ id sw, ew_shards w !! id = Some sw → shard_ready sw) ∧
  (∀ id s, tb_shards t !! id = Some s → is_Some (ew_shards w !! id)).

Definition never : versions := λ _ _, 0.

Lemma fresh_coherent w : fresh w → coherent w never.
Proof.
  intros (Hwf & Hno & Hr & Hsh). split; [done|done|done| |].
  - intros id sw k Hs. destruct (Hr _ _ Hs) as [Hw _]. unfold Clock_wf, is_u64 in Hw. unfold never. lia.
  - intros key shard id sw gp en _ Hin. by destruct (Hno gp (Key_String key) en).
Qed.

(** Cells of a size that a Go slice can have. *)
Definition sized (row : option cells) : Prop :=
  ∀ cs, row = Some cs → Forall (λ v, str_len (bytes v) < 2 ^ 63) (value_of_cell <$> cs).

Lemma read_answers i req key shard id sw w g rr w' wm :
  coherent w g → routed kok e w key t shard id sw → Level_RequiresWatermark (req_Level req) = true →
  Token_Watermark (ew_token w) id = Some wm → g id (key_Values key) ≤ wm →
  sized (tbl (sw_db sw) !! key_Values key) →
  Engine_GetRow e i key req w = (Ok rr, w') → answers (tbl (sw_db sw) !! key_Values key) rr.
Proof.
  intros Hco Hrt Hlev Hwm Hg Hsz Hget. pose proof (co_ready _ _ Hco _ _ (rt_state _ _ _ _ _ _ _ _ Hrt)) as Hready.
  pose proof (GetRow_wp cached cwf kok e i req key t shard id sw w (co_wf _ _ Hco) Hrt
    (λ found fill sw', shard_get_fill i key shard id sw w found fill sw' Hrt Hready)) as Hpost.
  pose proof (wp_run _ _ _ _ _ Hpost Hget) as [Hc|Ho]; [by eapply cached_answers|].
  by destruct (origin_answers _ _ _ _ _ _ _ _ _ Hrt Ho).
Qed.

Lemma routed_token w key shard id sw tok :
  routed kok e w key t shard id sw → routed kok e (with_token tok w) key t shard id sw.
Proof. by intros [? ? ? ?]. Qed.

(** After a put that returned [v], [v] is the last change of the row, and its
    session knows. *)
Lemma put_changes i at_ key row shard id sw w g v w1 :
  coherent w g → routed kok e w key t shard id sw → Engine_PutRow e i at_ key row w = (Ok v, w1) →
  0 < v ∧ changes w w1 g id (key_Values key) = v ∧
  (∃ wm, Token_Watermark (ew_token w1) id = Some wm ∧ v ≤ wm) ∧
  ∃ sw1 r, ew_shards w1 !! id = Some sw1 ∧ tbl (sw_db sw1) !! key_Values key = Some r ∧ stored_version tab r = Ok v.
Proof.
  intros Hco Hrt Hput. pose proof (rt_state _ _ _ _ _ _ _ _ Hrt) as Hs.
  pose proof (co_ready _ _ Hco _ _ Hs) as Hready.
  assert (∀ r sw', row_names_key t key row → Shard_PutRow shard i (d_Name (tb_d t)) row sw = (r, sw') →
    put_outcome tab tbl (key_Values key) i sw (r, sw')) as Hout.
  { intros r sw' Hn <-. by eapply put_routed. }
  pose proof (PutRow_wp cached cwf kok e i at_ key t shard id sw row w (co_wf _ _ Hco) Hrt
    (λ Hn v sw' Hp, put_version _ _ _ _ _ (Hout _ _ Hn Hp))) as Hpost.
  pose proof (wp_run _ _ _ _ _ Hpost Hput) as (Hn & sw' & Hp & w2 & Hf & _ & ->).
  destruct (Hout _ _ Hn Hp) as (_ & Hc & Hlt & _ & Hold & r & Htbl & Hv).
  assert (ew_shards w2 !! id = Some sw') as Hs2 by (rewrite (fm_shards _ _ _ _ _ Hf); apply lookup_insert_eq).
  assert (tbl (sw_db sw') !! key_Values key = Some r) as Hr by (rewrite Htbl; apply lookup_insert_eq).
  split; [|split; [|split]].
  - destruct Hready as [Hw _]. unfold Clock_wf, is_u64 in Hw. lia.
  - unfold changes. cbn [with_token ew_shards]. rewrite Hs, Hs2. case_decide as Hd; [|by rewrite Hc].
    rewrite Hr in Hd. destruct (Hold _ Hd) as (u & Hu & ?). assert (u = v) by congruence. lia.
  - cbn [with_token ew_token]. apply Token_Advance_watermark.
    by destruct (table_of_shard key shard id (rt_shard _ _ _ _ _ _ _ _ Hrt)).
  - by exists sw', r.
Qed.
End one.

(** A put's session knows the version it returned. *)
Lemma put_seen w0 w g i at_ key row shard id sw tok v w1 :
  serving → fresh w0 → runs w0 never w g → routed kok e w key t shard id sw →
  Engine_PutRow e i at_ key row (with_token tok w) = (Ok v, w1) →
  0 < v ∧ ∃ wm, Token_Watermark (ew_token w1) id = Some wm ∧ v ≤ wm.
Proof.
  intros Hserv Hfresh Hruns Hrt Hput.
  destruct (runs_coherent Hserv _ _ _ _ Hruns (fresh_coherent _ Hfresh)) as [Hco _].
  apply (coherent_token _ _ tok) in Hco.
  by destruct (put_changes Hserv i at_ key row shard id sw (with_token tok w) g v w1 Hco (routed_token _ _ _ _ _ _ Hrt) Hput)
    as (? & _ & Htok & _).
Qed.

(** A run that changes a put row no further leaves it readable by every session that knows of the put. *)
Lemma own_write_read w0 w g i at_ key row shard id sw tok v w1 w2 g2 i2 req tok2 wm rr w3 :
  serving → fresh w0 → runs w0 never w g → routed kok e w key t shard id sw →
  Engine_PutRow e i at_ key row (with_token tok w) = (Ok v, w1) →
  runs w1 (changes w w1 g) w2 g2 → g2 id (key_Values key) = v →
  Level_RequiresWatermark (req_Level req) = true → Token_Watermark tok2 id = Some wm → v ≤ wm →
  (∀ sw2, ew_shards w2 !! id = Some sw2 → sized (tbl (sw_db sw2) !! key_Values key)) →
  Engine_GetRow e i2 key req (with_token tok2 w2) = (Ok rr, w3) →
  (∃ wm1, Token_Watermark (ew_token w1) id = Some wm1 ∧ v ≤ wm1) ∧ rr_Found rr = true ∧ rr_RowVersion rr = v.
Proof.
  intros Hserv Hfresh Hruns Hrt Hput Hruns2 Hg2 Hlev Hwm Hle Hsz Hget.
  destruct (runs_coherent Hserv _ _ _ _ Hruns (fresh_coherent _ Hfresh)) as [Hco _].
  apply (coherent_token _ _ tok) in Hco.
  assert (run_op (OpPut i at_ key row) (with_token tok w) = Some w1) as Hop by (cbn; unfold survived; by rewrite Hput).
  destruct (op_step Hserv _ _ _ _ Hco Hop) as [Hco1 _].
  destruct (put_changes Hserv i at_ key row shard id sw (with_token tok w) g v w1 Hco (routed_token _ _ _ _ _ _ Hrt) Hput)
    as (_ & Hch & Htok & sw1 & r & Hs1 & Hr & Hv).
  destruct (runs_coherent Hserv _ _ _ _ Hruns2 Hco1) as [Hco2 Hsh].
  destruct (Hsh id sw1 Hs1) as (sw2 & Hs2 & Hk). destruct (Hk (key_Values key)) as [_ Hsame].
  rewrite Hr in Hsame. assert (tbl (sw_db sw2) !! key_Values key = Some r) as Hr2.
  { symmetry. apply Hsame. rewrite Hg2. exact Hch. }
  assert (answers (tbl (sw_db sw2) !! key_Values key) rr) as Ha.
  { eapply (read_answers Hserv i2 req key shard id sw2 (with_token tok2 w2) g2); try done.
    - by apply coherent_token.
    - destruct Hrt as [H1' H2' _ H4']. by split.
    - lia.
    - by apply Hsz. }
  rewrite Hr2 in Ha. destruct Ha as (Hf & _ & Hv'). split; [done|]. split; [done|]. congruence.
Qed.

(** ** Properties *)



(** The engine has a cache, its pools are sound, and the key is one of theirs. *)
Definition may_wait (key : string) (w : EngineW C D) : Prop :=
  pools_wf cwf w ∧ kok key ∧ is_some (ew_cache w) = true.

(** C31: waiting for another caller's fill always ends.  The loop makes at most one
    lookup more than the policy's attempts, whatever the cache answers (more
    rounds would change nothing), and it returns: a cache that errs, sheds or
    never fills is not an error of the read. *)
Theorem readWaitingForAnyFill_terminates fuel cancelled key w :
  may_wait key w → (wait_fuel e ≤ fuel)%nat →
  is_ok (Engine_readWaitingForAnyFill e cancelled key w).1 = true ∧
  wait_loop e fuel cancelled key 0 w = Engine_readWaitingForAnyFill e cancelled key w.
Proof.
  intros (Hwf & Hk & Hc) Hfuel. unfold Engine_readWaitingForAnyFill. split.
  - pose proof (wait_loop_wp cached cwf kok e (wait_fuel e) cancelled key 0 w Hwf Hk Hc) as [_ Hr].
    destruct (wait_loop e (wait_fuel e) cancelled key 0 w) as [[x|er|p] w']; cbn in *; [done|done|].
    unfold wait_fuel in Hr. lia.
  - unfold wait_fuel in *. apply wait_loop_fuel; lia.
Qed.


(** C20: what one put does.  If it is acknowledged, the row names the key, it is
    committed at the returned version, the key has been invalidated at that
    version (no entry of the answering pool is older), and the session's
    watermark has moved; an invalidation that fails does not fail the put.  A
    refused put changes nothing, and a failed one changes nothing but what the
    shard's failed put may have. *)
Theorem Engine_PutRow_spec i at_ key row shard id sw w :
  serving → pools_wf cwf w → routed kok e w key t shard id sw → shard_ready sw →
  match Engine_PutRow e i at_ key row w with
  | (Ok v, w') => row_names_key t key row ∧
      ∃ sw', put_outcome tab tbl (key_Values key) i sw (Ok v, sw') ∧
             acked cached cwf e id (Key_String key) v sw' w w'
  | (Err er, w') => ¬ row_names_key t key row ∧ w' = w ∨
      row_names_key t key row ∧ ∃ sw', put_outcome tab tbl (key_Values key) i sw (Err er, sw') ∧ w' = with_shard id sw' w
  | (Panic _, _) => is_some (ew_admission w) = true ∨
      (∃ p, key_matches_row (d_PrimaryKey (tb_d t)) (key_Values key) row = Panic p) ∨
      ∃ p sw', Shard_PutRow shard i (d_Name (tb_d t)) row sw = (Panic p, sw')
  end.
Proof.
  intros Hserv Hwf Hrt Hready.
  assert (∀ r sw', row_names_key t key row → Shard_PutRow shard i (d_Name (tb_d t)) row sw = (r, sw') →
    put_outcome tab tbl (key_Values key) i sw (r, sw')) as Hout.
  { intros r sw' Hn <-. by eapply put_routed. }
  pose proof (PutRow_wp cached cwf kok e i at_ key t shard id sw row w Hwf Hrt
    (λ Hn v sw' Hp, put_version _ _ _ _ _ (Hout _ _ Hn Hp))) as Hpost.
  unfold wp in Hpost. destruct (Engine_PutRow e i at_ key row w) as [[v|er|p] w']; cbn [fst snd] in Hpost.
  - destruct Hpost as (Hn & sw' & Hp & Hack). split; [done|]. exists sw'. split; [by apply Hout|done].
  - destruct Hpost as [?|(Hn & sw' & Hp & ->)]; [by left|right]. split; [done|]. exists sw'. split; [by apply Hout|done].
  - done.
Qed.
End sessions.

(** ** Witnesses *)

Section demo.
#[local] Existing Instance ref_cache.
#[local] Instance demo_mysql : Mysql (gmap (list string) cells) := mem_mysql users_t.

#[local] Instance demo_mysql_laws : MysqlLaws _ users_t (mem_tbl users_t) (mem_sel users_t) := users_laws.
#[local] Existing Instance ref_laws.

(** One shard, on a ring of one point. *)
Definition demo_t : table :=
  mktable users_d (mkShardRouter (mkRing [0] ["s0"] ["s0"]) {["s0"]}) {["s0" := users_shard]}.

Definition demo_e : Engine :=
  mkEngine {["users" := demo_t]} ["users"] 0 64 1000 (mkWaitPolicy 3 1000 10000) 5000000000 0 true "dev".

Definition demo_w : EngineW (gmap string LuaCache.cell) (gmap (list string) cells) :=
  mkEngineW {["s0" := users_w]} (Some ∅) None None (NewToken 64).

Definition demo_read : read_io := mkReadIO (0, 0) (0, 0) 0 (λ _, false) 0 0 None.
Definition session_read : Requirement := mkRequirement Session 0.
Definition user1 : Key := mkKey "users" ["1"].

Lemma demo_serving : serving (λ _, True) demo_e demo_t users_t.
Proof.
  assert (t_d users_t = users_d) as Hd by (vm_compute; reflexivity).
  split; [vm_compute; reflexivity|done|apply users_table_ok| |done].
  intros id s Hl. cbn in Hl. apply lookup_singleton_Some in Hl as [<- <-]. split; [done|]. vm_compute. reflexivity.
Qed.

Lemma demo_fresh : fresh ref_cached ref_wf demo_t demo_w.
Proof.
  split_and!.
  - split; intros c Hc; [|done]. injection Hc as <-. intros k. apply LuaCache.cell_empty_wf.
  - intros gp k en Hin. destruct gp; destruct Hin as (c & Hc & s & Hs & _); [done|]. injection Hc as <-. done.
  - intros id sw Hl. cbn in Hl. apply lookup_singleton_Some in Hl as [<- <-]. split; [|done].
    vm_compute. intuition congruence.
  - intros id s Hl. cbn in Hl. apply lookup_singleton_Some in Hl as [<- _]. by eexists.
Qed.

Lemma demo_routed : routed (λ _, True) demo_e demo_w user1 demo_t users_shard "s0" users_w.
Proof. split; [vm_compute; reflexivity..|done]. Qed.

(** A session reads user 1, another writes it. *)
Definition demo_row : list Value := [Str "1"; Str "acme"; Str "done"; Null].

Definition after_read : EngineW (gmap string LuaCache.cell) (gmap (list string) cells) :=
  (Engine_GetRow demo_e demo_read user1 session_read demo_w).2.

Definition demo_put : result Z * EngineW (gmap string LuaCache.cell) (gmap (list string) cells) :=
  Engine_PutRow demo_e (users_io 0) (0, 0) user1 demo_row (with_token (NewToken 64) after_read).

Definition s0_of (w : EngineW (gmap string LuaCache.cell) (gmap (list string) cells)) :
    ShardW (gmap (list string) cells) := default users_w (ew_shards w !! "s0").

Lemma demo_runs :
  runs demo_e (mem_tbl users_t) demo_w never after_read (changes (mem_tbl users_t) demo_w after_read never).
Proof.
  apply (runs_step _ _ demo_w never (NewToken 64) (OpGet demo_read user1 session_read) after_read _ _);
    [vm_compute; reflexivity|apply runs_nil].
Qed.

Lemma sized_row row :
  forallb (λ c, str_len (default "" c) <? 2 ^ 63) (default [] row) = true → sized row.
Proof.
  intros Hb cs ->. cbn in Hb. apply Forall_fmap, Forall_forall. intros c Hc.
  rewrite forallb_forall in Hb. specialize (Hb c (proj1 (list_elem_of_In _ _) Hc)). apply Z.ltb_lt in Hb.
  destruct c; cbn in *; lia.
Qed.



Lemma readWaitingForAnyFill_terminates_witness :
  is_ok (Engine_readWaitingForAnyFill demo_e (λ _, false) "users:1" demo_w).1 = true ∧
  wait_loop demo_e 100 (λ _, false) "users:1" 0 demo_w = Engine_readWaitingForAnyFill demo_e (λ _, false) "users:1" demo_w.
Proof.
  apply (readWaitingForAnyFill_terminates ref_cached ref_wf (λ _, True) demo_e 100 (λ _, false) "users:1" demo_w);
    [split_and!; [apply demo_fresh|done|reflexivity]|vm_compute; lia].
Defined.

Lemma demo_ready : shard_ready users_w.
Proof. split; [|reflexivity]. vm_compute. intuition congruence. Qed.


Lemma Engine_PutRow_spec_witness :
  ∃ v w' sw', Engine_PutRow demo_e (users_io 0) (0, 0) user1 demo_row demo_w = (Ok v, w') ∧
    put_outcome users_t (mem_tbl users_t) ["1"] (users_io 0) users_w (Ok v, sw') ∧
    acked ref_cached ref_wf demo_e "s0" "users:1" v sw' demo_w w'.
Proof.
  pose proof (Engine_PutRow_spec ref_cached ref_wf (λ _, True) demo_e demo_t users_t (mem_tbl users_t) (mem_sel users_t)
    (users_io 0) (0, 0) user1 demo_row users_shard "s0" users_w demo_w demo_serving (proj1 demo_fresh) demo_routed
    demo_ready) as Hspec.
  assert ((Engine_PutRow demo_e (users_io 0) (0, 0) user1 demo_row demo_w).1 = Ok 41) as Hok by (vm_compute; reflexivity).
  destruct (Engine_PutRow demo_e (users_io 0) (0, 0) user1 demo_row demo_w) as [r w']. cbn in Hok. subst r.
  destruct Hspec as (_ & sw' & Hput & Hack). exists 41, w', sw'. split; [reflexivity|]. split; [exact Hput|exact Hack].
Defined.
End demo.
