(* ===== verification/EngineCache.v ===== *)
(** The cache client behind the engine: [src/internal/cache/client.go] keeps what
    the engine asks of a cache ([CacheLaws] of EngineSpec.v), so the engine's
    guarantees hold of the deployment as built: engine, client, Lua scripts and
    cache servers.

    A [Pool] is a client with the nodes it reaches.  What the world does during
    the [n]-th operation, if its key is on a given node, is an input: readings of
    the clocks, the draw, the fate of the call and the lease token. *)

From S2P Require Import Prelude GoStd Floats Hlc Ring Consistency Schema Row Table Mysql Storage Version Redis LuaCache Breaker Admission CacheClient Engine EngineSpec RefCache Sessions.

Local Open Scope Z_scope.

(** ** Keys

    No key the engine makes is another key's lease. *)

Definition NUL : ascii := byte_of 0.

Definition key_ok (key : string) : Prop := key ≠ "" ∧ contains_byte NUL key = false.

Lemma leaseKey_not_ok key key' : key_ok key → key ≠ leaseKey key'.
Proof.
  intros [_ Hn] ->. unfold leaseKey in Hn. rewrite contains_byte_app in Hn. apply orb_false_iff in Hn as [_ Hn]. done.
Qed.

Lemma leaseKey_inj key key' : key_ok key → key_ok key' → leaseKey key = leaseKey key' → key = key'.
Proof.
  unfold leaseKey. intros [_ H] [_ H'] He. apply (cut_byte_app NUL _ "lease") in H, H'.
  change (byte_of 0) with NUL in He. rewrite He in H. congruence.
Qed.

Lemma hexDigit_not_NUL n : 0 ≤ n < 16 → hexDigit n ≠ NUL.
Proof.
  intros Hn He. apply (f_equal byte_val) in He. revert He. unfold hexDigit, NUL. destruct (Z.ltb_spec n 10);
    rewrite !byte_val_of by lia; lia.
Qed.

Lemma escaped_no_NUL s : contains_byte NUL (writeEscaped s) = false.
Proof.
  induction s as [|c s IH]; [done|]. cbn [writeEscaped].
  destruct (must_escape c) eqn:He; cbn [contains_byte]; rewrite IH.
  - destruct (nibbles c) as (H1 & H2 & _).
    rewrite !bool_decide_eq_false_2; [done|by apply hexDigit_not_NUL..|done].
  - rewrite bool_decide_eq_false_2; [done|]. intros ->. done.
Qed.

Lemma Key_String_ok k : validIdentifier (key_Table k) = true → key_Values k ≠ [] → key_ok (Key_String k).
Proof.
  intros Ht Hv. rewrite Key_String_join by done. split.
  - destruct (key_Table k) as [|c s]; [done|]. by rewrite str_app_cons.
  - rewrite !contains_byte_app, (str_all_contains is_ident_char) by (by apply ident_chars || reflexivity).
    cbn [orb contains_byte]. rewrite bool_decide_eq_false_2 by done. cbn [orb].
    apply contains_join; [done|]. apply Forall_fmap, Forall_true. intros v. apply escaped_no_NUL.
Qed.

(** ** What a call leaves of the other keys *)

Section client.
Context {R : Type} `{RedisLaws R}.
Implicit Types w : World R.

(** Other nodes are as they were, and so are the other keys of this one. *)
Definition same_elsewhere (c : Client) (key : string) (now : Z) w w' : Prop :=
  ∀ node r, w_nodes w !! node = Some r → ∃ r', w_nodes w' !! node = Some r' ∧
    (Client_poolFor c key ≠ Ok node → r' = r) ∧
    ∀ k, k ≠ key → k ≠ leaseKey key → look r' now k = look r now k.

Lemma same_elsewhere_nodes c key now w w' : w_nodes w' = w_nodes w → same_elsewhere c key now w w'.
Proof. intros Hn node r Hr. exists r. by rewrite Hn. Qed.

(** Code that leaves the nodes alone. *)
Definition quiet {A} (m : M (World R) A) : Prop := ∀ w, w_nodes (m w).2 = w_nodes w.

Lemma quiet_bind {A B} (m : M (World R) A) (f : A → M (World R) B) : quiet m → (∀ a, quiet (f a)) → quiet (a ← m; f a).
Proof.
  intros Hm Hf w. unfold mbind, M_bind. specialize (Hm w). destruct (m w) as [[a|?|?] w']; cbn in *; [|done..].
  by rewrite Hf.
Qed.

Lemma quiet_breaker {A} node i (m : M Breaker A) : quiet (on_breaker node i m).
Proof. intros w. unfold on_breaker. by destruct (Group_For _ _ _ _). Qed.

Ltac quietly :=
  repeat first
    [ apply quiet_breaker | apply quiet_bind; [|intros ?] | (intros ?; reflexivity)
    | match goal with |- quiet (match ?x with _ => _ end) => destruct x end ].

Lemma script_elsewhere {A B} c key now node f (m : M R A) (k : option A + error → M (World R) B) w :
  Client_poolFor c key = Ok node →
  (∀ r, w_nodes w !! node = Some r → ∃ a r', m r = (Ok a, r') ∧
     ∀ k', k' ≠ key → k' ≠ leaseKey key → look r' now k' = look r now k') →
  (∀ x, quiet (k x)) →
  same_elsewhere c key now w ((x ← run_script node f m; k x) w).2.
Proof.
  intros Hp Hm Hk. unfold mbind, M_bind, run_script. destruct (w_nodes w !! node) as [r|] eqn:Er.
  2: { apply same_elsewhere_nodes, Hk. }
  destruct (Hm r eq_refl) as (a & r' & -> & Hoth).
  assert (same_elsewhere c key now w (mkWorld (<[node := r']> (w_nodes w)) (w_breakers w))) as Hset.
  { intros node0 r0 Hr0. cbn. destruct (decide (node0 = node)) as [->|Hne].
    - rewrite lookup_insert_eq. exists r'. assert (r0 = r) as -> by congruence. by split_and!.
    - rewrite lookup_insert_ne by done. by exists r0. }
  destruct f; cbn [fst snd].
  2,3: apply same_elsewhere_nodes, Hk.
  all: intros node0 r0 Hr0; rewrite Hk; by apply Hset.
Qed.

(** The node of a key, as [key_at] knows it. *)
Lemma key_at_node w c key now x e l node r :
  key_at w c key now x e l → Client_poolFor c key = Ok node → w_nodes w !! node = Some r →
  holds r now key x e ∧ lease_holds r now (leaseKey key) l.
Proof. intros (node' & r' & Hp & Hn & Hh & Hl) Hp' Hn'. rewrite Hp in Hp'. injection Hp' as ->. rewrite Hn in Hn'. by injection Hn' as ->. Qed.

Lemma gated_elsewhere {B} c key now i (k : string → M (World R) B) (shed : M (World R) B) w :
  (∀ node w', Client_poolFor c key = Ok node → w_nodes w' = w_nodes w → same_elsewhere c key now w' (k node w').2) →
  quiet shed →
  same_elsewhere c key now w ((node ← M_lift (Client_poolFor c key); ok ← Allow node i; if negb ok then shed else k node) w).2.
Proof.
  intros Hk Hs. unfold mbind at 1, M_bind at 1, M_lift. destruct (Client_poolFor c key) as [node|?|?].
  2,3: by apply same_elsewhere_nodes.
  assert (w_nodes (Allow node i w).2 = w_nodes w) as Hq by apply quiet_breaker.
  unfold mbind, M_bind. destruct (Allow node i w) as [[ok|?|?] w'] eqn:Ea; cbn [fst snd] in *.
  2,3: by apply same_elsewhere_nodes.
  destruct ok; cbn [negb].
  - intros node0 r Hr. rewrite <-Hq in Hr. by eapply (Hk node w').
  - apply same_elsewhere_nodes. by rewrite Hs.
Qed.

Lemma get_elsewhere c i key w x e l :
  key_at w c key (io_server i) x e l → same_elsewhere c key (io_server i) w (Client_Get c i key w).2.
Proof.
  intros Hat. apply gated_elsewhere; [|done]. intros node w' Hp Hn. apply (script_elsewhere c key); [done| |intros res; quietly].
  intros r Hr. rewrite Hn in Hr. destruct (key_at_node _ _ _ _ _ _ _ _ _ Hat Hp Hr) as [Hh _].
  rewrite (read_refines _ _ _ _ _ _ Hh). by do 2 eexists.
Qed.

Lemma fill_elsewhere c i key ent token w x e l :
  is_u64 (RowVersion ent) → is_u64 (FillVersion ent) → 0 < Milliseconds (cl_ttl c) →
  key_at w c key (io_server i) x e l → same_elsewhere c key (io_server i) w (Client_FillWithLease c i key ent token w).2.
Proof.
  intros Hrv Hfv Httl Hat. apply gated_elsewhere; [|done]. intros node w' Hp Hn.
  apply (script_elsewhere c key); [done| |intros res; quietly].
  intros r Hr. rewrite Hn in Hr. destruct (key_at_node _ _ _ _ _ _ _ _ _ Hat Hp Hr) as [Hh Hl].
  destruct (fill_cas_refines r (io_server i) key (leaseKey key) (stored_of c ent) x e l _ token
    Hh Hl (leaseKey_ne key) (conj Hrv Hfv) Httl) as (r' & Hm & _ & _ & Hoth). by do 2 eexists.
Qed.

Lemma lease_elsewhere c i key w x e l :
  0 < Milliseconds (cl_leaseTTL c) →
  key_at w c key (io_server i) x e l → same_elsewhere c key (io_server i) w (Client_GetOrLease c i key w).2.
Proof.
  intros Httl Hat. apply gated_elsewhere; [|done]. intros node w' Hp Hn.
  unfold mbind at 1, M_bind at 1, M_lift. destruct (io_token i) as [token|?|?]; [|by apply same_elsewhere_nodes..].
  apply (script_elsewhere c key); [done| |intros res; quietly].
  intros r Hr. rewrite Hn in Hr. destruct (key_at_node _ _ _ _ _ _ _ _ _ Hat Hp Hr) as [Hh Hl].
  destruct (read_lease_refines r (io_server i) key (leaseKey key) token _ (cl_fingerprint c) x e l
    Hh Hl (leaseKey_ne key) Httl) as (r' & Hm & _ & _ & Hoth). by do 2 eexists.
Qed.

Lemma tombstone_elsewhere c i key v w x e l :
  is_u64 v → 0 < Milliseconds (cl_ttl c) →
  key_at w c key (io_server i) x e l → same_elsewhere c key (io_server i) w (Client_Tombstone c i key v w).2.
Proof.
  intros Hv Httl Hat. unfold Client_Tombstone, mbind at 1, M_bind at 1, M_lift.
  destruct (Client_poolFor c key) as [node|?|?] eqn:Hp; [|by apply same_elsewhere_nodes..].
  apply (script_elsewhere c key); [done| |intros res; quietly].
  intros r Hr. destruct (key_at_node _ _ _ _ _ _ _ _ _ Hat Hp Hr) as [Hh _].
  destruct (tombstone_cas_refines r (io_server i) key v x e _ Hh Hv Httl) as (r' & Hm & _ & Hoth).
  do 2 eexists. split; [done|]. auto.
Qed.
End client.

(** ** A client and what happens to it *)

Record Pool (R : Type) := mkPool {
  p_client : Client;
  p_inputs : string → nat → io;
  p_world : World R;
  p_step : nat;
}.
Arguments mkPool {R}. Arguments p_client {R}. Arguments p_inputs {R}. Arguments p_world {R}. Arguments p_step {R}.

(** The inputs of the operation the pool does next, if it is on [key]. *)
Definition p_io {R} (p : Pool R) (key : string) : io :=
  p_inputs p (match Client_poolFor (p_client p) key with Ok node => node | _ => "" end) (p_step p).

Definition on_client {R A} (key : string) (op : Client → io → M (World R) A) : M (Pool R) A := λ p,
  let '(r, w) := op (p_client p) (p_io p key) (p_world p) in (r, mkPool (p_client p) (p_inputs p) w (S (p_step p))).

#[global] Instance client_cache {R} `{Redis R} : Cache (Pool R) := {
  cache_Get key := on_client key (λ c i, Client_Get c i key);
  cache_Fill key e := on_client key (λ c i, Client_Fill c i key e);
  cache_Tombstone key v := on_client key (λ c i, Client_Tombstone c i key v);
  cache_GetOrLease key := on_client key (λ c i, Client_GetOrLease c i key);
  cache_FillWithLease key e token := on_client key (λ c i, Client_FillWithLease c i key e token);
}.

(** Clocks do not go back, each node's its own, and drawing a token does not
    panic; [ts n] is before the [n]-th operation. *)
Record inputs_ok (ts : nat → Z) (inputs : string → nat → io) : Prop := {
  in_clock : ∀ node n, io_ok (ts n) (inputs node n) (ts (S n));
  in_server : ∀ node n, io_server (inputs node n) ≤ io_server (inputs node (S n));
  in_token : ∀ node n, no_panic (io_token (inputs node n));
}.

Section pool.
Context {R : Type} `{RedisLaws R}.
Implicit Types p : Pool R.

Definition holds_at p key x e l : Prop := key_at (p_world p) (p_client p) key (io_server (p_io p key)) x e l.

(** Working order: intervals a cache server can keep, breakers in order, and at
    every key a cell and a lease. *)
Record client_wf p : Prop := {
  cw_ttl : 1000000 ≤ cl_ttl (p_client p);
  cw_leaseTTL : 1000000 ≤ cl_leaseTTL (p_client p);
  cw_inputs : ∃ ts, inputs_ok ts (p_inputs p) ∧ group_ok (ts (p_step p)) (w_breakers (p_world p));
  cw_keys : ∀ key, key_ok key → ∃ x e l, holds_at p key x e l;
}.

(** What the read script would answer now. *)
Definition client_cached p key ent : Prop :=
  key_ok key ∧ ∃ node r fields, Client_poolFor (p_client p) key = Ok node ∧ w_nodes (p_world p) !! node = Some r ∧
    (read_script (io_server (p_io p key)) key (cl_fingerprint (p_client p)) r).1 = Ok fields ∧ entryFromLua fields = Ok ent.

Lemma Milliseconds_pos d : 1000000 ≤ d → 0 < Milliseconds d.
Proof. intros Hd. unfold Milliseconds. rewrite Z.quot_div_nonneg by lia. apply Z.div_str_pos. lia. Qed.

Lemma cached_at p key x e l ent : key_ok key → holds_at p key x e l →
  client_cached p key ent ↔ ∃ s, cell_read (cl_fingerprint (p_client p)) x = Some s ∧ ent = entry_of s.
Proof.
  intros Hk (node & r & Hp & Hn & Hh & Hl). pose proof (read_refines _ _ _ (cl_fingerprint (p_client p)) _ _ Hh) as Hread.
  split.
  - intros (_ & node' & r' & fields & Hp' & Hn' & Hf & He). rewrite Hp in Hp'. injection Hp' as <-.
    rewrite Hn in Hn'. injection Hn' as <-. rewrite Hread in Hf. injection Hf as <-.
    destruct (cell_read _ x) as [s|] eqn:Es; [|done]. exists s. split; [done|].
    rewrite entryFromLua_fields in He by (eapply cell_read_wf; [apply Hh|done]). by injection He.
  - intros (s & Hs & ->). split; [done|]. exists node, r, (fields_of s). rewrite Hread, Hs. split_and!; [done..|].
    apply entryFromLua_fields. eapply cell_read_wf; [apply Hh|done].
Qed.

Lemma cell_read_age fp now x e s : cell_read fp (cell_age now x e) = Some s → cell_read fp x = Some s.
Proof. unfold cell_age. destruct e as [e|]; [|done]. by destruct (now <? e). Qed.

Lemma key_at_later w c key now now' x e l : now ≤ now' → key_at w c key now x e l →
  key_at w c key now' (cell_age now' x e) (exp_age now' e) (lease_age now' l).
Proof.
  intros Hle (node & r & Hp & Hn & Hh & Hl). exists node, r.
  split_and!; [done|done|by eapply holds_later|by eapply lease_holds_later].
Qed.

(** The pool after an operation on [key]. *)
Lemma pool_moves p key w' ts x' e' l' :
  client_wf p → key_ok key → inputs_ok ts (p_inputs p) → group_ok (ts (S (p_step p))) (w_breakers w') →
  key_at w' (p_client p) key (io_server (p_io p key)) x' e' l' →
  same_elsewhere (p_client p) key (io_server (p_io p key)) (p_world p) w' →
  let p' := mkPool (p_client p) (p_inputs p) w' (S (p_step p)) in
  client_wf p' ∧
  (∀ k ent, client_cached p' k ent → k ≠ key → client_cached p k ent) ∧
  ∀ ent, client_cached p' key ent → ∃ s, cell_read (cl_fingerprint (p_client p)) x' = Some s ∧ ent = entry_of s.
Proof.
  intros Hwf Hk Hin Hg Hat Hoth p'.
  assert (∀ k, io_server (p_io p k) ≤ io_server (p_io p' k)) as Hclock by (intros k; apply (in_server _ _ Hin)).
  assert (holds_at p' key (cell_age (io_server (p_io p' key)) x' e') (exp_age (io_server (p_io p' key)) e')
            (lease_age (io_server (p_io p' key)) l')) as Hat' by exact (key_at_later _ _ _ _ _ _ _ _ (Hclock key) Hat).
  assert (∀ k, k ≠ key → key_ok k → ∃ x e l, holds_at p k x e l ∧
    holds_at p' k (cell_age (io_server (p_io p' k)) x e) (exp_age (io_server (p_io p' k)) e) (lease_age (io_server (p_io p' k)) l))
    as Hothers.
  { intros k Hne Hkk. destruct (cw_keys _ Hwf k Hkk) as (x & e & l & Hx). exists x, e, l. split; [done|].
    apply (key_at_later _ _ _ _ _ _ _ _ (Hclock k)). destruct Hx as (node & r & Hp & Hn & Hh & Hl).
    destruct (Hoth node r Hn) as (r' & Hn' & Hsame & Hlook). exists node, r'. split_and!; [done|done| |].
    all: destruct (decide (Client_poolFor (p_client p) key = Ok node)) as [Heq|Hd]; [|by rewrite (Hsame Hd)].
    all: assert (p_io p key = p_io p k) as Hio by (unfold p_io; by rewrite Heq, Hp); rewrite Hio in Hlook.
    - destruct Hh as (? & Hlk & ?). split; [done|]. rewrite Hlook; [done|done|by apply leaseKey_not_ok].
    - unfold lease_holds. rewrite Hlook; [done| |].
      + intros He. by apply (leaseKey_not_ok key k).
      + intros He. apply Hne. by apply leaseKey_inj. }
  split_and!.
  - split; [apply Hwf|apply Hwf|by exists ts|]. intros k Hkk. destruct (decide (k = key)) as [->|Hne]; [by do 3 eexists|].
    destruct (Hothers k Hne Hkk) as (x & e & l & _ & Hx). by do 3 eexists.
  - intros k ent Hc Hne. pose proof (proj1 Hc) as Hkk. destruct (Hothers k Hne Hkk) as (x & e & l & Hx & Hx').
    apply (cached_at _ _ _ _ _ _ Hkk Hx') in Hc as (s & Hs & ->). apply (cached_at _ _ _ _ _ _ Hkk Hx).
    exists s. split; [|done]. by eapply cell_read_age.
  - intros ent Hc. apply (cached_at _ _ _ _ _ _ Hk Hat') in Hc as (s & Hs & ->). exists s. split; [|done]. by eapply cell_read_age.
Qed.

(** ** The laws *)

(** What an operation that takes the cell [x] to [x'] does to what is cached. *)
Definition cell_moves p key x x' p' : Prop :=
  let fp := cl_fingerprint (p_client p) in
  cell_wf x ∧
  (∀ s, cell_read fp x = Some s → client_cached p key (entry_of s)) ∧
  (∀ k ent, client_cached p' k ent →
     k ≠ key ∧ client_cached p k ent ∨ k = key ∧ ∃ s, cell_read fp x' = Some s ∧ ent = entry_of s).

Lemma on_client_law {A} p key (op : Client → io → M (World R) A) (Q : result A → cell → cell → Prop) :
  client_wf p → key_ok key →
  (∀ t t' x e l, group_ok t (w_breakers (p_world p)) → io_ok t (p_io p key) t' → no_panic (io_token (p_io p key)) →
     holds_at p key x e l →
     same_elsewhere (p_client p) key (io_server (p_io p key)) (p_world p) (op (p_client p) (p_io p key) (p_world p)).2 ∧
     ∃ r w' x' e' l', op (p_client p) (p_io p key) (p_world p) = (r, w') ∧ no_panic r ∧ group_ok t' (w_breakers w') ∧
       key_at w' (p_client p) key (io_server (p_io p key)) x' e' l' ∧ Q r x x') →
  wp (on_client key op) (λ r p', no_panic r ∧ client_wf p' ∧ ∃ x x', Q r x x' ∧ cell_moves p key x x' p') p.
Proof.
  intros Hwf Hk Hop. destruct (cw_inputs _ Hwf) as (ts & Hin & Hg). destruct (cw_keys _ Hwf key Hk) as (x & e & l & Hx).
  destruct (Hop (ts (p_step p)) (ts (S (p_step p))) x e l Hg (in_clock _ _ Hin _ _) (in_token _ _ Hin _ _) Hx)
    as (Hoth & r & w' & x' & e' & l' & Hrun & Hnp & Hg' & Hat & HQ).
  unfold wp, on_client. rewrite Hrun in Hoth |- *. cbn [fst snd] in *.
  destruct (pool_moves p key w' ts x' e' l' Hwf Hk Hin Hg' Hat Hoth) as (Hwf' & Hne & Hsame).
  split_and!; [done|done|]. exists x, x'. split; [done|]. split; [|split].
  - by destruct Hx as (? & ? & _ & _ & [? _] & _).
  - intros s Hs. apply (cached_at _ _ _ _ _ _ Hk Hx). by exists s.
  - intros k ent Hc. destruct (decide (k = key)) as [->|]; [right|left]; auto.
Qed.

Lemma key_at_or (b : bool) w w' c key now x e l x' e' l' :
  key_at w c key now x e l → (if b then key_at w' c key now x' e' l' else w_nodes w' = w_nodes w) →
  ∃ x1 e1 l1, key_at w' c key now x1 e1 l1 ∧ x1 = if b then x' else x.
Proof. intros Hx. destruct b; [intros ?|intros Hn]; do 3 eexists; (split; [|done]); [done|by eapply key_at_nodes]. Qed.

Lemma keeps_cached p key x p' : cell_moves p key x x p' → ∀ k ent, client_cached p' k ent → client_cached p k ent.
Proof. intros (_ & Hr & Hc) k ent He. destruct (Hc k ent He) as [[_ ?]|(-> & s & Hs & ->)]; [done|by apply Hr]. Qed.

Lemma poolFor_at w c key now x e l : key_at w c key now x e l → ∃ node, Client_poolFor c key = Ok node.
Proof. intros (node & _ & Hp & _). by exists node. Qed.

Lemma get_law p key : client_wf p → key_ok key →
  wp (on_client key (λ c i, Client_Get c i key)) (λ r p', no_panic r ∧ client_wf p' ∧ ∃ x x',
    (x' = x ∧ ∀ ent, r = Ok (Some ent) → ∃ s, cell_read (cl_fingerprint (p_client p)) x = Some s ∧ ent = entry_of s) ∧
    cell_moves p key x x' p') p.
Proof.
  intros Hwf Hk. apply (on_client_law p key _ (λ r x x', _ ∧ _) Hwf Hk). intros t t' x e l Hg Hio _ Hx.
  split; [by eapply get_elsewhere|]. destruct (poolFor_at _ _ _ _ _ _ _ Hx) as [node Hp].
  destruct (get_run (p_client p) (p_io p key) key (p_world p) x e l node t t' Hg Hio Hp Hx) as (ok & w' & _ & Hrun & Hn & Hg').
  do 2 eexists. exists x, e, l. split_and!; [exact Hrun| |done|by eapply key_at_nodes|done|].
  - intros ? Hr. destruct ok; [|done]. cbn in Hr. by destruct (io_fault _).
  - intros ent Hr. destruct ok; [|done]. cbn in Hr. destruct (io_fault _); [|done..].
    destruct (cell_read _ x) as [s|]; [|done]. injection Hr as <-. by exists s.
Qed.

Lemma fill_law p key ent token : client_wf p → key_ok key → is_u64 (RowVersion ent) → is_u64 (FillVersion ent) →
  wp (on_client key (λ c i, Client_FillWithLease c i key ent token)) (λ r p', no_panic r ∧ client_wf p' ∧ ∃ x x',
    (x' = x ∨ x' = cell_fill (stored_of (p_client p) ent) x) ∧ cell_moves p key x x' p') p.
Proof.
  intros Hwf Hk Hrv Hfv. apply (on_client_law p key _ (λ r x x', _ ∨ _) Hwf Hk). intros t t' x e l Hg Hio _ Hx.
  pose proof (cw_ttl _ Hwf) as Httl. split; [eapply fill_elsewhere; eauto using Milliseconds_pos|].
  destruct (poolFor_at _ _ _ _ _ _ _ Hx) as [node Hp].
  destruct (Client_FillWithLease_spec (p_client p) (p_io p key) key ent token (p_world p) x e l node t t' Hg Hio Hp Hrv Hfv Httl Hx)
    as (ok & w' & _ & Hrun & Hg' & Hnode).
  destruct (key_at_or _ _ _ _ _ _ _ _ _ _ _ _ Hx Hnode) as (x1 & e1 & l1 & Hx1 & Hcase).
  do 2 eexists. exists x1, e1, l1. split_and!; [exact Hrun| |done|done|].
  - intros ? Hr. destruct ok; [|done]. cbn in Hr. by destruct (fault_ok _).
  - rewrite Hcase. destruct (_ && _); [by right|by left].
Qed.

Lemma getorlease_law p key : client_wf p → key_ok key →
  wp (on_client key (λ c i, Client_GetOrLease c i key)) (λ r p', no_panic r ∧ client_wf p' ∧ ∃ x x',
    (x' = x ∧ ∀ ent, r = Ok (LeaseHit ent) → ∃ s, cell_read (cl_fingerprint (p_client p)) x = Some s ∧ ent = entry_of s) ∧
    cell_moves p key x x' p') p.
Proof.
  intros Hwf Hk. apply (on_client_law p key _ (λ r x x', _ ∧ _) Hwf Hk). intros t t' x e l Hg Hio Htok Hx.
  pose proof (cw_leaseTTL _ Hwf) as Httl. split; [eapply lease_elsewhere; eauto using Milliseconds_pos|].
  destruct (poolFor_at _ _ _ _ _ _ _ Hx) as [node Hp].
  destruct (io_token (p_io p key)) as [token|er|why] eqn:Et; [| |by destruct (Htok why)].
  - destruct (Client_GetOrLease_spec (p_client p) (p_io p key) key token (p_world p) x e l node t t' Hg Hio Hp Et Httl Hx)
      as (ok & w' & _ & Hrun & Hg' & Hnode).
    destruct (key_at_or _ _ _ _ _ _ _ _ _ _ _ _ Hx Hnode) as (x1 & e1 & l1 & Hx1 & Hcase).
    do 2 eexists. exists x1, e1, l1. split_and!; [exact Hrun| |done|done|by destruct (_ && _)|].
    + intros ? Hr. destruct ok; [|done]. cbn in Hr. by destruct (fault_ok _).
    + intros ent Hr. destruct ok; [|done]. cbn in Hr. destruct (fault_ok _); [|done].
      destruct (cell_read _ x) as [s|]; [|by destruct l]. injection Hr as <-. by exists s.
  - destruct (Allow_ok node (p_io p key) (p_world p) t t' Hg Hio) as (ok & w' & Ha & Hn & Hg').
    pose proof Hio as (_ & _ & ? & ?). destruct Hio as (? & ? & _ & _). pose proof Hg as [? _].
    assert (group_ok t' (w_breakers w')) as Hg2 by (eapply group_ok_later; [done|lia]).
    exists (if negb ok then Ok LeaseShed else Err er), w', x, e, l.
    split_and!; [|by destruct ok|done|by eapply key_at_nodes|done|by destruct ok].
    unfold Client_GetOrLease. rewrite (M_bind_run _ _ (p_world p) node (p_world p)) by (unfold M_lift; by rewrite Hp).
    rewrite (M_bind_run _ _ _ _ _ Ha). destruct ok; cbn [negb]; [|done]. apply M_bind_err. unfold M_lift. by rewrite Et.
Qed.

Lemma tombstone_law p key v : client_wf p → key_ok key → is_u64 v →
  wp (on_client key (λ c i, Client_Tombstone c i key v)) (λ r p', no_panic r ∧ client_wf p' ∧ ∃ x x',
    ((x' = x ∧ is_ok r = false) ∨ x' = cell_tombstone v x) ∧ cell_moves p key x x' p') p.
Proof.
  intros Hwf Hk Hv. apply (on_client_law p key _ (λ r x x', _ ∨ _) Hwf Hk). intros t t' x e l Hg Hio _ Hx.
  pose proof (cw_ttl _ Hwf) as Httl. split; [eapply tombstone_elsewhere; eauto using Milliseconds_pos|].
  destruct (tombstone_run (p_client p) (p_io p key) key v (p_world p) x e l t t' Hg Hio Hv Httl Hx)
    as (w' & Hrun & Hg' & Hnode).
  destruct (key_at_or _ _ _ _ _ _ _ _ _ _ _ _ Hx Hnode) as (x1 & e1 & l1 & Hx1 & Hcase).
  do 2 eexists. exists x1, e1, l1. split_and!; [exact Hrun| |done|done|].
  - intros ? Hr. by destruct (fault_ok _).
  - rewrite Hcase. destruct (io_fault _); by (right + left).
Qed.

Lemma client_laws : CacheLaws (Pool R) client_cached client_wf key_ok.
Proof.
  assert (∀ p key ent token, client_wf p → key_ok key → is_u64 (RowVersion ent) → is_u64 (FillVersion ent) →
    wp (on_client key (λ c i, Client_FillWithLease c i key ent token)) (λ r p', no_panic r ∧ client_wf p' ∧
      ∀ k' e', client_cached p' k' e' → client_cached p k' e' ∨ k' = key ∧ e' = as_read ent) p) as Hfill.
  { intros p key ent token Hwf Hk Hr Hf. eapply wp_mono; [by apply fill_law|].
    intros r p' (Hnp & Hwf' & x & x' & Hx & Hm). split_and!; [done|done|]. intros k' e' Hc.
    destruct Hx as [->| ->]; [left; by eapply keeps_cached|].
    destruct Hm as (_ & Hread & Hm). destruct (Hm k' e' Hc) as [[_ ?]|(-> & s & Hs & ->)]; [by left|].
    destruct (cell_fill_read _ _ _ _ Hs) as [Hold| ->]; [left; by apply Hread|by right]. }
  split.
  - intros p key Hwf Hk. eapply wp_mono; [by apply get_law|]. intros r p' (Hnp & Hwf' & x & x' & [-> Hr] & Hm).
    split_and!; [done|done|by eapply keeps_cached|]. intros ent He. destruct (Hr ent He) as (s & Hs & ->). by apply Hm.
  - intros p key Hwf Hk. eapply wp_mono; [by apply getorlease_law|]. intros r p' (Hnp & Hwf' & x & x' & [-> Hr] & Hm).
    split_and!; [done|done|by eapply keeps_cached|]. intros ent He. destruct (Hr ent He) as (s & Hs & ->). by apply Hm.
  - intros p key ent Hwf Hk. by apply Hfill.
  - intros p key ent token Hwf Hk. by apply Hfill.
  - intros p key v Hwf Hk Hv. eapply wp_mono; [by apply tombstone_law|].
    intros r p' (Hnp & Hwf' & x & x' & Hx & Hm). destruct Hx as [[-> Her]| ->].
    { split_and!; [done|done|by eapply keeps_cached|by rewrite Her]. }
    destruct Hm as (Hcwf & Hread & Hm). split_and!; [done|done| |].
    + intros k' e' Hc. destruct (Hm k' e' Hc) as [[_ ?]|(-> & s & Hs & ->)]; [done|].
      apply Hread. by destruct (cell_tombstone_read _ _ _ _ Hcwf Hs).
    + intros _ ent Hc. destruct (Hm key ent Hc) as [[? _]|(_ & s & Hs & ->)]; [done|].
      by destruct (cell_tombstone_read _ _ _ _ Hcwf Hs).
Qed.
End pool.

(** ** A new client *)

(** The configured probability bounds do not depend on when a breaker is made. *)
Lemma breaker_New_anytime opts now now' b : breaker_New opts now = Ok b → is_ok (breaker_New opts now') = true.
Proof. unfold breaker_New. intros Hb. by repeat case_match. Qed.

(** A client [New] made, over nodes that hold nothing, before its first call. *)
Inductive new_pool {R} `{Redis R} : Pool R → Prop :=
  new_pool_intro opts now ping c g inputs nodes ts :
    cache_New opts now ping = Ok (c, g) →
    1000000 ≤ co_TTL opts → (co_LeaseTTL opts ≤ 0 ∨ 1000000 ≤ co_LeaseTTL opts) →
    Buckets (co_Breaker opts) ≤ Window (co_Breaker opts) →
    inputs_ok ts inputs → 0 ≤ ts 0%nat < 2 ^ 62 →
    (∀ addr, addr ∈ co_Addresses opts → ∃ r, nodes !! addr = Some r ∧ ∀ t k, look r t k = None) →
    new_pool (mkPool c inputs (mkWorld nodes g) 0).

Lemma cache_New_fields opts now ping c g : cache_New opts now ping = Ok (c, g) →
  cl_ttl c = co_TTL opts ∧ cl_leaseTTL c = (if co_LeaseTTL opts <=? 0 then DefaultLeaseTTL else co_LeaseTTL opts) ∧
  g_breakers g = ∅ ∧ (∀ t, is_ok (breaker_New (g_opts g) t) = true) ∧
  g_opts g = (if (Window (co_Breaker opts) =? 0) && (Buckets (co_Breaker opts) =? 0) then DefaultBreaker else co_Breaker opts).
Proof.
  unfold cache_New. case_bool_decide; [done|]. destruct (co_TTL opts <=? 0); [done|].
  intros (router & _ & (br & Hb & (pools & _ & [= <- <-])%result_bind_ok)%result_bind_ok)%result_bind_ok.
  unfold NewGroup in Hb. apply result_bind_ok in Hb as (b & Hb & [= <-]). cbn. split_and!; [done..| |done].
  intros t. by eapply breaker_New_anytime.
Qed.

Section new.
Context {R : Type} `{RedisLaws R}.
Implicit Types p : Pool R.

Lemma new_holds p key : new_pool p → key_ok key → holds_at p key cell_empty None None.
Proof.
  intros [opts now ping c g inputs nodes ts Hnew _ _ _ _ _ Hempty] [Hne _].
  destruct (cache_New_ready _ _ _ _ _ key Hnew Hne) as (_ & _ & _ & node & Hp & Hin & _).
  destruct (Hempty node Hin) as (r & Hr & Hlook). exists node, r. split_and!; [done|done| |apply Hlook].
  split_and!; [apply cell_empty_wf| |done]. by rewrite Hlook, bool_decide_eq_true_2.
Qed.

Lemma new_pool_wf p : new_pool p → client_wf p ∧ ∀ key ent, ¬ client_cached p key ent.
Proof.
  intros Hnew. split.
  - split; [| | |intros key Hk; do 3 eexists; by apply new_holds].
    all: destruct Hnew as [opts now ping c g inputs nodes ts Hnew Httl Hlttl Hb Hin Hts _].
    all: destruct (cache_New_fields _ _ _ _ _ Hnew) as (H1 & H2 & H3 & H4 & H5); cbn.
    + by rewrite H1.
    + rewrite H2. unfold DefaultLeaseTTL. destruct (Z.leb_spec (co_LeaseTTL opts) 0); lia.
    + exists ts. split; [done|]. split_and!; [lia|lia|done| |by rewrite H3].
      rewrite H5. by destruct (_ && _).
  - intros key ent Hc. pose proof (proj1 Hc) as Hk.
    apply (cached_at _ _ _ _ _ _ Hk (new_holds p key Hnew Hk)) in Hc as (s & Hs & _). done.
Qed.
End new.

(** ** The engine over its clients *)

Section deployment.
Context {R D : Type} `{RedisLaws R} `{Mysql D}.
Context (e : Engine) (t : table) (tab : Table) (tbl : D → gmap (list string) cells)
  (sel : D → Predicate → list sqlarg → list (list string)).
Context `{!MysqlLaws D tab tbl sel}.
#[local] Existing Instance client_laws.

Lemma serving_keys key : serving (λ _, True) e t tab → Engine_tableFor e key = Ok t → key_ok (Key_String key).
Proof.
  intros Hserv Ht. destruct (tableFor_key _ _ _ Ht) as (_ & _ & Hkey & Hlen).
  destruct (sv_ok _ _ _ _ Hserv) as [Hd _]. rewrite (sv_d _ _ _ _ Hserv) in Hd. apply Key_String_ok.
  - rewrite Hkey. apply Hd.
  - intros Hn. rewrite Hn in Hlen. assert (d_PrimaryKey (tb_d t) ≠ []) as Hne by apply Hd.
    by destruct (d_PrimaryKey (tb_d t)).
Qed.

Lemma serving_client : serving (λ _, True) e t tab → serving key_ok e t tab.
Proof. intros Hserv. pose proof (λ key, serving_keys key Hserv) as Hk. destruct Hserv. by split. Qed.

(** An engine that has just booted over connected shards and new clients. *)
Record booted (w : EngineW (Pool R) D) : Prop := {
  bt_cache : ∀ p, ew_cache w = Some p → new_pool p;
  bt_gutter : ∀ p, ew_gutter w = Some p → new_pool p;
  bt_ready : ∀ id sw, ew_shards w !! id = Some sw → shard_ready sw;
  bt_shards : ∀ id s, tb_shards t !! id = Some s → is_Some (ew_shards w !! id);
}.

Lemma booted_fresh w : booted w → fresh client_cached client_wf t w.
Proof.
  intros [Hc Hg Hr Hs]. split_and!; [|intros gp k en Hin|done|done].
  - split; intros p Hp; apply new_pool_wf; auto.
  - destruct gp; destruct Hin as (p & Hp & Hin); [apply Hg in Hp|apply Hc in Hp]; by apply new_pool_wf in Hp as [_ Hno]; eapply Hno.
Qed.


End deployment.

(** ** Witnesses *)

Definition still : io := mkIO 5 (5, 5) (5, 5) f_zero 1000 Answered (Ok "tok").

(** A client over one empty node, in a world that stands still. *)
Definition demo_pool : Pool mem := mkPool demo_client (λ _ _, still) demo_world 0.

Lemma demo_new_pool : new_pool demo_pool.
Proof.
  eapply (new_pool_intro demo_cache_opts 0 (λ _, Ok tt) demo_client (mkGroup DefaultBreaker ∅) (λ _ _, still) {["n1" := ∅]} (λ _, 5)).
  - vm_compute. reflexivity.
  - vm_compute. congruence.
  - left. vm_compute. congruence.
  - vm_compute. congruence.
  - split; intros; [unfold io_ok; cbn; lia|cbn; lia|done].
  - cbn. lia.
  - intros addr Ha. apply list_elem_of_singleton in Ha as ->. exists ∅. split; [done|]. intros now k. done.
Qed.


Section demo.
#[local] Instance deployed_mysql : Mysql (gmap (list string) cells) := mem_mysql users_t.
#[local] Instance deployed_mysql_laws : MysqlLaws _ users_t (mem_tbl users_t) (mem_sel users_t) := users_laws.

Definition deployed : EngineW (Pool mem) (gmap (list string) cells) :=
  mkEngineW {["s0" := users_w]} (Some demo_pool) (Some demo_pool) None (NewToken 64).

Lemma deployed_booted : booted demo_t deployed.
Proof.
  split.
  - intros p [= <-]. apply demo_new_pool.
  - intros p [= <-]. apply demo_new_pool.
  - intros id sw Hl. cbn in Hl. apply lookup_singleton_Some in Hl as [<- <-]. split; [|done].
    vm_compute. intuition congruence.
  - intros id s Hl. cbn in Hl. apply lookup_singleton_Some in Hl as [<- _]. by eexists.
Qed.

Definition deployed_put : result Z * EngineW (Pool mem) (gmap (list string) cells) :=
  Engine_PutRow demo_e (users_io 0) (0, 0) user1 demo_row (with_token (NewToken 64) deployed).

(** The put, a read that fills the cache, and the read of the session that wrote. *)
Definition deployed_read : result RowResult * EngineW (Pool mem) (gmap (list string) cells) :=
  let w := deployed_put.2 in Engine_GetRow demo_e demo_read user1 session_read (with_token (ew_token w) w).

Lemma deployed_sized (w : EngineW (Pool mem) (gmap (list string) cells)) :
  forallb (λ c, str_len (default "" c) <? 2 ^ 63)
    (default [] (mem_tbl users_t (sw_db (default users_w (ew_shards w !! "s0"))) !! ["1"])) = true →
  ∀ sw2, ew_shards w !! "s0" = Some sw2 → sized (mem_tbl users_t (sw_db sw2) !! key_Values user1).
Proof. intros Hb sw2 Hs. rewrite Hs in Hb. by apply sized_row. Qed.

Lemma deployed_read_ok : is_ok deployed_read.1 = true.
Proof. vm_compute. reflexivity. Qed.

Definition put_versions : versions := changes (mem_tbl users_t) deployed deployed_put.2 never.
Definition read_versions : versions := changes (mem_tbl users_t) deployed_put.2 deployed_read.2 put_versions.

Lemma deployed_runs :
  runs demo_e (mem_tbl users_t) deployed_put.2 put_versions deployed_read.2 read_versions.
Proof.
  apply (runs_step _ _ _ _ (ew_token deployed_put.2) (OpGet demo_read user1 session_read) deployed_read.2); [|apply runs_nil].
  change (survived deployed_read = Some deployed_read.2). unfold survived. pose proof deployed_read_ok as Hok.
  by destruct deployed_read.1.
Qed.

End demo.
