(* ===== verification/UpdateSpec.v ===== *)
(** Conditional writes across shards: what [UpdateRowsWhere] of Engine.v does.

    The engine visits the shards of the table in order, each committing on its
    own; what one shard does is Storage.v's [Shard_UpdateWhere].  Here: what the
    whole sweep does to rows, pools and session, and what its answer means. *)

From S2P Require Import LuaCache.
From S2P Require Import Prelude GoStd Hlc Ring Consistency Freshness Schema Row Table Mysql Storage Admission CacheClient Engine EngineSpec.
From S2P Require Import RefCache Sessions.

Local Open Scope Z_scope.

Lemma wp_bind_run {S A B} (m : M S A) (f : A → M S B) Q s a s1 :
  m s = (Ok a, s1) → wp (f a) Q s1 → wp (m ≫= f) Q s.
Proof. intros Hm Hf. unfold wp. by rewrite (M_bind_run _ _ _ _ _ Hm). Qed.

Section update.
Context {C D : Type} `{Cache C} `{Mysql D}.
Context (cached : C → string → Entry → Prop) (cwf : C → Prop) (kok : string → Prop).
Context `{!CacheLaws C cached cwf kok}.
Context (e : Engine) (t : table) (tab : Table) (tbl : D → gmap (list string) cells)
  (sel : D → Predicate → list sqlarg → list (list string)).
Context `{!MysqlLaws D tab tbl sel}.
Implicit Types w : EngineW C D.

(** ** One shard after another *)

(** The shards of [ids] were visited in order and answered [rs]. *)
Inductive swept (ios : string → write_io) (name : string) (match_ set : list ColumnValue) :
    list string → gmap string (ShardW D) → list UpdateResult → gmap string (ShardW D) → Prop :=
  | swept_nil m : swept ios name match_ set [] m [] m
  | swept_cons id ids shard sw res sw' rs m m' :
      tb_shards t !! id = Some shard → m !! id = Some sw →
      Shard_UpdateWhere shard (ios id) name match_ set (e_maxAffectedKeys e) sw = (Ok res, sw') →
      swept ios name match_ set ids (<[id := sw']> m) rs m' →
      swept ios name match_ set (id :: ids) m (res :: rs) m'.

(** The keys of a shard that stayed within its budget. *)
Definition exact_keys (res : UpdateResult) : list string :=
  if ur_Degraded res then [] else Key_String <$> ur_AffectedKeys res.

Definition sum_up (out : UpdateOutcome) (res : UpdateResult) : UpdateOutcome :=
  mkUpdateOutcome
    (if 0 <? ur_Matched res then u64 (uo_Matched out + u64 (ur_Matched res)) else uo_Matched out)
    (uo_AffectedKeys out ++ exact_keys res)
    (uo_Degraded out || ur_Degraded res)
    (if (0 <? ur_Version res) && (uo_Newest out <? ur_Version res) then ur_Version res else uo_Newest out).

Definition observe_all (tok : Token) (visits : list (string * UpdateResult)) : Token :=
  foldl (λ tok '(id, res), if 0 <? ur_Version res then Token_Advance id (ur_Version res) tok else tok) tok visits.

(** Pools that only lost entries, and the keys invalidated on the way. *)
Definition invalidated (keys : list (string * Z)) w w' : Prop :=
  pools_wf cwf w' ∧
  (∀ k en, in_cache cached w' k en → in_cache cached w k en) ∧
  (∀ k en, in_gutter cached w' k en → in_gutter cached w k en) ∧
  ∀ k v, (k, v) ∈ keys → ∃ w1, tombstoned cached e k v w1 w'.

Lemma tombstoned_later k v w1 w2 w3 :
  tombstoned cached e k v w1 w2 → (∀ k en, in_cache cached w3 k en → in_cache cached w2 k en) →
  (∀ k en, in_gutter cached w3 k en → in_gutter cached w2 k en) → tombstoned cached e k v w1 w3.
Proof.
  intros Ht Hc Hg Hs c Hw. specialize (Ht Hs c Hw). destruct (is_ok _).
  - intros en Hin. by apply Ht, Hc.
  - intros g Hgw Hok en Hin. by apply (Ht g Hgw Hok), Hg.
Qed.

Lemma invalidated_trans ks1 ks2 w1 w2 w3 :
  invalidated ks1 w1 w2 → invalidated ks2 w2 w3 → invalidated (ks1 ++ ks2) w1 w3.
Proof.
  intros (H1 & H2 & H3 & H4) (G1 & G2 & G3 & G4). split_and!; [done|by eauto|by eauto|].
  intros k v [Hin|Hin]%elem_of_app; [|by apply G4].
  destruct (H4 k v Hin) as [w0 Ht]. exists w0. by eapply tombstoned_later.
Qed.

Lemma frame_pools w w' : frame cached cwf nothing w w' → invalidated [] w w'.
Proof.
  intros Hf. split_and!; [apply Hf| | |by intros ? ? ?%elem_of_nil].
  - intros k en Hin. by destruct (fm_in_cache _ _ _ _ _ Hf k en Hin).
  - intros k en Hin. by destruct (fm_in_gutter _ _ _ _ _ Hf k en Hin).
Qed.

(** Everything but the pools is as it was. *)
Definition same_rest w w' : Prop :=
  ew_shards w' = ew_shards w ∧ ew_token w' = ew_token w ∧ is_some (ew_admission w') = is_some (ew_admission w).

Lemma invalidate_all_wp ats keys v : ∀ acc w,
  pools_wf cwf w → (∀ k, k ∈ keys → kok (Key_String k)) → is_u64 v →
  wp (invalidate_all e ats keys v acc) (λ r w',
    match r with
    | Ok ks => ks = acc ++ (Key_String <$> keys) ∧ same_rest w w' ∧
               invalidated ((λ k, (Key_String k, v)) <$> keys) w w'
    | Err _ => False
    | Panic _ => is_some (ew_admission w) = true
    end) w.
Proof.
  induction keys as [|k keys IH]; intros acc w Hwf Hk Hv; cbn [invalidate_all].
  { apply wp_ret. split; [by rewrite app_nil_r|]. split; [done|]. by apply frame_pools, frame_refl. }
  apply wp_bind. eapply wp_mono.
  { apply (invalidate_wp cached cwf kok e); [done|apply Hk; left|done]. }
  intros r w1 [Hf Hr]. destruct r as [[]|er|p]; [|done|done].
  eapply wp_mono; [apply IH; [apply Hf|intros k' Hk'; apply Hk; by right|done]|].
  intros r w2. destruct r as [ks|er|p]; [|done|by rewrite (fm_admission _ _ _ _ _ Hf)].
  intros (-> & (R1 & R2 & R3) & Hinv). split; [by rewrite <-app_assoc|]. split.
  { unfold same_rest. by rewrite R1, R2, R3, (fm_shards _ _ _ _ _ Hf), (fm_token _ _ _ _ _ Hf), (fm_admission _ _ _ _ _ Hf). }
  rewrite fmap_cons. change (?x :: ?l) with ([x] ++ l). eapply invalidated_trans; [|exact Hinv].
  destruct (frame_pools _ _ Hf) as (H1 & H2 & H3 & _). split_and!; [done..|].
  intros k' v' [= -> ->]%list_elem_of_singleton. by exists w.
Qed.

(** *** The sweep *)

(** The keys invalidated by a sweep, each at its shard's version. *)
Definition swept_keys (rs : list UpdateResult) : list (string * Z) :=
  mjoin ((λ res, (λ k, (k, ur_Version res)) <$> exact_keys res) <$> rs).

Definition all_ready (m : gmap string (ShardW D)) : Prop := ∀ id sw, m !! id = Some sw → shard_ready sw.

(** What a shard's answer has to satisfy for the pools' laws to apply. *)
Definition shard_answers (ios : string → write_io) (name : string) (match_ set : list ColumnValue) : Prop :=
  ∀ id shard sw res sw', tb_shards t !! id = Some shard → shard_ready sw →
    Shard_UpdateWhere shard (ios id) name match_ set (e_maxAffectedKeys e) sw = (Ok res, sw') →
    shard_ready sw' ∧ is_u64 (ur_Version res) ∧ ∀ k, k ∈ ur_AffectedKeys res → kok (Key_String k).

(** The sweep stopped at a shard: those before it are committed. *)
Definition stopped ios name match_ set ids (m m' : gmap string (ShardW D)) (er : error) : Prop :=
  ∃ ids1 id ids2 rs mid, ids = ids1 ++ id :: ids2 ∧ swept ios name match_ set ids1 m rs mid ∧
    ((tb_shards t !! id = None ∧ m' = mid) ∨
     ∃ shard sw er' sw', tb_shards t !! id = Some shard ∧ mid !! id = Some sw ∧
       Shard_UpdateWhere shard (ios id) name match_ set (e_maxAffectedKeys e) sw = (Err er', sw') ∧
       m' = <[id := sw']> mid ∧
       er = if errors_Is er' ErrInvalidPredicate then Join (Sentinel ErrInvalidRequest) er' else er').

Definition sweep_panics ios name match_ set : Prop :=
  ∃ id shard sw p sw', tb_shards t !! id = Some shard ∧ shard_ready sw ∧
    Shard_UpdateWhere shard (ios id) name match_ set (e_maxAffectedKeys e) sw = (Panic p, sw').

Definition sweep_post ios name match_ set ids (out : UpdateOutcome) w (r : result UpdateOutcome) w' : Prop :=
  match r with
  | Ok out' => ∃ rs, swept ios name match_ set ids (ew_shards w) rs (ew_shards w') ∧
      out' = foldl sum_up out rs ∧ ew_token w' = observe_all (ew_token w) (zip ids rs) ∧
      invalidated (swept_keys rs) w w'
  | Err er => stopped ios name match_ set ids (ew_shards w) (ew_shards w') er
  | Panic _ => is_some (ew_admission w) = true ∨ sweep_panics ios name match_ set
  end.

(** One shard's part of the loop, after its answer: the session and the pools. *)
Definition visit_done (id : string) (res : UpdateResult) (out out' : UpdateOutcome) w w' : Prop :=
  ew_shards w' = ew_shards w ∧ is_some (ew_admission w') = is_some (ew_admission w) ∧
  ew_token w' = observe_all (ew_token w) [(id, res)] ∧ invalidated (swept_keys [res]) w w' ∧ out' = sum_up out res.

Lemma stopped_cons ios name match_ set id ids shard sw res sw' m m' er :
  tb_shards t !! id = Some shard → m !! id = Some sw →
  Shard_UpdateWhere shard (ios id) name match_ set (e_maxAffectedKeys e) sw = (Ok res, sw') →
  stopped ios name match_ set ids (<[id := sw']> m) m' er → stopped ios name match_ set (id :: ids) m m' er.
Proof.
  intros Hs Hm Hu (ids1 & id' & ids2 & rs & mid & -> & Hsw & Hr).
  exists (id :: ids1), id', ids2, (res :: rs), mid. split_and!; [done| |done]. by eapply swept_cons.
Qed.

Lemma sweep_cons ios name match_ set id ids shard sw res sw' out out1 w w1 r w' :
  tb_shards t !! id = Some shard → ew_shards w !! id = Some sw →
  Shard_UpdateWhere shard (ios id) name match_ set (e_maxAffectedKeys e) sw = (Ok res, sw') →
  visit_done id res out out1 (with_shard id sw' w) w1 → sweep_post ios name match_ set ids out1 w1 r w' →
  sweep_post ios name match_ set (id :: ids) out w r w'.
Proof.
  intros Hs Hm Hu (V1 & V2 & V3 & V4 & ->) Hr. cbn in V1, V2, V3. destruct r as [out'|er|p]; cbn in *.
  - destruct Hr as (rs & Hsw & -> & Htok & Hinv). exists (res :: rs). rewrite V1 in Hsw. split_and!.
    + by eapply swept_cons.
    + done.
    + rewrite Htok, V3. done.
    + change (swept_keys (res :: rs)) with (((λ k, (k, ur_Version res)) <$> exact_keys res) ++ swept_keys rs).
      eapply invalidated_trans; [|exact Hinv]. unfold swept_keys in V4. cbn in V4. by rewrite app_nil_r in V4.
  - eapply stopped_cons; [done..|]. by rewrite <-V1.
  - destruct Hr as [Hr|Hr]; [left; congruence|by right].
Qed.

Lemma update_shards_wp ios ats name match_ set ids : ∀ out w,
  shard_answers ios name match_ set → pools_wf cwf w → all_ready (ew_shards w) →
  (∀ id, id ∈ ids → is_Some (ew_shards w !! id)) →
  wp (update_shards e ios ats t name match_ set ids out) (sweep_post ios name match_ set ids out w) w.
Proof.
  induction ids as [|id ids IH]; intros out w Hans Hwf Hrd Hst; cbn [update_shards].
  { apply wp_ret. exists []. split_and!; [constructor|done|done|]. by apply frame_pools, frame_refl. }
  destruct (tb_shards t !! id) as [shard|] eqn:Hs.
  2: { apply wp_fail. exists [], id, ids, [], (ew_shards w). split_and!; [done|constructor|by left]. }
  destruct (Hst id) as [sw Hsw]; [left|].
  apply wp_bind, wp_try. apply (on_shard_wp _ _ _ _ sw Hsw). intros r sw' Hu.
  destruct r as [res|er|p].
  2: { apply wp_fail. exists [], id, ids, [], (ew_shards w). split_and!; [done|constructor|].
       right. exists shard, sw, er, sw'. done. }
  2: { right. exists id, shard, sw, p, sw'. split_and!; [done|by eapply Hrd|done]. }
  destruct (Hans _ _ _ _ _ Hs (Hrd _ _ Hsw) Hu) as (Hrd' & Hv & Hk).
  set (newest := if (0 <? ur_Version res) && (uo_Newest out <? ur_Version res) then ur_Version res else uo_Newest out).
  set (w1 := with_token (observe_all (ew_token w) [(id, res)]) (with_shard id sw' w)).
  eapply (wp_bind_run _ _ _ _ newest w1).
  { subst newest w1. unfold observe_all. cbn [foldl]. destruct (0 <? ur_Version res); [|by destruct w].
    cbn [andb]. unfold Advance. mrun. done. }
  assert (all_ready (ew_shards w1)) as Hrd1.
  { intros id' sw0. cbn. intros [[<- <-]|[_ Hl]]%lookup_insert_Some; [done|by eapply Hrd]. }
  assert (∀ id', id' ∈ ids → is_Some (ew_shards w1 !! id')) as Hst1.
  { intros id' Hin. cbn. destruct (decide (id' = id)) as [->|]; [rewrite lookup_insert_eq; by eexists|].
    rewrite lookup_insert_ne by done. apply Hst. by right. }
  assert (∀ out1 w2, visit_done id res out out1 (with_shard id sw' w) w2 →
    wp (update_shards e ios ats t name match_ set ids out1)
       (sweep_post ios name match_ set (id :: ids) out w) w2) as Hnext.
  { intros out1 w2 Hd. pose proof Hd as (V1 & V2 & V3 & V4 & V5).
    eapply wp_mono; [apply IH; [done|apply V4|by rewrite V1|by rewrite V1]|].
    intros r w' Hp. by eapply sweep_cons. }
  destruct (ur_Degraded res) eqn:Hdeg.
  - apply Hnext. split_and!; [done..| |].
    + unfold swept_keys, exact_keys. cbn. rewrite Hdeg. exact (frame_pools w1 w1 (frame_refl _ _ _ w1 Hwf)).
    + unfold sum_up, exact_keys. by rewrite Hdeg, app_nil_r, orb_true_r.
  - apply wp_bind. eapply wp_mono; [by apply (invalidate_all_wp (ats id) (ur_AffectedKeys res) (ur_Version res))|].
    intros r w2. destruct r as [ks|er|p]; [|done|by left].
    intros (-> & (R1 & R2 & R3) & Hinv). apply Hnext. split_and!; [by rewrite R1|by rewrite R3|by rewrite R2| |].
    + unfold swept_keys, exact_keys. cbn. rewrite Hdeg, app_nil_r. by rewrite <-list_fmap_compose.
    + unfold sum_up, exact_keys. by rewrite Hdeg, orb_false_r.
Qed.


(** ** The whole write *)

Lemma swept_rest ios name match_ set ids m rs m' id :
  swept ios name match_ set ids m rs m' → id ∉ ids → m' !! id = m !! id.
Proof.
  induction 1 as [|id0 ids shard sw res sw' rs m m' _ _ _ _ IH]; [done|]. intros [Hne Hin]%not_elem_of_cons.
  rewrite (IH Hin). by rewrite lookup_insert_ne.
Qed.

Lemma swept_each ios name match_ set ids m rs m' :
  swept ios name match_ set ids m rs m' → NoDup ids →
  ∀ m0 m1 : gmap string (ShardW D), (∀ id, id ∈ ids → m0 !! id = m !! id ∧ m1 !! id = m' !! id) →
  Forall2 (λ id res, ∃ shard sw sw', tb_shards t !! id = Some shard ∧ m0 !! id = Some sw ∧
    Shard_UpdateWhere shard (ios id) name match_ set (e_maxAffectedKeys e) sw = (Ok res, sw') ∧ m1 !! id = Some sw') ids rs.
Proof.
  induction 1 as [m|id ids shard sw res sw' rs m m' Hs Hm Hu Hsw IH]; intros Hnd m0 m1 Heq; [constructor|].
  apply NoDup_cons in Hnd as [Hnot Hnd]. destruct (Heq id) as [H0' H1']; [left|]. constructor.
  - exists shard, sw, sw'. rewrite H0', H1', (swept_rest _ _ _ _ _ _ _ _ _ Hsw Hnot), lookup_insert_eq. done.
  - apply (IH Hnd). intros id' Hin. destruct (Heq id') as [-> ->]; [by right|].
    by rewrite lookup_insert_ne by (by intros ->).
Qed.

Lemma sum_up_all rs : ∀ out, is_u64 (uo_Matched out) →
  let out' := foldl sum_up out rs in
  uo_Degraded out' = uo_Degraded out || existsb ur_Degraded rs ∧
  uo_AffectedKeys out' = uo_AffectedKeys out ++ mjoin (exact_keys <$> rs) ∧
  ((∀ res, res ∈ rs → 0 ≤ ur_Matched res < 2 ^ 63) →
   uo_Matched out' = u64 (uo_Matched out + foldr Z.add 0 (ur_Matched <$> rs))).
Proof.
  induction rs as [|res rs IH]; intros out Hu; cbn [foldl].
  { cbn. rewrite orb_false_r, app_nil_r, Z.add_0_r. split_and!; [done..|]. intros _. by rewrite u64_id. }
  assert (is_u64 (uo_Matched (sum_up out res))) as Hu1.
  { cbn. destruct (0 <? _); [apply u64_is|done]. }
  destruct (IH _ Hu1) as (H1 & H2 & H3). cbv zeta in *. rewrite H1, H2. split_and!.
  - cbn. by rewrite orb_assoc.
  - cbn. by rewrite app_assoc.
  - intros Hm. rewrite H3 by (intros r' Hr'; apply Hm; by right). cbn.
    assert (0 ≤ ur_Matched res < 2 ^ 63) as Hr by (apply Hm; left).
    destruct (Z.ltb_spec 0 (ur_Matched res)).
    + rewrite (u64_id (ur_Matched res)) by (unfold is_u64; lia). unfold u64. rewrite Zplus_mod_idemp_l. f_equal. lia.
    + f_equal. lia.
Qed.

Section write.
Context (Hserv : serving kok e t tab) (Hpk : length (d_PrimaryKey (t_d tab)) = 1%nat).
Context (ios : string → write_io) (match_ set : list ColumnValue) (p : Predicate) (args sargs : list sqlarg).
Context (Hp : Table_Predicate tab (cv_Column <$> match_) (cv_Column <$> set) = Ok p)
  (Hargs : argsInDeclaredOrder (ps_Match (p_spec p)) match_ = Ok args)
  (Hsargs : argsInDeclaredOrder (ps_Set (p_spec p)) set = Ok sargs)
  (Hmax : 0 < e_maxAffectedKeys e < 2 ^ 63 - 1).

Notation name := (d_Name (tb_d t)).
Notation max := (e_maxAffectedKeys e).

(** The rows a shard's predicate matches. *)
Definition matching (sw : ShardW D) : list (list string) := sel (sw_db sw) p args.

Lemma shard_outcome id shard sw r sw' :
  tb_shards t !! id = Some shard → shard_ready sw →
  Shard_UpdateWhere shard (ios id) name match_ set max sw = (r, sw') →
  update_outcome tab tbl sel p args max (ios id) sw (r, sw').
Proof.
  intros Hs [Hwf Htx] Hu. destruct (sv_shards _ _ _ _ Hserv id shard Hs) as [_ Htab].
  rewrite <-(sv_d _ _ _ _ Hserv) in Htab, Hu. rewrite <-Hu.
  by apply (update_spec shard tab tbl sel Hpk (ios id) match_ set p args sargs).
Qed.

Lemma matching_kok sw k : k ∈ matching sw → kok (Key_String (mkKey name k)).
Proof.
  intros Hk. apply (sv_kok _ _ _ _ Hserv). unfold Engine_tableFor.
  rewrite (sv_only _ _ _ _ Hserv), lookup_singleton_eq. cbn.
  assert (p ∈ t_predicates tab) as Hin.
  { unfold Table_Predicate in Hp. destruct (List.find _ _) as [p'|] eqn:Ef; [|done].
    apply Ok_inj in Hp as <-. apply List.find_some in Ef as [Hin _]. by apply list_elem_of_In. }
  destruct (my_sel (sw_db sw) p args Hin) as [_ Hall]. destruct (Hall k Hk) as [r Hr].
  destruct (my_rows_wf _ _ _ Hr) as (_ & _ & Hf & _). unfold key_fits in Hf.
  rewrite (sv_d _ _ _ _ Hserv) in Hf. by rewrite Hf.
Qed.

Lemma answers_ok : shard_answers ios name match_ set.
Proof.
  intros id shard sw res sw' Hs Hrd Hu. pose proof (shard_outcome _ _ _ _ _ Hs Hrd Hu) as [Hdone Hres].
  destruct Hdone as (Htx & Hc & _ & Hv & _). split_and!.
  - split; [by rewrite Hc|done].
  - done.
  - destruct (max <? _); [destruct Hres as [_ ->]; by intros k ?%elem_of_nil|].
    destruct Hres as (_ & _ & ->). intros k (x & -> & Hx)%list_elem_of_fmap.
    rewrite (sv_d _ _ _ _ Hserv). by eapply (matching_kok sw).
Qed.

(** One shard's part of an acknowledged write. *)
Definition shard_written (m m' : gmap string (ShardW D)) (id : string) (res : UpdateResult) : Prop :=
  ∃ sw sw', m !! id = Some sw ∧ m' !! id = Some sw' ∧
    update_done tab tbl sel p args sw max (ur_Version res) sw' ∧
    if max <? Z.of_nat (length (matching sw)) then ur_Degraded res = true ∧ exact_keys res = []
    else ur_Degraded res = false ∧ ur_Matched res = Z.of_nat (length (matching sw)) ∧
         exact_keys res = (λ k, Key_String (mkKey name k)) <$> matching sw.

Lemma swept_written m m1 m' ids rs :
  all_ready m → NoDup ids → swept ios name match_ set ids m rs m' → (∀ id, id ∈ ids → m1 !! id = m' !! id) →
  Forall2 (shard_written m m1) ids rs.
Proof.
  intros Hrd Hnd Hsw Heq. eapply Forall2_impl; [apply (swept_each _ _ _ _ _ _ _ _ Hsw Hnd m m1); by auto|].
  intros id res (shard & sw & sw' & Hs & Hl & Hu & Hl').
  exists sw, sw'. destruct (shard_outcome _ _ _ _ _ Hs (Hrd _ _ Hl) Hu) as [Hdone Hres].
  split_and!; [done..|]. unfold matching, exact_keys.
  destruct (max <? _); [destruct Hres as [-> _]; by split|]. destruct Hres as (-> & -> & ->).
  split_and!; [done..|]. by rewrite (sv_d _ _ _ _ Hserv), <-list_fmap_compose.
Qed.

Lemma written_keys m m' ids rs :
  Forall2 (shard_written m m') ids rs → existsb ur_Degraded rs = false →
  foldr Z.add 0 (ur_Matched <$> rs) = Z.of_nat (length (mjoin (exact_keys <$> rs))) ∧
  (∀ res, res ∈ rs → 0 ≤ ur_Matched res < 2 ^ 63) ∧
  ∀ key, key ∈ mjoin (exact_keys <$> rs) ↔
    ∃ id sw k, id ∈ ids ∧ m !! id = Some sw ∧ k ∈ matching sw ∧ key = Key_String (mkKey name k).
Proof.
  induction 1 as [|id res ids rs (sw & sw' & Hl & Hl' & Hdone & Hres) Hall IH]; cbn [existsb].
  { intros _. split_and!; [done|by intros ? ?%elem_of_nil|]. intros key. cbn. rewrite elem_of_nil. split; [done|].
    intros (id & ? & ? & ?%elem_of_nil & _). done. }
  intros [Hd Hds]%orb_false_iff. destruct (IH Hds) as (H1 & H2 & H3).
  destruct (Z.ltb_spec max (Z.of_nat (length (matching sw)))); [destruct Hres; congruence|].
  destruct Hres as (_ & Hm & Hk). split_and!.
  - cbn. rewrite H1, Hm, Hk, length_app, length_fmap. by rewrite Nat2Z.inj_add.
  - intros r' [->|Hin]%elem_of_cons; [rewrite Hm; lia|by apply H2].
  - intros key. cbn. rewrite elem_of_app, H3, Hk, list_elem_of_fmap. split.
    + intros [(k & -> & Hin)|(id' & sw0 & k & ? & ?)]; [exists id, sw, k; split_and!; [left|done..]|].
      exists id', sw0, k. split; [by right|done].
    + intros (id' & sw0 & k & [->|Hin]%elem_of_cons & Hl0 & Hin' & ->).
      * left. exists k. split; [done|]. congruence.
      * right. exists id', sw0, k. done.
Qed.

(** The shards of the table are connected and idle. *)
Definition connected w : Prop :=
  pools_wf cwf w ∧ all_ready (ew_shards w) ∧ NoDup (Router_Shards (tb_router t)) ∧
  ∀ id, id ∈ Router_Shards (tb_router t) → is_Some (tb_shards t !! id) ∧ is_Some (ew_shards w !! id).

Lemma written_degraded m m' ids rs :
  Forall2 (shard_written m m') ids rs → existsb ur_Degraded rs = true →
  ∃ id sw, m !! id = Some sw ∧ max < Z.of_nat (length (matching sw)).
Proof.
  intros Hall (res & Hin%list_elem_of_In & Hdeg)%existsb_exists. apply list_elem_of_lookup in Hin as [n Hn].
  destruct (Forall2_lookup_r _ _ _ _ _ Hall Hn) as (id & _ & sw & sw' & Hl & _ & _ & Hres). exists id, sw.
  split; [done|]. destruct (Z.ltb_spec max (Z.of_nat (length (matching sw)))); [done|]. destruct Hres; congruence.
Qed.

(** A sweep that stopped: committed before, untouched after. *)
Definition write_stopped w w' : Prop :=
  ∃ before id after rs sw sw', Router_Shards (tb_router t) = before ++ id :: after ∧
    Forall2 (shard_written (ew_shards w) (ew_shards w')) before rs ∧ (∀ id', id' ∈ after → ew_shards w' !! id' = ew_shards w !! id') ∧
    ew_shards w !! id = Some sw ∧ ew_shards w' !! id = Some sw' ∧
    (untouched tbl sw sw' ∨
     (∃ er, wi_commit (ios id) = CommitLost er) ∧ ∃ v, update_done tab tbl sel p args sw max v sw').

Lemma stopped_written w w' er :
  connected w → stopped ios name match_ set (Router_Shards (tb_router t)) (ew_shards w) (ew_shards w') er →
  write_stopped w w'.
Proof.
  intros (_ & Hrd & Hnd & Hcon) (ids1 & id & ids2 & rs & mid & Hids & Hsw & Hend).
  assert (is_Some (tb_shards t !! id) ∧ is_Some (ew_shards w !! id)) as [[sh0 Hsh0] [sw Hl]].
  { apply Hcon. rewrite Hids. apply elem_of_app. right. left. }
  rewrite Hids in Hnd. apply NoDup_app in Hnd as (Hnd1 & Hdis & Hnd2). apply NoDup_cons in Hnd2 as [Hn2 Hnd2].
  destruct Hend as [[Hno _]|(shard & sw0 & er' & sw' & Hs & Hl0 & Hu & Hm' & _)]; [congruence|].
  assert (id ∉ ids1) as Hn1 by (intros Hin; apply (Hdis _ Hin); left).
  rewrite (swept_rest _ _ _ _ _ _ _ _ _ Hsw Hn1), Hl in Hl0. injection Hl0 as <-.
  exists ids1, id, ids2, rs, sw, sw'. split_and!; [done| | |done| |].
  - apply (swept_written _ _ _ _ _ Hrd Hnd1 Hsw). intros id' Hin. rewrite Hm', lookup_insert_ne; [done|]. intros ->. by apply Hn1.
  - intros id' Hin. rewrite Hm', lookup_insert_ne by (by intros ->).
    apply (swept_rest _ _ _ _ _ _ _ _ _ Hsw). intros Hin1. apply (Hdis _ Hin1). by right.
  - by rewrite Hm', lookup_insert_eq.
  - by apply (shard_outcome _ _ _ _ _ Hs (Hrd _ _ Hl) Hu).
Qed.

(** The outcomes of a conditional write begun in [w]. *)
Definition write_outcome w (r : result UpdateOutcome * EngineW C D) : Prop :=
  match r with
  | (Ok out, w') => ∃ rs,
      Forall2 (shard_written (ew_shards w) (ew_shards w')) (Router_Shards (tb_router t)) rs ∧
      ew_token w' = observe_all (ew_token w) (zip (Router_Shards (tb_router t)) rs) ∧
      invalidated (swept_keys rs) w w' ∧
      if uo_Degraded out
      then uo_AffectedKeys out = [] ∧ ∃ id sw, ew_shards w !! id = Some sw ∧ max < Z.of_nat (length (matching sw))
      else uo_Matched out = u64 (Z.of_nat (length (uo_AffectedKeys out))) ∧
        ∀ key, key ∈ uo_AffectedKeys out ↔ ∃ id sw k, id ∈ Router_Shards (tb_router t) ∧
          ew_shards w !! id = Some sw ∧ k ∈ matching sw ∧ key = Key_String (mkKey name k)
  | (Err _, w') => write_stopped w w'
  | (Panic _, _) => is_some (ew_admission w) = true ∨
      ∃ id shard sw pn sw', tb_shards t !! id = Some shard ∧
        Shard_UpdateWhere shard (ios id) name match_ set max sw = (Panic pn, sw') ∧
        (MaxPhysicalMillis < wi_now (ios id) ∨ Clock_last (sw_clock sw') = max_u64)
  end.

End write.
End update.

(** ** Witness *)

Section demo.
#[local] Existing Instance ref_cache.
#[local] Instance update_mysql : Mysql (gmap (list string) cells) := mem_mysql users_t.
#[local] Instance update_mysql_laws : MysqlLaws _ users_t (mem_tbl users_t) (mem_sel users_t) := users_laws.
#[local] Existing Instance ref_laws.

Lemma demo_connected : connected ref_wf demo_t demo_w.
Proof.
  split; [apply demo_fresh|]. split; [|split].
  - intros id sw Hl. cbn in Hl. apply lookup_singleton_Some in Hl as [<- <-]. split; [|done]. vm_compute. intuition congruence.
  - apply NoDup_singleton.
  - intros id Hin. apply list_elem_of_singleton in Hin as ->. split; by eexists.
Qed.

End demo.
