(* ===== verification/EngineApi.v ===== *)
(** The engine's two gRPC services: [src/internal/engine/v1.go], [v2.go] and
    [v2_convert.go].

    Each handler decodes its request, runs one operation of Engine.v on a token
    built from the request, and encodes the answer with the token.  The messages
    are the records of the two .proto files; a message the wire may leave out is
    an option.  Of a status only its code is kept.  Protobuf durations are a
    parameter, as in Consistency.v. *)

From S2P Require Import Prelude GoStd Hlc Ring Consistency Freshness Schema Row Table Mysql Storage Admission CacheClient Engine.

Local Open Scope Z_scope.

(** ** Status codes in the two monads

    A handler returns its reply or a status. *)

Abbreviation reply A := (A + code)%type.

Definition rpc_bind {T : Type → Type} `{MRet T} `{MBind T} {A B} (k : A → T (reply B)) (m : T (reply A)) : T (reply B) :=
  r ← m; match r with inl a => k a | inr c => mret (inr c) end.

Notation "x ←! m ; k" := (rpc_bind (λ x : _, k) m) (at level 20, m at level 100, k at level 200, only parsing) : go_scope.
Notation "' x ←! m ; k" := (rpc_bind (λ x : _, k) m)
  (at level 20, x pattern, m at level 100, k at level 200, only parsing) : go_scope.

Definition status {A} (c : code) (r : result A) : result (reply A) :=
  match r with Ok a => Ok (inl a) | Err _ => Ok (inr c) | Panic p => Panic p end.

Lemma rpc_run {S A B} (m : M S (reply A)) (k : A → M S (reply B)) a s s1 :
  m s = (Ok (inl a), s1) → rpc_bind k m s = k a s1.
Proof. intros Hm. unfold rpc_bind. by rewrite (M_bind_run _ _ _ _ _ Hm). Qed.

Lemma rpc_status {S A B} (m : M S (reply A)) (k : A → M S (reply B)) c s s1 :
  m s = (Ok (inr c), s1) → rpc_bind k m s = (Ok (inr c), s1).
Proof. intros Hm. unfold rpc_bind. by rewrite (M_bind_run _ _ _ _ _ Hm). Qed.

Lemma rpc_panic {S A B} (m : M S (reply A)) (k : A → M S (reply B)) p s s1 :
  m s = (Panic p, s1) → rpc_bind k m s = (Panic p, s1).
Proof. intros Hm. unfold rpc_bind. by rewrite (M_bind_panic _ _ _ _ _ Hm). Qed.

(** ** Messages *)

Section api.
Context {C D : Type} `{Cache C} `{Mysql D}.
Context {PbDuration : Type} (CheckValid : PbDuration → option error) (AsDuration : PbDuration → Z)
  (durationpb_New : Z → PbDuration).

Record ReadMeta := mkReadMeta {
  rm_LevelServed : Z;
  rm_Degraded : bool;
  rm_DegradedReason : string;
  rm_CacheHit : bool;
  rm_RowVersion : Z;
  rm_FillVersion : Z;
  rm_EffectiveStalenessBound : option PbDuration; (* cachet.v2 only *)
}.

Record WriteMeta := mkWriteMeta {
  wm_Version : Z;
  wm_Degraded : bool;
  wm_DegradedReason : string;
  wm_EffectiveStalenessBound : option PbDuration;
}.

Definition SessionToken : Type := option (gmap string Z).

Record GetRequest := mkGetRequest {
  gq_Key : string; gq_Level : Z; gq_StalenessBound : option PbDuration; gq_Session : SessionToken;
}.
Record BatchGetRequest := mkBatchGetRequest {
  bq_Keys : list string; bq_Level : Z; bq_StalenessBound : option PbDuration; bq_Session : SessionToken;
}.
Record DeleteRequest := mkDeleteRequest { dq_Key : string; dq_Session : SessionToken }.

Record PutResponse := mkPutResponse { pr_Meta : WriteMeta; pr_Session : SessionToken }.
Record DeleteResponse := mkDeleteResponse { dr_Existed : bool; dr_Meta : WriteMeta; dr_Session : SessionToken }.
Record UpdateWhereResponse := mkUpdateWhereResponse {
  ur_Matched' : Z; ur_Keys : list string; ur_Meta : WriteMeta; ur_Session : SessionToken;
}.

(** What the two protocols spell differently: v1's record. *)
Record v1_Record := mkv1Record {
  rec_Id : Z; rec_TenantId : Z; rec_Status : Z; rec_Payload : option string; rec_Version : Z;
}.
Record v1_GetResponse := mkv1GetResponse {
  g1_Found : bool; g1_Record : option v1_Record; g1_Meta : ReadMeta; g1_Session : SessionToken;
}.
Record v1_BatchGetResponse := mkv1BatchGetResponse {
  b1_Records : gmap string v1_Record; b1_Meta : ReadMeta; b1_Session : SessionToken;
}.
Record v1_PutRequest := mkv1PutRequest { p1_Key : string; p1_Record : option v1_Record; p1_Session : SessionToken }.
Record v1_UpdateWhereRequest := mkv1UpdateWhereRequest {
  u1_TenantId : Z; u1_MatchStatus : Z; u1_SetStatus : Z; u1_Session : SessionToken;
}.

(** And v2's values and rows. *)
Record v2_Value := mkv2Value { pv_IsNull : bool; pv_Data : option string }.
Abbreviation v2_Row := (list v2_Value).
Record v2_GetResponse := mkv2GetResponse {
  g2_Found : bool; g2_Row : option v2_Row; g2_Meta : ReadMeta; g2_Session : SessionToken;
}.
Record v2_BatchGetResponse := mkv2BatchGetResponse {
  b2_Rows : gmap string v2_Row; b2_Meta : ReadMeta; b2_Session : SessionToken;
}.
Record v2_PutRequest := mkv2PutRequest { p2_Key : string; p2_Row : option v2_Row; p2_Session : SessionToken }.

(** A comparison or an assignment: a column and, when sent, a value. *)
Abbreviation v2_Pair := (string * option v2_Value)%type.
Record v2_UpdateWhereRequest := mkv2UpdateWhereRequest {
  u2_Table : string; u2_Match : list v2_Pair; u2_Set : list v2_Pair; u2_Session : SessionToken;
}.
Record v2_ColumnDescriptor := mkv2ColumnDescriptor { cd_Name : string; cd_Type : string; cd_Nullable : bool }.
Record v2_TableDescriptor := mkv2TableDescriptor {
  td_Name : string; td_Columns : list v2_ColumnDescriptor; td_PrimaryKey : list string;
  td_VersionColumn : string; td_Fingerprint : string;
}.
Record v2_HandshakeResponse := mkv2HandshakeResponse {
  h2_ServerVersion : string; h2_ProtocolVersion : string; h2_Compatible : bool; h2_Reason : string;
  h2_Tables : list v2_TableDescriptor;
}.

Notation W := (EngineW C D).
Context (e : Engine).

(** ** What the handlers share *)

Definition gutterReason : string := "served from the gutter pool; the home cache node is not answering".
Definition degradedReason : string := "predicate exceeded max_affected_keys".

Definition readMeta (level rowVersion fillVersion : Z) : ReadMeta :=
  mkReadMeta (Level_Proto level) false "" false rowVersion fillVersion None.

Definition cacheHitMeta (level : Z) (entry : Entry) : ReadMeta :=
  mkReadMeta (Level_Proto level) false "" true (RowVersion entry) (FillVersion entry) None.

(** An engine call whose error becomes a status. *)
Definition rpc_call {A} (m : M W A) : M W (reply A) :=
  r ← M_try m;
  mret match r with inl a => inl a | inr err => inr (Engine_rpcError err) end.

(** [token := TokenFromProto(req.GetSession(), e.maxSessionShards)], and
    [token.Proto()] when the answer is built. *)
Definition open_session (s : SessionToken) : M W unit :=
  M_modify (with_token (TokenFromProto (default ∅ s) (e_maxSessionShards e))).
Definition session : M W SessionToken :=
  w ← M_get; mret (Some (Token_Proto (Some (ew_token w)))).

(** The keys of a batch: parsed, without the repeats. *)
Fixpoint batch_keys (parse : string → result (reply Key)) (raws : list string) (seen : gmap string unit)
    (keys : list Key) : result (reply (list Key)) :=
  match raws with
  | [] => Ok (inl keys)
  | raw :: raws =>
      (key ←! parse raw;
       if bool_decide (is_Some (seen !! Key_String key)) then batch_keys parse raws seen keys
       else batch_keys parse raws (<[Key_String key := tt]> seen) (keys ++ [key]))%go
  end.

(** ** cachet.v1 *)

Definition legacyShape : list (string * Type_) :=
  [("id", Uint64); ("tenant_id", Uint32); ("status", Uint8); ("payload", Bytes_); ("version", Uint64)].

Fixpoint check_columns (want : list (string * Type_)) (got : list Column) : result unit :=
  match want, got with
  | (name, ty) :: want, c :: got =>
      if negb (bool_decide (col_Name c = name)) || negb (bool_decide (col_Type c = ty)) || col_Nullable c
      then Err (Errorf "cachet.v1 describes another column. Use cachet.v2")
      else check_columns want got
  | [], _ => Ok tt
  | _ :: _, [] => Panic "runtime error: index out of range"
  end.

Definition checkLegacyShape (d : Descriptor) : result unit :=
  if negb (length (d_Columns d) =? length legacyShape)%nat
  then Err (Errorf "cachet.v1 describes a five-column row. Use cachet.v2")
  else
    check_columns legacyShape (d_Columns d);;
    match d_PrimaryKey d with
    | [c] =>
        if negb (bool_decide (col_Name c = "id"))
        then Err (Errorf "cachet.v1 names rows by a single id column. Use cachet.v2")
        else if negb (bool_decide (col_Name (d_VersionColumn d) = "version"))
        then Err (Errorf "cachet.v1 has no field for the version column. Use cachet.v2")
        else Ok tt
    | _ => Err (Errorf "cachet.v1 names rows by a single id column. Use cachet.v2")
    end.

Definition Engine_v1Table : result (reply table) :=
  (t ←! status FailedPrecondition (Engine_soleTable e);
   _ ←! status FailedPrecondition (checkLegacyShape (tb_d t));
   Ok (inl t))%go.

Definition Engine_v1Key (raw : string) : result (reply (Key * table)) :=
  (t ←! Engine_v1Table;
   key ←! status InvalidArgument (ParseKey raw);
   if negb (bool_decide (key_Table key = d_Name (tb_d t))) then Ok (inr InvalidArgument)
   else match key_Values key with
        | [v] => _ ←! status InvalidArgument (Value_Uint64 (Str v)); Ok (inl (key, t))
        | _ => Ok (inr InvalidArgument)
        end)%go.

Definition statusToUint8 (v : Z) : result Z :=
  if 255 <? v then Err (Errorf "engine: does not fit in a uint8") else Ok v.

Definition rowToV1Record (row : list Value) : result v1_Record :=
  match row with
  | [c_id; c_tenant; c_status; c_payload; c_version] =>
      id ← Value_Uint64 c_id;
      tenant ← Value_Uint64 c_tenant;
      st ← Value_Uint64 c_status;
      version ← Value_Uint64 c_version;
      if (2 ^ 32 - 1 <? tenant) || (255 <? st)
      then Err (Errorf "engine: row does not fit the shape cachet.v1 describes")
      else Ok (mkv1Record id tenant st (v_Bytes c_payload) version)
  | _ => Err (Errorf "engine: row has the wrong number of columns for cachet.v1")
  end.

Definition v1RecordToRow (key : Key) (rec : v1_Record) : result (list Value) :=
  st ← statusToUint8 (rec_Status rec);
  match key_Values key with
  | [] => Panic "runtime error: index out of range"
  | v :: _ => Ok [Str v; Uint (rec_TenantId rec); Uint st; Bin (rec_Payload rec); Uint 0]
  end.

Definition Engine_Get (i : read_io) (req : GetRequest) : M W (reply v1_GetResponse) :=
  (reqmt ←! M_lift (status InvalidArgument
                      (RequirementFromProto CheckValid AsDuration (gq_Level req) (gq_StalenessBound req)));
   '(key, _) ←! M_lift (Engine_v1Key (gq_Key req));
   open_session (gq_Session req);;
   res ←! rpc_call (Engine_GetRow e i key reqmt);
   s ← session;
   let meta := if rr_CacheHit res then cacheHitMeta (req_Level reqmt) (default (mkEntry 0 0 None "" false) (rr_Entry res))
               else readMeta (req_Level reqmt) (rr_RowVersion res) (rr_FillVersion res) in
   let meta := if rr_FromGutter res then
                 mkReadMeta (rm_LevelServed meta) true
                   (gutterReason +:+ " (bounded by " +:+ Duration_String (e_gutterTTL e) +:+ ")")
                   (rm_CacheHit meta) (rm_RowVersion meta) (rm_FillVersion meta) None
               else meta in
   if rr_Found res then
     rec ←! rpc_call (M_lift (rowToV1Record (rr_Row res)));
     mret (inl (mkv1GetResponse (rr_Found res) (Some rec) meta s))
   else mret (inl (mkv1GetResponse (rr_Found res) None meta s)))%go.

(** The records of a batch, in the order Go ranges over the map. *)
Fixpoint records_of (rows : list (string * list Value)) (out : gmap string v1_Record) : result (gmap string v1_Record) :=
  match rows with
  | [] => Ok out
  | (key, row) :: rows => rec ← rowToV1Record row; records_of rows (<[key := rec]> out)
  end.

Definition Engine_BatchGet (io : string → string → Z * fate * iter_fate) (req : BatchGetRequest) : M W (reply v1_BatchGetResponse) :=
  (reqmt ←! M_lift (status InvalidArgument
                      (RequirementFromProto CheckValid AsDuration (bq_Level req) (bq_StalenessBound req)));
   keys ←! M_lift (batch_keys (λ raw, '(key, _) ←! Engine_v1Key raw; Ok (inl key)) (bq_Keys req) ∅ []);
   open_session (bq_Session req);;
   '(rows, newest) ←! rpc_call (Engine_BatchGetRows e io keys);
   out ←! rpc_call (M_lift (records_of (map_to_list rows) ∅));
   s ← session;
   mret (inl (mkv1BatchGetResponse out (readMeta (req_Level reqmt) 0 newest) s)))%go.

Definition Engine_Put (i : write_io) (at_ : Z * Z) (req : v1_PutRequest) : M W (reply PutResponse) :=
  ('(key, _) ←! M_lift (Engine_v1Key (p1_Key req));
   match p1_Record req with
   | None => mret (inr InvalidArgument)
   | Some rec =>
       row ←! M_lift (status InvalidArgument (v1RecordToRow key rec));
       open_session (p1_Session req);;
       version ←! rpc_call (Engine_PutRow e i at_ key row);
       s ← session;
       mret (inl (mkPutResponse (mkWriteMeta version false "" None) s))
   end)%go.

Definition Engine_Delete (i : write_io) (at_ : Z * Z) (req : DeleteRequest) : M W (reply DeleteResponse) :=
  ('(key, _) ←! M_lift (Engine_v1Key (dq_Key req));
   open_session (dq_Session req);;
   '(existed, version) ←! rpc_call (Engine_DeleteRow e i at_ key);
   s ← session;
   mret (inl (mkDeleteResponse existed (mkWriteMeta version false "" None) s)))%go.

(** The metadata of a conditional write. *)
Definition update_meta (out : UpdateOutcome) : WriteMeta :=
  if uo_Degraded out then
    mkWriteMeta (uo_Newest out) true degradedReason (Some (durationpb_New (e_cdcLagBound e)))
  else mkWriteMeta (uo_Newest out) false "" None.

Definition Engine_UpdateWhere (ios : string → write_io) (ats : string → string → Z * Z)
    (req : v1_UpdateWhereRequest) : M W (reply UpdateWhereResponse) :=
  (t ←! M_lift Engine_v1Table;
   match_ ←! M_lift (status InvalidArgument (statusToUint8 (u1_MatchStatus req)));
   set ←! M_lift (status InvalidArgument (statusToUint8 (u1_SetStatus req)));
   open_session (u1_Session req);;
   out ←! rpc_call (Engine_UpdateRowsWhere e ios ats (d_Name (tb_d t))
                      [mkColumnValue "tenant_id" (Uint (u1_TenantId req)); mkColumnValue "status" (Uint match_)]
                      [mkColumnValue "status" (Uint set)]);
   s ← session;
   mret (inl (mkUpdateWhereResponse (uo_Matched out) (uo_AffectedKeys out) (update_meta out) s)))%go.

(** ** cachet.v2 *)

Definition ProtocolVersionV2 : string := "cachet.v2".

Definition levelToV1 (l : Z) : Z := l.
Definition sessionToV1 (s : SessionToken) : SessionToken := s.
Definition sessionToV2 (s : SessionToken) : SessionToken := s.

Definition descriptorToProto (d : Descriptor) : v2_TableDescriptor :=
  mkv2TableDescriptor (d_Name d)
    ((λ c, mkv2ColumnDescriptor (col_Name c) (Type_text (col_Type c)) (col_Nullable c)) <$> d_Columns d)
    (col_Name <$> d_PrimaryKey d) (col_Name (d_VersionColumn d)) (d_Fingerprint d).

Definition tablesToProto (tables : list Descriptor) : list v2_TableDescriptor := descriptorToProto <$> tables.

Definition V2_Handshake (clientVersion : string) : result v2_HandshakeResponse :=
  if negb (bool_decide (clientVersion = "")) && negb (bool_decide (clientVersion = ProtocolVersionV2)) then
    Ok (mkv2HandshakeResponse (e_version e) ProtocolVersionV2 false
          ("client speaks " +:+ clientVersion +:+ ", this engine speaks " +:+ ProtocolVersionV2 +:+ " on this service")
          [])
  else
    tables ← Engine_Tables e;
    Ok (mkv2HandshakeResponse (e_version e) ProtocolVersionV2 true "" (tablesToProto tables)).

Definition V2_key (raw : string) : result (reply Key) :=
  ('(key, _) ←! status InvalidArgument (Engine_parseKey e raw); Ok (inl key))%go.

Definition V2_readMeta (level : Z) (res : RowResult) : ReadMeta :=
  let bound := if rr_FromGutter res then Some (durationpb_New (e_gutterTTL e)) else None in
  mkReadMeta (Level_Proto level) (rr_FromGutter res) (if rr_FromGutter res then gutterReason else "")
    (rr_CacheHit res) (rr_RowVersion res) (rr_FillVersion res) bound.

Definition rowToProto (row : list Value) : v2_Row :=
  (λ v, if IsNull v then mkv2Value true None else mkv2Value false (v_Bytes v)) <$> row.

Definition valueFromProto (v : option v2_Value) : Value :=
  match v with
  | None => Bin None
  | Some v => if pv_IsNull v then Null else Bin (pv_Data v)
  end.

Definition rowFromProto (row : option v2_Row) : result (list Value) :=
  match row with
  | None | Some [] => Err (Errorf "engine: put requires a row")
  | Some row => Ok ((λ v, valueFromProto (Some v)) <$> row)
  end.

Fixpoint pairs_from (why : string) (ps : list v2_Pair) (out : list ColumnValue) : result (list ColumnValue) :=
  match ps with
  | [] => Ok out
  | (column, v) :: ps =>
      if bool_decide (column = "") then Err (Errorf why)
      else pairs_from why ps (out ++ [mkColumnValue column (valueFromProto v)])
  end.

Definition columnValues (cmp : list v2_Pair) : result (list ColumnValue) :=
  pairs_from "engine: a comparison names no column" cmp [].
Definition assignments (as_ : list v2_Pair) : result (list ColumnValue) :=
  pairs_from "engine: an assignment names no column" as_ [].

Definition V2_Get (i : read_io) (req : GetRequest) : M W (reply v2_GetResponse) :=
  (reqmt ←! M_lift (status InvalidArgument
                      (RequirementFromProto CheckValid AsDuration (levelToV1 (gq_Level req)) (gq_StalenessBound req)));
   key ←! M_lift (V2_key (gq_Key req));
   open_session (sessionToV1 (gq_Session req));;
   res ←! rpc_call (Engine_GetRow e i key reqmt);
   s ← session;
   mret (inl (mkv2GetResponse (rr_Found res) (if rr_Found res then Some (rowToProto (rr_Row res)) else None)
                (V2_readMeta (req_Level reqmt) res) (sessionToV2 s))))%go.

Definition V2_BatchGet (io : string → string → Z * fate * iter_fate) (req : BatchGetRequest) : M W (reply v2_BatchGetResponse) :=
  (reqmt ←! M_lift (status InvalidArgument
                      (RequirementFromProto CheckValid AsDuration (levelToV1 (bq_Level req)) (bq_StalenessBound req)));
   keys ←! M_lift (batch_keys V2_key (bq_Keys req) ∅ []);
   open_session (sessionToV1 (bq_Session req));;
   '(rows, newest) ←! rpc_call (Engine_BatchGetRows e io keys);
   s ← session;
   mret (inl (mkv2BatchGetResponse (rowToProto <$> rows)
                (mkReadMeta (Level_Proto (req_Level reqmt)) false "" false 0 newest None) (sessionToV2 s))))%go.

Definition V2_Put (i : write_io) (at_ : Z * Z) (req : v2_PutRequest) : M W (reply PutResponse) :=
  (key ←! M_lift (V2_key (p2_Key req));
   row ←! M_lift (status InvalidArgument (rowFromProto (p2_Row req)));
   open_session (sessionToV1 (p2_Session req));;
   version ←! rpc_call (Engine_PutRow e i at_ key row);
   s ← session;
   mret (inl (mkPutResponse (mkWriteMeta version false "" None) (sessionToV2 s))))%go.

Definition V2_Delete (i : write_io) (at_ : Z * Z) (req : DeleteRequest) : M W (reply DeleteResponse) :=
  (key ←! M_lift (V2_key (dq_Key req));
   open_session (sessionToV1 (dq_Session req));;
   '(existed, version) ←! rpc_call (Engine_DeleteRow e i at_ key);
   s ← session;
   mret (inl (mkDeleteResponse existed (mkWriteMeta version false "" None) (sessionToV2 s))))%go.

Definition V2_UpdateWhere (ios : string → write_io) (ats : string → string → Z * Z)
    (req : v2_UpdateWhereRequest) : M W (reply UpdateWhereResponse) :=
  (if bool_decide (u2_Table req = "") then mret (inr InvalidArgument)
   else
     match_ ←! M_lift (status InvalidArgument (columnValues (u2_Match req)));
     set ←! M_lift (status InvalidArgument (assignments (u2_Set req)));
     open_session (sessionToV1 (u2_Session req));;
     out ←! rpc_call (Engine_UpdateRowsWhere e ios ats (u2_Table req) match_ set);
     s ← session;
     mret (inl (mkUpdateWhereResponse (uo_Matched out) (uo_AffectedKeys out) (update_meta out) (sessionToV2 s))))%go.

End api.
