(* ===== verification/ApiSpec.v ===== *)
(** What the two gRPC services promise (EngineApi.v): the protocols mean the same
    thing, on every request both can express. *)

From S2P Require Import LuaCache.
From S2P Require Import Prelude GoStd Hlc Ring Consistency Freshness Schema Row Table Mysql Storage Admission CacheClient Engine EngineSpec.
From S2P Require Import RefCache Sessions EngineApi.

Local Open Scope Z_scope.

#[local] Arguments Value_Uint64 : simpl never.

(** ** Lemmas: errors and their codes *)

(** An error that is none of the sentinels. *)
Definition plain (er : error) : Prop := ∀ s, errors_Is er s = false.

Lemma fits_plain col text :
  match fits col text with Ok _ => True | Err er => plain er | Panic _ => False end.
Proof.
  unfold fits. destruct (col_Type col); try done;
    destruct (ParseUint _ _) || destruct (ParseInt _); try case_bool_decide; done.
Qed.

Lemma fits_all_plain cols : ∀ vals, length vals = length cols →
  match fits_all cols vals with Ok _ => True | Err er => plain er | Panic _ => False end.
Proof.
  induction cols as [|c cols IH]; intros [|v vals]; cbn [fits_all]; try done.
  intros [= Hl]. pose proof (fits_plain c v) as Hf. destruct (fits c v) as [[]|er|p]; cbn; [|done..].
  by apply IH.
Qed.

Lemma Validate_plain d k :
  match Descriptor_Validate d k with Ok _ => True | Err er => plain er | Panic _ => False end.
Proof.
  unfold Descriptor_Validate. case_bool_decide; cbn [negb]; [|done].
  destruct (Nat.eqb_spec (length (key_Values k)) (length (d_PrimaryKey d))) as [Hl|]; cbn [negb]; [|done].
  pose proof (fits_all_plain _ _ Hl) as Hf. by destruct (fits_all _ _).
Qed.

Lemma tableFor_code e key :
  match Engine_tableFor e key with Ok _ => True | Err er => Engine_rpcError er = InvalidArgument | Panic _ => False end.
Proof.
  unfold Engine_tableFor. destruct (e_tables e !! key_Table key) as [t|]; [|done].
  pose proof (Validate_plain (tb_d t) key) as Hv. destruct (Descriptor_Validate (tb_d t) key) as [|er|]; [done| |done].
  unfold Engine_rpcError. cbn. by rewrite !(Hv _).
Qed.

Lemma no_panic_bind {A B} (m : result A) (f : A → result B) :
  no_panic m → (∀ a, no_panic (f a)) → no_panic (m ≫= f).
Proof. intros Hm Hf. destruct m as [a|er|p]; [apply Hf|done|by destruct (Hm p)]. Qed.

Lemma unescape_loop_no_panic n : ∀ s, (String.length s ≤ n)%nat → no_panic (unescape_loop s).
Proof.
  assert (∀ h, no_panic (hexVal h)) as Hh by (intros h p; unfold hexVal; repeat case_match; done).
  induction n as [|n IH]; intros [|c r] Hn; cbn [unescape_loop String.length] in *; try done; [lia|].
  destruct (negb _); [apply no_panic_bind; [apply IH; lia|done]|].
  destruct r as [|h [|l r]]; [done..|]. cbn [String.length] in Hn.
  apply no_panic_bind; [apply Hh|]. intros hi. apply no_panic_bind; [apply Hh|]. intros lo.
  apply no_panic_bind; [apply IH; lia|done].
Qed.

Lemma ParseKey_no_panic raw : no_panic (ParseKey raw).
Proof.
  unfold ParseKey. destruct (cut_byte _ _) as [[table rest]|]; [|done]. destruct (negb _); [done|].
  apply no_panic_bind; [|done]. induction (split_byte ":" rest) as [|s ps IH]; cbn [unescape_all]; [done|].
  apply no_panic_bind; [|intros v; by apply no_panic_bind].
  assert (no_panic (unescape s)) as Hs.
  { unfold unescape. destruct (negb _); [done|]. by eapply unescape_loop_no_panic. }
  intros p. destruct (unescape s) as [| |q]; [done|done|by destruct (Hs q eq_refl)].
Qed.

Lemma Uint64_plain v :
  match Value_Uint64 v with Ok _ => True | Err er => plain er | Panic _ => False end.
Proof.
  unfold Value_Uint64. destruct (IsNull v); [done|]. case_bool_decide as Hne; [done|]. clear Hne. generalize 0 as u.
  induction (bytes v) as [|c s IH]; intros u; cbn [uint64_loop]; [done|].
  destruct (negb _); [done|]. destruct (_ <? _); [done|apply IH].
Qed.

Lemma rowToV1Record_plain row :
  match rowToV1Record row with Ok _ => True | Err er => Engine_rpcError er = Internal | Panic _ => False end.
Proof.
  assert (∀ er, plain er → Engine_rpcError er = Internal) as Hp.
  { intros er He. unfold Engine_rpcError. by rewrite !(He _). }
  assert (∀ v (k : Z → result v1_Record),
    (∀ z, match k z with Ok _ => True | Err er => Engine_rpcError er = Internal | Panic _ => False end) →
    match Value_Uint64 v ≫= k with Ok _ => True | Err er => Engine_rpcError er = Internal | Panic _ => False end) as Hb.
  { intros v k Hk. pose proof (Uint64_plain v) as Hv. destruct (Value_Uint64 v) as [z|er|p]; cbn; [apply Hk|by apply Hp|done]. }
  destruct row as [|a [|b [|c [|d [|f [|]]]]]]; try done. unfold rowToV1Record.
  repeat (apply Hb; intros ?). by destruct (_ || _).
Qed.

(** ** The two protocols *)

Section protocols.
Context {C D : Type} `{Cache C} `{Mysql D}.
Context {PbDuration : Type} (CheckValid : PbDuration → option error) (AsDuration : PbDuration → Z)
  (durationpb_New : Z → PbDuration).
Context (e : Engine) (opts : engine_Options) (t : table).

(** An engine cachet.v1 can be served from: its one table has the shape v1 spells
    out, and its descriptor was built by [NewDescriptor]. *)
Definition serves_v1 : Prop :=
  engine_New opts = Ok e ∧ Engine_v1Table e = Ok (inl t) ∧
  ∃ ToLower sha cfg, NewDescriptor ToLower sha cfg = Ok (tb_d t).

Lemma check_columns_types want : ∀ got, check_columns want got = Ok tt → length got = length want →
  Forall2 (λ w c, col_Name c = w.1 ∧ col_Type c = w.2) want got.
Proof.
  induction want as [|[n ty] want IH]; intros [|c got]; cbn [check_columns]; try done.
  case_bool_decide; cbn [negb orb]; [|done]. case_bool_decide; cbn [negb orb]; [|done].
  destruct (col_Nullable c); [done|]. intros Hc [= Hl]. constructor; [done|]. by apply IH.
Qed.

(** The one table, and its one key column, which is an unsigned 64-bit one. *)
Lemma serves_v1_table :
  serves_v1 →
  (∀ name, e_tables e !! name = if bool_decide (name = d_Name (tb_d t)) then Some t else None) ∧
  ∃ c, d_PrimaryKey (tb_d t) = [c] ∧ col_Type c = Uint64.
Proof.
  intros (HNew & Hv1 & ToLower & sha & cfg & Hd). apply engine_New_ok in HNew as (_ & _ & _ & _ & Hdom & _ & Ht).
  unfold Engine_v1Table, rpc_bind, Engine_soleTable in Hv1.
  destruct (e_tableOrder e) as [|name [|]] eqn:Eo; [done| |done].
  destruct (e_tables e !! name) as [t'|] eqn:Et; [|done]. cbn in Hv1.
  destruct (checkLegacyShape (tb_d t')) as [[]|er|p] eqn:Ec; [|done..]. injection Hv1 as ->.
  destruct (Ht _ _ Et) as [(spec & _ & _ & Hname & _) _]. split.
  - intros name'. case_bool_decide as Hn; [by rewrite Hn, Hname|].
    destruct (e_tables e !! name') eqn:E'; [|done]. assert (name' ∈ [name]) as Hin by (rewrite Hdom; by eexists).
    apply list_elem_of_singleton in Hin. congruence.
  - unfold checkLegacyShape in Ec. destruct (Nat.eqb_spec (length (d_Columns (tb_d t))) (length legacyShape)) as [Hl|];
      cbn [negb] in Ec; [|done].
    apply result_bind_ok in Ec as ([] & Hc & Ec). destruct (d_PrimaryKey (tb_d t)) as [|c [|]] eqn:Epk; [done| |done].
    case_bool_decide as Hid; cbn [negb] in Ec; [|done]. exists c. split; [done|].
    apply check_columns_types in Hc; [|done].
    assert (c ∈ d_Columns (tb_d t)) as Hin.
    { apply (pk_in _ _ (NewDescriptor_ok _ _ _ _ Hd)). rewrite Epk. left. }
    apply list_elem_of_lookup in Hin as [k Hk]. destruct (Forall2_lookup_r _ _ _ _ _ Hc Hk) as ([n ty] & Hw & Hn & Hty).
    cbn in Hn, Hty. rewrite Hid in Hn. destruct k as [|[|[|[|[|k]]]]]; cbn in Hw; try done; by injection Hw as <- <-.
Qed.

(** A key, as the two services resolve it. *)
Lemma keys_agree raw :
  serves_v1 →
  match Engine_v1Key e raw with
  | Ok (inl (key, _)) =>
      V2_key e raw = Ok (inl key) ∧ Engine_tableFor e key = Ok t ∨
      V2_key e raw = Ok (inr InvalidArgument) ∧
        ∃ er, Engine_tableFor e key = Err er ∧ Engine_rpcError er = InvalidArgument
  | Ok (inr c) => c = InvalidArgument ∧ V2_key e raw = Ok (inr InvalidArgument)
  | Err _ | Panic _ => False
  end.
Proof.
  intros Hs. pose proof (serves_v1_table Hs) as (Htab & c & Hpk & Hty). destruct Hs as (_ & Hv1 & _).
  unfold Engine_v1Key, V2_key, Engine_parseKey. rewrite Hv1. cbn.
  destruct (ParseKey raw) as [key|er|p] eqn:Ep; cbn; [|done|by destruct (ParseKey_no_panic _ _ Ep)].
  pose proof (tableFor_code e key) as Hcode. unfold Engine_tableFor in *. rewrite Htab in *.
  case_bool_decide as Hk; cbn; [|done].
  assert (∀ k, Descriptor_Validate (tb_d t) key = Ok k → ∃ v u, key_Values key = [v] ∧ Value_Uint64 (Str v) = Ok u) as Hval.
  { intros k. unfold Descriptor_Validate. destruct (negb _); [done|].
    destruct (key_Values key) as [|v [|]]; rewrite Hpk; cbn; try done.
    unfold fits. rewrite Hty. destruct (ParseUint v 64) as [u|er|p] eqn:Eu; [|done..]. intros _. exists v.
    unfold ParseUint in Eu. case_bool_decide; [done|]. destruct (str_all is_digit v) eqn:Ed; cbn in Eu; [|done].
    destruct (Z.ltb_spec (dec_val 0 v) (2 ^ 64)); [|done]. exists (dec_val 0 v). split; [done|].
    unfold Value_Uint64. cbn [IsNull Str]. change (bytes (Str v)) with v. rewrite bool_decide_eq_false_2 by done. by rewrite uint64_loop_ok. }
  destruct (Descriptor_Validate (tb_d t) key) as [k|er|p] eqn:Ev; [| |done].
  - destruct (Hval k eq_refl) as (v & u & -> & ->). cbn. left. split; [done|].
    rewrite Htab, bool_decide_eq_true_2 by done. by rewrite Ev.
  - destruct (key_Values key) as [|v [|]]; cbn; try done.
    pose proof (Uint64_plain (Str v)) as Hu. destruct (Value_Uint64 (Str v)); cbn; [|done..].
    right. split; [done|]. eexists. rewrite Htab, bool_decide_eq_true_2 by done. by rewrite Ev.
Qed.

(** What a request leaves behind: everything but the token, which is its own. *)
Definition same_engine (w w' : EngineW C D) : Prop := with_token (NewToken 0) w = with_token (NewToken 0) w'.

(** Any operation on one key, as the two services run it. *)
Lemma keyed_agree {A B1 B2} (op : Key → M (EngineW C D) A) (k1 : A → M (EngineW C D) (reply B1))
    (k2 : A → M (EngineW C D) (reply B2)) (R : result (reply B1) → result (reply B2) → Prop) raw s w :
  serves_v1 →
  (∀ key er w, Engine_tableFor e key = Err er → op key w = (Err er, w)) →
  (∀ c, R (Ok (inr c)) (Ok (inr c))) → (∀ p, R (Panic p) (Panic p)) →
  (∀ key a w1, Engine_tableFor e key = Ok t → op key (with_token (TokenFromProto (default ∅ s) (e_maxSessionShards e)) w) = (Ok a, w1) →
     R (k1 a w1).1 (k2 a w1).1 ∧ same_engine (k1 a w1).2 (k2 a w1).2) →
  let run1 := ('(key, _) ←! M_lift (Engine_v1Key e raw); open_session e s;; res ←! rpc_call (op key); k1 res)%go w in
  let run2 := (key ←! M_lift (V2_key e raw); open_session e s;; res ←! rpc_call (op key); k2 res)%go w in
  R run1.1 run2.1 ∧ same_engine run1.2 run2.2.
Proof.
  intros Hs Hop Hc Hp Hok run1 run2. subst run1 run2. pose proof (keys_agree raw Hs) as Hk.
  destruct (Engine_v1Key e raw) as [[[key t']|c]|er|p] eqn:Ek; [| |done..].
  2: { destruct Hk as [-> ->]. split; [apply Hc|done]. }
  erewrite (rpc_run (M_lift _)) by done.
  set (w0 := with_token (TokenFromProto (default ∅ s) (e_maxSessionShards e)) w) in *.
  assert (∀ T (k : M (EngineW C D) T), (open_session e s;; k) w = k w0) as Hopen by done.
  cbv beta iota. rewrite Hopen. destruct Hk as [[Hk Ht]|[Hk (er & Ht & Hcode)]].
  - rewrite Hk. erewrite (rpc_run (M_lift _)) by done. cbv beta iota. rewrite Hopen.
    assert (∀ B (k : A → M (EngineW C D) (reply B)), rpc_bind k (rpc_call (op key)) w0 =
      match op key w0 with
      | (Ok a, w1) => k a w1 | (Err er, w1) => (Ok (inr (Engine_rpcError er)), w1) | (Panic p, w1) => (Panic p, w1)
      end) as Hcall.
    { intros B k. unfold rpc_bind, rpc_call, M_try. mrun. by destruct (op key w0) as [[a|er|p] w1]. }
    rewrite !Hcall. pose proof (Hok key) as Hok'. destruct (op key w0) as [[a|er|p] w1]; [by apply Hok'|split; [apply Hc|done]|split; [apply Hp|done]].
  - rewrite Hk. erewrite (rpc_status (M_lift _)) by done. cbv beta iota.
    erewrite rpc_status.
    2: { unfold rpc_call, M_try. mrun. rewrite (Hop _ _ _ Ht). by rewrite Hcode. }
    split; [apply Hc|done].
Qed.

(** A read served by the cache reports the entry's own versions. *)
Lemma wp_any {S A} (m : M S A) (Q : result A → S → Prop) s : (∀ r s', Q r s') → wp m Q s.
Proof. intros HQ. apply HQ. Qed.

Definition hit_reported (rr : RowResult) : Prop :=
  rr_CacheHit rr = true → ∃ en, rr_Entry rr = Some en ∧ rr_RowVersion rr = RowVersion en ∧ rr_FillVersion rr = FillVersion en.

Definition reported (r : result RowResult) (_ : EngineW C D) : Prop := ∀ rr, r = Ok rr → hit_reported rr.

Lemma originRead_reported i tb shard id key lease gp w : wp (originRead i tb shard id key lease gp) reported w.
Proof.
  unfold originRead. apply wp_bind, wp_any. intros [[[row|] fill]|er|p] w1; [| |done..].
  - apply wp_bind, wp_any. intros [v|er|p] w2; [|done..].
    apply wp_bind, wp_any. intros [v'|er|p] w3; [|done..].
    apply wp_bind, wp_any. intros [v''|er|p] w4; [|done..]. apply wp_ret. by intros ? [= <-].
  - apply wp_bind, wp_any. intros [v''|er|p] w4; [|done..]. apply wp_ret. by intros ? [= <-].
Qed.

Lemma GetRow_reported i key req w : wp (Engine_GetRow e i key req) reported w.
Proof.
  unfold Engine_GetRow. apply wp_bind, wp_any. intros [tb|er|p] w1; [|done..].
  apply wp_bind, wp_any. intros [[shard id]|er|p] w2; [|done..].
  apply wp_bind, wp_any. intros [[[[en|] lease] gp]|er|p] w3; [| |done..]; [|apply originRead_reported].
  apply wp_bind, wp_any. intros [v|er|p] w4; [|done..].
  destruct (DecodeRow _ _) as [row|er|p]; [| |done].
  - apply wp_ret. intros ? [= <-] _. by exists en.
  - destruct (negb (Negative en)); [apply originRead_reported|]. apply wp_ret. intros ? [= <-] _. by exists en.
Qed.

(** The row v1 writes is the row v2 sends for it. *)
Lemma v1_row_back key rec row : v1RecordToRow key rec = Ok row → rowFromProto (Some (rowToProto row)) = Ok row.
Proof.
  unfold v1RecordToRow. destruct (statusToUint8 _) as [st|er|p]; [|done..]. cbn.
  destruct (key_Values key) as [|v vs]; [done|]. by intros [= <-].
Qed.

(** The two answers to one read: the same facts, in v1's record or v2's row. *)
Definition same_meta (m1 m2 : ReadMeta (PbDuration := PbDuration)) : Prop :=
  rm_LevelServed m1 = rm_LevelServed m2 ∧ rm_CacheHit m1 = rm_CacheHit m2 ∧ rm_RowVersion m1 = rm_RowVersion m2 ∧
  rm_FillVersion m1 = rm_FillVersion m2 ∧ rm_Degraded m1 = rm_Degraded m2.

Definition read_agrees (r1 : result (reply (v1_GetResponse (PbDuration := PbDuration))))
    (r2 : result (reply (v2_GetResponse (PbDuration := PbDuration)))) : Prop :=
  match r1, r2 with
  | Ok (inl a), Ok (inl b) =>
      g1_Found a = g2_Found b ∧ g1_Session a = g2_Session b ∧ same_meta (g1_Meta a) (g2_Meta b) ∧
      if g2_Found b
      then ∃ row rec, g2_Row b = Some (rowToProto row) ∧ rowToV1Record row = Ok rec ∧ g1_Record a = Some rec
      else g2_Row b = None ∧ g1_Record a = None
  | Ok (inr c1), Ok (inl b) =>
      c1 = Internal ∧ ∃ row er, g2_Row b = Some (rowToProto row) ∧ rowToV1Record row = Err er
  | Ok (inr c1), Ok (inr c2) => c1 = c2
  | Panic p1, Panic p2 => p1 = p2
  | _, _ => False
  end.


(** A v1 conditional write, spelled for v2. *)
Definition v1_update_as_v2 (req : v1_UpdateWhereRequest) : v2_UpdateWhereRequest :=
  let number u := Some (mkv2Value false (v_Bytes (Uint u))) in
  mkv2UpdateWhereRequest (d_Name (tb_d t))
    [("tenant_id", number (u1_TenantId req)); ("status", number (u1_MatchStatus req))]
    [("status", number (u1_SetStatus req))] (u1_Session req).

Lemma serves_v1_name : serves_v1 → d_Name (tb_d t) ≠ "".
Proof. intros (_ & _ & ToLower & sha & cfg & (Hn & _)%descriptor_wf) Hname. by rewrite Hname in Hn. Qed.

(** And a write.  A v1 Put is the v2 Put of the row its record spells (the id
    is the key's, the version column left to the storage), except that a status
    above 255 is refused, not wrapped; the two Deletes are the same, and so is the
    one conditional write v1 can express.  Replies, codes and the state left are
    equal. *)
Theorem writes_protocols_agree i at_ w :
  serves_v1 →
  (∀ key rec s row raw tb, Engine_v1Key e raw = Ok (inl (key, tb)) → v1RecordToRow key rec = Ok row →
     let run1 := Engine_Put (PbDuration := PbDuration) e i at_ (mkv1PutRequest raw (Some rec) s) w in
     let run2 := V2_Put e i at_ (mkv2PutRequest raw (Some (rowToProto row)) s) w in
     run1.1 = run2.1 ∧ same_engine run1.2 run2.2) ∧
  (∀ raw rec s, 255 < rec_Status rec →
     Engine_Put (PbDuration := PbDuration) e i at_ (mkv1PutRequest raw (Some rec) s) w = (Ok (inr InvalidArgument), w)) ∧
  (∀ req, let run1 := Engine_Delete (PbDuration := PbDuration) e i at_ req w in
     let run2 := V2_Delete e i at_ req w in
     run1.1 = run2.1 ∧ same_engine run1.2 run2.2) ∧
  ∀ ios ats req, Engine_UpdateWhere durationpb_New e ios ats req w =
    if (255 <? u1_MatchStatus req) || (255 <? u1_SetStatus req) then (Ok (inr InvalidArgument), w)
    else V2_UpdateWhere durationpb_New e ios ats (v1_update_as_v2 req) w.
Proof.
  intros Hs. split_and!.
  - intros key rec s row raw tb Hkey Hrow.
    set (k := λ version, (s ← session; mret (inl (mkPutResponse (mkWriteMeta version false "" None) s))) :
                           M (EngineW C D) (reply (PutResponse (PbDuration := PbDuration)))).
    pose proof (keyed_agree (λ key, Engine_PutRow e i at_ key row) k k eq raw s w Hs) as Hag.
    unfold Engine_Put, V2_Put, sessionToV1, sessionToV2. cbn [p1_Key p1_Record p1_Session p2_Key p2_Row p2_Session].
    rewrite (v1_row_back _ _ _ Hrow), Hkey. rewrite Hkey in Hag.
    rewrite (rpc_run _ _ (key, tb) w w eq_refl). cbv beta iota. rewrite Hrow.
    cbv zeta in Hag. rewrite (rpc_run (M_lift (Ok (inl (key, tb)))) _ (key, tb) w w eq_refl) in Hag. cbv beta iota in Hag.
    rewrite (rpc_run (M_lift (status _ (Ok row))) _ row w w eq_refl). apply Hag; [|done|done|done].
    intros key' er w' Ht. unfold Engine_PutRow. rewrite Ht. done.
  - intros raw rec s Hst. pose proof (keys_agree raw Hs) as Hk. unfold Engine_Put. cbn [p1_Key p1_Record p1_Session].
    destruct (Engine_v1Key e raw) as [[[key tb]|c]|er|p]; [|by destruct Hk as [-> _]|done..].
    rewrite (rpc_run _ _ (key, tb) w w eq_refl). apply rpc_status. unfold M_lift, v1RecordToRow, statusToUint8.
    by rewrite (proj2 (Z.ltb_lt _ _) Hst).
  - intros req. unfold Engine_Delete, V2_Delete, sessionToV1, sessionToV2.
    apply (keyed_agree (λ key, Engine_DeleteRow e i at_ key)); [done| |done|done|].
    + intros key er w' Ht. unfold Engine_DeleteRow. rewrite Ht. done.
    + by intros key [existed v] w1 _ _.
  - intros ios ats req. pose proof (serves_v1_name Hs) as Hname. destruct Hs as (_ & Hv1 & _).
    unfold Engine_UpdateWhere, V2_UpdateWhere. rewrite Hv1, (rpc_run _ _ t w w eq_refl). unfold statusToUint8.
    destruct (255 <? u1_MatchStatus req); [done|]. rewrite (rpc_run _ _ (u1_MatchStatus req) w w eq_refl).
    destruct (255 <? u1_SetStatus req); [done|]. rewrite (rpc_run _ _ (u1_SetStatus req) w w eq_refl).
    cbn [orb]. rewrite bool_decide_eq_false_2 by done. done.
Qed.
End protocols.

(** ** Witnesses *)

Section demo.
#[local] Existing Instance ref_cache.

(** A table of the legacy shape, under another name, on one shard. *)
Definition widgets : TableConfig :=
  mkTableConfig "widgets" ["id"] "version"
    [mkColumnConfig "id" Uint64 false ""; mkColumnConfig "tenant_id" Uint32 false ""; mkColumnConfig "status" Uint8 false "";
     mkColumnConfig "payload" Bytes_ false ""; mkColumnConfig "version" Uint64 false ""].

Definition widgets_d : Descriptor :=
  match NewDescriptor (λ s, s) (λ s, s) widgets with Ok d => d | _ => users_d end.
Definition widgets_t : Table := match NewTable (Some widgets_d) [] [] with Ok t => t | _ => users_t end.
Definition widgets_shard : Shard := mkShard "s0" {["widgets" := widgets_t]}.

#[local] Instance widgets_mysql : Mysql (gmap (list string) cells) := mem_mysql widgets_t.

Definition widgets_opts : engine_Options :=
  mkEngineOptions {["s0" := widgets_shard]} [mkTableSpec (Some widgets_d) ["s0"]] 0 0 0 0 0 true (mkWaitPolicy 3 1000 10000) "dev".

Definition widgets_w : EngineW (gmap string LuaCache.cell) (gmap (list string) cells) :=
  mkEngineW {["s0" := mkShardW (mkClock 7) {[["1"] := [Some "1"; Some "4"; Some "2"; Some "x"; Some "5"]]} None]}
    (Some ∅) None None (NewToken 64).

Lemma widgets_served : ∃ e t, serves_v1 e widgets_opts t.
Proof.
  assert (∃ r, storage_NewRouter ["s0"] = Ok r) as [r Hr].
  { unfold storage_NewRouter. rewrite bool_decide_eq_false_2 by congruence. cbn [collect_unique].
    rewrite bool_decide_eq_false_2 by congruence.
    destruct (bool_decide ("s0" ∈ (∅ : gset string))); eexists; reflexivity. }
  set (t := mktable widgets_d r {["s0" := widgets_shard]}).
  exists (mkEngine {["widgets" := t]} ["widgets"] 0 64 1000 (mkWaitPolicy 3 1000 10000) 5000000000 0 true "dev"), t.
  split_and!; [|vm_compute; reflexivity|exists (λ s, s), (λ s, s), widgets; vm_compute; reflexivity].
  unfold engine_New, buildTables. rewrite bool_decide_eq_false_2 by (unfold widgets_opts; cbn; congruence).
  unfold widgets_opts. cbn [eo_Tables eo_Shards build_specs ts_Descriptor ts_Shards].
  rewrite bool_decide_eq_false_2 by (rewrite lookup_empty; intros [? [=]]).
  rewrite bool_decide_eq_false_2 by congruence. cbn [build_owned]. rewrite lookup_singleton_eq.
  assert (Shard_Table widgets_shard (d_Name widgets_d) = Ok widgets_t) as -> by (vm_compute; reflexivity).
  mrun. rewrite Hr. vm_compute. reflexivity.
Qed.

Definition widget_get : GetRequest (PbDuration := Z) := mkGetRequest "widgets:1" 0 None None.


Lemma writes_protocols_agree_witness :
  ∃ e t, Engine_UpdateWhere id e (λ _, users_io 0) (λ _ _, (0, 0)) (mkv1UpdateWhereRequest 4 2 3 None) widgets_w =
    V2_UpdateWhere id e (λ _, users_io 0) (λ _ _, (0, 0))
      (v1_update_as_v2 t (mkv1UpdateWhereRequest 4 2 3 None)) widgets_w.
Proof.
  destruct widgets_served as (e & t & Hs). exists e, t.
  destruct (writes_protocols_agree (PbDuration := Z) id e widgets_opts t (users_io 0) (0, 0) widgets_w Hs) as (_ & _ & _ & Hu).
  exact (Hu (λ _, users_io 0) (λ _ _, (0, 0)) (mkv1UpdateWhereRequest 4 2 3 None)).
Defined.
End demo.
