(* ===== verification/Cdc.v ===== *)
(** Flux, the binlog tailer: [src/internal/cdc/tailer.go] and the position type of
    [checkpoint.go].

    The tailer reads one shard's binlog through a replication client it does not
    own, invalidates the rows it sees change, and saves how far it got.  The cache
    and the checkpoint store are interfaces of the source and classes here; the
    replication client is the list of the events it delivers, in binlog order.
    Clock readings and the context's state are inputs.  The callback the options
    carry is a log in the state. *)

From S2P Require Import Prelude GoStd Schema.

Local Open Scope Z_scope.

(** ** Values of a binlog row

    The dynamic types the source switches on; any other comes with its
    [fmt.Sprint] text. *)

Inductive binval :=
  | BNil
  | BBytes (s : string) | BString (s : string)
  | BUint64 (n : Z) | BInt64 (n : Z) | BUint32 (n : Z) | BInt32 (n : Z) | BInt (n : Z)
  | BOther (sprint : string).

Definition toUint64 (v : binval) : option Z :=
  match v with
  | BUint64 n => Some n
  | BInt64 n => if n <? 0 then None else Some n
  | BUint32 n => Some n
  | BInt32 n => if n <? 0 then None else Some n
  | BInt n => if n <? 0 then None else Some n
  | _ => None
  end.

(** [fmt.Sprint], on the values that reach it. *)
Definition Sprint (v : binval) : string :=
  match v with
  | BNil => "<nil>"
  | BBytes s | BString s | BOther s => s
  | BUint64 n | BInt64 n | BUint32 n | BInt32 n | BInt n => FormatInt n
  end.

Definition binlogValue (v : binval) : keyarg :=
  match v with
  | BBytes s | BString s => ArgString s
  | v => match toUint64 v with
         | Some u => ArgUint64 u
         | None => ArgString (Sprint v)
         end
  end.

Fixpoint rowKey_values (keyIdx : list nat) (row : list binval) : option (list keyarg) :=
  match keyIdx with
  | [] => Some []
  | idx :: keyIdx =>
      match row !! idx with
      | None | Some BNil => None
      | Some v => vs ← rowKey_values keyIdx row; Some (binlogValue v :: vs)
      end
  end.

Definition rowKey (table : string) (keyIdx : list nat) (row : list binval) : option string :=
  values ← rowKey_values keyIdx row;
  match KeyOf table values with
  | Ok k => Some (Key_String k)
  | _ => None
  end.

(** ** Positions *)

Record Position := mkPosition { pos_File : string; pos_Offset : Z }.

#[global] Instance Position_eq_dec : EqDecision Position.
Proof. solve_decision. Defined.

Definition Position_Before (p other : Position) : bool :=
  if negb (bool_decide (pos_File p = pos_File other)) then str_ltb (pos_File p) (pos_File other)
  else pos_Offset p <? pos_Offset other.

Definition Position_String (p : Position) : string := pos_File p +:+ ":" +:+ FormatUint (pos_Offset p).

(** ** What the tailer is given *)

Class Invalidator (C : Type) := { inv_Tombstone : string → Z → M C bool }.

Class Checkpoint (K : Type) := {
  chk_Load : M K (option Position);
  chk_Save : Position → M K unit;
}.

Record cdc_Options := mkCdcOptions {
  co_Descriptor : option Descriptor;
  co_InvalidateRetryFor : Z;
}.

Definition defaultInvalidateRetryFor : Z := 30 * 1000 * Millisecond.
Definition initialInvalidateBackoff : Z := 100 * Millisecond.
Definition maxInvalidateBackoff : Z := 2000 * Millisecond.

(** ** The tailer *)

Record Tailer := mkTailer {
  tl_position : Position; tl_dirty : bool; tl_frozen : bool; tl_frozenAt : Position;
}.

Definition no_position : Position := mkPosition "" 0.
Definition fresh_tailer : Tailer := mkTailer no_position false false no_position.

(** The arguments [New] checks before it connects. *)
Definition cdc_New (hasCache hasCheckpoint : bool) (serverID : Z) (table : string) (opts : cdc_Options) :
    result (cdc_Options * Tailer) :=
  if negb hasCache then Err (Errorf "cdc: no invalidator")
  else if negb hasCheckpoint then Err (Errorf "cdc: no checkpoint store")
  else if serverID =? 0 then Err (Errorf "cdc: server id must be set and unique per tailer")
  else if bool_decide (table = "") then Err (Errorf "cdc: no table configured")
  else
    let retry := if co_InvalidateRetryFor opts =? 0 then defaultInvalidateRetryFor else co_InvalidateRetryFor opts in
    Ok (mkCdcOptions (co_Descriptor opts) retry, fresh_tailer).

(** The tailer, the cache and the checkpoint store it writes to, and the calls of
    [OnInvalidate]. *)
Record TailerW (C K : Type) := mkTailerW {
  tw_tailer : Tailer; tw_cache : C; tw_store : K; tw_calls : list (string * Z * bool);
}.
Arguments mkTailerW {C K} _ _ _ _.
Arguments tw_tailer {C K} _.
Arguments tw_cache {C K} _.
Arguments tw_store {C K} _.
Arguments tw_calls {C K} _.

Inductive Action := InsertAction | UpdateAction | DeleteAction.

Record RowsEvent := mkRowsEvent {
  ev_Table : string; ev_Columns : list string; ev_Action : Action; ev_Rows : list (list binval);
}.

(** The time an invalidation sees: the clock at its start and at the check after
    each failed attempt, and whether the context is done there and while it
    waits. *)
Record retry_io := mkRetryIO { rt_start : Z; rt_now : nat → Z; rt_done : nat → bool; rt_cancelled : nat → bool }.

Section tailer.
Context {C K : Type} `{Invalidator C} `{Checkpoint K}.
Notation W := (TailerW C K).

Definition with_tailer (t : Tailer) (w : W) : W := mkTailerW t (tw_cache w) (tw_store w) (tw_calls w).

Definition Tailer_Frozen (t : Tailer) : Position * bool := (tl_frozenAt t, tl_frozen t).
Definition Tailer_Position (t : Tailer) : Position := tl_position t.

Definition freeze_at (t : Tailer) : Tailer :=
  if tl_frozen t then t else mkTailer (tl_position t) (tl_dirty t) true (tl_position t).
Definition Tailer_freeze : M W unit := M_modify (λ w, with_tailer (freeze_at (tw_tailer w)) w).

Definition Tailer_setPosition (p : Position) : M W unit :=
  M_modify (λ w, let t := tw_tailer w in with_tailer (mkTailer p true (tl_frozen t) (tl_frozenAt t)) w).

Definition on_store {A} (m : M K A) : M W A := λ w,
  let '(r, k) := m (tw_store w) in (r, mkTailerW (tw_tailer w) (tw_cache w) k (tw_calls w)).
Definition on_inv {A} (m : M C A) : M W A := λ w,
  let '(r, c) := m (tw_cache w) in (r, mkTailerW (tw_tailer w) c (tw_store w) (tw_calls w)).
Definition OnInvalidate (key : string) (version : Z) (applied : bool) : M W unit :=
  M_modify (λ w, mkTailerW (tw_tailer w) (tw_cache w) (tw_store w) (tw_calls w ++ [(key, version, applied)])).

Definition Tailer_saveIfDirty : M W unit :=
  w ← M_get;
  let t := tw_tailer w in
  let p := if tl_frozen t then tl_frozenAt t else tl_position t in
  M_modify (with_tailer (mkTailer (tl_position t) false (tl_frozen t) (tl_frozenAt t)));;
  if negb (tl_dirty t) || bool_decide (pos_File p = "") then mret tt
  else M_try (on_store (chk_Save p));; mret tt.

(** [invalidate] from its [attempt]-th try; the budget bounds the tries, and so
    does [fuel], which is shown to be enough below. *)
Fixpoint invalidate_loop (fuel : nat) (io : retry_io) (deadline : Z) (key : string) (version : Z)
    (backoff : Z) (attempt : nat) : M W unit :=
  match fuel with
  | O => M_panic "out of fuel"
  | S fuel =>
      r ← M_try (on_inv (inv_Tombstone key version));
      match r with
      | inl applied => OnInvalidate key version applied
      | inr _ =>
          if rt_done io attempt || negb (rt_now io attempt <? deadline) then Tailer_freeze
          else if rt_cancelled io attempt then Tailer_freeze
          else
            let doubled := backoff * 2 in
            invalidate_loop fuel io deadline key version
              (if maxInvalidateBackoff <? doubled then maxInvalidateBackoff else doubled) (S attempt)
      end
  end.

(** Tries enough for a budget of [retryFor]: each waits at least the initial
    backoff. *)
Definition invalidate_fuel (retryFor : Z) : nat := S (S (Z.to_nat (retryFor / initialInvalidateBackoff))).

Definition Tailer_invalidate (opts : cdc_Options) (io : retry_io) (key : string) (version : Z) : M W unit :=
  invalidate_loop (invalidate_fuel (co_InvalidateRetryFor opts)) io (rt_start io + co_InvalidateRetryFor opts)
    key version initialInvalidateBackoff 0.

(** *** The handler of row events *)

(** The last column of the name, or -1. *)
Fixpoint column_index (want : string) (cols : list string) (i found : Z) : Z :=
  match cols with
  | [] => found
  | col :: cols => column_index want cols (i + 1) (if bool_decide (col = want) then i else found)
  end.

Definition key_names (opts : cdc_Options) : list string :=
  match co_Descriptor opts with Some d => col_Name <$> d_PrimaryKey d | None => ["id"] end.
Definition version_name (opts : cdc_Options) : string :=
  match co_Descriptor opts with Some d => col_Name (d_VersionColumn d) | None => "version" end.

(** Where an event's key columns and version column are. *)
Definition event_columns (opts : cdc_Options) (e : RowsEvent) : result (list nat * nat) :=
  let keyIdx := (λ want, column_index want (ev_Columns e) 0 (-1)) <$> key_names opts in
  let versionIdx := column_index (version_name opts) (ev_Columns e) 0 (-1) in
  if existsb (λ idx, idx <? 0) keyIdx then Err (Errorf "cdc: table lacks the primary key column")
  else if versionIdx <? 0 then Err (Errorf "cdc: table lacks the version column")
  else Ok (Z.to_nat <$> keyIdx, Z.to_nat versionIdx).

(** What a row asks to be invalidated, if anything. *)
Definition row_target (table : string) (keyIdx : list nat) (versionIdx : nat) (row : list binval) :
    option (string * Z) :=
  v ← row !! versionIdx; version ← toUint64 v; key ← rowKey table keyIdx row; Some (key, version).

(** The loop over the rows: [skip] of them first, then each [step]-th. *)
Fixpoint on_rows (opts : cdc_Options) (ios : string → retry_io) (table : string) (keyIdx : list nat) (versionIdx : nat)
    (step skip : nat) (rows : list (list binval)) : M W unit :=
  match rows with
  | [] => mret tt
  | row :: rows =>
      match skip with
      | S skip => on_rows opts ios table keyIdx versionIdx step skip rows
      | O =>
          match row_target table keyIdx versionIdx row with
          | Some (key, version) => Tailer_invalidate opts (ios key) key version
          | None => mret tt
          end;;
          on_rows opts ios table keyIdx versionIdx step (pred step) rows
      end
  end.

Definition handler_OnRow (opts : cdc_Options) (ios : string → retry_io) (e : RowsEvent) : M W unit :=
  '(keyIdx, versionIdx) ← M_lift (event_columns opts e);
  let '(step, offset) := match ev_Action e with UpdateAction => (2, 1)%nat | _ => (1, 0)%nat end in
  on_rows opts ios (ev_Table e) keyIdx versionIdx step offset (ev_Rows e).

Definition handler_OnPosSynced (p : Position) : M W unit := Tailer_setPosition p.

(** *** The stream

    What happens while [Run] waits: a row event, a synced position, or a tick of
    the saver.  An error of [OnRow] ends the stream. *)

Inductive stream_event :=
  | EvRow (e : RowsEvent) (ios : string → retry_io)
  | EvSynced (p : Position)
  | EvTick.

Definition handle (opts : cdc_Options) (ev : stream_event) : M W unit :=
  match ev with
  | EvRow e ios => handler_OnRow opts ios e
  | EvSynced p => handler_OnPosSynced p
  | EvTick => Tailer_saveIfDirty
  end.

Fixpoint stream (opts : cdc_Options) (evs : list stream_event) : M W unit :=
  match evs with
  | [] => mret tt
  | ev :: evs => handle opts ev;; stream opts evs
  end.

(** Where the stream starts: the stored checkpoint, else the shard's current
    position. *)
Definition Tailer_begin (current : result Position) : M W unit :=
  saved ← on_store chk_Load;
  start ← match saved with
          | Some p => mret p
          | None => M_lift (match current with
                            | Err e => Err (Wrapf "cdc: read current binlog position" e)
                            | r => r
                            end)
          end;
  Tailer_setPosition start.

(** How the wait of [Run] ended: the context, or the replication client. *)
Inductive ending := CtxDone (e : error) | CanalStopped (e : option error).

Definition run_result (how : ending) (streamed : unit + error) : result unit :=
  match how with
  | CtxDone e => Err e
  | CanalStopped e =>
      match (match streamed with inr err => Some err | inl _ => e end) with
      | None => Ok tt
      | Some err => if errors_Is err ErrCanceled then Ok tt else Err (Wrapf "cdc: tail" err)
      end
  end.

(** [Run]: begin, the stream, and the final save, whether or not it failed.  A
    tick inside an event saves the same position as one just before or after it,
    so the ticks of the saver are events between the others. *)
Definition Tailer_Run (opts : cdc_Options) (current : result Position) (evs : list stream_event) (how : ending) : M W unit :=
  Tailer_begin current;;
  streamed ← M_try (stream opts evs);
  Tailer_saveIfDirty;;
  M_lift (run_result how streamed).

End tailer.
