(* ===== verification/CdcSpec.v ===== *)
(** What the binlog tailer promises (Cdc.v): it names rows as the engine does, every
    invalidation ends, and a saved checkpoint never passes an invalidation that was
    not delivered.  And what it does not: a deletion is not invalidated. *)

From S2P Require Import LuaCache.
From S2P Require Import Prelude GoStd Hlc Ring Consistency Freshness Schema Row Table Mysql Storage Admission CacheClient Engine EngineSpec.
From S2P Require Import RefCache Cdc.

Local Open Scope Z_scope.

(** ** The interfaces' laws *)

(** A cache client's call returns, with a value or an error. *)
Class InvalidatorLaws (C : Type) `{Invalidator C} := {
  inv_returns : ∀ k v c, no_panic (inv_Tombstone k v c).1;
}.

(** [stored]: the checkpoint a later start will find.  A save is atomic: it
    replaces it or leaves it, and replaces it when it succeeds. *)
Class CheckpointLaws (K : Type) `{Checkpoint K} (stored : K → option Position) := {
  law_load : ∀ k, chk_Load k = (Ok (stored k), k) ∨ ∃ e, chk_Load k = (Err e, k);
  law_save : ∀ p k, wp (chk_Save p) (λ r k', no_panic r ∧ (stored k' = Some p ∨ stored k' = stored k) ∧
                                             (is_ok r = true → stored k' = Some p)) k;
}.

(** Time passes: the clock does not run backwards, and a wait is as long as asked. *)
Definition ticking (io : retry_io) : Prop :=
  rt_start io ≤ rt_now io 0%nat ∧ ∀ n, rt_now io n + initialInvalidateBackoff ≤ rt_now io (S n).

Section spec.
Context {C K : Type} `{Invalidator C} `{Checkpoint K}.
Context `{!InvalidatorLaws C} (stored : K → option Position) `{!CheckpointLaws K stored}.
Implicit Types w : TailerW C K.

(** ** One invalidation *)

(** What an invalidation leaves: the key delivered, or the tailer frozen. *)
Definition attempted (key : string) (version : Z) w w' : Prop :=
  tw_store w' = tw_store w ∧
  ((∃ applied, tw_tailer w' = tw_tailer w ∧ tw_calls w' = tw_calls w ++ [(key, version, applied)]) ∨
   tw_tailer w' = freeze_at (tw_tailer w) ∧ tw_calls w' = tw_calls w).

Lemma invalidate_loop_wp fuel io deadline key version : ∀ backoff attempt w,
  ticking io → (1 ≤ fuel)%nat → deadline ≤ rt_now io (attempt + pred fuel)%nat →
  wp (invalidate_loop fuel io deadline key version backoff attempt)
    (λ r w', r = Ok tt ∧ attempted key version w w') w.
Proof.
  induction fuel as [|fuel IH]; intros backoff attempt w Htick Hf Hd; [lia|]. cbn [invalidate_loop].
  apply wp_bind, wp_try. unfold wp at 1, on_inv.
  pose proof (inv_returns key version (tw_cache w)) as Hret.
  destruct (inv_Tombstone key version (tw_cache w)) as [[applied|er|p] c]; cbn [fst snd].
  - unfold OnInvalidate, M_modify, wp. cbn. split; [done|]. split; [done|]. left. by exists applied.
  - destruct (rt_done io attempt || negb (rt_now io attempt <? deadline)) eqn:Estop.
    { unfold Tailer_freeze, M_modify, wp. cbn. split; [done|]. split; [done|]. by right. }
    destruct (rt_cancelled io attempt).
    { unfold Tailer_freeze, M_modify, wp. cbn. split; [done|]. split; [done|]. by right. }
    apply orb_false_iff in Estop as [_ Hlt%negb_false_iff]. apply Z.ltb_lt in Hlt.
    destruct fuel as [|fuel]; [cbn in Hd; rewrite Nat.add_0_r in Hd; lia|].
    eapply wp_mono; [apply IH; [done|lia|]|].
    + cbn [pred] in *. replace (S attempt + fuel)%nat with (attempt + S fuel)%nat by lia. done.
    + intros r w' [-> Ha]. by split.
  - by destruct (Hret p).
Qed.

Lemma ticking_now io n : ticking io → rt_start io + Z.of_nat n * initialInvalidateBackoff ≤ rt_now io n.
Proof.
  intros [H0' Hs]. induction n as [|n IH]; [lia|]. specialize (Hs n). lia.
Qed.

Lemma fuel_enough io opts fuel :
  ticking io → (invalidate_fuel (co_InvalidateRetryFor opts) ≤ fuel)%nat →
  (1 ≤ fuel)%nat ∧ rt_start io + co_InvalidateRetryFor opts ≤ rt_now io (0 + pred fuel)%nat.
Proof.
  intros Ht Hf. unfold invalidate_fuel in Hf. split; [lia|]. etrans; [|apply (ticking_now io _ Ht)].
  assert (co_InvalidateRetryFor opts ≤ Z.of_nat (pred fuel) * initialInvalidateBackoff); [|lia].
  pose proof (Z.div_mod (co_InvalidateRetryFor opts) initialInvalidateBackoff) as Hdm.
  pose proof (Z.mod_pos_bound (co_InvalidateRetryFor opts) initialInvalidateBackoff) as Hm.
  unfold initialInvalidateBackoff, Millisecond in *. lia.
Qed.

Lemma tailer_invalidate_wp opts io key version w :
  ticking io → wp (Tailer_invalidate opts io key version) (λ r w', r = Ok tt ∧ attempted key version w w') w.
Proof.
  intros Ht. destruct (fuel_enough io opts (invalidate_fuel (co_InvalidateRetryFor opts)) Ht) as [H1 H2]; [lia|].
  by apply invalidate_loop_wp.
Qed.

Lemma invalidate_loop_fuel fuel1 io deadline key version : ∀ fuel2 backoff attempt w,
  ticking io → (1 ≤ fuel1)%nat → deadline ≤ rt_now io (attempt + pred fuel1)%nat → (fuel1 ≤ fuel2)%nat →
  invalidate_loop fuel2 io deadline key version backoff attempt w =
  invalidate_loop fuel1 io deadline key version backoff attempt w.
Proof.
  induction fuel1 as [|fuel1 IH]; intros [|fuel2] backoff attempt w Ht H1 Hd Hle; try lia. cbn [invalidate_loop].
  destruct (M_try (on_inv (inv_Tombstone key version)) w) as [[[applied|er]|er|p] w1] eqn:E.
  - by rewrite !(M_bind_run _ _ _ _ _ E).
  - rewrite !(M_bind_run _ _ _ _ _ E). destruct (rt_done io attempt || negb (rt_now io attempt <? deadline)) eqn:Estop; [done|].
    destruct (rt_cancelled io attempt); [done|]. apply orb_false_iff in Estop as [_ Hlt%negb_false_iff]. apply Z.ltb_lt in Hlt.
    destruct fuel1 as [|fuel1]; [cbn in Hd; rewrite Nat.add_0_r in Hd; lia|].
    apply IH; [done|lia| |lia]. cbn [pred] in *. by replace (S attempt + fuel1)%nat with (attempt + S fuel1)%nat by lia.
  - by rewrite !(M_bind_err _ _ _ _ _ E).
  - by rewrite !(M_bind_panic _ _ _ _ _ E).
Qed.

(** An invalidation ends, whatever the cache does.  While time passes it tries
    at most two times more than the budget holds initial backoffs; it then has
    delivered the invalidation, and said so once, or frozen the checkpoint; it
    never fails, and more fuel changes nothing. *)
Theorem invalidate_terminates opts io key version fuel w :
  ticking io → (invalidate_fuel (co_InvalidateRetryFor opts) ≤ fuel)%nat →
  (∃ w', Tailer_invalidate opts io key version w = (Ok tt, w') ∧ attempted key version w w') ∧
  invalidate_loop fuel io (rt_start io + co_InvalidateRetryFor opts) key version initialInvalidateBackoff 0 w =
  Tailer_invalidate opts io key version w.
Proof.
  intros Ht Hf. split.
  - pose proof (tailer_invalidate_wp opts io key version w Ht) as Hwp. unfold wp in Hwp.
    destruct (Tailer_invalidate opts io key version w) as [r w']. cbn in Hwp. destruct Hwp as [-> Ha]. by exists w'.
  - unfold Tailer_invalidate.
    destruct (fuel_enough io opts (invalidate_fuel (co_InvalidateRetryFor opts)) Ht) as [H1 H2]; [lia|].
    by apply invalidate_loop_fuel.
Qed.

(** ** One row event *)

(** The rows [on_rows] looks at. *)
Fixpoint pick {A} (step skip : nat) (rows : list A) : list A :=
  match rows with
  | [] => []
  | row :: rows => match skip with S skip => pick step skip rows | O => row :: pick step (pred step) rows end
  end.

(** The images an event carries that matter: of an update, the second of each
    pair. *)
Definition images {A} (a : Action) (rows : list A) : list A :=
  match a with UpdateAction => pick 2 1 rows | _ => pick 1 0 rows end.

(** What an event asks to be invalidated. *)
Definition event_targets (opts : cdc_Options) (e : RowsEvent) : list (string * Z) :=
  match event_columns opts e with
  | Ok (keyIdx, versionIdx) => omap (row_target (ev_Table e) keyIdx versionIdx) (images (ev_Action e) (ev_Rows e))
  | _ => []
  end.

Definition delivered w (target : string * Z) : Prop := ∃ applied, (target.1, target.2, applied) ∈ tw_calls w.

(** What a row event leaves: every target delivered, or the tailer frozen. *)
Definition handled (targets : list (string * Z)) w w' : Prop :=
  tw_store w' = tw_store w ∧ (∃ l, tw_calls w' = tw_calls w ++ l) ∧
  (tw_tailer w' = tw_tailer w ∧ (∀ target, target ∈ targets → delivered w' target) ∨
   tw_tailer w' = freeze_at (tw_tailer w)).

Lemma freeze_idem t : freeze_at (freeze_at t) = freeze_at t.
Proof. unfold freeze_at. destruct (tl_frozen t) eqn:E; [by rewrite E|done]. Qed.

Lemma delivered_grows w w' target :
  (∃ l, tw_calls w' = tw_calls w ++ l) → delivered w target → delivered w' target.
Proof. intros [l Hl] [a Ha]. exists a. rewrite Hl. apply elem_of_app. by left. Qed.

Lemma handled_cons target targets w w1 w' :
  attempted target.1 target.2 w w1 → handled targets w1 w' → handled (target :: targets) w w'.
Proof.
  intros (Hs & Ha) (Hs' & Hg & Hh). split; [congruence|].
  assert (∃ l, tw_calls w1 = tw_calls w ++ l) as Hg1.
  { destruct Ha as [(a & _ & ->)|[_ ->]]; [by eexists|exists []; by rewrite app_nil_r]. }
  split. { destruct Hg as [l ->], Hg1 as [l1 ->]. exists (l1 ++ l). by rewrite app_assoc. }
  destruct Ha as [(a & Ht & Hc)|[Ht _]]; destruct Hh as [[Ht' Hd]|Ht']; rewrite Ht', Ht, ?freeze_idem; auto.
  left. split; [done|]. intros tg [->|Hin]%elem_of_cons; [|by apply Hd].
  apply (delivered_grows w1 w' _ Hg). exists a. rewrite Hc. apply elem_of_app. right. destruct target. by left.
Qed.

Lemma on_rows_wp opts ios table keyIdx versionIdx step rows : ∀ skip w,
  (∀ key, ticking (ios key)) →
  wp (on_rows opts ios table keyIdx versionIdx step skip rows)
    (λ r w', r = Ok tt ∧ handled (omap (row_target table keyIdx versionIdx) (pick step skip rows)) w w') w.
Proof.
  induction rows as [|row rows IH]; intros skip w Ht; cbn [on_rows pick].
  { apply wp_ret. split; [done|]. split; [done|]. split; [exists []; by rewrite app_nil_r|]. left. split; [done|].
    by intros ? ?%elem_of_nil. }
  destruct skip as [|skip]; [|by apply IH]. apply wp_bind. cbn.
  destruct (row_target table keyIdx versionIdx row) as [[key version]|].
  - eapply wp_mono; [by apply tailer_invalidate_wp|]. intros r w1 [-> Ha].
    eapply wp_mono; [by apply IH|]. intros r w' [-> Hh]. split; [done|]. by eapply (handled_cons (key, version)).
  - apply wp_ret. by apply IH.
Qed.

Lemma OnRow_wp opts ios e w :
  (∀ key, ticking (ios key)) →
  wp (handler_OnRow opts ios e) (λ r w',
    if is_ok (event_columns opts e) then r = Ok tt ∧ handled (event_targets opts e) w w'
    else (∃ er, r = Err er) ∧ w' = w) w.
Proof.
  intros Ht. unfold handler_OnRow, event_targets, images. apply wp_bind, wp_lift.
  destruct (event_columns opts e) as [[keyIdx versionIdx]|er|p] eqn:E; cbn [is_ok].
  - destruct (ev_Action e); by apply on_rows_wp.
  - by split; [eexists|].
  - exfalso. unfold event_columns in E. destruct (existsb _ _); [done|]. by destruct (_ <? 0).
Qed.

(** ** The checkpoint *)

Definition ticking_event (ev : stream_event) : Prop :=
  match ev with EvRow _ ios => ∀ key, ticking (ios key) | _ => True end.

(** The last position synced. *)
Definition last_synced (start : Position) (evs : list stream_event) : Position :=
  foldl (λ p ev, match ev with EvSynced q => q | _ => p end) start evs.

Definition covered (opts : cdc_Options) w (evs : list stream_event) : Prop :=
  ∀ e ios target, EvRow e ios ∈ evs → target ∈ event_targets opts e → delivered w target.

(** A position that some events reached, everything in them delivered. *)
Definition reached (opts : cdc_Options) (start : Position) (evs : list stream_event) w (p : Position) : Prop :=
  ∃ before after, evs = before ++ after ∧ p = last_synced start before ∧ covered opts w before.

Record tracking (opts : cdc_Options) (start : Position) (evs : list stream_event) (saved0 : option Position) w : Prop := {
  tr_position : tl_position (tw_tailer w) = last_synced start evs;
  tr_covered : tl_frozen (tw_tailer w) = false → covered opts w evs;
  tr_frozen : tl_frozen (tw_tailer w) = true → reached opts start evs w (tl_frozenAt (tw_tailer w));
  tr_saved : stored (tw_store w) = saved0 ∨ ∃ p, stored (tw_store w) = Some p ∧ reached opts start evs w p;
}.

Lemma reached_later opts start evs evs' w w' p :
  (∃ l, tw_calls w' = tw_calls w ++ l) → reached opts start evs w p → reached opts start (evs ++ evs') w' p.
Proof.
  intros Hg (b & a & -> & -> & Hc). exists b, (a ++ evs'). split_and!; [by rewrite app_assoc|done|].
  intros e ios tg He Ht. eapply delivered_grows; [done|]. by eapply Hc.
Qed.

Lemma last_synced_snoc start evs ev :
  last_synced start (evs ++ [ev]) = match ev with EvSynced q => q | _ => last_synced start evs end.
Proof. unfold last_synced. rewrite foldl_app. by destruct ev. Qed.

Lemma covered_snoc opts w w' evs ev :
  (∃ l, tw_calls w' = tw_calls w ++ l) → covered opts w evs →
  (∀ e ios target, ev = EvRow e ios → target ∈ event_targets opts e → delivered w' target) →
  covered opts w' (evs ++ [ev]).
Proof.
  intros Hg Hc Hev e ios tg [Hin|Hin]%elem_of_app Ht.
  - eapply delivered_grows; [done|]. by eapply Hc.
  - apply list_elem_of_singleton in Hin. by eapply Hev.
Qed.

Lemma row_tracking opts start evs saved0 e ios w w' :
  tracking opts start evs saved0 w → handled (event_targets opts e) w w' →
  tracking opts start (evs ++ [EvRow e ios]) saved0 w'.
Proof.
  intros [T1 T2 T3 T4] (Hs & Hg & Hh).
  assert (stored (tw_store w') = saved0 ∨ ∃ p, stored (tw_store w') = Some p ∧ reached opts start (evs ++ [EvRow e ios]) w' p) as Hsv.
  { rewrite Hs. destruct T4 as [?|(p & Hp & Hr)]; [by left|right]. exists p. split; [done|]. by eapply reached_later. }
  destruct Hh as [[Ht Hd]|Ht].
  - split; rewrite ?Ht, ?last_synced_snoc; [done| | |done].
    + intros Hf. apply (covered_snoc _ w); [done|by apply T2|]. intros e' ios' tg [= <- <-]. apply Hd.
    + intros Hf. eapply reached_later; [done|by apply T3].
  - unfold freeze_at in Ht. destruct (tl_frozen (tw_tailer w)) eqn:Ef.
    + split; rewrite ?Ht, ?last_synced_snoc; [done|by rewrite Ef| |done].
      intros _. eapply reached_later; [done|by apply T3].
    + split; rewrite ?Ht, ?last_synced_snoc; cbn; [done|done| |done].
      intros _. exists evs, [EvRow e ios]. split_and!; [done|by rewrite T1|].
      intros e' ios' tg He Htg. eapply delivered_grows; [done|]. by eapply T2.
Qed.

Lemma synced_tracking opts start evs saved0 p w w' :
  tracking opts start evs saved0 w → Tailer_setPosition p w = (Ok tt, w') →
  tracking opts start (evs ++ [EvSynced p]) saved0 w'.
Proof.
  intros [T1 T2 T3 T4]. unfold Tailer_setPosition, M_modify. intros [= <-].
  assert (∀ q, reached opts start evs w q → reached opts start (evs ++ [EvSynced p]) w q) as Hr.
  { intros q. apply reached_later. exists []. by rewrite app_nil_r. }
  split; cbn; rewrite ?last_synced_snoc; [done| |exact (λ Hf, Hr _ (T3 Hf))|].
  - intros Hf. apply (covered_snoc _ w); [exists []; by rewrite app_nil_r|by apply T2|done].
  - destruct T4 as [?|(q & Hq & ?)]; [by left|right]. exists q. split; [done|]. by apply Hr.
Qed.

Lemma save_wp opts start evs saved0 w :
  tracking opts start evs saved0 w →
  wp Tailer_saveIfDirty (λ r w', r = Ok tt ∧ tracking opts start evs saved0 w') w.
Proof.
  intros [T1 T2 T3 T4]. unfold Tailer_saveIfDirty. apply wp_bind, wp_get. apply wp_bind.
  unfold wp at 1, M_modify. cbn [fst snd].
  set (p := if tl_frozen (tw_tailer w) then tl_frozenAt (tw_tailer w) else tl_position (tw_tailer w)).
  set (w1 := with_tailer _ w).
  assert (reached opts start evs w p) as Hp.
  { subst p. destruct (tl_frozen (tw_tailer w)) eqn:Ef; [by apply T3|]. exists evs, [].
    split_and!; [by rewrite app_nil_r|done|by apply T2]. }
  destruct (negb _ || _); [apply wp_ret; split; [done|by split]|].
  apply wp_bind, wp_try. unfold wp at 1, on_store. pose proof (law_save p (tw_store w1)) as Hlaw. unfold wp in Hlaw.
  destruct (chk_Save p (tw_store w1)) as [r k] eqn:Es. cbn [fst snd] in *. destruct Hlaw as (Hnp & Hst & _).
  assert (tracking opts start evs saved0 (mkTailerW (tw_tailer w1) (tw_cache w1) k (tw_calls w1))) as Htr.
  { split; cbn; [done..|]. destruct Hst as [Hst|Hst].
    - right. exists p. by split.
    - rewrite Hst. destruct T4 as [?|(q & Hq & Hr)]; [by left|right]. by exists q. }
  destruct r as [[]|er|q]; [by apply wp_ret|by apply wp_ret|by destruct (Hnp q)].
Qed.

Lemma stream_wp opts start saved0 evs : ∀ done_ w,
  tracking opts start done_ saved0 w → Forall ticking_event evs →
  wp (stream opts evs) (λ r w', no_panic r ∧ ∃ evs1 evs2, evs = evs1 ++ evs2 ∧
    tracking opts start (done_ ++ evs1) saved0 w' ∧ (is_ok r = true → evs2 = [])) w.
Proof.
  induction evs as [|ev evs IH]; intros done_ w Htr Ht; cbn [stream].
  { apply wp_ret. split; [done|]. exists [], []. split_and!; [done|by rewrite app_nil_r|done]. }
  apply Forall_cons in Ht as [Hev Ht]. apply wp_bind.
  assert (∀ w1, tracking opts start (done_ ++ [ev]) saved0 w1 →
    wp (stream opts evs) (λ r w', no_panic r ∧ ∃ evs1 evs2, ev :: evs = evs1 ++ evs2 ∧
      tracking opts start (done_ ++ evs1) saved0 w' ∧ (is_ok r = true → evs2 = [])) w1) as Hnext.
  { intros w1 Htr1. eapply wp_mono; [by apply (IH (done_ ++ [ev]))|].
    intros r w' (Hnp & e1 & e2 & -> & Htr' & Hok). split; [done|]. exists (ev :: e1), e2.
    split_and!; [done| |done]. by rewrite <-app_assoc in Htr'. }
  destruct ev as [e ios|p|]; cbn [handle].
  - eapply wp_mono; [by apply OnRow_wp|]. intros r w1. destruct (is_ok (event_columns opts e)).
    + intros [-> Hh]. apply Hnext. by apply (row_tracking _ _ _ _ _ _ w).
    + intros [[er ->] ->]. split; [done|]. exists [], (EvRow e ios :: evs). rewrite app_nil_r. done.
  - unfold wp at 1. destruct (handler_OnPosSynced p w) as [r w1] eqn:E. cbn. unfold handler_OnPosSynced in E.
    assert (r = Ok tt) as -> by (unfold Tailer_setPosition, M_modify in E; by injection E as <- <-).
    apply Hnext. by apply (synced_tracking _ _ _ _ _ w).
  - eapply wp_mono; [by apply (save_wp opts start done_ saved0)|]. intros r w1 [-> Htr1]. apply Hnext.
    destruct Htr1 as [T1 T2 T3 T4]. assert (∃ l, tw_calls w1 = tw_calls w1 ++ l) as Hg by (exists []; by rewrite app_nil_r).
    split; rewrite ?last_synced_snoc; [done| | |].
    + intros Hf. apply (covered_snoc _ w1); [done|by apply T2|done].
    + intros Hf. eapply reached_later; [done|by apply T3].
    + destruct T4 as [?|(q & ? & ?)]; [by left|right]. exists q. split; [done|]. by eapply reached_later.
Qed.

(** Where a run starts: the stored checkpoint, else the shard's own position. *)
Definition started w (current : result Position) (start : Position) : Prop :=
  stored (tw_store w) = Some start ∨ stored (tw_store w) = None ∧ current = Ok start.

Definition checkpoint_safe opts current evs w w' : Prop :=
  ∀ p, stored (tw_store w') = Some p → ∃ start, started w current start ∧ reached opts start evs w' p.

Lemma unsaved_safe opts current evs w w' : stored (tw_store w') = stored (tw_store w) → checkpoint_safe opts current evs w w'.
Proof.
  intros Hs p Hp. rewrite Hs in Hp. exists p. split; [by left|]. exists [], evs. split_and!; [done|done|].
  by intros ? ? ? ?%elem_of_nil.
Qed.

Lemma tracking_safe opts current start evs1 evs2 w w' :
  started w current start → tracking opts start evs1 (stored (tw_store w)) w' →
  checkpoint_safe opts current (evs1 ++ evs2) w w'.
Proof.
  intros Hst [_ _ _ [Hs|(q & Hq & Hr)]]; [by apply unsaved_safe|]. intros p Hp. assert (q = p) as -> by congruence.
  exists start. split; [done|]. eapply reached_later; [exists []; by rewrite app_nil_r|done].
Qed.

Lemma finish_wp opts current start how evs w w1 :
  started w current start → tracking opts start [] (stored (tw_store w)) w1 → Forall ticking_event evs →
  wp (streamed ← M_try (stream opts evs); Tailer_saveIfDirty;; M_lift (run_result how streamed))
    (λ r w', no_panic r ∧ checkpoint_safe opts current evs w w') w1.
Proof.
  intros Hstart Htr Ht. apply wp_bind, wp_try. eapply wp_mono; [by eapply stream_wp|].
  intros r2 w2 (Hnp & e1 & e2 & -> & Htr2 & _). cbn [app] in Htr2.
  assert (∀ x, wp (Tailer_saveIfDirty;; M_lift (run_result how x))
    (λ r w', no_panic r ∧ checkpoint_safe opts current (e1 ++ e2) w w') w2) as Hend.
  { intros x. apply wp_bind. eapply wp_mono; [by eapply save_wp|]. intros r3 w3 [-> Htr3]. apply wp_lift. split.
    - unfold run_result. destruct how as [er|[er|]]; destruct x; try destruct (errors_Is _ _); done.
    - by eapply tracking_safe. }
  destruct r2 as [[]|er|pn]; [apply Hend|apply Hend|by destruct (Hnp pn)].
Qed.

Lemma begin_tracking opts start w w0 :
  tw_tailer w0 = fresh_tailer → tw_store w0 = tw_store w →
  wp (Tailer_setPosition start) (λ r w1, r = Ok tt ∧ tracking opts start [] (stored (tw_store w)) w1) w0.
Proof.
  intros Hfresh Hs. unfold Tailer_setPosition, M_modify, wp. cbn. split; [done|]. split; cbn.
  - done.
  - intros _. by intros ? ? ? ?%elem_of_nil.
  - by rewrite Hfresh.
  - left. by rewrite Hs.
Qed.

Lemma run_safe opts current evs how w :
  tw_tailer w = fresh_tailer → Forall ticking_event evs → no_panic current →
  no_panic (Tailer_Run opts current evs how w).1 ∧
  checkpoint_safe opts current evs w (Tailer_Run opts current evs how w).2.
Proof.
  intros Hfresh Ht Hcur. change (wp (Tailer_Run opts current evs how)
    (λ r w', no_panic r ∧ checkpoint_safe opts current evs w w') w).
  unfold Tailer_Run, Tailer_begin. apply wp_bind. apply wp_bind. unfold wp at 1, on_store.
  destruct (law_load (tw_store w)) as [->|[er ->]]; cbn [fst snd].
  2: { split; [done|]. by apply unsaved_safe. }
  assert (∀ start, started w current start → wp (Tailer_setPosition start) (λ r w1, match r with
      | Ok _ => wp (streamed ← M_try (stream opts evs); Tailer_saveIfDirty;; M_lift (run_result how streamed))
                  (λ r w', no_panic r ∧ checkpoint_safe opts current evs w w') w1
      | Err er => no_panic (@Err unit er) ∧ checkpoint_safe opts current evs w w1
      | Panic pn => no_panic (@Panic unit pn) ∧ checkpoint_safe opts current evs w w1
      end) (mkTailerW (tw_tailer w) (tw_cache w) (tw_store w) (tw_calls w))) as Hrun.
  { intros start Hst. eapply wp_mono; [by apply (begin_tracking opts start w)|]. intros r w1 [-> Htr]. by eapply finish_wp. }
  destruct (stored (tw_store w)) as [start|] eqn:Est.
  - apply wp_bind, wp_ret. apply Hrun. by left.
  - apply wp_bind, wp_lift. destruct current as [start|er|pn] eqn:Ec; [| |by destruct (Hcur pn)].
    + apply Hrun. by right.
    + split; [done|]. by apply unsaved_safe.
Qed.

(** C24: a checkpoint never passes an invalidation that was lost.  Whatever events
    the binlog holds, whatever the cache and the store do, and however the run
    ends, a position found in the store afterwards is one the stream had reached,
    and every invalidation asked for by the events up to it was delivered: what
    was not is replayed from there.  The run does not panic. *)
Theorem Run_checkpoint_safe opts current evs how w :
  tw_tailer w = fresh_tailer → Forall ticking_event evs → no_panic current →
  no_panic (Tailer_Run opts current evs how w).1 ∧
  checkpoint_safe opts current evs w (Tailer_Run opts current evs how w).2.
Proof. apply run_safe. Qed.

(** ** The rows an event names *)

(** How the binlog client presents the text of a column, by its declared type.  A
    [uint8] comes as a type of its own. *)
Definition presents (ty : Type_) (v : binval) (text : option string) : Prop :=
  match text with
  | None => v = BNil
  | Some s =>
      match ty with
      | Uint64 => ∃ n, is_u64 n ∧ v = BUint64 n ∧ s = FormatUint n
      | Uint32 => ∃ n, is_u64 n ∧ v = BUint32 n ∧ s = FormatUint n
      | Int64 => ∃ n, is_i64 n ∧ v = BInt64 n ∧ s = FormatInt n
      | Uint8 | OtherType _ => v = BOther s
      | String_ | Bytes_ | Text => v = BString s ∨ v = BBytes s
      end
  end.

(** The event's row is this row of the table: each declared column is there, under
    its name. *)
Definition presents_row (d : Descriptor) (columns : list string) (row : list binval) (r : cells) : Prop :=
  ∀ c, c ∈ d_Columns d → ∃ i v, columns !! i = Some (col_Name c) ∧ row !! i = Some v ∧ presents (col_Type c) v (Mysql.cell c r).

Lemma column_index_spec want cols : ∀ i found k, NoDup cols → cols !! k = Some want →
  column_index want cols i found = i + Z.of_nat k.
Proof.
  assert (∀ cols i found, want ∉ cols → column_index want cols i found = found) as Hnot.
  { clear. intros cols. induction cols as [|col cols IH]; intros i found Hn; [done|]. cbn [column_index].
    apply not_elem_of_cons in Hn as [Hne Hn]. rewrite bool_decide_eq_false_2 by done. by apply IH. }
  induction cols as [|col cols IH]; intros i found k Hnd Hk; [done|]. cbn [column_index].
  apply NoDup_cons in Hnd as [Hin Hnd]. destruct k as [|k].
  - injection Hk as ->. rewrite bool_decide_eq_true_2 by done. rewrite Hnot by done. lia.
  - rewrite (IH _ _ k) by done. lia.
Qed.

Lemma presents_text ty v s : presents ty v (Some s) → v ≠ BNil ∧ canonical (binlogValue v) = Ok s.
Proof.
  assert (∀ n, 0 ≤ n → (n <? 0) = false) as Hz by (intros; lia).
  destruct ty; cbn [presents]; try (intros [-> | ->]; done); try (intros ->; done).
  - intros (n & Hn & -> & ->). done.
  - intros (n & Hn & -> & ->). done.
  - intros (n & Hn & -> & ->). split; [done|]. unfold binlogValue. cbn [toUint64 Sprint].
    destruct (Z.ltb_spec n 0); [done|]. cbn. by rewrite FormatInt_nonneg.
Qed.

(** The versions the tailer can read. *)
Definition version_readable (t : Table) : Prop :=
  col_Type (d_VersionColumn (t_d t)) = Uint64 ∨ col_Type (d_VersionColumn (t_d t)) = Uint32 ∨
  col_Type (d_VersionColumn (t_d t)) = Int64.

Lemma presents_version ty v text u :
  ty = Uint64 ∨ ty = Uint32 ∨ ty = Int64 → presents ty v text → Value_Uint64 (Bin text) = Ok u → toUint64 v = Some u.
Proof.
  intros Hty Hp Hu. destruct text as [s|]; [|done]. destruct Hty as [-> | [-> | ->]]; cbn [presents] in Hp.
  - destruct Hp as (n & Hn & -> & ->). rewrite Value_Uint64_FormatUint in Hu by done. by injection Hu as ->.
  - destruct Hp as (n & Hn & -> & ->). rewrite Value_Uint64_FormatUint in Hu by done. by injection Hu as ->.
  - destruct Hp as (n & Hn & -> & ->). cbn. destruct (Z.ltb_spec n 0) as [Hlt|Hge].
    + unfold FormatInt in Hu. rewrite (proj2 (Z.ltb_lt _ _) Hlt) in Hu. done.
    + rewrite FormatInt_nonneg, Value_Uint64_FormatUint in Hu; [by injection Hu as ->| |done].
      unfold is_u64, is_i64 in *. lia.
Qed.

Section rows.
Context (t : Table) (opts : cdc_Options) (e : RowsEvent).

(** The event is of the tailer's table, whose descriptor the tailer was given, and
    its rows are these. *)
Record event_of (rs : list cells) : Prop := {
  eo_desc : desc_ok (t_d t);
  eo_opts : co_Descriptor opts = Some (t_d t);
  eo_table : ev_Table e = d_Name (t_d t);
  eo_columns : NoDup (ev_Columns e);
  eo_rows : Forall2 (presents_row (t_d t) (ev_Columns e)) (images (ev_Action e) (ev_Rows e)) rs;
  eo_keys : ∀ r c, r ∈ rs → c ∈ d_PrimaryKey (t_d t) → is_Some (Mysql.cell c r);
  eo_version : ∀ r, r ∈ rs → is_ok (stored_version t r) = true;
  eo_named : ∀ c, c ∈ d_Columns (t_d t) → col_Name c ∈ ev_Columns e;
}.

Definition row_key (r : cells) : string := Key_String (mkKey (d_Name (t_d t)) (cells_key t r)).

(** The position of a declared column in the event. *)
Definition position_of (c : Column) : nat := Z.to_nat (column_index (col_Name c) (ev_Columns e) 0 (-1)).

Lemma position_spec rs c : event_of rs → c ∈ d_Columns (t_d t) →
  column_index (col_Name c) (ev_Columns e) 0 (-1) = Z.of_nat (position_of c) ∧
  ev_Columns e !! position_of c = Some (col_Name c).
Proof.
  intros Hev Hc. pose proof (eo_named _ Hev c Hc) as [k Hk]%list_elem_of_lookup.
  unfold position_of. rewrite (column_index_spec _ _ 0 (-1) k (eo_columns _ Hev) Hk). rewrite Z.add_0_l, Nat2Z.id. done.
Qed.

Lemma event_columns_ok rs : event_of rs →
  event_columns opts e = Ok (position_of <$> d_PrimaryKey (t_d t), position_of (d_VersionColumn (t_d t))).
Proof.
  intros Hev. unfold event_columns, key_names, version_name. rewrite (eo_opts _ Hev).
  pose proof (eo_desc _ Hev) as (_ & _ & _ & _ & Hpk & Hv & _).
  assert (existsb (λ idx, idx <? 0) ((λ want, column_index want (ev_Columns e) 0 (-1)) <$> (col_Name <$> d_PrimaryKey (t_d t))) = false) as ->.
  { apply not_true_iff_false. intros (idx & Hin%list_elem_of_In & Hlt)%existsb_exists.
    rewrite <-list_fmap_compose in Hin. apply list_elem_of_fmap in Hin as (c & -> & Hc).
    rewrite Forall_forall in Hpk. destruct (position_spec rs c Hev (proj1 (Hpk c Hc))) as [Hi _]. cbn in Hlt. rewrite Hi in Hlt. lia. }
  destruct (position_spec rs _ Hev Hv) as [Hi _]. rewrite Hi, (proj2 (Z.ltb_ge _ _)) by lia.
  rewrite Nat2Z.id. f_equal. f_equal. by rewrite <-!list_fmap_compose.
Qed.

Lemma row_cell rs row r c : event_of rs → presents_row (t_d t) (ev_Columns e) row r → c ∈ d_Columns (t_d t) →
  ∃ v, row !! position_of c = Some v ∧ presents (col_Type c) v (Mysql.cell c r).
Proof.
  intros Hev Hrow Hc. destruct (Hrow c Hc) as (i & v & Hi & Hv & Hp). exists v. split; [|done].
  destruct (position_spec rs c Hev Hc) as [_ Hpos]. by rewrite (NoDup_lookup _ _ _ _ (eo_columns _ Hev) Hpos Hi).
Qed.

Lemma rowKey_row rs row r : event_of rs → presents_row (t_d t) (ev_Columns e) row r → r ∈ rs →
  rowKey (ev_Table e) (position_of <$> d_PrimaryKey (t_d t)) row = Some (row_key r).
Proof.
  intros Hev Hrow Hin. unfold rowKey, row_key, cells_key. rewrite (eo_table _ Hev).
  pose proof (eo_desc _ Hev) as (Hname & _ & _ & Hne & Hpk & _).
  assert (∀ cs, (∀ c, c ∈ cs → c ∈ d_PrimaryKey (t_d t)) →
    ∃ vs, rowKey_values (position_of <$> cs) row = Some vs ∧ length vs = length cs ∧
          canonical_all vs = Ok ((λ c, default "" (Mysql.cell c r)) <$> cs)) as Hvals.
  { induction cs as [|c cs IH]; intros Hcs; [by exists []|].
    destruct IH as (vs & Hvs & Hl & Hcan); [intros c' Hc'; apply Hcs; by right|].
    assert (c ∈ d_PrimaryKey (t_d t)) as Hc by (apply Hcs; left). rewrite Forall_forall in Hpk.
    destruct (row_cell rs row r c Hev Hrow (proj1 (Hpk c Hc))) as (v & Hv & Hp).
    destruct (eo_keys _ Hev r c Hin Hc) as [s Hs]. rewrite Hs in Hp. destruct (presents_text _ _ _ Hp) as [Hnil Hcv].
    exists (binlogValue v :: vs). cbn [rowKey_values fmap list_fmap]. rewrite Hv, Hvs. split_and!.
    - by destruct v.
    - cbn. by rewrite Hl.
    - cbn [canonical_all]. rewrite Hcv, Hcan, Hs. done. }
  destruct (Hvals (d_PrimaryKey (t_d t)) (λ _ H, H)) as (vs & -> & Hl & Hcan). cbn [mbind option_bind]. unfold KeyOf.
  rewrite Hname. cbn [negb]. rewrite bool_decide_eq_false_2.
  2: { intros ->. by destruct (d_PrimaryKey (t_d t)). }
  by rewrite Hcan.
Qed.

Lemma row_target_row rs row r : event_of rs → version_readable t → presents_row (t_d t) (ev_Columns e) row r → r ∈ rs →
  ∃ v, stored_version t r = Ok v ∧
    row_target (ev_Table e) (position_of <$> d_PrimaryKey (t_d t)) (position_of (d_VersionColumn (t_d t))) row =
    Some (row_key r, v).
Proof.
  intros Hev Hver Hrow Hin. pose proof (eo_version _ Hev r Hin) as Hok. unfold row_target.
  destruct (stored_version t r) as [v|?|?] eqn:Es; [|done..]. exists v. split; [done|].
  pose proof (eo_desc _ Hev) as (_ & _ & _ & _ & _ & Hvc & _).
  destruct (row_cell rs row r _ Hev Hrow Hvc) as (x & Hx & Hp). rewrite Hx. cbn [mbind option_bind].
  rewrite (presents_version _ _ _ _ Hver Hp Es). cbn [mbind option_bind]. by rewrite (rowKey_row rs row r).
Qed.

Lemma event_targets_rows rs : event_of rs → version_readable t →
  Forall2 (λ target r, target.1 = row_key r ∧ stored_version t r = Ok target.2) (event_targets opts e) rs.
Proof.
  intros Hev Hver. unfold event_targets. rewrite (event_columns_ok rs Hev).
  assert (∀ rows rs', Forall2 (presents_row (t_d t) (ev_Columns e)) rows rs' → (∀ r, r ∈ rs' → r ∈ rs) →
    Forall2 (λ target r, target.1 = row_key r ∧ stored_version t r = Ok target.2)
      (omap (row_target (ev_Table e) (position_of <$> d_PrimaryKey (t_d t)) (position_of (d_VersionColumn (t_d t)))) rows) rs') as Haux.
  { induction 1 as [|row r rows rs' Hrow _ IH]; intros Hin; cbn [omap list_omap]; [constructor|].
    destruct (row_target_row rs row r Hev Hver Hrow) as (v & Hv & ->); [apply Hin; left|].
    constructor; [done|]. apply IH. intros r' Hr'. apply Hin. by right. }
  apply Haux; [apply Hev|done].
Qed.

(** A row event invalidates the rows it changed.  Of an event of the tailer's
    table, every row (of an update, its new image) is invalidated under the key the
    engine knows it by and at the version its version column holds, or the
    checkpoint is frozen: none is skipped, and nothing fails, while versions are of
    the types the tailer reads. *)
Theorem OnRow_invalidates_rows ios rs w :
  event_of rs → version_readable t → (∀ key, ticking (ios key)) →
  ∃ w', handler_OnRow opts ios e w = (Ok tt, w') ∧
    (tl_frozen (tw_tailer w') = true ∨
     ∀ r, r ∈ rs → ∃ v, stored_version t r = Ok v ∧ delivered w' (row_key r, v)).
Proof.
  intros Hev Hver Ht. pose proof (OnRow_wp opts ios e w Ht) as Hwp. unfold wp in Hwp.
  destruct (handler_OnRow opts ios e w) as [r0 w']. cbn [fst snd] in Hwp. rewrite (event_columns_ok rs Hev) in Hwp.
  cbn [is_ok] in Hwp. destruct Hwp as [-> (_ & _ & Hh)]. exists w'. split; [done|]. destruct Hh as [[_ Hd]|Ht'].
  - right. intros r Hr. apply list_elem_of_lookup in Hr as [n Hn].
    destruct (Forall2_lookup_r _ _ _ _ _ (event_targets_rows rs Hev Hver) Hn) as ([key v] & Hl & Hk & Hv). cbn [fst snd] in Hk, Hv.
    exists v. split; [done|]. rewrite <-Hk. apply Hd. by eapply list_elem_of_lookup_2.
  - left. rewrite Ht'. unfold freeze_at. by destruct (tl_frozen (tw_tailer w)) eqn:E.
Qed.
End rows.
End spec.

(** ** Deletions *)

Section ref.
Context {K : Type} `{Checkpoint K}.

(** The cache of RefCache.v, as the tailer sees it. *)
#[local] Instance ref_invalidator : Invalidator (gmap string LuaCache.cell) :=
  {| inv_Tombstone := @cache_Tombstone _ ref_cache |}.

#[local] Instance ref_invalidator_laws : InvalidatorLaws (gmap string LuaCache.cell).
Proof. split. intros k v c. done. Qed.

(** A deletion is not invalidated.  The image of a deleted row carries the
    row's own version, an entry filled from the row is at that version already,
    and the compare-and-set asks for a newer one: after the event the entry is
    still served, and the tailer counts the event as delivered.  So nothing of the
    tailer's removes a row deleted behind the engine's back from the cache. *)
Theorem OnRow_delete_not_invalidated (t : Table) (opts : cdc_Options) (e : RowsEvent) (ios : string → retry_io) (r : cells) v en
    (w : TailerW (gmap string LuaCache.cell) K) :
  event_of t opts e [r] → version_readable t → ev_Action e = DeleteAction → length (ev_Rows e) = 1%nat →
  stored_version t r = Ok v → ref_cached (tw_cache w) (row_key t r) en → v ≤ RowVersion en →
  ∃ w', handler_OnRow opts ios e w = (Ok tt, w') ∧ ref_cached (tw_cache w') (row_key t r) en ∧
    tw_calls w' = tw_calls w ++ [(row_key t r, v, false)] ∧ tw_tailer w' = tw_tailer w.
Proof.
  intros Hev Hver Hact Hlen Hv Hc Hle. pose proof (eo_rows _ _ _ _ Hev) as Hrows. rewrite Hact in Hrows.
  destruct (ev_Rows e) as [|row [|]] eqn:Er; [done| |done]. cbn in Hrows. apply Forall2_cons in Hrows as [Hrow _].
  destruct (row_target_row t opts e [r] row r Hev Hver Hrow) as (v' & Hv' & Htg); [left|].
  assert (v' = v) as -> by congruence.
  destruct Hc as (s & Hs & ->). cbn in Hle.
  assert (tombstone_wins v (ref_cell (tw_cache w) (row_key t r)) = false) as Hlose.
  { unfold tombstone_wins. unfold cell_read in Hs. destruct (c_val _) as [s'|]; [|done].
    case_bool_decide; [|done]. injection Hs as ->. by rewrite (proj2 (Z.ltb_ge _ _)). }
  unfold handler_OnRow. rewrite (M_bind_run _ _ _ (position_of e <$> d_PrimaryKey (t_d t), position_of e (d_VersionColumn (t_d t))) w)
    by (unfold M_lift; by rewrite (event_columns_ok t opts e [r])).
  cbv beta iota. rewrite Hact, Er. cbn [on_rows pred]. rewrite Htg.
  set (w1 := mkTailerW (tw_tailer w) (<[row_key t r := cell_tombstone v (ref_cell (tw_cache w) (row_key t r))]> (tw_cache w))
               (tw_store w) (tw_calls w ++ [(row_key t r, v, tombstone_wins v (ref_cell (tw_cache w) (row_key t r)))])).
  exists w1. split.
  - rewrite (M_bind_run _ _ _ tt w1); [done|]. unfold Tailer_invalidate, invalidate_fuel. cbn [invalidate_loop].
    reflexivity.
  - split_and!; [|cbn [w1 tw_calls]; by rewrite Hlose|done]. exists s. split; [|done]. cbn [w1 tw_cache]. rewrite ref_cell_insert, decide_True by done.
    unfold cell_tombstone. by rewrite Hlose.
Qed.
End ref.

(** ** Witnesses *)

Section demo.
#[local] Existing Instance ref_invalidator.
#[local] Existing Instance ref_invalidator_laws.

#[local] Instance mem_store : Checkpoint (option Position) := {
  chk_Load := λ k, (Ok k, k);
  chk_Save p := λ _, (Ok tt, Some p);
}.

#[local] Instance mem_store_laws : CheckpointLaws (option Position) id.
Proof. split; [by left|]. intros p k. by split_and!; [|left|]. Qed.

Definition demo_retry : retry_io :=
  mkRetryIO 0 (λ n, Z.of_nat n * initialInvalidateBackoff) (λ _, false) (λ _, false).

Lemma demo_ticking : ticking demo_retry.
Proof. split; [done|]. intros n. cbn [rt_now demo_retry]. lia. Qed.

Definition demo_cdc : cdc_Options := mkCdcOptions (Some users_d) 1000.

(** Version 10 of user 1 is cached. *)
Definition user1_cells : cells := users_row "1" "acme" "new" "10".
Definition user1_entry : Entry := mkEntry 10 12 (Some "row") "" false.
Definition demo_cache : gmap string LuaCache.cell :=
  {["users:1" := mkCell None (Some (ref_stored user1_entry))]}.
Definition demo_tw : TailerW (gmap string LuaCache.cell) (option Position) :=
  mkTailerW fresh_tailer demo_cache None [].

Definition user1_image : list binval := [BUint64 1; BString "acme"; BString "new"; BUint64 10].
Definition demo_event (a : Action) (rows : list (list binval)) : RowsEvent :=
  mkRowsEvent "users" ["id"; "tenant"; "status"; "version"] a rows.

Lemma demo_presents : presents_row users_d ["id"; "tenant"; "status"; "version"] user1_image user1_cells.
Proof.
  intros c Hc. assert (c ∈ d_Columns users_d) as Hc' by done. vm_compute in Hc'.
  repeat (apply elem_of_cons in Hc' as [->|Hc']); [exists 0%nat, (BUint64 1)|exists 1%nat, (BString "acme")
    |exists 2%nat, (BString "new")|exists 3%nat, (BUint64 10)|by apply elem_of_nil in Hc'].
  all: split; [reflexivity|]; split; [reflexivity|].
  - exists 1. split_and!; [done|reflexivity|vm_compute; reflexivity].
  - by left.
  - by left.
  - exists 10. split_and!; [done|reflexivity|vm_compute; reflexivity].
Qed.

Lemma demo_event_of a rows rs :
  images a rows = (λ _, user1_image) <$> rs → Forall (eq user1_cells) rs → event_of users_t demo_cdc (demo_event a rows) rs.
Proof.
  intros Hrows Hrs. assert (t_d users_t = users_d) as Hd by (vm_compute; reflexivity).
  split; rewrite ?Hd.
  - apply (NewDescriptor_ok _ _ _ _ users_d_ok).
  - done.
  - vm_compute. reflexivity.
  - cbn. repeat (apply NoDup_cons; split; [set_solver|]). apply NoDup_nil_2.
  - cbn [ev_Action ev_Rows ev_Columns demo_event]. rewrite Hrows. clear Hrows. induction Hrs as [|r rs <- _ IH]; [constructor|].
    constructor; [apply demo_presents|done].
  - intros r c Hr Hc. rewrite Forall_forall in Hrs. rewrite <-(Hrs r Hr). vm_compute in Hc.
    apply list_elem_of_singleton in Hc as ->. by eexists.
  - intros r Hr. rewrite Forall_forall in Hrs. rewrite <-(Hrs r Hr). vm_compute. reflexivity.
  - intros c Hc. vm_compute in Hc. repeat (apply elem_of_cons in Hc as [->|Hc]); [cbn; set_solver..|by apply elem_of_nil in Hc].
Qed.

Lemma users_version_readable : version_readable users_t.
Proof. left. vm_compute. reflexivity. Qed.

Lemma invalidate_terminates_witness :
  ∃ w', Tailer_invalidate demo_cdc demo_retry "users:1" 11 demo_tw = (Ok tt, w') ∧ attempted "users:1" 11 demo_tw w'.
Proof.
  apply (invalidate_terminates demo_cdc demo_retry "users:1" 11 9 demo_tw demo_ticking). vm_compute. lia.
Defined.

Lemma OnRow_invalidates_rows_witness :
  ∃ w', handler_OnRow demo_cdc (λ _, demo_retry) (demo_event UpdateAction [[]; user1_image]) demo_tw = (Ok tt, w') ∧
    (tl_frozen (tw_tailer w') = true ∨
     ∀ r, r ∈ [user1_cells] → ∃ v, stored_version users_t r = Ok v ∧ delivered w' (row_key users_t r, v)).
Proof.
  apply (OnRow_invalidates_rows users_t demo_cdc (demo_event UpdateAction [[]; user1_image]) (λ _, demo_retry) [user1_cells]).
  - apply demo_event_of; [reflexivity|]. by constructor.
  - apply users_version_readable.
  - intros _. apply demo_ticking.
Defined.

Lemma OnRow_delete_not_invalidated_witness :
  ∃ w', handler_OnRow demo_cdc (λ _, demo_retry) (demo_event DeleteAction [user1_image]) demo_tw = (Ok tt, w') ∧
    ref_cached (tw_cache w') "users:1" (entry_of (ref_stored user1_entry)) ∧
    tw_calls w' = [("users:1", 10, false)].
Proof.
  assert (row_key users_t user1_cells = "users:1") as Hk by (vm_compute; reflexivity).
  destruct (OnRow_delete_not_invalidated users_t demo_cdc (demo_event DeleteAction [user1_image]) (λ _, demo_retry) user1_cells
    10 (entry_of (ref_stored user1_entry)) demo_tw) as (w' & H1 & H2 & H3 & _).
  - apply demo_event_of; [reflexivity|]. by constructor.
  - apply users_version_readable.
  - reflexivity.
  - reflexivity.
  - vm_compute. reflexivity.
  - rewrite Hk. exists (ref_stored user1_entry). split; [|reflexivity]. vm_compute. reflexivity.
  - cbn. lia.
  - exists w'. rewrite Hk in H2, H3. split_and!; [exact H1|exact H2|exact H3].
Defined.

(** A row changes, the position after it is synced, and the run ends. *)
Lemma Run_checkpoint_safe_witness :
  let evs := [EvRow (demo_event UpdateAction [[]; user1_image]) (λ _, demo_retry); EvSynced (mkPosition "bin.1" 9); EvTick] in
  let w' := (Tailer_Run demo_cdc (Ok (mkPosition "bin.1" 4)) evs (CanalStopped None) demo_tw).2 in
  tw_store w' = Some (mkPosition "bin.1" 9) ∧
  checkpoint_safe id demo_cdc (Ok (mkPosition "bin.1" 4)) evs demo_tw w'.
Proof.
  split; [vm_compute; reflexivity|].
  apply (Run_checkpoint_safe id demo_cdc (Ok (mkPosition "bin.1" 4))
    [EvRow (demo_event UpdateAction [[]; user1_image]) (λ _, demo_retry); EvSynced (mkPosition "bin.1" 9); EvTick]
    (CanalStopped None) demo_tw); [reflexivity| |done].
  repeat constructor; intros; apply demo_ticking.
Defined.
End demo.
