(* ===== verification/Sextant.v ===== *)
(** The parts of the consistency verifier that decide and remember:
    [src/pkg/sextant/tier.go], [verify.go], [slo.go], [keys.go] and [trace.go].

    An instant is its nanoseconds since the Unix epoch, a duration an int64
    count of nanoseconds, a consistency level its number in [Consistency.v]. *)

From S2P Require Import Prelude GoStd Buckets Floats Consistency EngineApi.

Local Open Scope Z_scope.

(** ** Tiers and differences *)

Abbreviation Tier := string (only parsing).

Definition TierValue : Tier := "value".
Definition TierVersion : Tier := "version".
Definition TierCachet : Tier := "cachet".

Definition Tier_Valid (t : Tier) : bool :=
  bool_decide (t = TierValue) || bool_decide (t = TierVersion) || bool_decide (t = TierCachet).

Definition Tier_ComparesVersions (t : Tier) : bool :=
  bool_decide (t = TierVersion) || bool_decide (t = TierCachet).

Definition ParseTier (s : string) : result Tier :=
  if negb (Tier_Valid s) then Err (Errorf ("sextant: unknown tier " +:+ s)) else Ok s.

Record Difference := mkDifference {
  df_Behind : bool;
  df_FillVersion : Z;
  df_DBVersion : Z;
  df_VersionsKnown : bool;
}.

Definition VersionDifference (fillVersion dbVersion : Z) : Difference :=
  mkDifference (fillVersion <? dbVersion) fillVersion dbVersion true.

Definition ValueDifference (equal : bool) : Difference := mkDifference (negb equal) 0 0 false.

(** ** The propagation bound *)

Record PropagationBound := mkPropagationBound {
  pb_writePathBudget : Z;
  pb_cdcLagBound : Z;
  pb_maxClockSkew : Z;
}.

Definition NewPropagationBound (writePathBudget cdcLagBound maxClockSkew : Z) : PropagationBound :=
  mkPropagationBound writePathBudget cdcLagBound maxClockSkew.

Definition PropagationBound_Duration (p : PropagationBound) : Z :=
  i64 (i64 (pb_writePathBudget p + pb_cdcLagBound p) + pb_maxClockSkew p).

Definition PropagationBound_MaxClockSkew (p : PropagationBound) : Z := pb_maxClockSkew p.

(** ** Mutation events *)

Definition OpFill : string := "fill".
Definition OpTombstone : string := "tombstone".
Definition OpEvict : string := "evict".
Definition OpLease : string := "lease".

Definition SourceWritePath : string := "write_path".
Definition SourceCDC : string := "cdc".
Definition SourceReadFill : string := "read_fill".
Definition SourceShadow : string := "shadow".

Record sx_Event := mkEvent {
  ev_Op : string;
  ev_Version : Z;
  ev_At : Z;
  ev_Actor : string;
  ev_Source : string;
}.

(** [Event{}]; the zero [time.Time] is the first of January of year 1. *)
Definition zero_Time : Z := -62135596800 * 1000000000.
Definition zero_Event : sx_Event := mkEvent "" 0 zero_Time "" "".

(** ** Classification *)

Record Observation := mkObservation {
  ob_Key : string;
  ob_Shard : string;
  ob_Diff : Difference;
  ob_BehindSince : Z;
  ob_Now : Z;
  ob_Watermark : Z;
  ob_WatermarkKnown : bool;
  ob_BoundedWindow : Z;
  ob_Trace : list sx_Event;
}.

Record Violation := mkViolation {
  vi_Key : string;
  vi_Shard : string;
  vi_Diff : Difference;
  vi_Behind : Z;
  vi_Levels : list Z;
  vi_Trace : list sx_Event;
}.

Definition Violation_Violates (v : Violation) (l : Z) : bool := existsb (λ got, got =? l) (vi_Levels v).

(** [time.Duration.Round]. *)
Definition Duration_Round (d m : Z) : Z :=
  if m <=? 0 then d
  else
    let r := Z.rem d m in
    let lessThanHalf (x : Z) := u64 (u64 x + u64 x) <? u64 m in
    if d <? 0 then
      let r := i64 (- r) in
      if lessThanHalf r then i64 (d + r)
      else let d1 := i64 (i64 (d - m) + r) in if d1 <? d then d1 else - 2 ^ 63
    else if lessThanHalf r then i64 (d - r)
    else let d1 := i64 (i64 (d + m) - r) in if d <? d1 then d1 else 2 ^ 63 - 1.

Definition Violation_String (v : Violation) : string :=
  let where_ := vi_Key v +:+ " on " +:+ vi_Shard v in
  let lag := "behind " +:+ Duration_String (Duration_Round (vi_Behind v) 1000000)
             +:+ ", violates [" +:+ join " " (Level_String <$> vi_Levels v) +:+ "]" in
  if negb (df_VersionsKnown (vi_Diff v)) then where_ +:+ ": entry differs from the row, " +:+ lag
  else where_ +:+ ": cache fv=" +:+ FormatUint (df_FillVersion (vi_Diff v))
       +:+ ", db=" +:+ FormatUint (df_DBVersion (vi_Diff v)) +:+ ", " +:+ lag.

Definition Classify (obs : Observation) (p : PropagationBound) : option Violation :=
  if negb (df_Behind (ob_Diff obs)) then None
  else
    let behind := Time_Sub (ob_Now obs) (ob_BehindSince obs) in
    if behind <=? PropagationBound_Duration p then None
    else
      let levels := [Eventual] in
      let levels := if df_VersionsKnown (ob_Diff obs) && ob_WatermarkKnown obs &&
                       (df_FillVersion (ob_Diff obs) <? ob_Watermark obs)
                    then levels ++ [Session] else levels in
      let levels := if df_VersionsKnown (ob_Diff obs) && (0 <? ob_BoundedWindow obs) &&
                       (i64 (ob_BoundedWindow obs + PropagationBound_MaxClockSkew p) <? behind)
                    then levels ++ [Bounded] else levels in
      Some (mkViolation (ob_Key obs) (ob_Shard obs) (ob_Diff obs) behind levels (ob_Trace obs)).

(** ** The measured figure, per level *)

Record sample := mksample { sm_at : Z; sm_violation : bool }.

Record SLO := mkSLO { slo_window : Z; slo_levels : gmap Z (list sample) }.

Record sx_Report := mkReport {
  rp_Level : Z;
  rp_Observations : Z;
  rp_Violations : Z;
  rp_Consistency : float64;
  rp_Nines : float64;
  rp_Known : bool;
}.

Definition NewSLO (window : Z) : SLO :=
  mkSLO (if window <=? 0 then 60 * Duration_Second else window) ∅.

Definition SLO_Observe (level at_ : Z) (violation : bool) (s : SLO) : SLO :=
  if level =? Strong then s
  else
    let set := default [] (slo_levels s !! level) in
    mkSLO (slo_window s) (<[level := set ++ [mksample at_ violation]]> (slo_levels s)).

(** The samples the report keeps: those after the cutoff. *)
Definition slo_keep (cutoff : Z) (set : list sample) : list sample :=
  filter (λ o, cutoff < sm_at o) set.

(** [Report]; [Log10] is [math.Log10], whose last bit is the platform's. *)
Definition SLO_Report (Log10 : float64 → float64) (level now : Z) (s : SLO) : sx_Report * SLO :=
  match slo_levels s !! level with
  | None => (mkReport level 0 0 f_zero f_zero false, s)
  | Some set =>
      let kept := slo_keep (now - slo_window s) set in
      let s := mkSLO (slo_window s) (<[level := kept]> (slo_levels s)) in
      let observations := Z.of_nat (length kept) in
      let violations := Z.of_nat (length (filter (λ o, sm_violation o = true) kept)) in
      if observations =? 0 then (mkReport level observations violations f_zero f_zero false, s)
      else
        let consistency := f_div (f_of_int (observations - violations)) (f_of_int observations) in
        let nines := if 0 <? violations then SFopp (Log10 (f_sub f_one consistency))
                     else if 3 <? observations then Log10 (f_div (f_of_int observations) (f_of_int 3))
                     else f_zero in
        (mkReport level observations violations consistency nines true, s)
  end.

(** [Levels]: the keys of the map, in the order Go ranges over it. *)
Definition SLO_Levels (s : SLO) : list Z := (map_to_list (slo_levels s)).*1.

(** ** Recently written keys *)

Record RecentKeys := mkRecentKeys {
  rk_capacity : Z;
  rk_keys : list string;
  rk_index : gmap string Z;
}.

Definition NewRecentKeys (capacity : Z) : RecentKeys :=
  mkRecentKeys (if capacity <=? 0 then 10000 else capacity) [] ∅.

(** [for i, k := range keys { index[k] = i }] from position [i] on. *)
Fixpoint reindex (i : Z) (keys : list string) (index : gmap string Z) : gmap string Z :=
  match keys with
  | [] => index
  | k :: keys => reindex (i + 1) keys (<[k := i]> index)
  end.

Definition RecentKeys_Touch (key : string) (r : RecentKeys) : RecentKeys :=
  match rk_index r !! key with
  | Some _ => r
  | None =>
      let '(keys, index) :=
        if rk_capacity r <=? Z.of_nat (length (rk_keys r)) then
          match rk_keys r with
          | oldest :: keys => (keys, reindex 0 keys (delete oldest (rk_index r)))
          | [] => ([], rk_index r)
          end
        else (rk_keys r, rk_index r) in
      mkRecentKeys (rk_capacity r) (keys ++ [key]) (<[key := Z.of_nat (length keys)]> index)
  end.

(** [Next]; [IntN n] is the generator's draw below [n]. *)
Definition RecentKeys_Next (IntN : nat → nat) (r : RecentKeys) : option string :=
  match rk_keys r with [] => None | _ => rk_keys r !! IntN (length (rk_keys r)) end.

Definition RecentKeys_Len (r : RecentKeys) : Z := Z.of_nat (length (rk_keys r)).

(** ** Mutation traces

    The traces in the order of the list, most recently active first; [byKey]
    indexes the same elements. *)

Record keyTrace := mkkeyTrace {
  kt_key : string;
  kt_events : list sx_Event;
  kt_next : Z;
  kt_filled : Z;
}.

Record TracerOptions := mkTracerOptions { to_KeysTracked : Z; to_EventsPerKey : Z }.

Record Tracer := mkTracer {
  tc_keysTracked : Z;
  tc_eventsPerKey : Z;
  tc_order : list keyTrace;
}.

Definition defaultKeysTracked : Z := 10000.
Definition defaultEventsPerKey : Z := 32.

Definition NewTracer (opts : TracerOptions) : Tracer :=
  mkTracer (if to_KeysTracked opts <=? 0 then defaultKeysTracked else to_KeysTracked opts)
    (if to_EventsPerKey opts <=? 0 then defaultEventsPerKey else to_EventsPerKey opts) [].

(** Write one event in the ring and move on. *)
Definition keyTrace_push (e : sx_Event) (kt : keyTrace) : keyTrace :=
  let len := Z.of_nat (length (kt_events kt)) in
  mkkeyTrace (kt_key kt) (<[Z.to_nat (kt_next kt) := e]> (kt_events kt)) ((kt_next kt + 1) mod len)
    (if kt_filled kt <? len then kt_filled kt + 1 else kt_filled kt).

Definition Tracer_find (t : Tracer) (key : string) : option keyTrace :=
  List.find (λ kt, bool_decide (kt_key kt = key)) (tc_order t).

Definition Tracer_evictOldestLocked (t : Tracer) : Tracer :=
  mkTracer (tc_keysTracked t) (tc_eventsPerKey t) (take (length (tc_order t) - 1) (tc_order t)).

Definition Tracer_Record (key : string) (e : sx_Event) (t : Tracer) : Tracer :=
  let '(kt, t) :=
    match Tracer_find t key with
    | Some kt => (kt, mkTracer (tc_keysTracked t) (tc_eventsPerKey t)
                        (filter (λ kt', kt_key kt' ≠ key) (tc_order t)))
    | None =>
        (mkkeyTrace key (replicate (Z.to_nat (tc_eventsPerKey t)) zero_Event) 0 0,
         if tc_keysTracked t <=? Z.of_nat (length (tc_order t)) then Tracer_evictOldestLocked t else t)
    end in
  mkTracer (tc_keysTracked t) (tc_eventsPerKey t) (keyTrace_push e kt :: tc_order t).

Definition keyTrace_list (kt : keyTrace) : list sx_Event :=
  let len := Z.of_nat (length (kt_events kt)) in
  let start := (kt_next kt - kt_filled kt + len) mod len in
  (λ i, default zero_Event (kt_events kt !! Z.to_nat ((start + i) mod len))) <$> seqZ 0 (kt_filled kt).

Definition Tracer_Trace (t : Tracer) (key : string) : list sx_Event :=
  match Tracer_find t key with None => [] | Some kt => keyTrace_list kt end.

Definition Tracer_TrackedKeys (t : Tracer) : Z := Z.of_nat (length (tc_order t)).
