(* ===== verification/SextantSpec.v ===== *)
(** What the verifier's decision and its memory guarantee: the classification
    against the engine's freshness decision, the report against the history of
    observations, the key source's bound and the tracer's refinement of an
    unbounded history. *)

From S2P Require Import Prelude GoStd Buckets Floats Consistency Hlc Freshness Sextant.

Local Open Scope Z_scope.

(** ** Reports over a history *)

Inductive slo_op :=
  | SObserve (level at_ : Z) (violation : bool)
  | SReport (level now : Z).

Definition slo_step (Log10 : float64 → float64) (s : SLO) (o : slo_op) : SLO :=
  match o with
  | SObserve level at_ violation => SLO_Observe level at_ violation s
  | SReport level now => (SLO_Report Log10 level now s).2
  end.

(** Every sample of a level, however old. *)
Fixpoint observed (level : Z) (ops : list slo_op) : list sample :=
  match ops with
  | [] => []
  | SObserve l at_ v :: ops =>
      if (l =? level) && negb (l =? Strong) then mksample at_ v :: observed level ops else observed level ops
  | SReport _ _ :: ops => observed level ops
  end.

Definition report_by (now : Z) (o : slo_op) : Prop :=
  match o with SReport _ t => t ≤ now | SObserve _ _ _ => True end.

Lemma observed_app level ops ops' : observed level (ops ++ ops') = observed level ops ++ observed level ops'.
Proof.
  induction ops as [|[l a v|l t] ops IH]; [done| |exact IH].
  simpl. destruct (_ && _); simpl; by rewrite IH.
Qed.

Lemma slo_keep_keep c c' set : c ≤ c' → slo_keep c' (slo_keep c set) = slo_keep c' set.
Proof.
  intros H. unfold slo_keep. rewrite list_filter_filter. apply filter_ext_in. intros x _. lia.
Qed.

Lemma slo_keep_app c l l' : slo_keep c (l ++ l') = slo_keep c l ++ slo_keep c l'.
Proof. apply filter_app. Qed.

(** The state after a history holds, as of any later instant, what the history observed. *)
Lemma slo_history Log10 window ops now level :
  Forall (report_by now) ops →
  let s := foldl (slo_step Log10) (NewSLO window) ops in
  slo_window s = slo_window (NewSLO window) ∧
  slo_keep (now - slo_window s) (default [] (slo_levels s !! level)) = slo_keep (now - slo_window s) (observed level ops) ∧
  (slo_levels s !! level = None → observed level ops = []).
Proof.
  induction ops as [|o ops IH] using rev_ind; intros Hf s.
  { subst s. simpl. by rewrite lookup_empty. }
  apply Forall_app in Hf as [Hf [Ho _]%Forall_cons]. specialize (IH Hf).
  subst s. rewrite foldl_app. cbn [foldl]. set (s := foldl _ _ _) in *. destruct IH as (Hw & Hk & Hn).
  rewrite observed_app. destruct o as [l a v|l t]; cbn [slo_step observed report_by] in *.
  - unfold SLO_Observe. destruct (Z.eqb_spec l Strong) as [->|Hs].
    { simpl. rewrite andb_false_r, app_nil_r. done. }
    cbn [slo_window slo_levels]. split; [done|].
    destruct (Z.eqb_spec l level) as [->|Hl]; simpl.
    + rewrite lookup_insert, decide_True by done. simpl. rewrite !slo_keep_app, Hk. done.
    + rewrite lookup_insert_ne by done. by rewrite app_nil_r.
  - rewrite app_nil_r. unfold SLO_Report. destruct (slo_levels s !! l) as [set|] eqn:El; [|done].
    set (s' := mkSLO _ _).
    match goal with |- context [(if ?b then (?x, s') else (?y, s')).2] =>
      replace ((if b then (x, s') else (y, s')).2) with s' by (by destruct b) end.
    subst s'. cbn [slo_window slo_levels]. split; [done|].
    destruct (decide (l = level)) as [->|Hl].
    + rewrite lookup_insert, decide_True by done. simpl. split; [|done].
      rewrite slo_keep_keep by lia. rewrite El in Hk. exact Hk.
    + by rewrite lookup_insert_ne.
Qed.

(** The report of a level counts, over any history of observations and of
    earlier reports, exactly the observations of the last window, and how many
    of them were violations; before any evidence it is not known.  STRONG is
    never reported.  So trimming at every report loses nothing. *)
Theorem SLO_Report_counts Log10 window ops now level :
  Forall (report_by now) ops →
  let s := foldl (slo_step Log10) (NewSLO window) ops in
  let recent := slo_keep (now - slo_window (NewSLO window)) (observed level ops) in
  let r := (SLO_Report Log10 level now s).1 in
  rp_Observations r = Z.of_nat (length recent) ∧
  rp_Violations r = Z.of_nat (length (filter (λ o, sm_violation o = true) recent)) ∧
  (rp_Known r = true ↔ recent ≠ []) ∧
  (level = Strong → rp_Known r = false).
Proof.
  intros Hf s recent r.
  assert (level = Strong → recent = []) as Hstrong.
  { intros ->. subst recent. clear. induction ops as [|[l a v|l t] ops IH]; [done| |done].
    simpl. destruct (Z.eqb_spec l Strong); done. }
  destruct (slo_history Log10 window ops now level Hf) as (Hw & Hk & Hn). fold s in Hw, Hk, Hn.
  subst r. unfold SLO_Report. destruct (slo_levels s !! level) as [set|] eqn:El.
  - simpl in Hk. rewrite Hk, Hw. fold recent.
    destruct (Z.eqb_spec (Z.of_nat (length recent)) 0) as [H0|H0]; cbn;
      (split_and!; [done|done| |]).
    + destruct recent; [done|simpl in H0; lia].
    + done.
    + split; [|done]. intros _ ->. by apply H0.
    + intros Hl. rewrite Hstrong in H0 by done. done.
  - assert (recent = []) as ->. { subst recent. by rewrite Hn. } cbn. split_and!; done.
Qed.

(** Two observations of SESSION, one outside the window, and a report in between. *)
Definition report_history : list slo_op :=
  [SObserve Session 0 true; SReport Session 50; SObserve Session 90 true; SObserve Bounded 95 false].

Lemma SLO_Report_counts_witness :
  Forall (report_by 120) report_history ∧
  rp_Observations (SLO_Report id Session 120 (foldl (slo_step id) (NewSLO 100) report_history)).1 = 1.
Proof.
  assert (Forall (report_by 120) report_history) as Hf by (repeat constructor; simpl; lia).
  split; [exact Hf|].
  destruct (SLO_Report_counts id 100 report_history 120 Session Hf) as [H _].
  rewrite H. vm_compute. reflexivity.
Defined.

(** ** The key source *)

Record rk_ok (r : RecentKeys) : Prop := {
  ro_nodup : NoDup (rk_keys r);
  ro_bound : Z.of_nat (length (rk_keys r)) ≤ rk_capacity r;
  ro_index : ∀ k i, rk_index r !! k = Some i ↔ 0 ≤ i ∧ rk_keys r !! Z.to_nat i = Some k;
}.

Lemma reindex_lookup keys : ∀ i index k,
  NoDup keys →
  reindex i keys index !! k =
    match list_find (λ x, x = k) keys with Some (n, _) => Some (i + Z.of_nat n) | None => index !! k end.
Proof.
  induction keys as [|x keys IH]; intros i index k; [done|]. intros [Hx Hnd]%NoDup_cons. cbn [reindex list_find].
  rewrite IH by done. destruct (decide (x = k)) as [->|Hk].
  - destruct (list_find (λ y, y = k) keys) as [[n y]|] eqn:E.
    + apply list_find_Some in E as (E & -> & _). apply list_elem_of_lookup_2 in E. done.
    + rewrite lookup_insert, decide_True by done. f_equal. lia.
  - destruct (list_find (λ y, y = k) keys) as [[n y]|]; cbn; [f_equal; lia|].
    by rewrite lookup_insert_ne.
Qed.

Lemma rk_ok_full r : rk_ok r → 0 < rk_capacity r → ∀ k, rk_index r !! k = None ↔ k ∉ rk_keys r.
Proof.
  intros [Hn Hb Hi] Hc k. split.
  - intros H [i Hk]%list_elem_of_lookup_1. specialize (Hi k (Z.of_nat i)). rewrite Nat2Z.id in Hi.
    rewrite (proj2 Hi) in H; [done|]. split; [lia|done].
  - intros Hk. destruct (rk_index r !! k) as [i|] eqn:E; [|done].
    apply Hi in E as [_ E]. by apply list_elem_of_lookup_2 in E.
Qed.

(** Dropping the oldest key and rebuilding the index. *)
Lemma rk_ok_drop oldest keys index k :
  NoDup (oldest :: keys) →
  (∀ k i, index !! k = Some i ↔ 0 ≤ i ∧ (oldest :: keys) !! Z.to_nat i = Some k) →
  ∀ i, reindex 0 keys (delete oldest index) !! k = Some i ↔ 0 ≤ i ∧ keys !! Z.to_nat i = Some k.
Proof.
  intros [Ho Hnd]%NoDup_cons Hi i. rewrite reindex_lookup by done.
  destruct (list_find (λ x, x = k) keys) as [[n y]|] eqn:E.
  - apply list_find_Some in E as (E & -> & _). split.
    + intros [= <-]. split; [lia|]. by rewrite Z.add_0_l, Nat2Z.id.
    + intros [H0 H]. f_equal. pose proof (NoDup_lookup _ _ _ _ Hnd H E). lia.
  - apply list_find_None in E. split.
    + destruct (decide (oldest = k)) as [->|Hk]; [by rewrite lookup_delete, decide_True|].
      rewrite lookup_delete_ne by done. intros [H0 H]%Hi.
      destruct (Z.to_nat i) as [|n] eqn:En; simpl in H; [congruence|].
      apply list_elem_of_lookup_2 in H. rewrite Forall_forall in E. by destruct (E _ H).
    + intros [H0 H]. apply list_elem_of_lookup_2 in H. rewrite Forall_forall in E. by destruct (E _ H).
Qed.

Lemma rk_ok_push capacity keys index key :
  rk_ok (mkRecentKeys capacity keys index) → Z.of_nat (length keys) < capacity → key ∉ keys →
  rk_ok (mkRecentKeys capacity (keys ++ [key]) (<[key := Z.of_nat (length keys)]> index)).
Proof.
  intros [Hn Hb Hi] Hl Hk. cbn [rk_keys rk_capacity rk_index] in *. split; cbn [rk_keys rk_capacity rk_index].
  - apply NoDup_app. split_and!; [done| |by apply NoDup_singleton].
    intros x Hx ->%list_elem_of_singleton. done.
  - rewrite length_app. simpl. lia.
  - intros k i. destruct (decide (key = k)) as [<-|Hne].
    + rewrite lookup_insert, decide_True by done. split.
      * intros [= <-]. split; [lia|]. rewrite Nat2Z.id, lookup_app_r, Nat.sub_diag by lia. done.
      * intros [H0 H]. rewrite lookup_app in H. destruct (keys !! Z.to_nat i) eqn:E; simplify_eq.
        { by apply list_elem_of_lookup_2 in E. }
        apply list_lookup_singleton_Some in H as [H _]. apply lookup_ge_None in E. f_equal. lia.
    + rewrite lookup_insert_ne, Hi by done. split; intros [H0 H]; (split; [done|]).
      * by apply lookup_app_l_Some.
      * rewrite lookup_app in H. destruct (keys !! Z.to_nat i) eqn:E; simplify_eq; [done|].
        apply list_lookup_singleton_Some in H as [_ H]. done.
Qed.

Lemma RecentKeys_Touch_ok key r :
  rk_ok r → 0 < rk_capacity r →
  let r' := RecentKeys_Touch key r in
  rk_ok r' ∧ rk_capacity r' = rk_capacity r ∧
  rk_keys r' = if decide (key ∈ rk_keys r) then rk_keys r
               else (if rk_capacity r <=? Z.of_nat (length (rk_keys r)) then tail (rk_keys r) else rk_keys r) ++ [key].
Proof.
  intros Hok Hc. pose proof (rk_ok_full r Hok Hc key) as Hin. destruct r as [c keys index].
  cbn [rk_capacity rk_keys rk_index] in *. unfold RecentKeys_Touch. cbn [rk_capacity rk_keys rk_index].
  destruct (index !! key) as [j|] eqn:Ej.
  { rewrite decide_True; [done|]. destruct (decide (key ∈ keys)); [done|]. by apply Hin in n. }
  assert (key ∉ keys) as Hk by (by apply Hin). rewrite decide_False by done.
  destruct (Z.leb_spec c (Z.of_nat (length keys))) as [Hf|Hf].
  - destruct keys as [|o keys]; [simpl in Hf; lia|]. cbn [tail rk_capacity rk_keys].
    split_and!; [|done|done]. destruct Hok as [Hn Hb Hi]. cbn [rk_capacity rk_keys rk_index] in *.
    simpl in Hb. apply rk_ok_push; [|lia|set_solver].
    split; cbn [rk_capacity rk_keys rk_index]; [by apply NoDup_cons in Hn as [_ ?]|lia|].
    intros k. by apply rk_ok_drop.
  - cbn [rk_capacity rk_keys]. split_and!; [|done|done]. by apply rk_ok_push.
Qed.

Lemma NewRecentKeys_ok capacity : rk_ok (NewRecentKeys capacity) ∧ 0 < rk_capacity (NewRecentKeys capacity).
Proof.
  unfold NewRecentKeys. destruct (Z.leb_spec capacity 0); (split; [split|]); cbn; try lia; try by apply NoDup_nil.
  all: intros k i; rewrite lookup_empty; (split; [done|by intros [_ ?]]).
Qed.

Definition touched (capacity : Z) (writes : list string) : RecentKeys :=
  foldl (λ r k, RecentKeys_Touch k r) (NewRecentKeys capacity) writes.

Lemma touched_ok capacity writes :
  rk_ok (touched capacity writes) ∧ rk_capacity (touched capacity writes) = rk_capacity (NewRecentKeys capacity) ∧
  (∀ k, k ∈ rk_keys (touched capacity writes) → k ∈ writes) ∧
  (∀ k, last writes = Some k → k ∈ rk_keys (touched capacity writes)).
Proof.
  destruct (NewRecentKeys_ok capacity) as [H0 Hc]. unfold touched.
  induction writes as [|k writes IH] using rev_ind.
  { cbn [foldl last]. split_and!; [done|done| |done]. unfold NewRecentKeys. cbn. set_solver. }
  rewrite foldl_app. cbn [foldl]. destruct IH as (Hok & Hcap & Hin & _).
  destruct (RecentKeys_Touch_ok k _ Hok) as (Hok' & Hcap' & Hkeys); [by rewrite Hcap|].
  split_and!; [done|by rewrite Hcap'| |].
  - intros x. rewrite Hkeys. destruct (decide _); [intros ?; apply elem_of_app; left; by apply Hin|].
    intros [Hx|Hx]%elem_of_app; apply elem_of_app; [left|by right]. apply Hin.
    destruct (_ <=? _); [|done]. destruct (rk_keys _); [done|]. by apply list_elem_of_further.
  - intros x. rewrite last_snoc. intros [= <-]. rewrite Hkeys. destruct (decide _); [done|].
    apply elem_of_app. right. by apply list_elem_of_singleton.
Qed.

(** The key source stays within its capacity whatever the workload, its
    index and its queue agree, it holds the key written last, and the next key to check is a
    written one: there is one as soon as anything was written. *)
Theorem RecentKeys_bounded capacity writes IntN :
  (∀ n, (0 < n)%nat → (IntN n < n)%nat) →
  let r := touched capacity writes in
  rk_ok r ∧ RecentKeys_Len r ≤ rk_capacity (NewRecentKeys capacity) ∧
  (∀ k, last writes = Some k → k ∈ rk_keys r) ∧
  (∀ k, RecentKeys_Next IntN r = Some k → k ∈ writes) ∧
  (RecentKeys_Next IntN r = None ↔ writes = []).
Proof.
  intros HI r. destruct (touched_ok capacity writes) as (Hok & Hcap & Hin & Hlast). fold r in Hok, Hcap, Hin, Hlast.
  assert (rk_keys r = [] ↔ writes = []) as Hemp.
  { split; [|intros ->; unfold r, touched, NewRecentKeys; by destruct (capacity <=? 0)].
    intros Hr. destruct (last writes) as [k|] eqn:E; [|by apply last_None].
    specialize (Hlast k eq_refl). rewrite Hr in Hlast. by apply elem_of_nil in Hlast. }
  split_and!; [done|rewrite <-Hcap; apply (ro_bound _ Hok)|done| |].
  - intros k. unfold RecentKeys_Next. destruct (rk_keys r) as [|x l] eqn:E; [done|].
    intros H%list_elem_of_lookup_2. by apply Hin.
  - rewrite <-Hemp. unfold RecentKeys_Next. destruct (rk_keys r) as [|x l] eqn:E; [done|].
    split; [|done]. intros H%lookup_ge_None. specialize (HI (length (x :: l))). simpl in *. lia.
Qed.

(** Not by recency of writing: of two keys, the one written again last is the one dropped. *)
Theorem RecentKeys_drops_recent :
  rk_keys (touched 2 ["a"; "b"; "a"; "c"]) = ["b"; "c"].
Proof. reflexivity. Qed.

(** ** The tracer and the history it bounds *)

Definition lastn {A} (n : nat) (l : list A) : list A := drop (length l - n) l.

Lemma lastn_lastn_snoc {A} n (l : list A) x : (0 < n)%nat → lastn n (lastn n l ++ [x]) = lastn n (l ++ [x]).
Proof.
  intros Hn. unfold lastn. rewrite !length_app, length_drop. cbn [length].
  rewrite !drop_app_le by (rewrite ?length_drop; lia). rewrite drop_drop. f_equal. f_equal. lia.
Qed.

Lemma lastn_suffix {A} n (l : list A) : lastn n l `suffix_of` l.
Proof. exists (take (length l - n) l). unfold lastn. by rewrite take_drop. Qed.

Lemma lastn_length {A} n (l : list A) : (length (lastn n l) ≤ n)%nat.
Proof. unfold lastn. rewrite length_drop. lia. Qed.

Lemma lastn_snoc_nonempty {A} n (l : list A) x : (0 < n)%nat → lastn n (l ++ [x]) ≠ [].
Proof.
  intros Hn H%(f_equal length). revert H. unfold lastn. rewrite length_drop, length_app. simpl. lia.
Qed.

(** The slot [j] behind the next one. *)
Lemma slot_behind n next j : 0 ≤ next < n → 0 < j < n → (next - j) mod n ≠ next.
Proof.
  intros Hx Hj. destruct (Z.le_gt_cases j next).
  - rewrite Z.mod_small by lia. lia.
  - rewrite <-(Z.mod_add _ 1), Z.mod_small by lia. lia.
Qed.

Lemma slot_self n next : 0 ≤ next < n → (next - n) mod n = next.
Proof. intros H. rewrite <-(Z.mod_add _ 1) by lia. rewrite Z.mod_small by lia. lia. Qed.

(** The ring holds [evs]: its oldest event is [kt_filled] slots behind the next. *)
Record ring_holds (E : nat) (kt : keyTrace) (evs : list sx_Event) : Prop := {
  rh_len : length (kt_events kt) = E;
  rh_next : 0 ≤ kt_next kt < Z.of_nat E;
  rh_filled : kt_filled kt = Z.of_nat (length evs);
  rh_bound : (length evs ≤ E)%nat;
  rh_at : ∀ j, 0 < j ≤ Z.of_nat (length evs) →
    kt_events kt !! Z.to_nat ((kt_next kt - j) mod Z.of_nat E) = evs !! Z.to_nat (Z.of_nat (length evs) - j);
}.

Lemma ring_holds_push E kt evs e :
  ring_holds E kt evs → ring_holds E (keyTrace_push e kt) (lastn E (evs ++ [e])).
Proof.
  intros [Hl Hn Hf Hb Ha]. unfold keyTrace_push. rewrite Hl. set (n := Z.of_nat E) in *.
  assert (length (lastn E (evs ++ [e])) = Nat.min E (S (length evs))) as Hlen.
  { unfold lastn. rewrite length_drop, length_app. simpl. lia. }
  split; cbn [kt_events kt_next kt_filled kt_key].
  - by rewrite length_insert.
  - apply Z.mod_pos_bound. lia.
  - rewrite Hlen. destruct (Z.ltb_spec (kt_filled kt) n); lia.
  - lia.
  - intros j Hj. rewrite Zminus_mod_idemp_l. rewrite Hlen in Hj |- *. unfold lastn. rewrite lookup_drop, length_app. cbn [length].
    destruct (decide (j = 1)) as [->|Hj1].
    + replace (kt_next kt + 1 - 1) with (kt_next kt) by lia. rewrite Z.mod_small by lia.
      rewrite list_lookup_insert_eq by lia.
      symmetry. apply list_lookup_middle. lia.
    + replace (kt_next kt + 1 - j) with (kt_next kt - (j - 1)) by lia.
      rewrite list_lookup_insert_ne.
      2: { fold n. intros Hs%Z2Nat.inj; [|lia|apply Z.mod_pos_bound; lia].
           by apply (slot_behind n (kt_next kt) (j - 1)); [lia|lia|]. }
      rewrite Ha by lia. rewrite lookup_app_l by lia. f_equal. lia.
Qed.

Lemma ring_holds_new E key : (0 < E)%nat → ring_holds E (mkkeyTrace key (replicate E zero_Event) 0 0) [].
Proof. intros. split; cbn; [by rewrite length_replicate|lia|done|lia|lia]. Qed.

Lemma ring_holds_list E kt evs : (0 < E)%nat → ring_holds E kt evs → keyTrace_list kt = evs.
Proof.
  intros HE [Hl Hn Hf Hb Ha]. unfold keyTrace_list. rewrite Hl, Hf. apply list_eq. intros i.
  rewrite list_lookup_fmap. destruct (decide (i < length evs)%nat) as [Hi|Hi].
  - rewrite lookup_seqZ_lt by lia. cbn [fmap option_fmap option_map].
    rewrite Zplus_mod_idemp_l.
    replace (kt_next kt - Z.of_nat (length evs) + Z.of_nat E + (0 + Z.of_nat i))
      with (kt_next kt - (Z.of_nat (length evs) - Z.of_nat i) + 1 * Z.of_nat E) by lia.
    rewrite Z.mod_add, Ha by lia.
    replace (Z.to_nat (_ - (_ - _))) with i by lia.
    destruct (lookup_lt_is_Some_2 evs i Hi) as [x ->]. done.
  - rewrite lookup_seqZ_ge by lia. symmetry. apply lookup_ge_None. lia.
Qed.

Definition recent_keys (h : list (string * sx_Event)) : list string :=
  foldl (λ r x, x.1 :: filter (λ k, k ≠ x.1) r) [] h.

Definition events_of (key : string) (h : list (string * sx_Event)) : list sx_Event :=
  (filter (λ x, x.1 = key) h).*2.

Lemma recent_keys_snoc h k e : recent_keys (h ++ [(k, e)]) = k :: filter (λ k', k' ≠ k) (recent_keys h).
Proof. unfold recent_keys. by rewrite foldl_app. Qed.

Lemma recent_keys_NoDup h : NoDup (recent_keys h).
Proof.
  induction h as [|[k e] h IH] using rev_ind; [by apply NoDup_nil|]. rewrite recent_keys_snoc.
  apply NoDup_cons. split; [|by apply NoDup_filter]. intros [? _]%list_elem_of_filter. done.
Qed.

Lemma events_of_snoc key h k e :
  events_of key (h ++ [(k, e)]) = events_of key h ++ (if decide (k = key) then [e] else []).
Proof. unfold events_of. rewrite filter_app, fmap_app, filter_cons. cbn [fst]. by case_decide. Qed.

Lemma recent_keys_recorded key h : key ∉ recent_keys h → events_of key h = [].
Proof.
  induction h as [|[k e] h IH] using rev_ind; [done|]. rewrite recent_keys_snoc, events_of_snoc.
  intros [Hk Hr]%not_elem_of_cons. rewrite decide_False by done. rewrite IH; [done|].
  intros H. apply Hr, list_elem_of_filter. done.
Qed.

(** Moving a key to the front of the window of the [K] most recent ones. *)
Lemma filter_notin (k : string) (r : list string) : k ∉ r → filter (λ k', k' ≠ k) r = r.
Proof. intros H. apply filter_id. by intros x Hx ->. Qed.

Lemma take_front_in K (k : string) (r : list string) :
  NoDup r → k ∈ take K r → filter (λ k', k' ≠ k) (take K r) = take (K - 1) (filter (λ k', k' ≠ k) r).
Proof.
  revert K. induction r as [|x r IH]; intros [|K]; [by intros _ ?%elem_of_nil| by intros _ ?%elem_of_nil|by intros _ ?%elem_of_nil|].
  intros [Hx Hnd]%NoDup_cons. cbn [take]. rewrite !filter_cons, Nat.sub_1_r. cbn [Nat.pred].
  destruct (decide (x = k)) as [->|Hxk].
  - rewrite !decide_False by tauto. intros _. rewrite !filter_notin; [done|done|].
    intros (? & ? & _)%elem_of_take. apply Hx. by eapply list_elem_of_lookup_2.
  - rewrite !decide_True by done. intros [?|Hin]%elem_of_cons; [congruence|]. rewrite IH by done.
    destruct K as [|K]; [by apply elem_of_nil in Hin|]. cbn [take]. by rewrite Nat.sub_1_r.
Qed.

Lemma take_front_out K (k : string) (r : list string) : k ∉ take K r → take (K - 1) (take K r) = take (K - 1) (filter (λ k', k' ≠ k) r).
Proof.
  rewrite take_take, Nat.min_l by lia. revert K. induction r as [|x r IH]; intros [|[|K]]; try done.
  intros [Hx Hr]%not_elem_of_cons. rewrite filter_cons, decide_True by done.
  specialize (IH (S K) Hr). rewrite !Nat.sub_1_r in *. cbn [Nat.pred take] in *. by f_equal.
Qed.

(** What a tracer holds after a history: the [K] most recent keys, each with the
    last [E] of its events since it was last admitted. *)
Record traces (K E : nat) (h : list (string * sx_Event)) (t : Tracer) : Prop := {
  ts_tracked : tc_keysTracked t = Z.of_nat K;
  ts_events : tc_eventsPerKey t = Z.of_nat E;
  ts_order : kt_key <$> tc_order t = take K (recent_keys h);
  ts_rings : ∀ kt, kt ∈ tc_order t → ∃ since,
    since `suffix_of` events_of (kt_key kt) h ∧ since ≠ [] ∧ ring_holds E kt (lastn E since) ∧
    ((length (recent_keys h) ≤ K)%nat → since = events_of (kt_key kt) h);
}.

Lemma Tracer_find_Some t key kt : Tracer_find t key = Some kt → kt ∈ tc_order t ∧ kt_key kt = key.
Proof. unfold Tracer_find. intros [Hin Hk%bool_decide_eq_true]%List.find_some. split; [by apply list_elem_of_In|done]. Qed.

Lemma Tracer_find_None t key : Tracer_find t key = None → key ∉ kt_key <$> tc_order t.
Proof.
  unfold Tracer_find. intros H (kt & -> & Hin)%list_elem_of_fmap.
  apply list_elem_of_In in Hin. eapply List.find_none in H; [|done]. by apply bool_decide_eq_false in H.
Qed.

Lemma Tracer_find_is_Some t key : key ∈ kt_key <$> tc_order t → is_Some (Tracer_find t key).
Proof. intros H. destruct (Tracer_find t key) eqn:E; [done|]. by apply Tracer_find_None in E. Qed.

Lemma filter_keys_fmap key (l : list keyTrace) :
  kt_key <$> filter (λ kt, kt_key kt ≠ key) l = filter (λ k, k ≠ key) (kt_key <$> l).
Proof.
  induction l as [|kt l IH]; [done|]. rewrite fmap_cons, !filter_cons. case_decide; cbn; by rewrite IH.
Qed.

Lemma recent_keys_grows h k e : (length (recent_keys h) ≤ length (recent_keys (h ++ [(k, e)])))%nat.
Proof.
  rewrite recent_keys_snoc. cbn [length]. pose proof (recent_keys_NoDup h) as Hn.
  induction (recent_keys h) as [|x r IH]; [simpl; lia|]. apply NoDup_cons in Hn as [Hx Hn].
  rewrite filter_cons. case_decide as Hk; cbn [length]; [specialize (IH Hn); lia|].
  assert (x = k) as -> by (destruct (decide (x = k)); tauto). rewrite filter_notin by done. lia.
Qed.

(** A trace of another key is carried over. *)
Lemma trace_kept K E h k e kt since :
  kt_key kt ≠ k →
  since `suffix_of` events_of (kt_key kt) h ∧ since ≠ [] ∧ ring_holds E kt (lastn E since) ∧
    ((length (recent_keys h) ≤ K)%nat → since = events_of (kt_key kt) h) →
  since `suffix_of` events_of (kt_key kt) (h ++ [(k, e)]) ∧ since ≠ [] ∧ ring_holds E kt (lastn E since) ∧
    ((length (recent_keys (h ++ [(k, e)])) ≤ K)%nat → since = events_of (kt_key kt) (h ++ [(k, e)])).
Proof.
  intros Hk (Hs & Hne & Hr & Hf). rewrite events_of_snoc, decide_False, app_nil_r by done.
  split_and!; [done..|]. intros H. apply Hf. pose proof (recent_keys_grows h k e). lia.
Qed.

Lemma Tracer_Record_traces K E h t k e :
  (0 < K)%nat → (0 < E)%nat → traces K E h t → traces K E (h ++ [(k, e)]) (Tracer_Record k e t).
Proof.
  intros HK HE [Ht He Ho Hr]. unfold Tracer_Record. destruct (Tracer_find t k) as [kt|] eqn:Ef.
  - apply Tracer_find_Some in Ef as [Hin <-].
    assert (kt_key kt ∈ take K (recent_keys h)) as Hk by (rewrite <-Ho; by apply list_elem_of_fmap_2).
    cbn [tc_keysTracked tc_eventsPerKey tc_order]. split; cbn [tc_keysTracked tc_eventsPerKey tc_order]; [done|done| |].
    + rewrite fmap_cons, filter_keys_fmap, Ho, recent_keys_snoc, take_front_in by (done || apply recent_keys_NoDup).
      destruct K as [|K]; [lia|]. cbn [take]. by rewrite Nat.sub_1_r.
    + intros kt' [->|[Hne Hin']%list_elem_of_filter]%elem_of_cons.
      * destruct (Hr kt Hin) as (since & Hs & Hne & Hrh & Hf). exists (since ++ [e]).
        unfold keyTrace_push at 1 3; cbn [kt_key]. rewrite events_of_snoc, decide_True by done. split_and!.
        -- destruct Hs as [l Hs]. exists l. by rewrite Hs, <-app_assoc.
        -- by destruct since.
        -- rewrite <-lastn_lastn_snoc by done. by apply ring_holds_push.
        -- intros Hl. rewrite Hf; [done|]. pose proof (recent_keys_grows h (kt_key kt) e). lia.
      * destruct (Hr kt' Hin') as (since & H). exists since. by apply trace_kept.
  - pose proof (Tracer_find_None _ _ Ef) as Hk. rewrite Ho in Hk.
    assert (length (tc_order t) = Nat.min K (length (recent_keys h))) as Hlen.
    { rewrite <-length_take, <-Ho. by rewrite length_fmap. }
    set (t1 := if _ <=? _ then _ else _).
    assert (tc_keysTracked t1 = Z.of_nat K ∧ tc_eventsPerKey t1 = Z.of_nat E ∧ tc_order t1 = take (K - 1) (tc_order t)) as (Ht1 & He1 & Ho1).
    { subst t1. rewrite Ht. destruct (Z.leb_spec (Z.of_nat K) (Z.of_nat (length (tc_order t)))) as [Hl|Hl].
      - unfold Tracer_evictOldestLocked. cbn. split_and!; [done..|]. f_equal. lia.
      - split_and!; [done..|]. rewrite take_ge; [done|lia]. }
    split; cbn [tc_keysTracked tc_eventsPerKey tc_order]; [done|done| |].
    + rewrite fmap_cons, Ho1, fmap_take, Ho, recent_keys_snoc, (take_front_out K k) by done.
      unfold keyTrace_push. cbn [kt_key]. destruct K as [|K]; [lia|]. cbn [take]. by rewrite Nat.sub_1_r.
    + rewrite Ho1. intros kt' [->|(i & Hin'%list_elem_of_lookup_2 & _)%elem_of_take]%elem_of_cons.
      * exists [e]. unfold keyTrace_push at 1 3; cbn [kt_key]. rewrite events_of_snoc, decide_True by done. split_and!.
        -- by eexists.
        -- done.
        -- change [e] with ([] ++ [e]). rewrite He, Nat2Z.id. by apply ring_holds_push, ring_holds_new.
        -- intros Hl. rewrite recent_keys_recorded; [done|].
           pose proof (recent_keys_grows h k e). rewrite take_ge in Hk by lia. done.
      * destruct (Hr kt' Hin') as (since & H). exists since. apply trace_kept; [|done].
        intros <-. apply Hk. rewrite <-Ho. by apply list_elem_of_fmap_2.
Qed.

Lemma tracer_history K E h :
  (0 < K)%nat → (0 < E)%nat →
  traces K E h (foldl (λ t x, Tracer_Record x.1 x.2 t) (NewTracer (mkTracerOptions (Z.of_nat K) (Z.of_nat E))) h).
Proof.
  intros HK HE. induction h as [|[k e] h IH] using rev_ind.
  - cbn [foldl]. unfold NewTracer. cbn [to_KeysTracked to_EventsPerKey].
    rewrite !(proj2 (Z.leb_gt _ _)) by lia. split; cbn; [done|done|by rewrite take_nil|].
    intros kt Hkt. by apply elem_of_nil in Hkt.
  - rewrite foldl_app. by apply Tracer_Record_traces.
Qed.

(** The tracer keeps exactly the [K] most recently active keys whatever the
    workload; the trace of a key is a gapless tail of its events, oldest
    first, of at most [E]; a tracked key always has its last event; and as long
    as no more than [K] keys were ever active it is exactly the last [E]. *)
Theorem Tracer_keeps_recent_history K E h key :
  (0 < K)%nat → (0 < E)%nat →
  let t := foldl (λ t x, Tracer_Record x.1 x.2 t) (NewTracer (mkTracerOptions (Z.of_nat K) (Z.of_nat E))) h in
  kt_key <$> tc_order t = take K (recent_keys h) ∧
  Tracer_Trace t key `suffix_of` events_of key h ∧
  (length (Tracer_Trace t key) ≤ E)%nat ∧
  (Tracer_Trace t key = [] ↔ key ∉ take K (recent_keys h)) ∧
  ((length (recent_keys h) ≤ K)%nat → Tracer_Trace t key = lastn E (events_of key h)).
Proof.
  intros HK HE t. destruct (tracer_history K E h HK HE) as [_ _ Ho Hr]. fold t in Ho, Hr.
  split; [done|]. unfold Tracer_Trace. destruct (Tracer_find t key) as [kt|] eqn:Ef.
  - apply Tracer_find_Some in Ef as [Hin <-]. destruct (Hr kt Hin) as (since & Hs & Hne & Hrh & Hf).
    rewrite (ring_holds_list E kt _ HE Hrh). split_and!.
    + etrans; [apply lastn_suffix|done].
    + apply lastn_length.
    + split.
      * intros H. destruct since as [|x since _] using rev_ind; [done|]. by apply lastn_snoc_nonempty in H.
      * intros []. rewrite <-Ho. by apply list_elem_of_fmap_2.
    + intros Hl. by rewrite Hf.
  - apply Tracer_find_None in Ef. rewrite Ho in Ef. split_and!; [apply suffix_nil|simpl; lia|done|].
    intros Hl. rewrite take_ge in Ef by done. by rewrite recent_keys_recorded.
Qed.

(** Three keys through a tracer of two keys and two events. *)
Definition traced_history : list (string * sx_Event) :=
  let e v := mkEvent OpFill v 0 "engine" SourceReadFill in
  [("a"%string, e 1); ("b"%string, e 2); ("a"%string, e 3); ("a"%string, e 4); ("c"%string, e 5)].

Lemma Tracer_keeps_recent_history_witness :
  let t := foldl (λ t x, Tracer_Record x.1 x.2 t) (NewTracer (mkTracerOptions 2 2)) traced_history in
  (0 < 2)%nat ∧ kt_key <$> tc_order t = ["c"; "a"]%string ∧ (length (Tracer_Trace t "a") ≤ 2)%nat.
Proof.
  destruct (Tracer_keeps_recent_history 2 2 traced_history "a" ltac:(lia) ltac:(lia)) as (Ho & _ & Hl & _).
  split_and!; [lia| |exact Hl].
  etrans; [exact Ho|]. vm_compute. reflexivity.
Defined.

(** ** The classification against the engine's own decision *)

(** An observation is a violation exactly when the entry is behind and has
    been so for longer than the propagation bound.  EVENTUAL is then always
    blamed and STRONG never; SESSION is blamed exactly when the engine's own
    decision would have refused the entry for the session's watermark; BOUNDED exactly
    past its window widened by the clock skew; and neither without versions. *)
Theorem Classify_spec (obs : Observation) (p : PropagationBound) :
  let behind := Time_Sub (ob_Now obs) (ob_BehindSince obs) in
  let accepted := AcceptEntry (mkFreshness (mkRequirement Session 0) (df_FillVersion (ob_Diff obs))
                                 (ob_Watermark obs) (ob_WatermarkKnown obs) (ob_Now obs) (pb_maxClockSkew p)) in
  match Classify obs p with
  | None => df_Behind (ob_Diff obs) = false ∨ behind ≤ PropagationBound_Duration p
  | Some v =>
      df_Behind (ob_Diff obs) = true ∧ PropagationBound_Duration p < behind ∧ vi_Behind v = behind ∧
      vi_Key v = ob_Key obs ∧ vi_Shard v = ob_Shard obs ∧ vi_Diff v = ob_Diff obs ∧ vi_Trace v = ob_Trace obs ∧
      Violation_Violates v Eventual = true ∧ Violation_Violates v Strong = false ∧
      Violation_Violates v Session = df_VersionsKnown (ob_Diff obs) && negb accepted ∧
      Violation_Violates v Bounded = df_VersionsKnown (ob_Diff obs) && (0 <? ob_BoundedWindow obs) &&
                                     (i64 (ob_BoundedWindow obs + pb_maxClockSkew p) <? behind)
  end.
Proof.
  intros behind accepted. unfold Classify. fold behind.
  destruct (df_Behind (ob_Diff obs)) eqn:Eb; cbn [negb]; [|by left].
  destruct (Z.leb_spec behind (PropagationBound_Duration p)) as [H|H]; [by right|].
  unfold PropagationBound_MaxClockSkew. cbn [vi_Behind vi_Key vi_Shard vi_Diff vi_Trace].
  subst accepted. unfold AcceptEntry, Violation_Violates. cbn [vi_Levels fr_Requirement fr_FillVersion fr_Watermark fr_WatermarkKnown req_Level].
  change (Level_BypassesCache Session) with false. change (Level_RequiresWatermark Session) with true.
  change (Session =? Bounded) with false. cbn [andb].
  destruct (df_VersionsKnown (ob_Diff obs)), (ob_WatermarkKnown obs), (df_FillVersion (ob_Diff obs) <? ob_Watermark obs),
    (0 <? ob_BoundedWindow obs), (i64 (ob_BoundedWindow obs + pb_maxClockSkew p) <? behind); split_and!; done.
Qed.
