(* ===== verification/Verifier.v ===== *)
(** The verification loop: [src/pkg/sextant/verifier.go].

    The cache, the origin, the key source and the clock are the adapters the
    loop was built with, as operations on a state [W] of the system it watches.
    [VS] is the verifier with its SLO, the round it is in, and that system. *)

From S2P Require Import Prelude GoStd Buckets Floats Consistency Sextant.

Local Open Scope Z_scope.

(** What the two sides hold for a key; a nil [[]byte] is [None]. *)
Record sx_Entry := mkSxEntry { se_Version : Z; se_VersionKnown : bool; se_Value : option string }.
Record sx_State := mkSxState { ss_Version : Z; ss_VersionKnown : bool; ss_Value : option string }.

Class Adapters (W : Type) := {
  sx_Peek : string → M W (sx_Entry * bool);
  sx_StateOf : string → M W (sx_State * bool);
  sx_ShardOf : string → M W string;
  sx_NextKey : W → option string * W;
  sx_Now : W → Z * W;
}.

Record vf_Stats := mkStats { vs_Rounds : Z; vs_Checked : Z; vs_Violations : Z; vs_Errors : Z }.

(** The options; of the interface and function values, whether they are given. *)
Record VerifierOptions := mkVerifierOptions {
  vo_Cache : bool;
  vo_Origin : bool;
  vo_Keys : bool;
  vo_Bound : PropagationBound;
  vo_SLO : option SLO;
  vo_Tracer : option Tracer;
  vo_Tier : Tier;
  vo_Interval : Z;
  vo_Batch : Z;
  vo_Shadow : bool;
  vo_OnViolation : bool;
}.

(** [vr_reported]: what [OnViolation] was called with, oldest first. *)
Record Verifier := mkVerifier {
  vr_Bound : PropagationBound;
  vr_SLO : SLO;
  vr_Tracer : Tracer;
  vr_Tier : Tier;
  vr_Interval : Z;
  vr_Batch : Z;
  vr_Shadow : bool;
  vr_OnViolation : bool;
  vr_behindSince : gmap string Z;
  vr_stats : vf_Stats;
  vr_reported : list Violation;
}.

Definition NewVerifier (opts : VerifierOptions) : result Verifier :=
  if negb (vo_Cache opts) then Err (Errorf "sextant: no cache reader")
  else if negb (vo_Origin opts) then Err (Errorf "sextant: no origin reader")
  else if negb (vo_Keys opts) then Err (Errorf "sextant: no key source")
  else
    match vo_SLO opts with
    | None => Err (Errorf "sextant: no SLO")
    | Some slo =>
        let interval := if vo_Interval opts <=? 0 then Duration_Second else vo_Interval opts in
        let batch := if vo_Batch opts <=? 0 then 100 else vo_Batch opts in
        let tracer := match vo_Tracer opts with Some t => t | None => NewTracer (mkTracerOptions 0 0) end in
        let tier := if bool_decide (vo_Tier opts = "") then TierCachet else vo_Tier opts in
        if negb (Tier_Valid tier) then Err (Errorf ("sextant: unknown tier " +:+ tier))
        else Ok (mkVerifier (vo_Bound opts) slo tracer tier interval batch (vo_Shadow opts)
                   (vo_OnViolation opts) ∅ (mkStats 0 0 0 0) [])
    end.

Definition with_behindSince (f : gmap string Z → gmap string Z) (v : Verifier) : Verifier :=
  mkVerifier (vr_Bound v) (vr_SLO v) (vr_Tracer v) (vr_Tier v) (vr_Interval v) (vr_Batch v) (vr_Shadow v)
    (vr_OnViolation v) (f (vr_behindSince v)) (vr_stats v) (vr_reported v).
Definition with_SLO (f : SLO → SLO) (v : Verifier) : Verifier :=
  mkVerifier (vr_Bound v) (f (vr_SLO v)) (vr_Tracer v) (vr_Tier v) (vr_Interval v) (vr_Batch v) (vr_Shadow v)
    (vr_OnViolation v) (vr_behindSince v) (vr_stats v) (vr_reported v).
Definition with_stats (f : vf_Stats → vf_Stats) (v : Verifier) : Verifier :=
  mkVerifier (vr_Bound v) (vr_SLO v) (vr_Tracer v) (vr_Tier v) (vr_Interval v) (vr_Batch v) (vr_Shadow v)
    (vr_OnViolation v) (vr_behindSince v) (f (vr_stats v)) (vr_reported v).
Definition with_reported (f : list Violation → list Violation) (v : Verifier) : Verifier :=
  mkVerifier (vr_Bound v) (vr_SLO v) (vr_Tracer v) (vr_Tier v) (vr_Interval v) (vr_Batch v) (vr_Shadow v)
    (vr_OnViolation v) (vr_behindSince v) (vr_stats v) (f (vr_reported v)).

Definition Verifier_Levels (v : Verifier) : list Z :=
  if Tier_ComparesVersions (vr_Tier v) then [Session; Bounded; Eventual] else [Eventual].

(** [compare]. *)
Definition Verifier_compare (v : Verifier) (entry : sx_Entry) (state : sx_State) : result Difference :=
  if Tier_ComparesVersions (vr_Tier v) then
    if negb (se_VersionKnown entry) || negb (ss_VersionKnown state) then
      Err (Errorf "sextant: tier compares versions, but an adapter supplied none")
    else Ok (VersionDifference (se_Version entry) (ss_Version state))
  else
    match se_Value entry, ss_Value state with
    | Some a, Some b => Ok (ValueDifference (bool_decide (a = b)))
    | _, _ => Err (Errorf "sextant: tier compares values, but an adapter supplied none")
    end.

(** One sample for every level of a list. *)
Definition observe_levels (levels : list Z) (now : Z) (violation : Z → bool) (v : Verifier) : Verifier :=
  with_SLO (λ s, foldl (λ s level, SLO_Observe level now (violation level) s) s levels) v.

Definition Verifier_observeClean (now : Z) (v : Verifier) : Verifier :=
  observe_levels (Verifier_Levels v) now (λ _, false) v.

(** [firstSeenBehind]. *)
Definition Verifier_firstSeenBehind (key : string) (now : Z) (v : Verifier) : Z * Verifier :=
  match vr_behindSince v !! key with
  | Some since => (since, v)
  | None => (now, with_behindSince (<[key := now]>) v)
  end.

Definition Verifier_forget (key : string) (v : Verifier) : Verifier := with_behindSince (delete key) v.

Definition Verifier_Shadow (v : Verifier) : bool := vr_Shadow v.

Section Loop.

Context {W : Type} `{Adapters W}.

Record VS := mkVS { vs_ver : Verifier; vs_round : vf_Stats; vs_world : W }.

Definition on_world {A} (m : M W A) : M VS A := λ s,
  let '(r, w) := m (vs_world s) in (r, mkVS (vs_ver s) (vs_round s) w).

Definition on_verifier (f : Verifier → Verifier) : M VS unit :=
  M_modify (λ s, mkVS (f (vs_ver s)) (vs_round s) (vs_world s)).

Definition on_round (f : vf_Stats → vf_Stats) : M VS unit :=
  M_modify (λ s, mkVS (vs_ver s) (f (vs_round s)) (vs_world s)).

Definition this_verifier : M VS Verifier := s ← M_get; mret (vs_ver s).

(** [check]; the round is the pointer it is handed. *)
Definition Verifier_check (key : string) : M VS unit :=
  '(state, exists_) ← on_world (sx_StateOf key);
  '(entry, present) ← on_world (sx_Peek key);
  if negb present || negb exists_ then on_verifier (Verifier_forget key)
  else
    on_round (λ r, mkStats (vs_Rounds r) (vs_Checked r + 1) (vs_Violations r) (vs_Errors r));;
    now ← on_world (λ w, let '(t, w) := sx_Now w in (Ok t, w));
    v ← this_verifier;
    diff ← M_lift (Verifier_compare v entry state);
    if negb (df_Behind diff) then
      on_verifier (Verifier_forget key);;
      on_verifier (Verifier_observeClean now)
    else
      shard ← on_world (sx_ShardOf key);
      v ← this_verifier;
      let '(since, v) := Verifier_firstSeenBehind key now v in
      on_verifier (λ _, v);;
      let obs := mkObservation key shard diff since now 0 false 0 (Tracer_Trace (vr_Tracer v) key) in
      match Classify obs (vr_Bound v) with
      | None => on_verifier (Verifier_observeClean now)
      | Some violation =>
          on_round (λ r, mkStats (vs_Rounds r) (vs_Checked r) (vs_Violations r + 1) (vs_Errors r));;
          on_verifier (λ v, observe_levels (Verifier_Levels v) now (Violation_Violates violation) v);;
          if vr_OnViolation v then on_verifier (with_reported (λ l, l ++ [violation])) else mret tt
      end.

(** The loop of [RunOnce], at most [n] keys. *)
Fixpoint run_batch (n : nat) : M VS unit :=
  match n with
  | O => mret tt
  | S n =>
      next ← on_world (λ w, let '(k, w) := sx_NextKey w in (Ok k, w));
      match next with
      | None => mret tt
      | Some key =>
          r ← M_try (Verifier_check key);
          match r with
          | inr _ => on_round (λ r, mkStats (vs_Rounds r) (vs_Checked r) (vs_Violations r) (vs_Errors r + 1))
          | inl _ => mret tt
          end;;
          run_batch n
      end
  end.

Definition Verifier_RunOnce : M VS vf_Stats :=
  on_round (λ _, mkStats 0 0 0 0);;
  v ← this_verifier;
  run_batch (Z.to_nat (vr_Batch v));;
  s ← M_get;
  let r := vs_round s in
  on_verifier (with_stats (λ t, mkStats (vs_Rounds t + 1) (vs_Checked t + vs_Checked r)
                                  (vs_Violations t + vs_Violations r) (vs_Errors t + vs_Errors r)));;
  mret (mkStats 1 (vs_Checked r) (vs_Violations r) (vs_Errors r)).

End Loop.
Arguments VS : clear implicits.
