(* ===== verification/VerifierSpec.v ===== *)
(** What the verification loop reports: a violation exactly when a key has been
    found behind for longer than the propagation bound, and which levels it can
    ever blame. *)

From S2P Require Import Prelude GoStd Buckets Floats Consistency Sextant Verifier.

Local Open Scope Z_scope.

(** ** What one check finds, and what the verifier makes of it *)

Inductive look :=
  | Unseen
  | Gone
  | CaughtUp (now : Z)
  | FoundBehind (now : Z) (diff : Difference) (shard : string).

Definition absorb (key : string) (l : look) (v : Verifier) : Verifier :=
  match l with
  | Unseen => v
  | Gone => Verifier_forget key v
  | CaughtUp now => Verifier_observeClean now (Verifier_forget key v)
  | FoundBehind now diff shard =>
      let '(since, v) := Verifier_firstSeenBehind key now v in
      match Classify (mkObservation key shard diff since now 0 false 0 (Tracer_Trace (vr_Tracer v) key)) (vr_Bound v) with
      | None => Verifier_observeClean now v
      | Some violation =>
          let v := observe_levels (Verifier_Levels v) now (Violation_Violates violation) v in
          if vr_OnViolation v then with_reported (λ l, l ++ [violation]) v else v
      end
  end.

(** The parts of a verifier its loop never changes. *)
Record settled (v v' : Verifier) : Prop := {
  sd_bound : vr_Bound v' = vr_Bound v;
  sd_tracer : vr_Tracer v' = vr_Tracer v;
  sd_tier : vr_Tier v' = vr_Tier v;
  sd_batch : vr_Batch v' = vr_Batch v;
  sd_call : vr_OnViolation v' = vr_OnViolation v;
}.

Lemma settled_refl v : settled v v.
Proof. done. Qed.

Lemma settled_trans v1 v2 v3 : settled v1 v2 → settled v2 v3 → settled v1 v3.
Proof. intros [] []. split; by etrans. Qed.

Lemma firstSeenBehind_spec key now v :
  let r := Verifier_firstSeenBehind key now v in
  r.1 = default now (vr_behindSince v !! key) ∧ settled v r.2 ∧ vr_reported r.2 = vr_reported v ∧
  vr_SLO r.2 = vr_SLO v ∧ vr_behindSince r.2 = <[key := r.1]> (vr_behindSince v).
Proof.
  unfold Verifier_firstSeenBehind. destruct (vr_behindSince v !! key) as [t|] eqn:E; cbn.
  - rewrite insert_id by done. done.
  - done.
Qed.

(** No level but EVENTUAL can be blamed: a check has no watermark and no window. *)
Lemma Classify_check key shard diff since now trace p :
  Classify (mkObservation key shard diff since now 0 false 0 trace) p =
    if df_Behind diff && (PropagationBound_Duration p <? Time_Sub now since)
    then Some (mkViolation key shard diff (Time_Sub now since) [Eventual] trace) else None.
Proof.
  unfold Classify. cbn. destruct (df_Behind diff); cbn [negb andb]; [|done].
  destruct (Z.leb_spec (Time_Sub now since) (PropagationBound_Duration p)),
    (Z.ltb_spec (PropagationBound_Duration p) (Time_Sub now since)); try lia; [done|].
  by destruct (df_VersionsKnown diff).
Qed.

Lemma absorb_settled key l v : settled v (absorb key l v).
Proof.
  destruct l as [| |now|now diff shard]; try done. cbn [absorb].
  pose proof (firstSeenBehind_spec key now v) as (_ & Hs & _).
  destruct (Verifier_firstSeenBehind key now v) as [since v1]. cbn [fst snd] in Hs. destruct Hs.
  unfold Verifier_observeClean, observe_levels.
  match goal with |- context [Classify ?o ?p] => destruct (Classify o p) as [vi|] end; [|by split]. cbn [with_SLO vr_OnViolation].
  destruct (vr_OnViolation v1) eqn:E; split; cbn; congruence.
Qed.

Lemma absorb_reported key l v :
  vr_reported (absorb key l v) = vr_reported v ++
    match l with
    | FoundBehind now diff shard =>
        let lag := Time_Sub now (default now (vr_behindSince v !! key)) in
        if df_Behind diff && (PropagationBound_Duration (vr_Bound v) <? lag) && vr_OnViolation v
        then [mkViolation key shard diff lag [Eventual] (Tracer_Trace (vr_Tracer v) key)] else []
    | _ => []
    end.
Proof.
  destruct l as [| |now|now diff shard]; try by rewrite app_nil_r. cbn [absorb].
  pose proof (firstSeenBehind_spec key now v) as (Ht & [Hb Htr _ _ Ho] & Hr & _).
  destruct (Verifier_firstSeenBehind key now v) as [since v1]. cbn [fst snd] in *.
  rewrite Classify_check, Ht, Hb, Htr. destruct (df_Behind diff && _); cbn [andb].
  - cbn [observe_levels with_SLO vr_OnViolation]. rewrite Ho.
    destruct (vr_OnViolation v); cbn; by rewrite Hr, ?app_nil_r.
  - cbn. by rewrite app_nil_r.
Qed.

Lemma absorb_behindSince key l v k :
  vr_behindSince (absorb key l v) !! k =
    if decide (key = k) then
      match l with
      | Unseen => vr_behindSince v !! k
      | Gone | CaughtUp _ => None
      | FoundBehind now _ _ => Some (default now (vr_behindSince v !! k))
      end
    else vr_behindSince v !! k.
Proof.
  assert (∀ l, vr_behindSince (absorb key l v) =
            match l with
            | Unseen => vr_behindSince v
            | Gone | CaughtUp _ => delete key (vr_behindSince v)
            | FoundBehind now _ _ => <[key := default now (vr_behindSince v !! key)]> (vr_behindSince v)
            end) as ->.
  { clear l. intros [| |now|now diff shard]; try done. cbn [absorb].
    pose proof (firstSeenBehind_spec key now v) as (Ht & _ & _ & _ & Hm).
    destruct (Verifier_firstSeenBehind key now v) as [since v1]. cbn [fst snd] in *. rewrite <-Ht, <-Hm.
    match goal with |- context [Classify ?o ?p] => destruct (Classify o p) as [vi|] end; [|done]. by destruct (vr_OnViolation _). }
  destruct (decide (key = k)) as [->|Hk]; destruct l;
    rewrite ?lookup_delete_eq, ?lookup_insert_eq, ?lookup_delete_ne, ?lookup_insert_ne by done; done.
Qed.

(** ** The samples *)

Definition blames_eventual (v : Verifier) : Prop :=
  Forall (λ vi, vi_Levels vi = [Eventual]) (vr_reported v) ∧
  ∀ level set, slo_levels (vr_SLO v) !! level = Some set → level ≠ Eventual → Forall (λ o, sm_violation o = false) set.

Lemma observe_clean level now b s :
  (level ≠ Eventual → b = false) →
  (∀ l set, slo_levels s !! l = Some set → l ≠ Eventual → Forall (λ o, sm_violation o = false) set) →
  ∀ l set, slo_levels (SLO_Observe level now b s) !! l = Some set → l ≠ Eventual → Forall (λ o, sm_violation o = false) set.
Proof.
  intros Hb Hs l set. unfold SLO_Observe. destruct (level =? Strong); [by apply Hs|]. cbn [slo_levels].
  destruct (decide (level = l)) as [->|Hl]; [|rewrite lookup_insert_ne by done; by apply Hs].
  rewrite lookup_insert, decide_True by done. intros [= <-] Hne. apply Forall_app. split.
  - destruct (slo_levels s !! l) as [set|] eqn:E; [by eapply Hs|by apply Forall_nil].
  - apply Forall_singleton. by apply Hb.
Qed.

Lemma observe_levels_clean levels now f v :
  (∀ l, l ≠ Eventual → f l = false) → blames_eventual v → blames_eventual (observe_levels levels now f v).
Proof.
  intros Hf [Hr Hs]. split; [done|]. unfold observe_levels. cbn [with_SLO vr_SLO].
  revert Hs. generalize (vr_SLO v). induction levels as [|l levels IH]; intros s Hs; [done|].
  cbn [foldl]. apply IH, observe_clean; auto.
Qed.

Lemma absorb_blames key l v : blames_eventual v → blames_eventual (absorb key l v).
Proof.
  intros Hv. split.
  - rewrite absorb_reported. apply Forall_app. split; [apply Hv|].
    destruct l as [| |now|now diff shard]; try by apply Forall_nil.
    cbv zeta. case_ifs; [by apply Forall_singleton|by apply Forall_nil].
  - destruct l as [| |now|now diff shard]; try apply Hv.
    + apply (observe_levels_clean (Verifier_Levels v) now (λ _, false) (Verifier_forget key v)); [done|exact Hv].
    + cbn [absorb]. pose proof (firstSeenBehind_spec key now v) as (_ & _ & Hr & Hs & _).
      destruct (Verifier_firstSeenBehind key now v) as [since v1]. cbn [fst snd] in *.
      assert (blames_eventual v1) as H1. { destruct Hv. split; [by rewrite Hr|by rewrite Hs]. }
      rewrite Classify_check. destruct (_ && _).
      * match goal with |- context [vr_SLO (if ?b then with_reported ?f ?x else ?y)] =>
          replace (vr_SLO (if b then with_reported f x else y)) with (vr_SLO y) by (by destruct b) end.
        apply observe_levels_clean; [|done]. intros l Hl. unfold Violation_Violates. cbn [vi_Levels existsb].
        rewrite orb_false_r. apply Z.eqb_neq. congruence.
      * by apply observe_levels_clean.
Qed.

(** ** Checks and rounds, the watched system changing freely in between *)

Section Runs.

Context {W : Type} `{Adapters W}.

Definition inspect (v : Verifier) (key : string) (w : W) : look :=
  match sx_StateOf key w with
  | (Ok (state, exists_), w) =>
      match sx_Peek key w with
      | (Ok (entry, present), w) =>
          if negb present || negb exists_ then Gone
          else
            let '(now, w) := sx_Now w in
            match Verifier_compare v entry state with
            | Ok diff =>
                if negb (df_Behind diff) then CaughtUp now
                else match sx_ShardOf key w with (Ok shard, _) => FoundBehind now diff shard | _ => Unseen end
            | _ => Unseen
            end
      | _ => Unseen
      end
  | _ => Unseen
  end.

Lemma inspect_behind v key w now diff shard : inspect v key w = FoundBehind now diff shard → df_Behind diff = true.
Proof.
  unfold inspect. destruct (sx_StateOf key w) as [[[state ex]| |] w1]; try done.
  destruct (sx_Peek key w1) as [[[entry present]| |] w2]; try done.
  destruct (negb present || negb ex); [done|]. destruct (sx_Now w2) as [t w3].
  destruct (Verifier_compare v entry state) as [d| |]; try done.
  destruct (df_Behind d) eqn:E; cbn [negb]; [|done].
  destruct (sx_ShardOf key w3) as [[sh| |] w4]; try done. by intros [= <- <- <-].
Qed.

Lemma Verifier_check_absorb key (s : VS W) :
  vs_ver (Verifier_check key s).2 = absorb key (inspect (vs_ver s) key (vs_world s)) (vs_ver s).
Proof.
  destruct s as [v r w]. unfold Verifier_check, inspect, on_world, on_verifier, on_round, this_verifier.
  mrun. cbn [vs_ver vs_world vs_round].
  destruct (sx_StateOf key w) as [[[state ex]| |] w1]; try done. cbn [vs_ver vs_world vs_round].
  destruct (sx_Peek key w1) as [[[entry present]| |] w2]; try done.
  destruct (negb present || negb ex); [done|]. cbn [vs_ver vs_world vs_round].
  destruct (sx_Now w2) as [now w3]. cbn [vs_ver vs_world vs_round].
  destruct (Verifier_compare v entry state) as [diff| |] eqn:Ed; try done.
  destruct (df_Behind diff) eqn:Eb; cbn [negb vs_ver vs_world vs_round]; [|done].
  destruct (sx_ShardOf key w3) as [[shard| |] w4]; try done.
  cbn [absorb vs_ver vs_world vs_round]. destruct (Verifier_firstSeenBehind key now v) as [since v1].
  cbn [vs_ver]. match goal with |- context [Classify ?o ?p] => destruct (Classify o p) as [vi|] end; [|done]. cbn [vs_ver].
  by destruct (vr_OnViolation _).
Qed.

(** One check of a key of a system in state [w], and a series of them. *)
Definition checked (v : Verifier) (c : string * W) : Verifier :=
  vs_ver (Verifier_check c.1 (mkVS v (mkStats 0 0 0 0) c.2)).2.

Definition run_checks (checks : list (string * W)) (v : Verifier) : Verifier := foldl checked v checks.

(** What the checks found, under the tier of [v]. *)
Definition looks (v : Verifier) (checks : list (string * W)) : list (string * look) :=
  (λ c, (c.1, inspect v c.1 c.2)) <$> checks.

(** Since when a key has been found behind at every check that saw it. *)
Definition stale_since (key : string) (h : list (string * look)) : option Z :=
  foldl (λ since x, if decide (x.1 = key) then
                      match x.2 with
                      | Unseen => since
                      | Gone | CaughtUp _ => None
                      | FoundBehind now _ _ => Some (default now since)
                      end
                    else since) None h.

Lemma inspect_settled v v' key w : settled v v' → inspect v' key w = inspect v key w.
Proof.
  intros [_ _ Ht _ _]. unfold inspect, Verifier_compare. by rewrite Ht.
Qed.

Lemma checked_absorb v c : checked v c = absorb c.1 (inspect v c.1 c.2) v.
Proof. unfold checked. by rewrite Verifier_check_absorb. Qed.

Lemma run_checks_settled checks v : settled v (run_checks checks v).
Proof.
  induction checks as [|c checks IH] using rev_ind; [done|].
  unfold run_checks in *. rewrite foldl_app. cbn [foldl]. eapply settled_trans; [exact IH|].
  rewrite checked_absorb. apply absorb_settled.
Qed.

Lemma run_checks_since checks v key :
  vr_behindSince v = ∅ → vr_behindSince (run_checks checks v) !! key = stale_since key (looks v checks).
Proof.
  intros Hv. induction checks as [|[k w] checks IH] using rev_ind; [cbn; by rewrite Hv|].
  pose proof (run_checks_settled checks v) as Hs.
  unfold run_checks, looks, stale_since in *. rewrite foldl_app, fmap_app, foldl_app. cbn [foldl fmap list_fmap fst snd].
  rewrite checked_absorb, absorb_behindSince, (inspect_settled v) by done. cbn [fst snd]. by rewrite IH.
Qed.

(** The first of an unbroken series of findings. *)
Lemma stale_since_Some key h t :
  stale_since key h = Some t →
  ∃ h1 h2 diff shard, h = h1 ++ (key, FoundBehind t diff shard) :: h2 ∧
    Forall (λ x, x.1 = key → x.2 = Unseen ∨ ∃ now d sh, x.2 = FoundBehind now d sh) h2.
Proof.
  unfold stale_since. revert t. induction h as [|[k l] h IH] using rev_ind; intros t; [done|].
  rewrite foldl_app. cbn [foldl fst snd]. set (since := foldl _ _ h) in *.
  assert (since = Some t → (k = key → l = Unseen ∨ ∃ now d sh, l = FoundBehind now d sh) →
    ∃ h1 h2 diff shard, h ++ [(k, l)] = h1 ++ (key, FoundBehind t diff shard) :: h2 ∧
      Forall (λ x, x.1 = key → x.2 = Unseen ∨ ∃ now d sh, x.2 = FoundBehind now d sh) h2) as Hext.
  { intros Hs Hl. destruct (IH t Hs) as (h1 & h2 & d & sh & -> & Hf). exists h1, (h2 ++ [(k, l)]), d, sh.
    rewrite <-app_assoc. split; [done|]. apply Forall_app. split; [done|]. by apply Forall_singleton. }
  destruct (decide (k = key)) as [->|Hk]; [|by intros Hs; apply Hext].
  destruct l as [| |now|now diff shard]; try done.
  - intros Hs. apply Hext; eauto.
  - destruct since as [t'|]; cbn; intros [= <-]; [apply Hext; eauto 6|]. by exists h, [], diff, shard.
Qed.

(** A round is a series of checks. *)
Lemma run_batch_checks n (s : VS W) :
  ∃ checks, (length checks ≤ n)%nat ∧ vs_ver (run_batch n s).2 = run_checks checks (vs_ver s).
Proof.
  revert s. induction n as [|n IH]; intros s; [by exists []|]. cbn [run_batch].
  unfold mbind at 1, M_bind. unfold on_world at 1. destruct (sx_NextKey (vs_world s)) as [[key|] w]; [|exists []; split; [simpl; lia|done]].
  set (s1 := mkVS _ _ _). unfold mbind at 1, M_bind, M_try. destruct (Verifier_check key s1) as [r s2] eqn:Ec.
  assert (vs_ver s2 = checked (vs_ver s) (key, w)) as Hv.
  { rewrite checked_absorb. change s2 with (r, s2).2. rewrite <-Ec, Verifier_check_absorb. done. }
  destruct r as [[]|er|p].
  - destruct (IH s2) as (checks & Hl & Hc). exists ((key, w) :: checks). split; [simpl; lia|].
    unfold mbind, M_bind, mret, M_ret. rewrite Hc, Hv. done.
  - set (s3 := mkVS (vs_ver s2) (mkStats (vs_Rounds (vs_round s2)) (vs_Checked (vs_round s2)) (vs_Violations (vs_round s2)) (vs_Errors (vs_round s2) + 1)) (vs_world s2)).
    destruct (IH s3) as (checks & Hl & Hc). exists ((key, w) :: checks). split; [simpl; lia|].
    unfold mbind, M_bind, mret, M_ret, on_round, M_modify. fold s3. rewrite Hc. unfold s3. cbn [vs_ver]. by rewrite Hv.
  - exists [(key, w)]. split; [simpl; lia|]. cbn. by rewrite Hv.
Qed.

Lemma run_checks_blames checks v : blames_eventual v → blames_eventual (run_checks checks v).
Proof.
  intros Hv. induction checks as [|c checks IH] using rev_ind; [done|].
  unfold run_checks in *. rewrite foldl_app. cbn [foldl]. rewrite checked_absorb. by apply absorb_blames.
Qed.

(** Rounds, each on the system as it then is. *)
Definition run_rounds (worlds : list W) (v : Verifier) : Verifier :=
  foldl (λ v w, vs_ver (Verifier_RunOnce (mkVS v (mkStats 0 0 0 0) w)).2) v worlds.

Lemma RunOnce_checks v w :
  ∃ checks f, (length checks ≤ Z.to_nat (vr_Batch v))%nat ∧
    vs_ver (Verifier_RunOnce (mkVS v (mkStats 0 0 0 0) w)).2 = with_stats f (run_checks checks v).
Proof.
  unfold Verifier_RunOnce, on_round, this_verifier, on_verifier. mrun. cbn [vs_ver vs_round vs_world].
  set (s0 := mkVS v (mkStats 0 0 0 0) w).
  destruct (run_batch_checks (Z.to_nat (vr_Batch v)) s0) as (checks & Hl & Hc).
  destruct (run_batch (Z.to_nat (vr_Batch v)) s0) as [r s] eqn:E. cbn [snd] in Hc.
  assert (∀ u, with_stats (λ t, t) u = u) as Hid by (by intros []).
  destruct r as [[]|er|p].
  - exists checks. eexists. split; [done|]. cbn [vs_ver]. by rewrite Hc.
  - exists checks, (λ t, t). split; [done|]. by rewrite Hid.
  - exists checks, (λ t, t). split; [done|]. by rewrite Hid.
Qed.

Lemma run_rounds_blames worlds v : blames_eventual v → blames_eventual (run_rounds worlds v).
Proof.
  intros Hv. induction worlds as [|w worlds IH] using rev_ind; [done|].
  unfold run_rounds in *. rewrite foldl_app. cbn [foldl].
  destruct (RunOnce_checks (foldl (λ v w, vs_ver (Verifier_RunOnce (mkVS v (mkStats 0 0 0 0) w)).2) v worlds) w) as (checks & f & _ & ->).
  by apply (run_checks_blames checks).
Qed.

End Runs.

Lemma NewVerifier_fresh opts v :
  NewVerifier opts = Ok v →
  vr_behindSince v = ∅ ∧ vr_reported v = [] ∧ Some (vr_SLO v) = vo_SLO opts ∧ vr_Bound v = vo_Bound opts ∧
  vr_OnViolation v = vo_OnViolation opts ∧ Tier_Valid (vr_Tier v) = true ∧ 0 < vr_Batch v ∧ 0 < vr_Interval v.
Proof.
  unfold NewVerifier. destruct (vo_Cache opts), (vo_Origin opts), (vo_Keys opts), (vo_SLO opts) as [slo|]; try done.
  cbn [negb]. set (tier := if bool_decide _ then _ else _). destruct (Tier_Valid tier) eqn:Et; [|done].
  intros [= <-]. cbn. split_and!; try done.
  - destruct (Z.leb_spec (vo_Batch opts) 0); lia.
  - destruct (Z.leb_spec (vo_Interval opts) 0); [done|lia].
Qed.

(** ** Properties *)

(** C22: no false alarm and no missed one.  Whatever was checked before, and
    however the watched system changed in between, a check calls for a
    violation exactly when it finds its key behind and the key has been behind,
    at every check that saw it since some earlier one, for longer than the
    propagation bound; the report carries that time. *)
Theorem Verifier_violation_iff {W} `{Adapters W} opts v0 (checks : list (string * W)) key w :
  NewVerifier opts = Ok v0 →
  let v := run_checks checks v0 in
  let since := stale_since key (looks v0 checks) in
  vr_reported (checked v (key, w)) = vr_reported v ++
    match inspect v0 key w with
    | FoundBehind now diff shard =>
        let lag := Time_Sub now (default now since) in
        if (PropagationBound_Duration (vo_Bound opts) <? lag) && vo_OnViolation opts
        then [mkViolation key shard diff lag [Eventual] (Tracer_Trace (vr_Tracer v0) key)] else []
    | _ => []
    end ∧
  ∀ t, since = Some t →
    ∃ h1 h2 diff shard, looks v0 checks = h1 ++ (key, FoundBehind t diff shard) :: h2 ∧
      Forall (λ x, x.1 = key → x.2 = Unseen ∨ ∃ now d sh, x.2 = FoundBehind now d sh) h2.
Proof.
  intros Hnew v since. destruct (NewVerifier_fresh opts v0 Hnew) as (Hb & _ & _ & Hbd & Ho & _).
  pose proof (run_checks_settled checks v0) as Hs. fold v in Hs. split; [|by apply stale_since_Some].
  rewrite checked_absorb, absorb_reported. cbn [fst snd]. rewrite (inspect_settled v0) by done.
  f_equal. destruct (inspect v0 key w) as [| |now|now diff shard] eqn:Ei; try done.
  subst since. rewrite <-run_checks_since by done. fold v. destruct Hs as [-> -> _ _ ->].
  rewrite (inspect_behind _ _ _ _ _ _ Ei), Hbd, Ho. done.
Qed.

(** Rounds never find fault at SESSION or BOUNDED.  Although the
    verifier publishes both as levels it evaluates, a check has neither a
    watermark nor a window: whatever the cache serves, for however long, every
    violation blames EVENTUAL alone and the figures of the two other levels stay clean. *)
Theorem Verifier_never_blames_session {W} `{Adapters W} opts v0 window (worlds : list W) :
  NewVerifier opts = Ok v0 → vo_SLO opts = Some (NewSLO window) →
  let v := run_rounds worlds v0 in
  Forall (λ vi, vi_Levels vi = [Eventual]) (vr_reported v) ∧
  ∀ Log10 level now, level = Session ∨ level = Bounded →
    rp_Violations (SLO_Report Log10 level now (vr_SLO v)).1 = 0.
Proof.
  intros Hnew Hslo v. destruct (NewVerifier_fresh opts v0 Hnew) as (_ & Hr & Hs & _).
  rewrite Hslo in Hs. apply (inj Some) in Hs.
  destruct (run_rounds_blames worlds v0) as [Hrep Hlv].
  { split; [rewrite Hr; by apply Forall_nil|]. rewrite Hs. intros level set. cbn. by rewrite lookup_empty. }
  fold v in Hrep, Hlv. split; [done|]. intros Log10 level now Hl.
  unfold SLO_Report. destruct (slo_levels (vr_SLO v) !! level) as [set|] eqn:E; [|done].
  assert (level ≠ Eventual) as Hne by (by destruct Hl; subst).
  specialize (Hlv _ _ E Hne). rewrite Forall_forall in Hlv.
  assert (filter (λ o, sm_violation o = true) (slo_keep (now - slo_window (vr_SLO v)) set) = []) as Hnil.
  { apply filter_nil. intros o [_ Ho]%list_elem_of_filter. by rewrite (Hlv o Ho). }
  rewrite Hnil. by destruct (_ =? _).
Qed.

(** ** A watched system *)

(** One entry that stays at version 1 while the row is at 2; the clock ticks a
    millisecond at every reading. *)
#[global] Instance demo_adapters : Adapters Z := {
  sx_Peek := λ _ w, (Ok (mkSxEntry 1 true None, true), w);
  sx_StateOf := λ _ w, (Ok (mkSxState 2 true None, true), w);
  sx_ShardOf := λ _ w, (Ok "s0", w);
  sx_NextKey := λ w, (Some "users:1", w);
  sx_Now := λ w, (w, w + 1000000);
}.

Definition demo_verifier_opts : VerifierOptions :=
  mkVerifierOptions true true true (NewPropagationBound 1000000 0 0) (Some (NewSLO 0)) None "" 1 3 false true.

Definition demo_verifier : Verifier :=
  match NewVerifier demo_verifier_opts with Ok v => v | _ => mkVerifier (NewPropagationBound 0 0 0) (NewSLO 0) (NewTracer (mkTracerOptions 0 0)) "" 0 0 false false ∅ (mkStats 0 0 0 0) [] end.

Lemma Verifier_violation_iff_witness :
  vr_reported (checked (run_checks [("users:1", 5); ("users:1", 7000000)] demo_verifier) ("users:1", 9000000)) =
  vr_reported (run_checks [("users:1", 5); ("users:1", 7000000)] demo_verifier) ++
    [mkViolation "users:1" "s0" (mkDifference true 1 2 true) 8999995 [Eventual] []].
Proof.
  exact (proj1 (Verifier_violation_iff demo_verifier_opts demo_verifier [("users:1", 5); ("users:1", 7000000)]
                  "users:1" 9000000 eq_refl)).
Defined.

Lemma Verifier_never_blames_session_witness :
  Forall (λ vi, vi_Levels vi = [Eventual]) (vr_reported (run_rounds [0; 1000] demo_verifier)).
Proof.
  exact (proj1 (Verifier_never_blames_session demo_verifier_opts demo_verifier 0 [0; 1000] eq_refl eq_refl)).
Defined.

(** The rounds of the example do report. *)
Lemma demo_verifier_reports : length (vr_reported (run_rounds [0; 1000] demo_verifier)) = 3%nat.
Proof. reflexivity. Qed.
