(* ===== verification/Sources.v ===== *)
(** What the verifier reads from: the adapters of a deployment
    ([src/internal/sextant/adapters.go]), a foreign Redis
    ([src/pkg/sextant/cache_redis.go]), a foreign SQL database
    ([src/pkg/sextant/origin_sql.go], [identifier.go]) and the key sources
    ([src/pkg/sextant/keysource.go]).

    The connections are arguments: what a DSN or an address answers to a ping,
    to the one query, to GET, HGETALL and SCAN. *)

From S2P Require Import Prelude GoStd Hlc Ring Schema Row CacheClient Table Mysql Storage Engine Sextant Verifier.

Local Open Scope Z_scope.

(** ** Strings *)

(** [strings.ReplaceAll] for a non-empty [old]; [skip] bytes of a match are left. *)
Fixpoint replace_loop (old new s : string) (skip : nat) : string :=
  match s with
  | "" => ""
  | String c s' =>
      match skip with
      | S skip => replace_loop old new s' skip
      | O => if String.prefix old s then new +:+ replace_loop old new s' (String.length old - 1)
             else String c (replace_loop old new s' 0)
      end
  end.
Definition ReplaceAll (s old new : string) : string := replace_loop old new s 0.

(** [strings.Contains]. *)
Fixpoint Contains (s sub : string) : bool :=
  String.prefix sub s || match s with "" => false | String _ s => Contains s sub end.

Definition TrimPrefix (s pre : string) : string :=
  if String.prefix pre s then String.substring (String.length pre) (String.length s - String.length pre) s else s.

(** [strings.Trim(s, cutset)] for a cutset of one ASCII byte. *)
Fixpoint trim_left (c : ascii) (s : string) : string :=
  match s with String d s' => if bool_decide (d = c) then trim_left c s' else s | "" => "" end.
Fixpoint trim_right (c : ascii) (s : string) : string :=
  match s with
  | "" => ""
  | String d s' =>
      match trim_right c s' with
      | "" => if bool_decide (d = c) then "" else String d ""
      | t => String d t
      end
  end.
Definition Trim_byte (c : ascii) (s : string) : string := trim_right c (trim_left c s).

Definition nul : string := String (byte_of 0) "".

(** ** Versions and projections *)

Fixpoint parse_version_loop (u : Z) (b : string) : result Z :=
  match b with
  | "" => Ok u
  | String c b =>
      if (byte_val c <? 48) || (57 <? byte_val c) then Err (Errorf "is not an unsigned integer")
      else
        let next := u64 (u64 (u * 10) + (byte_val c - 48)) in
        if next <? u then Err (Errorf "overflows a uint64") else parse_version_loop next b
  end.

Definition parseVersion (b : string) : result Z :=
  if bool_decide (b = "") then Err (Errorf "empty value is not a version") else parse_version_loop 0 b.

Fixpoint projection_loop (first : bool) (values : list (option string)) : string :=
  match values with
  | [] => ""
  | v :: values =>
      (if first then "" else nul) +:+ match v with None => String (byte_of 255) "" | Some b => b end
        +:+ projection_loop false values
  end.

Definition joinProjection (values : list (option string)) : string := projection_loop true values.

(** ** A SQL system of record *)

Definition validIdentifiers (names : list string) : result unit :=
  if forallb validIdentifier names then Ok tt else Err (Errorf "sextant: is not a plain SQL identifier").

Record SQLOriginOptions := mkSQLOriginOptions {
  so_DSNs : list string;
  so_Table : string;
  so_KeyColumn : string;
  so_VersionColumn : string;
  so_ValueColumns : list string;
  so_ShardFor : option (string → Z);
}.

Record SQLOrigin := mkSQLOrigin {
  og_dbs : list string;
  og_names : list string;
  og_shardFor : string → Z;
  og_stmt : string;
  og_versionColumn : bool;
  og_valueColumns : nat;
}.

(** Open the writers in order; [reach] is what a DSN answers. *)
Fixpoint open_writers (reach : string → option error) (i : nat) (dsns : list string) : result (list string * list string) :=
  match dsns with
  | [] => Ok ([], [])
  | dsn :: dsns =>
      match reach dsn with
      | Some err => Err (Wrapf "sextant: reach origin" err)
      | None =>
          '(dbs, names) ← open_writers reach (S i) dsns;
          Ok (dsn :: dbs, ("origin" +:+ FormatUint (Z.of_nat i)) :: names)
      end
  end.

Definition origin_stmt (opts : SQLOriginOptions) : string :=
  let selected := (if bool_decide (so_VersionColumn opts = "") then [] else [quote (so_VersionColumn opts)])
                  ++ (quote <$> so_ValueColumns opts) in
  "SELECT " +:+ join ", " selected +:+ " FROM " +:+ quote (so_Table opts)
    +:+ " WHERE " +:+ quote (so_KeyColumn opts) +:+ " = ?".

Definition NewSQLOrigin (reach : string → option error) (opts : SQLOriginOptions) : result SQLOrigin :=
  if bool_decide (so_DSNs opts = []) then Err (Errorf "sextant: no origin DSNs")
  else
    validIdentifiers ([so_Table opts; so_KeyColumn opts] ++ so_ValueColumns opts);;
    (if bool_decide (so_VersionColumn opts = "") then Ok tt else validIdentifiers [so_VersionColumn opts]);;
    (if bool_decide (so_VersionColumn opts = "") && bool_decide (so_ValueColumns opts = [])
     then Err (Errorf "sextant: an origin must declare a version column, value columns, or both") else Ok tt);;
    '(dbs, names) ← open_writers reach 0 (so_DSNs opts);
    Ok (mkSQLOrigin dbs names (match so_ShardFor opts with Some f => f | None => λ _, 0 end)
          (origin_stmt opts) (negb (bool_decide (so_VersionColumn opts = ""))) (length (so_ValueColumns opts))).

Definition SQLOrigin_dbFor (o : SQLOrigin) (key : string) : result (string * string) :=
  let i := og_shardFor o key in
  if (i <? 0) || (Z.of_nat (length (og_dbs o)) <=? i) then Err (Errorf "sextant: key routed to no configured writer")
  else
    match og_dbs o !! Z.to_nat i, og_names o !! Z.to_nat i with
    | Some db, Some name => Ok (db, name)
    | _, _ => Panic "runtime error: index out of range"
    end.

Definition SQLOrigin_Shard (o : SQLOrigin) (key : string) : result string :=
  '(_, name) ← SQLOrigin_dbFor o key; Ok name.

(** [State]; [query db stmt key] is the row the database answers, if any. *)
Definition SQLOrigin_State (query : string → string → string → result (option (list (option string))))
    (o : SQLOrigin) (key : string) : result (sx_State * bool) :=
  '(db, _) ← SQLOrigin_dbFor o key;
  match query db (og_stmt o) key with
  | Panic p => Panic p
  | Err err => Err (Wrapf "sextant: read" err)
  | Ok None => Ok (mkSxState 0 false None, false)
  | Ok (Some row) =>
      if negb (length row =? (if og_versionColumn o then 1 else 0) + og_valueColumns o)%nat then
        Err (Wrapf "sextant: read" (Errorf "sql: wrong number of destination arguments in Scan"))
      else
        let version := if og_versionColumn o then default None (row !! 0%nat) else None in
        let values := if og_versionColumn o then tail row else row in
        out ← match version with
              | Some b =>
                  match parseVersion b with
                  | Err err => Err (Wrapf "sextant: version column" err)
                  | Ok v => Ok (v, true)
                  | Panic p => Panic p
                  end
              | None => Ok (0, false)
              end;
        Ok (mkSxState out.1 out.2 (if (0 <? og_valueColumns o)%nat then Some (joinProjection values) else None), true)
  end.

Definition HashShard (n : Z) (key : string) : Z := if n <=? 1 then 0 else fnv64a key mod n.

(** ** A Redis somebody else fills *)

Definition CodecRaw : string := "raw".
Definition CodecJSON : string := "json".
Definition CodecHash : string := "hash".

Definition Codec_Valid (c : string) : bool :=
  bool_decide (c = CodecRaw) || bool_decide (c = CodecJSON) || bool_decide (c = CodecHash).

Definition ParseCodec (s : string) : result string :=
  if negb (Codec_Valid s) then Err (Errorf ("sextant: unknown codec " +:+ s)) else Ok s.

Record RedisCacheOptions := mkRedisCacheOptions {
  rco_Addrs : list string;
  rco_KeyTemplate : string;
  rco_Codec : string;
  rco_VersionField : string;
  rco_ValueFields : list string;
}.

(** [NewRedisCache] to the options it keeps; [ping] is what the server answers. *)
Definition NewRedisCache (ping : option error) (opts : RedisCacheOptions) : result RedisCacheOptions :=
  if bool_decide (rco_Addrs opts = []) then Err (Errorf "sextant: no cache addresses")
  else if negb (Contains (rco_KeyTemplate opts) "{key}") then Err (Errorf "sextant: key_template does not contain {key}")
  else
    let codec := if bool_decide (rco_Codec opts = "") then CodecRaw else rco_Codec opts in
    if negb (Codec_Valid codec) then Err (Errorf "sextant: unknown codec")
    else if negb (bool_decide (codec = CodecRaw)) && bool_decide (rco_VersionField opts = "") then
      Err (Errorf "sextant: codec needs a version field to extract")
    else
      match ping with
      | Some err => Err (Wrapf "sextant: reach cache" err)
      | None => Ok (mkRedisCacheOptions (rco_Addrs opts) (rco_KeyTemplate opts) codec (rco_VersionField opts) (rco_ValueFields opts))
      end.

Definition RedisCache_CacheKey (c : RedisCacheOptions) (key : string) : string :=
  ReplaceAll (rco_KeyTemplate c) "{key}" key.

Definition entryFromHash (c : RedisCacheOptions) (fields : gmap string string) : result (sx_Entry * bool) :=
  match fields !! rco_VersionField c with
  | None => Err (Errorf "sextant: the declared version field does not match what is cached")
  | Some raw =>
      match parseVersion raw with
      | Err err => Err (Wrapf "sextant: field" err)
      | Panic p => Panic p
      | Ok v =>
          let value := if bool_decide (rco_ValueFields c = []) then None
                       else Some (join nul ((λ f, default "" (fields !! f)) <$> rco_ValueFields c)) in
          Ok (mkSxEntry v true value, true)
      end
  end.

(** [versionFromJSON]; [Unmarshal] decodes an object to the raw texts of its fields. *)
Definition versionFromJSON (Unmarshal : string → result (gmap string string)) (raw field : string) : result Z :=
  match Unmarshal raw with
  | Err err => Err (Wrapf "value is not a JSON object" err)
  | Panic p => Panic p
  | Ok doc =>
      match doc !! field with
      | None => Err (Errorf "the declared version field does not match what is cached")
      | Some v => parseVersion (Trim_byte (byte_of 34) v)
      end
  end.

Definition RedisCache_Peek (Unmarshal : string → result (gmap string string))
    (HGetAll : string → result (gmap string string)) (Get : string → result (option string))
    (c : RedisCacheOptions) (key : string) : result (sx_Entry * bool) :=
  let none := mkSxEntry 0 false None in
  let cacheKey := RedisCache_CacheKey c key in
  if bool_decide (rco_Codec c = CodecHash) then
    match HGetAll cacheKey with
    | Err err => Err (Wrapf "sextant: read" err)
    | Panic p => Panic p
    | Ok fields => if bool_decide (fields = ∅) then Ok (none, false) else entryFromHash c fields
    end
  else
    match Get cacheKey with
    | Err err => Err (Wrapf "sextant: read" err)
    | Panic p => Panic p
    | Ok None => Ok (none, false)
    | Ok (Some raw) =>
        if bool_decide (rco_Codec c = CodecJSON) then
          match versionFromJSON Unmarshal raw (rco_VersionField c) with
          | Err err => Err (Wrapf "sextant" err)
          | Panic p => Panic p
          | Ok v => Ok (mkSxEntry v true (Some raw), true)
          end
        else Ok (mkSxEntry 0 false (Some raw), true)
    end.

(** ** Key sources *)

Record FileKeys := mkFileKeys { fk_keys : list string; fk_next : Z }.

(** [FileKeys.Next]; the division panics on an empty list. *)
Definition FileKeys_Next : M FileKeys string :=
  f ← M_get;
  if (length (fk_keys f) =? 0)%nat then M_panic "runtime error: integer divide by zero"
  else
    let i := Z.rem (fk_next f) (Z.of_nat (length (fk_keys f))) in
    if i <? 0 then M_panic "runtime error: index out of range"
    else
      match fk_keys f !! Z.to_nat i with
      | None => M_panic "runtime error: index out of range"
      | Some key => M_put (mkFileKeys (fk_keys f) (i64 (fk_next f + 1)));; mret key
      end.

Record ScanKeysOptions := mkScanKeysOptions { sko_Client : bool; sko_Match : string; sko_Prefix : string; sko_Suffix : string }.

Record ScanKeys := mkScanKeys {
  sck_opts : ScanKeysOptions;
  sck_buf : list string;
  sck_cursor : Z;
  sck_wrapped : bool;
}.

Definition NewScanKeys (opts : ScanKeysOptions) : result ScanKeys :=
  if negb (sko_Client opts) then Err (Errorf "sextant: no cache client to scan")
  else if bool_decide (sko_Match opts = "") then Err (Errorf "sextant: scanning needs a key pattern")
  else Ok (mkScanKeys opts [] 0 false).

Definition ScanKeys_strip (s : ScanKeys) (k : string) : string :=
  TrimSuffix (TrimPrefix k (sko_Prefix (sck_opts s))) (sko_Suffix (sck_opts s)).

(** [Fill]; [scan cursor match] is the server's page and next cursor. *)
Definition ScanKeys_Fill (scan : Z → string → result (list string * Z)) : M ScanKeys unit :=
  s ← M_get;
  match scan (sck_cursor s) (sko_Match (sck_opts s)) with
  | Err err => M_fail (Wrapf "sextant: scan" err)
  | Panic p => M_panic p
  | Ok (keys, next) =>
      let buf := sck_buf s ++ (ScanKeys_strip s <$> keys) in
      let buf := drop (length buf - 10000) buf in
      M_put (mkScanKeys (sck_opts s) buf next (sck_wrapped s || (next =? 0)))
  end.

Definition ScanKeys_Next (IntN : nat → nat) (s : ScanKeys) : option string :=
  match sck_buf s with [] => None | _ => sck_buf s !! IntN (length (sck_buf s)) end.

(** ** This deployment *)

Definition CacheAdapter_Peek {C} `{Cache C} (key : string) : M C (sx_Entry * bool) :=
  hit ← cache_Get key;
  match hit with
  | None => mret (mkSxEntry 0 false None, false)
  | Some entry => mret (mkSxEntry (FillVersion entry) true (Row entry), true)
  end.

Record OriginAdapter := mkOriginAdapter { oa_router : storage_Router; oa_shards : gmap string Shard }.

Definition OriginAdapter_Shard (a : OriginAdapter) (key : string) : result string :=
  match Router_ShardFor (oa_router a) key with
  | Err err => Err (Wrapf "sextant: route" err)
  | r => r
  end.

(** Run an operation of the shard [id]. *)
Definition on_open_shard {D A} (id : string) (m : M (ShardW D) A) : M (gmap string (ShardW D)) A := λ ws,
  match ws !! id with
  | None => (Panic "invalid memory address or nil pointer dereference", ws)
  | Some sw => let '(r, sw) := m sw in (r, <[id := sw]> ws)
  end.

(** [State]; [now] and [f] are the shard's clock reading and the fate of its query. *)
Definition OriginAdapter_State {D} `{Mysql D} (a : OriginAdapter) (now : Z) (f : fate) (key : string) :
    M (gmap string (ShardW D)) (sx_State * bool) :=
  parsed ← M_lift (match ParseKey key with Err err => Err (Wrapf "sextant: parse key" err) | r => r end);
  shardID ← M_lift (OriginAdapter_Shard a key);
  match oa_shards a !! shardID with
  | None => M_fail (Errorf ("sextant: no open shard " +:+ shardID))
  | Some shard =>
      read ← M_try (on_open_shard shardID (Shard_GetRow shard now f parsed));
      match read with
      | inr err => M_fail (Wrapf "sextant: read" err)
      | inl (None, _) => mret (mkSxState 0 false None, false)
      | inl (Some row, _) =>
          t ← M_lift (match Shard_Table shard (key_Table parsed) with Err err => Err (Wrapf "sextant" err) | r => r end);
          version ← M_lift (match row !! Z.to_nat (col_Index (d_VersionColumn (t_d t))) with
                            | None => Panic "runtime error: index out of range"
                            | Some v => match Value_Uint64 v with Err err => Err (Wrapf "sextant: read" err) | r => r end
                            end);
          encoded ← M_lift (match EncodeRow (t_d t) row with Err err => Err (Wrapf "sextant: encode" err) | r => r end);
          mret (mkSxState version true (Some encoded), true)
      end
  end.
