(* ===== verification/SourcesSpec.v ===== *)
(** What the verifier's adapters guarantee: versions read as the schema reads
    them, projections and cache keys that tell rows apart, statements with one
    placeholder, and the deployment's origin read against its table. *)

From S2P Require Import Prelude GoStd Hlc Ring Schema Row CacheClient Table Mysql Storage Engine Sextant Verifier Sources.

Local Open Scope Z_scope.

(** ** Versions *)

Lemma parse_version_loop_uint64 b u :
  is_u64 u →
  match parse_version_loop u b, uint64_loop u b with
  | Ok v, Ok v' => v = v' | Err _, Err _ => True | _, _ => False
  end.
Proof.
  revert u. induction b as [|c b IH]; intros u Hu; cbn [parse_version_loop uint64_loop]; [done|].
  unfold is_digit, digit_val. rewrite negb_andb, Z.leb_antisym, Z.leb_antisym, !negb_involutive.
  destruct (_ || _); [done|].
  assert (u64 (u64 (u * 10) + (byte_val c - 48)) = u64 (u * 10 + (byte_val c - 48))) as ->.
  { unfold u64. by rewrite Zplus_mod_idemp_l. }
  destruct (_ <? u); [done|]. apply IH, u64_is.
Qed.

(** A version column of a foreign database, a hash field or a JSON field
    is read exactly as the engine reads its own version column: the same texts
    are accepted, with the same number; every version the engine can have
    written is read back. *)
Theorem parseVersion_agrees (b : string) :
  match parseVersion b, Value_Uint64 (Str b) with
  | Ok v, Ok v' => v = v' | Err _, Err _ => True | _, _ => False
  end ∧ ∀ u, is_u64 u → parseVersion (FormatUint u) = Ok u.
Proof.
  assert (∀ b, match parseVersion b, Value_Uint64 (Str b) with
    | Ok v, Ok v' => v = v' | Err _, Err _ => True | _, _ => False end) as Heq.
  { intros s. unfold parseVersion, Value_Uint64, Str, bytes. cbn [IsNull v_Bytes default from_option id].
    destruct (bool_decide (s = "")); [done|]. by apply parse_version_loop_uint64. }
  split; [apply Heq|]. intros u Hu. specialize (Heq (FormatUint u)).
  assert (Value_Uint64 (Str (FormatUint u)) = Ok u) as Hv.
  { pose proof (proj1 Value_Uint64_overflow u Hu) as H. unfold Uint in H. by rewrite appendUintTo_FormatUint in H. }
  rewrite Hv in Heq. destruct (parseVersion (FormatUint u)); [by rewrite Heq|done..].
Qed.

(** The overflow test only compares the wrapped value with the previous one, so
    a number above 2^64-1 can be accepted as a smaller one: an origin at version
    30000000000000000000 is taken for 11553255926290448384, below an entry at
    12000000000000000000, which then never counts as behind. *)
Theorem parseVersion_wraps :
  parseVersion "30000000000000000000" = Ok 11553255926290448384 ∧
  df_Behind (VersionDifference 12000000000000000000 11553255926290448384) = false.
Proof. by vm_compute. Qed.

(** ** Projections *)

Definition rendered (v : option string) : string := match v with None => String (byte_of 255) "" | Some b => b end.

(** A value that is neither the text a NULL is rendered as nor holds the separator. *)
Definition plain_value (v : option string) : Prop :=
  match v with None => True | Some b => contains_byte (byte_of 0) b = false ∧ b ≠ String (byte_of 255) "" end.

Lemma projection_join first values :
  projection_loop first values = (if first || bool_decide (values = []) then "" else nul) +:+ join nul (rendered <$> values).
Proof.
  revert first. induction values as [|v values IH]; intros first; [by rewrite orb_true_r|].
  cbn [projection_loop fmap list_fmap]. rewrite IH. rewrite (bool_decide_eq_false_2 (_ :: _ = [])), orb_false_r by done.
  f_equal. destruct values as [|v' values]; [cbn; by rewrite str_app_nil_r|].
  rewrite (bool_decide_eq_false_2 (_ :: _ = [])) by done. cbn [orb fmap list_fmap].
  change (join nul (rendered v :: rendered v' :: (rendered <$> values)))
    with (rendered v +:+ nul +:+ join nul (rendered v' :: (rendered <$> values))). done.
Qed.

Lemma rendered_inj v v' : plain_value v → plain_value v' → rendered v = rendered v' → v = v'.
Proof. destruct v, v'; cbn; intros Hv Hv' H; subst; try done; [by destruct Hv as [_ []]|by destruct Hv' as [_ []]]. Qed.

(** A projection tells two rows apart, a NULL from every value too, when
    no value of them holds a zero byte or is the single byte 0xff. *)
Theorem joinProjection_inj (vs vs' : list (option string)) :
  length vs = length vs' → Forall plain_value vs → Forall plain_value vs' →
  joinProjection vs = joinProjection vs' → vs = vs'.
Proof.
  intros Hl Hv Hv'. unfold joinProjection. rewrite !projection_join. cbn [orb String.append].
  assert (∀ ws, Forall plain_value ws → ws ≠ [] → split_byte (byte_of 0) (join nul (rendered <$> ws)) = rendered <$> ws) as Hs.
  { intros ws Hws Hne. apply split_join; [|by destruct ws]. apply Forall_fmap.
    eapply Forall_impl; [exact Hws|]. intros [b|] Hv1; [apply Hv1|done]. }
  intros Heq. destruct (decide (vs = [])) as [->|Hne]; [by destruct vs'|].
  assert (vs' ≠ []) as Hne' by (intros ->; by destruct vs).
  assert (rendered <$> vs = rendered <$> vs') as Hr by (rewrite <-(Hs vs), <-(Hs vs') by done; by rewrite Heq).
  clear Hs Heq Hne Hne'. revert vs' Hl Hv' Hr.
  induction Hv as [|v vs Hv Hvs IH]; intros [|v' vs'] Hl Hv' Hr; try done.
  apply Forall_cons in Hv' as [Hv1 Hv2]. cbn in Hr. injection Hr as Hr1 Hr2.
  f_equal; [by apply rendered_inj|]. apply IH; [by injection Hl|done|done].
Qed.

(** Without those conditions it does not: a NULL and the byte 0xff, and two
    rows that split differently at a zero byte, have one projection. *)
Theorem joinProjection_collides :
  joinProjection [None] = joinProjection [Some (String (byte_of 255) "")] ∧
  joinProjection [Some ("a" +:+ nul +:+ "b"); Some "c"] = joinProjection [Some "a"; Some ("b" +:+ nul +:+ "c")].
Proof. by vm_compute. Qed.

(** ** Cache keys *)

Lemma prefix_refl_nil s : String.prefix "" s = true.
Proof. by destruct s. Qed.

Lemma str_app_inj a b r r' : String.length a = String.length b → a +:+ r = b +:+ r' → a = b.
Proof.
  revert b. induction a as [|c a IH]; intros [|d b]; try done. cbn [String.length].
  intros [= Hl]. rewrite !str_app_cons. intros [= -> H]. f_equal. by apply IH.
Qed.

(** The length of the result grows with the replacement, as often as it occurs. *)
Lemma replace_length old s skip :
  old ≠ "" →
  ∃ a n : nat, (skip = 0%nat → Contains s old = true → (0 < n)%nat) ∧
    ∀ new, String.length (replace_loop old new s skip) = (a + n * String.length new)%nat.
Proof.
  intros Ho. revert skip. induction s as [|c s IH]; intros skip.
  { exists 0%nat, 0%nat. split; [|done]. intros _. cbn. by destruct old. }
  cbn [replace_loop Contains]. destruct skip as [|skip].
  - destruct (String.prefix old (String c s)) eqn:Ep; cbn [orb].
    + destruct (IH (String.length old - 1)%nat) as (a & n & _ & Hn). exists a, (S n). split; [lia|].
      intros new. rewrite str_length_app, Hn. lia.
    + destruct (IH 0%nat) as (a & n & Hc & Hn). exists (S a), n. split; [done|].
      intros new. cbn [String.length]. rewrite Hn. lia.
  - destruct (IH skip) as (a & n & _ & Hn). exists a, n. split; [done|apply Hn].
Qed.

Lemma replace_same_length old s k k' :
  old ≠ "" → Contains s old = true → String.length k = String.length k' →
  replace_loop old k s 0 = replace_loop old k' s 0 → k = k'.
Proof.
  intros Ho. induction s as [|c s IH]; [by destruct old|]. cbn [replace_loop Contains].
  destruct (String.prefix old (String c s)); cbn [orb]; intros Hc Hl.
  - by apply str_app_inj.
  - intros [= H]. by apply IH.
Qed.

(** Two keys never share an entry of a foreign cache, whatever the template
    and however often it names the key: a template without it is refused. *)
Theorem CacheKey_injective (ping : option error) (opts c : RedisCacheOptions) (k k' : string) :
  NewRedisCache ping opts = Ok c → RedisCache_CacheKey c k = RedisCache_CacheKey c k' → k = k'.
Proof.
  unfold NewRedisCache, RedisCache_CacheKey, ReplaceAll.
  destruct (bool_decide _); [done|]. destruct (Contains _ _) eqn:Ec; cbn [negb]; [|done].
  destruct (negb (Codec_Valid _)); [done|]. destruct (_ && _); [done|]. destruct ping; [done|].
  intros [= <-]. cbn [rco_KeyTemplate]. intros H.
  apply (replace_same_length "{key}" (rco_KeyTemplate opts)); try done.
  destruct (replace_length "{key}" (rco_KeyTemplate opts) 0) as (a & n & Hn & Hlen); [done|].
  specialize (Hn eq_refl Ec). apply (f_equal String.length) in H. rewrite !Hlen in H. nia.
Qed.

(** ** Statements *)

Lemma open_writers_spec reach i dsns dbs names :
  open_writers reach i dsns = Ok (dbs, names) → dbs = dsns ∧ length names = length dsns.
Proof.
  revert i dbs names. induction dsns as [|dsn dsns IH]; intros i dbs names; cbn [open_writers]; [by intros [= <- <-]|].
  destruct (reach dsn); [done|]. intros ([d n] & H & [= <- <-])%result_bind_ok.
  destruct (IH _ _ _ H) as [-> Hl]. split; [done|]. cbn. by rewrite Hl.
Qed.

(** The one statement of a built origin binds exactly one argument, the
    key, whatever the identifiers of the configuration, and it was built from
    plain identifiers only; with the single writer of a nil [ShardFor], or with
    [HashShard] over as many writers as there are, every key has a writer. *)
Theorem NewSQLOrigin_ready reach opts o :
  NewSQLOrigin reach opts = Ok o →
  qs (og_stmt o) = 1%nat ∧ og_dbs o = so_DSNs opts ∧ og_dbs o ≠ [] ∧
  (og_versionColumn o = true ∨ og_valueColumns o ≠ 0%nat) ∧
  (so_ShardFor opts = None ∨ so_ShardFor opts = Some (HashShard (Z.of_nat (length (so_DSNs opts)))) →
   ∀ key, is_ok (SQLOrigin_dbFor o key) = true ∧ is_ok (SQLOrigin_Shard o key) = true).
Proof.
  unfold NewSQLOrigin. destruct (bool_decide_reflect (so_DSNs opts = [])) as [|Hne]; [done|].
  intros (u1 & H1 & (u2 & H2 & (u3 & H3 & ([dbs names] & H4 & [= <-])%result_bind_ok)%result_bind_ok)%result_bind_ok)%result_bind_ok.
  destruct (open_writers_spec _ _ _ _ _ H4) as [-> Hnames]. cbn [og_stmt og_dbs og_versionColumn og_valueColumns].
  assert (∀ s, s ∈ [so_Table opts; so_KeyColumn opts] ++ so_ValueColumns opts → validIdentifier s = true) as Hid.
  { revert H1. unfold validIdentifiers. destruct (forallb _ _) eqn:E; [|done]. intros _ s Hs.
    rewrite forallb_forall in E. apply E. by apply list_elem_of_In. }
  split_and!; [|done|done| |].
  - unfold origin_stmt. rewrite !qs_app, !quote_qs by (apply Hid; set_solver).
    rewrite qs_join by done.
    assert (∀ l, (∀ c, c ∈ l → validIdentifier c = true) → sum_list (qs <$> (quote <$> l)) = 0%nat) as Hsum.
    { intros l Hl. rewrite <-list_fmap_compose, (sum_const _ 0); [lia|]. intros c Hc. by apply quote_qs, Hl. }
    rewrite fmap_app, sum_list_with_app.
    rewrite (Hsum (so_ValueColumns opts)) by (intros c Hc; apply Hid; set_solver).
    assert (sum_list (qs <$> (if bool_decide (so_VersionColumn opts = "") then [] else [quote (so_VersionColumn opts)])) = 0%nat) as ->.
    { destruct (bool_decide (so_VersionColumn opts = "")); [done|].
      apply (Hsum [so_VersionColumn opts]). intros c ->%list_elem_of_singleton.
      revert H2. unfold validIdentifiers. cbn [forallb]. by destruct (validIdentifier _). }
    qs_lits.
  - destruct (bool_decide (so_VersionColumn opts = "")); [|by left]. right.
    destruct (so_ValueColumns opts); [done|]. cbn. lia.
  - intros Hsh key.
    set (o := mkSQLOrigin _ _ _ _ _ _).
    assert (is_ok (SQLOrigin_dbFor o key) = true) as Hok.
    { unfold SQLOrigin_dbFor. set (i := og_shardFor o key). cbn [og_dbs og_names o].
      assert (0 ≤ i < Z.of_nat (length (so_DSNs opts))) as Hi.
      { assert (0 < Z.of_nat (length (so_DSNs opts))) by (destruct (so_DSNs opts); [done|cbn; lia]).
        subst i. cbn [og_shardFor o]. destruct Hsh as [->| ->]; [lia|]. unfold HashShard.
        destruct (Z.leb_spec (Z.of_nat (length (so_DSNs opts))) 1); [lia|]. apply Z.mod_pos_bound. lia. }
      rewrite (proj2 (Z.ltb_ge i 0)), (proj2 (Z.leb_gt _ i)) by lia. cbn [orb].
      destruct (lookup_lt_is_Some_2 (so_DSNs opts) (Z.to_nat i)) as [db ->]; [lia|].
      destruct (lookup_lt_is_Some_2 names (Z.to_nat i)) as [name ->]; [lia|]. done. }
    split; [done|]. unfold SQLOrigin_Shard. destruct (SQLOrigin_dbFor o key) as [[]| |]; done.
Qed.

(** ** The deployment's origin *)

(** The verifier's read of this deployment's database answers for the key the
    engine caches under: with the version and the encoded row as stored when there is
    a row, with nothing when there is none; the data is not written, and it fails
    only with the query, on a row without a readable version, or one that does not encode. *)
Theorem OriginAdapter_State_spec {D} `{Mysql D} (a : OriginAdapter) (shard : Shard) (t : Table)
    (tbl : D → gmap (list string) cells) sel `{!MysqlLaws D t tbl sel} (now : Z) (f : fate) (k : list string)
    (id : string) (sw : ShardW D) (ws : gmap string (ShardW D)) :
  let key := Key_String (mkKey (d_Name (t_d t)) k) in
  table_ok t → validIdentifier (d_Name (t_d t)) = true → k ≠ [] →
  sh_tables shard !! d_Name (t_d t) = Some t → key_fits t k →
  Router_ShardFor (oa_router a) key = Ok id → oa_shards a !! id = Some shard → ws !! id = Some sw →
  let r := OriginAdapter_State a now f key ws in
  (∃ sw', r.2 = <[id := sw']> ws ∧ sw_db sw' = sw_db sw ∧ sw_tx sw' = sw_tx sw) ∧
  match r.1 with
  | Ok (st, true) => f = None ∧ ∃ cs u b, tbl (sw_db sw) !! k = Some cs ∧ stored_version t cs = Ok u ∧
      EncodeRow (t_d t) (value_of_cell <$> cs) = Ok b ∧ st = mkSxState u true (Some b)
  | Ok (_, false) => f = None ∧ tbl (sw_db sw) !! k = None
  | Err _ => f = None → ∃ cs, tbl (sw_db sw) !! k = Some cs ∧
      (is_err (stored_version t cs) = true ∨ is_err (EncodeRow (t_d t) (value_of_cell <$> cs)) = true)
  | Panic _ => ¬ (0 ≤ now ≤ MaxPhysicalMillis)
  end.
Proof.
  intros key Hok Hid Hne Ht Hfit Hr Hs Hw r.
  assert (r = OriginAdapter_State a now f key ws) as Hd by done. clearbody r. revert Hd. unfold OriginAdapter_State.
  rewrite (M_bind_run _ _ ws (mkKey (d_Name (t_d t)) k) ws) by (unfold M_lift, key; by rewrite ParseKey_String).
  rewrite (M_bind_run _ _ ws id ws) by (unfold M_lift, OriginAdapter_Shard; by rewrite Hr).
  rewrite Hs. pose proof (get_spec shard t tbl sel Hok now f k sw Ht Hfit) as Hg.
  unfold mbind at 1, M_bind, M_try, on_open_shard. rewrite Hw.
  destruct (Shard_GetRow shard now f (mkKey (d_Name (t_d t)) k) sw) as [[[[row|] fill]|er|p] sw']; cbn [get_outcome] in Hg.
  - destruct Hg as (Hf & _ & cs & u & Hcs & Hrow & Hu & Hrv & Hlen & _ & ->).
    unfold Shard_Table. cbn [key_Table]. rewrite Ht. intros Hd. mrun in Hd. unfold Table_rowVersion in Hrv.
    destruct (row !! Z.to_nat (col_Index (d_VersionColumn (t_d t)))) as [v|] eqn:Ev; [|done].
    rewrite ?Ev in Hd. assert (Value_Uint64 v = Ok u) as Ev0 by (by destruct (Value_Uint64 v); simplify_eq/=).
    rewrite Ev0 in Hd. destruct (EncodeRow (t_d t) row) as [b|e|p] eqn:Ee; subst r; cbn [fst snd].
    + split; [by eexists|]. split; [done|]. exists cs, u, b. by rewrite <-Hrow.
    + split; [by eexists|]. intros _. exists cs. split; [done|]. right. by rewrite <-Hrow, Ee.
    + by apply EncodeRow_no_panic in Ee.
  - destruct Hg as (Hf & _ & Hcs & ->). intros ->. cbn. split; [by eexists|done].
  - destruct Hg as [-> He]. intros ->. cbn. split; [by eexists|]. intros Hf. destruct (He Hf) as (cs & Hcs & Hv). exists cs. eauto.
  - destruct Hg as [Hp ->]. intros ->. cbn. split; [by eexists|done].
Qed.

(** ** Witnesses *)

Lemma joinProjection_inj_witness : Some "a" ≠ None ∧ [Some "a"; None] = [Some "a"; None].
Proof.
  split; [done|]. apply joinProjection_inj; [done|by repeat constructor..|reflexivity].
Defined.

Definition demo_redis_opts : RedisCacheOptions := mkRedisCacheOptions ["localhost:6379"] "user:{key}:v3" "" "" [].

Lemma CacheKey_injective_witness :
  RedisCache_CacheKey (mkRedisCacheOptions ["localhost:6379"] "user:{key}:v3" "raw" "" []) "42" = "user:42:v3" ∧ "42" = "42".
Proof.
  split; [reflexivity|].
  exact (CacheKey_injective None demo_redis_opts (mkRedisCacheOptions ["localhost:6379"] "user:{key}:v3" "raw" "" [])
           "42" "42" eq_refl eq_refl).
Defined.

Definition demo_origin_opts : SQLOriginOptions :=
  mkSQLOriginOptions ["w0"; "w1"] "users" "id" "version" ["name"] (Some (HashShard 2)).

Definition demo_origin : SQLOrigin :=
  mkSQLOrigin ["w0"; "w1"] ["origin0"; "origin1"] (HashShard 2)
    "SELECT `version`, `name` FROM `users` WHERE `id` = ?" true 1.

Lemma NewSQLOrigin_ready_witness :
  qs (og_stmt demo_origin) = 1%nat ∧ is_ok (SQLOrigin_Shard demo_origin "42") = true.
Proof.
  destruct (NewSQLOrigin_ready (λ _, None) demo_origin_opts demo_origin eq_refl) as (H1 & _ & _ & _ & H2).
  split; [exact H1|]. apply H2. right. reflexivity.
Defined.

#[local] Instance users_mysql : Mysql (gmap (list string) cells) := mem_mysql users_t.
#[local] Instance users_mysql_laws : MysqlLaws _ users_t (mem_tbl users_t) (mem_sel users_t) := users_laws.

(** A ring of one shard: every key is its. *)
Definition users_router : storage_Router := mkShardRouter (mkRing [0] ["s0"] ["s0"]) {["s0"]}.

Definition users_origin : OriginAdapter := mkOriginAdapter users_router {["s0" := users_shard]}.

Lemma OriginAdapter_State_spec_witness :
  (OriginAdapter_State users_origin 0 None "users:2" {["s0" := users_w]}).2 !! "s0" ≠ None ∧
  match (OriginAdapter_State users_origin 0 None "users:2" {["s0" := users_w]}).1 with
  | Ok (_, false) => mem_tbl users_t (sw_db users_w) !! ["2"] = None
  | _ => True
  end.
Proof.
  destruct (OriginAdapter_State_spec users_origin users_shard users_t (mem_tbl users_t) (mem_sel users_t) 0 None ["2"]
              "s0" users_w {["s0" := users_w]}) as ((sw' & H1 & _) & H2);
    [apply users_table_ok|vm_compute; reflexivity|discriminate|vm_compute; reflexivity..|].
  split.
  - change (Key_String (mkKey (d_Name (t_d users_t)) ["2"])) with "users:2" in H1. rewrite H1. by rewrite lookup_insert_eq.
  - change (Key_String (mkKey (d_Name (t_d users_t)) ["2"])) with "users:2" in H2.
    destruct (OriginAdapter_State users_origin 0 None "users:2" {["s0" := users_w]}).1 as [[st [|]]|e|p]; [done|apply H2|done|done].
Defined.
