(* ===== verification/Sdk.v ===== *)
(** The Go client: [src/pkg/cachet/session.go], [cachet.go] and [row.go].

    A call of the wire protocol is an argument: a request to a reply or a
    status, on the state [S] of the server.  The state of a client is its
    session, next to that server's. *)

From S2P Require Import Prelude GoStd Ring Consistency Schema Row Sources Engine EngineApi.

Local Open Scope Z_scope.

(** ** Sessions and baggage *)

Abbreviation session_map := (gmap string Z) (only parsing).

(** [copySession] of a map that is not shared afterwards. *)
Definition copySession (w : option session_map) : session_map := default ∅ w.

(** The loop of [MergeSessions] over [b], in the order Go ranges over it. *)
Fixpoint merge_ranged (order : list (string * Z)) (out : session_map) : session_map :=
  match order with
  | [] => out
  | (shard, v) :: order =>
      merge_ranged order (if default 0 (out !! shard) <? v then <[shard := v]> out else out)
  end.

Definition MergeSessions (a b : session_map) : session_map := merge_ranged (map_to_list b) (copySession (Some a)).

Definition encodeSession (w : session_map) : string :=
  let shards := merge_sort String.le (map_to_list w).*1 in
  join "," ((λ shard, shard +:+ ":" +:+ FormatUint (default 0 (w !! shard))) <$> shards).

Fixpoint decode_pairs (pairs : list string) (out : session_map) : result session_map :=
  match pairs with
  | [] => Ok out
  | one :: pairs =>
      match cut_byte ":" one with
      | None => Err (Errorf "cachet: malformed session baggage")
      | Some (shard, raw) =>
          if bool_decide (shard = "") then Err (Errorf "cachet: malformed session baggage")
          else
            match ParseUint raw 64 with
            | Ok v => decode_pairs pairs (<[shard := v]> out)
            | Err err => Err (Wrapf "cachet: malformed watermark in session baggage" err)
            | Panic p => Panic p
            end
      end
  end.

Definition decodeSession (s : string) : result session_map := decode_pairs (split_byte "," s) ∅.

(** [net/url]: letters, digits and [-_.~] stand for themselves in a query. *)
Definition unreserved (c : ascii) : bool :=
  is_alpha_ c || is_digit c || bool_decide (c ∈ ["-"; "."; "~"]%char).

Fixpoint QueryEscape (s : string) : string :=
  match s with
  | "" => ""
  | String c s =>
      (if unreserved c then String c ""
       else if bool_decide (c = " "%char) then "+"
       else String "%" (String (hexDigit (byte_val c / 16)) (String (hexDigit (byte_val c mod 16)) "")))
        +:+ QueryEscape s
  end.

Fixpoint QueryUnescape (s : string) : result string :=
  match s with
  | "" => Ok ""
  | String c rest =>
      if bool_decide (c = "%"%char) then
        match rest with
        | String h (String l rest) =>
            match hexVal h, hexVal l with
            | Ok a, Ok b => t ← QueryUnescape rest; Ok (String (byte_of (a * 16 + b)) t)
            | _, _ => Err (Errorf "invalid URL escape")
            end
        | _ => Err (Errorf "invalid URL escape")
        end
      else t ← QueryUnescape rest; Ok (String (if bool_decide (c = "+"%char) then " "%char else c) t)
  end.

(** OpenTelemetry's baggage: building a member of this name, setting it in a bag,
    and the value a bag holds for the name, empty without one. *)
Class Baggage (Bag : Type) := {
  bag_member : Type;
  bag_NewMember : string → result bag_member;
  bag_SetMember : Bag → bag_member → result Bag;
  bag_Value : Bag → string;
}.

(** What the client reads from a context. *)
Record ctx (Bag : Type) := mkctx { cx_session : option session_map; cx_baggage : Bag }.
Arguments mkctx {Bag} _ _.
Arguments cx_session {Bag} _.
Arguments cx_baggage {Bag} _.

Section sessions.
Context {Bag : Type} `{Baggage Bag}.

Definition ContextWithSession (c : ctx Bag) (watermarks : option session_map) : ctx Bag :=
  mkctx (Some (copySession watermarks)) (cx_baggage c).

Definition SessionFromContext (c : ctx Bag) : option session_map := cx_session c.

Definition InjectSession (c : ctx Bag) : result (ctx Bag) :=
  match SessionFromContext c with
  | None => Ok c
  | Some w =>
      if bool_decide (w = ∅) then Ok c
      else
        match bag_NewMember (QueryEscape (encodeSession w)) with
        | Err err => Err (Wrapf "cachet: encode session baggage" err)
        | Panic p => Panic p
        | Ok member =>
            match bag_SetMember (cx_baggage c) member with
            | Err err => Err (Wrapf "cachet: set session baggage" err)
            | Panic p => Panic p
            | Ok bag => Ok (mkctx (cx_session c) bag)
            end
        end
  end.

Definition ExtractSession (c : ctx Bag) : option session_map :=
  let escaped := bag_Value (cx_baggage c) in
  if bool_decide (escaped = "") then None
  else
    match QueryUnescape escaped with
    | Ok raw =>
        match decodeSession raw with
        | Ok w => if bool_decide (w = ∅) then None else Some w
        | _ => None
        end
    | _ => None
    end.

End sessions.

(** ** The client *)

Record sdk_Column := mkSdkColumn { sc_Name : string; sc_Type : string; sc_Nullable : bool }.

Record sdk_Table := mkSdkTable {
  stb_Name : string;
  stb_Columns : list sdk_Column;
  stb_PrimaryKey : list string;
  stb_VersionColumn : string;
  stb_Fingerprint : string;
  stb_index : gmap string Z;
}.

(** The connection's part of a [Client]: whether the server speaks v2, what its
    handshake published, and the options. *)
Record sdk_Client := mkSdkClient {
  sdk_v2 : bool;
  sdk_tables : gmap string sdk_Table;
  sdk_tableOrder : list string;
  sdk_defaultLevel : Z;
  sdk_maxShards : Z;
}.

Inductive sdk_Option := WithDefaultLevel (l : Z) | WithMaxSessionShards (n : Z) | WithoutHandshake.

Record sdk_options := mkSdkOptions { sop_defaultLevel : Z; sop_maxShards : Z; sop_skipHandshake : bool }.

Definition apply_option (o : sdk_options) (fn : sdk_Option) : sdk_options :=
  match fn with
  | WithDefaultLevel l => mkSdkOptions l (sop_maxShards o) (sop_skipHandshake o)
  | WithMaxSessionShards n => mkSdkOptions (sop_defaultLevel o) n (sop_skipHandshake o)
  | WithoutHandshake => mkSdkOptions (sop_defaultLevel o) (sop_maxShards o) true
  end.

Definition normalizeTarget (target : string) : string := TrimPrefix target "tcp://".

(** The end of a handshake call: a reply, [codes.Unimplemented] or another error. *)
Inductive handshake_end (A : Type) := Replied (a : A) | Unimplemented | CallFailed (e : error).
Arguments Replied {A} a.
Arguments Unimplemented {A}.
Arguments CallFailed {A} e.

(** The loop of [tableFromProto] over the columns, from position [i]. *)
Fixpoint index_columns (i : Z) (cs : list v2_ColumnDescriptor) (index : gmap string Z) : gmap string Z :=
  match cs with [] => index | c :: cs => index_columns (i + 1) cs (<[cd_Name c := i]> index) end.

Definition tableFromProto (d : v2_TableDescriptor) : sdk_Table :=
  mkSdkTable (td_Name d) ((λ c, mkSdkColumn (cd_Name c) (cd_Type c) (cd_Nullable c)) <$> td_Columns d)
    (td_PrimaryKey d) (td_VersionColumn d) (td_Fingerprint d) (index_columns 0 (td_Columns d) ∅).

Definition adoptDescriptors (c : sdk_Client) (tables : list v2_TableDescriptor) : sdk_Client :=
  mkSdkClient (sdk_v2 c) (foldl (λ m d, <[td_Name d := tableFromProto d]> m) ∅ tables)
    (td_Name <$> tables) (sdk_defaultLevel c) (sdk_maxShards c).

Definition sdk_handshake (h2 : handshake_end v2_HandshakeResponse) (h1 : handshake_end HandshakeResponse)
    (c : sdk_Client) : result sdk_Client :=
  match h2 with
  | CallFailed err => Err (Wrapf "cachet: handshake" err)
  | Replied resp2 =>
      if negb (h2_Compatible resp2) then Err (Errorf "cachet: server cannot serve protocol cachet.v2")
      else Ok (adoptDescriptors c (h2_Tables resp2))
  | Unimplemented =>
      let c := mkSdkClient false (sdk_tables c) (sdk_tableOrder c) (sdk_defaultLevel c) (sdk_maxShards c) in
      match h1 with
      | CallFailed err => Err (Wrapf "cachet: handshake" err)
      | Unimplemented => Err (Wrapf "cachet: handshake" (Sentinel ErrExternal))
      | Replied resp =>
          if negb (hs_Compatible resp) then Err (Errorf "cachet: server cannot serve protocol cachet.v1") else Ok c
      end
  end.

(** [Dial]; [dial] is what [grpc.NewClient] answers for a target. *)
Definition Dial (dial : string → option error) (h2 : handshake_end v2_HandshakeResponse)
    (h1 : handshake_end HandshakeResponse) (target : string) (opts : list sdk_Option) : result sdk_Client :=
  let o := foldl apply_option (mkSdkOptions Session DefaultMaxSessionShards false) opts in
  if sop_maxShards o <=? 0 then Err (Errorf "cachet: max session shards must be positive")
  else
    match dial (normalizeTarget target) with
    | Some err => Err (Wrapf "cachet: dial" err)
    | None =>
        let c := mkSdkClient true ∅ [] (sop_defaultLevel o) (sop_maxShards o) in
        if sop_skipHandshake o then Ok c else sdk_handshake h2 h1 c
    end.

(** The scan for the lowest watermark, in the order Go ranges over the map. *)
Fixpoint lowest_scan (order : list (string * Z)) (lowest : Z) (lowestShard : string) : string :=
  match order with
  | [] => lowestShard
  | (shard, v) :: order =>
      if v <? lowest then lowest_scan order v shard else lowest_scan order lowest lowestShard
  end.

(** The loop of [capped]; [None]: it has not ended after [fuel] rounds. *)
Fixpoint capped_loop (fuel : nat) (maxShards : Z) (w : session_map) : option session_map :=
  if Z.of_nat (size w) <=? maxShards then Some w
  else
    match fuel with
    | O => None
    | S fuel => capped_loop fuel maxShards (delete (lowest_scan (map_to_list w) max_u64 "") w)
    end.

(** A round that ends removes an entry, so the entries are enough rounds. *)
Definition capped (maxShards : Z) (w : session_map) : option session_map := capped_loop (size w) maxShards w.

Section client.
Context {Bag S : Type} `{Baggage Bag}.
Context {PbDuration : Type} (AsDuration : PbDuration → Z) (durationpb_New : Z → PbDuration).

Record SdkW := mkSdkW { sk_session : session_map; sk_server : S }.

Definition on_server {A} (m : M S A) : M SdkW A := λ s,
  let '(r, srv) := m (sk_server s) in (r, mkSdkW (sk_session s) srv).

Definition client_Session : M SdkW session_map := s ← M_get; mret (copySession (Some (sk_session s))).

(** Replace the session by a capped one. *)
Definition set_capped (c : sdk_Client) (w : session_map) : M SdkW unit :=
  match capped (sdk_maxShards c) w with
  | None => M_panic "does not return"
  | Some w => M_modify (λ s, mkSdkW w (sk_server s))
  end.

Definition client_AdoptSession (c : sdk_Client) (watermarks : session_map) : M SdkW unit :=
  s ← M_get; set_capped c (MergeSessions (sk_session s) watermarks).

Definition client_sessionFor (cx : ctx Bag) : M SdkW session_map :=
  match SessionFromContext cx with
  | Some w => mret w
  | None =>
      match ExtractSession cx with
      | Some w => mret w
      | None => s ← M_get; mret (copySession (Some (sk_session s)))
      end
  end.

Definition client_observe (c : sdk_Client) (w : SessionToken) : M SdkW unit :=
  if bool_decide (default ∅ w = ∅) then mret tt
  else s ← M_get; set_capped c (MergeSessions (sk_session s) (default ∅ w)).

Inductive ReadOption := AtLevel (l : Z) | WithinStaleness (d : Z).

Record readOptions := mkReadOptions { ro_level : Z; ro_bound : Z; ro_set : bool }.

Definition client_readOptions (c : sdk_Client) (opts : list ReadOption) : readOptions :=
  foldl (λ o fn, match fn with
                 | AtLevel l => mkReadOptions l (ro_bound o) true
                 | WithinStaleness d => mkReadOptions Bounded d true
                 end) (mkReadOptions (sdk_defaultLevel c) 0 false) opts.

Definition bound_of (ro : readOptions) : option PbDuration :=
  if ro_level ro =? Bounded then Some (durationpb_New (ro_bound ro)) else None.

(** Make the call and keep what its answer says of the session. *)
Definition client_call {A} (c : sdk_Client) (what : string) (tok : A → SessionToken) (m : M S (reply A)) : M SdkW A :=
  r ← on_server m;
  match r with
  | inr _ => M_fail (Wrapf what (Sentinel ErrExternal))
  | inl resp => client_observe c (tok resp);; mret resp
  end.

Record sdk_Record := mkSdkRecord {
  sr_Key : string; sr_TenantID : Z; sr_Status : Z; sr_Payload : option string; sr_Version : Z;
}.

Record sdk_ReadMeta := mkSdkReadMeta {
  srm_LevelServed : Z; srm_Degraded : bool; srm_DegradedReason : string; srm_CacheHit : bool;
  srm_RowVersion : Z; srm_FillVersion : Z;
}.

Record ReadResult := mkReadResult { rd_Found : bool; rd_Record : sdk_Record; rd_Meta : sdk_ReadMeta }.

Record WriteResult := mkWriteResult {
  wr_Version : Z; wr_Degraded : bool; wr_DegradedReason : string; wr_EffectiveStalenessBound : Z;
}.

Record sdk_UpdateResult := mkSdkUpdateResult { su_WriteResult : WriteResult; su_Matched : Z; su_AffectedKeys : list string }.

Definition sdk_readMeta (m : @ReadMeta PbDuration) : sdk_ReadMeta :=
  let served := match LevelFromProto (rm_LevelServed m) with Ok l => l | _ => Session end in
  mkSdkReadMeta served (rm_Degraded m) (rm_DegradedReason m) (rm_CacheHit m) (rm_RowVersion m) (rm_FillVersion m).

Definition readMetaV2 (m : @ReadMeta PbDuration) : sdk_ReadMeta :=
  let served := match LevelFromProto (rm_LevelServed m) with Ok l => l | _ => Session end in
  mkSdkReadMeta served (rm_Degraded m) (rm_DegradedReason m) (rm_CacheHit m) (rm_RowVersion m) (rm_FillVersion m).

(** A nil duration is zero. *)
Definition writeResult (m : @WriteMeta PbDuration) : WriteResult :=
  mkWriteResult (wm_Version m) (wm_Degraded m) (wm_DegradedReason m)
    (match wm_EffectiveStalenessBound m with Some d => AsDuration d | None => 0 end).

Definition writeResultV2 (m : @WriteMeta PbDuration) : WriteResult :=
  mkWriteResult (wm_Version m) (wm_Degraded m) (wm_DegradedReason m)
    (match wm_EffectiveStalenessBound m with Some d => AsDuration d | None => 0 end).

Definition recordFromProto (key : string) (r : option v1_Record) : sdk_Record :=
  let r := default (mkv1Record 0 0 0 None 0) r in
  let status := if 255 <? rec_Status r then 0 else rec_Status r in
  mkSdkRecord key (rec_TenantId r) status (rec_Payload r) (rec_Version r).

Definition no_record : sdk_Record := mkSdkRecord "" 0 0 None 0.

(** ** The typed calls *)

Definition client_Get (api_Get : @GetRequest PbDuration → M S (reply (@v1_GetResponse PbDuration)))
    (c : sdk_Client) (cx : ctx Bag) (key : string) (opts : list ReadOption) : M SdkW ReadResult :=
  let ro := client_readOptions c opts in
  tok ← client_sessionFor cx;
  resp ← client_call c "cachet: get" g1_Session (api_Get (mkGetRequest key (Level_Proto (ro_level ro)) (bound_of ro) (Some tok)));
  mret (mkReadResult (g1_Found resp) (if g1_Found resp then recordFromProto key (g1_Record resp) else no_record)
          (sdk_readMeta (g1_Meta resp))).

Definition client_BatchGet (api_BatchGet : @BatchGetRequest PbDuration → M S (reply (@v1_BatchGetResponse PbDuration)))
    (c : sdk_Client) (cx : ctx Bag) (keys : list string) (opts : list ReadOption) :
    M SdkW (gmap string sdk_Record * sdk_ReadMeta) :=
  let ro := client_readOptions c opts in
  tok ← client_sessionFor cx;
  resp ← client_call c "cachet: batch get" b1_Session
           (api_BatchGet (mkBatchGetRequest keys (Level_Proto (ro_level ro)) (bound_of ro) (Some tok)));
  mret (map_imap (λ key rec, Some (recordFromProto key (Some rec))) (b1_Records resp), sdk_readMeta (b1_Meta resp)).

Definition client_Put (api_Put : v1_PutRequest → M S (reply (@PutResponse PbDuration)))
    (c : sdk_Client) (cx : ctx Bag) (key : string) (rec : sdk_Record) : M SdkW WriteResult :=
  tok ← client_sessionFor cx;
  resp ← client_call c "cachet: put" pr_Session
           (api_Put (mkv1PutRequest key (Some (mkv1Record 0 (sr_TenantID rec) (sr_Status rec) (sr_Payload rec) 0)) (Some tok)));
  mret (writeResult (pr_Meta resp)).

Definition client_Delete (api_Delete : DeleteRequest → M S (reply (@DeleteResponse PbDuration)))
    (c : sdk_Client) (cx : ctx Bag) (key : string) : M SdkW (bool * WriteResult) :=
  tok ← client_sessionFor cx;
  resp ← client_call c "cachet: delete" dr_Session (api_Delete (mkDeleteRequest key (Some tok)));
  mret (dr_Existed resp, writeResult (dr_Meta resp)).

Record sdk_Predicate := mkSdkPredicate { sp_TenantID : Z; sp_MatchStatus : Z; sp_SetStatus : Z }.

Definition client_UpdateWhere (api_UpdateWhere : v1_UpdateWhereRequest → M S (reply (@UpdateWhereResponse PbDuration)))
    (c : sdk_Client) (cx : ctx Bag) (p : sdk_Predicate) : M SdkW sdk_UpdateResult :=
  tok ← client_sessionFor cx;
  resp ← client_call c "cachet: update where" ur_Session
           (api_UpdateWhere (mkv1UpdateWhereRequest (sp_TenantID p) (sp_MatchStatus p) (sp_SetStatus p) (Some tok)));
  mret (mkSdkUpdateResult (writeResult (ur_Meta resp)) (ur_Matched' resp) (ur_Keys resp)).

(** ** The generic row calls

    An SDK value is the schema's, field by field. *)

Definition errNoDescriptors : error := Errorf "cachet: no table descriptors".

Definition sdk_Int64 (v : Value) : result Z :=
  if IsNull v then Err (Errorf "cachet: value is NULL") else ParseInt (bytes v).

Definition Table_Index (t : sdk_Table) (column : string) : option Z := stb_index t !! column.

Definition Table_Key (t : sdk_Table) (values : list keyarg) : result string :=
  if negb (length values =? length (stb_PrimaryKey t))%nat then Err (Errorf "cachet: wrong number of primary key values")
  else
    match KeyOf (stb_Name t) values with
    | Err err => Err (Wrapf "cachet" err)
    | Panic p => Panic p
    | Ok k => Ok (Key_String k)
    end.

Record sdk_Row := mkSdkRow { row_table : option sdk_Table; row_values : list Value }.

(** The NOT NULL check, in the order of the columns. *)
Fixpoint nulls_allowed (values : list Value) (cs : list sdk_Column) : result unit :=
  match values, cs with
  | [], _ => Ok tt
  | _ :: _, [] => Panic "runtime error: index out of range"
  | v :: values, c :: cs =>
      if IsNull v && negb (sc_Nullable c) then Err (Errorf "cachet: column is NOT NULL") else nulls_allowed values cs
  end.

Definition NewRow (t : option sdk_Table) (values : list Value) : result sdk_Row :=
  match t with
  | None => Err (Errorf "cachet: nil table")
  | Some t =>
      if negb (length values =? length (stb_Columns t))%nat then Err (Errorf "cachet: wrong number of values")
      else nulls_allowed values (stb_Columns t);; Ok (mkSdkRow (Some t) values)
  end.

Definition Row_Column (r : sdk_Row) (name : string) : result Value :=
  match row_table r with
  | None => Err errNoDescriptors
  | Some t =>
      match Table_Index t name with
      | None => Err (Errorf "cachet: no such column")
      | Some i => match row_values r !! Z.to_nat i with Some v => Ok v | None => Panic "runtime error: index out of range" end
      end
  end.

Record sdk_RowResult := mkSdkRowResult { sw_Found : bool; sw_Row : sdk_Row; sw_Meta : sdk_ReadMeta }.

Definition client_Tables (c : sdk_Client) : list (option sdk_Table) := (λ name, sdk_tables c !! name) <$> sdk_tableOrder c.

Definition client_Table (c : sdk_Client) (name : string) : result sdk_Table :=
  if bool_decide (sdk_tables c = ∅) then Err errNoDescriptors
  else match sdk_tables c !! name with
       | None => Err (Errorf "cachet: the server does not serve this table")
       | Some t => Ok t
       end.

Definition sdk_rowFromProto (c : sdk_Client) (key : string) (raw : option (list v2_Value)) : result sdk_Row :=
  parsed ← match ParseKey key with Err err => Err (Wrapf "cachet" err) | r => r end;
  t ← client_Table c (key_Table parsed);
  let raw := default [] raw in
  if negb (length raw =? length (stb_Columns t))%nat then Err (Errorf "cachet: server returned another number of values")
  else Ok (mkSdkRow (Some t) ((λ v, if pv_IsNull v then mkValue true None else mkValue false (pv_Data v)) <$> raw)).

Definition sdk_rowToProto (r : sdk_Row) : list v2_Value :=
  (λ v, if IsNull v then mkv2Value true None else mkv2Value false (v_Bytes v)) <$> row_values r.

Definition client_GetRow (api_Get : @GetRequest PbDuration → M S (reply (@v2_GetResponse PbDuration)))
    (c : sdk_Client) (cx : ctx Bag) (key : string) (opts : list ReadOption) : M SdkW sdk_RowResult :=
  if negb (sdk_v2 c) then M_fail errNoDescriptors
  else
    let ro := client_readOptions c opts in
    tok ← client_sessionFor cx;
    resp ← client_call c "cachet: get row" g2_Session
             (api_Get (mkGetRequest key (Level_Proto (ro_level ro)) (bound_of ro) (Some tok)));
    row ← (if g2_Found resp then M_lift (sdk_rowFromProto c key (g2_Row resp)) else mret (mkSdkRow None []));
    mret (mkSdkRowResult (g2_Found resp) row (readMetaV2 (g2_Meta resp))).

(** The rows of a batch, in the order Go ranges over the map. *)
Fixpoint rows_from (c : sdk_Client) (rows : list (string * list v2_Value)) (out : gmap string sdk_Row) : result (gmap string sdk_Row) :=
  match rows with
  | [] => Ok out
  | (key, raw) :: rows => row ← sdk_rowFromProto c key (Some raw); rows_from c rows (<[key := row]> out)
  end.

Definition client_BatchGetRows (api_BatchGet : @BatchGetRequest PbDuration → M S (reply (@v2_BatchGetResponse PbDuration)))
    (c : sdk_Client) (cx : ctx Bag) (keys : list string) (opts : list ReadOption) :
    M SdkW (gmap string sdk_Row * sdk_ReadMeta) :=
  if negb (sdk_v2 c) then M_fail errNoDescriptors
  else
    let ro := client_readOptions c opts in
    tok ← client_sessionFor cx;
    resp ← client_call c "cachet: batch get rows" b2_Session
             (api_BatchGet (mkBatchGetRequest keys (Level_Proto (ro_level ro)) (bound_of ro) (Some tok)));
    out ← M_lift (rows_from c (map_to_list (b2_Rows resp)) ∅);
    mret (out, readMetaV2 (b2_Meta resp)).

Definition client_PutRow (api_Put : v2_PutRequest → M S (reply (@PutResponse PbDuration)))
    (c : sdk_Client) (cx : ctx Bag) (key : string) (row : sdk_Row) : M SdkW WriteResult :=
  if negb (sdk_v2 c) then M_fail errNoDescriptors
  else
    match row_table row with
    | None => M_fail (Errorf "cachet: row was not built with NewRow")
    | Some _ =>
        tok ← client_sessionFor cx;
        resp ← client_call c "cachet: put row" pr_Session (api_Put (mkv2PutRequest key (Some (sdk_rowToProto row)) (Some tok)));
        mret (writeResultV2 (pr_Meta resp))
    end.

End client.
Arguments SdkW : clear implicits.
