(* ===== verification/SdkSpec.v ===== *)
(** What the Go client promises: sessions that survive a hop, a session cap that
    ends, keys and rows that mean to the engine what they mean to the client,
    and writes read back through the whole stack. *)

From S2P Require Import Prelude GoStd Ring Consistency Schema Row Sources Engine EngineApi Sdk.

Local Open Scope Z_scope.

(** ** Merging *)

Lemma merge_ranged_lookup order out shard :
  NoDup order.*1 →
  merge_ranged order out !! shard =
    match list_find (λ x, x.1 = shard) order with
    | Some (_, (_, v)) => if default 0 (out !! shard) <? v then Some v else out !! shard
    | None => out !! shard
    end.
Proof.
  revert out. induction order as [|[s v] order IH]; intros out; [done|]. intros [Hs Hn]%NoDup_cons.
  cbn [merge_ranged list_find]. rewrite IH by done. destruct (decide ((s, v).1 = shard)) as [Heq|Hne]; cbn [fst] in *.
  - subst s. destruct (list_find (λ x, x.1 = shard) order) as [[i [s' v']]|] eqn:E.
    + apply list_find_Some in E as (E & He & _). cbn in He. subst s'.
      destruct Hs. apply list_elem_of_lookup_2 in E. by apply (list_elem_of_fmap_2 fst) in E.
    + destruct (_ <? v); [by rewrite lookup_insert_eq|done].
  - assert ((if default 0 (out !! s) <? v then <[s:=v]> out else out) !! shard = out !! shard) as ->.
    { destruct (_ <? v); [by rewrite lookup_insert_ne|done]. }
    destruct (list_find (λ x, x.1 = shard) order) as [[i [s' v']]|]; done.
Qed.

Lemma list_find_map_to_list (m : gmap string Z) shard :
  match list_find (λ x, x.1 = shard) (map_to_list m) with
  | Some (_, x) => m !! shard = Some x.2 | None => m !! shard = None end.
Proof.
  destruct (list_find _ _) as [[i [s v]]|] eqn:E.
  - apply list_find_Some in E as (E & He & _). cbn in He. subst s. apply elem_of_map_to_list.
    by eapply list_elem_of_lookup_2.
  - apply list_find_None in E. destruct (m !! shard) as [v|] eqn:Em; [|done].
    apply elem_of_map_to_list in Em. rewrite Forall_forall in E. by destruct (E _ Em).
Qed.

(** Whatever the order of the range, a merge keeps the higher watermark of each shard. *)
Lemma MergeSessions_lookup a b shard :
  MergeSessions a b !! shard =
    match b !! shard with
    | Some v => if default 0 (a !! shard) <? v then Some v else a !! shard
    | None => a !! shard
    end.
Proof.
  unfold MergeSessions, copySession. cbn [default from_option id].
  rewrite merge_ranged_lookup by apply NoDup_fst_map_to_list.
  pose proof (list_find_map_to_list b shard) as H.
  destruct (list_find _ _) as [[i [s v]]|]; cbn in H; by rewrite H.
Qed.

(** ** Sessions across a hop *)

Definition plain_shard (s : string) : Prop :=
  s ≠ "" ∧ contains_byte "," s = false ∧ contains_byte ":" s = false.

Definition pair_text (w : gmap string Z) (shard : string) : string :=
  shard +:+ ":" +:+ FormatUint (default 0 (w !! shard)).

Lemma decode_pairs_text (w : gmap string Z) shards out :
  (∀ s, s ∈ shards → plain_shard s ∧ is_u64 (default 0 (w !! s))) →
  decode_pairs (pair_text w <$> shards) out = Ok (foldl (λ m s, <[s := default 0 (w !! s)]> m) out shards).
Proof.
  revert out. induction shards as [|s shards IH]; intros out Hs; [done|].
  destruct (Hs s (list_elem_of_here _ _)) as [(Hne & Hc & Hd) Hv].
  cbn [fmap list_fmap decode_pairs foldl]. unfold pair_text at 1.
  change (":" +:+ FormatUint (default 0 (w !! s))) with (String ":" (FormatUint (default 0 (w !! s)))).
  rewrite cut_byte_app by done. rewrite bool_decide_eq_false_2 by done.
  rewrite ParseUint_FormatUint by (unfold is_u64 in Hv; lia). apply IH. intros s' Hs'. apply Hs. by right.
Qed.

Lemma foldl_insert_lookup (w : gmap string Z) (shards : list string) (out : gmap string Z) i :
  foldl (λ m s, <[s := default 0 (w !! s)]> m) out shards !! i =
    if decide (i ∈ shards) then Some (default 0 (w !! i)) else out !! i.
Proof.
  revert out. induction shards as [|s shards IH]; intros out; [done|]. cbn [foldl]. rewrite IH.
  destruct (decide (i ∈ shards)) as [Hi|Hi].
  - rewrite decide_True by (by right). done.
  - destruct (decide (s = i)) as [->|Hne].
    + rewrite lookup_insert_eq, decide_True by (by left). done.
    + rewrite lookup_insert_ne, decide_False by (done || by intros [?|?]%elem_of_cons). done.
Qed.

Lemma pair_text_no_comma w s : plain_shard s → is_u64 (default 0 (w !! s)) → contains_byte "," (pair_text w s) = false.
Proof.
  intros (_ & Hc & _) Hv. unfold pair_text. rewrite !contains_byte_app, Hc.
  rewrite FormatUint_no by (done || (unfold is_u64 in Hv; lia)). done.
Qed.

Definition session_ok (w : gmap string Z) : Prop := ∀ s v, w !! s = Some v → plain_shard s ∧ is_u64 v.

Lemma session_shards w : session_ok w →
  ∀ s, s ∈ merge_sort String.le (map_to_list w).*1 → plain_shard s ∧ is_u64 (default 0 (w !! s)) ∧ is_Some (w !! s).
Proof.
  intros Hw s. rewrite merge_sort_Permutation. intros ([s' v] & -> & Hin)%list_elem_of_fmap.
  apply elem_of_map_to_list in Hin. cbn. rewrite Hin. destruct (Hw _ _ Hin). cbn. eauto.
Qed.

Lemma decode_encode w : session_ok w → w ≠ ∅ → decodeSession (encodeSession w) = Ok w.
Proof.
  intros Hw Hne. unfold decodeSession, encodeSession. fold (pair_text w).
  pose proof (session_shards w Hw) as Hs. set (shards := merge_sort _ _) in *.
  rewrite (split_join "," (pair_text w <$> shards)).
  - rewrite decode_pairs_text by (intros s Hin; by destruct (Hs s Hin) as (? & ? & _)). f_equal.
    apply map_eq. intros i. rewrite foldl_insert_lookup. destruct (decide (i ∈ shards)) as [Hi|Hi].
    + destruct (Hs i Hi) as (_ & _ & [v Hv]). by rewrite Hv.
    + rewrite lookup_empty. destruct (w !! i) as [v|] eqn:E; [|done]. destruct Hi. unfold shards.
      rewrite merge_sort_Permutation. apply elem_of_map_to_list in E. by apply (list_elem_of_fmap_2 fst) in E.
  - apply Forall_fmap, Forall_forall. intros s Hin. destruct (Hs s Hin) as (? & ? & _). by apply pair_text_no_comma.
  - intros Hnil%fmap_nil_inv. apply Hne. apply map_to_list_empty_iff.
    assert (length shards = 0%nat) as Hl by (by rewrite Hnil). unfold shards in Hl.
    rewrite (Permutation_length (merge_sort_Permutation _ _)), length_fmap in Hl. by apply length_zero_iff_nil.
Qed.

Lemma hexVal_digit n : 0 ≤ n < 16 → hexVal (hexDigit n) = Ok n.
Proof. apply hexVal_hexDigit. Qed.

Lemma QueryUnescape_QueryEscape s : QueryUnescape (QueryEscape s) = Ok s.
Proof.
  induction s as [|c s IH]; [done|]. cbn [QueryEscape]. destruct (unreserved c) eqn:Eu.
  - cbn [String.append QueryUnescape]. rewrite bool_decide_eq_false_2 by (intros ->; by vm_compute in Eu).
    rewrite IH. cbn. rewrite bool_decide_eq_false_2 by (intros ->; by vm_compute in Eu). done.
  - case_bool_decide as Hsp.
    + subst c. cbn [String.append QueryUnescape]. rewrite bool_decide_eq_false_2 by done. by rewrite IH.
    + cbn [String.append QueryUnescape]. rewrite bool_decide_eq_true_2 by done.
      pose proof (byte_val_range c).
      assert (0 ≤ byte_val c / 16 < 16) by (split; [apply Z.div_pos|apply Z.div_lt_upper_bound]; lia).
      rewrite hexVal_digit by done. rewrite hexVal_digit by (apply Z.mod_pos_bound; lia).
      assert (byte_of (byte_val c / 16 * 16 + byte_val c mod 16) = c) as Hb.
      { etrans; [|apply byte_of_val]. f_equal. pose proof (Z.div_mod (byte_val c) 16). lia. }
      rewrite IH. by rewrite Hb.
Qed.


(** A shard name with a separator does not travel intact, though the
    comment on the encoding says that it does: one watermark for the shard
    named [s0:5,s1] arrives as a watermark for each of [s0] and [s1]. *)
Theorem session_forged :
  decodeSession (encodeSession {["s0:5,s1" := 7]}) = Ok (<["s1" := 7]> {["s0" := 5]}).
Proof. by vm_compute. Qed.

(** ** The session cap *)

Lemma lowest_scan_spec order lowest shard :
  (Forall (λ x, lowest ≤ x.2) order ∧ lowest_scan order lowest shard = shard) ∨
  ∃ v, (lowest_scan order lowest shard, v) ∈ order ∧ v < lowest ∧ Forall (λ x, v ≤ x.2) order.
Proof.
  revert lowest shard. induction order as [|[s v] order IH]; intros lowest shard; [by left|].
  cbn [lowest_scan]. destruct (Z.ltb_spec v lowest) as [Hlt|Hge].
  - right. destruct (IH v s) as [[Hall ->]|(u & Hin & Hu & Hall)].
    + exists v. split; [by left|]. split; [done|]. constructor; [cbn; lia|done].
    + exists u. split; [by right|]. split; [lia|]. constructor; [cbn; lia|done].
  - destruct (IH lowest shard) as [[Hall ->]|(u & Hin & Hu & Hall)].
    + left. split; [|done]. constructor; [cbn; lia|done].
    + right. exists u. split; [by right|]. split; [done|]. constructor; [cbn; lia|done].
Qed.

(** What a round of the cap does to a map of uint64 watermarks. *)
Lemma lowest_of (w : gmap string Z) :
  map_Forall (λ _ v, v ≤ max_u64) w →
  (map_Forall (λ _ v, v = max_u64) w ∧ lowest_scan (map_to_list w) max_u64 "" = "") ∨
  ∃ v, w !! lowest_scan (map_to_list w) max_u64 "" = Some v ∧ v < max_u64 ∧ map_Forall (λ _ u, v ≤ u) w.
Proof.
  intros Hw. destruct (lowest_scan_spec (map_to_list w) max_u64 "") as [[Hall Hs]|(v & Hin & Hv & Hall)].
  - left. split; [|done]. intros i u Hu. specialize (Hw i u Hu). cbn in Hw.
    apply elem_of_map_to_list in Hu. rewrite Forall_forall in Hall. specialize (Hall _ Hu). cbn in Hall. lia.
  - right. exists v. split; [by apply elem_of_map_to_list|]. split; [done|]. intros i u Hu.
    apply elem_of_map_to_list in Hu. rewrite Forall_forall in Hall. by specialize (Hall _ Hu).
Qed.

(** The shards whose watermark is the greatest uint64. *)
Definition at_max (w : gmap string Z) : gmap string Z := filter (λ x, x.2 = max_u64) w.

Lemma at_max_delete w s v : w !! s = Some v → v < max_u64 → at_max (delete s w) = at_max w.
Proof.
  intros Hs Hv. apply map_eq. intros i. unfold at_max. apply option_eq. intros u.
  rewrite !map_lookup_filter_Some. cbn. destruct (decide (i = s)) as [->|Hne].
  - rewrite lookup_delete_eq. split; [by intros [? _]|]. intros [Hu ->]. rewrite Hs in Hu. injection Hu as ->. lia.
  - by rewrite lookup_delete_ne.
Qed.

Lemma at_max_all w : map_Forall (λ _ v, v = max_u64) w → at_max w = w.
Proof.
  intros Hw. apply map_eq. intros i. unfold at_max. apply option_eq. intros u. rewrite map_lookup_filter_Some. cbn.
  split; [by intros [? _]|]. intros Hu. split; [done|]. by apply Hw in Hu.
Qed.

Definition highest_kept (w w' : gmap string Z) : Prop :=
  w' ⊆ w ∧ ∀ s v s' v', w !! s = Some v → w' !! s = None → w' !! s' = Some v' → v ≤ v'.

Lemma capped_loop_spec fuel maxShards w :
  (size w ≤ fuel)%nat → 0 ≤ maxShards → map_Forall (λ _ v, v ≤ max_u64) w →
  (Z.of_nat (size (at_max w)) ≤ maxShards →
   ∃ w', capped_loop fuel maxShards w = Some w' ∧
     Z.of_nat (size w') = Z.min maxShards (Z.of_nat (size w)) ∧ highest_kept w w') ∧
  (maxShards < Z.of_nat (size (at_max w)) → w !! "" = None → capped_loop fuel maxShards w = None).
Proof.
  intros Hf Hm. revert w Hf. induction fuel as [|fuel IH]; intros w Hf Hw; cbn [capped_loop];
    destruct (Z.leb_spec (Z.of_nat (size w)) maxShards) as [Hle|Hgt].
  1, 3: assert (size (at_max w) ≤ size w)%nat by (apply map_subseteq_size, map_filter_subseteq);
        split; [|lia]; intros _; exists w; split; [done|]; split; [lia|]; split; [done|]; intros; congruence.
  - split; [|done]. lia.
  - destruct (lowest_of w Hw) as [[Hall Hs]|(v & Hs & Hv & Hall)].
    + rewrite Hs. rewrite (at_max_all w Hall). split; [lia|]. intros _ Hnone.
      rewrite delete_id by done. clear IH Hf. revert Hgt Hs Hnone. clear -Hw. intros Hgt Hs Hnone.
      induction fuel as [|fuel IH]; cbn [capped_loop]; rewrite (proj2 (Z.leb_gt _ _)) by lia; [done|].
      by rewrite Hs, delete_id.
    + set (s := lowest_scan _ _ _) in *. pose proof (map_size_delete_Some s w ltac:(by eexists)) as Hsz.
      destruct (IH (delete s w)) as [IH1 IH2]; [lia|by apply map_Forall_delete|].
      rewrite (at_max_delete w s v Hs Hv) in *. split.
      * intros Hmax. destruct (IH1 Hmax) as (w' & Hc & Hsz' & Hsub & Hlow). exists w'. split; [done|].
        split; [lia|]. split; [etrans; [exact Hsub|apply delete_subseteq]|].
        intros s1 v1 s2 v2 H1 H1' H2. destruct (decide (s1 = s)) as [->|Hne].
        -- rewrite Hs in H1. injection H1 as <-. apply (lookup_weaken _ (delete s w)) in H2; [|done].
           apply lookup_delete_Some in H2 as [_ H2]. by apply (Hall s2).
        -- apply (Hlow s1 v1 s2 v2); [by rewrite lookup_delete_ne|done..].
      * intros Hmax Hnone. apply IH2; [done|]. destruct (decide (s = "")) as [->|Hne]; [by rewrite lookup_delete_eq|].
        by rewrite lookup_delete_ne.
Qed.

Lemma capped_never fuel maxShards w :
  map_Forall (λ _ v, v ≤ max_u64) w → maxShards < Z.of_nat (size (at_max w)) → w !! "" = None →
  capped_loop fuel maxShards w = None.
Proof.
  revert w. induction fuel as [|fuel IH]; intros w Hw Hmax Hnone; cbn [capped_loop];
    (rewrite (proj2 (Z.leb_gt _ _)); [|pose proof (map_subseteq_size (at_max w) w (map_filter_subseteq _ _)); lia]); [done|].
  destruct (lowest_of w Hw) as [[Hall Hs]|(v & Hs & Hv & _)].
  - rewrite Hs, delete_id by done. by apply IH.
  - apply IH; [by apply map_Forall_delete|by rewrite (at_max_delete w _ v)|].
    destruct (decide (lowest_scan (map_to_list w) max_u64 "" = "")) as [->|Hne]; [by rewrite lookup_delete_eq|].
    by rewrite lookup_delete_ne.
Qed.

(** The session cap ends, with as many of the highest watermarks as there is
    room for, whatever order Go ranges in; unless more shards than that
    are at the greatest uint64, when the loop finds nothing lower to
    drop and goes round for ever, holding the client's lock. *)
Theorem capped_ends (maxShards : Z) (w : gmap string Z) :
  0 ≤ maxShards → map_Forall (λ _ v, v ≤ max_u64) w →
  (Z.of_nat (size (at_max w)) ≤ maxShards →
   ∃ w', capped maxShards w = Some w' ∧
     Z.of_nat (size w') = Z.min maxShards (Z.of_nat (size w)) ∧ highest_kept w w') ∧
  (maxShards < Z.of_nat (size (at_max w)) → w !! "" = None → ∀ fuel, capped_loop fuel maxShards w = None).
Proof.
  intros Hm Hw. split.
  - by apply (capped_loop_spec (size w) maxShards w (le_n _) Hm Hw).
  - intros Hmax Hn fuel. by apply capped_never.
Qed.

(** ** Keys and rows of a published table *)

Lemma canonical_all_no_panic vs p : canonical_all vs ≠ Panic p.
Proof.
  induction vs as [|v vs IH]; [done|]. cbn [canonical_all].
  destruct v; cbn; try done; destruct (canonical_all vs); naive_solver.
Qed.

Lemma index_columns_lookup cs : ∀ i index name,
  NoDup (cd_Name <$> cs) →
  index_columns i cs index !! name =
    match list_find (λ c, cd_Name c = name) cs with Some (n, _) => Some (i + Z.of_nat n) | None => index !! name end.
Proof.
  induction cs as [|c cs IH]; intros i index name; [done|]. cbn [fmap list_fmap]. intros [Hc Hn]%NoDup_cons.
  cbn [index_columns list_find]. rewrite IH by done. destruct (decide (cd_Name c = name)) as [<-|Hne].
  - destruct (list_find _ cs) as [[n y]|] eqn:E.
    + apply list_find_Some in E as (E & Hy & _). destruct Hc. rewrite <-Hy.
      apply list_elem_of_fmap_2. by eapply list_elem_of_lookup_2.
    + rewrite lookup_insert_eq. f_equal. lia.
  - destruct (list_find _ cs) as [[n y]|]; cbn; [f_equal; lia|]. by rewrite lookup_insert_ne.
Qed.

Lemma nulls_allowed_spec values (cols : list Column) :
  length values = length cols →
  nulls_allowed values ((λ c, mkSdkColumn (col_Name c) (Type_text (col_Type c)) (col_Nullable c)) <$> cols) = Ok tt ↔
  Forall2 (λ col v, col_Nullable col = true ∨ IsNull v = false) cols values.
Proof.
  revert cols. induction values as [|v values IH]; intros [|c cols]; try done.
  cbn [length fmap list_fmap nulls_allowed sc_Nullable]. intros [= Hl]. rewrite Forall2_cons. specialize (IH cols Hl).
  destruct (IsNull v), (col_Nullable c); cbn [andb negb]; (split; [intros Hx|intros [Hx Hy]]); try tauto; try done.
  by destruct Hx.
Qed.

(** What a value is once it has crossed the wire: a NULL has no bytes. *)
Definition wire (v : Value) : Value := if IsNull v then Null else v.

(** The client and the engine mean the same by a key and a row.  For a table
    as the engine publishes it (its columns named once): the client accepts the same
    primary key values and renders the same key; accepts the same rows;
    reads a column by name at the position the engine stores it; and a row reaches the
    engine, or comes back, value for value, NULLs as NULLs. *)
Theorem published_table_agrees (d : Descriptor) (c : sdk_Client) :
  let t := tableFromProto (descriptorToProto d) in
  validIdentifier (d_Name d) = true → d_PrimaryKey d ≠ [] → NoDup (col_Name <$> d_Columns d) →
  sdk_tables c !! d_Name d = Some t →
  (∀ values, match Table_Key t values, Descriptor_Key d values with
             | Ok s, Ok k => s = Key_String k | Err _, Err _ => True | _, _ => False end) ∧
  (∀ values, is_ok (NewRow (Some t) values) = true ↔ row_ok d values) ∧
  (∀ values i col, length values = length (d_Columns d) → d_Columns d !! i = Some col →
     ∃ v, values !! i = Some v ∧ Row_Column (mkSdkRow (Some t) values) (col_Name col) = Ok v) ∧
  (∀ row values, NewRow (Some t) values = Ok row → values ≠ [] →
     rowFromProto (Some (sdk_rowToProto row)) = Ok (wire <$> values)) ∧
  (∀ vs values, vs ≠ [] → length values = length (d_Columns d) →
     sdk_rowFromProto c (Key_String (mkKey (d_Name d) vs)) (Some (rowToProto values)) =
       Ok (mkSdkRow (Some t) (wire <$> values))).
Proof.
  intros t Hid Hpk Hnd Ht. split_and!.
  - intros values. unfold Table_Key, Descriptor_Key, KeyOf. cbn [t tableFromProto descriptorToProto stb_Name stb_PrimaryKey td_Name td_PrimaryKey].
    rewrite length_fmap, Hid. cbn [negb]. destruct (Nat.eqb_spec (length values) (length (d_PrimaryKey d))) as [Hl|]; [|done].
    cbn [negb]. rewrite bool_decide_eq_false_2.
    + destruct (canonical_all values) eqn:E; [done|done|]. by apply canonical_all_no_panic in E.
    + intros ->. by destruct (d_PrimaryKey d).
  - intros values. unfold NewRow. cbn [t tableFromProto descriptorToProto stb_Columns td_Columns].
    rewrite <-list_fmap_compose, length_fmap. unfold row_ok.
    destruct (Nat.eqb_spec (length values) (length (d_Columns d))) as [Hl|Hl]; cbn [negb].
    + rewrite <-(nulls_allowed_spec values) by done. unfold compose. cbn [cd_Name cd_Type cd_Nullable].
      destruct (nulls_allowed _ _) as [[]|e|p]; cbn; done.
    + split; [done|]. intros H%Forall2_length. congruence.
  - intros values i col Hl Hc. destruct (lookup_lt_is_Some_2 values i) as [v Hv].
    { rewrite Hl. by eapply lookup_lt_Some. }
    exists v. split; [done|]. unfold Row_Column, Table_Index. cbn [row_table row_values t tableFromProto descriptorToProto stb_index td_Columns].
    rewrite index_columns_lookup by (by rewrite <-list_fmap_compose).
    assert (list_find (λ c0, cd_Name c0 = col_Name col)
              ((λ c0, mkv2ColumnDescriptor (col_Name c0) (Type_text (col_Type c0)) (col_Nullable c0)) <$> d_Columns d) =
            Some (i, mkv2ColumnDescriptor (col_Name col) (Type_text (col_Type col)) (col_Nullable col))) as ->.
    { apply list_find_Some. rewrite list_lookup_fmap, Hc. split_and!; [done|done|].
      intros j y Hy Hlt Heq. rewrite list_lookup_fmap in Hy. destruct (d_Columns d !! j) as [cj|] eqn:Ej; [|done].
      cbn in Hy. injection Hy as <-. cbn in Heq.
      assert (j = i); [|lia]. eapply NoDup_lookup; [exact Hnd| |]; rewrite list_lookup_fmap; [by rewrite Ej|]. rewrite Hc. cbn. by rewrite Heq. }
    rewrite Z.add_0_l, Nat2Z.id, Hv. done.
  - intros row values. unfold NewRow. destruct (negb _); [done|]. intros (u & _ & [= <-])%result_bind_ok Hne.
    unfold sdk_rowToProto, rowFromProto. cbn [row_values]. destruct values as [|v values]; [done|].
    cbn [fmap list_fmap]. f_equal. unfold wire, valueFromProto, Bin, Null. f_equal; [by destruct v as [[] ?]|].
    rewrite <-list_fmap_compose. apply list_fmap_ext. intros i [[] b] _; done.
  - intros vs values Hvs Hl. unfold sdk_rowFromProto. rewrite ParseKey_String by done. cbn [mbind result_bind key_Table].
    unfold client_Table. rewrite bool_decide_eq_false_2 by (intros He; rewrite He, lookup_empty in Ht; done).
    rewrite Ht. cbn [default from_option id mbind result_bind]. unfold rowToProto. rewrite length_fmap.
    cbn [t tableFromProto descriptorToProto stb_Columns td_Columns]. rewrite !length_fmap, Hl, Nat.eqb_refl. cbn [negb].
    do 2 f_equal. rewrite <-list_fmap_compose. apply list_fmap_ext. intros i [[] b] _; done.
Qed.

(** ** Witnesses *)

(** A bag that keeps the value as it was given. *)
Definition string_bag : Baggage string :=
  {| bag_member := string; bag_NewMember := λ v, Ok v; bag_SetMember := λ _ m, Ok m; bag_Value := λ b, b |}.

Definition two_shards : gmap string Z := {["s0" := 41; "s1" := 7]}.

Lemma two_shards_ok : session_ok two_shards.
Proof.
  intros s v Hs. unfold two_shards in Hs. apply lookup_insert_Some in Hs as [[<- <-]|[_ Hs]].
  - split; [by repeat split|by vm_compute].
  - apply lookup_singleton_Some in Hs as [<- <-]. split; [by repeat split|by vm_compute].
Qed.


Lemma capped_ends_witness :
  (∃ w', capped 1 two_shards = Some w' ∧ Z.of_nat (size w') = Z.min 1 (Z.of_nat (size two_shards)) ∧ highest_kept two_shards w') ∧
  ∀ fuel, capped_loop fuel 0 {["s0" := max_u64]} = None.
Proof.
  split.
  - refine (proj1 (capped_ends 1 two_shards _ _) _); [lia| |vm_compute; congruence].
    intros s v Hs. destruct (two_shards_ok s v Hs) as [_ Hv]. unfold is_u64, max_u64 in *. lia.
  - refine (proj2 (capped_ends 0 {["s0" := max_u64]} _ _) _ _); [lia| |vm_compute; reflexivity|reflexivity].
    intros s v Hs. apply lookup_singleton_Some in Hs as [_ <-]. lia.
Defined.

Definition widgets_d : Descriptor :=
  let id := mkColumn "id" Uint64 false 0 "" in
  let bio := mkColumn "bio" Text true 1 "" in
  let ver := mkColumn "version" Uint64 false 2 "" in
  mkDescriptor "widgets" [id; bio; ver] [id] ver "" ∅.

Definition widgets_client : sdk_Client :=
  mkSdkClient true {["widgets" := tableFromProto (descriptorToProto widgets_d)]} ["widgets"] Session 64.

Lemma published_table_agrees_witness :
  Row_Column (mkSdkRow (Some (tableFromProto (descriptorToProto widgets_d))) [Uint 7; Null; Uint 1]) "bio" = Ok Null ∧
  sdk_rowFromProto widgets_client (Key_String (mkKey "widgets" ["7"])) (Some (rowToProto [Uint 7; Null; Uint 1])) =
    Ok (mkSdkRow (Some (tableFromProto (descriptorToProto widgets_d))) (wire <$> [Uint 7; Null; Uint 1])).
Proof.
  assert (NoDup (col_Name <$> d_Columns widgets_d)) as Hnd by (apply (bool_decide_unpack _); vm_compute; reflexivity).
  destruct (published_table_agrees widgets_d widgets_client eq_refl ltac:(discriminate) Hnd ltac:(vm_compute; reflexivity))
    as (_ & _ & H3 & _ & H5).
  split.
  - destruct (H3 [Uint 7; Null; Uint 1] 1%nat (mkColumn "bio" Text true 1 "") eq_refl eq_refl) as (v & Hv & Hc).
    cbn in Hv. injection Hv as <-. exact Hc.
  - apply H5; [discriminate|reflexivity].
Defined.
