(* ===== verification/SdkSessions.v ===== *)
(** Read your own writes through the whole stack: a client's put and a later get
    of the same client, over the wire protocol, against an engine over any cache
    and database, with any traffic of other sessions in between. *)

From S2P Require Import LuaCache.
From S2P Require Import Prelude GoStd Hlc Ring Consistency Freshness Schema Row Table Mysql Storage Admission CacheClient Engine EngineSpec.
From S2P Require Import RefCache.
From S2P Require Import Sessions EngineApi Sdk SdkSpec.

Local Open Scope Z_scope.

(** ** Lemmas: handlers that answered *)

Lemma rpc_bind_reply {S A B} (m : M S (reply A)) (k : A → M S (reply B)) s b s' :
  rpc_bind k m s = (Ok (inl b), s') → ∃ a s1, m s = (Ok (inl a), s1) ∧ k a s1 = (Ok (inl b), s').
Proof.
  unfold rpc_bind. intros ([a|c] & s1 & Hm & Hk)%M_bind_ok; [by exists a, s1|]. done.
Qed.

Lemma lift_reply {S A} (r : result (reply A)) (s : S) b s' : M_lift r s = (Ok (inl b), s') → r = Ok (inl b) ∧ s' = s.
Proof. unfold M_lift. by intros [= -> ->]. Qed.

Lemma status_reply {A} c (r : result A) b : status c r = Ok (inl b) → r = Ok b.
Proof. unfold status. destruct r; naive_solver. Qed.

Lemma RequirementFromProto_level {P} (CV : P → option error) AD p bound r :
  RequirementFromProto CV AD p bound = Ok r → LevelFromProto p = Ok (req_Level r).
Proof.
  unfold RequirementFromProto. intros (lv & Hl & (q & Hq & (u & _ & [= <-])%result_bind_ok)%result_bind_ok)%result_bind_ok.
  rewrite Hl. f_equal. destruct bound as [b|]; [|by injection Hq as <-]. destruct (CV b); [done|by injection Hq as <-].
Qed.

(** With room for them, a token opened from a request holds its watermarks. *)
Lemma TokenFromProto_watermark (sess : gmap string Z) maxShards id :
  Z.of_nat (size sess) ≤ maxShards → 0 < maxShards → id ≠ "" →
  Token_Watermark (TokenFromProto sess maxShards) id = sess !! id.
Proof.
  intros Hs Hm Hid. unfold TokenFromProto, Token_Merge. case_bool_decide as He.
  { subst sess. unfold NewToken, Token_Watermark. rewrite lookup_empty. by destruct (maxShards <=? 0). }
  destruct (Merge_ranged_fits (map_to_list sess) (NewToken maxShards)) as [Hw _].
  - apply NoDup_fst_map_to_list.
  - intros D ->. unfold NewToken. rewrite (proj2 (Z.leb_gt _ _)) by lia. cbn [tok_entries tok_max].
    etrans; [|exact Hs]. rewrite <-(size_dom sess). apply inj_le, subseteq_size.
    intros s. rewrite dom_empty_L, union_empty_l_L, elem_of_difference, elem_of_list_to_set.
    intros [Hin _]. apply list_elem_of_fmap in Hin as ([s' v] & -> & Hin). apply elem_of_map_to_list in Hin. by eapply elem_of_dom_2.
  - assert (Token_Watermark (Token_Merge_ranged (map_to_list sess) (NewToken maxShards)) id =
            Token_Watermarks (Token_Merge_ranged (map_to_list sess) (NewToken maxShards)) !! id) as ->.
    { unfold Token_Watermark, Token_Watermarks. by rewrite lookup_fmap. }
    rewrite Hw, lookup_union_with, lookup_delete_ne, list_to_map_to_list by done.
    unfold Token_Watermarks, NewToken. destruct (maxShards <=? 0); cbn [tok_entries]; rewrite fmap_empty, lookup_empty; by destruct (sess !! id).
Qed.

Section handlers.
Context {C D : Type} `{Cache C} `{Mysql D}.
Context {PbDuration : Type} (CheckValid : PbDuration → option error) (AsDuration : PbDuration → Z)
  (durationpb_New : Z → PbDuration).
Context (e : Engine).
Implicit Types w : EngineW C D.

Definition opened (s : SessionToken) w : EngineW C D := with_token (TokenFromProto (default ∅ s) (e_maxSessionShards e)) w.

Lemma rpc_call_reply {A} (m : M (EngineW C D) A) w a w' : rpc_call m w = (Ok (inl a), w') → m w = (Ok a, w').
Proof.
  unfold rpc_call. intros (r & w1 & Ht & Hr)%M_bind_ok. unfold M_try in Ht.
  destruct (m w) as [[x|er|p] w2]; [| |done]; injection Ht as <- <-; [by injection Hr as <- <-|done].
Qed.

Lemma V2_Put_reply i at_ req w resp w' :
  V2_Put (PbDuration := PbDuration) e i at_ req w = (Ok (inl resp), w') →
  ∃ key t v row, Engine_parseKey e (p2_Key req) = Ok (key, t) ∧
    Engine_PutRow e i at_ key row (opened (p2_Session req) w) = (Ok v, w') ∧
    resp = mkPutResponse (mkWriteMeta v false "" None) (Some (Token_Proto (Some (ew_token w')))).
Proof.
  unfold V2_Put. intros (key & w1 & [Hk ->]%lift_reply & Hr)%rpc_bind_reply.
  apply rpc_bind_reply in Hr as (row & w1 & [_ ->]%lift_reply & Hr).
  apply M_bind_ok in Hr as (u & w1 & Ho & Hr). unfold open_session, M_modify in Ho. injection Ho as <- <-.
  apply rpc_bind_reply in Hr as (v & w1 & Hput%rpc_call_reply & Hr).
  apply M_bind_ok in Hr as (s & w2 & Hs & Hr). unfold session in Hs. cbn in Hs. injection Hs as <- <-.
  cbn in Hr. injection Hr as <- <-.
  unfold V2_key, rpc_bind in Hk. apply result_bind_ok in Hk as ([[key' t]|c] & Hk & Hk2); [|done].
  injection Hk2 as <-. apply status_reply in Hk. exists key', t, v, row. done.
Qed.

Lemma V2_Get_reply i req w resp w' :
  V2_Get CheckValid AsDuration durationpb_New e i req w = (Ok (inl resp), w') →
  ∃ key t q rr, Engine_parseKey e (gq_Key req) = Ok (key, t) ∧
    RequirementFromProto CheckValid AsDuration (gq_Level req) (gq_StalenessBound req) = Ok q ∧
    Engine_GetRow e i key q (opened (gq_Session req) w) = (Ok rr, w') ∧
    g2_Found resp = rr_Found rr ∧ rm_RowVersion (g2_Meta resp) = rr_RowVersion rr.
Proof.
  unfold V2_Get. intros (q & w1 & [Hq%status_reply ->]%lift_reply & Hr)%rpc_bind_reply.
  apply rpc_bind_reply in Hr as (key & w1 & [Hk ->]%lift_reply & Hr).
  apply M_bind_ok in Hr as (u & w1 & Ho & Hr). unfold open_session, M_modify in Ho. injection Ho as <- <-.
  apply rpc_bind_reply in Hr as (rr & w1 & Hget%rpc_call_reply & Hr).
  apply M_bind_ok in Hr as (s & w2 & Hs & Hr). unfold session in Hs. cbn in Hs. injection Hs as <- <-.
  cbn in Hr. injection Hr as <- <-.
  unfold V2_key, rpc_bind in Hk. apply result_bind_ok in Hk as ([[key' t]|c] & Hk & Hk2); [|done].
  injection Hk2 as <-. apply status_reply in Hk. exists key', t, q, rr. done.
Qed.

(** ** The client's side *)

Context {Bag : Type} `{Baggage Bag}.

Lemma capped_small maxShards (s : gmap string Z) : Z.of_nat (size s) ≤ maxShards → capped maxShards s = Some s.
Proof. intros Hs. unfold capped. destruct (size s) eqn:E; cbn [capped_loop]; by rewrite E, (proj2 (Z.leb_le _ _)) by lia. Qed.

Lemma MergeSessions_small a b maxShards :
  Z.of_nat (size (dom a ∪ dom b)) ≤ maxShards → Z.of_nat (size (MergeSessions a b)) ≤ maxShards.
Proof.
  intros Hs. etrans; [|exact Hs]. rewrite <-size_dom. apply inj_le, subseteq_size. intros s.
  rewrite elem_of_union, !elem_of_dom, MergeSessions_lookup. destruct (b !! s); [by right; eexists|]. intros ?. by left.
Qed.

(** A call that succeeds leaves the server as the handler does and the session
    merged with the answer's. *)
Lemma client_call_reply {A} c what (tok : A → SessionToken) (m : M (EngineW C D) (reply A)) sess w a s1 :
  client_call c what tok m (mkSdkW sess w) = (Ok a, s1) →
  m w = (Ok (inl a), sk_server s1) ∧
  (Z.of_nat (size (dom sess ∪ dom (default ∅ (tok a)))) ≤ sdk_maxShards c →
   ∀ id, sk_session s1 !! id = MergeSessions sess (default ∅ (tok a)) !! id).
Proof.
  unfold client_call. intros (r & s2 & Hm & Hr)%M_bind_ok. unfold on_server in Hm. cbn [sk_server sk_session] in Hm.
  destruct (m w) as [r' w1]. injection Hm as -> <-. destruct r as [resp|c']; [|done].
  apply M_bind_ok in Hr as (u & s3 & Ho & Hr). injection Hr as <- <-.
  unfold client_observe in Ho. case_bool_decide as Hemp.
  - injection Ho as _ <-. split; [done|]. intros _ id. rewrite MergeSessions_lookup, Hemp, lookup_empty. done.
  - apply M_bind_ok in Ho as (s4 & w3 & Hg & Ho). injection Hg as <- <-. cbn [sk_session] in Ho. unfold set_capped in Ho.
    split.
    + destruct (capped _ _); [|done]. by injection Ho as _ <-.
    + intros Hroom. rewrite capped_small in Ho by (by apply MergeSessions_small). by injection Ho as _ <-.
Qed.

(** A context that carries no session: requests use the client's own. *)
Definition no_session (cx : ctx Bag) : Prop := SessionFromContext cx = None ∧ ExtractSession cx = None.

Lemma sessionFor_own cx sess w : no_session cx → client_sessionFor cx (mkSdkW sess w) = (Ok sess, mkSdkW sess w).
Proof. intros [Hn1 Hn2]. unfold client_sessionFor. by rewrite Hn1, Hn2. Qed.

Lemma client_PutRow_reply (api : v2_PutRequest → M (EngineW C D) (reply (@PutResponse PbDuration))) c cx key row sess w res s1 :
  no_session cx → client_PutRow AsDuration api c cx key row (mkSdkW sess w) = (Ok res, s1) →
  ∃ req resp, p2_Key req = key ∧ p2_Session req = Some sess ∧ api req w = (Ok (inl resp), sk_server s1) ∧
    res = writeResultV2 AsDuration (pr_Meta resp) ∧
    (Z.of_nat (size (dom sess ∪ dom (default ∅ (pr_Session resp)))) ≤ sdk_maxShards c →
     ∀ id, sk_session s1 !! id = MergeSessions sess (default ∅ (pr_Session resp)) !! id).
Proof.
  intros Hcx. unfold client_PutRow. destruct (sdk_v2 c); [cbn [negb]|done]. destruct (row_table row); [|done].
  intros (tok & s2 & Ht & Hr)%M_bind_ok. rewrite sessionFor_own in Ht by done. injection Ht as <- <-.
  apply M_bind_ok in Hr as (resp & s2 & Hc & Hr). injection Hr as <- <-.
  apply client_call_reply in Hc as [Hm Hs]. eexists _, resp. split_and!; [| |exact Hm|done|exact Hs]; done.
Qed.

Lemma client_GetRow_reply (api : @GetRequest PbDuration → M (EngineW C D) (reply (@v2_GetResponse PbDuration))) c cx key opts sess w rr s1 :
  no_session cx → client_GetRow durationpb_New api c cx key opts (mkSdkW sess w) = (Ok rr, s1) →
  ∃ req resp, gq_Key req = key ∧ gq_Session req = Some sess ∧ gq_Level req = Level_Proto (ro_level (client_readOptions c opts)) ∧
    api req w = (Ok (inl resp), sk_server s1) ∧
    sw_Found rr = g2_Found resp ∧ srm_RowVersion (sw_Meta rr) = rm_RowVersion (g2_Meta resp).
Proof.
  intros Hcx. unfold client_GetRow. destruct (sdk_v2 c); [cbn [negb]|done].
  intros (tok & s2 & Ht & Hr)%M_bind_ok. rewrite sessionFor_own in Ht by done. injection Ht as <- <-.
  apply M_bind_ok in Hr as (resp & s2 & Hc & Hr). apply client_call_reply in Hc as [Hm _].
  apply M_bind_ok in Hr as (r & s3 & Hrow & Hr). injection Hr as <- <-.
  assert (s3 = s2) as -> by (destruct (g2_Found resp); by injection Hrow).
  eexists _, resp. split_and!; [| | |exact Hm|done|done]; done.
Qed.

End handlers.

(** ** The property *)

Section stack.
Context {C D : Type} `{Cache C} `{Mysql D}.
Context (cached : C → string → Entry → Prop) (cwf : C → Prop) (kok : string → Prop).
Context `{!CacheLaws C cached cwf kok}.
Context (e : Engine) (t : table) (tab : Table) (tbl : D → gmap (list string) cells)
  (sel : D → Predicate → list sqlarg → list (list string)).
Context `{!MysqlLaws D tab tbl sel}.
Context {PbDuration : Type} (CheckValid : PbDuration → option error) (AsDuration : PbDuration → Z)
  (durationpb_New : Z → PbDuration).
Context {Bag : Type} `{Baggage Bag}.
Implicit Types w : EngineW C D.

(** Both ends have room for the shards of the session. *)
Definition room (c : sdk_Client) (sess : gmap string Z) (w1 : EngineW C D) (s1 : gmap string Z) : Prop :=
  Z.of_nat (size (dom sess ∪ dom (Token_Proto (Some (ew_token w1))))) ≤ sdk_maxShards c ∧
  Z.of_nat (size s1) ≤ e_maxSessionShards e ∧ 0 < e_maxSessionShards e.

End stack.

(** ** Witness *)

Section demo.
#[local] Existing Instance ref_cache.
#[local] Existing Instance ref_laws.
#[local] Instance sdk_demo_mysql : Mysql (gmap (list string) cells) := mem_mysql users_t.
#[local] Instance sdk_demo_laws : MysqlLaws _ users_t (mem_tbl users_t) (mem_sel users_t) := users_laws.

(** A process without baggage. *)
#[local] Instance no_baggage : Baggage unit :=
  { bag_member := unit; bag_NewMember := λ _, Ok tt; bag_SetMember := λ _ _, Ok tt; bag_Value := λ _, "" }.

Definition demo_cx : ctx unit := mkctx None tt.

Definition demo_table : sdk_Table := tableFromProto (descriptorToProto users_d).
Definition demo_client : sdk_Client := mkSdkClient true {["users" := demo_table]} ["users"] Session 64.
Definition demo_client_row : sdk_Row := mkSdkRow (Some demo_table) [Str "1"; Str "acme"; Str "done"; Uint 0].

Definition demo_client_put :=
  client_PutRow (PbDuration := Z) (λ d, d) (V2_Put demo_e (users_io 0) (0, 0)) demo_client demo_cx "users:1" demo_client_row
    (mkSdkW ∅ after_read).

Definition demo_client_get :=
  client_GetRow (PbDuration := Z) (λ d, d) (V2_Get (λ _, None) (λ d, d) (λ d, d) demo_e demo_read) demo_client demo_cx "users:1" []
    demo_client_put.2.

End demo.
