(* ===== verification/Regexp.v ===== *)
(** Go's [strings] and [regexp] operations the proxy is written with.

    A pattern is its syntax tree; [re_match] runs it the way the package does,
    preferring earlier alternatives and longer (or, for [+?], shorter)
    repetitions, on the bytes of the text.  Every repetition of the patterns
    under [src/] is of one byte class, so matching is structural.  A negated
    class and [.] range over code points in Go and over bytes here: what follows
    them in these patterns is ASCII, which starts no later byte of a code
    point, so the same spans match. *)

From S2P Require Import Prelude GoStd.

Local Open Scope Z_scope.

(** ** strings *)

Fixpoint str_rev (s acc : string) : string :=
  match s with "" => acc | String c s => str_rev s (String c acc) end.

(** [strings.Index] and [strings.LastIndex]. *)
Fixpoint str_index (s sub : string) (i : nat) : option nat :=
  if str_prefix sub s then Some i
  else match s with "" => None | String _ s => str_index s sub (S i) end.
Definition str_Index (s sub : string) : option nat := str_index s sub 0.
(** [strings.Cut] with a separator of any length. *)
Definition cut_str (s sep : string) : option (string * string) :=
  match str_Index s sep with
  | Some i => Some (str_take i s, str_drop (i + String.length sep) s)
  | None => None
  end.

Fixpoint str_last_index (s sub : string) (i : nat) (acc : option nat) : option nat :=
  let acc := if str_prefix sub s then Some i else acc in
  match s with "" => acc | String _ s => str_last_index s sub (S i) acc end.
Definition str_LastIndex (s sub : string) : option nat := str_last_index s sub 0 None.

(** [strings.Count] of a one-byte separator. *)
Fixpoint str_count (c : ascii) (s : string) : Z :=
  match s with "" => 0 | String d s => (if Ascii.eqb c d then 1 else 0) + str_count c s end.

(** The UTF-8 forms of the code points of [unicode.IsSpace]. *)
Definition space_forms : list string :=
  str_of_bytes <$> ([[9]; [10]; [11]; [12]; [13]; [32]; [194; 133]; [194; 160]; [225; 154; 128]] ++
                ((λ z, [226; 128; z]) <$> [128; 129; 130; 131; 132; 133; 134; 135; 136; 137; 138; 168; 169; 175]) ++
                [[226; 129; 159]; [227; 128; 128]]).

Fixpoint trim_forms (fuel : nat) (forms : list string) (s : string) : string :=
  match fuel with
  | O => s
  | S fuel =>
      match find (λ f, str_prefix f s) forms with
      | Some f => trim_forms fuel forms (str_drop (String.length f) s)
      | None => s
      end
  end.

Definition TrimSpace (s : string) : string :=
  let s := trim_forms (String.length s) space_forms s in
  str_rev (trim_forms (String.length s) ((λ f, str_rev f "") <$> space_forms) (str_rev s "")) "".

(** [strings.TrimRight] and [strings.Trim] with a set of ASCII bytes. *)
Fixpoint trim_left_set (set : ascii → bool) (s : string) : string :=
  match s with String c s' => if set c then trim_left_set set s' else s | "" => "" end.
Definition trim_right_set (set : ascii → bool) (s : string) : string :=
  str_rev (trim_left_set set (str_rev s "")) "".
Definition str_Trim (set : ascii → bool) (s : string) : string := trim_right_set set (trim_left_set set s).

(** ** Byte classes *)

Definition class := ascii → bool.

Definition is_char (c : ascii) : class := λ d, Ascii.eqb c d.
Definition is_chars (s : string) : class := λ d, contains_byte d s.
Definition in_range (lo hi : Z) : class := λ d, (lo <=? byte_val d) && (byte_val d <=? hi).
Definition cl_or (a b : class) : class := λ d, a d || b d.
Definition cl_lower : class := in_range 97 122.
Definition cl_upper : class := in_range 65 90.
Definition cl_digit : class := is_digit.
Definition cl_space : class := λ d, (byte_val d =? 32) || (byte_val d =? 9) || (byte_val d =? 10) || (byte_val d =? 12) || (byte_val d =? 13).
Definition cl_word : class := cl_or (cl_or cl_lower cl_upper) (cl_or cl_digit (is_char "_")).

(** ** Patterns *)

Inductive re :=
  | REps
  | RClass (p : class)
  | RSeq (a b : re)
  | RAlt (a b : re)
  | RMany (greedy : bool) (min : nat) (p : class)
  | RGroup (n : nat) (a : re)
  | RBegin
  | REnd
  | RWordB.

Fixpoint RLit (s : string) : re :=
  match s with "" => REps | String c s => RSeq (RClass (is_char c)) (RLit s) end.
Definition ROpt (a : re) : re := RAlt a REps.
Definition RSeqs (l : list re) : re := foldr RSeq REps l.
Definition RAlts (l : list re) (last : re) : re := foldr RAlt last l.
Definition spaces1 : re := RMany true 1 cl_space.
Definition spaces0 : re := RMany true 0 cl_space.

(** A place in a text: the bytes before, last first, and the bytes to come. *)
Record place := mkPlace { before : string; rest : string }.

(** The groups, latest first. *)
Definition groups := list (nat * string).

Definition step_place (p : place) : option (ascii * place) :=
  match rest p with
  | "" => None
  | String c s => Some (c, mkPlace (String c (before p)) s)
  end.

(** What lies between an earlier place and a later one. *)
Definition span (p p' : place) : string := str_take (String.length (rest p) - String.length (rest p')) (rest p).

Definition word_at (s : string) : bool := match s with String c _ => cl_word c | "" => false end.

Section run.
Context {A : Type}.

(** A repetition from a place, [s] being what is left there: [min] more bytes
    are due. *)
Fixpoint run_many (greedy : bool) (min : nat) (p : class) (b s : string) (k : place → option A) : option A :=
  let here := match min with O => k (mkPlace b s) | S _ => None end in
  let more := match s with
              | String c s' => if p c then run_many greedy (Nat.pred min) p (String c b) s' k else None
              | "" => None
              end in
  if greedy then match more with Some x => Some x | None => here end
  else match here with Some x => Some x | None => more end.

Fixpoint re_run (r : re) (pl : place) (g : groups) (k : place → groups → option A) : option A :=
  match r with
  | REps => k pl g
  | RClass p =>
      match rest pl with
      | String c s => if p c then k (mkPlace (String c (before pl)) s) g else None
      | "" => None
      end
  | RSeq a b => re_run a pl g (λ pl g, re_run b pl g k)
  | RAlt a b => match re_run a pl g k with Some x => Some x | None => re_run b pl g k end
  | RMany greedy min p => run_many greedy min p (before pl) (rest pl) (λ pl, k pl g)
  | RGroup n a => re_run a pl g (λ pl' g', k pl' ((n, span pl pl') :: g'))
  | RBegin => match before pl with "" => k pl g | String _ _ => None end
  | REnd => match rest pl with "" => k pl g | String _ _ => None end
  | RWordB => if Bool.eqb (word_at (before pl)) (word_at (rest pl)) then None else k pl g
  end.
End run.

(** The match that starts at a place: where it ends, and its groups. *)
Definition match_at (r : re) (pl : place) : option (place * groups) :=
  re_run r pl [] (λ pl g, Some (pl, g)).

(** The leftmost match: where it starts and ends, and its groups. *)
Fixpoint find_from (r : re) (b s : string) : option (place * place * groups) :=
  match match_at r (mkPlace b s) with
  | Some (pl, g) => Some (mkPlace b s, pl, g)
  | None => match s with "" => None | String c s => find_from r (String c b) s end
  end.

Definition MatchString (r : re) (s : string) : bool :=
  match find_from r "" s with Some _ => true | None => false end.

(** [FindStringSubmatch]; a group that took no part is empty. *)
Definition group (n : nat) (g : groups) : string :=
  match find (λ x, Nat.eqb x.1 n) g with Some x => x.2 | None => "" end.
Definition FindStringSubmatch (r : re) (s : string) : option (nat → string) :=
  match find_from r "" s with
  | Some (_, _, g) => Some (λ n, group n g)
  | None => None
  end.

(** [ReplaceAllString] and [Split] with a pattern that matches no empty text:
    every round consumes a byte. *)
Fixpoint replace_all (fuel : nat) (r : re) (repl : string) (b s : string) : string :=
  match fuel with
  | O => s
  | S fuel =>
      match find_from r b s with
      | None => s
      | Some (pl, pl', _) => str_take (String.length s - String.length (rest pl)) s +:+ repl +:+ replace_all fuel r repl (before pl') (rest pl')
      end
  end.
Definition ReplaceAllString (r : re) (s repl : string) : string := replace_all (S (String.length s)) r repl "" s.

Fixpoint split_all (fuel : nat) (r : re) (b s : string) : list string :=
  match fuel with
  | O => [s]
  | S fuel =>
      match find_from r b s with
      | None => [s]
      | Some (pl, pl', _) => str_take (String.length s - String.length (rest pl)) s :: split_all fuel r (before pl') (rest pl')
      end
  end.
Definition re_Split (r : re) (s : string) : list string := split_all (S (String.length s)) r "" s.

(** The text between matches and the matches, in order: what
    [ReplaceAllStringFunc] visits. *)
Fixpoint pieces_all (fuel : nat) (r : re) (b s : string) : list (string + string) :=
  match fuel with
  | O => [inl s]
  | S fuel =>
      match find_from r b s with
      | None => [inl s]
      | Some (pl, pl', _) =>
          inl (str_take (String.length s - String.length (rest pl)) s) :: inr (span pl pl') :: pieces_all fuel r (before pl') (rest pl')
      end
  end.
Definition re_pieces (r : re) (s : string) : list (string + string) := pieces_all (S (String.length s)) r "" s.

(** [(?i)] of an ASCII literal: either case of a letter, and the two letters
    outside ASCII that fold into one, U+017F into s and U+212A into k. *)
Definition fold_class (c : ascii) : class :=
  λ d, let low z := if (65 <=? z) && (z <=? 90) then z + 32 else z in low (byte_val c) =? low (byte_val d).
Definition RFoldChar (c : ascii) : re :=
  let extra :=
    if fold_class c "s"%char then Some (str_of_bytes [197; 191])
    else if fold_class c "k"%char then Some (str_of_bytes [226; 132; 170])
    else None in
  match extra with
  | Some bytes => RAlt (RClass (fold_class c)) (RLit bytes)
  | None => RClass (fold_class c)
  end.
Fixpoint RFold (s : string) : re :=
  match s with "" => REps | String c s => RSeq (RFoldChar c) (RFold s) end.

(** ** What a match means

    [re_match r pl t pl']: [r] can match the text [t] from [pl] to [pl'].  The
    runner finds a match whenever there is one its continuation accepts, and
    nothing else. *)

Definition at_ (pre post : string) : place := mkPlace (str_rev pre "") post.

Inductive re_match : re → place → place → Prop :=
  | ReEps pl : re_match REps pl pl
  | ReClass p b c s : p c = true → re_match (RClass p) (mkPlace b (String c s)) (mkPlace (String c b) s)
  | ReSeq a b pl pl1 pl2 : re_match a pl pl1 → re_match b pl1 pl2 → re_match (RSeq a b) pl pl2
  | ReAltL a b pl pl' : re_match a pl pl' → re_match (RAlt a b) pl pl'
  | ReAltR a b pl pl' : re_match b pl pl' → re_match (RAlt a b) pl pl'
  | ReManyNil greedy p pl : re_match (RMany greedy 0 p) pl pl
  | ReManyCons greedy min p b c s pl' :
      p c = true → re_match (RMany greedy (Nat.pred min) p) (mkPlace (String c b) s) pl' →
      re_match (RMany greedy min p) (mkPlace b (String c s)) pl'
  | ReGroup n a pl pl' : re_match a pl pl' → re_match (RGroup n a) pl pl'
  | ReBegin s : re_match RBegin (mkPlace "" s) (mkPlace "" s)
  | ReEnd b : re_match REnd (mkPlace b "") (mkPlace b "")
  | ReWordB pl : word_at (before pl) ≠ word_at (rest pl) → re_match RWordB pl pl.

Lemma run_many_sound {A} greedy p s : ∀ min b (k : place → option A) x,
  run_many greedy min p b s k = Some x →
  ∃ pl', re_match (RMany greedy min p) (mkPlace b s) pl' ∧ k pl' = Some x.
Proof.
  induction s as [|c s IH]; intros min b k x H.
  - cbn [run_many] in H.
    assert (match min with O => k (mkPlace b "") | S _ => None end = Some x) as H'
      by (destruct greedy, min; try done; cbn in H; by destruct (k _)).
    destruct min; [|done]. eexists; split; [constructor|done].
  - cbn [run_many] in H.
    assert (match min with O => k (mkPlace b (String c s)) | S _ => None end = Some x ∨
            (p c = true ∧ run_many greedy (Nat.pred min) p (String c b) s k = Some x)) as [H'|[Hp H']].
    { destruct (p c); [|left; destruct greedy; [done|by destruct min; [destruct (k _)|]]].
      destruct greedy.
      - destruct (run_many true _ _ _ _ _) eqn:E; [right; split; [done|congruence]|by left].
      - destruct min; [destruct (k _); [by left|by right]|by right]. }
    + destruct min; [|done]. eexists; split; [constructor|done].
    + apply IH in H' as (pl' & Hm & Hk). exists pl'. split; [by constructor|done].
Qed.

(** The groups a pattern can set. *)
Fixpoint re_groups (r : re) : list nat :=
  match r with
  | RSeq a b | RAlt a b => re_groups a ++ re_groups b
  | RGroup n a => n :: re_groups a
  | _ => []
  end.

Lemma re_run_sound {A} r : ∀ pl g (k : place → groups → option A) x,
  re_run r pl g k = Some x →
  ∃ pl' l, re_match r pl pl' ∧ Forall (λ x, x.1 ∈ re_groups r) l ∧ k pl' (l ++ g) = Some x.
Proof.
  induction r as [|p|a IHa b IHb|a IHa b IHb|gr min p|n a IHa| | |]; intros pl g k x H; cbn [re_run re_groups] in *.
  - exists pl, []. split_and!; [constructor|done|done].
  - destruct pl as [b [|c s]]; [done|]. cbn in H. destruct (p c) eqn:E; [|done].
    eexists _, []. split_and!; [by constructor|done|exact H].
  - apply IHa in H as (pl1 & l1 & H1 & G1 & H). apply IHb in H as (pl2 & l2 & H2 & G2 & H).
    exists pl2, (l2 ++ l1). split_and!; [by econstructor| |by rewrite <-app_assoc].
    apply Forall_app. split; eapply Forall_impl; [exact G2| |exact G1|]; intros y Hy; apply elem_of_app; tauto.
  - destruct (re_run a pl g k) eqn:E.
    + injection H as <-. apply IHa in E as (pl' & l & Hm & G & Hk). exists pl', l. split_and!; [by apply ReAltL| |done].
      eapply Forall_impl; [exact G|]. intros y Hy. apply elem_of_app. by left.
    + apply IHb in H as (pl' & l & Hm & G & Hk). exists pl', l. split_and!; [by apply ReAltR| |done].
      eapply Forall_impl; [exact G|]. intros y Hy. apply elem_of_app. by right.
  - destruct pl as [b s]. apply run_many_sound in H as (pl' & Hm & Hk). exists pl', []. by split_and!.
  - apply IHa in H as (pl' & l & Hm & G & Hk). exists pl', ((n, span pl pl') :: l). split_and!; [by constructor| |done].
    constructor; [by left|]. eapply Forall_impl; [exact G|]. intros y Hy. by right.
  - destruct pl as [[|? ?] s]; [|done]. cbn in H. eexists _, []. split_and!; [apply ReBegin|done|exact H].
  - destruct pl as [b [|? ?]]; [|done]. cbn in H. eexists _, []. split_and!; [apply ReEnd|done|exact H].
  - destruct (Bool.eqb _ _) eqn:E; [done|]. exists pl, []. split_and!; [|done|exact H]. constructor. by apply Bool.eqb_false_iff.
Qed.

Lemma run_many_complete {A} greedy min p b s (k : place → option A) pl' :
  re_match (RMany greedy min p) (mkPlace b s) pl' → k pl' ≠ None → run_many greedy min p b s k ≠ None.
Proof.
  intros Hm. remember (RMany greedy min p) as r eqn:Er. remember (mkPlace b s) as pl eqn:Ep.
  revert min b s Er Ep. induction Hm; intros min0 b0 s0 Er Ep Hk; try done.
  - injection Er as <- <- <-. subst pl. destruct s0 as [|c s]; cbn [run_many]; destruct greedy0; try done;
      repeat case_match; congruence.
  - injection Er as <- <- <-. injection Ep as <- <-. specialize (IHHm _ _ _ eq_refl eq_refl Hk).
    cbn [run_many]. rewrite H. destruct greedy0; repeat case_match; congruence.
Qed.

Lemma re_run_complete {A} r pl pl' : re_match r pl pl' →
  ∀ g (k : place → groups → option A), (∀ g', k pl' g' ≠ None) → re_run r pl g k ≠ None.
Proof.
  intros Hm. induction Hm; intros g k Hk; cbn [re_run].
  - apply Hk.
  - cbn. rewrite H. apply Hk.
  - apply IHHm1. intros g'. by apply IHHm2.
  - specialize (IHHm g k Hk). by destruct (re_run a pl g k).
  - specialize (IHHm g k Hk). by destruct (re_run a pl g k).
  - destruct pl as [b s]. eapply run_many_complete; [constructor|]. apply Hk.
  - cbn [before rest]. eapply run_many_complete; [by econstructor|]. apply Hk.
  - apply IHHm. intros g'. apply Hk.
  - apply Hk.
  - apply Hk.
  - destruct (Bool.eqb _ _) eqn:E; [by apply Bool.eqb_prop in E|]. apply Hk.
Qed.

(** A search finds the leftmost place from which there is a match. *)
Lemma find_from_at r s : ∀ b pl pl' g,
  find_from r b s = Some (pl, pl', g) →
  match_at r pl = Some (pl', g) ∧ ∃ pre, s = pre +:+ rest pl ∧ before pl = str_rev pre b.
Proof.
  induction s as [|c s IH]; intros b pl pl' g H; cbn [find_from] in H.
  - destruct (match_at r _) as [[pl1 g1]|] eqn:E; [|done]. injection H as <- <- <-. split; [done|]. by exists "".
  - destruct (match_at r _) as [[pl1 g1]|] eqn:E.
    + injection H as <- <- <-. split; [done|]. by exists "".
    + apply IH in H as (Hm & pre & -> & Hb). split; [done|]. by exists (String c pre).
Qed.

Lemma find_from_complete r s : ∀ b, find_from r b s = None → ∀ pl', ¬ re_match r (mkPlace b s) pl'.
Proof.
  intros b H pl' Hm. pose proof (re_run_complete r _ _ Hm [] (λ pl g, Some (pl, g))) as Hc.
  specialize (Hc ltac:(done)). destruct s; cbn [find_from] in H; unfold match_at in H; by destruct (re_run _ _ _ _) as [[]|].
Qed.

(** ** Places and texts *)

Lemma str_rev_app s t acc : str_rev (s +:+ t) acc = str_rev t (str_rev s acc).
Proof. revert acc. induction s as [|c s IH]; intros acc; [done|]. rewrite str_app_cons. apply IH. Qed.

Lemma str_rev_acc s acc : str_rev s acc = str_rev s "" +:+ acc.
Proof.
  revert acc. induction s as [|c s IH]; intros acc; [done|]. cbn [str_rev].
  rewrite IH, (IH (String c "")), <-str_app_assoc. done.
Qed.

Lemma str_rev_involutive s : str_rev (str_rev s "") "" = s.
Proof.
  induction s as [|c s IH]; [done|]. cbn [str_rev]. rewrite (str_rev_acc s (String c "")), str_rev_app. cbn [str_rev].
  by rewrite IH.
Qed.

(** Every match runs over some text. *)
Definition runs_over (t : string) (pl pl' : place) : Prop :=
  rest pl = t +:+ rest pl' ∧ before pl' = str_rev t (before pl).

Lemma runs_over_app t t' pl pl1 pl2 : runs_over t pl pl1 → runs_over t' pl1 pl2 → runs_over (t +:+ t') pl pl2.
Proof.
  intros [H1 H2] [H3 H4]. split; [by rewrite H1, H3, str_app_assoc|]. by rewrite H4, H2, str_rev_app.
Qed.

(** [P] holds of every byte a pattern can match. *)
Fixpoint re_only (P : ascii → Prop) (r : re) : Prop :=
  match r with
  | RClass p | RMany _ _ p => ∀ c, p c = true → P c
  | RSeq a b | RAlt a b => re_only P a ∧ re_only P b
  | RGroup _ a => re_only P a
  | REps | RBegin | REnd | RWordB => True
  end.

Fixpoint str_Forall (P : ascii → Prop) (s : string) : Prop :=
  match s with "" => True | String c s => P c ∧ str_Forall P s end.

Lemma str_Forall_app P s t : str_Forall P (s +:+ t) ↔ str_Forall P s ∧ str_Forall P t.
Proof. induction s as [|c s IH]; [cbn; tauto|]. rewrite str_app_cons. cbn. tauto. Qed.

Lemma re_match_text P r pl pl' : re_match r pl pl' → re_only P r →
  ∃ t, runs_over t pl pl' ∧ str_Forall P t.
Proof.
  intros Hm. induction Hm; cbn [re_only]; intros HP; try by exists "".
  - exists (String c ""). split; [done|]. split; [by apply HP|done].
  - destruct HP as [HP1 HP2]. destruct (IHHm1 HP1) as (t1 & H1 & F1). destruct (IHHm2 HP2) as (t2 & H2 & F2).
    exists (t1 +:+ t2). split; [by eapply runs_over_app|]. by apply str_Forall_app.
  - apply IHHm, HP.
  - apply IHHm, HP.
  - destruct (IHHm HP) as (t & [H1 H2] & F). exists (String c t). split; [|split; [by apply HP|done]].
    split; cbn in *; [by rewrite H1|done].
  - by apply IHHm.
Qed.

Lemma re_match_runs r pl pl' : re_match r pl pl' → ∃ t, runs_over t pl pl'.
Proof.
  intros Hm. destruct (re_match_text (λ _, True) r pl pl' Hm) as (t & Ht & _); [|by exists t].
  clear Hm. induction r; simpl; tauto.
Qed.

(** What a span is. *)
Lemma str_take_length_app s t : str_take (String.length s) (s +:+ t) = s.
Proof. induction s as [|c s IH]; [by destruct t|]. rewrite str_app_cons. cbn. by rewrite IH. Qed.
Lemma str_drop_length_app s t : str_drop (String.length s) (s +:+ t) = t.
Proof. induction s as [|c s IH]; [by destruct t|]. rewrite str_app_cons. done. Qed.
Lemma span_runs t pl pl' : runs_over t pl pl' → span pl pl' = t.
Proof.
  intros [H _]. unfold span. rewrite H, str_length_app.
  replace (_ + _ - _)%nat with (String.length t) by lia. apply str_take_length_app.
Qed.

(** A group is what the last part that set it matched. *)
Lemma group_skip n l g : Forall (λ x : nat * string, x.1 ≠ n) l → group n (l ++ g) = group n g.
Proof.
  induction 1 as [|x l Hx _ IH]; [done|]. unfold group in *. cbn [app find]. destruct (Nat.eqb_spec x.1 n); [done|]. exact IH.
Qed.
Lemma group_top n t g : group n ((n, t) :: g) = t.
Proof. unfold group. cbn. by rewrite Nat.eqb_refl. Qed.

(** A pattern anchored at the start runs from there. *)
Lemma find_begin r q sub :
  FindStringSubmatch (RSeq RBegin r) q = Some sub →
  ∃ pl' g, re_run r (at_ "" q) [] (λ pl g, Some (pl, g)) = Some (pl', g) ∧ sub = λ n, group n g.
Proof.
  unfold FindStringSubmatch. intros H.
  destruct (find_from _ "" q) as [[[pl pl'] g]|] eqn:E; [|done]. injection H as <-.
  apply find_from_at in E as (Hm & pre & Hq & Hpre). unfold match_at in Hm. cbn [re_run] in Hm.
  destruct (before pl) as [|? ?] eqn:Eb; [|done].
  assert (pre = "") as ->.
  { destruct pre as [|c pre]; [done|]. cbn in Hpre. rewrite str_rev_acc in Hpre.
    by destruct (str_rev pre ""). }
  cbn in Hq. subst q. destruct pl as [b s]. cbn [before rest] in *. subst b. eauto.
Qed.

(** Texts of consecutive places. *)
Lemma at_runs h s pl' : (∃ t, runs_over t (at_ h s) pl') → ∃ t post, s = t +:+ post ∧ pl' = at_ (h +:+ t) post.
Proof.
  intros (t & Hr & Hb). destruct pl' as [b post]. cbn in *. exists t, post. split; [done|].
  unfold at_. by rewrite Hb, str_rev_app.
Qed.

Lemma span_at h t post : span (at_ h (t +:+ post)) (at_ (h +:+ t) post) = t.
Proof. apply span_runs. split; [done|]. cbn. by rewrite str_rev_app. Qed.

(** A pattern anchored at both ends: a head, a group and a tail. *)
Lemma find_anchored head n body tail q sub :
  FindStringSubmatch (RSeq RBegin (RSeqs [head; RGroup n body; tail; REnd])) q = Some sub →
  n ∉ re_groups tail →
  ∃ h c t, q = h +:+ c +:+ t ∧ sub n = c ∧
    re_match head (at_ "" q) (at_ h (c +:+ t)) ∧ re_match body (at_ h (c +:+ t)) (at_ (h +:+ c) t) ∧
    re_match tail (at_ (h +:+ c) t) (at_ q "").
Proof.
  intros (pl' & g & Hm & ->)%find_begin Ht. cbn [RSeqs foldr re_run] in Hm.
  apply re_run_sound in Hm as (pl1 & l1 & M1 & _ & Hm). apply re_run_sound in Hm as (pl2 & l2 & M2 & _ & Hm).
  apply re_run_sound in Hm as (pl3 & l3 & M3 & G3 & Hm). 
  destruct (rest pl3) as [|? ?] eqn:E3; [|done]. injection Hm as <- <-.
  destruct (at_runs _ _ _ (re_match_runs _ _ _ M1)) as (h & q1 & -> & ->).
  destruct (at_runs _ _ _ (re_match_runs _ _ _ M2)) as (c & q2 & -> & ->).
  destruct (at_runs _ _ _ (re_match_runs _ _ _ M3)) as (t & q3 & -> & ->).
  cbn in E3. subst q3. rewrite !str_app_nil_r in *. change ("" +:+ h) with h in *. exists h, c, t.
  rewrite <-(str_app_assoc h c t) in M3. split_and!; [done| |done..].
  rewrite group_skip by (eapply Forall_impl; [exact G3|]; intros x Hx Heq; cbn beta in Hx; by rewrite Heq in Hx).
  rewrite group_top. apply span_at.
Qed.

(** And with two groups. *)
Lemma find_anchored2 a n x b m y q sub :
  FindStringSubmatch (RSeq RBegin (RSeqs [a; RGroup n x; b; RGroup m y; REnd])) q = Some sub →
  n ≠ m → n ∉ re_groups b → n ∉ re_groups y →
  ∃ s1 t1 s2 t2, q = s1 +:+ t1 +:+ s2 +:+ t2 ∧ sub n = t1 ∧ sub m = t2 ∧
    re_match a (at_ "" q) (at_ s1 (t1 +:+ s2 +:+ t2)) ∧
    re_match x (at_ s1 (t1 +:+ s2 +:+ t2)) (at_ (s1 +:+ t1) (s2 +:+ t2)) ∧
    re_match b (at_ (s1 +:+ t1) (s2 +:+ t2)) (at_ ((s1 +:+ t1) +:+ s2) t2) ∧
    re_match y (at_ ((s1 +:+ t1) +:+ s2) t2) (at_ (((s1 +:+ t1) +:+ s2) +:+ t2) "").
Proof.
  intros (pl' & g & Hm & ->)%find_begin Hnm Hb Hy. cbn [RSeqs foldr re_run] in Hm.
  apply re_run_sound in Hm as (pl1 & l1 & M1 & _ & Hm). apply re_run_sound in Hm as (pl2 & l2 & M2 & _ & Hm).
  apply re_run_sound in Hm as (pl3 & l3 & M3 & G3 & Hm). apply re_run_sound in Hm as (pl4 & l4 & M4 & G4 & Hm).
  destruct (rest pl4) as [|? ?] eqn:E4; [|done]. injection Hm as <- <-.
  destruct (at_runs _ _ _ (re_match_runs _ _ _ M1)) as (s1 & q1 & -> & ->).
  destruct (at_runs _ _ _ (re_match_runs _ _ _ M2)) as (t1 & q2 & -> & ->).
  destruct (at_runs _ _ _ (re_match_runs _ _ _ M3)) as (s2 & q3 & -> & ->).
  destruct (at_runs _ _ _ (re_match_runs _ _ _ M4)) as (t2 & q4 & -> & ->).
  cbn in E4. subst q4. rewrite !str_app_nil_r in *. change ("" +:+ s1) with s1 in *. exists s1, t1, s2, t2. split_and!; try done.
  - change ((m, ?t) :: ?l) with ([(m, t)] ++ l). rewrite group_skip by (constructor; [by apply not_eq_sym|done]).
    rewrite group_skip by (eapply Forall_impl; [exact G4|]; intros z Hz Heq; cbn beta in Hz; by rewrite Heq in Hz).
    rewrite group_skip by (eapply Forall_impl; [exact G3|]; intros z Hz Heq; cbn beta in Hz; by rewrite Heq in Hz).
    rewrite group_top. apply span_at.
  - rewrite group_top. pose proof (span_at ((s1 +:+ t1) +:+ s2) t2 "") as Hs. by rewrite str_app_nil_r in Hs.
Qed.

(** ** Counting bytes *)

Lemma str_count_app c s t : str_count c (s +:+ t) = str_count c s + str_count c t.
Proof. induction s as [|d s IH]; [done|]. rewrite str_app_cons. cbn [str_count]. lia. Qed.

Lemma str_count_nonneg c s : 0 ≤ str_count c s.
Proof. induction s as [|d s IH]; [done|]. cbn [str_count]. destruct (Ascii.eqb c d); lia. Qed.

Lemma str_count_none c s : str_Forall (λ d, d ≠ c) s → str_count c s = 0.
Proof.
  induction s as [|d s IH]; [done|]. intros [Hd Hs]. cbn [str_count]. rewrite IH by done.
  by destruct (Ascii.eqb_spec c d) as [->|].
Qed.

(** A pattern of which no class holds a byte matches no text with it. *)
Definition re_avoids (c : ascii) (r : re) : Prop := re_only (λ d, d ≠ c) r.

Lemma re_avoids_count c r h t post : re_avoids c r → re_match r (at_ h (t +:+ post)) (at_ (h +:+ t) post) → str_count c t = 0.
Proof.
  intros Ha Hm. destruct (re_match_text _ _ _ _ Hm Ha) as (t' & Hr & HP).
  rewrite <-(span_runs _ _ _ Hr), span_at in HP. by apply str_count_none.
Qed.

Fixpoint sum_counts (c : ascii) (l : list string) : Z :=
  match l with [] => 0 | s :: l => str_count c s + sum_counts c l end.

(** Where a piece of a split text stood, by the bytes no separator has. *)
Lemma split_all_at ch r : re_avoids ch r → ∀ fuel b s i raw,
  split_all fuel r b s !! i = Some raw →
  ∃ c1 c2, s = c1 +:+ raw +:+ c2 ∧ str_count ch c1 = sum_counts ch (take i (split_all fuel r b s)).
Proof.
  intros Ha fuel. induction fuel as [|fuel IH]; intros b s i raw H; cbn [split_all] in *.
  { destruct i; [|done]. injection H as <-. exists "", "". by rewrite str_app_nil_r. }
  destruct (find_from r b s) as [[[pl pl'] g]|] eqn:E.
  2: { destruct i; [|done]. injection H as <-. exists "", "". by rewrite str_app_nil_r. }
  apply find_from_at in E as (Hm & pre & Hs & Hb). unfold match_at in Hm.
  apply re_run_sound in Hm as (pl1 & l & Hm & _ & [= -> _]).
  destruct (re_match_text _ _ _ _ Hm Ha) as (sep & (Hsep & _) & HP).
  assert (str_take (String.length s - String.length (rest pl)) s = pre) as Hpre.
  { rewrite Hs, str_length_app. replace (_ + _ - _)%nat with (String.length pre) by lia. apply str_take_length_app. }
  rewrite Hpre in *. destruct i as [|i].
  - injection H as <-. exists "", (rest pl). by rewrite Hs.
  - cbn in H. apply IH in H as (c1 & c2 & Hr & Hc). exists (pre +:+ sep +:+ c1), c2. split.
    + by rewrite Hs, Hsep, Hr, !str_app_assoc.
    + cbn [take sum_counts]. rewrite !str_count_app, Hc, (str_count_none ch sep) by done. lia.
Qed.

(** ** The last occurrence *)

Lemma str_prefix_spec p s : str_prefix p s = true ↔ ∃ post, s = p +:+ post.
Proof.
  split.
  - revert s. induction p as [|c p IH]; intros s H; [by exists s|]. destruct s as [|d s]; [done|].
    cbn in H. apply andb_true_iff in H as [->%bool_decide_eq_true (post & ->)%IH]. by exists post.
  - intros [post ->]. apply str_prefix_app.
Qed.

Lemma str_last_index_none sub s : (∀ p post, s ≠ p +:+ sub +:+ post) → ∀ i acc, str_last_index s sub i acc = acc.
Proof.
  induction s as [|c s IH]; intros H i acc; cbn [str_last_index].
  - destruct (str_prefix sub "") eqn:E; [|done]. apply str_prefix_spec in E as [post E]. by apply (H "" post) in E.
  - destruct (str_prefix sub (String c s)) eqn:E.
    { apply str_prefix_spec in E as [post E]. by apply (H "" post) in E. }
    apply IH. intros p post Hs. apply (H (String c p) post). by rewrite Hs.
Qed.

Lemma str_LastIndex_at sub p post s : s = p +:+ sub +:+ post →
  (∀ p' post', s = p' +:+ sub +:+ post' → (String.length p' ≤ String.length p)%nat) →
  str_LastIndex s sub = Some (String.length p).
Proof.
  unfold str_LastIndex. intros -> Hl.
  assert (∀ i acc, str_last_index (p +:+ sub +:+ post) sub i acc = Some (i + String.length p)%nat) as H; [|by rewrite H].
  revert Hl. induction p as [|c p IH]; intros Hl i acc.
  - change ("" +:+ ?x) with x in *. cbn [String.length]. rewrite Nat.add_0_r.
    destruct (sub +:+ post) as [|c s] eqn:E.
    + cbn [str_last_index]. rewrite <-E, str_prefix_app. done.
    + cbn [str_last_index]. rewrite <-E at 1. rewrite str_prefix_app. apply str_last_index_none.
      intros p' post' Hs. assert (String c s = String c p' +:+ sub +:+ post') as Hc by (by rewrite Hs).
      apply Hl in Hc. cbn in Hc. lia.
  - rewrite str_app_cons. cbn [str_last_index]. rewrite IH; [f_equal; cbn; lia|].
    intros p' post' Hs. assert (String c p +:+ sub +:+ post = String c p' +:+ sub +:+ post') as Hc
      by (by rewrite !str_app_cons, Hs).
    apply Hl in Hc. cbn in Hc. lia.
Qed.

Lemma str_app_split h : ∀ x p y, h +:+ x = p +:+ y → (String.length h ≤ String.length p)%nat →
  ∃ d, p = h +:+ d ∧ x = d +:+ y.
Proof.
  induction h as [|c h IH]; intros x p y Heq Hl; [by exists p|].
  destruct p as [|c' p]; [cbn in Hl; lia|]. rewrite !str_app_cons in Heq. injection Heq as <- Heq.
  cbn in Hl. destruct (IH _ _ _ Heq ltac:(lia)) as (d & -> & ->). by exists d.
Qed.

Lemma str_first_at c x : ∀ y u v, str_count c x = 0 → str_count c y = 0 →
  x +:+ String c u = y +:+ String c v → x = y.
Proof.
  assert (∀ d s, str_count c (String d s) = 0 → d ≠ c ∧ str_count c s = 0) as Hc.
  { intros d s H. cbn [str_count] in H. pose proof (str_count_nonneg c s).
    destruct (Ascii.eqb_spec c d) as [->|]; [lia|]. split; [congruence|lia]. }
  induction x as [|d x IH]; intros y u v Hx Hy Heq; destruct y as [|e y]; try done.
  - cbn in Heq. injection Heq as -> _. by apply Hc in Hy as [].
  - cbn in Heq. injection Heq as -> _. by apply Hc in Hx as [].
  - rewrite !str_app_cons in Heq. injection Heq as <- Heq. apply Hc in Hx as [_ Hx], Hy as [_ Hy].
    f_equal. by eapply IH.
Qed.

Lemma str_first c s : str_count c s ≠ 0 → ∃ a b, s = a +:+ String c b ∧ str_count c a = 0.
Proof.
  induction s as [|d s IH]; [done|]. cbn [str_count]. destruct (Ascii.eqb_spec c d) as [->|Hd].
  - intros _. by exists "", s.
  - intros (a & b & -> & Ha)%IH. exists (String d a), b. split; [done|]. cbn [str_count].
    by destruct (Ascii.eqb_spec c d).
Qed.

(** A text with a byte that what follows it has not stands last where it
    stands. *)
Lemma str_LastIndex_clause c h sub t :
  str_count c sub ≠ 0 → str_count c t = 0 → str_LastIndex (h +:+ sub +:+ t) sub = Some (String.length h).
Proof.
  intros Hsub Ht. apply (str_LastIndex_at sub h t); [done|]. intros p' post' Heq.
  destruct (Nat.le_gt_cases (String.length p') (String.length h)) as [|Hgt]; [done|]. exfalso.
  destruct (str_app_split _ _ _ _ Heq ltac:(lia)) as (d & -> & Hd).
  assert (str_count c d = 0) as Hd0.
  { apply (f_equal (str_count c)) in Hd. rewrite !str_count_app in Hd.
    pose proof (str_count_nonneg c d). pose proof (str_count_nonneg c post'). lia. }
  destruct (str_first c sub Hsub) as (a & b & -> & Ha).
  assert (a = d +:+ a) as Hda.
  { apply (str_first_at c a (d +:+ a) (b +:+ t) (b +:+ post')); [done|rewrite str_count_app; lia|].
    by rewrite <-!str_app_assoc, !str_app_cons in *. }
  apply (f_equal String.length) in Hda. rewrite str_length_app in Hda. rewrite str_length_app in Hgt. lia.
Qed.
