(* ===== verification/Proxy.v ===== *)
(** The proxy's reading of SQL: [src/internal/proxy/classify.go] and
    [src/internal/proxy/rewrite.go].

    [ToLower] is [strings.ToLower], whose tables for code points outside ASCII
    are not written out. *)

From S2P Require Import Prelude GoStd Regexp Schema.

Local Open Scope Z_scope.

Inductive Kind := Passthrough | PointSelect | PointWrite | OpaqueWrite.
#[export] Instance Kind_eq_dec : EqDecision Kind.
Proof. solve_decision. Defined.

Definition Kind_String (k : Kind) : string :=
  match k with
  | PointSelect => "PointSelect" | PointWrite => "PointWrite"
  | OpaqueWrite => "OpaqueWrite" | Passthrough => "Passthrough"
  end.

Record KeyTerm := mkKeyTerm { kt_Literal : string; kt_IsParam : bool; kt_Param : Z }.

Record Plan := mkPlan {
  pl_Kind : Kind;
  pl_Key : list KeyTerm;
  pl_Columns : list string;
  pl_BeginsTransaction : bool;
  pl_EndsTransaction : bool;
}.

(** [Plan{}]. *)
Definition no_plan : Plan := mkPlan Passthrough [] [] false false.

Record Matcher := mkMatcher {
  mt_d : Descriptor;
  mt_wholeTable : bool;
  mt_pkOrder : gmap string nat;
  mt_pointSelectRe : re;
  mt_pointWriteRe : re;
  mt_anyWriteRe : re;
  mt_versionAssign : re;
  mt_versionStmt : string;
}.

(** ** The patterns *)

Definition cl_ident : class := cl_or (cl_or cl_lower cl_digit) (is_chars "_$").
Definition cl_ident_first : class := cl_or cl_lower (is_char "_").

(** [[a-z0-9_$`\s=?]+?] and [[a-z0-9_$,`\s]+?]. *)
Definition conjunction : re := RMany false 1 (cl_or cl_ident (cl_or cl_space (is_chars "`=?"))).
Definition select_list : re := RMany false 1 (cl_or cl_ident (cl_or cl_space (is_chars ",`"))).

Definition backtick : re := ROpt (RClass (is_char "`")).

Definition table_ref (name : string) : re :=
  RSeqs [ROpt (RSeqs [backtick; RClass cl_ident_first; RMany true 0 cl_ident; backtick; RClass (is_char ".")]);
         backtick; RLit name; backtick].

Definition select_head (name : string) : re :=
  RSeqs [RLit "select"; spaces1; RGroup 1 (RAlt (RClass (is_char "*")) select_list); spaces1; RLit "from"; spaces1;
         table_ref name; spaces1; RLit "where"; spaces1].
Definition select_tail : re := RSeqs [spaces0; ROpt (RSeqs [RLit "limit"; spaces1; RLit "1"; spaces0])].

Definition write_head (name : string) : re :=
  RSeqs [RAlt (RSeqs [RLit "update"; spaces1; table_ref name; spaces1; RLit "set"; spaces1;
                      RGroup 1 (RMany false 0 (λ c, negb (is_char ";" c)))])
              (RSeqs [RLit "delete"; spaces1; RLit "from"; spaces1; table_ref name]);
         spaces1; RLit "where"; spaces1].
Definition write_tail : re := spaces0.

Definition any_write (name : string) : re :=
  let tbl := table_ref name in
  RSeqs [RBegin;
         RAlts [RSeqs [RLit "update"; spaces1; tbl];
                RSeqs [RLit "delete"; spaces1; RLit "from"; spaces1; tbl];
                RSeqs [RLit "insert"; ROpt (RSeqs [spaces1; RLit "ignore"]); spaces1; RLit "into"; spaces1; tbl];
                RSeqs [RLit "replace"; spaces1; RLit "into"; spaces1; tbl]]
               (RSeqs [RLit "truncate"; spaces1; ROpt (RSeqs [RLit "table"; spaces1]); tbl]);
         RWordB].

Definition identifier : re := RSeq (RClass cl_ident_first) (RMany true 0 cl_ident).
Definition term_value : re := RAlt (RMany true 1 cl_digit) (RClass (is_char "?")).
Definition termRe : re :=
  RSeq RBegin (RSeqs [backtick; RGroup 1 identifier; RSeqs [backtick; spaces0; RClass (is_char "="); spaces0];
                      RGroup 2 term_value; REnd]).

Definition beginRe : re := RSeqs [RBegin; RAlt (RLit "begin") (RLit "start transaction"); REnd].
Definition endRe : re := RSeqs [RBegin; RAlt (RLit "commit") (RLit "rollback"); REnd].
Definition andRe : re := RSeqs [spaces1; RLit "and"; spaces1].
Definition blockCommentRe : re :=
  RSeqs [RLit "/*"; RMany false 0 (λ c, negb (byte_val c =? 10)); RLit "*/"].
Definition whitespaceRe : re := spaces1.

Definition deletePrefixRe : re := RSeqs [RBegin; RFold "delete"; spaces1; RFold "from"; RClass cl_space].
Definition updatePrefixRe : re := RSeqs [RBegin; RFold "update"; RClass cl_space].

(** [isSpace]. *)
Definition isSpace (b : ascii) : bool :=
  (byte_val b =? 32) || (byte_val b =? 9) || (byte_val b =? 10) || (byte_val b =? 13).

(** ** Where the rewrite splices *)

Definition isIdentByte (b : ascii) : bool :=
  is_chars "_$" b || cl_digit b || cl_lower b || cl_upper b.

(** [strings.EqualFold] with a lower-case ASCII word that holds no letter to
    which a code point outside ASCII folds. *)
Fixpoint equal_fold_ascii (s word : string) : bool :=
  match s, word with
  | "", "" => true
  | String c s, String d word => fold_class d c && equal_fold_ascii s word
  | _, _ => false
  end.

Definition isWhereAt (q : string) (i : nat) : bool :=
  let slice := str_take 5 (str_drop i q) in
  if (String.length q <? i + 5)%nat || negb (equal_fold_ascii slice "where") then false
  else if match i with
          | O => false
          | S i' => match String.get i' q with Some c => isIdentByte c | None => false end
          end then false
  else match String.get (i + 5) q with Some c => negb (isIdentByte c) | None => true end.

(** The scan of [topLevelWhere] from index [i], [s] being the text from there;
    [skip] bytes were consumed ahead by [i++]. *)
Fixpoint where_scan (q s : string) (i skip : nat) (depth : Z) (quote : option ascii) (found : option nat) : option nat :=
  match s with
  | "" => match quote with Some _ => None | None => found end
  | String ch s' =>
      match skip with
      | S skip => where_scan q s' (S i) skip depth quote found
      | O =>
          let next := match s' with String c _ => Some c | "" => None end in
          match quote with
          | Some qu =>
              if Ascii.eqb ch "\" && negb (Ascii.eqb qu "`") then where_scan q s' (S i) 1 depth quote found
              else if Ascii.eqb ch qu then
                if bool_decide (next = Some qu) then where_scan q s' (S i) 1 depth quote found
                else where_scan q s' (S i) 0 depth None found
              else where_scan q s' (S i) 0 depth quote found
          | None =>
              if is_chars "'`" ch || (byte_val ch =? 34) then where_scan q s' (S i) 0 depth (Some ch) found
              else if Ascii.eqb ch "(" then where_scan q s' (S i) 0 (depth + 1) None found
              else if Ascii.eqb ch ")" then where_scan q s' (S i) 0 (depth - 1) None found
              else if Ascii.eqb ch ";" then None
              else if Ascii.eqb ch "#" then None
              else if Ascii.eqb ch "-" && bool_decide (next = Some "-"%char) then None
              else if Ascii.eqb ch "/" && bool_decide (next = Some "*"%char) then None
              else if (depth =? 0) && is_chars "wW" ch && isWhereAt q i then
                match found with
                | Some _ => None
                | None => where_scan q s' (S i) 4 depth None (Some i)
                end
              else where_scan q s' (S i) 0 depth None found
          end
      end
  end.

Definition topLevelWhere (q : string) : option nat := where_scan q q 0 0 0 None None.

Section matcher.

Context (ToLower : string → string).

Definition versionAssignPattern (col : Column) : re :=
  RSeqs [RAlt RBegin (RClass (cl_or cl_space (is_chars ",`"))); backtick; RFold (ToLower (col_Name col)); backtick;
         spaces0; RClass (is_char "=")].

Definition NewMatcher (d : option Descriptor) (wholeTable : bool) : result Matcher :=
  match d with
  | None => Err (Errorf "proxy: no table descriptor")
  | Some d =>
      let name := ToLower (d_Name d) in
      Ok (mkMatcher d wholeTable
            (foldl (λ m x, <[x.2 := x.1]> m) ∅ (imap (λ i c, (i, col_Name c)) (d_PrimaryKey d)))
            (RSeq RBegin (RSeqs [select_head name; RGroup 2 conjunction; select_tail; REnd]))
            (RSeq RBegin (RSeqs [write_head name; RGroup 2 conjunction; write_tail; REnd]))
            (any_write name)
            (versionAssignPattern (d_VersionColumn d))
            ("SELECT " +:+ Column_Quoted (d_VersionColumn d) +:+ " FROM " +:+ Descriptor_QuotedName d +:+
             " WHERE " +:+ join " AND " ((λ c, Column_Quoted c +:+ " = ?") <$> d_PrimaryKey d)))
  end.

Definition normalise (query : string) : option string :=
  let q := ToLower query in
  if str_contains "/*!" q || str_contains "/*+" q then None
  else
    let uncommented :=
      if str_contains "/*" q then
        if str_contains "*/" q then Some (ReplaceAllString blockCommentRe q " ") else None
      else Some q in
    q ← uncommented;
    q ← match str_Index q "--" with
        | Some i =>
            match str_drop (i + 2) q with
            | String c _ => if isSpace c then Some (str_take i q) else None
            | "" => Some (str_take i q)
            end
        | None => Some q
        end;
    let q := match str_Index q "#" with Some i => str_take i q | None => q end in
    let q := TrimSuffix (TrimSpace q) ";" in
    if contains_byte ";" q then None
    else
      let q := TrimSpace (ReplaceAllString whitespaceRe q " ") in
      if bool_decide (q = "") then None else Some q.

Context (m : Matcher).

Definition Matcher_ServesWholeRow : bool := mt_wholeTable m.

Fixpoint declared_columns (parts : list string) (out : list string) : option (list string) :=
  match parts with
  | [] => Some out
  | p :: parts =>
      let col := str_Trim (is_char "`") (TrimSpace p) in
      if bool_decide (col = "") then None
      else match Descriptor_Column (mt_d m) col with
           | None => None
           | Some _ => declared_columns parts (out ++ [col])
           end
  end.

Definition Matcher_selectedColumns (sel : string) : option (list string) :=
  if bool_decide (TrimSpace sel = "*") then
    if mt_wholeTable m then Some (col_Name <$> d_Columns (mt_d m)) else None
  else
    match declared_columns (split_byte "," sel) [] with
    | Some [] | None => None
    | Some out => Some out
    end.

(** The loop of [keyFrom] over the terms: the key so far, which of its columns
    were seen, and the number of placeholders. *)
Fixpoint key_terms (terms : list string) (key : list KeyTerm) (seen : list bool) (params : Z) : option (list KeyTerm * Z) :=
  match terms with
  | [] => Some (key, params)
  | raw :: terms =>
      match FindStringSubmatch termRe (TrimSpace raw) with
      | None => None
      | Some sub =>
          match mt_pkOrder m !! sub 1%nat with
          | None => None
          | Some pos =>
              if default false (seen !! pos) then None
              else
                let seen := <[pos := true]> seen in
                if bool_decide (sub 2%nat = "?") then
                  key_terms terms (<[pos := mkKeyTerm "" true 0]> key) seen (params + 1)
                else key_terms terms (<[pos := mkKeyTerm (sub 2%nat) false 0]> key) seen params
          end
      end
  end.

Definition set_param (n : Z) (t : KeyTerm) : KeyTerm := mkKeyTerm (kt_Literal t) (kt_IsParam t) n.

(** The loop of [placePlaceholders]; [pos] is the zero of [int] for a name that
    is no key column. *)
Fixpoint place_terms (terms : list string) (base nth : Z) (key : list KeyTerm) : option (list KeyTerm) :=
  match terms with
  | [] => Some key
  | raw :: terms =>
      match FindStringSubmatch termRe (TrimSpace raw) with
      | None => None
      | Some sub =>
          if bool_decide (sub 2%nat = "?") then
            place_terms terms base (nth + 1) (alter (set_param (base + nth)) (default 0%nat (mt_pkOrder m !! sub 1%nat)) key)
          else place_terms terms base nth key
      end
  end.

Definition Matcher_placePlaceholders (q clause : string) (key : list KeyTerm) : option (list KeyTerm) :=
  match str_LastIndex q clause with
  | None => None
  | Some start =>
      if negb (str_count "?" (str_drop (start + String.length clause) q) =? 0) then None
      else place_terms (re_Split andRe clause) (str_count "?" (str_take start q)) 0 key
  end.

Definition Matcher_keyFrom (q clause : string) : option (list KeyTerm) :=
  let terms := re_Split andRe clause in
  let n := length (d_PrimaryKey (mt_d m)) in
  if negb (length terms =? n)%nat then None
  else
    '(key, params) ← key_terms terms (replicate n (mkKeyTerm "" false 0)) (replicate n false) 0;
    if params =? 0 then Some key else Matcher_placePlaceholders q clause key.

Definition Matcher_Classify (query : string) : Plan :=
  match normalise query with
  | None => no_plan
  | Some q =>
      if MatchString beginRe q then mkPlan Passthrough [] [] true false
      else if MatchString endRe q then mkPlan Passthrough [] [] false true
      else
        match FindStringSubmatch (mt_pointSelectRe m) q with
        | Some sub =>
            match Matcher_selectedColumns (sub 1%nat) with
            | None => no_plan
            | Some cols =>
                match Matcher_keyFrom q (sub 2%nat) with
                | None => no_plan
                | Some key => mkPlan PointSelect key cols false false
                end
            end
        | None =>
            let point :=
              match FindStringSubmatch (mt_pointWriteRe m) q with
              | Some sub => Matcher_keyFrom q (sub 2%nat)
              | None => None
              end in
            match point with
            | Some key => mkPlan PointWrite key [] false false
            | None => if MatchString (mt_anyWriteRe m) q then mkPlan OpaqueWrite [] [] false false else no_plan
            end
        end
  end.

(** ** Keys of an execution *)

(** The dynamic types [argText] switches on; a nil slice is [None]. *)
Inductive wire_arg :=
  | WTyped (b : option string)
  | WUint64 (v : Z) | WInt64 (v : Z) | WInt (v : Z)
  | WString (s : string) | WBytes (b : option string)
  | WOther.

Definition argText (v : wire_arg) : option string :=
  match v with
  | WTyped b => b
  | WUint64 v => Some (FormatUint v)
  | WInt64 v | WInt v => Some (FormatInt v)
  | WString s => Some s
  | WBytes b => Some (default "" b)
  | WOther => None
  end.

Definition term_text (args : list wire_arg) (t : KeyTerm) : option string :=
  if kt_IsParam t then
    if (kt_Param t <? 0) || (Z.of_nat (length args) <=? kt_Param t) then None
    else a ← args !! Z.to_nat (kt_Param t); argText a
  else Some (kt_Literal t).

Definition Matcher_Key (p : Plan) (args : list wire_arg) : option Key :=
  if negb (length (pl_Key p) =? length (d_PrimaryKey (mt_d m)))%nat then None
  else
    values ← mapM (term_text args) (pl_Key p);
    match Descriptor_Key (mt_d m) (ArgString <$> values) with
    | Ok k => match Descriptor_Validate (mt_d m) k with Ok _ => Some k | _ => None end
    | _ => None
    end.

(** ** The rewrite *)

Definition Matcher_rewriteWithVersionBump (query : string) : option string :=
  let q := TrimSpace query in
  let trimmed := TrimSuffix q ";" in
  if MatchString deletePrefixRe trimmed then Some q
  else if negb (MatchString updatePrefixRe trimmed) then None
  else
    where_ ← topLevelWhere trimmed;
    let sets := str_take where_ trimmed in
    if MatchString (mt_versionAssign m) sets then Some q
    else
      let quoted := Column_Quoted (d_VersionColumn (mt_d m)) in
      Some (trim_right_set (λ c, isSpace c) sets +:+ ", " +:+ quoted +:+ " = " +:+ quoted +:+ " + 1 " +:+ str_drop where_ trimmed).

End matcher.
