(* ===== verification/ProxySpec.v ===== *)
(** What the proxy's reading of a statement guarantees: a statement taken for a
    read or a write of one row names that row, its placeholders are numbered as
    the client numbers them, and the rewrite splices at the statement's own
    WHERE.  And where reading text without its quotes goes wrong. *)

From S2P Require Import Prelude GoStd Regexp Schema Table Proxy.

Local Open Scope Z_scope.

(** ** Trimming *)

Lemma str_count_rev c s acc : str_count c (str_rev s acc) = str_count c s + str_count c acc.
Proof. revert acc. induction s as [|d s IH]; intros acc; [done|]. cbn [str_rev str_count]. rewrite IH. cbn [str_count]. lia. Qed.

Lemma trim_forms_count c forms : Forall (λ f, str_count c f = 0) forms →
  ∀ fuel s, str_count c (trim_forms fuel forms s) = str_count c s.
Proof.
  intros Hf fuel. induction fuel as [|fuel IH]; intros s; [done|]. cbn [trim_forms].
  destruct (find _ forms) as [f|] eqn:E; [|done].
  apply find_some in E as [Hin [post ->]%str_prefix_spec].
  assert (str_count c f = 0) as Hf0 by (eapply Forall_forall in Hf; [exact Hf|by apply list_elem_of_In]).
  rewrite IH, str_drop_length_app, str_count_app. lia.
Qed.

Lemma TrimSpace_count c s : forallb (λ f, str_count c f =? 0) space_forms = true →
  str_count c (TrimSpace s) = str_count c s.
Proof.
  intros Hc. assert (Forall (λ f, str_count c f = 0) space_forms) as Hf.
  { apply Forall_forall. intros f Hin. apply forallb_forall with (x := f) in Hc; [by apply Z.eqb_eq|by apply list_elem_of_In]. }
  unfold TrimSpace. rewrite str_count_rev, trim_forms_count.
  - rewrite str_count_rev, trim_forms_count by done. cbn [str_count]. lia.
  - apply Forall_fmap. eapply Forall_impl; [exact Hf|]. intros f H. cbn beta in *. unfold compose. rewrite str_count_rev. cbn [str_count]. lia.
Qed.

(** ** One term *)

(** The column and the value a term of a predicate names. *)
Definition term_parts (raw : string) : option (string * string) :=
  match FindStringSubmatch termRe (TrimSpace raw) with Some sub => Some (sub 1%nat, sub 2%nat) | None => None end.

Definition quote_mark (s : string) : Prop := s = "" ∨ s = "`".
Definition all_in (p : class) (s : string) : Prop := str_Forall (λ c, p c = true) s.

(** A term as text: a possibly quoted identifier, an equals sign, and a number
    or a placeholder. *)
Definition is_term (text name value : string) : Prop :=
  ∃ b1 b2 s1 s2, text = b1 +:+ name +:+ b2 +:+ s1 +:+ "=" +:+ s2 +:+ value ∧
    quote_mark b1 ∧ quote_mark b2 ∧ all_in cl_space s1 ∧ all_in cl_space s2 ∧
    name ≠ "" ∧ all_in cl_ident name ∧ (value = "?" ∨ (value ≠ "" ∧ all_in cl_digit value)).

(** The texts of the simple patterns. *)
Definition text_of (r : re) (P : string → Prop) : Prop :=
  ∀ pl pl', re_match r pl pl' → ∃ t, runs_over t pl pl' ∧ P t.

Lemma text_of_at r P h t post : text_of r P → re_match r (at_ h (t +:+ post)) (at_ (h +:+ t) post) → P t.
Proof. intros HP (t' & Hr & Ht)%HP. by rewrite <-(span_runs _ _ _ Hr), span_at in Ht. Qed.

Lemma text_of_seq a b P Q : text_of a P → text_of b Q →
  text_of (RSeq a b) (λ t, ∃ x y, t = x +:+ y ∧ P x ∧ Q y).
Proof.
  intros Ha Hb pl pl' Hm. inversion Hm as [| |? ? ? pl1 ? H1 H2| | | | | | | |]; subst.
  apply Ha in H1 as (x & Hx & HP). apply Hb in H2 as (y & Hy & HQ). exists (x +:+ y).
  split; [by eapply runs_over_app|eauto].
Qed.

Lemma text_of_class p : text_of (RClass p) (λ t, ∃ c, t = String c "" ∧ p c = true).
Proof. intros pl pl' Hm. inversion Hm; subst. exists (String c ""). split; [done|]. eauto. Qed.

Lemma text_of_eps : text_of REps (λ t, t = "").
Proof. intros pl pl' Hm. inversion Hm; subst. by exists "". Qed.

Lemma text_of_alt a b P Q : text_of a P → text_of b Q → text_of (RAlt a b) (λ t, P t ∨ Q t).
Proof.
  intros Ha Hb pl pl' Hm.
  inversion Hm as [| | |? ? ? ? H|? ? ? ? H| | | | | |]; subst; [apply Ha in H|apply Hb in H];
    destruct H as (t & Ht & HP); exists t; tauto.
Qed.

Lemma text_of_many greedy min p : text_of (RMany greedy min p) (λ t, (min ≤ String.length t)%nat ∧ all_in p t).
Proof.
  intros pl pl' Hm. remember (RMany greedy min p) as r eqn:Er. revert min Er.
  induction Hm; intros min0 Er; try done.
  - injection Er as <- <- <-. by exists "".
  - injection Er as <- <- <-. destruct (IHHm _ eq_refl) as (t & [Hr Hb] & Hl & Ht).
    exists (String c t). split; [split; cbn in *; [by rewrite Hr|done]|]. split; [cbn; lia|by split].
Qed.

Lemma text_of_impl r (P Q : string → Prop) : text_of r P → (∀ t, P t → Q t) → text_of r Q.
Proof. intros HP HQ pl pl' (t & Ht & H)%HP. eauto. Qed.

Lemma is_char_true c d : is_char c d = true → d = c.
Proof. unfold is_char. by intros ->%Ascii.eqb_eq. Qed.

Lemma text_of_char c : text_of (RClass (is_char c)) (λ t, t = String c "").
Proof. eapply text_of_impl; [apply text_of_class|]. by intros t (d & -> & ->%is_char_true). Qed.

Lemma text_of_backtick : text_of backtick quote_mark.
Proof. eapply text_of_impl; [apply text_of_alt; [apply text_of_char|apply text_of_eps]|]. unfold quote_mark. tauto. Qed.

Lemma term_parts_ok raw name value : term_parts raw = Some (name, value) → is_term (TrimSpace raw) name value.
Proof.
  unfold term_parts. destruct (FindStringSubmatch _ _) as [sub|] eqn:E; [|done]. intros [= <- <-].
  apply find_anchored2 in E as (b1 & nm & mid & v & Htext & Hn & Hv & M1 & M2 & M3 & M4); try (cbn; set_solver).
  rewrite Hn, Hv. rewrite Htext in M1. apply (text_of_at _ _ "" b1 _ text_of_backtick) in M1.
  apply (text_of_at _ _ _ _ _ (text_of_seq _ _ _ _ (text_of_class _) (text_of_many _ _ _))) in M2.
  apply (text_of_at _ _ _ _ _ (text_of_seq _ _ _ _ text_of_backtick (text_of_seq _ _ _ _ (text_of_many _ _ _)
           (text_of_seq _ _ _ _ (text_of_char _) (text_of_seq _ _ _ _ (text_of_many _ _ _) text_of_eps))))) in M3.
  rewrite <-(str_app_nil_r v) in M4 at 1.
  apply (text_of_at _ _ _ _ _ (text_of_alt _ _ _ _ (text_of_many _ _ _) (text_of_char _))) in M4.
  destruct M2 as (x & y & -> & (c & -> & Hc) & _ & Hy).
  destruct M3 as (b2 & r1 & -> & Hb2 & s1 & r2 & -> & [_ Hs1] & e & r3 & -> & -> & s2 & e' & -> & [_ Hs2] & ->).
  exists b1, b2, s1, s2. split_and!; try done.
  - by rewrite Htext, !str_app_nil_r, <-!str_app_assoc.
  - split; [|exact Hy]. revert Hc. unfold cl_ident_first, cl_ident, cl_or, is_chars.
    destruct (cl_lower c); [done|]. rewrite orb_false_l. intros ->%is_char_true. done.
  - destruct M4 as [[Hl Hd]| ->]; [right|by left]. split; [|done]. intros ->. cbn in Hl. lia.
Qed.

Lemma str_count_in c s p : p c = false → all_in p s → str_count c s = 0.
Proof.
  intros Hp Hs. apply str_count_none. induction s as [|d s IH]; [done|]. destruct Hs as [Hd Hs]. split; [congruence|auto].
Qed.

Lemma quote_mark_count c s : c ≠ "`"%char → quote_mark s → str_count c s = 0.
Proof. intros Hc [->| ->]; [done|]. cbn [str_count]. by destruct (Ascii.eqb_spec c "`") as [->|]. Qed.

(** A term has one equals sign, and a placeholder exactly when its value is. *)
Lemma term_counts raw name value : term_parts raw = Some (name, value) →
  str_count "=" raw = 1 ∧ str_count "?" raw = (if bool_decide (value = "?") then 1 else 0).
Proof.
  intros H. apply term_parts_ok in H as (b1 & b2 & s1 & s2 & Ht & Hb1 & Hb2 & Hs1 & Hs2 & _ & Hn & Hv).
  rewrite <-(TrimSpace_count "=" raw), <-(TrimSpace_count "?" raw) by (vm_compute; reflexivity).
  rewrite Ht, !str_count_app, !(quote_mark_count _ b1), !(quote_mark_count _ b2) by done.
  rewrite !(str_count_in _ s1 cl_space), !(str_count_in _ s2 cl_space), !(str_count_in _ name cl_ident) by done.
  change (str_count "=" "=") with 1. change (str_count "?" "=") with 0.
  destruct Hv as [->|[Hne Hd]]; [done|]. rewrite !(str_count_in _ value cl_digit) by done.
  rewrite bool_decide_eq_false_2; [done|]. intros ->. cbn in Hd. by destruct Hd.
Qed.

(** ** The key of a predicate *)

Section keys.
Context (m : Matcher).
Notation pk := (d_PrimaryKey (mt_d m)).

(** What [NewMatcher] puts in the map of key positions. *)
Definition pk_order_ok : Prop := ∀ name pos, mt_pkOrder m !! name = Some pos →
  ∃ col, pk !! pos = Some col ∧ col_Name col = name.

Definition term_place (raw : string) : option (nat * string) :=
  '(name, value) ← term_parts raw; pos ← mt_pkOrder m !! name; Some (pos, value).

Definition first_term (value : string) : KeyTerm :=
  if bool_decide (value = "?") then mkKeyTerm "" true 0 else mkKeyTerm value false 0.

Definition placeholders_in (ps : list (nat * string)) : Z :=
  Z.of_nat (length (filter (λ p, p.2 = "?") ps)).

Lemma key_terms_places (Hm : pk_order_ok) terms : ∀ key seen params key' params',
  length seen = length pk →
  key_terms m terms key seen params = Some (key', params') →
  ∃ ps, mapM term_place terms = Some ps ∧ NoDup ps.*1 ∧ (∀ pos, pos ∈ ps.*1 → (pos < length pk)%nat ∧ seen !! pos ≠ Some true) ∧
    key' = foldl (λ k p, <[p.1 := first_term p.2]> k) key ps ∧ params' = params + placeholders_in ps.
Proof.
  induction terms as [|raw terms IH]; intros key seen params key' params' Hl H; cbn [key_terms] in H.
  { injection H as <- <-. exists []. split_and!; [done|constructor|set_solver|done|unfold placeholders_in; cbn; lia]. }
  assert (term_parts raw = match FindStringSubmatch termRe (TrimSpace raw) with
                           | Some sub => Some (sub 1%nat, sub 2%nat) | None => None end) as Hp by done.
  destruct (FindStringSubmatch _ _) as [sub|]; [|done].
  destruct (mt_pkOrder m !! sub 1%nat) as [pos|] eqn:Epos; [|done].
  destruct (Hm _ _ Epos) as (col & Hcol & _). apply lookup_lt_Some in Hcol.
  destruct (lookup_lt_is_Some_2 seen pos ltac:(lia)) as [b Hb]. rewrite Hb in H. destruct b; cbn [default] in H; [done|].
  assert (∃ params1, key_terms m terms (<[pos := first_term (sub 2%nat)]> key) (<[pos := true]> seen) params1 =
            Some (key', params') ∧ params1 = params + (if bool_decide (sub 2%nat = "?") then 1 else 0)) as (params1 & H' & Hpar).
  { unfold first_term. case_bool_decide; eexists; (split; [exact H|lia]). }
  apply IH in H' as (ps & Hps & Hnd & Hpos & Hkey & Hparams); [|by rewrite length_insert].
  exists ((pos, sub 2%nat) :: ps). split_and!.
  - assert (term_place raw = Some (pos, sub 2%nat)) as Htp by (unfold term_place; rewrite Hp; cbn; by rewrite Epos).
    change (mapM term_place (raw :: terms)) with (y ← term_place raw; k ← mapM term_place terms; mret (y :: k)).
    rewrite Htp. cbn [mbind option_bind]. by rewrite Hps.
  - cbn. constructor; [|done]. intros Hin. apply Hpos in Hin as [_ Hin]. by rewrite list_lookup_insert_eq in Hin by lia.
  - intros q Hq. cbn in Hq. apply elem_of_cons in Hq as [->|Hq]; [by rewrite Hb|].
    apply Hpos in Hq as [Hq1 Hq2]. split; [done|]. destruct (decide (q = pos)) as [->|Hne]; [by rewrite Hb|].
    by rewrite list_lookup_insert_ne in Hq2.
  - done.
  - rewrite Hparams, Hpar. unfold placeholders_in. rewrite filter_cons. cbn [snd].
    case_bool_decide as Hq; [rewrite decide_True by done; cbn [length]; lia|rewrite decide_False by done; lia].
Qed.

Lemma term_place_ok raw pos value : term_place raw = Some (pos, value) →
  ∃ sub, FindStringSubmatch termRe (TrimSpace raw) = Some sub ∧ sub 2%nat = value ∧
    mt_pkOrder m !! sub 1%nat = Some pos ∧ term_parts raw = Some (sub 1%nat, value).
Proof.
  unfold term_place, term_parts. destruct (FindStringSubmatch _ _) as [sub|]; [|done]. cbn.
  destruct (mt_pkOrder m !! sub 1%nat) eqn:E; [|done]. cbn. intros [= <- <-]. eauto.
Qed.

Lemma first_terms_lookup ps : ∀ (key : list KeyTerm) i pos v,
  NoDup ps.*1 → ps !! i = Some (pos, v) → (pos < length key)%nat →
  foldl (λ k p, <[p.1 := first_term p.2]> k) key ps !! pos = Some (first_term v).
Proof.
  assert (∀ (ps : list (nat * string)) (key : list KeyTerm) pos, pos ∉ ps.*1 →
    foldl (λ k p, <[p.1 := first_term p.2]> k) key ps !! pos = key !! pos) as Hother.
  { clear ps. induction ps as [|[q w] ps IH]; intros key pos Hn; [done|]. cbn in *.
    apply not_elem_of_cons in Hn as [Hn1 Hn2]. by rewrite IH, list_lookup_insert_ne. }
  induction ps as [|[q w] ps IH]; intros key i pos v Hnd Hi Hl; [done|]. cbn in *.
  apply NoDup_cons in Hnd as [Hq Hnd]. destruct i as [|i]; cbn in Hi.
  - injection Hi as -> ->. rewrite Hother by done. by apply list_lookup_insert_eq.
  - eapply IH; [done|done|]. by rewrite length_insert.
Qed.

(** The loop that numbers the placeholders, on the places of the terms. *)
Fixpoint place_params (ps : list (nat * string)) (base nth : Z) (key : list KeyTerm) : list KeyTerm :=
  match ps with
  | [] => key
  | (pos, v) :: ps =>
      if bool_decide (v = "?") then place_params ps base (nth + 1) (alter (set_param (base + nth)) pos key)
      else place_params ps base nth key
  end.

Lemma place_terms_params terms : ∀ ps base nth key,
  mapM term_place terms = Some ps → place_terms m terms base nth key = Some (place_params ps base nth key).
Proof.
  induction terms as [|raw terms IH]; intros ps base nth key H; [by injection H as <-|].
  change (mapM term_place (raw :: terms)) with (y ← term_place raw; k ← mapM term_place terms; mret (y :: k)) in H.
  destruct (term_place raw) as [[pos v]|] eqn:Et; [|done]. cbn [mbind option_bind] in H.
  destruct (mapM term_place terms) as [ps'|] eqn:Em; [|done]. injection H as <-.
  apply term_place_ok in Et as (sub & Hs & Hv & Hpos & _). cbn [place_terms place_params].
  rewrite Hs, Hpos, Hv. cbn [default]. case_bool_decide; by apply IH.
Qed.

Lemma place_params_other ps : ∀ base nth key pos, pos ∉ ps.*1 → place_params ps base nth key !! pos = key !! pos.
Proof.
  induction ps as [|[q w] ps IH]; intros base nth key pos Hn; [done|]. cbn in *.
  apply not_elem_of_cons in Hn as [Hn1 Hn2]. case_bool_decide; rewrite IH by done; [|done].
  by rewrite list_lookup_alter_ne.
Qed.

Lemma place_params_lookup ps : ∀ base nth key i pos v t,
  NoDup ps.*1 → ps !! i = Some (pos, v) → key !! pos = Some t →
  place_params ps base nth key !! pos =
    Some (if bool_decide (v = "?") then set_param (base + nth + placeholders_in (take i ps)) t else t).
Proof.
  induction ps as [|[q w] ps IH]; intros base nth key i pos v t Hnd Hi Hk; [done|]. cbn in Hnd.
  apply NoDup_cons in Hnd as [Hq Hnd]. cbn [place_params]. destruct i as [|i]; cbn in Hi.
  - injection Hi as -> ->. case_bool_decide; rewrite place_params_other by done; [|done].
    rewrite list_lookup_alter_eq, Hk. change (placeholders_in (take 0 _)) with 0. by rewrite Z.add_0_r.
  - assert (pos ≠ q) as Hne.
    { intros ->. apply Hq. apply list_elem_of_lookup_2 in Hi. apply list_elem_of_fmap. by exists (q, v). }
    cbn [take]. unfold placeholders_in in *. rewrite filter_cons. cbn [snd]. case_bool_decide as Hw.
    + rewrite decide_True by done. erewrite IH; [|done|done|by rewrite list_lookup_alter_ne].
      case_bool_decide; [|done]. do 2 f_equal. cbn [length]. lia.
    + rewrite decide_False by done. by eapply IH.
Qed.

(** Positions that are distinct and as many as there are columns are all of
    them. *)
Lemma positions_cover (ps : list nat) n :
  NoDup ps → length ps = n → (∀ p, p ∈ ps → (p < n)%nat) → ∀ p, (p < n)%nat → p ∈ ps.
Proof.
  intros Hnd Hl Hlt p Hp.
  assert (Permutation ps (seq 0 n)) as Hperm.
  { apply NoDup_Permutation_bis; [by apply NoDup_ListNoDup|by rewrite length_seq, Hl|].
    intros q Hq. apply in_seq. apply list_elem_of_In, Hlt in Hq. lia. }
  rewrite Hperm. apply elem_of_seq. lia.
Qed.

Lemma placeholders_count terms : ∀ ps i, mapM term_place terms = Some ps →
  placeholders_in (take i ps) = sum_counts "?" (take i terms).
Proof.
  induction terms as [|raw terms IH]; intros ps i H.
  { injection H as <-. by rewrite !take_nil. }
  change (mapM term_place (raw :: terms)) with (y ← term_place raw; k ← mapM term_place terms; mret (y :: k)) in H.
  destruct (term_place raw) as [[pos v]|] eqn:Et; [|done]. cbn [mbind option_bind] in H.
  destruct (mapM term_place terms) as [ps'|] eqn:Em; [|done]. injection H as <-.
  destruct i as [|i]; [done|]. cbn [take sum_counts]. rewrite <-(IH _ i eq_refl).
  apply term_place_ok in Et as (sub & _ & _ & _ & [_ Hc]%term_counts). rewrite Hc.
  unfold placeholders_in. rewrite filter_cons. cbn [snd].
  case_bool_decide as Hq; [rewrite decide_True by done; cbn [length]; lia|rewrite decide_False by done; lia].
Qed.

(** What a key says of a predicate: it has one term for each key column, each
    read off a term of the text of its own; a placeholder's index is the number
    of placeholders before it in the whole statement. *)
Definition names_key (head clause : string) (key : list KeyTerm) : Prop :=
  length key = length pk ∧ length (re_Split andRe clause) = length pk ∧
  ∀ pos col, pk !! pos = Some col →
    ∃ c1 raw c2 value, clause = c1 +:+ raw +:+ c2 ∧ raw ∈ re_Split andRe clause ∧
      is_term (TrimSpace raw) (col_Name col) value ∧
      key !! pos = Some (if bool_decide (value = "?") then mkKeyTerm "" true (str_count "?" (head +:+ c1))
                         else mkKeyTerm value false 0).

Lemma and_avoids c : c = "?"%char ∨ c = "="%char → re_avoids c andRe.
Proof.
  intros Hc. unfold andRe, re_avoids. cbn [RSeqs foldr RLit re_only spaces1].
  split_and!; try done; intros d Hd ->; revert Hd; destruct Hc as [->| ->]; by vm_compute.
Qed.

(** A text that splits into terms has an equals sign. *)
Lemma clause_equals clause ps :
  mapM term_place (re_Split andRe clause) = Some ps → ps ≠ [] → str_count "=" clause ≠ 0.
Proof.
  intros Hps Hne. destruct ps as [|[pos v] ps]; [done|]. destruct (re_Split andRe clause) as [|raw rest] eqn:Et; [done|].
  apply mapM_Some_1, Forall2_cons_1 in Hps as [Htp _].
  apply term_place_ok in Htp as (sub & _ & _ & _ & [Hc _]%term_counts).
  destruct (split_all_at "=" andRe (and_avoids _ ltac:(by right)) (S (String.length clause)) "" clause 0 raw)
    as (c1 & c2 & Hcl & _).
  { change (re_Split andRe clause !! 0%nat = Some raw). by rewrite Et. }
  rewrite Hcl, !str_count_app. pose proof (str_count_nonneg "=" c1). pose proof (str_count_nonneg "=" c2). lia.
Qed.

Lemma insert_all_length ps : ∀ k : list KeyTerm, length (foldl (λ k p, <[p.1 := first_term p.2]> k) k ps) = length k.
Proof. induction ps as [|p ps IH]; intros k; [done|]. cbn. by rewrite IH, length_insert. Qed.

Lemma place_params_length ps : ∀ base nth k, length (place_params ps base nth k) = length k.
Proof.
  induction ps as [|[pos v] ps IH]; intros base nth k; [done|]. cbn. case_bool_decide; rewrite IH; [|done].
  by rewrite length_alter.
Qed.

(** The term a column gets from the [i]-th term of the predicate. *)
Definition final_term (head : string) (ps : list (nat * string)) (i : nat) (v : string) : KeyTerm :=
  if bool_decide (v = "?") then mkKeyTerm "" true (str_count "?" head + placeholders_in (take i ps))
  else mkKeyTerm v false 0.

Lemma keyFrom_places (Hm : pk_order_ok) head clause tail key :
  str_count "=" tail = 0 → str_count "?" tail = 0 →
  Matcher_keyFrom m (head +:+ clause +:+ tail) clause = Some key →
  ∃ ps, mapM term_place (re_Split andRe clause) = Some ps ∧ NoDup ps.*1 ∧ length ps = length pk ∧
    (∀ pos, pos ∈ ps.*1 → (pos < length pk)%nat) ∧ length key = length pk ∧
    ∀ i pos v, ps !! i = Some (pos, v) → key !! pos = Some (final_term head ps i v).
Proof.
  intros Heq Hq. unfold Matcher_keyFrom.
  destruct (Nat.eqb_spec (length (re_Split andRe clause)) (length pk)) as [Hlen|]; [|done]. cbn [negb].
  destruct (key_terms _ _ _ _ _) as [[key0 params]|] eqn:Ek; [|done]. cbn [mbind option_bind].
  apply (key_terms_places Hm) in Ek as (ps & Hps & Hnd & Hpos & Hkey0 & Hparams); [|by rewrite length_replicate].
  assert (length key0 = length pk) as Hl0 by (rewrite Hkey0, insert_all_length; by rewrite length_replicate).
  assert (∀ i pos v, ps !! i = Some (pos, v) → key0 !! pos = Some (first_term v)) as Hfirst.
  { intros i pos v Hi. rewrite Hkey0. eapply first_terms_lookup; [done|done|]. rewrite length_replicate.
    apply Hpos. apply list_elem_of_lookup_2 in Hi. apply list_elem_of_fmap. by exists (pos, v). }
  intros H. exists ps. split_and!; [done|done|by apply mapM_Some_1, Forall2_length in Hps; lia|by intros; apply Hpos| |].
  - destruct (params =? 0); [by injection H as <-|]. unfold Matcher_placePlaceholders in H.
    destruct (str_LastIndex _ _); [|done]. destruct (negb _); [done|].
    rewrite (place_terms_params _ _ _ _ _ Hps) in H. injection H as <-. by rewrite place_params_length.
  - intros i pos v Hi. destruct (Z.eqb_spec params 0) as [H0|H0].
    + injection H as <-. rewrite (Hfirst _ _ _ Hi). unfold final_term, first_term. case_bool_decide as Hv; [|done].
      exfalso. subst v. assert ((pos, "?") ∈ filter (λ p : nat * string, p.2 = "?") ps) as Hin.
      { apply list_elem_of_filter. split; [done|]. by apply list_elem_of_lookup_2 in Hi. }
      unfold placeholders_in in Hparams. destruct (filter _ ps); [by apply elem_of_nil in Hin|]. cbn in Hparams. lia.
    + unfold Matcher_placePlaceholders in H. rewrite (str_LastIndex_clause "=") in H;
        [|by eapply clause_equals; [done|intros ->; by rewrite Hparams in H0]|done].
      rewrite <-str_length_app, (str_app_assoc head clause tail), str_drop_length_app, Hq, <-str_app_assoc, str_take_length_app in H.
      cbn [negb Z.eqb] in H. rewrite (place_terms_params _ _ _ _ _ Hps) in H. injection H as <-.
      rewrite (place_params_lookup _ _ _ _ _ _ _ _ Hnd Hi (Hfirst _ _ _ Hi)).
      unfold final_term, first_term. case_bool_decide; [|done]. unfold set_param. cbn. do 2 f_equal. lia.
Qed.

Lemma keyFrom_names (Hm : pk_order_ok) head clause tail key :
  str_count "=" tail = 0 → str_count "?" tail = 0 →
  Matcher_keyFrom m (head +:+ clause +:+ tail) clause = Some key → names_key head clause key.
Proof.
  intros Heq Hq (ps & Hps & Hnd & Hlps & Hpos & Hlkey & Hfinal)%(keyFrom_places Hm); [|done..].
  pose proof (mapM_Some_1 _ _ _ Hps) as Hall. pose proof (Forall2_length _ _ _ Hall) as Hlen.
  split_and!; [done|lia|]. intros pos col Hcol.
  assert (pos ∈ ps.*1) as Hin.
  { apply (positions_cover ps.*1 (length pk)); [done|by rewrite length_fmap|done|by apply lookup_lt_Some in Hcol]. }
  apply list_elem_of_lookup_1 in Hin as [i Hi]. rewrite list_lookup_fmap in Hi.
  destruct (ps !! i) as [[pos' v]|] eqn:Ei; [|done]. injection Hi as ->.
  destruct (re_Split andRe clause !! i) as [raw|] eqn:Er.
  2: { apply lookup_ge_None in Er. apply lookup_lt_Some in Ei. lia. }
  destruct (split_all_at "?" andRe (and_avoids _ ltac:(by left)) (S (String.length clause)) "" clause i raw Er)
    as (c1 & c2 & Hcl & Hcount).
  pose proof (Forall2_lookup_lr _ _ _ _ _ _ Hall Er Ei) as Htp.
  apply term_place_ok in Htp as (sub & _ & _ & Hord & Hpart). destruct (Hm _ _ Hord) as (col' & Hcol' & Hname).
  rewrite Hcol in Hcol'. injection Hcol' as <-. exists c1, raw, c2, v. split_and!; [done| | |].
  - by apply list_elem_of_lookup_2 in Er.
  - rewrite Hname. by apply term_parts_ok.
  - rewrite (Hfinal _ _ _ Ei). unfold final_term. rewrite (placeholders_count _ _ i Hps), str_count_app.
    change (split_all _ _ _ _) with (re_Split andRe clause) in Hcount. by rewrite <-Hcount.
Qed.
End keys.

(** ** A matcher of a table *)

Lemma order_from_list (l : list (nat * string)) : ∀ (o : gmap string nat) name pos,
  foldl (λ o x, <[x.2 := x.1]> o) o l !! name = Some pos → (pos, name) ∈ l ∨ o !! name = Some pos.
Proof.
  induction l as [|[p n] l IH]; intros o name pos H; [by right|]. cbn in H.
  apply IH in H as [H|H]; [left; by right|]. destruct (decide (n = name)) as [->|Hne].
  - rewrite lookup_insert_eq in H. injection H as ->. left. by left.
  - rewrite lookup_insert_ne in H by done. by right.
Qed.

Lemma NewMatcher_fields ToLower d whole m : NewMatcher ToLower (Some d) whole = Ok m →
  mt_d m = d ∧ mt_wholeTable m = whole ∧ pk_order_ok m ∧
  mt_pointSelectRe m = RSeq RBegin (RSeqs [select_head (ToLower (d_Name d)); RGroup 2 conjunction; select_tail; REnd]) ∧
  mt_pointWriteRe m = RSeq RBegin (RSeqs [write_head (ToLower (d_Name d)); RGroup 2 conjunction; write_tail; REnd]).
Proof.
  cbn [NewMatcher]. intros [= <-]. split_and!; try done. intros name pos H. cbn in H.
  apply order_from_list in H as [H|H]; [|by rewrite lookup_empty in H].
  apply elem_of_lookup_imap in H as (i & c & [= -> ->] & Hc). by exists c.
Qed.

(** The columns a cache entry can answer. *)
Definition answerable (m : Matcher) (cols : list string) : Prop :=
  cols ≠ [] ∧ Forall (λ c, is_Some (Descriptor_Column (mt_d m) c)) cols ∨
  mt_wholeTable m = true ∧ cols = col_Name <$> d_Columns (mt_d m).

Lemma declared_columns_ok m parts : ∀ out cols,
  declared_columns m parts out = Some cols → Forall (λ c, is_Some (Descriptor_Column (mt_d m) c)) out →
  Forall (λ c, is_Some (Descriptor_Column (mt_d m) c)) cols.
Proof.
  induction parts as [|p parts IH]; intros out cols H Hout; cbn [declared_columns] in H; [by injection H as <-|].
  case_bool_decide; [done|]. destruct (Descriptor_Column _ _) eqn:E; [|done].
  apply IH in H; [done|]. apply Forall_app. split; [done|]. constructor; [by rewrite E|done].
Qed.

Lemma selectedColumns_ok m sel cols : Matcher_selectedColumns m sel = Some cols → answerable m cols.
Proof.
  unfold Matcher_selectedColumns, answerable. case_bool_decide.
  - destruct (mt_wholeTable m); [|done]. intros [= <-]. by right.
  - destruct (declared_columns _ _ _) as [[|c l]|] eqn:E; [done| |done]. intros [= <-]. left. split; [done|].
    by apply (declared_columns_ok _ _ _ _ E).
Qed.

(** The statement around a predicate. *)
Definition point_statement (name : string) (k : Kind) (head clause tail : string) : Prop :=
  let q := head +:+ clause +:+ tail in
  re_match (if decide (k = PointSelect) then select_head name else write_head name) (at_ "" q) (at_ head (clause +:+ tail)) ∧
  re_match (if decide (k = PointSelect) then select_tail else write_tail) (at_ (head +:+ clause) tail) (at_ q "").

Lemma tail_avoids c : c = "?"%char ∨ c = "="%char → re_avoids c select_tail ∧ re_avoids c write_tail.
Proof.
  intros Hc. unfold select_tail, write_tail, re_avoids, ROpt. cbn [RSeqs foldr RLit re_only spaces1 spaces0].
  split_and!; try done; intros d Hd ->; revert Hd; destruct Hc as [->| ->]; by vm_compute.
Qed.

Lemma point_predicate m (Hm : pk_order_ok m) head tail q sub key :
  FindStringSubmatch (RSeq RBegin (RSeqs [head; RGroup 2 conjunction; tail; REnd])) q = Some sub →
  2%nat ∉ re_groups tail → re_avoids "?" tail → re_avoids "=" tail →
  Matcher_keyFrom m q (sub 2%nat) = Some key →
  ∃ h c t, q = h +:+ c +:+ t ∧ re_match head (at_ "" q) (at_ h (c +:+ t)) ∧
    re_match tail (at_ (h +:+ c) t) (at_ q "") ∧ names_key m h c key.
Proof.
  intros Hf Hg Ha1 Ha2 Hk. apply find_anchored in Hf as (h & c & t & -> & Hsub & M1 & _ & M3); [|done].
  exists h, c, t. split_and!; [done..|]. rewrite Hsub in Hk.
  assert (re_match tail (at_ (h +:+ c) (t +:+ "")) (at_ ((h +:+ c) +:+ t) "")) as M3'.
  { by rewrite str_app_nil_r, <-str_app_assoc. }
  apply (keyFrom_names m Hm h c t key);
    [by apply (re_avoids_count _ _ _ _ _ Ha2 M3')|by apply (re_avoids_count _ _ _ _ _ Ha1 M3')|done].
Qed.


(** ** A demonstration *)

(** [strings.ToLower] on ASCII text. *)
Fixpoint ascii_lower (s : string) : string :=
  match s with
  | "" => ""
  | String c s => String (if cl_upper c then byte_of (byte_val c + 32) else c) (ascii_lower s)
  end.

Definition accounts_config : TableConfig :=
  mkTableConfig "accounts" ["id"] "version"
    [mkColumnConfig "id" Uint64 false ""; mkColumnConfig "note" String_ true ""; mkColumnConfig "version" Uint64 false ""].

Definition accounts : Descriptor :=
  match NewDescriptor ascii_lower (λ s, s) accounts_config with Ok d => d | _ => demo_descriptor end.

Definition accounts_matcher : Matcher :=
  match NewMatcher ascii_lower (Some accounts) true with
  | Ok m => m
  | _ => mkMatcher accounts true ∅ REps REps REps REps ""
  end.

Lemma accounts_ok : NewDescriptor ascii_lower (λ s, s) accounts_config = Ok accounts.
Proof. vm_compute. reflexivity. Qed.

Lemma accounts_matcher_ok : NewMatcher ascii_lower (Some accounts) true = Ok accounts_matcher.
Proof. vm_compute. reflexivity. Qed.


