(* ===== verification/RewriteSpec.v ===== *)
(** The rewrite of an UPDATE: the scan that finds its WHERE agrees with a lexer
    that reads one byte at a time, and the splice changes nothing else. *)

From S2P Require Import Prelude GoStd Regexp Schema Proxy ProxySpec.

Local Open Scope Z_scope.

(** ** A lexer of SQL text

    Outside every literal at some depth of parentheses, inside a literal, after
    a backslash in one, or after a byte that closes a literal unless it is
    doubled. *)
Inductive lex :=
  | LCode (depth : Z)
  | LQuoted (quote : ascii) (depth : Z)
  | LEscaped (quote : ascii) (depth : Z)
  | LClosing (quote : ascii) (depth : Z).

Definition is_quote (c : ascii) : bool := is_chars "'`" c || (byte_val c =? 34).

Definition lex_code (depth : Z) (c : ascii) : lex :=
  if is_quote c then LQuoted c depth
  else if Ascii.eqb c "(" then LCode (depth + 1)
  else if Ascii.eqb c ")" then LCode (depth - 1)
  else LCode depth.

Definition lex_step (st : lex) (c : ascii) : lex :=
  match st with
  | LCode d => lex_code d c
  | LQuoted q d =>
      if Ascii.eqb c "\" && negb (Ascii.eqb q "`") then LEscaped q d
      else if Ascii.eqb c q then LClosing q d else LQuoted q d
  | LEscaped q d => LQuoted q d
  | LClosing q d => if Ascii.eqb c q then LQuoted q d else lex_code d c
  end.

(** The depth of a byte that is read as code. *)
Definition code_depth (st : lex) (c : ascii) : option Z :=
  match st with
  | LCode d => Some d
  | LClosing q d => if Ascii.eqb c q then None else Some d
  | LQuoted _ _ | LEscaped _ _ => None
  end.

Definition outside_literals (st : lex) : bool := match st with LCode _ | LClosing _ _ => true | _ => false end.

(** A byte of code that ends the statement or begins a comment. *)
Definition refused (c : ascii) (s : string) : bool :=
  let next := match s with String d _ => Some d | "" => None end in
  Ascii.eqb c ";" || Ascii.eqb c "#" ||
  Ascii.eqb c "-" && bool_decide (next = Some "-"%char) ||
  Ascii.eqb c "/" && bool_decide (next = Some "*"%char).

(** Every WHERE of [q] that stands alone, in code, at depth 0; nothing for a
    text with a comment, a second statement or an open literal. *)
Fixpoint wheres (q s : string) (i : nat) (st : lex) : option (list nat) :=
  match s with
  | "" => if outside_literals st then Some [] else None
  | String c s' =>
      let l := wheres q s' (S i) (lex_step st c) in
      match code_depth st c with
      | None => l
      | Some d => if refused c s' then None
                  else if (d =? 0) && isWhereAt q i then cons i <$> l else l
      end
  end.

Definition combine (found : option nat) (l : list nat) : option nat :=
  match found, l with
  | None, [i] => Some i
  | Some i, [] => Some i
  | _, _ => None
  end.

(** ** Where a WHERE stands *)

Lemma drop_step q i c s : str_drop i q = String c s → str_drop (S i) q = s.
Proof.
  revert q. induction i as [|i IH]; intros q H; destruct q as [|d q]; try done.
  - cbn in *. by injection H as _ ->.
  - cbn [str_drop] in *. by apply IH.
Qed.

(** The five letters of the word. *)
Lemma isWhereAt_letters q i s : str_drop i q = s → isWhereAt q i = true →
  ∃ w h e r e' s', s = String w (String h (String e (String r (String e' s')))) ∧
    is_chars "wW" w = true ∧ Forall (λ c, cl_lower c || cl_upper c = true ∧ is_chars "wW" c = false) [h; e; r; e'].
Proof.
  intros Hs H. unfold isWhereAt in H. rewrite Hs in H. destruct (_ || _) eqn:E; [done|]. clear H Hs.
  apply orb_false_iff in E as [_ E]. apply negb_false_iff in E. revert E. generalize s. clear.
  assert (∀ c d, fold_class c d = true → c ∈ ["w"; "h"; "e"; "r"]%char →
    cl_lower d || cl_upper d = true ∧ (is_chars "wW" d = bool_decide (c = "w"%char))) as Hf.
  { intros c d Hcd Hc. unfold fold_class in Hcd. apply Z.eqb_eq in Hcd.
    assert (byte_val c ∈ [119; 104; 101; 114]) as Hv by (clear Hcd; set_unfold in Hc; destruct Hc as [->|[->|[->|[->|[]]]]]; vm_compute; set_solver).
    unfold cl_lower, cl_upper, in_range, is_chars.
    assert (byte_val d = byte_val c ∨ byte_val d = byte_val c - 32) as Hd.
    { set_unfold in Hv. destruct ((65 <=? byte_val d) && (byte_val d <=? 90)) eqn:E1, ((65 <=? byte_val c) && (byte_val c <=? 90)) eqn:E2; lia. }
    assert (d = c ∨ d = byte_of (byte_val c - 32)) as [->| ->].
    { destruct Hd as [Hd|Hd]; [left; by apply byte_val_inj|right]. by rewrite <-Hd, byte_of_val. }
    all: clear Hcd Hd Hv; set_unfold in Hc; destruct Hc as [->|[->|[->|[->|[]]]]]; vm_compute; done. }
  intros s H. cbn [str_take equal_fold_ascii] in H.
  destruct s as [|w [|h [|e [|r [|e' s]]]]]; cbn in H; rewrite ?andb_false_r in H; try done.
  repeat (apply andb_true_iff in H as [? H]). exists w, h, e, r, e', s. split; [done|].
  split; [by apply (Hf "w"%char w); [done|set_solver]|].
  repeat constructor; first [by apply (Hf "h"%char); [done|set_solver]|by apply (Hf "e"%char); [done|set_solver]|by apply (Hf "r"%char); [done|set_solver]].
Qed.

Lemma not_where q i c s : str_drop i q = String c s → is_chars "wW" c = false → isWhereAt q i = false.
Proof.
  intros Hs Hc. destruct (isWhereAt q i) eqn:E; [|done].
  destruct (isWhereAt_letters _ _ _ Hs E) as (? & ? & ? & ? & ? & ? & [= -> _] & Hw & _). congruence.
Qed.

(** A letter that is no W is read past. *)
Lemma wheres_letter q c s i d :
  str_drop i q = String c s → cl_lower c || cl_upper c = true → is_chars "wW" c = false →
  wheres q (String c s) i (LCode d) = wheres q s (S i) (LCode d).
Proof.
  intros Hd Hl Hw. cbn [wheres code_depth lex_step].
  assert (is_quote c = false ∧ Ascii.eqb c "(" = false ∧ Ascii.eqb c ")" = false ∧ Ascii.eqb c ";" = false ∧
          Ascii.eqb c "#" = false ∧ Ascii.eqb c "-" = false ∧ Ascii.eqb c "/" = false) as (H1 & H2 & H3 & H4 & H5 & H6 & H7).
  { clear Hd. revert Hl. clear Hw. destruct c as [[] [] [] [] [] [] [] []]; vm_compute; intuition congruence. }
  unfold lex_code, refused. rewrite H1, H2, H3, H4, H5, H6, H7. cbn.
  by rewrite (not_where _ _ _ _ Hd Hw), andb_false_r.
Qed.

Lemma wheres_closing q s i quote d :
  (∀ c s', s = String c s' → c ≠ quote) → wheres q s i (LClosing quote d) = wheres q s i (LCode d).
Proof.
  intros H. destruct s as [|c s]; [done|]. specialize (H c s eq_refl). cbn [wheres code_depth lex_step].
  destruct (Ascii.eqb_spec c quote); [done|]. done.
Qed.

Definition scan_ref (q s : string) (i : nat) (st : lex) (found : option nat) : option nat :=
  match wheres q s i st with Some l => combine found l | None => None end.

(** The scan skips bytes it has read; so it does four of a WHERE. *)
Lemma where_scan_skip q c s i k d quote found :
  where_scan q (String c s) i (S k) d quote found = where_scan q s (S i) k d quote found.
Proof. done. Qed.

Lemma where_scan_quoted q n :
  (∀ s i d found, (String.length s < n)%nat → str_drop i q = s →
     where_scan q s i 0 d None found = scan_ref q s i (LCode d) found) →
  ∀ s i d qu found, (String.length s < n)%nat → str_drop i q = s →
     where_scan q s i 0 d (Some qu) found = scan_ref q s i (LQuoted qu d) found.
Proof.
  intros IHcode. induction n as [n IH] using lt_wf_ind; intros s i d qu found Hl Hs.
  assert (∀ s' i', (String.length s' < String.length s)%nat → str_drop i' q = s' →
    where_scan q s' i' 0 d (Some qu) found = scan_ref q s' i' (LQuoted qu d) found) as IHq.
  { intros s' i' Hlt Hd. apply (IH (String.length s)); [lia| |lia|done]. intros. apply IHcode; [lia|done]. }
  destruct s as [|ch s]; [done|]. pose proof (drop_step _ _ _ _ Hs) as Hs1.
  cbn [where_scan]. unfold scan_ref. cbn [wheres code_depth lex_step].
  destruct (Ascii.eqb ch "\" && negb (Ascii.eqb qu "`")).
  { destruct s as [|c2 s]; [done|]. rewrite where_scan_skip. cbn [wheres code_depth lex_step].
    apply IHq; [cbn; lia|by eapply drop_step]. }
  destruct (Ascii.eqb ch qu); [|apply IHq; [cbn; lia|done]].
  case_bool_decide as Hnext.
  - destruct s as [|c2 s]; [done|]. injection Hnext as ->. rewrite where_scan_skip. cbn [wheres code_depth lex_step].
    rewrite Ascii.eqb_refl. apply IHq; [cbn; lia|by eapply drop_step].
  - rewrite wheres_closing by (intros c s' -> ->; by apply Hnext).
    apply IHcode; [cbn in *; lia|done].
Qed.

Lemma where_scan_ref q : ∀ n s i d found, (String.length s < n)%nat → str_drop i q = s →
  where_scan q s i 0 d None found = scan_ref q s i (LCode d) found.
Proof.
  intros n. induction n as [n IH] using lt_wf_ind; intros s i d found Hl Hs.
  destruct s as [|ch s]; [by destruct found|]. pose proof (drop_step _ _ _ _ Hs) as Hs1.
  assert (∀ s' i' d' found', (String.length s' < S (String.length s))%nat → str_drop i' q = s' →
    where_scan q s' i' 0 d' None found' = scan_ref q s' i' (LCode d') found') as IH'.
  { intros s' i' d' found' Hlt Hd. by apply (IH (S (String.length s))); [cbn in Hl; lia|lia|]. }
  cbn [where_scan]. unfold scan_ref. cbn [wheres code_depth lex_step]. unfold lex_code, refused. fold (is_quote ch).
  destruct (is_quote ch) eqn:Hq.
  { assert (is_chars "wW" ch = false ∧ Ascii.eqb ch ";" = false ∧ Ascii.eqb ch "#" = false ∧ Ascii.eqb ch "-" = false ∧
            Ascii.eqb ch "/" = false) as (Hw & H1 & H2 & H3 & H4).
    { revert Hq. clear. destruct ch as [[] [] [] [] [] [] [] []]; by vm_compute. }
    rewrite (not_where _ _ _ _ Hs Hw), H1, H2, H3, H4, andb_false_r. cbn [orb andb].
    apply (where_scan_quoted q (S (String.length s))); [|lia|done]. intros. by apply IH'. }
  destruct (Ascii.eqb_spec ch "(") as [->|_].
  { rewrite (not_where _ _ _ _ Hs eq_refl), andb_false_r. apply IH'; [lia|done]. }
  destruct (Ascii.eqb_spec ch ")") as [->|_].
  { rewrite (not_where _ _ _ _ Hs eq_refl), andb_false_r. apply IH'; [lia|done]. }
  destruct (Ascii.eqb ch ";"); [done|]. destruct (Ascii.eqb ch "#"); [done|]. cbn [orb].
  destruct (Ascii.eqb ch "-" && _); [done|]. destruct (Ascii.eqb ch "/" && _); [done|]. cbn [orb].
  destruct (d =? 0) eqn:Ed; [|apply IH'; [lia|done]]. apply Z.eqb_eq in Ed. subst d. cbn [andb].
  destruct (isWhereAt q i) eqn:Ew; [|rewrite andb_false_r; apply IH'; [lia|done]].
  destruct (isWhereAt_letters _ _ _ Hs Ew) as (w & h & e & r & e' & s' & [= -> ->] & Hw & Hf).
  rewrite Hw. cbn [andb].
  inversion_clear Hf as [|? ? [Hh1 Hh2] Hf1]. inversion_clear Hf1 as [|? ? [He1 He2] Hf2].
  inversion_clear Hf2 as [|? ? [Hr1 Hr2] Hf3]. inversion_clear Hf3 as [|? ? [Hx1 Hx2] _].
  pose proof (drop_step _ _ _ _ Hs1) as Hs2. pose proof (drop_step _ _ _ _ Hs2) as Hs3.
  pose proof (drop_step _ _ _ _ Hs3) as Hs4. pose proof (drop_step _ _ _ _ Hs4) as Hs5.
  rewrite (wheres_letter _ _ _ _ _ Hs1), (wheres_letter _ _ _ _ _ Hs2), (wheres_letter _ _ _ _ _ Hs3),
    (wheres_letter _ _ _ _ _ Hs4) by done.
  destruct found as [f|].
  - by destruct (wheres q s' _ _).
  - assert (where_scan q s' (S (S (S (S (S i))))) 0 0 None (Some i) = scan_ref q s' (S (S (S (S (S i))))) (LCode 0) (Some i)) as Hr.
    { apply IH'; [clear; cbn [String.length]; lia|exact Hs5]. }
    rewrite 4!where_scan_skip, Hr. unfold scan_ref.
    destruct (wheres q s' _ _) as [l|]; [|done]. by destruct l.
Qed.

(** The scan for a statement's WHERE agrees with the lexer: it answers
    exactly for a text that ends outside every literal, holds no comment and no
    second statement in its code, and has one WHERE at depth 0 outside literals,
    and answers where that one stands. *)
Theorem topLevelWhere_lexes q i :
  topLevelWhere q = Some i ↔ wheres q q 0 (LCode 0) = Some [i].
Proof.
  unfold topLevelWhere. rewrite (where_scan_ref q (S (String.length q))) by (done || lia).
  unfold scan_ref. destruct (wheres q q 0 (LCode 0)) as [[|j [|k l]]|]; cbn; split; congruence.
Qed.

(** ** The splice *)

Lemma str_rev_Forall P s : ∀ acc, str_Forall P (str_rev s acc) ↔ str_Forall P s ∧ str_Forall P acc.
Proof. induction s as [|c s IH]; intros acc; cbn; [tauto|]. rewrite IH. cbn. tauto. Qed.

Lemma trim_left_split set s : ∃ blanks, s = blanks +:+ trim_left_set set s ∧ str_Forall (λ c, set c = true) blanks.
Proof.
  induction s as [|c s (b & Hb & HF)]; [by exists ""|]. cbn [trim_left_set]. destruct (set c) eqn:E; [|by exists ""].
  exists (String c b). split; [by rewrite str_app_cons, <-Hb|done].
Qed.

Lemma trim_right_split set s : ∃ blanks, s = trim_right_set set s +:+ blanks ∧ str_Forall (λ c, set c = true) blanks.
Proof.
  unfold trim_right_set. destruct (trim_left_split set (str_rev s "")) as (b & Hb & HF). exists (str_rev b ""). split.
  - rewrite <-(str_rev_involutive s) at 1. rewrite Hb at 1. rewrite str_rev_app. by rewrite str_rev_acc.
  - apply str_rev_Forall. done.
Qed.

Lemma wheres_bound q s : ∀ i st l, wheres q s i st = Some l → Forall (λ j, (j < i + String.length s)%nat) l.
Proof.
  induction s as [|c s IH]; intros i st l H; cbn [wheres] in H.
  { destruct (outside_literals st); [|done]. injection H as <-. constructor. }
  assert (∀ l, wheres q s (S i) (lex_step st c) = Some l → Forall (λ j, (j < i + S (String.length s))%nat) l) as H'.
  { intros l' Hl. eapply Forall_impl; [by eapply IH|]. intros j Hj. cbn beta in *. lia. }
  cbn [String.length]. destruct (code_depth st c); [|by apply H']. destruct (refused c s); [done|].
  destruct (_ && _); [|by apply H']. destruct (wheres q s (S i) (lex_step st c)) as [l'|]; [|done].
  injection H as <-. constructor; [lia|by apply H'].
Qed.

Lemma str_take_drop n s : str_take n s +:+ str_drop n s = s.
Proof. revert s. induction n as [|n IH]; intros [|c s]; try done. cbn [str_take str_drop]. by rewrite str_app_cons, IH. Qed.

Lemma str_take_len n s : (n ≤ String.length s)%nat → String.length (str_take n s) = n.
Proof. revert s. induction n as [|n IH]; intros [|c s] H; cbn in *; try lia. by rewrite IH by lia. Qed.

(** An identifier holds no placeholder, and so no splice does. *)
Lemma quoted_no_placeholder c : validIdentifier (col_Name c) = true → str_count "?" (Column_Quoted c) = 0.
Proof.
  intros Hv%ident_chars. unfold Column_Quoted, quote. rewrite !str_count_app. cbn [str_count].
  assert (str_count "?" (double_backticks (col_Name c)) = 0) as ->; [|done]. revert Hv. generalize (col_Name c).
  induction s as [|d s IH]; [done|]. cbn [str_all double_backticks]. intros [Hd Hs]%andb_true_iff.
  assert (Ascii.eqb "?" d = false) as Hq.
  { destruct (Ascii.eqb_spec "?" d) as [<-|]; [|done]. by vm_compute in Hd. }
  destruct (byte_val d =? 96); cbn [str_count]; rewrite Hq, IH by done; done.
Qed.

(** C27: the rewrite of an UPDATE keeps it as written but for one assignment in
    front of the WHERE that is the statement's own: the predicate is kept to
    the byte, and every placeholder keeps its index, so the arguments of a
    prepared statement bind as they were sent.  A statement left alone is a
    DELETE or already assigns the version column. *)
Theorem rewrite_splices ToLower sha cfg d whole m query q' :
  NewDescriptor ToLower sha cfg = Ok d → NewMatcher ToLower (Some d) whole = Ok m →
  Matcher_rewriteWithVersionBump m query = Some q' →
  let trimmed := TrimSuffix (TrimSpace query) ";" in
  q' = TrimSpace query ∧
    (MatchString deletePrefixRe trimmed = true ∨
     ∃ i, topLevelWhere trimmed = Some i ∧ MatchString (mt_versionAssign m) (str_take i trimmed) = true) ∨
  ∃ sets blanks clause,
    trimmed = sets +:+ blanks +:+ clause ∧ str_Forall (λ c, isSpace c = true) blanks ∧
    wheres trimmed trimmed 0 (LCode 0) = Some [String.length (sets +:+ blanks)] ∧
    q' = sets +:+ (", " +:+ Column_Quoted (d_VersionColumn d) +:+ " = " +:+ Column_Quoted (d_VersionColumn d) +:+ " + 1 ") +:+ clause ∧
    str_count "?" (", " +:+ Column_Quoted (d_VersionColumn d) +:+ " = " +:+ Column_Quoted (d_VersionColumn d) +:+ " + 1 ") = 0 ∧
    str_count "?" blanks = 0.
Proof.
  intros Hd Hm. cbn [NewMatcher] in Hm. injection Hm as <-. unfold Matcher_rewriteWithVersionBump.
  set (trimmed := TrimSuffix (TrimSpace query) ";"). cbn [mt_d mt_versionAssign].
  destruct (MatchString deletePrefixRe trimmed) eqn:Edel; [intros [= <-]; left; tauto|].
  destruct (MatchString updatePrefixRe trimmed); [|done]. cbn [negb].
  destruct (topLevelWhere trimmed) as [i|] eqn:Ew; [|done]. cbn [mbind option_bind].
  destruct (MatchString (versionAssignPattern _ _) (str_take i trimmed)) eqn:Ea; [intros [= <-]; left; eauto|].
  intros [= <-]. right.
  assert (wheres trimmed trimmed 0 (LCode 0) = Some [i]) as Hw.
  { revert Ew. unfold topLevelWhere. rewrite (where_scan_ref trimmed (S (String.length trimmed))) by (done || lia).
    unfold scan_ref. destruct (wheres trimmed trimmed 0 (LCode 0)) as [[|j [|k l]]|]; cbn; congruence. }
  pose proof (wheres_bound _ _ _ _ _ Hw) as Hi. apply Forall_cons in Hi as [Hi _]. cbn beta in Hi.
  destruct (trim_right_split (λ c, isSpace c) (str_take i trimmed)) as (blanks & Hb & HF).
  exists (trim_right_set (λ c, isSpace c) (str_take i trimmed)), blanks, (str_drop i trimmed).
  pose proof (descriptor_wf _ _ _ _ Hd) as (_ & _ & _ & Hcols & _ & _ & _ & _ & Hv & _).
  rewrite Forall_forall in Hcols. destruct (Hcols _ Hv) as (_ & Hvalid & _).
  split_and!.
  - by rewrite str_app_assoc, <-Hb, str_take_drop.
  - done.
  - rewrite <-Hb, str_take_len by lia. exact Hw.
  - unfold Column_Quoted, quote. by rewrite <-!str_app_assoc.
  - rewrite !str_count_app, !(quoted_no_placeholder _ Hvalid). done.
  - apply str_count_none. clear -HF. induction blanks as [|c s IH]; [done|]. destruct HF as [Hc Hs]. split; [|by apply IH].
    intros ->. by vm_compute in Hc.
Qed.

Lemma rewrite_splices_witness :
  let q := "UPDATE accounts SET note = 'where id = 1' WHERE id = 42;" in
  ∃ q', Matcher_rewriteWithVersionBump accounts_matcher q = Some q' ∧
    ∃ sets blanks clause, TrimSuffix (TrimSpace q) ";" = sets +:+ blanks +:+ clause.
Proof.
  intros q. eexists. split; [vm_compute; reflexivity|].
  destruct (rewrite_splices ascii_lower (λ s, s) accounts_config accounts true accounts_matcher q
    "UPDATE accounts SET note = 'where id = 1', `version` = `version` + 1 WHERE id = 42"
    accounts_ok accounts_matcher_ok ltac:(vm_compute; reflexivity)) as [(Hq & _)|(s & b & c & Ht & _)].
  - exfalso. vm_compute in Hq. discriminate.
  - by exists s, b, c.
Defined.
