(* ===== verification/ProxyServer.v ===== *)
(** A connection of the proxy: [src/internal/proxy/server.go].

    The driver's connection to the upstream database and its result sets are not
    part of the source: [Upstream] is what the handlers call of them, on the
    state [W] of everything outside the connection.  [api_Get] and [tombstone]
    are the engine's Get and the cache client's Tombstone on that state. *)

From S2P Require Import Prelude GoStd Consistency Schema EngineApi Proxy.

Local Open Scope Z_scope.

(** The values the wire encoder takes. *)
Inductive wire_value := VNull | VUint (u : Z) | VInt (i : Z) | VBytes (b : option string).

(** [up_first]: the first value of a result as an unsigned integer, when the
    result has rows. *)
Class Upstream (W Res Stmt : Type) := {
  up_Execute : string → list wire_arg → M W Res;
  up_Prepare : string → M W Stmt;
  up_ParamNum : Stmt → Z;
  up_ColumnNum : Stmt → Z;
  up_StmtExecute : Stmt → list wire_arg → M W Res;
  up_StmtClose : Stmt → M W unit;
  up_first : Res → option Z;
  BuildSimpleResultset : list string → list (list wire_value) → bool → result Res;
}.

Inductive OpaqueWritePolicy := RefuseOpaqueWrites | ForwardOpaqueWrites.
#[export] Instance policy_eq_dec : EqDecision OpaqueWritePolicy.
Proof. solve_decision. Defined.

(** The options of [New]; of the pointers and interfaces, whether they are
    given. *)
Record proxy_Options := mkProxyOptions {
  po_Listen : string;
  po_UpstreamAddr : string;
  po_Table : option Descriptor;
  po_WholeTable : bool;
  po_Engine : bool;
  po_Cache : bool;
  po_OpaqueWrites : OpaqueWritePolicy;
}.

Record Server := mkServer { sv_opts : proxy_Options; sv_table : Descriptor; sv_matcher : Matcher }.

(** [New], up to binding the listener, whose outcome is an argument. *)
Definition proxy_New (ToLower : string → string) (opts : proxy_Options) (listen : result unit) : result Server :=
  if negb (po_Engine opts) then Err (Errorf "proxy: no engine")
  else if negb (po_Cache opts) then Err (Errorf "proxy: no cache client")
  else
    match po_Table opts with
    | None => Err (Errorf "proxy: no cached table")
    | Some d =>
        if bool_decide (po_UpstreamAddr opts = "") then Err (Errorf "proxy: no upstream address")
        else
          matcher ← NewMatcher ToLower (po_Table opts) (po_WholeTable opts);
          match listen with
          | Err e => Err (Wrapf "proxy: listen" e)
          | Panic p => Panic p
          | Ok _ => Ok (mkServer opts d matcher)
          end
    end.

(** A connection and the world it acts on. *)
Record ConnW (W : Type) := mkConnW { cn_world : W; cn_inTx : bool; cn_session : SessionToken }.
Arguments mkConnW {W} _ _ _.
Arguments cn_world {W} _.
Arguments cn_inTx {W} _.
Arguments cn_session {W} _.

(** [prepared]: the statement and what was decided about it. *)
Record prepared (Stmt : Type) := mkPrepared { pp_stmt : Stmt; pp_plan : Plan }.
Arguments mkPrepared {Stmt} _ _.
Arguments pp_stmt {Stmt} _.
Arguments pp_plan {Stmt} _.

Definition firstWords (q : string) : string :=
  if 80 <? str_len q then str_take 80 q +:+ "…" else q.

(** The value of a cached column as the wire encoder expects it; [None] is the
    false of the source. *)
Definition columnValue (col : Column) (v : v2_Value) : option wire_value :=
  if pv_IsNull v then if negb (col_Nullable col) then None else Some VNull
  else
    let text := default "" (pv_Data v) in
    match col_Type col with
    | Uint8 | Uint32 | Uint64 => match ParseUint text 64 with Ok u => Some (VUint u) | _ => None end
    | Int64 => match ParseInt text with Ok i => Some (VInt i) | _ => None end
    | String_ | Bytes_ | Text => Some (VBytes (pv_Data v))
    | OtherType _ => None
    end.

Section conn.

Context {W Res Stmt : Type} `{Upstream W Res Stmt}.
Context {PbDuration : Type}.
Context (api_Get : @GetRequest PbDuration → M W (reply (@v2_GetResponse PbDuration))) (tombstone : string → Z → M W bool).
Context (ToLower : string → string) (srv : Server).

Notation CW := (ConnW W).
Notation m := (sv_matcher srv).

Definition outside {A} (f : M W A) : M CW A := λ c,
  let '(r, w) := f (cn_world c) in (r, mkConnW w (cn_inTx c) (cn_session c)).
Definition set_inTx (b : bool) : M CW unit := M_modify (λ c, mkConnW (cn_world c) b (cn_session c)).
Definition set_session (s : SessionToken) : M CW unit := M_modify (λ c, mkConnW (cn_world c) (cn_inTx c) s).

(** The row of a result: the columns asked for, by index.  [None] is
    [served=false]. *)
Fixpoint answer_columns (names : list string) (values : list v2_Value) : result (option (list wire_value)) :=
  match names with
  | [] => Ok (Some [])
  | name :: names =>
      match Descriptor_Column (sv_table srv) name with
      | None => Ok None
      | Some col =>
          match values !! Z.to_nat (col_Index col) with
          | None => Panic "runtime error: index out of range"
          | Some v =>
              match columnValue col v with
              | None => Ok None
              | Some x =>
                  rest ← answer_columns names values;
                  Ok (match rest with Some row => Some (x :: row) | None => None end)
              end
          end
      end
  end.

(** [cachedRead]; [None] is [served=false]. *)
Definition conn_cachedRead (key : Key) (plan : Plan) (binary : bool) : M CW (option Res) :=
  c ← M_get;
  r ← outside (api_Get (mkGetRequest (Key_String key) (Level_Proto Session) None (cn_session c)));
  match r with
  | inr _ => M_fail (Errorf "rpc error")
  | inl resp =>
      set_session (g2_Session resp);;
      if negb (g2_Found resp) then rs ← M_lift (BuildSimpleResultset (pl_Columns plan) [] binary); mret (Some rs)
      else
        let values := default [] (g2_Row resp) in
        if negb (length values =? length (d_Columns (sv_table srv)))%nat then mret None
        else
          row ← M_lift (answer_columns (pl_Columns plan) values);
          match row with
          | None => mret None
          | Some row => rs ← M_lift (BuildSimpleResultset (pl_Columns plan) [row] binary); mret (Some rs)
          end
  end.

Definition conn_rowVersion (key : Key) : M CW Z :=
  r ← outside (up_Execute (mt_versionStmt m) (WString <$> key_Values key));
  mret (default 0 (up_first r)).

Definition conn_invalidate (key : string) (version : Z) : M CW unit :=
  outside (tombstone key version);; mret tt.

(** What a point write does around the statement that writes, [execute]. *)
Definition conn_write_around (key : Key) (execute : M CW Res) : M CW Res :=
  before ← conn_rowVersion key;
  res ← execute;
  M_try (conn_invalidate (Key_String key) (u64 (before + 1)));;
  mret res.

Definition conn_pointWrite (query : string) (key : Key) : M CW Res :=
  match Matcher_rewriteWithVersionBump m query with
  | None => M_fail (Errorf ("cachet proxy: could not maintain the version column for: " +:+ firstWords query))
  | Some rewritten => conn_write_around key (outside (up_Execute rewritten []))
  end.

Definition refuse_opaque {A} (query : string) : M CW A :=
  M_fail (Errorf ("cachet proxy: refusing a write to " +:+ d_Name (sv_table srv) +:+
                  " it cannot resolve to specific rows: " +:+ firstWords query)).

(** A point select: from the cache outside a transaction, else [forward]. *)
Definition conn_read_or (key : option Key) (plan : Plan) (binary : bool) (forward : M CW Res) : M CW Res :=
  c ← M_get;
  if cn_inTx c then forward
  else
    match key with
    | None => forward
    | Some key =>
        r ← M_try (conn_cachedRead key plan binary);
        match r with
        | inl (Some res) => mret res
        | inl None | inr _ => forward
        end
    end.

Definition conn_HandleQuery (query : string) : M CW Res :=
  let plan := Matcher_Classify ToLower m query in
  let forward := outside (up_Execute query []) in
  (if pl_BeginsTransaction plan then set_inTx true
   else if pl_EndsTransaction plan then set_inTx false else mret tt);;
  match pl_Kind plan with
  | PointSelect => conn_read_or (Matcher_Key m plan []) plan false forward
  | PointWrite =>
      match Matcher_Key m plan [] with
      | None => forward
      | Some key => conn_pointWrite query key
      end
  | OpaqueWrite =>
      if bool_decide (po_OpaqueWrites (sv_opts srv) = RefuseOpaqueWrites) then refuse_opaque query else forward
  | Passthrough => forward
  end.

Definition conn_HandleStmtPrepare (query : string) : M CW (Z * Z * prepared Stmt) :=
  let plan := Matcher_Classify ToLower m query in
  upstreamSQL ← match pl_Kind plan with
                | OpaqueWrite =>
                    if bool_decide (po_OpaqueWrites (sv_opts srv) = RefuseOpaqueWrites) then refuse_opaque query
                    else mret query
                | PointWrite =>
                    match Matcher_rewriteWithVersionBump m query with
                    | None => M_fail (Errorf ("cachet proxy: could not maintain the version column for: " +:+ firstWords query))
                    | Some rewritten => mret rewritten
                    end
                | _ => mret query
                end;
  stmt ← outside (up_Prepare upstreamSQL);
  mret (up_ParamNum stmt, up_ColumnNum stmt, mkPrepared stmt plan).

Definition conn_executePreparedWrite (p : prepared Stmt) (args : list wire_arg) (key : Key) : M CW Res :=
  conn_write_around key (outside (up_StmtExecute (pp_stmt p) args)).

(** [ctx] is a [*prepared] unless the driver hands back something else. *)
Definition conn_HandleStmtExecute (ctx : option (prepared Stmt)) (args : list wire_arg) : M CW Res :=
  match ctx with
  | None => M_fail (Errorf "cachet proxy: unknown prepared statement")
  | Some p =>
      let key := Matcher_Key m (pp_plan p) args in
      let forward := outside (up_StmtExecute (pp_stmt p) args) in
      match pl_Kind (pp_plan p) with
      | PointSelect => conn_read_or key (pp_plan p) true forward
      | PointWrite => match key with Some key => conn_executePreparedWrite p args key | None => forward end
      | _ => forward
      end
  end.

Definition conn_HandleStmtClose (ctx : option (prepared Stmt)) : M CW unit :=
  match ctx with None => mret tt | Some p => outside (up_StmtClose (pp_stmt p)) end.

Definition conn_HandleOtherCommand (cmd : Z) : error :=
  Errorf ("cachet proxy: command " +:+ FormatInt cmd +:+ " is not supported").

End conn.
