(* ===== verification/ConnSpec.v ===== *)
(** What a connection of the proxy guarantees, with the demonstration table its
    examples run on, and where it falls short: the read inside a transaction it
    does not recognise, the row an assignment's text can name, the writes its
    session does not remember, and the race its tombstone loses. *)

From S2P Require Import Prelude GoStd Consistency LuaCache Regexp Schema EngineApi Proxy ProxySpec RewriteSpec ProxyServer.

Local Open Scope Z_scope.

Section conn.
Context {W Res Stmt : Type} `{Upstream W Res Stmt}.
Context {PbDuration : Type}.
Context (api_Get : @GetRequest PbDuration → M W (reply (@v2_GetResponse PbDuration))) (tombstone : string → Z → M W bool).
Context (ToLower : string → string) (srv : Server).

Notation HandleQuery := (conn_HandleQuery api_Get tombstone ToLower srv).
Notation plan_of q := (Matcher_Classify ToLower (sv_matcher srv) q).
Notation row_version k := (up_Execute (mt_versionStmt (sv_matcher srv)) (WString <$> key_Values k)).

Lemma outside_run {A} (f : M W A) c : outside f c = ((f (cn_world c)).1, mkConnW (f (cn_world c)).2 (cn_inTx c) (cn_session c)).
Proof. unfold outside. by destruct (f (cn_world c)). Qed.

Lemma Classify_kind_tx q : pl_Kind (plan_of q) ≠ Passthrough →
  pl_BeginsTransaction (plan_of q) = false ∧ pl_EndsTransaction (plan_of q) = false.
Proof.
  unfold Matcher_Classify. repeat (case_match; try done).
Qed.

(** The flags change only for a statement that is forwarded. *)
Lemma tx_flags q (c : ConnW W) : pl_Kind (plan_of q) ≠ Passthrough →
  (if pl_BeginsTransaction (plan_of q) then set_inTx true
   else if pl_EndsTransaction (plan_of q) then set_inTx false else mret tt) c = (Ok tt, c).
Proof. intros (-> & ->)%Classify_kind_tx. done. Qed.

(** A write of one row as it should go, from the world in which the version was
    read: the statement, and only once it has run the tombstone at the next
    version, whose failure is not the answer. *)
Definition write_run (key : Key) (rewritten : string) (before : Z) (c : ConnW W) (w1 : W) : result Res * ConnW W :=
  let conn w := mkConnW w (cn_inTx c) (cn_session c) in
  match up_Execute rewritten [] w1 with
  | (Ok res, w2) =>
      let '(rt, w3) := tombstone (Key_String key) (u64 (before + 1)) w2 in
      (match rt with Panic why => Panic why | _ => Ok res end, conn w3)
  | (Err e, w2) => (Err e, conn w2)
  | (Panic why, w2) => (Panic why, conn w2)
  end.

(** C36: a write of one row through the proxy reads the row's version, runs the
    rewritten statement, and invalidates the row at the next version.  A failed
    write is reported and invalidates nothing; once the statement has run its
    result is the answer, whatever became of the invalidation; and the
    connection's session never learns of the write. *)
Theorem HandleQuery_write q key rewritten (c : ConnW W) r0 w1 :
  let p := plan_of q in
  pl_Kind p = PointWrite → Matcher_Key (sv_matcher srv) p [] = Some key →
  Matcher_rewriteWithVersionBump (sv_matcher srv) q = Some rewritten →
  row_version key (cn_world c) = (Ok r0, w1) →
  HandleQuery q c = write_run key rewritten (default 0 (up_first r0)) c w1 ∧
  cn_session (HandleQuery q c).2 = cn_session c.
Proof.
  intros p Hk Hkey Hrw Hv. subst p. set (before := default 0 (up_first r0)).
  assert (HandleQuery q c = write_run key rewritten before c w1) as Hrun.
  2: { split; [exact Hrun|]. rewrite Hrun. unfold write_run. destruct (up_Execute rewritten [] w1) as [[]]; [|done..].
       by destruct (tombstone _ _ _) as [[]]. }
  unfold conn_HandleQuery, write_run.
  rewrite (M_bind_run _ _ c tt c) by (apply tx_flags; by rewrite Hk). rewrite Hk, Hkey.
  unfold conn_pointWrite, conn_write_around, conn_rowVersion. rewrite Hrw.
  assert (outside (row_version key) c = (Ok r0, mkConnW w1 (cn_inTx c) (cn_session c))) as Hr.
  { by rewrite outside_run, Hv. }
  rewrite (M_bind_run _ _ c before (mkConnW w1 (cn_inTx c) (cn_session c))) by (by rewrite (M_bind_run _ _ _ _ _ Hr)).
  destruct (up_Execute rewritten [] w1) as [[res|e|why] w2] eqn:Ex.
  - rewrite (M_bind_run _ _ _ res (mkConnW w2 (cn_inTx c) (cn_session c))) by (by rewrite outside_run; cbn; rewrite Ex).
    unfold conn_invalidate. destruct (tombstone _ _ w2) as [rt w3] eqn:Et.
    unfold mbind, M_bind, M_try, outside, mret, M_ret. cbn [cn_world cn_inTx cn_session]. rewrite Et. by destruct rt.
  - by rewrite (M_bind_err _ _ _ e (mkConnW w2 (cn_inTx c) (cn_session c))) by (by rewrite outside_run; cbn; rewrite Ex).
  - by rewrite (M_bind_panic _ _ _ why (mkConnW w2 (cn_inTx c) (cn_session c))) by (by rewrite outside_run; cbn; rewrite Ex).
Qed.

(** What a served row holds. *)
Definition row_answers (names : list string) (values : list v2_Value) (row : list wire_value) : Prop :=
  Forall2 (λ name x, ∃ col v, Descriptor_Column (sv_table srv) name = Some col ∧
             values !! Z.to_nat (col_Index col) = Some v ∧ columnValue col v = Some x) names row.

Lemma answer_columns_ok names values row : answer_columns srv names values = Ok (Some row) → row_answers names values row.
Proof.
  revert row. induction names as [|name names IH]; intros row Ha; cbn [answer_columns] in Ha.
  { injection Ha as <-. constructor. }
  destruct (Descriptor_Column _ _) as [col|] eqn:Ec; [|done]. destruct (values !! _) as [v|] eqn:Ev; [|done].
  destruct (columnValue col v) as [x|] eqn:Ex; [|done].
  apply result_bind_ok in Ha as ([rest|] & Hr & [= <-]). constructor; [by exists col, v|by apply IH].
Qed.

(** What the read of one row comes to: its own answer, or the statement
    forwarded from some world. *)
Inductive read_outcome (q : string) (key : Key) (c : ConnW W) : result Res * ConnW W → Prop :=
  | ReadForwarded w s : read_outcome q key c (outside (up_Execute q []) (mkConnW w (cn_inTx c) s))
  | ReadServed resp w row res :
      cn_inTx c = false →
      api_Get (mkGetRequest (Key_String key) (Level_Proto Session) None (cn_session c)) (cn_world c) = (Ok (inl resp), w) →
      g2_Found resp = true → length (default [] (g2_Row resp)) = length (d_Columns (sv_table srv)) →
      row_answers (pl_Columns (plan_of q)) (default [] (g2_Row resp)) row →
      BuildSimpleResultset (pl_Columns (plan_of q)) [row] false = Ok res →
      read_outcome q key c (Ok res, mkConnW w false (g2_Session resp))
  | ReadAbsent resp w res :
      cn_inTx c = false →
      api_Get (mkGetRequest (Key_String key) (Level_Proto Session) None (cn_session c)) (cn_world c) = (Ok (inl resp), w) →
      g2_Found resp = false → BuildSimpleResultset (pl_Columns (plan_of q)) [] false = Ok res →
      read_outcome q key c (Ok res, mkConnW w false (g2_Session resp))
  | ReadPanic why c' : read_outcome q key c (Panic why, c').


(** Unless the deployment chose to forward them, a write that the proxy
    cannot pin to one row is refused, by text and by preparation alike, before
    anything reaches the database or the cache. *)
Theorem HandleQuery_refuses q (c : ConnW W) :
  po_OpaqueWrites (sv_opts srv) = RefuseOpaqueWrites → pl_Kind (plan_of q) = OpaqueWrite →
  (∃ e, HandleQuery q c = (Err e, c)) ∧ (∃ e, conn_HandleStmtPrepare ToLower srv q c = (Err e, c)).
Proof.
  intros Ho Hk. split; eexists.
  - unfold conn_HandleQuery. rewrite (M_bind_run _ _ c tt c) by (apply tx_flags; by rewrite Hk).
    by rewrite Hk, Ho, bool_decide_eq_true_2.
  - unfold conn_HandleStmtPrepare. rewrite Hk, Ho, bool_decide_eq_true_2 by done. by erewrite M_bind_err.
Qed.

End conn.

(** ** A demonstration *)

Definition accounts_server : Server :=
  mkServer (mkProxyOptions "" "db:3306" (Some accounts) true true true RefuseOpaqueWrites) accounts accounts_matcher.

(** A database of one row's version, the cell of that row in the cache, and the
    statements the database ran. *)
Record demo_db := mkDemo { dm_version : Z; dm_cell : cell; dm_ran : list string }.

#[local] Instance demo_upstream : Upstream demo_db (option Z) string := {
  up_Execute stmt args db :=
    if bool_decide (stmt = mt_versionStmt accounts_matcher) then (Ok (Some (dm_version db)), db)
    else (Ok None, mkDemo (dm_version db + 1) (dm_cell db) (dm_ran db ++ [stmt]));
  up_Prepare stmt db := (Ok stmt, db);
  up_ParamNum stmt := str_count "?" stmt;
  up_ColumnNum stmt := 0;
  up_StmtExecute stmt args db := (Ok None, mkDemo (dm_version db + 1) (dm_cell db) (dm_ran db ++ [stmt]));
  up_StmtClose stmt db := (Ok tt, db);
  up_first r := r;
  BuildSimpleResultset names rows binary := Ok (Some (Z.of_nat (length rows)));
}.

Definition demo_tombstone (key : string) (v : Z) : M demo_db bool := λ db,
  (Ok (tombstone_wins v (dm_cell db)), mkDemo (dm_version db) (cell_tombstone v (dm_cell db)) (dm_ran db)).

(** The engine answers with the row it has. *)
Definition demo_Get (req : @GetRequest unit) : M demo_db (reply (@v2_GetResponse unit)) := λ db,
  (Ok (inl (mkv2GetResponse true
              (Some [mkv2Value false (Some "42"); mkv2Value true None; mkv2Value false (Some (FormatUint (dm_version db)))])
              (mkReadMeta 0 false "" false (dm_version db) 0 None) (Some {["s1" := dm_version db]}))), db).

Definition demo_conn : ConnW demo_db := mkConnW (mkDemo 7 cell_empty []) false None.

Lemma HandleQuery_write_witness :
  conn_HandleQuery demo_Get demo_tombstone ascii_lower accounts_server "update accounts set note = 'x' where id = 42" demo_conn =
    (Ok None, mkConnW (mkDemo 8 (mkCell (Some 8) None) ["update accounts set note = 'x', `version` = `version` + 1 where id = 42"]) false None).
Proof.
  pose proof (HandleQuery_write demo_Get demo_tombstone ascii_lower accounts_server
    "update accounts set note = 'x' where id = 42" (mkKey "accounts" ["42"])
    "update accounts set note = 'x', `version` = `version` + 1 where id = 42" demo_conn (Some 7) (cn_world demo_conn)) as H.
  destruct H as [H _]; [vm_compute; reflexivity..|]. rewrite H. vm_compute. reflexivity.
Defined.


Lemma HandleQuery_refuses_witness :
  ∃ e, conn_HandleQuery demo_Get demo_tombstone ascii_lower accounts_server "UPDATE accounts SET note = 'x' WHERE id > 3" demo_conn = (Err e, demo_conn).
Proof.
  exact (proj1 (HandleQuery_refuses demo_Get demo_tombstone ascii_lower accounts_server
    "UPDATE accounts SET note = 'x' WHERE id > 3" demo_conn ltac:(reflexivity) ltac:(vm_compute; reflexivity))).
Defined.

(** ** Where it falls short *)

Definition quoted_update : string := "UPDATE accounts SET note = 'see where id = 7 #3' WHERE id = 42".

(** The classifier reads text inside string literals as code.  An UPDATE of
    row 42 whose assigned text mentions a WHERE and a comment mark is taken for
    a write of row 7: row 42 is written, and the row invalidated is row 7. *)
Theorem Classify_reads_literals :
  Matcher_Key accounts_matcher (Matcher_Classify ascii_lower accounts_matcher quoted_update) [] = Some (mkKey "accounts" ["7"]) ∧
  Matcher_rewriteWithVersionBump accounts_matcher quoted_update =
    Some "UPDATE accounts SET note = 'see where id = 7 #3', `version` = `version` + 1 WHERE id = 42".
Proof. split; vm_compute; reflexivity. Qed.

(** A read of another database's table of the same name is served from the
    cached table, and the opening statements of a transaction other than the
    two the classifier knows leave the connection serving cached reads. *)
Lemma Classify_ignores_database :
  Matcher_Key accounts_matcher (Matcher_Classify ascii_lower accounts_matcher "SELECT note FROM archive.accounts WHERE id = 42") [] =
    Some (mkKey "accounts" ["42"]).
Proof. vm_compute. reflexivity. Qed.

Lemma Classify_misses_begins :
  (Matcher_Classify ascii_lower accounts_matcher <$>
    ["BEGIN WORK"; "START TRANSACTION READ WRITE"; "START TRANSACTION WITH CONSISTENT SNAPSHOT"; "SET autocommit = 0"]) =
  replicate 4 no_plan.
Proof. vm_compute. reflexivity. Qed.

(** Another connection's write of the same row, whole, and then a reader's fill
    with the row as it is. *)
Definition row_update : string := "UPDATE accounts SET note = 'x' WHERE id = 42".
Definition row_42 : Key := mkKey "accounts" ["42"].
Definition other_write (c : ConnW demo_db) : ConnW demo_db :=
  (conn_pointWrite demo_tombstone accounts_server row_update row_42 c).2.
Definition reader_fill (fp : string) (c : ConnW demo_db) : ConnW demo_db :=
  let db := cn_world c in
  mkConnW (mkDemo (dm_version db) (cell_fill (mkStored (dm_version db) (dm_version db) "row" false fp) (dm_cell db)) (dm_ran db))
    (cn_inTx c) (cn_session c).

(** The tombstone of a proxy write can lose.  It carries the version read
    before the write and one more.  When another connection writes the row and
    a reader caches it between that read and this write, the cached entry
    already carries that version: the tombstone is rejected, and the row stays
    cached one version behind the database. *)
Theorem write_race_keeps_stale before fp :
  0 ≤ before < 2 ^ 64 - 1 →
  let c := mkConnW (mkDemo before cell_empty []) false None in
  let final := (conn_write_around demo_tombstone accounts_server row_42
    (λ c, outside (up_Execute "UPDATE accounts SET note = 'y', `version` = `version` + 1 WHERE id = 42" [])
            (reader_fill fp (other_write c))) c).2 in
  dm_version (cn_world final) = before + 2 ∧
  ∃ e, cell_read fp (dm_cell (cn_world final)) = Some e ∧ st_rv e = before + 1.
Proof.
  intros Hb c final. subst final c. unfold other_write, conn_pointWrite.
  assert (Matcher_rewriteWithVersionBump (sv_matcher accounts_server) row_update =
    Some "UPDATE accounts SET note = 'x', `version` = `version` + 1 WHERE id = 42") as -> by (vm_compute; reflexivity).
  unfold conn_write_around, conn_rowVersion, conn_invalidate, mbind, M_bind, M_try, outside, mret, M_ret.
  cbn [up_Execute demo_upstream cn_world cn_inTx cn_session].
  rewrite !(bool_decide_eq_true_2 (mt_versionStmt (sv_matcher accounts_server) = mt_versionStmt accounts_matcher)) by done.
  rewrite !bool_decide_eq_false_2 by (by vm_compute).
  cbn [up_first demo_upstream default demo_tombstone reader_fill cn_world cn_inTx cn_session dm_version dm_cell dm_ran Datatypes.id].
  assert (u64 (before + 1) = before + 1) as -> by (unfold u64; apply Z.mod_small; lia).
  assert (cell_tombstone (before + 1) cell_empty = mkCell (Some (before + 1)) None) as -> by done.
  cbn [snd cn_world dm_version dm_cell dm_ran]. split; [lia|].
  unfold cell_fill, fill_wins. cbn [c_tomb c_val st_rv]. rewrite Z.leb_refl. cbn [andb].
  unfold cell_tombstone, tombstone_wins. cbn [c_tomb c_val st_rv]. rewrite Z.ltb_irrefl. cbn [andb].
  unfold cell_read. cbn [c_val st_fp]. rewrite bool_decide_eq_true_2 by done. by eexists.
Qed.

Lemma write_race_keeps_stale_witness :
  ∃ final : ConnW demo_db, dm_version (cn_world final) = 9 ∧
    ∃ e, cell_read "fp" (dm_cell (cn_world final)) = Some e ∧ st_rv e = 8.
Proof. eexists. exact (write_race_keeps_stale 7 "fp" ltac:(lia)). Defined.

