(* ===== verification/Introspect.v ===== *)
(** Data source names, connections and the live shape of a table:
    [src/internal/storage/dsn.go], [introspect.go] and the connecting part of
    [mysql.go].

    What the driver and the database answer are arguments: [mysql.ParseDSN],
    the ping, and the rows of INFORMATION_SCHEMA. *)

From S2P Require Import Prelude GoStd Hlc Schema Row Table Mysql Storage.

Local Open Scope Z_scope.

(** ** Data source names *)

Record DSN := mkDSN { dsn_addr : string; dsn_user : string; dsn_password : string; dsn_database : string }.

(** [strings.Cut] with the separator it names: all of the text when the
    separator is not there. *)
Definition cut_or_all (c : ascii) (s : string) : string * string :=
  match cut_byte c s with Some p => p | None => (s, "") end.

Definition ParseDSN (dsn : string) : result DSN :=
  match cut_byte "@" dsn with
  | None => Err (Errorf "storage: malformed dsn")
  | Some (creds, rest) =>
      let '(user, password) := cut_or_all ":" creds in
      match cut_byte "(" rest with
      | None => Err (Errorf "storage: dsn has no host")
      | Some (_, rest) =>
          match cut_byte ")" rest with
          | None => Err (Errorf "storage: dsn has no host")
          | Some (addr, rest) =>
              let database := if str_prefix "/" rest then str_drop 1 rest else rest in
              let database := (cut_or_all "?" database).1 in
              if bool_decide (database = "") then Err (Errorf "storage: dsn has no database")
              else Ok (mkDSN addr user password database)
          end
      end
  end.

(** ** Connecting *)

(** [normalise] is the driver's parsing of the text (its result leaves times as
    text) and [ping] whether the database answers. *)
Definition OpenShard (normalise : string → result string) (ping : string → result unit) (id dsn : string) : result Shard :=
  if bool_decide (id = "") then Err (Errorf "storage: empty shard id")
  else
    match normalise dsn with
    | Err e => Err (Wrapf "open shard" (Wrapf "storage" e))
    | Panic w => Panic w
    | Ok dsn =>
        match ping dsn with
        | Err e => Err (Wrapf "ping shard" e)
        | Panic w => Panic w
        | Ok _ => Ok (mkShard id ∅)
        end
    end.

Definition Shard_WithTables (s : Shard) (tables : list Table) : Shard :=
  mkShard (sh_id s) (foldl (λ m t, <[d_Name (t_d t) := t]> m) (sh_tables s) tables).

(** ** INFORMATION_SCHEMA *)

(** A query's rows, each scanned or failing to scan, and the error the iteration
    ends with. *)
Record sql_rows (A : Type) := mkSqlRows { sr_rows : list (result A); sr_Err : option error }.
Arguments mkSqlRows {A} _ _.
Arguments sr_rows {A} _.
Arguments sr_Err {A} _.

Definition rows_end {A} (err : option error) (a : A) : result A := match err with Some e => Err e | None => Ok a end.

Definition reading {A} (r : result A) : result A :=
  match r with Err e => Err (Wrapf "storage: reading INFORMATION_SCHEMA" e) | r => r end.

Fixpoint scan_columns (rows : list (result (string * string * string))) (out : list LiveColumn) : result (list LiveColumn) :=
  match rows with
  | [] => Ok out
  | row :: rows =>
      '(name, nullable, collation) ← reading row;
      scan_columns rows (out ++ [mkLiveColumn name (bool_decide (nullable = "YES")) collation])
  end.

Definition liveColumns (q : result (sql_rows (string * string * string))) : result (list LiveColumn) :=
  rows ← reading q; out ← scan_columns (sr_rows rows) []; rows_end (sr_Err rows) out.

(** The loop of [liveIndexes]: the columns of each index, and the order in which
    the indexes first appear. *)
Fixpoint group_indexes (rows : list (result (string * string))) (byName : gmap string (list string)) (order : list string) :
    result (gmap string (list string) * list string) :=
  match rows with
  | [] => Ok (byName, order)
  | row :: rows =>
      '(idxName, colName) ← reading row;
      let order := match byName !! idxName with None => order ++ [idxName] | Some _ => order end in
      group_indexes rows (<[idxName := default [] (byName !! idxName) ++ [colName]]> byName) order
  end.

(** [order] lists names of [byName]; a missing one is a nil dereference. *)
Definition liveIndexes (q : result (sql_rows (string * string))) : result (list Index) :=
  rows ← reading q;
  '(byName, order) ← group_indexes (sr_rows rows) ∅ [];
  order ← rows_end (sr_Err rows) order;
  mapM (λ name, match byName !! name with
                | Some cols => Ok (mkIndex name cols)
                | None => Panic "runtime error: invalid memory address or nil pointer dereference"
                end) order.

Definition Introspect (columns : result (sql_rows (string * string * string))) (indexes : result (sql_rows (string * string))) :
    result (list LiveColumn * list Index) :=
  cols ← liveColumns columns;
  if bool_decide (cols = []) then Err (Errorf "storage: table does not exist in this schema")
  else idx ← liveIndexes indexes; Ok (cols, idx).

(** ** Lemmas *)

(** A data source name as the configuration writes it. *)
Definition dsn_text (d : DSN) (net params : string) : string :=
  dsn_user d +:+ ":" +:+ dsn_password d +:+ "@" +:+ net +:+ "(" +:+ dsn_addr d +:+ ")/" +:+ dsn_database d +:+ params.

(** The parts hold none of the separators that end them, and the parameters
    start with a question mark or are not there. *)
Definition dsn_ok (d : DSN) (net params : string) : Prop :=
  contains_byte ":" (dsn_user d) = false ∧ contains_byte "@" (dsn_user d) = false ∧
  contains_byte "@" (dsn_password d) = false ∧ contains_byte "(" net = false ∧
  contains_byte ")" (dsn_addr d) = false ∧ contains_byte "?" (dsn_database d) = false ∧ dsn_database d ≠ "" ∧
  (params = "" ∨ str_prefix "?" params = true).

Lemma cut_byte_none c s : contains_byte c s = false → cut_byte c s = None.
Proof.
  induction s as [|d s IH]; simpl; [done|]. intros [H1 H2]%orb_false_iff. by rewrite H1, IH.
Qed.

Lemma cut_or_all_params db params :
  contains_byte "?" db = false → params = "" ∨ str_prefix "?" params = true → (cut_or_all "?" (db +:+ params)).1 = db.
Proof.
  unfold cut_or_all. intros Hdb [->|Hp].
  - rewrite str_app_nil_r, cut_byte_none by done. done.
  - destruct params as [|c p]; [done|]. cbn in Hp. apply andb_true_iff in Hp as [Hp _].
    apply bool_decide_eq_true in Hp as <-. by rewrite cut_byte_app.
Qed.

(** The rows of an iteration that scans and ends well. *)
Definition all_rows {A} (rows : list A) : result (sql_rows A) := Ok (mkSqlRows (Ok <$> rows) None).

(** The names a list of rows starts with, each once, in the order of their first
    appearance. *)
Fixpoint first_seen (seen names : list string) : list string :=
  match names with
  | [] => []
  | n :: names => if bool_decide (n ∈ seen) then first_seen seen names else n :: first_seen (n :: seen) names
  end.

Definition columns_of (rows : list (string * string)) (name : string) : list string :=
  snd <$> filter (λ r, r.1 = name) rows.

Lemma group_indexes_spec rows : ∀ done byName order,
  (∀ n, byName !! n = if bool_decide (n ∈ done.*1) then Some (columns_of done n) else None) →
  ∃ byName', group_indexes (Ok <$> rows) byName order = Ok (byName', order ++ first_seen done.*1 rows.*1) ∧
    ∀ n, byName' !! n = if bool_decide (n ∈ (done ++ rows).*1) then Some (columns_of (done ++ rows) n) else None.
Proof.
  induction rows as [|[name col] rows IH]; intros dn byName order Hby; cbn [fmap list_fmap group_indexes first_seen].
  - exists byName. by rewrite !app_nil_r.
  - cbn [reading mbind result_bind fst].
    assert (∀ n, <[name := default [] (byName !! name) ++ [col]]> byName !! n =
                 if bool_decide (n ∈ (dn ++ [(name, col)]).*1) then Some (columns_of (dn ++ [(name, col)]) n) else None) as Hby'.
    { intros n. rewrite fmap_app. unfold columns_of. rewrite filter_app, fmap_app.
      destruct (decide (name = n)) as [->|Hn].
      - rewrite lookup_insert, Hby. rewrite (bool_decide_eq_true_2 (n ∈ dn.*1 ++ _)) by set_solver.
        rewrite decide_True by done. f_equal. rewrite filter_cons_True by done. cbn.
        case_bool_decide as Hin; [done|]. f_equal. cbn.
        assert (filter (λ r : string * string, r.1 = n) dn = []) as ->; [|done].
        apply elem_of_nil_inv. intros r [Hr Hin']%list_elem_of_filter. apply Hin. apply list_elem_of_fmap. by exists r.
      - rewrite lookup_insert_ne by done. rewrite Hby, filter_cons_False by done. cbn. rewrite app_nil_r.
        repeat case_bool_decide; try done; set_solver. }
    destruct (IH (dn ++ [(name, col)]) _ (match byName !! name with None => order ++ [name] | Some _ => order end) Hby')
      as (by' & HE & Hby2).
    exists by'. rewrite HE. split; [|by rewrite <-app_assoc in Hby2].
    rewrite Hby. f_equal. f_equal. 
    assert (∀ l seen seen', (∀ x, x ∈ seen ↔ x ∈ seen') → first_seen seen l = first_seen seen' l) as Hext.
    { clear. induction l as [|x l IHl]; intros seen seen' H; [done|]. cbn. rewrite (bool_decide_ext _ _ (H x)).
      case_bool_decide; [by apply IHl|]. f_equal. apply IHl. set_solver. }
    case_bool_decide as Hin.
    + rewrite (Hext rows.*1 (dn ++ [(name, col)]).*1 dn.*1); [done|]. rewrite fmap_app. set_solver.
    + rewrite <-app_assoc. cbn. do 2 f_equal. apply Hext. rewrite fmap_app. set_solver.
Qed.

(** ** Properties *)

Lemma first_seen_In seen names n : n ∈ first_seen seen names ↔ n ∈ names ∧ n ∉ seen.
Proof.
  revert seen. induction names as [|m names IH]; intros seen; cbn [first_seen]; [set_solver|].
  case_bool_decide; rewrite ?elem_of_cons, IH; [set_solver|]. destruct (decide (n = m)); set_solver.
Qed.

(** A data source name written as user:password@net(addr)/database?params is
    read back into its parts, when no part holds the separator that ends it. *)
Theorem ParseDSN_roundtrip (d : DSN) (net params : string) (H : dsn_ok d net params) :
  ParseDSN (dsn_text d net params) = Ok d.
Proof.
  destruct H as (H1 & H2 & H3 & H4 & H5 & H6 & H7 & H8). destruct d as [addr user pw db].
  unfold dsn_text; cbn [dsn_addr dsn_user dsn_password dsn_database] in *. unfold ParseDSN.
  replace (user +:+ _) with ((user +:+ ":" +:+ pw) +:+ String "@" (net +:+ String "(" (addr +:+ String ")" (String "/" (db +:+ params)))))
    by (rewrite <-!str_app_assoc; done).
  rewrite cut_byte_app by (rewrite !contains_byte_app, H2, H3; done).
  unfold cut_or_all at 1. change (user +:+ ":" +:+ pw) with (user +:+ String ":" pw).
  rewrite cut_byte_app, cut_byte_app, cut_byte_app by done. cbn [str_prefix str_drop].
  rewrite (bool_decide_eq_true_2 ("/"%char = "/"%char)) by done. cbn [andb].
  rewrite cut_or_all_params by done. by rewrite bool_decide_eq_false_2.
Qed.

(** A password may not hold an at sign: the text is not refused, the part of
    the password after it is dropped and the rest is used. *)
Theorem ParseDSN_cuts_password (user pw pw' net addr db : string)
    (H : dsn_ok (mkDSN addr user pw db) net "") (Hpw : contains_byte "(" pw' = false) :
  ParseDSN (dsn_text (mkDSN addr user (pw +:+ "@" +:+ pw') db) net "") = Ok (mkDSN addr user pw db).
Proof.
  rewrite <-(ParseDSN_roundtrip _ (pw' +:+ "@" +:+ net) ""); [f_equal; unfold dsn_text; cbn; by rewrite <-!str_app_assoc|].
  destruct H as (H1 & H2 & H3 & H4 & H5 & H6 & H7 & H8). unfold dsn_ok. split_and!; try done.
  by rewrite !contains_byte_app, Hpw, H4.
Qed.

(** The indexes read from the live table are those the rows name, each once,
    in the order of their first appearance, with their columns in the rows' order. *)
Theorem liveIndexes_spec (rows : list (string * string)) :
  liveIndexes (all_rows rows) = Ok ((λ n, mkIndex n (columns_of rows n)) <$> first_seen [] rows.*1).
Proof.
  unfold liveIndexes, all_rows. cbn [reading mbind result_bind sr_rows sr_Err].
  destruct (group_indexes_spec rows [] ∅ []) as (by' & -> & Hby); [intros n; by rewrite bool_decide_eq_false_2 by set_solver|].
  cbn [mbind result_bind rows_end app fmap list_fmap].
  assert (∀ l, (∀ n, n ∈ l → n ∈ rows.*1) → mapM (λ name, match by' !! name with
                | Some cols => Ok (mkIndex name cols)
                | None => Panic "runtime error: invalid memory address or nil pointer dereference"
                end) l = Ok ((λ n, mkIndex n (columns_of rows n)) <$> l)) as ->; [|done|].
  { induction l as [|n l IH]; intros Hl; [done|]. cbn. rewrite Hby, bool_decide_eq_true_2 by (apply Hl; by left).
    cbn. rewrite IH; [done|]. intros m Hm. apply Hl. by right. }
  intros n Hn. by apply first_seen_In in Hn as [? _].
Qed.

(** ** Witnesses *)

Definition demo_dsn : DSN := mkDSN "db1:3306" "cachet" "s3cret" "app".

Lemma ParseDSN_roundtrip_witness : ParseDSN "cachet:s3cret@tcp(db1:3306)/app?parseTime=true" = Ok demo_dsn.
Proof. apply (ParseDSN_roundtrip demo_dsn "tcp" "?parseTime=true"). repeat split; try done. by right. Defined.

Lemma ParseDSN_cuts_password_witness : ParseDSN "cachet:s3@cret@tcp(db1:3306)/app" = Ok (mkDSN "db1:3306" "cachet" "s3" "app").
Proof. apply (ParseDSN_cuts_password "cachet" "s3" "cret" "tcp" "db1:3306" "app"); [repeat split; try done; by left|done]. Defined.
