(* ===== verification/Config.v ===== *)
(** The configuration of a deployment: [src/internal/config].

    Reading YAML and the environment into the records is the work of libraries
    and is left out; what a file may hold, how references in a DSN are replaced,
    and what is refused before anything starts are here.  [ToUpper] and
    [ToLower] are [strings]' (Unicode), [sha256_16] the descriptor's digest,
    and [linux] whether the platform is. *)

From S2P Require Import Prelude GoStd Floats Consistency Regexp Schema Table.

Local Open Scope Z_scope.

(** ** The records *)

Record cfg_Shard := mkCfgShard { cs_ID : string; cs_DSN : string }.

Record cfg_Admission := mkCfgAdmission {
  ca_Enabled : bool;
  ca_AdmitRatio : float64;
  ca_EvictRatio : float64;
  ca_MinSamples : Z;
  ca_MinDwell : Z;
  ca_Window : Z;
}.

Record cfg_Lease := mkCfgLease {
  le_TTL : Z;
  le_WaitAttempts : Z;
  le_WaitBackoff : Z;
  le_WaitBackoffMax : Z;
}.

Record cfg_Breaker := mkCfgBreaker {
  cb_Window : Z;
  cb_Buckets : Z;
  cb_MinRequests : Z;
  cb_FailureFloor : float64;
  cb_MaxShed : float64;
}.

Record cfg_Gutter := mkCfgGutter { cg_Addresses : list string; cg_TTL : Z }.

Record cfg_Cache := mkCfgCache {
  cc_Addresses : list string;
  cc_Admission : cfg_Admission;
  cc_Lease : cfg_Lease;
  cc_Breaker : cfg_Breaker;
  cc_Gutter : cfg_Gutter;
}.

Record cfg_Consistency := mkCfgConsistency {
  cn_MaxClockSkew : Z;
  cn_CDCLagBound : Z;
  cn_WritePathInvalidationBudget : Z;
  cn_MaxAffectedKeys : Z;
  cn_MaxSessionShards : Z;
  cn_EntryTTL : Z;
  cn_SynchronousInvalidation : bool;
}.

Record Topology := mkTopology { tp_Name : string; tp_Shards : list string }.
Record cfg_Predicate := mkCfgPredicate { cp_Match : list string; cp_Set : list string }.
Record cfg_Table := mkCfgTable {
  ct_TableConfig : TableConfig;
  ct_Topology : string;
  ct_Predicates : list cfg_Predicate;
}.

Record cfg_Observability := mkCfgObservability {
  co_MetricsListen : string;
  co_LogLevel : string;
  co_LogFormat : string;
  co_OTLPEndpoint : string;
  co_ServiceName : string;
}.

Record Config := mkConfig {
  cf_Listen : list string;
  cf_Shards : list cfg_Shard;
  cf_Cache : cfg_Cache;
  cf_Topologies : list Topology;
  cf_Tables : list cfg_Table;
  cf_DefaultLevel : string;
  cf_Consistency : cfg_Consistency;
  cf_Observability : cfg_Observability;
  cf_DrainTimeout : Z;
}.

(** ** Defaults

    The decimal constants are the nearest binary64 values, as quotients are. *)
Definition cfg_Default : Config :=
  mkConfig ["tcp://:9090"] []
    (mkCfgCache []
       (mkCfgAdmission false (f_of_int 20) (f_of_int 10) 50 (30 * Second) Minute)
       (mkCfgLease (2 * Second) 4 (5 * Millisecond) (50 * Millisecond))
       (mkCfgBreaker (10 * Second) 10 20 (f_ratio 5 100) (f_ratio 95 100))
       (mkCfgGutter [] (30 * Second)))
    [] [] (Level_String Session)
    (mkCfgConsistency (250 * Millisecond) (5 * Second) (50 * Millisecond) 1000 DefaultMaxSessionShards (4 * Hour) true)
    (mkCfgObservability ":9100" "info" "text" "" "cachet")
    (15 * Second).

(** ** Listen addresses *)

Record Listener := mkListener { ln_Network : string; ln_Address : string }.

Section config.

Context (linux : bool).

Definition maxUnixSocketPath : Z := if linux then 107 else 103.

Definition ParseListen (s : string) : result Listener :=
  let malformed := Err (Errorf "config: listen must be tcp://host:port or unix:///path") in
  match cut_str s "://" with
  | None => malformed
  | Some (scheme, rest) =>
      if bool_decide (rest = "") then malformed
      else if bool_decide (scheme ∈ ["tcp"; "tcp4"; "tcp6"]) then Ok (mkListener scheme rest)
      else if bool_decide (scheme = "unix") then
        if negb (str_prefix "/" rest) then Err (Errorf "config: unix listen needs an absolute path")
        else if maxUnixSocketPath <? str_len rest then Err (Errorf "config: unix socket path is over this platform's limit")
        else Ok (mkListener "unix" rest)
      else Err (Errorf "config: unsupported listen scheme")
  end.

Fixpoint parse_listens (raws : list string) (out : list Listener) : result (list Listener) :=
  match raws with
  | [] => Ok out
  | raw :: raws => l ← ParseListen raw; parse_listens raws (out ++ [l])
  end.

Definition Config_Listeners (c : Config) : result (list Listener) := parse_listens (cf_Listen c) [].

(** ** Levels *)

Context (ToUpper ToLower sha256_16 : string → string).

(** The loop over [levelNames], whose values differ. *)
Definition ParseLevel (s : string) : result Z :=
  let upper := ToUpper (TrimSpace s) in
  match find (λ lv, bool_decide (levelNames lv = Some upper)) [Session; Strong; Bounded; Eventual] with
  | Some lv => Ok lv
  | None => Err (Errorf "consistency: unknown level")
  end.

Definition Config_Level (c : Config) : Z :=
  match ParseLevel (cf_DefaultLevel c) with Ok lv => lv | _ => Session end.

(** ** Tables and topologies *)

Definition cfg_Descriptor (t : cfg_Table) : result Descriptor := NewDescriptor ToLower sha256_16 (ct_TableConfig t).

Definition PredicateSpecs (t : cfg_Table) : list PredicateSpec :=
  (λ p, mkPredicateSpec (cp_Match p) (cp_Set p)) <$> ct_Predicates t.

Fixpoint descriptors_of (ts : list cfg_Table) (out : list Descriptor) : result (list Descriptor) :=
  match ts with
  | [] => Ok out
  | t :: ts =>
      match cfg_Descriptor t with
      | Err e => Err (Wrapf "config: tables" e)
      | Panic p => Panic p
      | Ok d => descriptors_of ts (out ++ [d])
      end
  end.
Definition Config_Descriptors (c : Config) : result (list Descriptor) := descriptors_of (cf_Tables c) [].

Definition Config_TableNamed (c : Config) (name : string) : option cfg_Table :=
  find (λ t, bool_decide (tc_Name (ct_TableConfig t) = name)) (cf_Tables c).

Definition shard_named (shards : list cfg_Shard) (id : string) : option cfg_Shard :=
  find (λ sh, bool_decide (cs_ID sh = id)) shards.

Definition Config_ShardsFor (c : Config) (table : string) : result (list cfg_Shard) :=
  match Config_TableNamed c table with
  | None => Err (Errorf "config: no such table is declared")
  | Some t =>
      match find (λ topo, bool_decide (tp_Name topo = ct_Topology t)) (cf_Topologies c) with
      | Some topo => Ok (omap (shard_named (cf_Shards c)) (tp_Shards topo))
      | None => Err (Errorf "config: table names a topology which is not declared")
      end
  end.

(** ** Validation *)

Definition errNoTopologies : error := Errorf "config: topologies: must declare at least one shard set".
Definition errNoTables : error := Errorf "config: tables: must declare at least one table".

Fixpoint validate_shards (shards : list cfg_Shard) (seen : gset string) : result unit :=
  match shards with
  | [] => Ok tt
  | sh :: shards =>
      if bool_decide (cs_ID sh = "") then Err (Errorf "config: shards[].id is empty")
      else if bool_decide (cs_DSN sh = "") then Err (Errorf "config: shard has no dsn")
      else if bool_decide (cs_ID sh ∈ seen) then Err (Errorf "config: duplicate shard id")
      else validate_shards shards ({[cs_ID sh]} ∪ seen)
  end.

Fixpoint validate_addresses (addrs : list string) (seen : gset string) : result unit :=
  match addrs with
  | [] => Ok tt
  | addr :: addrs =>
      if bool_decide (addr = "") then Err (Errorf "config: cache.addresses[] is empty")
      else if bool_decide (addr ∈ seen) then Err (Errorf "config: duplicate cache address")
      else validate_addresses addrs ({[addr]} ∪ seen)
  end.

Definition Admission_validate (a : cfg_Admission) : result unit :=
  if negb (ca_Enabled a) then Ok tt
  else if f_le (ca_AdmitRatio a) f_zero then Err (Errorf "config: cache.admission.admit_ratio must be positive")
  else if f_le (ca_EvictRatio a) f_zero then Err (Errorf "config: cache.admission.evict_ratio must be positive")
  else if f_lt (ca_AdmitRatio a) (ca_EvictRatio a) then Err (Errorf "config: cache.admission.evict_ratio is above admit_ratio")
  else if ca_MinDwell a <? 0 then Err (Errorf "config: cache.admission.min_dwell must not be negative")
  else if ca_Window a <=? 0 then Err (Errorf "config: cache.admission.window must be positive")
  else Ok tt.

Definition Lease_validate (l : cfg_Lease) : result unit :=
  if le_TTL l <=? 0 then Err (Errorf "config: cache.lease.ttl must be positive")
  else if le_WaitAttempts l <? 0 then Err (Errorf "config: cache.lease.wait_attempts must not be negative")
  else if le_WaitBackoff l <? 0 then Err (Errorf "config: cache.lease.wait_backoff must not be negative")
  else if le_WaitBackoffMax l <? le_WaitBackoff l then Err (Errorf "config: cache.lease.wait_backoff_max is below wait_backoff")
  else Ok tt.

Definition Breaker_validate (b : cfg_Breaker) : result unit :=
  if cb_Window b <=? 0 then Err (Errorf "config: cache.breaker.window must be positive")
  else if cb_Buckets b <=? 0 then Err (Errorf "config: cache.breaker.buckets must be positive")
  else if cb_MinRequests b <? 0 then Err (Errorf "config: cache.breaker.min_requests must not be negative")
  else if f_lt (cb_FailureFloor b) f_zero || f_le f_one (cb_FailureFloor b) then Err (Errorf "config: cache.breaker.failure_floor must be in [0,1)")
  else if f_lt (cb_MaxShed b) f_zero || f_le f_one (cb_MaxShed b) then Err (Errorf "config: cache.breaker.max_shed must be in [0,1)")
  else Ok tt.

Fixpoint validate_gutter (addrs : list string) (inPrimary seen : gset string) : result unit :=
  match addrs with
  | [] => Ok tt
  | addr :: addrs =>
      if bool_decide (addr = "") then Err (Errorf "config: cache.gutter.addresses[] is empty")
      else if bool_decide (addr ∈ seen) then Err (Errorf "config: duplicate gutter address")
      else if bool_decide (addr ∈ inPrimary) then Err (Errorf "config: address is both a cache node and a gutter node")
      else validate_gutter addrs inPrimary ({[addr]} ∪ seen)
  end.

Definition Gutter_validate (g : cfg_Gutter) (primary : list string) : result unit :=
  if bool_decide (cg_Addresses g = []) then Ok tt
  else if bool_decide (primary = []) then Err (Errorf "config: cache.gutter is configured with no cache.addresses")
  else if cg_TTL g <=? 0 then Err (Errorf "config: cache.gutter.ttl must be positive")
  else validate_gutter (cg_Addresses g) (list_to_set primary) ∅.

Fixpoint validate_positive (fields : list (string * Z)) : result unit :=
  match fields with
  | [] => Ok tt
  | (name, d) :: fields =>
      if d <=? 0 then Err (Errorf ("config: consistency." +:+ name +:+ " must be positive")) else validate_positive fields
  end.

Definition Consistency_validate (c : cfg_Consistency) : result unit :=
  if cn_MaxClockSkew c <? 0 then Err (Errorf "config: consistency.max_clock_skew must not be negative")
  else
    validate_positive [("cdc_lag_bound", cn_CDCLagBound c);
                       ("write_path_invalidation_budget", cn_WritePathInvalidationBudget c);
                       ("entry_ttl", cn_EntryTTL c)];;
    (if cn_MaxAffectedKeys c <=? 0 then Err (Errorf "config: consistency.max_affected_keys must be positive")
     else if cn_MaxSessionShards c <=? 0 then Err (Errorf "config: consistency.max_session_shards must be positive")
     else Ok tt).

Fixpoint validate_topology_shards (ids : list string) (declared seen : gset string) : result unit :=
  match ids with
  | [] => Ok tt
  | id :: ids =>
      if negb (bool_decide (id ∈ declared)) then Err (Errorf "config: topology names a shard which no entry under shards: declares")
      else if bool_decide (id ∈ seen) then Err (Errorf "config: topology names a shard twice")
      else validate_topology_shards ids declared ({[id]} ∪ seen)
  end.

Fixpoint validate_topologies (topos : list Topology) (declared seen : gset string) : result (gset string) :=
  match topos with
  | [] => Ok seen
  | topo :: topos =>
      if bool_decide (tp_Name topo = "") then Err (Errorf "config: topologies[].name is empty")
      else if bool_decide (tp_Name topo ∈ seen) then Err (Errorf "config: duplicate topology name")
      else if bool_decide (tp_Shards topo = []) then Err (Errorf "config: topology names no shards")
      else
        validate_topology_shards (tp_Shards topo) declared ∅;;
        validate_topologies topos declared ({[tp_Name topo]} ∪ seen)
  end.

Fixpoint validatePredicates (d : Descriptor) (ps : list cfg_Predicate) : result unit :=
  match ps with
  | [] => Ok tt
  | p :: ps =>
      if bool_decide (cp_Match p = []) then Err (Errorf "config: predicate matches on no columns")
      else if bool_decide (cp_Set p = []) then Err (Errorf "config: predicate sets no columns")
      else if forallb (λ name, bool_decide (is_Some (Descriptor_Column d name))) (cp_Match p ++ cp_Set p)
      then validatePredicates d ps
      else Err (Errorf "config: predicate names a column which is not declared")
  end.

Fixpoint validate_declared (ts : list cfg_Table) (topologies seen : gset string) : result unit :=
  match ts with
  | [] => Ok tt
  | t :: ts =>
      match cfg_Descriptor t with
      | Err e => Err (Wrapf "config: tables" e)
      | Panic p => Panic p
      | Ok d =>
          if bool_decide (d_Name d ∈ seen) then Err (Errorf "config: duplicate table")
          else if bool_decide (ct_Topology t = "") then Err (Errorf "config: table names no topology")
          else if negb (bool_decide (ct_Topology t ∈ topologies)) then Err (Errorf "config: table names a topology which is not declared")
          else
            validatePredicates d (ct_Predicates t);;
            validate_declared ts topologies ({[d_Name d]} ∪ seen)
      end
  end.

Definition Config_validateTables (c : Config) : result unit :=
  if bool_decide (cf_Topologies c = []) then Err errNoTopologies
  else if bool_decide (cf_Tables c = []) then Err errNoTables
  else
    topologies ← validate_topologies (cf_Topologies c) (list_to_set (cs_ID <$> cf_Shards c)) ∅;
    validate_declared (cf_Tables c) topologies ∅.

Definition Config_Validate (c : Config) : result unit :=
  if bool_decide (cf_Listen c = []) then Err (Errorf "config: listen must contain at least one address")
  else
    Config_Listeners c;;
    if bool_decide (cf_Shards c = []) then Err (Errorf "config: shards must contain at least one shard")
    else
      validate_shards (cf_Shards c) ∅;;
      validate_addresses (cc_Addresses (cf_Cache c)) ∅;;
      Admission_validate (cc_Admission (cf_Cache c));;
      Lease_validate (cc_Lease (cf_Cache c));;
      Breaker_validate (cc_Breaker (cf_Cache c));;
      Gutter_validate (cc_Gutter (cf_Cache c)) (cc_Addresses (cf_Cache c));;
      match ParseLevel (cf_DefaultLevel c) with
      | Err e => Err (Wrapf "config: default_level" e)
      | Panic p => Panic p
      | Ok _ =>
          Config_validateTables c;;
          Consistency_validate (cf_Consistency c);;
          if cf_DrainTimeout c <=? 0 then Err (Errorf "config: shutdown.drain_timeout must be positive") else Ok tt
      end.

End config.

(** ** Guarantee settings *)

Inductive setting := SettingDuration (d : Z) | SettingInt (n : Z) | SettingBool (b : bool).

Definition GuaranteeSettings (c : cfg_Consistency) : gmap string setting :=
  {["max_clock_skew" := SettingDuration (cn_MaxClockSkew c);
    "cdc_lag_bound" := SettingDuration (cn_CDCLagBound c);
    "write_path_invalidation_budget" := SettingDuration (cn_WritePathInvalidationBudget c);
    "max_affected_keys" := SettingInt (cn_MaxAffectedKeys c);
    "max_session_shards" := SettingInt (cn_MaxSessionShards c);
    "entry_ttl" := SettingDuration (cn_EntryTTL c);
    "synchronous_invalidation" := SettingBool (cn_SynchronousInvalidation c)]}.

(** An attribute of the log line: the text of a duration, or the value. *)
Inductive log_value := LogText (s : string) | LogAny (v : option setting).

Definition log_attr (settings : gmap string setting) (k : string) : string * log_value :=
  (k, match settings !! k with
      | Some (SettingDuration d) => LogText (Duration_String d)
      | v => LogAny v
      end).

Definition LogAttrs (c : cfg_Consistency) : list (string * log_value) :=
  let settings := GuaranteeSettings c in
  log_attr settings <$> sort_Strings (elements (dom settings)).

(** ** References to the environment *)

(** A dollar and a name in braces: a letter or an underscore, then any number of
    letters, digits and underscores. *)
Definition envRefRe : re :=
  RSeqs [RLit "${"; RSeq (RClass (cl_or cl_lower (cl_or cl_upper (is_char "_"))))
                         (RMany true 0 (cl_or (cl_or cl_lower cl_upper) (cl_or cl_digit (is_char "_")))); RLit "}"].

(** [expandEnv]: the text with its references replaced, and those missing; a
    match is [${], the name and [}]. *)
Definition ref_name (ref : string) : string := str_take (String.length ref - 3) (str_drop 2 ref).

Definition replace_ref (env : gmap string string) (piece : string + string) : string :=
  match piece with
  | inl text => text
  | inr ref => match env !! ref_name ref with Some v => v | None => ref end
  end.

Definition missing_refs (env : gmap string string) (pieces : list (string + string)) : list string :=
  omap (λ p, match p with
             | inr ref => match env !! ref_name ref with None => Some (ref_name ref) | Some _ => None end
             | inl _ => None
             end) pieces.

Definition expandEnv (s : string) (env : gmap string string) : result string :=
  if negb (str_contains "${" s) then Ok s
  else
    let pieces := re_pieces envRefRe s in
    let out := foldr (λ p acc, replace_ref env p +:+ acc) "" pieces in
    match missing_refs env pieces with
    | _ :: _ => Err (Errorf (join ", " (missing_refs env pieces) +:+ " is not set in the environment"))
    | [] =>
        if str_contains "${" out then Err (Errorf "contains a ${…} reference that is not a plain variable name") else Ok out
    end.

Fixpoint expandDSNs (shards : list cfg_Shard) (env : gmap string string) : result (list cfg_Shard) :=
  match shards with
  | [] => Ok []
  | sh :: shards =>
      match expandEnv (cs_DSN sh) env with
      | Err e => Err (Wrapf "config: shards" e)
      | Panic p => Panic p
      | Ok dsn => rest ← expandDSNs shards env; Ok (mkCfgShard (cs_ID sh) dsn :: rest)
      end
  end.

Definition Config_expandDSNs (c : Config) (env : gmap string string) : result Config :=
  shards ← expandDSNs (cf_Shards c) env;
  Ok (mkConfig (cf_Listen c) shards (cf_Cache c) (cf_Topologies c) (cf_Tables c) (cf_DefaultLevel c) (cf_Consistency c)
        (cf_Observability c) (cf_DrainTimeout c)).

(** [Load] once the file and the environment are decoded over the defaults, the
    outcome of which is an argument. *)
Definition Config_Load (linux : bool) (ToUpper ToLower sha256_16 : string → string) (decoded : result Config)
    (env : gmap string string) : result Config :=
  out ← decoded;
  out ← Config_expandDSNs out env;
  Config_Validate linux ToUpper ToLower sha256_16 out;;
  Ok out.

(** [loadEnv]: the keys the environment overrides. *)
Definition env_override (ToLower : string → string) (name : string) : option string :=
  if str_prefix "CACHET_" name then
    Some (ReplaceAllString (RLit "__") (ToLower (str_drop 7 name)) ".")
  else None.

(** ** Migration *)

(** [Migrate], given what the file declares and its shard ids; the block is
    text after the list of shards. *)
Definition migration_head : string :=
"
# ─── Added by `cachetctl config migrate` ────────────────────────────────────────────
#
# Cachet no longer has a built-in table. This is the declaration it used to compile in, written
# down: the same five columns in the same order, so the row fingerprint is unchanged and every
# cache entry you already have still reads as a hit.
#
# A topology is a named set of shards. Tables name one rather than listing shards, because routing
# comes from the key and the key is namespaced by table — two tables are only safely read together
# if they are sharded the same way.
topologies:
  - name: main
    shards: [".

Definition migration_tail : string :=
"]

tables:
  - name: entities
    topology: main
    primary_key: [id]

    # Maintained by Cachet on every write, never by your application. It is what every cache
    # compare-and-set is performed against.
    version_column: version

    # Order is not cosmetic: a column's position is part of the row encoding and of the
    # fingerprint. Reordering these invalidates every entry rather than decoding old bytes into
    # new columns.
    columns:
      - {name: id, type: uint64}
      - {name: tenant_id, type: uint32}
      - {name: status, type: uint8}
      - {name: payload, type: bytes}
      - {name: version, type: uint64}

    # The conditional-write shapes this deployment permits. Declared rather than taken from a
    # request, and each match set is checked against the table's indexes at boot — an unindexed
    # match takes gap locks inside the transaction that is about to write.
    predicates:
      - match: [tenant_id, status]
        set: [status]
".

Definition migrationBlock (ids : list string) : string := migration_head +:+ join ", " ids +:+ migration_tail.

Definition ErrAlreadyDeclared : error := Errorf "config: this file already declares topologies or tables".

(** [declares]: whether the document has either key. *)
Definition Migrate (src : string) (declares : bool) (shards : list cfg_Shard) : result string :=
  if declares then Err ErrAlreadyDeclared
  else if bool_decide (shards = []) then Err (Errorf "config: this file declares no shards")
  else if existsb (λ sh, bool_decide (cs_ID sh = "")) shards then Err (Errorf "config: shards[] has no id")
  else
    let sep := if negb (bool_decide (src = "")) && negb (str_suffix newline src) then newline else "" in
    Ok (src +:+ sep +:+ migrationBlock (cs_ID <$> shards)).
