(* ===== verification/ConfigSpec.v ===== *)
(** What a configuration that validates guarantees: the rules of
    [src/internal/config] as propositions, the addresses and references it reads,
    and the shards a table lives on. *)

From S2P Require Import Prelude GoStd Floats Consistency Regexp Schema Table Config.

Local Open Scope Z_scope.

(** ** The rules *)

Section rules.
Context (linux : bool) (ToUpper ToLower sha256_16 : string → string).

Definition listen_ok (raw : string) : Prop :=
  ∃ network address, raw = network +:+ "://" +:+ address ∧ address ≠ "" ∧
    (network ∈ ["tcp"; "tcp4"; "tcp6"] ∨
     network = "unix" ∧ str_prefix "/" address = true ∧ str_len address ≤ maxUnixSocketPath linux).

Definition names_ok (names : list string) : Prop := "" ∉ names ∧ NoDup names.

Definition admission_ok (a : cfg_Admission) : Prop :=
  ca_Enabled a = true →
  f_le (ca_AdmitRatio a) f_zero = false ∧ f_le (ca_EvictRatio a) f_zero = false ∧
  f_lt (ca_AdmitRatio a) (ca_EvictRatio a) = false ∧ 0 ≤ ca_MinDwell a ∧ 0 < ca_Window a.

Definition lease_ok (l : cfg_Lease) : Prop :=
  0 < le_TTL l ∧ 0 ≤ le_WaitAttempts l ∧ 0 ≤ le_WaitBackoff l ≤ le_WaitBackoffMax l.

Definition fraction_ok (x : float64) : Prop := f_lt x f_zero = false ∧ f_le f_one x = false.

Definition breaker_ok (b : cfg_Breaker) : Prop :=
  0 < cb_Window b ∧ 0 < cb_Buckets b ∧ 0 ≤ cb_MinRequests b ∧ fraction_ok (cb_FailureFloor b) ∧ fraction_ok (cb_MaxShed b).

Definition gutter_ok (g : cfg_Gutter) (primary : list string) : Prop :=
  cg_Addresses g ≠ [] →
  primary ≠ [] ∧ 0 < cg_TTL g ∧ names_ok (cg_Addresses g) ∧ (∀ a, a ∈ cg_Addresses g → a ∉ primary).

Definition consistency_ok (c : cfg_Consistency) : Prop :=
  0 ≤ cn_MaxClockSkew c ∧ 0 < cn_CDCLagBound c ∧ 0 < cn_WritePathInvalidationBudget c ∧ 0 < cn_EntryTTL c ∧
  0 < cn_MaxAffectedKeys c ∧ 0 < cn_MaxSessionShards c.

Definition topology_ok (ids : list string) (topo : Topology) : Prop :=
  tp_Shards topo ≠ [] ∧ NoDup (tp_Shards topo) ∧ ∀ id, id ∈ tp_Shards topo → id ∈ ids.

Definition predicate_ok (columns : list string) (p : cfg_Predicate) : Prop :=
  cp_Match p ≠ [] ∧ cp_Set p ≠ [] ∧ ∀ name, name ∈ cp_Match p ++ cp_Set p → name ∈ columns.

Definition cfg_Name (t : cfg_Table) : string := tc_Name (ct_TableConfig t).

Definition table_ok (topologies : list string) (t : cfg_Table) : Prop :=
  is_ok (cfg_Descriptor ToLower sha256_16 t) = true ∧ ct_Topology t ∈ topologies ∧
  Forall (predicate_ok (cc_Name <$> tc_Columns (ct_TableConfig t))) (ct_Predicates t).

Record config_ok (c : Config) : Prop := mkConfigOk {
  ok_listen : cf_Listen c ≠ [] ∧ Forall listen_ok (cf_Listen c);
  ok_shards : cf_Shards c ≠ [] ∧ names_ok (cs_ID <$> cf_Shards c) ∧ "" ∉ (cs_DSN <$> cf_Shards c);
  ok_addresses : names_ok (cc_Addresses (cf_Cache c));
  ok_admission : admission_ok (cc_Admission (cf_Cache c));
  ok_lease : lease_ok (cc_Lease (cf_Cache c));
  ok_breaker : breaker_ok (cc_Breaker (cf_Cache c));
  ok_gutter : gutter_ok (cc_Gutter (cf_Cache c)) (cc_Addresses (cf_Cache c));
  ok_level : ∃ lv name, levelNames lv = Some name ∧ ToUpper (TrimSpace (cf_DefaultLevel c)) = name;
  ok_topologies : cf_Topologies c ≠ [] ∧ names_ok (tp_Name <$> cf_Topologies c) ∧
    Forall (topology_ok (cs_ID <$> cf_Shards c)) (cf_Topologies c);
  ok_tables : cf_Tables c ≠ [] ∧ NoDup (cfg_Name <$> cf_Tables c) ∧
    Forall (table_ok (tp_Name <$> cf_Topologies c)) (cf_Tables c);
  ok_consistency : consistency_ok (cf_Consistency c);
  ok_drain : 0 < cf_DrainTimeout c;
}.
End rules.

(** What a file has to say over the defaults. *)
Definition declare (c : Config) (shards : list cfg_Shard) (topologies : list Topology) (tables : list cfg_Table) : Config :=
  mkConfig (cf_Listen c) shards (cf_Cache c) topologies tables (cf_DefaultLevel c) (cf_Consistency c) (cf_Observability c)
    (cf_DrainTimeout c).

(** ** Lemmas: loops that refuse a repetition *)

Definition fresh (seen : gset string) (names : list string) : Prop := NoDup names ∧ ∀ n, n ∈ names → n ∉ seen.

Lemma fresh_cons seen n names : fresh seen (n :: names) ↔ n ∉ seen ∧ fresh ({[n]} ∪ seen) names.
Proof. unfold fresh. rewrite NoDup_cons. set_solver. Qed.
Lemma fresh_nil seen : fresh seen [].
Proof. split; [constructor|set_solver]. Qed.
Lemma fresh_empty names : fresh ∅ names ↔ NoDup names.
Proof. unfold fresh. set_solver. Qed.

(** A refusal in front of the rest of a check, and one check after another. *)
Lemma refuse_iff (b : bool) e (rest : result unit) :
  (if b then Err e else rest) = Ok tt ↔ b = false ∧ rest = Ok tt.
Proof. destruct b; split; [done|by intros [? _]|done|by intros [_ ?]]. Qed.
Lemma seq_iff (a b : result unit) : (a;; b) = Ok tt ↔ a = Ok tt ∧ b = Ok tt.
Proof. rewrite result_bind_ok. split; [intros ([] & -> & ->); done|intros [-> ->]; by exists tt]. Qed.

(** [rules]: read the tests of a check as propositions. *)
Ltac rules :=
  repeat (rewrite refuse_iff || rewrite seq_iff);
  rewrite ?bool_decide_eq_false, ?negb_false_iff, ?bool_decide_eq_true, ?orb_false_iff,
    ?Z.leb_gt, ?Z.ltb_ge, ?not_elem_of_cons, ?fresh_cons.

Lemma validate_shards_iff shards seen :
  validate_shards shards seen = Ok tt ↔
  "" ∉ (cs_ID <$> shards) ∧ "" ∉ (cs_DSN <$> shards) ∧ fresh seen (cs_ID <$> shards).
Proof.
  revert seen. induction shards as [|sh shards IH]; intros seen; cbn [validate_shards fmap list_fmap].
  - split; [intros _|done]. split_and!; [set_solver..|apply fresh_nil].
  - rules. rewrite IH. naive_solver.
Qed.

Lemma validate_addresses_iff addrs seen :
  validate_addresses addrs seen = Ok tt ↔ "" ∉ addrs ∧ fresh seen addrs.
Proof.
  revert seen. induction addrs as [|a addrs IH]; intros seen; cbn [validate_addresses].
  - split; [intros _|done]. split; [set_solver|apply fresh_nil].
  - rules. rewrite IH. naive_solver.
Qed.

Lemma validate_gutter_iff addrs primary seen :
  validate_gutter addrs primary seen = Ok tt ↔ "" ∉ addrs ∧ fresh seen addrs ∧ ∀ a, a ∈ addrs → a ∉ primary.
Proof.
  revert seen. induction addrs as [|a addrs IH]; intros seen; cbn [validate_gutter].
  - split; [intros _|done]. split_and!; [set_solver|apply fresh_nil|set_solver].
  - rules. rewrite IH. set_solver.
Qed.

Lemma Admission_validate_iff a : Admission_validate a = Ok tt ↔ admission_ok a.
Proof.
  unfold Admission_validate, admission_ok. destruct (ca_Enabled a); cbn [negb]; [|done].
  rules. naive_solver.
Qed.

Lemma Lease_validate_iff l : Lease_validate l = Ok tt ↔ lease_ok l.
Proof. unfold Lease_validate, lease_ok. rules. intuition lia. Qed.

Lemma Breaker_validate_iff b : Breaker_validate b = Ok tt ↔ breaker_ok b.
Proof. unfold Breaker_validate, breaker_ok, fraction_ok. rules. naive_solver. Qed.

Lemma Gutter_validate_iff g primary : Gutter_validate g primary = Ok tt ↔ gutter_ok g primary.
Proof.
  unfold Gutter_validate, gutter_ok. case_bool_decide as Hg; [done|]. rules.
  rewrite validate_gutter_iff, fresh_empty. unfold names_ok. setoid_rewrite elem_of_list_to_set. naive_solver.
Qed.

Lemma Consistency_validate_iff c : Consistency_validate c = Ok tt ↔ consistency_ok c.
Proof. unfold Consistency_validate, consistency_ok. cbn [validate_positive]. rules. naive_solver. Qed.

Lemma validate_topology_shards_iff ids declared seen :
  validate_topology_shards ids declared seen = Ok tt ↔ (∀ id, id ∈ ids → id ∈ declared) ∧ fresh seen ids.
Proof.
  revert seen. induction ids as [|id ids IH]; intros seen; cbn [validate_topology_shards].
  - split; [intros _|done]. split; [set_solver|apply fresh_nil].
  - rules. rewrite IH. set_solver.
Qed.

Lemma validate_topologies_iff topos ids seen out :
  validate_topologies topos (list_to_set ids) seen = Ok out ↔
  out = list_to_set (tp_Name <$> topos) ∪ seen ∧ "" ∉ (tp_Name <$> topos) ∧ fresh seen (tp_Name <$> topos) ∧
  Forall (topology_ok ids) topos.
Proof.
  revert seen. induction topos as [|topo topos IH]; intros seen; cbn [validate_topologies fmap list_fmap list_to_set].
  - rewrite union_empty_l_L. split; [intros [= <-]|by intros [-> _]]. split_and!; [done|set_solver|apply fresh_nil|constructor].
  - case_bool_decide as Hn; [split; [done|set_solver]|]. case_bool_decide as Hs.
    { split; [done|]. intros (_ & _ & [Hf _]%fresh_cons & _). done. }
    case_bool_decide as He; [split; [done|]; intros (_ & _ & _ & [[Hne _] _]%Forall_cons); done|].
    rewrite result_bind_ok, fresh_cons, not_elem_of_cons, Forall_cons.
    transitivity (validate_topology_shards (tp_Shards topo) (list_to_set ids) ∅ = Ok tt ∧
                  validate_topologies topos (list_to_set ids) ({[tp_Name topo]} ∪ seen) = Ok out).
    { split; [intros ([] & ? & ?); done|intros [? ?]; by exists tt]. }
    rewrite IH, validate_topology_shards_iff, fresh_empty. unfold topology_ok. setoid_rewrite elem_of_list_to_set.
    replace (list_to_set (tp_Name <$> topos) ∪ ({[tp_Name topo]} ∪ seen))
      with ({[tp_Name topo]} ∪ list_to_set (tp_Name <$> topos) ∪ seen : gset string) by set_solver.
    naive_solver.
Qed.

(** ** Lemmas: tables *)

Section tables.
Context (ToLower sha256_16 : string → string).

Lemma index_by_name_dom columns n : is_Some (index_by_name columns !! n) ↔ n ∈ col_Name <$> columns.
Proof.
  unfold index_by_name.
  assert (∀ m : gmap string Column, is_Some (foldl (λ m c, <[col_Name c := c]> m) m columns !! n) ↔
            is_Some (m !! n) ∨ n ∈ col_Name <$> columns) as H.
  { induction columns as [|c cols IH]; intros m; cbn [foldl fmap list_fmap]; [set_solver|].
    rewrite IH, lookup_insert_is_Some', elem_of_cons. naive_solver. }
  rewrite H, lookup_empty. split; [intros [[? ?]|?]; done|by right].
Qed.

Lemma descriptor_names cfg d : NewDescriptor ToLower sha256_16 cfg = Ok d → col_Name <$> d_Columns d = cc_Name <$> tc_Columns cfg.
Proof.
  unfold NewDescriptor. destruct (negb _); [done|]. case_bool_decide; [done|].
  intros (columns & Hb & Hd)%result_bind_ok. case_bool_decide; [done|].
  apply result_bind_ok in Hd as (pk & _ & Hd). case_bool_decide; [done|].
  destruct (index_by_name columns !! _); [|done]. destruct (negb _); [done|]. destruct (col_Nullable _); [done|].
  injection Hd as <-. cbn. apply build_columns_ok in Hb as (built & -> & Hl & Hb). cbn. apply list_eq. intros j. rewrite !list_lookup_fmap.
  destruct (tc_Columns cfg !! j) as [cc|] eqn:E; [by destruct (Hb _ _ E) as (-> & _)|].
  apply lookup_ge_None in E. by rewrite (lookup_ge_None_2 built) by lia.
Qed.

Lemma Descriptor_Column_declared cfg d n :
  NewDescriptor ToLower sha256_16 cfg = Ok d → is_Some (Descriptor_Column d n) ↔ n ∈ cc_Name <$> tc_Columns cfg.
Proof.
  intros Hd. unfold Descriptor_Column. rewrite (NewDescriptor_byName _ _ _ _ Hd), index_by_name_dom.
  by rewrite (descriptor_names _ _ Hd).
Qed.

Lemma validatePredicates_iff cfg d ps : NewDescriptor ToLower sha256_16 cfg = Ok d →
  validatePredicates d ps = Ok tt ↔ Forall (predicate_ok (cc_Name <$> tc_Columns cfg)) ps.
Proof.
  intros Hd. induction ps as [|p ps IH]; cbn [validatePredicates]; [split; [by constructor|done]|].
  rewrite Forall_cons. unfold predicate_ok at 1. rules.
  assert (forallb (λ name, bool_decide (is_Some (Descriptor_Column d name))) (cp_Match p ++ cp_Set p) = true ↔
          ∀ name, name ∈ cp_Match p ++ cp_Set p → name ∈ cc_Name <$> tc_Columns cfg) as Hall.
  { rewrite forallb_forall. setoid_rewrite bool_decide_eq_true. setoid_rewrite (Descriptor_Column_declared _ _ _ Hd).
    by setoid_rewrite list_elem_of_In. }
  destruct (forallb _ _); [rewrite IH; naive_solver|].
  split; [by intros (_ & _ & ?)|]. intros ((_ & _ & H) & _). apply Hall in H. done.
Qed.

Lemma validate_declared_iff ts topologies seen : "" ∉ topologies →
  validate_declared ToLower sha256_16 ts (list_to_set topologies) seen = Ok tt ↔
  fresh seen (cfg_Name <$> ts) ∧ Forall (table_ok ToLower sha256_16 topologies) ts.
Proof.
  intros Hempty. revert seen. induction ts as [|t ts IH]; intros seen; cbn [validate_declared fmap list_fmap].
  { split; [split; [apply fresh_nil|constructor]|done]. }
  rewrite fresh_cons, Forall_cons. unfold table_ok at 1.
  destruct (cfg_Descriptor ToLower sha256_16 t) as [d|e|w] eqn:Ed; [|split; [done|naive_solver]..].
  pose proof (descriptor_wf _ _ _ _ Ed) as (_ & Hname & _). rewrite Hname. fold (cfg_Name t).
  rules. rewrite (validatePredicates_iff _ _ _ Ed), IH, elem_of_list_to_set. cbn [is_ok].
  assert (ct_Topology t ∈ topologies → ct_Topology t ≠ "") by (intros Ht Heq; by rewrite Heq in Ht). naive_solver.
Qed.

Lemma validateTables_iff c :
  Config_validateTables ToLower sha256_16 c = Ok tt ↔
  (cf_Topologies c ≠ [] ∧ names_ok (tp_Name <$> cf_Topologies c) ∧
   Forall (topology_ok (cs_ID <$> cf_Shards c)) (cf_Topologies c)) ∧
  (cf_Tables c ≠ [] ∧ NoDup (cfg_Name <$> cf_Tables c) ∧
   Forall (table_ok ToLower sha256_16 (tp_Name <$> cf_Topologies c)) (cf_Tables c)).
Proof.
  unfold Config_validateTables, errNoTopologies, errNoTables. rules. unfold names_ok.
  rewrite result_bind_ok. setoid_rewrite validate_topologies_iff. split.
  - intros (H1 & H2 & out & (-> & H3 & H4%fresh_empty & H5) & H6). rewrite union_empty_r_L in H6.
    apply (validate_declared_iff _ _ _ H3) in H6 as [H6%fresh_empty H7]. done.
  - intros ((H1 & (H2 & H3) & H4) & H5 & H6 & H7). split_and!; [done..|]. eexists. split.
    + split_and!; [done|done|by apply fresh_empty|done].
    + rewrite union_empty_r_L. apply validate_declared_iff; [done|]. by rewrite fresh_empty.
Qed.
End tables.

(** ** Lemmas: addresses and levels *)

Lemma str_index_split sub s : ∀ i j, str_index s sub i = Some j →
  (i ≤ j)%nat ∧ s = str_take (j - i) s +:+ sub +:+ str_drop (j - i + String.length sub) s.
Proof.
  induction s as [|c s IH]; intros i j; cbn [str_index].
  - destruct (str_prefix sub "") eqn:E; [|done]. intros [= ->]. split; [done|].
    apply str_prefix_spec in E as (post & E). rewrite E, Nat.sub_diag. cbn [Nat.add].
    rewrite str_drop_length_app. by destruct (sub +:+ post).
  - destruct (str_prefix sub (String c s)) eqn:E.
    + intros [= ->]. split; [done|]. apply str_prefix_spec in E as (post & ->). rewrite Nat.sub_diag. cbn [Nat.add].
      rewrite str_drop_length_app. by destruct (sub +:+ post).
    + intros [Hle Hs]%IH. split; [lia|]. replace (j - i)%nat with (S (j - S i)) by lia.
      cbn [Nat.add str_take str_drop]. by rewrite str_app_cons, <-Hs.
Qed.

Lemma cut_str_Some s sep a b : cut_str s sep = Some (a, b) → s = a +:+ sep +:+ b.
Proof.
  unfold cut_str, str_Index. destruct (str_index s sep 0) as [j|] eqn:E; [|done].
  apply str_index_split in E as [_ Hs]. rewrite Nat.sub_0_r in Hs. by intros [= <- <-].
Qed.

Lemma ParseListen_iff linux raw network address :
  ParseListen linux raw = Ok (mkListener network address) ↔
  raw = network +:+ "://" +:+ address ∧ address ≠ "" ∧
  (network ∈ ["tcp"; "tcp4"; "tcp6"] ∨
   network = "unix" ∧ str_prefix "/" address = true ∧ str_len address ≤ maxUnixSocketPath linux).
Proof.
  unfold ParseListen. split.
  - destruct (cut_str raw "://") as [[scheme rest]|] eqn:E; [|done]. apply cut_str_Some in E.
    case_bool_decide as H1; [done|]. case_bool_decide as H2; [intros [= <- <-]; by split_and!; [..|left]|].
    case_bool_decide as H3; [|done]. subst scheme. destruct (str_prefix "/" rest) eqn:H4; cbn [negb]; [|done].
    destruct (Z.ltb_spec (maxUnixSocketPath linux) (str_len rest)) as [?|H5]; [done|]. intros [= <- <-]. split_and!; [done..|by right].
  - assert (∀ n, n ∈ ["tcp"; "tcp4"; "tcp6"; "unix"] → cut_str (n +:+ "://" +:+ address) "://" = Some (n, address)) as Hcut.
    { intros n Hn. repeat (apply elem_of_cons in Hn as [->|Hn]; [by destruct address|]). by apply elem_of_nil in Hn. }
    intros (-> & Hne & H). rewrite Hcut by (destruct H as [H|[-> _]]; set_solver).
    rewrite bool_decide_eq_false_2 by done. destruct H as [H|(-> & Hp & Hl)]; [by rewrite bool_decide_eq_true_2|].
    rewrite bool_decide_eq_false_2 by set_solver. rewrite bool_decide_eq_true_2, Hp by done. cbn [negb].
    by destruct (Z.ltb_spec (maxUnixSocketPath linux) (str_len address)); [lia|].
Qed.

Lemma parse_listens_iff linux raws out :
  is_ok (parse_listens linux raws out) = true ↔ Forall (listen_ok linux) raws.
Proof.
  revert out. induction raws as [|raw raws IH]; intros out; cbn [parse_listens]; [split; [by constructor|done]|].
  rewrite Forall_cons. assert (is_ok (ParseListen linux raw) = true ↔ listen_ok linux raw) as <-.
  { unfold listen_ok. setoid_rewrite <-ParseListen_iff.
    destruct (ParseListen linux raw) as [[n a]|e|w]; (split; [try done; eauto|by intros (? & ? & ?)]). }
  destruct (ParseListen linux raw) as [l|e|w]; cbn [mbind result_bind is_ok]; [|split; [done|by intros [? _]]..].
  rewrite IH. naive_solver.
Qed.

Lemma levelNames_inj lv lv' name : levelNames lv = Some name → levelNames lv' = Some name → lv = lv'.
Proof. unfold levelNames. case_ifs; zify_bool; subst; congruence. Qed.

Lemma ParseLevel_iff ToUpper s lv : ParseLevel ToUpper s = Ok lv ↔ levelNames lv = Some (ToUpper (TrimSpace s)).
Proof.
  unfold ParseLevel. destruct (find _ _) as [lv'|] eqn:E.
  - apply find_some in E as [_ E%bool_decide_eq_true]. split; [by intros [= <-]|].
    intros H. f_equal. by eapply levelNames_inj.
  - split; [done|]. intros H. assert (In lv [Session; Strong; Bounded; Eventual]) as Hin.
    { unfold levelNames in H. case_ifs; zify_bool; subst; cbn; tauto || done. }
    pose proof (find_none _ _ E lv Hin) as Hn. cbv beta in Hn. by apply bool_decide_eq_false in Hn.
Qed.

Lemma seq_any {A} (a : result A) (b : result unit) : (a;; b) = Ok tt ↔ is_ok a = true ∧ b = Ok tt.
Proof. destruct a; cbn; naive_solver. Qed.

Lemma level_then ToUpper s (rest : result unit) :
  match ParseLevel ToUpper s with
  | Err e => Err (Wrapf "config: default_level" e)
  | Panic p => Panic p
  | Ok _ => rest
  end = Ok tt ↔ (∃ lv name, levelNames lv = Some name ∧ ToUpper (TrimSpace s) = name) ∧ rest = Ok tt.
Proof.
  transitivity ((∃ lv, ParseLevel ToUpper s = Ok lv) ∧ rest = Ok tt); [destruct (ParseLevel _ _); naive_solver|].
  setoid_rewrite ParseLevel_iff. naive_solver.
Qed.

(** ** Lemmas: the shards of a table *)

Lemma find_unique {A} (f : A → string) l x : NoDup (f <$> l) → x ∈ l → find (λ y, bool_decide (f y = f x)) l = Some x.
Proof.
  induction l as [|y l IH]; [set_solver|]. cbn [fmap list_fmap find]. rewrite NoDup_cons, elem_of_cons.
  intros [Hy Hl] Hx. case_bool_decide as Hf.
  - destruct Hx as [->|Hx]; [done|]. rewrite Hf in Hy. exfalso. by apply Hy, list_elem_of_fmap_2.
  - destruct Hx as [->|Hx]; [done|]. by apply IH.
Qed.

Lemma omap_shards (shards : list cfg_Shard) (ids : list string) : (∀ id, id ∈ ids → id ∈ cs_ID <$> shards) →
  cs_ID <$> omap (shard_named shards) ids = ids ∧ ∀ sh, sh ∈ omap (shard_named shards) ids → sh ∈ shards.
Proof.
  induction ids as [|id ids IH]; intros Hin; [split; [done|set_solver]|].
  destruct IH as [IH1 IH2]; [set_solver|].
  destruct (shard_named shards id) as [sh|] eqn:E.
  - cbn [omap list_omap]. rewrite E. apply find_some in E as [E1 E2%bool_decide_eq_true]. cbn [fmap list_fmap].
    split; [by f_equal|]. intros sh'. rewrite elem_of_cons. intros [->|?]; [by apply list_elem_of_In|by apply IH2].
  - exfalso. assert (id ∈ cs_ID <$> shards) as (sh & -> & Hsh)%list_elem_of_fmap by (apply Hin; by left).
    apply list_elem_of_In, (find_none _ _ E) in Hsh. by apply bool_decide_eq_false in Hsh.
Qed.

Section shards.
Context (linux : bool) (ToUpper ToLower sha256_16 : string → string).

Lemma TableNamed_declared (c : Config) (t : cfg_Table) :
  config_ok linux ToUpper ToLower sha256_16 c → t ∈ cf_Tables c → Config_TableNamed c (cfg_Name t) = Some t.
Proof. intros [] Ht. apply (find_unique cfg_Name); naive_solver. Qed.

Lemma ShardsFor_declared (c : Config) (t : cfg_Table) :
  config_ok linux ToUpper ToLower sha256_16 c → t ∈ cf_Tables c →
  ∃ topo shards, topo ∈ cf_Topologies c ∧ tp_Name topo = ct_Topology t ∧
    Config_ShardsFor c (cfg_Name t) = Ok shards ∧ cs_ID <$> shards = tp_Shards topo ∧
    shards ≠ [] ∧ NoDup (tp_Shards topo) ∧ ∀ sh, sh ∈ shards → sh ∈ cf_Shards c.
Proof.
  intros Hc Ht. unfold Config_ShardsFor. rewrite (TableNamed_declared _ _ Hc Ht). destruct Hc.
  destruct ok_tables0 as (_ & _ & Hts). rewrite Forall_forall in Hts. destruct (Hts _ Ht) as (_ & Htopo & _).
  apply list_elem_of_fmap in Htopo as (topo & Htn & Htopo).
  destruct ok_topologies0 as (_ & [_ Hnd] & Htp). rewrite Forall_forall in Htp. destruct (Htp _ Htopo) as (Hne & Hnd' & Hin).
  rewrite Htn, (find_unique tp_Name _ topo) by done.
  destruct (omap_shards (cf_Shards c) (tp_Shards topo) Hin) as [H1 H2].
  eexists topo, _. split_and!; try done. intros Hnil. rewrite Hnil in H1. by rewrite <-H1 in Hne.
Qed.
End shards.

Section validate_rules.
Context (linux : bool) (ToUpper ToLower sha256_16 : string → string).

Lemma validate_rules (c : Config) :
  Config_Validate linux ToUpper ToLower sha256_16 c = Ok tt ↔ config_ok linux ToUpper ToLower sha256_16 c.
Proof.
  unfold Config_Validate, Config_Listeners. rewrite refuse_iff, bool_decide_eq_false, seq_any, parse_listens_iff. rules.
  rewrite level_then. rules.
  rewrite validate_shards_iff, validate_addresses_iff, !fresh_empty, Admission_validate_iff, Lease_validate_iff,
    Breaker_validate_iff, Gutter_validate_iff, validateTables_iff, Consistency_validate_iff.
  split.
  - intros H. destruct_and! H. by constructor; unfold names_ok.
  - intros [H1 H2 H3 H4 H5 H6 H7 H8 H9 H10 H11 H12]. unfold names_ok in *. tauto.
Qed.
End validate_rules.

(** ** Properties *)

Section validate.
Context (linux : bool) (ToUpper ToLower sha256_16 : string → string).

(** C25: Validate accepts exactly the configurations the rules allow: addresses that
    parse, shards and cache nodes named once, thresholds in range, a gutter apart from
    the pool it stands by for, topologies of declared shards, tables with distinct
    names, valid descriptors, a declared topology and predicates over declared
    columns, and positive guarantee settings. *)
Theorem Config_Validate_iff (c : Config) :
  Config_Validate linux ToUpper ToLower sha256_16 c = Ok tt ↔ config_ok linux ToUpper ToLower sha256_16 c.
Proof. apply validate_rules. Qed.

(** In a configuration that validates, the shards of a table are those its
    topology names, in that order and each once: none is dropped as unknown. *)
Theorem ShardsFor_resolves (c : Config) (t : cfg_Table)
    (Hc : Config_Validate linux ToUpper ToLower sha256_16 c = Ok tt) (Ht : t ∈ cf_Tables c) :
  ∃ topo shards, topo ∈ cf_Topologies c ∧ tp_Name topo = ct_Topology t ∧
    Config_ShardsFor c (cfg_Name t) = Ok shards ∧ cs_ID <$> shards = tp_Shards topo ∧
    shards ≠ [] ∧ NoDup (tp_Shards topo) ∧ ∀ sh, sh ∈ shards → sh ∈ cf_Shards c.
Proof. eapply ShardsFor_declared; [by apply validate_rules|done]. Qed.

(** The defaults validate once a file declares shards, topologies and tables,
    whatever it declares as long as these parts obey their rules; shards alone are
    refused, for want of a topology. *)
Theorem Default_validates (shards : list cfg_Shard) (topologies : list Topology) (tables : list cfg_Table)
    (HU : ToUpper "SESSION" = "SESSION") :
  let c := declare cfg_Default shards topologies tables in
  (Config_Validate linux ToUpper ToLower sha256_16 c = Ok tt ↔
   (shards ≠ [] ∧ names_ok (cs_ID <$> shards) ∧ "" ∉ (cs_DSN <$> shards)) ∧
   (topologies ≠ [] ∧ names_ok (tp_Name <$> topologies) ∧ Forall (topology_ok (cs_ID <$> shards)) topologies) ∧
   (tables ≠ [] ∧ NoDup (cfg_Name <$> tables) ∧
    Forall (table_ok ToLower sha256_16 (tp_Name <$> topologies)) tables)) ∧
  (shards ≠ [] → names_ok (cs_ID <$> shards) → "" ∉ (cs_DSN <$> shards) →
   Config_Validate linux ToUpper ToLower sha256_16 (declare cfg_Default shards [] []) = Err errNoTopologies).
Proof.
  cbv zeta. assert (levelNames Session = Some (ToUpper (TrimSpace "SESSION"))) as HL.
  { change (TrimSpace "SESSION") with "SESSION". by rewrite HU. }
  split.
  - rewrite validate_rules. split; [by intros []|]. intros (H1 & H2 & H3). constructor; try done.
    + split; [done|]. constructor; [|constructor]. exists "tcp", ":9090". split_and!; [done|done|left; set_solver].
    + split; [set_solver|constructor].
    + by eexists _, _.
  - intros H1 [H2 H2'] H3. unfold Config_Validate. cbn [cf_Listen cf_Shards declare cfg_Default].
    rewrite bool_decide_eq_false_2 by done. change (Config_Listeners linux _) with (Ok [mkListener "tcp" ":9090"]).
    cbn [mbind result_bind]. rewrite bool_decide_eq_false_2 by done.
    rewrite (proj2 (validate_shards_iff shards ∅)) by (by rewrite fresh_empty). cbn [mbind result_bind].
    change (cf_DefaultLevel _) with "SESSION". by rewrite (proj2 (ParseLevel_iff ToUpper "SESSION" Session) HL).
Qed.
End validate.

(** ** Witnesses *)

Definition demo_shards : list cfg_Shard := [mkCfgShard "s1" "u:p@tcp(a:1)/d"; mkCfgShard "s2" "u:p@tcp(b:1)/d"].
Definition demo_topologies : list Topology := [mkTopology "main" ["s2"; "s1"]].
Definition demo_tables : list cfg_Table :=
  [mkCfgTable users_config "main" [mkCfgPredicate ["tenant"] ["status"]]].
Definition demo_config : Config := declare cfg_Default demo_shards demo_topologies demo_tables.

Lemma Default_validates_witness : Config_Validate true (λ s, s) (λ s, s) (λ s, s) demo_config = Ok tt.
Proof.
  refine (proj2 (proj1 (Default_validates true (λ s, s) (λ s, s) (λ s, s) demo_shards demo_topologies demo_tables eq_refl)) _).
  assert (NoDup ["s1"; "s2"] ∧ NoDup ["s2"; "s1"] ∧ NoDup ["main"]) as (N1 & N2 & N3).
  { split_and!; by apply (bool_decide_eq_true_1 _); vm_compute. }
  split_and!; [done|split; [set_solver|done]|set_solver|done|split; [set_solver|repeat constructor; set_solver]| |done|repeat constructor; set_solver|].
  - constructor; [|constructor]. split_and!; [done|done|set_solver].
  - constructor; [|constructor]. split_and!; [reflexivity|set_solver|].
    constructor; [|constructor]. split_and!; [done|done|set_solver].
Defined.

Lemma ShardsFor_resolves_witness :
  ∃ topo shards, topo ∈ cf_Topologies demo_config ∧ tp_Name topo = "main" ∧
    Config_ShardsFor demo_config "users" = Ok shards ∧ cs_ID <$> shards = tp_Shards topo ∧
    shards ≠ [] ∧ NoDup (tp_Shards topo) ∧ ∀ sh, sh ∈ shards → sh ∈ cf_Shards demo_config.
Proof.
  apply (ShardsFor_resolves true (λ s, s) (λ s, s) (λ s, s) demo_config (mkCfgTable users_config "main" [mkCfgPredicate ["tenant"] ["status"]]));
    [vm_compute; reflexivity|by left].
Defined.
