(* ===== verification/EnvSpec.v ===== *)
(** The references a data source name may hold: what [expandEnv] of
    [src/internal/config/expand.go] makes of a text. *)

From S2P Require Import Prelude GoStd Regexp Config.

Local Open Scope Z_scope.

(** ** Templates

    A text with references, as its author sees it: a plain part, then each name
    with the plain part that follows its closing brace. *)

Record template := mkTemplate { tm_head : string; tm_refs : list (string * string) }.

Definition ref_text (name : string) : string := "${" +:+ name +:+ "}".

Definition template_text (t : template) : string :=
  tm_head t +:+ foldr (λ r acc, ref_text r.1 +:+ r.2 +:+ acc) "" (tm_refs t).

Definition template_value (env : gmap string string) (t : template) : string :=
  tm_head t +:+ foldr (λ r acc, default (ref_text r.1) (env !! r.1) +:+ r.2 +:+ acc) "" (tm_refs t).

Definition first_class : class := cl_or cl_lower (cl_or cl_upper (is_char "_")).
Definition name_class : class := cl_or (cl_or cl_lower cl_upper) (cl_or cl_digit (is_char "_")).

Definition name_ok (n : string) : bool :=
  match n with "" => false | String c n => first_class c && str_all name_class n end.

(** A plain part holds no opening of a reference. *)
Definition plain (s : string) : Prop := str_contains "${" s = false.

Definition template_ok (t : template) : Prop :=
  plain (tm_head t) ∧ Forall (λ r, name_ok r.1 = true ∧ plain r.2) (tm_refs t).

(** ** Lemmas *)

(** A greedy repetition whose longest run is accepted takes it. *)
Lemma run_many_longest {A} p m : ∀ b c r (k : place → option A) x,
  str_all p m = true → p c = false → k (mkPlace (str_rev m b) (String c r)) = Some x →
  run_many true 0 p b (m +:+ String c r) k = Some x.
Proof.
  induction m as [|d m IH]; intros b c r k x Hm Hc Hk.
  - cbn. by rewrite Hc.
  - cbn [str_all] in Hm. apply andb_true_iff in Hm as [Hd Hm]. rewrite str_app_cons. cbn [run_many Nat.pred]. rewrite Hd.
    by rewrite (IH _ _ _ k x).
Qed.

Lemma match_ref_open b s : ¬ match_at envRefRe (mkPlace b s) = None → str_prefix "${" s = true.
Proof.
  unfold match_at, envRefRe. cbn [RSeqs foldr RLit re_run rest before]. intros H.
  destruct s as [|c s]; [done|]. destruct (is_char "$" c) eqn:Ec; [|done]. apply Ascii.eqb_eq in Ec as <-.
  destruct s as [|c2 s]; [done|]. destruct (is_char "{" c2) eqn:Ec; [|done]. by apply Ascii.eqb_eq in Ec as <-.
Qed.

Lemma match_ref b n s : name_ok n = true →
  ∃ g, match_at envRefRe (mkPlace b (ref_text n +:+ s)) = Some (mkPlace (str_rev (ref_text n) b) s, g).
Proof.
  unfold ref_text. destruct n as [|c n]; [done|]. cbn [name_ok]. intros [Hc Hn]%andb_true_iff.
  exists []. unfold match_at, envRefRe. rewrite <-!str_app_assoc, !str_app_cons. cbn [RSeqs foldr RLit re_run rest before].
  change (is_char "$"%char "$"%char) with true. change (is_char "{"%char "{"%char) with true. cbv iota.
  repeat match goal with |- context ["" +:+ ?x] => change ("" +:+ x) with x end. cbv iota.
  unfold first_class in Hc. rewrite Hc. apply run_many_longest; [done..|]. cbn [rest before].
  change (is_char "}"%char "}"%char) with true. cbv iota. cbn [str_rev]. by rewrite str_rev_app.
Qed.

(** In front of the first reference nothing matches. *)
Lemma find_ref t : plain t → ∀ b n s, name_ok n = true →
  ∃ g, find_from envRefRe b (t +:+ ref_text n +:+ s) =
    Some (mkPlace (str_rev t b) (ref_text n +:+ s), mkPlace (str_rev (ref_text n) (str_rev t b)) s, g).
Proof.
  unfold plain. induction t as [|c t IH]; intros Ht b n s Hn.
  - destruct (match_ref b n s Hn) as [g Hg]. exists g. cbn [str_rev].
    change ("" +:+ ref_text n +:+ s) with (ref_text n +:+ s). 
    destruct (ref_text n +:+ s) eqn:E; cbn [find_from]; by rewrite Hg.
  - cbn [str_contains] in Ht. apply orb_false_iff in Ht as [Hp Ht]. rewrite str_app_cons. cbn [find_from].
    destruct (match_at envRefRe (mkPlace b (String c (t +:+ ref_text n +:+ s)))) as [[pl g]|] eqn:E; [exfalso|].
    + assert (str_prefix "${" (String c (t +:+ ref_text n +:+ s)) = true) as H by (apply (match_ref_open b); by rewrite E).
      cbn [str_prefix] in H, Hp. apply andb_true_iff in H as [Hd H]. rewrite Hd in Hp. cbn [andb] in Hp.
      destruct t as [|d t]; [done|]. rewrite str_app_cons in H. cbn [str_prefix] in *. congruence.
    + apply (IH Ht (String c b) n s Hn).
Qed.

Lemma find_plain t b : plain t → find_from envRefRe b t = None.
Proof.
  unfold plain. revert b. induction t as [|c t IH]; intros b Ht.
  - cbn [find_from]. by destruct (match_at envRefRe (mkPlace b "")) eqn:E; [|].
  - cbn [str_contains] in Ht. apply orb_false_iff in Ht as [Hp Ht]. cbn [find_from].
    destruct (match_at envRefRe (mkPlace b (String c t))) eqn:E; [|by apply IH].
    assert (str_prefix "${" (String c t) = true) as H by (apply (match_ref_open b); by rewrite E). congruence.
Qed.

Lemma template_pieces refs : ∀ fuel b head,
  plain head → Forall (λ r, name_ok r.1 = true ∧ plain r.2) refs →
  (String.length (template_text (mkTemplate head refs)) < fuel)%nat →
  pieces_all fuel envRefRe b (template_text (mkTemplate head refs)) =
    inl head :: concat ((λ r, [inr (ref_text r.1); inl r.2]) <$> refs).
Proof.
  induction refs as [|[n t] refs IH]; intros fuel b head Hh Hr Hf; (destruct fuel as [|fuel]; [lia|]); cbn [pieces_all].
  - unfold template_text. cbn. by rewrite str_app_nil_r, find_plain.
  - apply Forall_cons in Hr as [[Hn Ht] Hr]. unfold template_text in *. cbn [tm_head tm_refs foldr fst snd] in *.
    set (tail := t +:+ foldr _ "" refs) in *.
    destruct (find_ref head Hh b n tail Hn) as [g ->]. cbn [rest before].
    replace (str_take _ _) with head; [|rewrite !str_length_app].
    2:{ replace (_ - _)%nat with (String.length head) by lia. by rewrite str_take_length_app. }
    replace (span _ _) with (ref_text n).
    2:{ symmetry. apply span_runs. done. }
    rewrite (IH fuel _ t); [done|done|done|]. fold tail. rewrite !str_length_app in Hf.
    assert (0 < String.length (ref_text n))%nat by (unfold ref_text; cbn; lia). lia.
Qed.

Lemma ref_name_text n : ref_name (ref_text n) = n.
Proof.
  unfold ref_name, ref_text. rewrite !str_length_app. change (str_drop 2 ("${" +:+ n +:+ "}")) with (n +:+ "}").
  replace (_ - 3)%nat with (String.length n) by (cbn; lia). apply str_take_length_app.
Qed.

Lemma replaced_refs env refs :
  foldr (λ p acc, replace_ref env p +:+ acc) "" (concat ((λ r : string * string, [inr (ref_text r.1); inl r.2]) <$> refs)) =
  foldr (λ r acc, default (ref_text r.1) (env !! r.1) +:+ r.2 +:+ acc) "" refs.
Proof.
  induction refs as [|[n t] refs IH]; [done|]. cbn [fmap list_fmap concat app foldr replace_ref fst snd].
  rewrite ref_name_text, IH. by destruct (env !! n).
Qed.

Lemma missed_refs env refs :
  missing_refs env (concat ((λ r : string * string, [inr (ref_text r.1); inl r.2]) <$> refs)) =
  filter (λ n, env !! n = None) refs.*1.
Proof.
  unfold missing_refs. induction refs as [|[n t] refs IH]; [done|]. cbn [fmap list_fmap concat app omap list_omap fst snd].
  rewrite ref_name_text, filter_cons, IH. by destruct (env !! n).
Qed.

Lemma contains_app sub a b : str_contains sub b = true → str_contains sub (a +:+ b) = true.
Proof.
  intros Hb. induction a as [|c a IH]; [done|]. rewrite str_app_cons. cbn [str_contains]. rewrite IH. by rewrite orb_true_r.
Qed.

Lemma contains_prefix sub s : str_prefix sub s = true → str_contains sub s = true.
Proof. destruct s; cbn [str_contains]; by intros ->. Qed.

Lemma expandEnv_refs (env : gmap string string) (t : template) (H : template_ok t) :
  expandEnv (template_text t) env =
  match filter (λ n, env !! n = None) (tm_refs t).*1 with
  | [] => if str_contains "${" (template_value env t)
          then Err (Errorf "contains a ${…} reference that is not a plain variable name")
          else Ok (template_value env t)
  | missing => Err (Errorf (join ", " missing +:+ " is not set in the environment"))
  end.
Proof.
  destruct H as [Hh Hr]. destruct t as [head refs]. cbn [tm_head tm_refs] in *. unfold expandEnv.
  destruct refs as [|r refs].
  - unfold template_text, template_value. cbn [foldr tm_head tm_refs fmap list_fmap]. rewrite str_app_nil_r.
    unfold plain in Hh. by rewrite Hh.
  - assert (str_contains "${" (template_text (mkTemplate head (r :: refs))) = true) as ->.
    { apply contains_app, contains_prefix. unfold ref_text. cbn [foldr tm_refs]. rewrite <-!str_app_assoc. apply str_prefix_app. }
    unfold re_pieces. rewrite template_pieces by (done || lia). cbn [foldr replace_ref negb].
    rewrite replaced_refs. assert (∀ l, missing_refs env (inl head :: l) = missing_refs env l) as -> by done.
    rewrite missed_refs. by destruct (filter _ _).
Qed.

(** ** Properties *)

(** In a data source name with references, each reference whose variable is set
    is replaced by its value, empty or not, and everything else is kept, a bare
    dollar included; when any is not set the error names exactly those, and the
    result never holds the opening of a reference. *)
Theorem expandEnv_template (env : gmap string string) (t : template) (H : template_ok t) :
  expandEnv (template_text t) env =
  match filter (λ n, env !! n = None) (tm_refs t).*1 with
  | [] => if str_contains "${" (template_value env t)
          then Err (Errorf "contains a ${…} reference that is not a plain variable name")
          else Ok (template_value env t)
  | missing => Err (Errorf (join ", " missing +:+ " is not set in the environment"))
  end.
Proof. by apply expandEnv_refs. Qed.

(** ** Witnesses *)

Definition demo_template : template := mkTemplate "cachet:" [("CACHET_DB_PASSWORD", "@tcp(db1:3306)/a$pp")].
Definition demo_env : gmap string string := {["CACHET_DB_PASSWORD" := "s3$cret"]}.

Lemma expandEnv_template_witness :
  expandEnv "cachet:${CACHET_DB_PASSWORD}@tcp(db1:3306)/a$pp" demo_env = Ok "cachet:s3$cret@tcp(db1:3306)/a$pp".
Proof. refine (eq_trans (expandEnv_template demo_env demo_template _) _); [repeat constructor|reflexivity]. Defined.
