(* ===== verification/Boot.v ===== *)
(** From a configuration to verified tables: [src/internal/engine/boot.go].

    What a shard's INFORMATION_SCHEMA answers for a table is the argument
    [live]; Introspect.v reads it.  The connections are state: a table is
    attached to each shard it is verified on, also when a later one fails. *)

From S2P Require Import Prelude GoStd Consistency Freshness Schema Table Mysql Storage Introspect Ring Admission CacheClient Engine Config ConfigSpec.

Local Open Scope Z_scope.

Section boot.
Context (ToLower sha256_16 : string → string) (EqualFold : string → string → bool).
Context (live : string → string → result (list LiveColumn * list Index)).

(** [fmt.Errorf("engine: shard %s: %w", id, err)]. *)
Definition on_shard {A} (r : result A) : result A := match r with Err e => Err (Wrapf "engine: shard" e) | r => r end.

(** What one shard has to agree to, and the statements that come of it. *)
Definition verified_table (d : Descriptor) (declared : cfg_Table) (id : string) : result Table :=
  '(columns, indexes) ← on_shard (live id (d_Name d));
  on_shard (VerifyAgainstLive EqualFold d columns);;
  on_shard (NewTable (Some d) indexes (PredicateSpecs declared)).

(** The loop over the shards of a topology. *)
Fixpoint open_table (d : Descriptor) (declared : cfg_Table) (topology : list cfg_Shard) (ids : list string) :
    M (gmap string Shard) (list string) :=
  match topology with
  | [] => mret ids
  | sh :: topology =>
      shards ← M_get;
      match shards !! cs_ID sh with
      | None => M_fail (Errorf "engine: table is declared on a shard which has no connection")
      | Some shard =>
          t ← M_lift (verified_table d declared (cs_ID sh));
          M_put (<[cs_ID sh := Shard_WithTables shard [t]]> shards);;
          open_table d declared topology (ids ++ [cs_ID sh])
      end
  end.

(** The loop over the declared tables. *)
Fixpoint open_specs (c : Config) (ds : list Descriptor) (specs : list TableSpec) : M (gmap string Shard) (list TableSpec) :=
  match ds with
  | [] => mret specs
  | d :: ds =>
      match Config_TableNamed c (d_Name d) with
      | None => M_fail (Errorf "engine: table vanished between validation and boot")
      | Some declared =>
          topology ← M_lift (Config_ShardsFor c (d_Name d));
          if bool_decide (topology = []) then M_fail (Errorf "engine: table names a topology with no shards")
          else
            ids ← open_table d declared topology [];
            open_specs c ds (specs ++ [mkTableSpec (Some d) ids])
      end
  end.

Definition OpenTables (c : Config) : M (gmap string Shard) (list TableSpec) :=
  ds ← M_lift (Config_Descriptors ToLower sha256_16 c); open_specs c ds [].

Definition descriptorNamed (c : Config) (name : string) : result Descriptor :=
  ds ← Config_Descriptors ToLower sha256_16 c;
  match find (λ d, bool_decide (d_Name d = name)) ds with
  | Some d => Ok d
  | None => Err (Errorf "engine: no such table is declared")
  end.

(** [storage.UndeclaredColumns] of the first shard a table lives on. *)
Definition UndeclaredColumnsOn (c : Config) (shards : gmap string Shard) (name : string) : result (list string) :=
  d ← descriptorNamed c name;
  topology ← Config_ShardsFor c name;
  match topology with
  | [] => Err (Errorf "engine: table names a topology with no shards")
  | sh :: _ =>
      match shards !! cs_ID sh with
      | None => Err (Errorf "engine: shard has no connection")
      | Some _ => '(columns, _) ← live (cs_ID sh) name; Ok (UndeclaredColumns d columns)
      end
  end.
End boot.
