(* ===== verification/BootSpec.v ===== *)
(** Booting: a configuration that validates boots exactly when the databases
    agree with it, and what boots serves what was declared. *)

From S2P Require Import Prelude GoStd Consistency Freshness Schema Table Mysql Storage Introspect Ring Admission CacheClient Engine EngineSpec Config ConfigSpec Boot.

Local Open Scope Z_scope.

Section boot.
Context (linux : bool) (ToUpper ToLower sha256_16 : string → string) (EqualFold : string → string → bool).
Context (live : string → string → result (list LiveColumn * list Index)).

Abbreviation verified := (verified_table EqualFold live).
Abbreviation opening := (open_table EqualFold live).
Abbreviation opening_specs := (open_specs EqualFold live).

(** Every shard of the configuration has a connection. *)
Definition connected (c : Config) (shards : gmap string Shard) : Prop :=
  ∀ sh, sh ∈ cf_Shards c → is_Some (shards !! cs_ID sh).

(** Every declared table is, on each shard of its topology, what was declared. *)
Definition live_agrees (c : Config) : Prop :=
  ∀ t d topo id, t ∈ cf_Tables c → cfg_Descriptor ToLower sha256_16 t = Ok d → topo ∈ cf_Topologies c →
    tp_Name topo = ct_Topology t → id ∈ tp_Shards topo → is_ok (verified d t id) = true.

(** The connection of a shard has the statements of a table. *)
Definition serves (shards : gmap string Shard) (id : string) (d : Descriptor) : Prop :=
  ∃ s tab, shards !! id = Some s ∧ Shard_Table s (d_Name d) = Ok tab ∧ t_d tab = d.

(** ** Lemmas: one table *)

Lemma verified_table_d d t id tab : verified d t id = Ok tab → t_d tab = d.
Proof.
  unfold verified_table. intros ([cols idx] & _ & ([] & _ & H)%result_bind_ok)%result_bind_ok.
  unfold on_shard in H. destruct (NewTable _ _ _) as [tab'|e|w] eqn:E; [|done..]. injection H as ->.
  by apply NewTable_fields in E as (_ & _ & _ & _ & _ & -> & _).
Qed.

Lemma serves_attach shards id s tab d id' d' :
  shards !! id = Some s → t_d tab = d → (d_Name d' ≠ d_Name d ∨ d' = d) →
  serves shards id' d' → serves (<[id := Shard_WithTables s [tab]]> shards) id' d'.
Proof.
  intros Hs Hd Hne (s' & tab' & Hs' & Ht' & Hd'). unfold serves.
  destruct (decide (id = id')) as [->|Hid]; [|exists s', tab'; by rewrite lookup_insert_ne].
  rewrite lookup_insert_eq. rewrite Hs in Hs'. injection Hs' as <-.
  unfold Shard_Table, Shard_WithTables in *. cbn [foldl sh_tables]. rewrite Hd.
  destruct Hne as [Hne| ->].
  - eexists _, tab'. split; [done|]. cbn [sh_tables]. rewrite lookup_insert_ne by done. done.
  - eexists _, tab. split; [done|]. cbn [sh_tables]. by rewrite lookup_insert_eq.
Qed.

Lemma serves_attached shards id s tab d : t_d tab = d → serves (<[id := Shard_WithTables s [tab]]> shards) id d.
Proof.
  intros Hd. exists (Shard_WithTables s [tab]), tab. rewrite lookup_insert_eq. split_and!; [done| |done].
  unfold Shard_Table, Shard_WithTables. cbn [foldl sh_tables]. by rewrite Hd, lookup_insert_eq.
Qed.

(** What a change of the connections keeps, the tables of [d]'s name apart. *)
Definition keeps (names : list string) (shards shards' : gmap string Shard) : Prop :=
  (∀ id, is_Some (shards !! id) → is_Some (shards' !! id)) ∧
  ∀ id d, d_Name d ∉ names → serves shards id d → serves shards' id d.

Lemma open_table_inv d t topo : ∀ ids shards out shards',
  opening d t topo ids shards = (Ok out, shards') →
  out = ids ++ (cs_ID <$> topo) ∧ keeps [d_Name d] shards shards' ∧
  (∀ id, serves shards id d → serves shards' id d) ∧
  ∀ sh, sh ∈ topo → is_ok (verified d t (cs_ID sh)) = true ∧ serves shards' (cs_ID sh) d.
Proof.
  induction topo as [|sh topo IH]; intros ids shards out shards' H; cbn [open_table] in H.
  - injection H as <- <-. rewrite app_nil_r. split_and!; [done|by split|done|set_solver].
  - apply M_bind_ok in H as (sc & s1 & Hg & H). injection Hg as <- <-.
    destruct (shards !! cs_ID sh) as [s|] eqn:Es; [|done].
    apply M_bind_ok in H as (tab & s2 & Hv & H). injection Hv as Hv <-.
    apply M_bind_ok in H as ([] & s3 & Hp & H). injection Hp as <-.
    pose proof (verified_table_d _ _ _ _ Hv) as Hd.
    apply IH in H as (-> & [HK1 HK2] & Hmono & Hall). split_and!.
    + by rewrite <-app_assoc.
    + split.
      * intros id Hid. apply HK1. apply lookup_insert_is_Some'. by right.
      * intros id d' Hn Hsv. apply HK2; [done|]. apply (serves_attach _ _ _ _ d); [done|done| |done]. left. set_solver.
    + intros id Hsv. apply Hmono. apply (serves_attach _ _ _ _ d); [done|done|by right|done].
    + intros sh' [->|Hin]%elem_of_cons; [|by apply Hall]. split; [by rewrite Hv|]. apply Hmono. by apply serves_attached.
Qed.

Lemma open_table_run d t topo : ∀ ids shards,
  (∀ sh, sh ∈ topo → is_Some (shards !! cs_ID sh) ∧ is_ok (verified d t (cs_ID sh)) = true) →
  ∃ out shards', opening d t topo ids shards = (Ok out, shards').
Proof.
  induction topo as [|sh topo IH]; intros ids shards H; cbn [open_table]; [by eexists _, _|].
  destruct (H sh) as [[s Hs] Hv]; [left|].
  unfold M_get, mbind, M_bind at 1. rewrite Hs. destruct (verified d t (cs_ID sh)) as [tab|e|w] eqn:E; [|done..].
  unfold M_lift, M_put, mbind, M_bind. apply IH. intros sh' Hin. destruct (H sh') as [H1 H2]; [by right|].
  split; [|done]. apply lookup_insert_is_Some'. by right.
Qed.

(** ** Lemmas: every table *)

Section declared.
Context (c : Config) (Hc : config_ok linux ToUpper ToLower sha256_16 c).

(** The descriptor of a declared table and the specification boot makes of it. *)
Definition described (t : cfg_Table) (d : Descriptor) : Prop :=
  t ∈ cf_Tables c ∧ cfg_Descriptor ToLower sha256_16 t = Ok d.

Definition opened (shards : gmap string Shard) (t : cfg_Table) (spec : TableSpec) : Prop :=
  ∃ d topo, described t d ∧ topo ∈ cf_Topologies c ∧ tp_Name topo = ct_Topology t ∧ tp_Shards topo ≠ [] ∧
    spec = mkTableSpec (Some d) (tp_Shards topo) ∧
    ∀ id, id ∈ tp_Shards topo → is_ok (verified d t id) = true ∧ serves shards id d.

Lemma described_name t d : described t d → d_Name d = cfg_Name t.
Proof. intros [_ Hd]. by apply descriptor_wf in Hd as (_ & -> & _). Qed.

Lemma Descriptors_described : ∃ ds, Config_Descriptors ToLower sha256_16 c = Ok ds ∧ Forall2 described (cf_Tables c) ds.
Proof.
  unfold Config_Descriptors. destruct (ok_tables _ _ _ _ _ Hc) as (_ & _ & Hts).
  assert (∀ ts out, (∀ t, t ∈ ts → t ∈ cf_Tables c) →
    ∃ ds, descriptors_of ToLower sha256_16 ts out = Ok (out ++ ds) ∧ Forall2 described ts ds) as H; [|by apply (H _ [])].
  intros ts. induction ts as [|t ts IH]; intros out Hin; cbn [descriptors_of].
  - exists []. split; [by rewrite app_nil_r|constructor].
  - rewrite Forall_forall in Hts. destruct (Hts t) as [Hd _]; [apply Hin; by left|].
    destruct (cfg_Descriptor ToLower sha256_16 t) as [d|e|w] eqn:Ed; [|done..].
    destruct (IH (out ++ [d])) as (ds & -> & HF); [intros t' ?; apply Hin; by right|].
    exists (d :: ds). rewrite <-app_assoc. split; [done|]. constructor; [|done]. split; [apply Hin; by left|done].
Qed.

(** Two topologies of one name are one. *)
Lemma topology_unique t topo shards : t ∈ cf_Tables c → topo ∈ cf_Topologies c → tp_Name topo = ct_Topology t →
  Config_ShardsFor c (cfg_Name t) = Ok shards → cs_ID <$> shards = tp_Shards topo.
Proof.
  intros Ht Htopo Hn HS. destruct (ShardsFor_declared _ _ _ _ _ _ Hc Ht) as (topo' & sh' & H1 & H2 & H3 & H4 & _).
  rewrite HS in H3. injection H3 as ->. rewrite H4. f_equal.
  destruct (ok_topologies _ _ _ _ _ Hc) as (_ & [_ Hnd] & _).
  pose proof (find_unique tp_Name _ _ Hnd Htopo) as F. pose proof (find_unique tp_Name _ _ Hnd H1) as F'.
  rewrite H2, <-Hn in F'. congruence.
Qed.

Lemma open_specs_inv ts ds : Forall2 described ts ds → NoDup (cfg_Name <$> ts) → ∀ specs0 shards out shards',
  opening_specs c ds specs0 shards = (Ok out, shards') →
  ∃ specs, out = specs0 ++ specs ∧ Forall2 (opened shards') ts specs ∧ keeps (cfg_Name <$> ts) shards shards'.
Proof.
  induction 1 as [|t d ts ds Htd HF IH]; intros Hnd specs0 shards out shards' H; cbn [open_specs] in H.
  - injection H as <- <-. exists []. rewrite app_nil_r. split_and!; [done|constructor|by split].
  - pose proof (described_name _ _ Htd) as Hname. apply NoDup_cons in Hnd as [Hfresh Hnd].
    rewrite Hname, (TableNamed_declared _ _ _ _ _ _ Hc (proj1 Htd)) in H.
    destruct (ShardsFor_declared _ _ _ _ _ _ Hc (proj1 Htd)) as (topo & sh & Htopo & Hn & HS & Hids & Hne & _).
    apply M_bind_ok in H as (topology & s1 & HL & H). injection HL as HL <-. rewrite HS in HL. injection HL as <-.
    rewrite bool_decide_eq_false_2 in H by done. apply M_bind_ok in H as (ids & s2 & Ho & H).
    apply open_table_inv in Ho as (-> & [HK1 HK2] & Hmono & Hall). cbn [app] in H. rewrite Hids in H.
    apply (IH Hnd) in H as (specs & -> & HF' & [HK3 HK4]). rewrite <-app_assoc.
    exists (mkTableSpec (Some d) (tp_Shards topo) :: specs). split; [done|]. split.
    + constructor; [|done]. exists d, topo. split_and!; try done.
      { rewrite <-Hids. by destruct sh. }
      intros id Hid. rewrite <-Hids in Hid. apply list_elem_of_fmap in Hid as (sh' & -> & Hsh').
      destruct (Hall sh' Hsh') as [Hv Hsv]. split; [done|]. apply HK4; [by rewrite Hname|done].
    + split; [by auto|]. intros id d' [Hd1 Hd2]%not_elem_of_cons Hsv. apply HK4; [done|]. apply HK2; [|done].
      rewrite Hname. set_solver.
Qed.

Lemma open_specs_run ts ds : Forall2 described ts ds → ∀ specs0 shards,
  connected c shards → live_agrees c → ∃ out shards', opening_specs c ds specs0 shards = (Ok out, shards').
Proof.
  induction 1 as [|t d ts ds Htd HF IH]; intros specs0 shards Hcon Hlive; cbn [open_specs]; [by eexists _, _|].
  rewrite (described_name _ _ Htd), (TableNamed_declared _ _ _ _ _ _ Hc (proj1 Htd)).
  destruct (ShardsFor_declared _ _ _ _ _ _ Hc (proj1 Htd)) as (topo & sh & Htopo & Hn & HS & Hids & Hne & _ & Hin).
  rewrite HS. rewrite (M_bind_run _ (M_lift (Ok sh)) shards sh shards) by done. rewrite bool_decide_eq_false_2 by done.
  destruct (open_table_run d t sh [] shards) as (out & shards' & Ho).
  { intros sh' Hsh'. split; [by apply Hcon, Hin|]. apply (Hlive t d topo); [apply Htd..|done|done|].
    rewrite <-Hids. by apply list_elem_of_fmap_2. }
  rewrite (M_bind_run _ _ _ _ _ Ho). apply IH; [|done].
  apply open_table_inv in Ho as (_ & [HK _] & _). intros sh' Hsh'. by apply HK, Hcon.
Qed.

(** ** Lemmas: the engine *)

Lemma build_owned_run name shards ids : ∀ owned,
  (∀ id, id ∈ ids → ∃ s tab, shards !! id = Some s ∧ Shard_Table s name = Ok tab) →
  is_ok (build_owned name shards ids owned) = true.
Proof.
  induction ids as [|id ids IH]; intros owned H; cbn [build_owned]; [done|].
  destruct (H id) as (s & tab & -> & ->); [left|]. apply IH. intros id' Hin. apply H. by right.
Qed.

Lemma build_specs_run shards ts specs : Forall2 (opened shards) ts specs → NoDup (cfg_Name <$> ts) → ∀ out order,
  (∀ t, t ∈ ts → out !! cfg_Name t = None) → is_ok (build_specs shards specs out order) = true.
Proof.
  induction 1 as [|t spec ts specs (d & topo & Htd & Htopo & _ & Hne & -> & Hall) HF IH]; intros Hnd out order Hout;
    cbn [build_specs ts_Descriptor ts_Shards]; [done|].
  rewrite (described_name _ _ Htd). apply NoDup_cons in Hnd as [Hfresh Hnd].
  rewrite (Hout t) by left. rewrite bool_decide_eq_false_2 by (intros [? ?]; done). rewrite bool_decide_eq_false_2 by done.
  pose proof (build_owned_run (cfg_Name t) shards (tp_Shards topo) ∅) as Ho.
  destruct (build_owned _ _ _ _) as [owned|e|w] eqn:E; cbn [mbind result_bind].
  2,3: exfalso; cut (false = true); [done|]; apply Ho; intros id Hid; destruct (Hall id Hid) as [_ (s & tab & ? & Ht & _)];
    exists s, tab; by rewrite <-(described_name _ _ Htd).
  assert ("" ∉ tp_Shards topo) as Hempty.
  { destruct (ok_topologies _ _ _ _ _ Hc) as (_ & _ & Htp). rewrite Forall_forall in Htp.
    destruct (Htp _ Htopo) as (_ & _ & Hin). destruct (ok_shards _ _ _ _ _ Hc) as (_ & [He _] & _). by intros ?%Hin. }
  destruct (collect_unique_total "storage: empty shard id in topology" (tp_Shards topo) ∅ [] Hempty) as [[u st] Hu].
  unfold storage_NewRouter. rewrite bool_decide_eq_false_2, Hu by done. cbn [mbind result_bind]. apply IH; [done|].
  intros t' Hin. rewrite lookup_insert_ne; [apply Hout; by right|]. intros Heq. apply Hfresh. rewrite Heq.
  by apply list_elem_of_fmap_2.
Qed.

Lemma engine_New_run opts specs : eo_Tables opts = specs → Forall2 (opened (eo_Shards opts)) (cf_Tables c) specs →
  ∃ e, engine_New opts = Ok e.
Proof.
  intros Hspecs HF. destruct (ok_tables _ _ _ _ _ Hc) as (Hne & Hnd & _).
  assert (is_ok (engine_New opts) = true) as H; [|destruct (engine_New opts); [by eexists|done..]].
  unfold engine_New, buildTables. rewrite Hspecs.
  rewrite bool_decide_eq_false_2 by (intros ->; by inversion HF as [Hnil|]; rewrite <-Hnil in Hne).
  pose proof (build_specs_run _ _ _ HF Hnd ∅ []) as Hb.
  destruct (build_specs _ _ _ _) as [[tables order]|e|w]; [done|exfalso..]; cut (false = true); try done; apply Hb;
    intros t _; apply lookup_empty.
Qed.

Lemma OpenTables_inv shards specs shards' :
  OpenTables ToLower sha256_16 EqualFold live c shards = (Ok specs, shards') →
  Forall2 (opened shards') (cf_Tables c) specs.
Proof.
  unfold OpenTables. destruct Descriptors_described as (ds & -> & HF). destruct (ok_tables _ _ _ _ _ Hc) as (_ & Hnd & _).
  intros H. rewrite (M_bind_run _ (M_lift (Ok ds)) shards ds shards) in H by done.
  by apply (open_specs_inv _ _ HF Hnd) in H as (specs' & -> & ? & _).
Qed.

Lemma OpenTables_run shards : connected c shards → live_agrees c →
  ∃ specs shards', OpenTables ToLower sha256_16 EqualFold live c shards = (Ok specs, shards').
Proof.
  intros Hcon Hlive. destruct Descriptors_described as (ds & Hds & HF).
  destruct (open_specs_run _ _ HF [] shards Hcon Hlive) as (specs & shards' & Ho). exists specs, shards'.
  unfold OpenTables. by rewrite Hds, (M_bind_run _ (M_lift (Ok ds)) shards ds shards).
Qed.

Lemma engine_has_tables opts e shards : engine_New opts = Ok e → Forall2 (opened shards) (cf_Tables c) (eo_Tables opts) →
  ∀ t, t ∈ cf_Tables c → is_Some (e_tables e !! cfg_Name t).
Proof.
  intros (_ & _ & _ & _ & Hdom & Hord & _)%engine_New_ok Ho t Ht. apply Hdom.
  apply list_elem_of_lookup in Ht as [i Hi].
  destruct (Forall2_lookup_l _ _ _ _ _ Ho Hi) as (spec & Hspec & d & topo & Htd & _ & _ & _ & -> & _).
  assert (Some (cfg_Name t) ∈ Some <$> e_tableOrder e) as Hin.
  { rewrite Hord. apply list_elem_of_fmap. exists (mkTableSpec (Some d) (tp_Shards topo)). split.
    - unfold spec_name. cbn. by rewrite (described_name _ _ Htd).
    - by apply list_elem_of_lookup_2 in Hspec. }
  apply list_elem_of_fmap in Hin as (n & [= ->] & ?). done.
Qed.
End declared.

(** ** Properties *)

Definition with_tables (opts : engine_Options) (shards : gmap string Shard) (specs : list TableSpec) : engine_Options :=
  mkEngineOptions shards specs (eo_GutterTTL opts) (eo_MaxSessionShards opts) (eo_MaxAffectedKeys opts) (eo_CDCLagBound opts)
    (eo_MaxClockSkew opts) (eo_SynchronousInvalidation opts) (eo_Leases opts) (eo_Version opts).


(** C21: The engine that boots serves every declared table with its descriptor, and
    each key of the table is routed to one shard of the table's topology, whose
    connection holds the statements made for that descriptor. *)
Theorem boot_serves_declared (c : Config) (shards shards' : gmap string Shard) (opts : engine_Options) specs e t key
    (Hc : Config_Validate linux ToUpper ToLower sha256_16 c = Ok tt)
    (Ho : OpenTables ToLower sha256_16 EqualFold live c shards = (Ok specs, shards'))
    (He : engine_New (with_tables opts shards' specs) = Ok e) (Ht : t ∈ cf_Tables c) (Hk : key ≠ "") :
  ∃ d topo tb s id tab, cfg_Descriptor ToLower sha256_16 t = Ok d ∧ topo ∈ cf_Topologies c ∧ tp_Name topo = ct_Topology t ∧
    e_tables e !! cfg_Name t = Some tb ∧ tb_d tb = d ∧ table_shardFor tb key = Ok (s, id) ∧ id ∈ tp_Shards topo ∧
    Owns (tp_Shards topo) key id ∧ Shard_Table s (cfg_Name t) = Ok tab ∧ t_d tab = d.
Proof.
  apply validate_rules in Hc. apply OpenTables_inv in Ho; [|done].
  destruct (engine_has_tables c _ _ _ He Ho t Ht) as [tb Htb]. apply engine_New_ok in He as (_ & _ & _ & _ & _ & _ & Htab).
  pose proof Ht as [i Hi]%list_elem_of_lookup.
  destruct (Forall2_lookup_l _ _ _ _ _ Ho Hi) as (spec & Hspec & d & topo & Htd & Htopo & Hn & _ & -> & Hall).
  destruct (Htab _ _ Htb) as ((spec' & Hin & Hd' & Hname & Hr & Hsh) & _).
  apply list_elem_of_lookup in Hin as [j Hj].
  destruct (Forall2_lookup_r _ _ _ _ _ Ho Hj) as (t' & Hj' & d' & topo' & Htd' & Htopo' & Hn' & _ & -> & _).
  cbn in Hd', Hr, Hsh. injection Hd' as Hd'. rewrite <-Hd' in Hname.
  destruct (ok_tables _ _ _ _ _ Hc) as (_ & Hnd & _). destruct (ok_topologies _ _ _ _ _ Hc) as (_ & [_ Hndt] & _).
  assert (t' = t) as ->.
  { pose proof (find_unique cfg_Name _ _ Hnd Ht) as F. pose proof (find_unique cfg_Name _ _ Hnd (proj1 Htd')) as F'.
    by rewrite <-(described_name _ _ _ Htd'), Hname, F in F'; injection F'. }
  assert (topo' = topo) as ->.
  { pose proof (find_unique tp_Name _ _ Hndt Htopo) as F. pose proof (find_unique tp_Name _ _ Hndt Htopo') as F'.
    rewrite Hn', <-Hn in F'. congruence. }
  assert (tb_d tb = d) as Hdd by (destruct Htd as [_ E1], Htd' as [_ E2]; congruence).
  destruct (ShardFor_total _ _ key Hr Hk) as (id & Hid & Hidin & Hown).
  destruct (Hsh id Hidin) as (s & tab & Hs & Hs' & Hst). destruct (Hall id Hidin) as [_ (s2 & tab2 & Hs2 & Ht2 & Htd2)].
  rewrite Hs' in Hs2. injection Hs2 as <-. rewrite (described_name _ _ _ Htd) in Ht2. rewrite Hst in Ht2. injection Ht2 as <-.
  exists d, topo, tb, s, id, tab. split_and!; try done; [apply Htd|]. unfold table_shardFor. by rewrite Hid, Hs.
Qed.
End boot.

(** ** Witnesses *)

Definition demo_live : string → string → result (list LiveColumn * list Index) := λ _ _,
  Ok ([mkLiveColumn "id" false ""; mkLiveColumn "tenant" false ""; mkLiveColumn "status" true ""; mkLiveColumn "version" false ""],
      users_indexes).

Definition demo_conns : gmap string Shard := {["s1" := mkShard "s1" ∅; "s2" := mkShard "s2" ∅]}.

Definition demo_options : engine_Options := mkEngineOptions ∅ [] 0 0 0 0 0 true (mkWaitPolicy 3 1000 10000) "dev".

Lemma demo_valid : Config_Validate true (λ s, s) (λ s, s) (λ s, s) demo_config = Ok tt.
Proof. vm_compute. reflexivity. Qed.

Lemma demo_conns_connected : connected demo_config demo_conns.
Proof. intros sh Hsh. repeat (apply elem_of_cons in Hsh as [->|Hsh]; [by eexists|]). by apply elem_of_nil in Hsh. Qed.

Lemma demo_agrees : live_agrees (λ s, s) (λ s, s) (λ a b, bool_decide (a = b)) demo_live demo_config.
Proof.
  intros t d topo id Ht Hd Htopo _ Hid. apply list_elem_of_singleton in Ht as ->. apply list_elem_of_singleton in Htopo as ->.
  assert (cfg_Descriptor (λ s, s) (λ s, s) (mkCfgTable users_config "main" [mkCfgPredicate ["tenant"] ["status"]]) = Ok users_d)
    as Hu by (vm_compute; reflexivity).
  rewrite Hu in Hd. apply Ok_inj in Hd as <-. unfold verified_table, demo_live. clear. vm_compute. reflexivity.
Qed.


Lemma demo_boots :
  ∃ specs shards' e, OpenTables (λ s, s) (λ s, s) (λ a b, bool_decide (a = b)) demo_live demo_config demo_conns = (Ok specs, shards') ∧
    engine_New (with_tables demo_options shards' specs) = Ok e.
Proof.
  destruct (OpenTables (λ s, s) (λ s, s) (λ a b, bool_decide (a = b)) demo_live demo_config demo_conns) as [r shards'] eqn:E.
  assert (is_ok r = true) as Hr.
  { replace r with (OpenTables (λ s, s) (λ s, s) (λ a b, bool_decide (a = b)) demo_live demo_config demo_conns).1 by (by rewrite E).
    clear. vm_compute. reflexivity. }
  destruct r as [specs| |]; [|done..].
  destruct (engine_New_run true (λ s, s) (λ s, s) (λ s, s) (λ a b, bool_decide (a = b)) demo_live demo_config
    (proj1 (validate_rules _ _ _ _ _) demo_valid) (with_tables demo_options shards' specs) specs) as [e He]; [done| |].
  - by apply (OpenTables_inv true (λ s, s) _ _ _ _ _ (proj1 (validate_rules _ _ _ _ _) demo_valid)) in E.
  - by exists specs, shards', e.
Qed.

Lemma boot_serves_declared_witness :
  ∃ specs shards' e tb s id, OpenTables (λ s, s) (λ s, s) (λ a b, bool_decide (a = b)) demo_live demo_config demo_conns = (Ok specs, shards') ∧
    engine_New (with_tables demo_options shards' specs) = Ok e ∧ e_tables e !! "users" = Some tb ∧
    table_shardFor tb "users:7" = Ok (s, id) ∧ id ∈ ["s2"; "s1"].
Proof.
  destruct demo_boots as (specs & shards' & e & Ho & He).
  destruct (boot_serves_declared true (λ s, s) (λ s, s) (λ s, s) (λ a b, bool_decide (a = b)) demo_live demo_config demo_conns shards'
    demo_options specs e (mkCfgTable users_config "main" [mkCfgPredicate ["tenant"] ["status"]]) "users:7" demo_valid Ho He)
    as (d & topo & tb & s & id & tab & _ & Htopo & _ & Htb & _ & Hs & Hid & _); [by left|done|].
  apply list_elem_of_singleton in Htopo as ->. by exists specs, shards', e, tb, s, id.
Defined.
