(* ===== verification/Process.v ===== *)
(** The processes a deployment runs: how [src/cmd/cachet], [src/cmd/cachet-proxy]
    and [src/cmd/flux] put the components together, with the logging and
    metrics settings of [src/internal/obs].

    Each [run] is modelled from the loaded configuration to the components it is
    about to serve with; what the databases and cache nodes answer while it
    starts, and the flags, are arguments. *)

From S2P Require Import Prelude GoStd Floats Consistency Freshness Regexp Schema Table Mysql Storage Introspect Breaker Admission CacheClient Engine Cdc Config ConfigSpec Boot Proxy ProxyServer.

Local Open Scope Z_scope.

(** ** Logging and metrics *)

Inductive log_level := LevelDebug | LevelInfo | LevelWarn | LevelError.
Inductive log_format := FormatJSON | FormatText.

Record logger := mkLogger { lg_level : log_level; lg_format : log_format; lg_service : option string }.

Definition NewLogger (ToLower : string → string) (cfg : cfg_Observability) : result logger :=
  let name := ToLower (TrimSpace (co_LogLevel cfg)) in
  level ← (if bool_decide (name = "debug") then Ok LevelDebug
           else if bool_decide (name ∈ ["info"; ""]) then Ok LevelInfo
           else if bool_decide (name ∈ ["warn"; "warning"]) then Ok LevelWarn
           else if bool_decide (name = "error") then Ok LevelError
           else Err (Errorf "obs: unknown log level (want debug, info, warn or error)"));
  let name := ToLower (TrimSpace (co_LogFormat cfg)) in
  format ← (if bool_decide (name = "json") then Ok FormatJSON
            else if bool_decide (name ∈ ["text"; ""]) then Ok FormatText
            else Err (Errorf "obs: unknown log format (want text or json)"));
  Ok (mkLogger level format (if bool_decide (co_ServiceName cfg = "") then None else Some (co_ServiceName cfg))).

(** What [PublishGuarantees] sets the gauge of a setting to. *)
Definition gauge_value (v : setting) : float64 :=
  match v with
  | SettingDuration d => Duration_Seconds d
  | SettingInt n => f_of_int n
  | SettingBool b => if b then f_one else f_zero
  end.

Definition PublishGuarantees (c : cfg_Consistency) : gmap string float64 := gauge_value <$> GuaranteeSettings c.

Definition shortMethod (full : string) : string :=
  match str_LastIndex full "/" with
  | Some i => if (S i <? String.length full)%nat then str_drop (S i) full else full
  | None => full
  end.

(** ** Shared wiring *)

Definition breakerOptions (c : cfg_Breaker) : Options :=
  mkOptions (cb_Window c) (cb_Buckets c) (cb_MinRequests c) (cb_FailureFloor c) (cb_MaxShed c).

Definition admissionController (cfg : cfg_Admission) (now : Z) : option Controller :=
  if negb (ca_Enabled cfg) then None
  else
    Some (NewController (Some (NewSketch (mkSketchOptions 0 0 (ca_Window cfg) 0) now))
            (NewPolicy (mkPolicyOptions (ca_AdmitRatio cfg) (ca_EvictRatio cfg) (ca_MinSamples cfg) (ca_MinDwell cfg) true)) 0 now).

Section processes.
Context (linux : bool) (ToUpper ToLower sha256_16 : string → string) (EqualFold : string → string → bool).
Context (live : string → string → result (list LiveColumn * list Index)).
Context (normalise : string → result string) (ping_db ping_node : string → result unit).

(** Every shard is connected, or none. *)
Fixpoint openShards (shards : list cfg_Shard) (conns : gmap string Shard) : result (gmap string Shard) :=
  match shards with
  | [] => Ok conns
  | sc :: shards =>
      sh ← OpenShard normalise ping_db (cs_ID sc) (cs_DSN sc);
      openShards shards (<[cs_ID sc := sh]> conns)
  end.

(** [descriptors[0]]. *)
Definition first_descriptor (ds : list Descriptor) : result Descriptor :=
  match ds with d :: _ => Ok d | [] => Panic "runtime error: index out of range [0] with length 0" end.

(** ** The engine process *)

Record process := mkProcess {
  pc_logger : logger;
  pc_engine : Engine;
  pc_cache : option (Client * Group);
  pc_gutter : option (Client * Group);
  pc_admission : option Controller;
  pc_shards : gmap string Shard;
}.

(** [now] is the reading of the clock the components start from. *)
Definition cachet_run (now : Z) (version : string) (loaded : result Config) : result process :=
  cfg ← loaded;
  log ← NewLogger ToLower (cf_Observability cfg);
  descriptors ← Config_Descriptors ToLower sha256_16 cfg;
  conns ← openShards (cf_Shards cfg) ∅;
  let '(tables, shards) := OpenTables ToLower sha256_16 EqualFold live cfg conns in
  tables ← tables;
  cacheClient ←
    (if bool_decide (cc_Addresses (cf_Cache cfg) = []) then Ok None
     else
       d ← first_descriptor descriptors;
       cc ← cache_New (mkCacheOptions (d_Fingerprint d) (cc_Addresses (cf_Cache cfg)) (cn_EntryTTL (cf_Consistency cfg))
                         (breakerOptions (cc_Breaker (cf_Cache cfg))) (le_TTL (cc_Lease (cf_Cache cfg)))) now ping_node;
       Ok (Some cc));
  gutterClient ←
    (if negb (is_some cacheClient) || bool_decide (cg_Addresses (cc_Gutter (cf_Cache cfg)) = []) then Ok None
     else
       d ← first_descriptor descriptors;
       gc ← cache_New (mkCacheOptions (d_Fingerprint d) (cg_Addresses (cc_Gutter (cf_Cache cfg))) (cg_TTL (cc_Gutter (cf_Cache cfg)))
                         (breakerOptions (cc_Breaker (cf_Cache cfg))) (le_TTL (cc_Lease (cf_Cache cfg)))) now ping_node;
       Ok (Some gc));
  eng ← engine_New
    (mkEngineOptions shards tables (cg_TTL (cc_Gutter (cf_Cache cfg))) (cn_MaxSessionShards (cf_Consistency cfg))
       (cn_MaxAffectedKeys (cf_Consistency cfg)) (cn_CDCLagBound (cf_Consistency cfg)) (cn_MaxClockSkew (cf_Consistency cfg))
       (cn_SynchronousInvalidation (cf_Consistency cfg))
       (NewWaitPolicy (le_WaitAttempts (cc_Lease (cf_Cache cfg))) (le_WaitBackoff (cc_Lease (cf_Cache cfg)))
          (le_WaitBackoffMax (cc_Lease (cf_Cache cfg))))
       version);
  Ok (mkProcess log eng cacheClient gutterClient (admissionController (cc_Admission (cf_Cache cfg)) now) shards).

(** ** The proxy process *)

Record proxy_flags := mkProxyFlags {
  pf_listen : string; pf_upstream : string; pf_user : string; pf_password : string; pf_db : string;
  pf_table : string; pf_opaque : string;
}.

Definition opaquePolicy (s : string) : result OpaqueWritePolicy :=
  if bool_decide (s = "refuse") then Ok RefuseOpaqueWrites
  else if bool_decide (s = "forward") then Ok ForwardOpaqueWrites
  else Err (Errorf "cachet-proxy: -opaque-writes must be refuse or forward").

(** The flags with what is left at its default taken from the data source name. *)
Definition upstream_flags (fl : proxy_flags) (dsn : string) : result proxy_flags :=
  if negb (bool_decide (pf_upstream fl = "")) then Ok fl
  else
    match ParseDSN dsn with
    | Err e => Err (Wrapf "cachet-proxy: deriving the upstream address" e)
    | Panic w => Panic w
    | Ok p =>
        Ok (mkProxyFlags (pf_listen fl) (dsn_addr p)
              (if bool_decide (pf_user fl = "root") && negb (bool_decide (dsn_user p = "")) then dsn_user p else pf_user fl)
              (if bool_decide (pf_password fl = "") then dsn_password p else pf_password fl)
              (if bool_decide (pf_db fl = "cachet") && negb (bool_decide (dsn_database p = "")) then dsn_database p else pf_db fl)
              (pf_table fl) (pf_opaque fl))
    end.

(** The configuration is loaded with no environment. *)
Definition proxy_load (decoded : result Config) : result Config :=
  Config_Load linux ToUpper ToLower sha256_16 decoded ∅.

Definition proxy_run (now : Z) (version : string) (fl : proxy_flags) (loaded : result Config) (listen : result unit) :
    result (Server * Engine * (Client * Group) * proxy_flags) :=
  cfg ← loaded;
  NewLogger ToLower (cf_Observability cfg);;
  policy ← opaquePolicy (pf_opaque fl);
  match cf_Shards cfg with
  | [sc] =>
      fl ← upstream_flags fl (cs_DSN sc);
      descriptors ← Config_Descriptors ToLower sha256_16 cfg;
      shard ← OpenShard normalise ping_db (cs_ID sc) (cs_DSN sc);
      if bool_decide (cc_Addresses (cf_Cache cfg) = []) then
        Err (Errorf "cachet-proxy: no cache configured; without one this is a slower MySQL")
      else
        d ← first_descriptor descriptors;
        (* neither the breaker settings nor, below, the lease settings are passed on *)
        cc ← cache_New (mkCacheOptions (d_Fingerprint d) (cc_Addresses (cf_Cache cfg)) (cn_EntryTTL (cf_Consistency cfg))
                          (mkOptions 0 0 0 f_zero f_zero) (le_TTL (cc_Lease (cf_Cache cfg)))) now ping_node;
        let '(tables, shards) := OpenTables ToLower sha256_16 EqualFold live cfg {[cs_ID sc := shard]} in
        tables ← tables;
        eng ← engine_New
          (mkEngineOptions shards tables 0 (cn_MaxSessionShards (cf_Consistency cfg)) (cn_MaxAffectedKeys (cf_Consistency cfg))
             (cn_CDCLagBound (cf_Consistency cfg)) (cn_MaxClockSkew (cf_Consistency cfg))
             (cn_SynchronousInvalidation (cf_Consistency cfg)) (mkWaitPolicy 0 0 0) version);
        desc ← Engine_Table eng (if bool_decide (pf_table fl = "") then d_Name d else pf_table fl);
        undeclared ← UndeclaredColumnsOn ToLower sha256_16 live cfg shards (d_Name desc);
        srv ← proxy_New ToLower
                (mkProxyOptions (pf_listen fl) (pf_upstream fl) (Some desc) (bool_decide (undeclared = [])) true true policy) listen;
        Ok (srv, eng, cc, fl)
  | _ => Err (Errorf "cachet-proxy: needs exactly one shard")
  end.

(** ** The tailer process *)

Record tailing := mkTailing { ta_shard : string; ta_dsn : DSN; ta_serverID : Z; ta_table : string; ta_opts : cdc_Options; ta_tailer : Tailer }.

(** The loop over the shards, one tailer each. *)
Fixpoint flux_tailers (table : Descriptor) (i : Z) (shards : list cfg_Shard) : result (list tailing) :=
  match shards with
  | [] => Ok []
  | sc :: shards =>
      match ParseDSN (cs_DSN sc) with
      | Err e => Err (Wrapf "flux: shard" e)
      | Panic w => Panic w
      | Ok dsn =>
          let serverID := u32 (1000 + i) in
          '(opts, tailer) ← cdc_New true true serverID (d_Name table) (mkCdcOptions (Some table) 0);
          rest ← flux_tailers table (i + 1) shards;
          Ok (mkTailing (cs_ID sc) dsn serverID (d_Name table) opts tailer :: rest)
      end
  end.

(** [mkdir] is whether the state directory could be made. *)
Definition flux_run (now : Z) (mkdir : result unit) (loaded : result Config) : result (Client * Group * list tailing) :=
  cfg ← loaded;
  NewLogger ToLower (cf_Observability cfg);;
  if bool_decide (cc_Addresses (cf_Cache cfg) = []) then
    Err (Errorf "flux: no cache configured; there would be nothing to invalidate")
  else
    cc ← cache_New (mkCacheOptions "" (cc_Addresses (cf_Cache cfg)) (cn_EntryTTL (cf_Consistency cfg))
                      (breakerOptions (cc_Breaker (cf_Cache cfg))) (le_TTL (cc_Lease (cf_Cache cfg)))) now ping_node;
    (match mkdir with Err e => Err (Wrapf "flux: create state dir" e) | r => r end);;
    descriptors ← Config_Descriptors ToLower sha256_16 cfg;
    table ← first_descriptor descriptors;
    tailers ← flux_tailers table 0 (cf_Shards cfg);
    Ok (cc.1, cc.2, tailers).
End processes.
