(* ===== verification/ProcessSpec.v ===== *)
(** What the processes start with: the settings of a validated configuration
    reach the components they are for, and where they do not. *)

From S2P Require Import Prelude GoStd Floats Consistency Freshness Regexp Schema Table Mysql Storage Introspect Ring Breaker Admission CacheClient Engine EngineSpec Cdc Config ConfigSpec Boot BootSpec Proxy ProxyServer Process EnvSpec.

Local Open Scope Z_scope.

(** ** Lemmas *)

Lemma connect_run (ping : string → result unit) nodes : ∀ pools, (∀ a, a ∈ nodes → ping a = Ok tt) →
  ∃ pools', foldl (connect ping) (Ok pools) nodes = Ok pools'.
Proof.
  induction nodes as [|a nodes IH]; intros pools H; cbn [foldl]; [by eexists|].
  unfold connect at 2. cbn [mbind result_bind]. rewrite (H a) by left. apply IH. intros b Hb. apply H. by right.
Qed.

Lemma breaker_New_run b now : breaker_ok b → ∃ br, breaker_New (breakerOptions b) now = Ok br.
Proof.
  intros (H1 & H2 & H3 & [H4 H5] & [H6 H7]). unfold breaker_New, breakerOptions. cbn [Window Buckets MinRequests FailureFloor MaxShed].
  rewrite H4, H5, H6, H7. destruct (Z.leb_spec (cb_Window b) 0); [lia|]. destruct (Z.leb_spec (cb_Buckets b) 0); [lia|].
  destruct (Z.ltb_spec (cb_MinRequests b) 0); [lia|]. by eexists.
Qed.

(** A cache client over distinct nodes that answer is built with the settings
    it is given. *)
Lemma cache_New_run fp addrs ttl lease b now ping :
  addrs ≠ [] → names_ok addrs → 0 < ttl → 0 < lease → breaker_ok b → (∀ a, a ∈ addrs → ping a = Ok tt) →
  ∃ c, cache_New (mkCacheOptions fp addrs ttl (breakerOptions b) lease) now ping = Ok (c, mkGroup (breakerOptions b) ∅) ∧
    cl_ttl c = ttl ∧ cl_leaseTTL c = lease ∧ cl_fingerprint c = fp.
Proof.
  intros Hne [He Hnd] Httl Hlease Hb Hping. unfold cache_New. cbn [co_Addresses co_TTL co_Breaker co_LeaseTTL co_Fingerprint].
  rewrite bool_decide_eq_false_2 by done. destruct (Z.leb_spec ttl 0); [lia|].
  destruct (collect_unique_total "cache: empty node address in cache topology" addrs ∅ [] He) as [[u s] Hu].
  unfold cache_NewRouter. rewrite bool_decide_eq_false_2, Hu by done. cbn [mbind result_bind].
  destruct (breaker_New_run b now Hb) as [br Hbr].
  assert ((Window (breakerOptions b) =? 0) = false) as -> by (apply Z.eqb_neq; destruct Hb; cbn; lia). cbn [andb].
  unfold NewGroup. rewrite Hbr. cbn [mbind result_bind cRouter_nodes].
  destruct (connect_run ping (merge_sort String.le u) ∅) as [pools ->].
  { intros a. rewrite merge_sort_Permutation. intros Ha. apply Hping. apply collect_unique_ok in Hu as (_ & H2 & H3).
    apply H3 in Ha; [|set_solver]. apply H2 in Ha. set_solver. }
  cbn [mbind result_bind]. eexists. split; [done|]. cbn. destruct (Z.leb_spec lease 0); [lia|done].
Qed.

Section process.
Context (linux : bool) (ToUpper ToLower sha256_16 : string → string) (EqualFold : string → string → bool).
Context (live : string → string → result (list LiveColumn * list Index)).
Context (normalise : string → result string) (ping_db ping_node : string → result unit).

(** Every database and every cache node answers. *)
Definition reachable (c : Config) : Prop :=
  (∀ sh, sh ∈ cf_Shards c → ∃ dsn, normalise (cs_DSN sh) = Ok dsn ∧ ping_db dsn = Ok tt) ∧
  ∀ a, a ∈ cc_Addresses (cf_Cache c) ++ cg_Addresses (cc_Gutter (cf_Cache c)) → ping_node a = Ok tt.

Lemma openShards_run shards : ∀ conns,
  "" ∉ (cs_ID <$> shards) → (∀ sh, sh ∈ shards → ∃ dsn, normalise (cs_DSN sh) = Ok dsn ∧ ping_db dsn = Ok tt) →
  ∃ conns', openShards normalise ping_db shards conns = Ok conns' ∧
    ∀ id, is_Some (conns' !! id) ↔ is_Some (conns !! id) ∨ id ∈ cs_ID <$> shards.
Proof.
  induction shards as [|sc shards IH]; intros conns Hid H; cbn [openShards fmap list_fmap].
  - exists conns. split; [done|]. set_solver.
  - apply not_elem_of_cons in Hid as [Hid Hids]. destruct (H sc) as (dsn & Hn & Hp); [left|].
    unfold OpenShard. rewrite bool_decide_eq_false_2, Hn, Hp by done. cbn [mbind result_bind].
    destruct (IH (<[cs_ID sc := mkShard (cs_ID sc) ∅]> conns) Hids) as (conns' & -> & Hdom); [intros sh ?; apply H; by right|].
    exists conns'. split; [done|]. intros id. rewrite Hdom, lookup_insert_is_Some', elem_of_cons. naive_solver.
Qed.

(** What the engine process built has the settings the configuration names. *)
Definition settings_reach (c : Config) (version : string) (p : process) : Prop :=
  let l := cc_Lease (cf_Cache c) in
  e_gutterTTL (pc_engine p) = cg_TTL (cc_Gutter (cf_Cache c)) ∧
  e_maxSessionShards (pc_engine p) = cn_MaxSessionShards (cf_Consistency c) ∧
  e_maxAffectedKeys (pc_engine p) = cn_MaxAffectedKeys (cf_Consistency c) ∧
  e_cdcLagBound (pc_engine p) = cn_CDCLagBound (cf_Consistency c) ∧
  e_maxClockSkew (pc_engine p) = cn_MaxClockSkew (cf_Consistency c) ∧
  e_syncInvalidation (pc_engine p) = cn_SynchronousInvalidation (cf_Consistency c) ∧
  e_leases (pc_engine p) = mkWaitPolicy (le_WaitAttempts l) (le_WaitBackoff l) (le_WaitBackoffMax l) ∧
  e_version (pc_engine p) = version.

Definition client_for (fp : string) (addrs : list string) (ttl : Z) (c : Config) (client : option (Client * Group)) : Prop :=
  match client with
  | None => addrs = []
  | Some (cl, g) => addrs ≠ [] ∧ cl_ttl cl = ttl ∧ cl_leaseTTL cl = le_TTL (cc_Lease (cf_Cache c)) ∧ cl_fingerprint cl = fp ∧
      g = mkGroup (breakerOptions (cc_Breaker (cf_Cache c))) ∅
  end.

Lemma engine_New_settings opts e : engine_New opts = Ok e →
  0 < eo_MaxSessionShards opts → 0 < eo_MaxAffectedKeys opts → 0 < eo_CDCLagBound opts →
  e_gutterTTL e = eo_GutterTTL opts ∧ e_maxSessionShards e = eo_MaxSessionShards opts ∧
  e_maxAffectedKeys e = eo_MaxAffectedKeys opts ∧ e_cdcLagBound e = eo_CDCLagBound opts ∧
  e_maxClockSkew e = eo_MaxClockSkew opts ∧ e_syncInvalidation e = eo_SynchronousInvalidation opts ∧
  e_leases e = eo_Leases opts ∧ e_version e = eo_Version opts.
Proof.
  unfold engine_New. intros ([tables order] & _ & [= <-])%result_bind_ok H1 H2 H3. cbn.
  destruct (Z.leb_spec (eo_MaxSessionShards opts) 0); [lia|]. destruct (Z.leb_spec (eo_MaxAffectedKeys opts) 0); [lia|].
  destruct (Z.leb_spec (eo_CDCLagBound opts) 0); [lia|]. done.
Qed.

Lemma WaitPolicy_unclamped l : lease_ok l →
  NewWaitPolicy (le_WaitAttempts l) (le_WaitBackoff l) (le_WaitBackoffMax l) =
  mkWaitPolicy (le_WaitAttempts l) (le_WaitBackoff l) (le_WaitBackoffMax l).
Proof.
  intros (_ & H1 & H2 & H3). unfold NewWaitPolicy. destruct (Z.ltb_spec (le_WaitAttempts l) 0); [lia|].
  destruct (Z.ltb_spec (le_WaitBackoff l) 0); [lia|]. destruct (Z.ltb_spec (le_WaitBackoffMax l) (le_WaitBackoff l)); [lia|done].
Qed.

(** What the admission controller of a configuration decides with. *)
Definition admission_for (a : cfg_Admission) (ctl : option Controller) : Prop :=
  match ctl with
  | None => ca_Enabled a = false
  | Some ct => ca_Enabled a = true ∧ sk_slice (ct_sketch ct) = ca_Window a / defaultBuckets ∧
      ct_policy ct = mkPolicyOptions (ca_AdmitRatio a) (ca_EvictRatio a)
                       (if ca_MinSamples a =? 0 then 20 else ca_MinSamples a) (ca_MinDwell a) true
  end.

Lemma admissionController_unclamped a now : admission_ok a → admission_for a (admissionController a now).
Proof.
  unfold admission_for, admissionController. destruct (ca_Enabled a) eqn:E; cbn [negb]; [|done].
  intros H. destruct (H E) as (H1 & H2 & H3 & H4 & H5). split; [done|]. split.
  - unfold NewController, NewSketch. cbn [ct_sketch sk_slice so_Window so_Buckets]. by destruct (Z.leb_spec (ca_Window a) 0); [lia|].
  - unfold NewController, NewPolicy. cbn [ct_policy po_AdmitRatio po_EvictRatio po_MinSamples po_MinDwell po_DefaultAdmit].
    rewrite H1, H2, H3. cbn [orb]. destruct (Z.ltb_spec (ca_MinDwell a) 0); [lia|done].
Qed.

Lemma client_run (skip : bool) addrs ttl (c : Config) d ds now :
  (skip = true → addrs = []) → (skip = false → addrs ≠ [] ∧ names_ok addrs ∧ 0 < ttl) →
  lease_ok (cc_Lease (cf_Cache c)) → breaker_ok (cc_Breaker (cf_Cache c)) → (∀ a, a ∈ addrs → ping_node a = Ok tt) →
  ∃ cl, (if skip then Ok None
         else
           d ← first_descriptor (d :: ds);
           cc ← cache_New (mkCacheOptions (d_Fingerprint d) addrs ttl (breakerOptions (cc_Breaker (cf_Cache c)))
                             (le_TTL (cc_Lease (cf_Cache c)))) now ping_node;
           Ok (Some cc)) = Ok cl ∧
    client_for (d_Fingerprint d) addrs ttl c cl ∧ is_some cl = negb skip.
Proof.
  intros Hs Hn [Hl _] Hb Hp. destruct skip.
  - exists None. split_and!; [done|by apply Hs|done].
  - destruct (Hn eq_refl) as (Hne & Hok & Httl). cbn [first_descriptor mbind result_bind].
    destruct (cache_New_run (d_Fingerprint d) addrs ttl (le_TTL (cc_Lease (cf_Cache c))) (cc_Breaker (cf_Cache c)) now ping_node)
      as (cl & -> & H1 & H2 & H3); [done..|]. cbn [mbind result_bind]. eexists. split; [done|]. by split_and!.
Qed.

(** The two clients of a process, from the descriptors and the configuration. *)
Definition primary_client (c : Config) (ds : list Descriptor) (now : Z) : result (option (Client * Group)) :=
  if bool_decide (cc_Addresses (cf_Cache c) = []) then Ok None
  else
    d ← first_descriptor ds;
    cc ← cache_New (mkCacheOptions (d_Fingerprint d) (cc_Addresses (cf_Cache c)) (cn_EntryTTL (cf_Consistency c))
                      (breakerOptions (cc_Breaker (cf_Cache c))) (le_TTL (cc_Lease (cf_Cache c)))) now ping_node;
    Ok (Some cc).

Definition gutter_client (c : Config) (ds : list Descriptor) (now : Z) (primary : bool) : result (option (Client * Group)) :=
  if negb primary || bool_decide (cg_Addresses (cc_Gutter (cf_Cache c)) = []) then Ok None
  else
    d ← first_descriptor ds;
    gc ← cache_New (mkCacheOptions (d_Fingerprint d) (cg_Addresses (cc_Gutter (cf_Cache c))) (cg_TTL (cc_Gutter (cf_Cache c)))
                      (breakerOptions (cc_Breaker (cf_Cache c))) (le_TTL (cc_Lease (cf_Cache c)))) now ping_node;
    Ok (Some gc).

Lemma run_clients c now version p :
  cachet_run ToLower sha256_16 EqualFold live normalise ping_db ping_node now version (Ok c) = Ok p →
  ∃ ds, Config_Descriptors ToLower sha256_16 c = Ok ds ∧ primary_client c ds now = Ok (pc_cache p) ∧
    gutter_client c ds now (is_some (pc_cache p)) = Ok (pc_gutter p).
Proof.
  unfold cachet_run. intros (cfg & [= <-] & H)%result_bind_ok.
  apply result_bind_ok in H as (log & _ & (ds & Hds & (conns & _ & H)%result_bind_ok)%result_bind_ok).
  destruct (OpenTables _ _ _ _ _ _) as [tables shards].
  apply result_bind_ok in H as (ts & _ & (cl & Hcl & (gl & Hgl & (e & _ & [= <-])%result_bind_ok)%result_bind_ok)%result_bind_ok).
  by exists ds.
Qed.

Lemma first_described c ds : Config_Descriptors ToLower sha256_16 c = Ok ds →
  match head (cf_Tables c) with
  | Some t => match cfg_Descriptor ToLower sha256_16 t with Ok d => Ok d | _ => first_descriptor [] end
  | None => first_descriptor []
  end = first_descriptor ds.
Proof.
  unfold Config_Descriptors. destruct (cf_Tables c) as [|t ts]; cbn [descriptors_of head]; [by intros [= <-]|].
  destruct (cfg_Descriptor ToLower sha256_16 t) as [d|e|w]; [|done..]. 
  assert (∀ ts out ds, descriptors_of ToLower sha256_16 ts out = Ok ds → ∃ more, ds = out ++ more) as H.
  { clear. intros ts. induction ts as [|t ts IH]; intros out ds; cbn [descriptors_of].
    - intros [= <-]. exists []. by rewrite app_nil_r.
    - destruct (cfg_Descriptor ToLower sha256_16 t) as [d|e|w]; [|done..]. intros (more & ->)%IH. exists (d :: more). by rewrite <-app_assoc. }
  by intros (more & ->)%H.
Qed.

Lemma flux_tailers_ok d shards : ∀ i ts, flux_tailers d i shards = Ok ts → 0 ≤ i → i + Z.of_nat (length shards) < 2 ^ 32 →
  ta_shard <$> ts = cs_ID <$> shards ∧
  ta_serverID <$> ts = (λ k : nat, u32 (1000 + i + Z.of_nat k)) <$> seq 0 (length shards) ∧
  Forall (λ x, ta_table x = d_Name d ∧ co_Descriptor (ta_opts x) = Some d) ts.
Proof.
  induction shards as [|sc shards IH]; intros i ts; cbn [flux_tailers].
  - intros [= <-] _ _. done.
  - destruct (ParseDSN (cs_DSN sc)) as [dsn|e|w]; [|done..].
    intros ([opts tl] & Hn & (rest & Hrest & [= <-])%result_bind_ok)%result_bind_ok Hi Hlen.
    destruct (IH (i + 1) rest Hrest) as (H1 & H2 & H3); [lia|cbn [length] in Hlen; lia|].
    cbn [fmap list_fmap ta_shard ta_serverID length seq]. rewrite H1, H2. split_and!; [done| |].
    + f_equal; [f_equal; lia|]. rewrite <-fmap_S_seq, <-list_fmap_compose. apply list_fmap_ext. intros k x _. cbn. f_equal. lia.
    + constructor; [|done]. cbn [ta_table ta_opts]. split; [done|]. unfold cdc_New in Hn. cbn [negb] in Hn.
      destruct (u32 (1000 + i) =? 0); [done|]. case_bool_decide; [done|]. by injection Hn as <- <-.
Qed.

Lemma expandEnv_no_panic s env : (∃ v, expandEnv s env = Ok v) ∨ ∃ e, expandEnv s env = Err e.
Proof.
  unfold expandEnv. destruct (negb _); [left; by eexists|]. destruct (missing_refs _ _); [|right; by eexists].
  destruct (str_contains _ _); [right|left]; by eexists.
Qed.

Lemma run_starts (c : Config) (now : Z) (version : string)
    (Hc : Config_Validate linux ToUpper ToLower sha256_16 c = Ok tt)
    (Hlog : is_ok (NewLogger ToLower (cf_Observability c)) = true)
    (Hr : reachable c) (Hlive : live_agrees ToLower sha256_16 EqualFold live c) :
  ∃ p t d, cachet_run ToLower sha256_16 EqualFold live normalise ping_db ping_node now version (Ok c) = Ok p ∧
    head (cf_Tables c) = Some t ∧ cfg_Descriptor ToLower sha256_16 t = Ok d ∧
    settings_reach c version p ∧
    client_for (d_Fingerprint d) (cc_Addresses (cf_Cache c)) (cn_EntryTTL (cf_Consistency c)) c (pc_cache p) ∧
    client_for (d_Fingerprint d) (cg_Addresses (cc_Gutter (cf_Cache c))) (cg_TTL (cc_Gutter (cf_Cache c))) c (pc_gutter p) ∧
    admission_for (cc_Admission (cf_Cache c)) (pc_admission p) ∧
    ∀ t, t ∈ cf_Tables c → is_Some (e_tables (pc_engine p) !! cfg_Name t).
Proof.
  apply validate_rules in Hc. destruct Hr as [Hdb Hnodes]. unfold cachet_run. cbn [mbind result_bind].
  destruct (NewLogger ToLower (cf_Observability c)) as [log|e|w]; [|done..]. cbn [mbind result_bind].
  destruct (Descriptors_described _ _ _ _ c Hc) as (ds & Hds & HF). rewrite Hds. cbn [mbind result_bind].
  pose proof Hc as [Hok1 [Hok2 [[Hid Hnd] Hdsn]] Hok3 Hok4 Hok5 Hok6 Hok7 Hok8 Hok9 [Hok10 Hnames] Hok11 Hok12].
  destruct (openShards_run (cf_Shards c) ∅ Hid Hdb) as (conns & Hconns & Hdom). rewrite Hconns. cbn [mbind result_bind].
  assert (connected c conns) as Hcon.
  { intros sh Hsh. apply Hdom. right. by apply list_elem_of_fmap_2. }
  destruct (OpenTables_run _ _ _ _ _ _ c Hc conns Hcon Hlive) as (specs & shards' & HO). rewrite HO. cbn [mbind result_bind].
  pose proof (OpenTables_inv _ _ _ _ _ _ c Hc _ _ _ HO) as Hop.
  assert (∃ t d ts ds', cf_Tables c = t :: ts ∧ ds = d :: ds' ∧ cfg_Descriptor ToLower sha256_16 t = Ok d)
    as (t & d & ts & ds' & Htab & -> & Hd).
  { clear -HF Hok10. destruct HF as [|t d ts ds' [_ Hd] HF]; [done|]. by exists t, d, ts, ds'. }
  pose proof Hok5 as [Hlease _]. pose proof Hok11 as (_ & Hlag & _ & Httl & Hkeys & Hsess).
  destruct (client_run (bool_decide (cc_Addresses (cf_Cache c) = [])) (cc_Addresses (cf_Cache c)) (cn_EntryTTL (cf_Consistency c)) c d ds' now)
    as (cl & -> & Hcl & Hsome); [by apply bool_decide_eq_true|by intros ?%bool_decide_eq_false|done|done| |].
  { intros a Ha. apply Hnodes, elem_of_app. by left. }
  cbn [mbind result_bind].
  destruct (client_run (negb (is_some cl) || bool_decide (cg_Addresses (cc_Gutter (cf_Cache c)) = []))
    (cg_Addresses (cc_Gutter (cf_Cache c))) (cg_TTL (cc_Gutter (cf_Cache c))) c d ds' now) as (gl & -> & Hgl & _); [| |done|done| |].
  { rewrite Hsome, negb_involutive. intros [H|H]%orb_true_iff; apply bool_decide_eq_true in H; [|done].
    destruct (cg_Addresses (cc_Gutter (cf_Cache c))) eqn:Eg; [done|]. destruct Hok7 as [Hne _]; [by rewrite Eg|done]. }
  { intros [_ H%bool_decide_eq_false]%orb_false_iff. destruct (Hok7 H) as (_ & H2 & H3 & _). done. }
  { intros a Ha. apply Hnodes, elem_of_app. by right. }
  cbn [mbind result_bind]. rewrite (WaitPolicy_unclamped _ Hok5).
  match goal with |- context [engine_New ?o] => set (opts := o) end.
  destruct (engine_New_run _ _ _ _ EqualFold live c Hc opts specs) as [e He]; [done|exact Hop|].
  rewrite He. cbn [mbind result_bind]. eexists _, t, d. split; [done|]. split; [by rewrite Htab|]. split; [done|].
  split; [by apply (engine_New_settings opts)|]. split; [done|]. split; [done|]. split; [by apply admissionController_unclamped|].
  intros t' Ht'. cbn [pc_engine]. by apply (engine_has_tables _ _ _ _ c opts e shards' He Hop).
Qed.

(** ** Properties *)


(** C37: The cache client of a process carries the fingerprint of the first declared
    table for the entries of every table: two configurations that differ in any
    other table only, in its columns say, start the same client, to which the
    entries written under one are current under the other. *)
Theorem cache_blind_to_other_tables (c c' : Config) (now : Z) (version : string) p p'
    (Hfirst : head (cf_Tables c) = head (cf_Tables c')) (Hcache : cf_Cache c = cf_Cache c')
    (Hcons : cf_Consistency c = cf_Consistency c')
    (Hp : cachet_run ToLower sha256_16 EqualFold live normalise ping_db ping_node now version (Ok c) = Ok p)
    (Hp' : cachet_run ToLower sha256_16 EqualFold live normalise ping_db ping_node now version (Ok c') = Ok p') :
  pc_cache p = pc_cache p' ∧ pc_gutter p = pc_gutter p'.
Proof.
  apply run_clients in Hp as (ds & Hds & Hcl & Hgl), Hp' as (ds' & Hds' & Hcl' & Hgl').
  assert (first_descriptor ds = first_descriptor ds') as Hd.
  { by rewrite <-(first_described _ _ Hds), <-(first_described _ _ Hds'), Hfirst. }
  unfold primary_client, gutter_client in *. rewrite <-Hcache, <-Hcons, <-Hd in Hcl'. rewrite <-Hcache, <-Hd in Hgl'.
  assert (pc_cache p = pc_cache p') as Heq by congruence. rewrite <-Heq in Hgl'. split; congruence.
Qed.

(** The tailers follow the first declared table only, one tailer per shard of the
    configuration, each with its own server id: a write to any other declared table
    is seen by none. *)
Theorem flux_follows_first_table (c : Config) (now : Z) mkdir cl g ts
    (Hf : flux_run ToLower sha256_16 ping_node now mkdir (Ok c) = Ok (cl, g, ts))
    (Hfew : Z.of_nat (length (cf_Shards c)) < 2 ^ 31) :
  ∃ t d, head (cf_Tables c) = Some t ∧ cfg_Descriptor ToLower sha256_16 t = Ok d ∧
    ta_shard <$> ts = cs_ID <$> cf_Shards c ∧ NoDup (ta_serverID <$> ts) ∧
    Forall (λ x, ta_table x = d_Name d ∧ co_Descriptor (ta_opts x) = Some d) ts.
Proof.
  unfold flux_run in Hf. cbn [mbind result_bind] in Hf. apply result_bind_ok in Hf as (log & _ & Hf).
  case_bool_decide; [done|]. apply result_bind_ok in Hf as ([cl' g'] & _ & (u & _ & (ds & Hds & (d & Hd & (ts' & Hts & Hf)%result_bind_ok)%result_bind_ok)%result_bind_ok)%result_bind_ok).
  injection Hf as <- <- <-. pose proof (first_described _ _ Hds) as Hfirst. rewrite Hd in Hfirst.
  destruct (head (cf_Tables c)) as [t|]; [|done].
  destruct (cfg_Descriptor ToLower sha256_16 t) as [d'|e|w] eqn:Ed; [injection Hfirst as ->|done..].
  apply flux_tailers_ok in Hts as (H1 & H2 & H3); [|done|lia]. exists t, d. split_and!; try done.
  rewrite H2. apply NoDup_fmap_2_strong; [|apply NoDup_seq]. intros i j Hi%elem_of_seq Hj%elem_of_seq.
  rewrite !u32_id by (unfold is_u32; lia). lia.
Qed.

(** The proxy loads its configuration with no environment: a data source name
    that takes anything from a variable, which is how credentials are kept out of
    the file, is always refused there. *)
Theorem proxy_refuses_references (c : Config) sh t (Hsh : sh ∈ cf_Shards c) (Ht : template_ok t)
    (Hdsn : cs_DSN sh = template_text t) (Hrefs : tm_refs t ≠ []) :
  ∃ e, proxy_load linux ToUpper ToLower sha256_16 (Ok c) = Err e.
Proof.
  unfold proxy_load, Config_Load, Config_expandDSNs. cbn [mbind result_bind].
  assert (∃ e, expandDSNs (cf_Shards c) ∅ = Err e) as [e ->]; [|by exists e].
  induction (cf_Shards c) as [|sh' shards IH]; [by apply elem_of_nil in Hsh|]. cbn [expandDSNs].
  destruct (expandEnv_no_panic (cs_DSN sh') ∅) as [[v Hv]|[e He]]; [|rewrite He; by eexists].
  apply elem_of_cons in Hsh as [->|Hsh].
  - rewrite Hdsn, expandEnv_refs by done. destruct (tm_refs t) as [|r refs]; [done|]. cbn [fmap list_fmap filter list_filter].
    rewrite decide_True by apply lookup_empty. by eexists.
  - rewrite Hv. destruct (IH Hsh) as [e ->]. by exists e.
Qed.

(** The proxy starts its cache client with the default breaker settings and its
    engine with a policy that never waits for a lease, whatever the configuration
    says of either. *)
Theorem proxy_ignores_settings (c : Config) (now : Z) (version : string) fl listen srv eng cl g fl'
    (Hp : proxy_run ToLower sha256_16 EqualFold live normalise ping_db ping_node now version fl (Ok c) listen =
          Ok (srv, eng, (cl, g), fl')) :
  g_opts g = DefaultBreaker ∧ e_leases eng = mkWaitPolicy 0 0 0 ∧ WaitPolicy_MaxAttempts (e_leases eng) = 0.
Proof.
  unfold proxy_run in Hp. cbn [mbind result_bind] in Hp.
  apply result_bind_ok in Hp as (log & _ & (policy & _ & Hp)%result_bind_ok).
  destruct (cf_Shards c) as [|sc [|? ?]]; [done| |done].
  apply result_bind_ok in Hp as (fl0 & _ & (ds & _ & (shard & _ & Hp)%result_bind_ok)%result_bind_ok).
  case_bool_decide; [done|]. apply result_bind_ok in Hp as (d & _ & ([cl0 g0] & Hc & Hp)%result_bind_ok).
  destruct (OpenTables _ _ _ _ _ _) as [tables shards].
  apply result_bind_ok in Hp as (ts & _ & (e & He & (desc & _ & (u & _ & (s & _ & Hp)%result_bind_ok)%result_bind_ok)%result_bind_ok)%result_bind_ok).
  injection Hp as <- <- <- <- <-. unfold engine_New in He. apply result_bind_ok in He as ([tabs order] & _ & [= <-]).
  split_and!; [|done|done]. unfold cache_New in Hc. cbn [co_Addresses co_TTL co_Breaker co_LeaseTTL Window Buckets] in Hc.
  case_bool_decide; [done|]. destruct (_ <=? _); [done|]. apply result_bind_ok in Hc as (r & _ & (gr & Hg & (ps & _ & Hc)%result_bind_ok)%result_bind_ok).
  injection Hc as <- <-. unfold NewGroup in Hg. by apply result_bind_ok in Hg as (b & _ & [= <-]).
Qed.
End process.

(** ** Witnesses *)

Definition demo_cache : cfg_Cache :=
  mkCfgCache ["n1:6379"] (cc_Admission (cf_Cache cfg_Default)) (cc_Lease (cf_Cache cfg_Default)) (cc_Breaker (cf_Cache cfg_Default))
    (cc_Gutter (cf_Cache cfg_Default)).
Definition cached_config (shards : list cfg_Shard) (topologies : list Topology) (tables : list cfg_Table) : Config :=
  mkConfig (cf_Listen cfg_Default) shards demo_cache topologies tables (cf_DefaultLevel cfg_Default) (cf_Consistency cfg_Default)
    (cf_Observability cfg_Default) (cf_DrainTimeout cfg_Default).
Definition two_shards : Config := cached_config demo_shards demo_topologies demo_tables.
Definition accounts_table (columns : list ColumnConfig) : cfg_Table :=
  mkCfgTable (mkTableConfig "accounts" ["id"] "version" (mkColumnConfig "id" Uint64 false "" :: columns ++ [mkColumnConfig "version" Uint64 false ""])) "main" [].
(** Two deployments that differ in the order of two columns of the second table. *)
Definition before_deploy : Config :=
  cached_config demo_shards demo_topologies (demo_tables ++ [accounts_table [mkColumnConfig "debit" Int64 false ""; mkColumnConfig "credit" Int64 false ""]]).
Definition after_deploy : Config :=
  cached_config demo_shards demo_topologies (demo_tables ++ [accounts_table [mkColumnConfig "credit" Int64 false ""; mkColumnConfig "debit" Int64 false ""]]).

Definition both_tables : string → string → result (list LiveColumn * list Index) := λ _ name,
  if bool_decide (name = "users") then demo_live "" ""
  else Ok ([mkLiveColumn "id" false ""; mkLiveColumn "debit" false ""; mkLiveColumn "credit" false ""; mkLiveColumn "version" false ""], []).

Abbreviation demo_run c :=
  (cachet_run (λ s, s) (λ s, s) (λ a b, bool_decide (a = b)) both_tables Ok (λ _, Ok tt) (λ _, Ok tt) 0 "dev" (Ok c)).

Lemma both_agree c : cf_Tables c = cf_Tables before_deploy ∨ cf_Tables c = cf_Tables after_deploy ∨ cf_Tables c = cf_Tables two_shards →
  cf_Topologies c = demo_topologies → live_agrees (λ s, s) (λ s, s) (λ a b, bool_decide (a = b)) both_tables c.
Proof.
  intros Hts Htp t d topo id Ht Hd Htopo _ Hid. rewrite Htp in Htopo. apply list_elem_of_singleton in Htopo as ->.
  assert (verified_table (λ a b, bool_decide (a = b)) both_tables d t id = verified_table (λ a b, bool_decide (a = b)) both_tables d t "s1") as -> by done.
  assert (match cfg_Descriptor (λ s, s) (λ s, s) t with
          | Ok d => is_ok (verified_table (λ a b, bool_decide (a = b)) both_tables d t "s1")
          | _ => false end = true) as H; [|by rewrite Hd in H].
  clear Hd Hid Htp. destruct Hts as [E|[E|E]]; rewrite E in Ht; clear E;
    repeat (apply elem_of_cons in Ht as [->|Ht]; [vm_compute; reflexivity|]); by apply elem_of_nil in Ht.
Qed.

Lemma demo_reachable c : reachable Ok (λ _, Ok tt) (λ _, Ok tt) c.
Proof. split; [intros sh _; by eexists|done]. Qed.

Lemma demo_starts c : c = before_deploy ∨ c = after_deploy ∨ c = two_shards → ∃ p, demo_run c = Ok p.
Proof.
  intros Hc. destruct (run_starts true (λ s, s) (λ s, s) (λ s, s) (λ a b, bool_decide (a = b)) both_tables Ok (λ _, Ok tt) (λ _, Ok tt) c 0 "dev")
    as (p & _ & _ & Hp & _); [| |apply demo_reachable| |by exists p].
  - destruct Hc as [->|[->| ->]]; vm_compute; reflexivity.
  - destruct Hc as [->|[->| ->]]; vm_compute; reflexivity.
  - apply both_agree; destruct Hc as [->|[->| ->]]; auto.
Qed.


Lemma cache_blind_to_other_tables_witness :
  ∃ p p', demo_run before_deploy = Ok p ∧ demo_run after_deploy = Ok p' ∧ pc_cache p = pc_cache p'.
Proof.
  destruct (demo_starts before_deploy) as [p Hp]; [auto|]. destruct (demo_starts after_deploy) as [p' Hp']; [auto|].
  exists p, p'. split; [done|]. split; [done|].
  apply (cache_blind_to_other_tables (λ s, s) (λ s, s) (λ a b, bool_decide (a = b)) both_tables Ok (λ _, Ok tt) (λ _, Ok tt)
    before_deploy after_deploy 0 "dev" p p' eq_refl eq_refl eq_refl Hp Hp').
Defined.

Lemma flux_follows_first_table_witness :
  ∃ cl g ts, flux_run (λ s, s) (λ s, s) (λ _, Ok tt) 0 (Ok tt) (Ok before_deploy) = Ok (cl, g, ts) ∧
    ta_shard <$> ts = ["s1"; "s2"] ∧ Forall (λ x, ta_table x = "users") ts.
Proof.
  destruct (flux_run (λ s, s) (λ s, s) (λ _, Ok tt) 0 (Ok tt) (Ok before_deploy)) as [[[cl g] ts]|e|w] eqn:E.
  2,3: exfalso; assert (is_ok (flux_run (λ s, s) (λ s, s) (λ _, Ok tt) 0 (Ok tt) (Ok before_deploy)) = true) as H
         by (exact_no_check (@eq_refl bool true)); by rewrite E in H.
  destruct (flux_follows_first_table (λ s, s) (λ s, s) (λ _, Ok tt) before_deploy 0 (Ok tt) cl g ts E) as (t & d & Ht & Hd & Hs & _ & Hts);
    [vm_compute; reflexivity|].
  exists cl, g, ts. split; [done|]. split; [exact Hs|]. injection Ht as <-.
  assert (d_Name d = "users") as Hn by (apply descriptor_wf in Hd as (_ & -> & _); reflexivity).
  rewrite <-Hn. eapply Forall_impl; [exact Hts|]. by intros x [? _].
Defined.

Definition secret_config : Config :=
  cached_config [mkCfgShard "s1" "cachet:${CACHET_DB_PASSWORD}@tcp(db1:3306)/a$pp"] [mkTopology "main" ["s1"]] demo_tables.

Lemma proxy_refuses_references_witness : ∃ e, proxy_load true (λ s, s) (λ s, s) (λ s, s) (Ok secret_config) = Err e.
Proof.
  apply (proxy_refuses_references true (λ s, s) (λ s, s) (λ s, s) secret_config
    (mkCfgShard "s1" "cachet:${CACHET_DB_PASSWORD}@tcp(db1:3306)/a$pp") demo_template);
    [by left|repeat constructor|reflexivity|done].
Defined.

Definition one_shard : Config := cached_config [mkCfgShard "s1" "u:p@tcp(a:1)/d"] [mkTopology "main" ["s1"]] demo_tables.
Definition demo_flags : proxy_flags := mkProxyFlags "127.0.0.1:3307" "" "root" "" "cachet" "" "refuse".
Abbreviation demo_proxy :=
  (proxy_run (λ s, s) (λ s, s) (λ a b, bool_decide (a = b)) both_tables Ok (λ _, Ok tt) (λ _, Ok tt) 0 "dev" demo_flags (Ok one_shard) (Ok tt)).

Lemma proxy_ignores_settings_witness :
  ∃ srv eng cl g fl, demo_proxy = Ok (srv, eng, (cl, g), fl) ∧ WaitPolicy_MaxAttempts (e_leases eng) = 0 ∧
    le_WaitAttempts (cc_Lease (cf_Cache one_shard)) = 4.
Proof.
  destruct demo_proxy as [[[[srv eng] [cl g]] fl]|e|w] eqn:E.
  2,3: exfalso; assert (is_ok demo_proxy = true) as H by (exact_no_check (@eq_refl bool true)); by rewrite E in H.
  destruct (proxy_ignores_settings (λ s, s) (λ s, s) (λ a b, bool_decide (a = b)) both_tables Ok (λ _, Ok tt) (λ _, Ok tt)
    one_shard 0 "dev" demo_flags (Ok tt) srv eng cl g fl E) as (_ & _ & Hw).
  exists srv, eng, cl, g, fl. split; [exact eq_refl|]. split; [exact Hw|exact eq_refl].
Defined.
