(* ===== verification/Ctl.v ===== *)
(** The operator's tool: [src/internal/ctl/ctl.go] and the wiring of
    [src/cmd/cachetctl].

    Reports are records; of their renderings those without floating point are
    here.  The files of the checkpoints, a node's probe, readings of the clock
    and the inputs of a cache operation are arguments. *)

From S2P Require Import Prelude GoStd Floats Hlc Consistency Freshness Regexp Schema Table Mysql Storage Ring Breaker Admission Redis LuaCache CacheClient Engine Cdc Config ConfigSpec Process Sextant.

Local Open Scope Z_scope.

(** ** Keys and tables *)

Definition cachedTable (c : Config) : string :=
  match cf_Tables c with [] => "" | t :: _ => cfg_Name t end.

Definition within_ctl {A} (r : result A) : result A := match r with Err e => Err (Wrapf "ctl" e) | r => r end.

Section ctl.
Context (ToLower sha256_16 : string → string).

Definition parseDeclaredKey (c : Config) (key : string) : result Key :=
  parsed ← within_ctl (ParseKey key);
  ds ← within_ctl (Config_Descriptors ToLower sha256_16 c);
  match find (λ d, bool_decide (d_Name d = key_Table parsed)) ds with
  | Some d => within_ctl (Descriptor_Validate d parsed);; Ok parsed
  | None => Err (Errorf "ctl: no such table is declared in this config")
  end.

Definition sampleKey (c : Config) (i : Z) : string := cachedTable c +:+ ":" +:+ FormatInt i.

(** ** Rings *)

Record RingReport := mkRingReport {
  rr_CacheNodes : list string;
  rr_Shards : list string;
  rr_CacheShare : option (gmap string float64);
  rr_ShardShare : gmap string float64;
  rr_Sampled : Z;
}.

Definition count (k : string) (m : gmap string Z) : gmap string Z := <[k := default 0 (m !! k) + 1]> m.

(** The sampling loop, from key [i] on. *)
Fixpoint ring_samples (c : Config) (shards : storage_Router) (cacheRouter : option cache_Router) (n : nat) (i : Z)
    (shardCounts cacheCounts : gmap string Z) : result (gmap string Z * gmap string Z) :=
  match n with
  | O => Ok (shardCounts, cacheCounts)
  | S n =>
      let key := sampleKey c i in
      match Router_ShardFor shards key with
      | Err e => Err (Wrapf "ctl: route" e)
      | Panic w => Panic w
      | Ok shard =>
          match cacheRouter with
          | None => ring_samples c shards cacheRouter n (i + 1) (count shard shardCounts) cacheCounts
          | Some r =>
              match Router_NodeFor r key with
              | Err e => Err (Wrapf "ctl: route" e)
              | Panic w => Panic w
              | Ok node => ring_samples c shards cacheRouter n (i + 1) (count shard shardCounts) (count node cacheCounts)
              end
          end
      end
  end.

Definition shares (names : list string) (counts : gmap string Z) (sample : Z) : gmap string float64 :=
  foldl (λ m n, <[n := f_div (f_of_int (default 0 (counts !! n))) (f_of_int sample)]> m) ∅ names.

(** The two routers of a configuration: over all its shards, and over its cache
    nodes if it has any. *)
Definition shard_ring (c : Config) : result storage_Router :=
  match storage_NewRouter (cs_ID <$> cf_Shards c) with Err e => Err (Wrapf "ctl: shard ring" e) | r => r end.

Definition cache_ring (c : Config) : result (option cache_Router) :=
  if bool_decide (cc_Addresses (cf_Cache c) = []) then Ok None
  else match cache_NewRouter (cc_Addresses (cf_Cache c)) with
       | Ok r => Ok (Some r)
       | Err e => Err (Wrapf "ctl: cache ring" e)
       | Panic w => Panic w
       end.

Definition ctl_Ring (c : Config) (sample : Z) : result RingReport :=
  if sample <=? 0 then Err (Errorf "ctl: sample size must be positive")
  else
    shards ← shard_ring c;
    cacheRouter ← cache_ring c;
    let names := sort_Strings (Ring_Nodes (sRouter_ring shards)) in
    let nodes := match cacheRouter with Some r => cRouter_nodes r | None => [] end in
    '(shardCounts, cacheCounts) ← ring_samples c shards cacheRouter (Z.to_nat sample) 0 ∅ ∅;
    Ok (mkRingReport nodes names (if is_some cacheRouter then Some (shares nodes cacheCounts sample) else None)
          (shares names shardCounts sample) sample).

(** ** One key *)

Record KeyLocation := mkKeyLocation { kl_Key : string; kl_CacheNode : string; kl_Shard : string }.

Definition ctl_Locate (c : Config) (key : string) : result KeyLocation :=
  parsed ← parseDeclaredKey c key;
  let canonical := Key_String parsed in
  shards ← shard_ring c;
  shard ← (match Router_ShardFor shards canonical with Err e => Err (Wrapf "ctl: route" e) | r => r end);
  cacheRouter ← cache_ring c;
  match cacheRouter with
  | None => Ok (mkKeyLocation canonical "" shard)
  | Some r =>
      node ← (match Router_NodeFor r canonical with Err e => Err (Wrapf "ctl: route" e) | r => r end);
      Ok (mkKeyLocation canonical node shard)
  end.

Definition KeyLocation_String (l : KeyLocation) : string :=
  let node := if bool_decide (kl_CacheNode l = "") then "(no cache configured)" else kl_CacheNode l in
  "key         " +:+ kl_Key l +:+ newline +:+ "cache node  " +:+ node +:+ newline +:+ "shard       " +:+ kl_Shard l +:+ newline.

Record EntryView := mkEntryView { vw_RowVersion : Z; vw_FillVersion : Z; vw_Negative : bool; vw_PayloadBytes : Z }.

(** [ki_TTL] is in milliseconds. *)
Record KeyInspection := mkKeyInspection { ki_KeyLocation : KeyLocation; ki_Cached : bool; ki_TTL : Z; ki_Entry : option EntryView }.

(** What [cachetctl] connects with: no fingerprint. *)
Definition openCache (c : Config) (now : Z) (ping : string → result unit) : result (Client * Group) :=
  cache_New (mkCacheOptions "" (cc_Addresses (cf_Cache c)) (cn_EntryTTL (cf_Consistency c))
               (breakerOptions (cc_Breaker (cf_Cache c))) (le_TTL (cc_Lease (cf_Cache c)))) now ping.

Definition wrapping_ctl {S A} (m : M S A) : M S A := λ s, match m s with (Err e, s') => (Err (Wrapf "ctl" e), s') | r => r end.

Section cache.
Context {R : Type} `{Redis R}.

(** [i] and [i'] are the inputs of the read and of the second call. *)
Definition ctl_Inspect (cl : Client) (i i' : io) (c : Config) (key : string) : M (World R) KeyInspection :=
  loc ← M_lift (ctl_Locate c key);
  hit ← wrapping_ctl (Client_Get cl i (kl_Key loc));
  match hit with
  | None => mret (mkKeyInspection loc false 0 None)
  | Some entry =>
      let view := mkEntryView (RowVersion entry) (FillVersion entry) (Negative entry) (str_len (default "" (Row entry))) in
      '(ttl, present) ← wrapping_ctl (Client_RemainingTTL cl i' (kl_Key loc));
      mret (mkKeyInspection loc true (if present : bool then ttl else 0) (Some view))
  end.

Definition KeyInspection_String (k : KeyInspection) : string :=
  KeyLocation_String (ki_KeyLocation k) +:+
  match ki_Cached k, ki_Entry k with
  | true, Some v =>
      "cached      yes — " +:+ (if vw_Negative v then "negative (a cached absence)" else "value") +:+ newline +:+
      "row ver     " +:+ FormatUint (vw_RowVersion v) +:+ "   (orders fills against each other)" +:+ newline +:+
      "fill ver    " +:+ FormatUint (vw_FillVersion v) +:+ "   (answers freshness)" +:+ newline +:+
      "payload     " +:+ FormatInt (vw_PayloadBytes v) +:+ " bytes" +:+ newline +:+
      "expires in  " +:+ Duration_String (Duration_Round (i64 (ki_TTL k * Millisecond)) Second) +:+ newline
  | _, _ => "cached      no" +:+ newline
  end.

Record InvalidateResult := mkInvalidateResult {
  iv_Key : string; iv_CacheNode : string; iv_Shard : string; iv_Version : Z; iv_Applied : bool; iv_DryRun : bool;
}.

(** A fresh clock stamps the tombstone from the reading [nowMillis]. *)
Definition ctl_Invalidate (cl : Client) (i : io) (nowMillis : Z) (c : Config) (key : string) (dryRun : bool) :
    M (World R) InvalidateResult :=
  loc ← M_lift (ctl_Locate c key);
  version ← M_lift (Clock_Next nowMillis NewClock).1;
  if dryRun : bool then mret (mkInvalidateResult (kl_Key loc) (kl_CacheNode loc) (kl_Shard loc) version false true)
  else
    applied ← wrapping_ctl (Client_Tombstone cl i (kl_Key loc) version);
    mret (mkInvalidateResult (kl_Key loc) (kl_CacheNode loc) (kl_Shard loc) version applied false).
End cache.

Definition InvalidateResult_String (r : InvalidateResult) : string :=
  let verb := if iv_DryRun r then "WOULD invalidate (dry run; nothing was changed)"
              else if negb (iv_Applied r) then "NOT invalidated — a newer version already holds the entry"
              else "invalidated" in
  verb +:+ " " +:+ iv_Key r +:+ newline +:+ "  cache node  " +:+ iv_CacheNode r +:+ newline +:+
  "  shard       " +:+ iv_Shard r +:+ newline +:+ "  version     " +:+ FormatUint (iv_Version r) +:+ newline.

(** ** Admission *)

Record AdmissionExplanation := mkAdmissionExplanation {
  ae_Key : string; ae_Admit : bool; ae_Ratio : float64; ae_Reads : Z; ae_Writes : Z; ae_Reason : reason;
}.

(** The clock readings of the two counts and of the decision. *)
Definition ctl_ExplainAdmission (c : Config) (now now' at_ now2 now2' : Z) (key : string) : M Controller AdmissionExplanation :=
  parsed ← M_lift (parseDeclaredKey c key);
  let canonical := Key_String parsed in
  d ← Controller_Explain now now' at_ canonical;
  '(reads, writes) ← Controller_Counts now2 now2' canonical;
  mret (mkAdmissionExplanation canonical (dc_Admit d) (dc_Ratio d) reads writes (dc_Reason d)).

(** ** Checkpoints and health *)

Record ShardCheckpoint := mkShardCheckpoint { sp_Shard : string; sp_Position : Position; sp_Present : bool; sp_Path : string }.
Record CheckpointReport := mkCheckpointReport { cr_StateDir : string; cr_Shards : list ShardCheckpoint }.

(** [load path] is the position a checkpoint file holds, if there is one. *)
Fixpoint checkpoint_rows (join_path : string → string → string) (load : string → result (option Position)) (stateDir : string)
    (shards : list cfg_Shard) : result (list ShardCheckpoint) :=
  match shards with
  | [] => Ok []
  | sh :: shards =>
      let path := join_path stateDir (cs_ID sh +:+ ".pos") in
      match load path with
      | Err e => Err (Wrapf "ctl: checkpoint" e)
      | Panic w => Panic w
      | Ok pos =>
          rest ← checkpoint_rows join_path load stateDir shards;
          Ok (mkShardCheckpoint (cs_ID sh) (default no_position pos) (is_some pos) path :: rest)
      end
  end.

(** [stat] is whether the path is a directory. *)
Definition dirExists (stat : string → result bool) (path : string) : result unit :=
  match stat path with
  | Err e => Err (Wrapf "ctl: state dir" e)
  | Panic w => Panic w
  | Ok true => Ok tt
  | Ok false => Err (Errorf "ctl: state dir is not a directory")
  end.

Definition ctl_Checkpoints (stat : string → result bool) (join_path : string → string → string)
    (load : string → result (option Position)) (c : Config) (stateDir : string) : result CheckpointReport :=
  dirExists stat stateDir;;
  rows ← checkpoint_rows join_path load stateDir (cf_Shards c);
  Ok (mkCheckpointReport stateDir rows).

(** ["%-12s"]: the width counts characters, so not the bytes that continue one. *)
Fixpoint rune_count (s : string) : nat :=
  match s with
  | "" => O
  | String c s => (if (128 <=? byte_val c) && (byte_val c <? 192) then O else 1) + rune_count s
  end.
Definition pad_right (n : nat) (s : string) : string := s +:+ str_repeat " " (n - rune_count s).

Definition checkpoint_line (s : ShardCheckpoint) : string :=
  "  " +:+ pad_right 12 (sp_Shard s) +:+ " " +:+
  (if sp_Present s then Position_String (sp_Position s)
   else "no checkpoint — this shard's tailer has never committed a position") +:+ newline.

Definition CheckpointReport_String (r : CheckpointReport) : string :=
  "tailer checkpoints in " +:+ cr_StateDir r +:+ newline +:+ foldr (λ s acc, checkpoint_line s +:+ acc) "" (cr_Shards r).

Record NodeHealth := mkNodeHealth { nh_Address : string; nh_Latency : Z + error }.

(** [probe addr] is the round trip of a ping, or its error. *)
Definition ctl_Health (probe : string → Z + error) (c : Config) : result (list NodeHealth) :=
  if bool_decide (cc_Addresses (cf_Cache c) = []) then Ok []
  else
    match cache_NewRouter (cc_Addresses (cf_Cache c)) with
    | Err e => Err (Wrapf "ctl: cache ring" e)
    | Panic w => Panic w
    | Ok router => Ok ((λ addr, mkNodeHealth addr (probe addr)) <$> cRouter_nodes router)
    end.

(** [err] renders an error. *)
Definition health_line (err : error → string) (n : NodeHealth) : string :=
  "  " +:+ pad_right 28 (nh_Address n) +:+
  match nh_Latency n with
  | inl d => " ok    " +:+ Duration_String (Duration_Round d 1000)
  | inr e => " DOWN  " +:+ err e
  end +:+ newline.

Definition answering (n : NodeHealth) : bool := match nh_Latency n with inl _ => true | inr _ => false end.

Definition HealthReport_String (err : error → string) (nodes : list NodeHealth) : string :=
  if bool_decide (nodes = []) then "no cache configured — every read reaches the database" +:+ newline
  else
    "cache ring: " +:+ FormatInt (Z.of_nat (length (List.filter answering nodes))) +:+ "/" +:+ FormatInt (Z.of_nat (length nodes)) +:+
    " node(s) answering" +:+ newline +:+ foldr (λ n acc, health_line err n +:+ acc) "" nodes.
End ctl.
