(* ===== verification/CtlSpec.v ===== *)
(** What the operator's tool answers: where a key lives, beside where the engine
    looks for it, and what the tool can see of a cache. *)

From S2P Require Import Prelude GoStd Floats Hlc Consistency Freshness Regexp Schema Table Mysql Storage Ring Breaker Admission Redis LuaCache CacheClient Engine Cdc Config ConfigSpec Process ProcessSpec Ctl.

Local Open Scope Z_scope.

Section ctl.
Context (linux : bool) (ToUpper ToLower sha256_16 : string → string).

(** ** Lemmas *)

Lemma parseDeclaredKey_ok c key k : parseDeclaredKey ToLower sha256_16 c key = Ok k → ParseKey key = Ok k.
Proof.
  unfold parseDeclaredKey. intros (k' & Hk & (ds & _ & H)%result_bind_ok)%result_bind_ok.
  destruct (find _ ds); [|done]. apply result_bind_ok in H as ([] & _ & [= <-]).
  unfold within_ctl in Hk. by destruct (ParseKey key); simplify_eq.
Qed.

Lemma Key_String_nonempty key k : ParseKey key = Ok k → Key_String k ≠ "".
Proof.
  unfold ParseKey. destruct (cut_byte ":" key) as [[t rest]|]; [|done]. destruct (validIdentifier t) eqn:Hv; [|done]. cbn [negb].
  intros (vs & _ & [= <-])%result_bind_ok. unfold Key_String. cbn [key_Table key_Values].
  assert (t ≠ "") as Ht by (by intros ->). clear Hv. revert t Ht.
  induction vs as [|v vs IH]; intros t Ht; cbn [foldl]; [done|]. apply IH. by destruct t.
Qed.

Lemma Locate_ok c key loc : ctl_Locate ToLower sha256_16 c key = Ok loc →
  ∃ k, ParseKey key = Ok k ∧ kl_Key loc = Key_String k ∧ kl_Key loc ≠ "" ∧
    Owns (cs_ID <$> cf_Shards c) (kl_Key loc) (kl_Shard loc) ∧
    (cc_Addresses (cf_Cache c) = [] → kl_CacheNode loc = "") ∧
    (cc_Addresses (cf_Cache c) ≠ [] → Owns (cc_Addresses (cf_Cache c)) (kl_Key loc) (kl_CacheNode loc)).
Proof.
  unfold ctl_Locate. intros (k & Hk%parseDeclaredKey_ok & (r & Hr & (shard & Hs & (cr & Hc & H)%result_bind_ok)%result_bind_ok)%result_bind_ok)%result_bind_ok.
  exists k. split; [done|].
  assert (storage_NewRouter (cs_ID <$> cf_Shards c) = Ok r) as Hr'.
  { unfold shard_ring in Hr. by destruct (storage_NewRouter _); simplify_eq. }
  assert (Router_ShardFor r (Key_String k) = Ok shard) as Hs' by (by destruct (Router_ShardFor _ _); simplify_eq).
  pose proof (Key_String_nonempty _ _ Hk) as Hne.
  assert (Owns (cs_ID <$> cf_Shards c) (Key_String k) shard) as Hown.
  { destruct (ShardFor_total _ _ (Key_String k) Hr' Hne) as (id & Hid & _ & Ho). congruence. }
  unfold cache_ring in Hc. case_bool_decide as Ha.
  - injection Hc as <-. injection H as <-. cbn. by split_and!.
  - destruct (cache_NewRouter _) as [cr'|e|w] eqn:En; [injection Hc as <-|done..].
    apply result_bind_ok in H as (node & Hn & [= <-]). cbn. split_and!; try done.
    intros _. apply (NodeFor_Owns _ _ _ _ En Hne). by destruct (Router_NodeFor _ _); simplify_eq.
Qed.

Lemma storage_NewRouter_total shards : shards ≠ [] → "" ∉ shards → ∃ r, storage_NewRouter shards = Ok r.
Proof.
  intros Hne He. unfold storage_NewRouter. rewrite bool_decide_eq_false_2 by done.
  destruct (collect_unique_total "storage: empty shard id in topology" shards ∅ [] He) as [[u s] ->]. by eexists.
Qed.

Lemma cache_NewRouter_total nodes : nodes ≠ [] → "" ∉ nodes → ∃ r, cache_NewRouter nodes = Ok r.
Proof.
  intros Hne He. unfold cache_NewRouter. rewrite bool_decide_eq_false_2 by done.
  destruct (collect_unique_total "cache: empty node address in cache topology" nodes ∅ [] He) as [[u s] ->]. by eexists.
Qed.

(** A key of a declared table is located. *)
Lemma Locate_total c key k : parseDeclaredKey ToLower sha256_16 c key = Ok k →
  cf_Shards c ≠ [] → "" ∉ cs_ID <$> cf_Shards c → "" ∉ cc_Addresses (cf_Cache c) →
  ∃ loc, ctl_Locate ToLower sha256_16 c key = Ok loc ∧ kl_Key loc = Key_String k.
Proof.
  intros Hk Hs He Ha. pose proof (Key_String_nonempty _ _ (parseDeclaredKey_ok _ _ _ Hk)) as Hne.
  destruct (storage_NewRouter_total (cs_ID <$> cf_Shards c)) as [r Hr]; [by destruct (cf_Shards c)|done|].
  destruct (ShardFor_total _ _ _ Hr Hne) as (id & Hid & _).
  unfold ctl_Locate, shard_ring, cache_ring. rewrite Hk, Hr. cbn [mbind result_bind]. rewrite Hid. cbn [mbind result_bind].
  case_bool_decide as Hc; [by eexists|]. destruct (cache_NewRouter_total _ Hc Ha) as [cr Hcr]. rewrite Hcr. cbn [mbind result_bind].
  assert (∃ n, Owns (cc_Addresses (cf_Cache c)) (Key_String k) n) as [n Hn].
  { destruct (Ring_Lookup_Owns _ (Key_String k) Hc) as (n & _ & Ho). by exists n. }
  rewrite (proj2 (NodeFor_Owns _ _ _ _ Hcr Hne) Hn). by eexists.
Qed.

Lemma openCache_fingerprint c now ping cl g : openCache c now ping = Ok (cl, g) → cl_fingerprint cl = "".
Proof.
  unfold openCache, cache_New. case_bool_decide; [done|]. destruct (_ <=? _); [done|].
  intros (r & _ & (gr & _ & (ps & _ & Heq)%result_bind_ok)%result_bind_ok)%result_bind_ok. by injection Heq as <- _.
Qed.

(** ** Properties *)

(** The tool routes every key over all shards of the configuration, the engine
    routes a key of a table over the shards of its topology; so they agree on a
    key's shard exactly when the tool's answer is one the topology names. *)
Theorem Locate_agrees_iff (c : Config) (topo : Topology) (key : string) loc r id
    (Hl : ctl_Locate ToLower sha256_16 c key = Ok loc)
    (Hsub : ∀ s, s ∈ tp_Shards topo → s ∈ cs_ID <$> cf_Shards c)
    (Hr : storage_NewRouter (tp_Shards topo) = Ok r) (Hid : Router_ShardFor r (kl_Key loc) = Ok id) :
  id = kl_Shard loc ↔ kl_Shard loc ∈ tp_Shards topo.
Proof.
  apply Locate_ok in Hl as (k & _ & _ & Hne & Hown & _).
  destruct (ShardFor_total _ _ _ Hr Hne) as (id' & Hid' & Hin & Hown'). rewrite Hid in Hid'. injection Hid' as <-.
  split; [by intros <-|]. intros Hs. eapply Owns_unique; [exact Hown'|].
  eapply (Owns_subset _ _ _ _ Hown); done.
Qed.

(** The tool connects without a fingerprint, and a read serves an entry to its
    own fingerprint only: whatever an engine of a declared table has cached, the
    tool reports the key as not cached. *)
Theorem Inspect_sees_nothing {R} `{Redis R, !RedisLaws R} (c : Config) now ping cl g i i' key loc (w : World R) x e l node t t'
    (Ho : openCache c now ping = Ok (cl, g)) (Hl : ctl_Locate ToLower sha256_16 c key = Ok loc)
    (Hg : group_ok t (w_breakers w)) (Hi : io_ok t i t') (Hp : Client_poolFor cl (kl_Key loc) = Ok node)
    (Hk : key_at w cl (kl_Key loc) (io_server i) x e l) (Hx : ∀ s, c_val x = Some s → st_fp s ≠ "") :
  ∃ w', ctl_Inspect ToLower sha256_16 cl i i' c key w = (Ok (mkKeyInspection loc false 0 None), w') ∨
        io_fault i ≠ Answered ∧ ∃ er, ctl_Inspect ToLower sha256_16 cl i i' c key w = (Err er, w').
Proof.
  assert (cl_fingerprint cl = "") as Hfp by by eapply openCache_fingerprint.
  destruct (get_run cl i (kl_Key loc) w x e l node t t' Hg Hi Hp Hk) as (ok & w' & _ & Hget & _).
  assert (cell_read (cl_fingerprint cl) x = None) as Hread.
  { rewrite Hfp. unfold cell_read. destruct (c_val x) as [s|]; [|done]. by rewrite bool_decide_eq_false_2 by by apply Hx. }
  rewrite Hread in Hget. exists w'. unfold ctl_Inspect. rewrite Hl, (M_bind_run _ (M_lift (Ok loc)) w loc w) by done.
  destruct (negb ok); [|destruct (io_fault i)].
  1-3: left; rewrite (M_bind_run _ _ w None w'); [done|unfold wrapping_ctl; by rewrite Hget].
  all: right; split; [done|]; eexists; apply M_bind_err; unfold wrapping_ctl; by rewrite Hget.
Qed.

(** A dry run of an invalidation changes nothing; a real one leaves the entry as
    a tombstone of the clock's version does and reports whether that version won,
    whatever the health of the node. *)
Theorem Invalidate_spec {R} `{Redis R, !RedisLaws R} (cl : Client) i nowMillis (c : Config) key loc version ck (w : World R) x e l t t'
    (Hl : ctl_Locate ToLower sha256_16 c key = Ok loc) (Hv : Clock_Next nowMillis NewClock = (Ok version, ck)) (Hu : is_u64 version)
    (Hg : group_ok t (w_breakers w)) (Hi : io_ok t i t') (Httl : 1000000 ≤ cl_ttl cl)
    (Hk : key_at w cl (kl_Key loc) (io_server i) x e l) (Hf : io_fault i = Answered) :
  let res := mkInvalidateResult (kl_Key loc) (kl_CacheNode loc) (kl_Shard loc) version in
  ctl_Invalidate ToLower sha256_16 cl i nowMillis c key true w = (Ok (res false true), w) ∧
  ∃ w', ctl_Invalidate ToLower sha256_16 cl i nowMillis c key false w = (Ok (res (tombstone_wins version x) false), w') ∧
    key_at w' cl (kl_Key loc) (io_server i) (cell_tombstone version x)
      (if tombstone_wins version x then Some (io_server i + Milliseconds (cl_ttl cl)) else e) l.
Proof.
  cbv zeta. unfold ctl_Invalidate. rewrite Hl, Hv. cbn [fst].
  rewrite !(M_bind_run _ (M_lift (Ok loc)) w loc w), !(M_bind_run _ (M_lift (Ok version)) w version w) by done.
  split; [done|]. destruct (tombstone_run cl i (kl_Key loc) version w x e l t t' Hg Hi Hu Httl Hk) as (w' & Ht & _ & Hk').
  rewrite Hf in Ht, Hk'. cbn [fault_ok executed] in Ht, Hk'. exists w'. split; [|done].
  rewrite (M_bind_run _ _ w (tombstone_wins version x) w'); [done|]. unfold wrapping_ctl. by rewrite Ht.
Qed.
End ctl.

(** ** Witnesses *)

Abbreviation demo_locate := (ctl_Locate (λ s, s) (λ s, s) two_shards "users:1").

Lemma demo_located : ∃ loc, demo_locate = Ok loc ∧ kl_Key loc = "users:1".
Proof.
  apply (Locate_total (λ s, s) (λ s, s) two_shards "users:1" (mkKey "users" ["1"])); [vm_compute; reflexivity|done|set_solver|set_solver].
Qed.

(** A table kept on the first of two shards. *)
Lemma Locate_agrees_iff_witness :
  ∃ loc r, demo_locate = Ok loc ∧ storage_NewRouter ["s1"] = Ok r ∧ Router_ShardFor r "users:1" = Ok "s1" ∧
    ("s1" = kl_Shard loc ↔ kl_Shard loc ∈ ["s1"]).
Proof.
  assert (∀ s, s ∈ ["s1"] → s ∈ ["s1"; "s2"]) as Hsub by set_solver.
  destruct (storage_NewRouter_total ["s1"]) as [r Er]; [done|set_solver|].
  destruct (ShardFor_total _ _ "users:1" Er) as (id & Hid & Hin & _); [done|]. apply list_elem_of_singleton in Hin. subst id.
  destruct demo_located as (loc & Hl & Hk).
  exists loc, r. split; [exact Hl|]. split; [exact Er|]. split; [exact Hid|]. rewrite <-Hk in Hid.
  exact (Locate_agrees_iff (λ s, s) (λ s, s) two_shards (mkTopology "one" ["s1"]) "users:1" loc r "s1" Hl Hsub Er Hid).
Defined.

Definition cached_cell : cell := mkCell None (Some (mkStored 7 9 "row" false "h")).

Lemma cached_cell_wf : cell_wf cached_cell.
Proof. split; [done|]. intros s [= <-]. vm_compute. intuition congruence. Qed.

Lemma cached_cell_owned s : c_val cached_cell = Some s → st_fp s ≠ "".
Proof. by intros [= <-]. Qed.

(** A node where an engine of the table has cached a key. *)
Definition cached_node (k : string) : mem := {[k := (RHash (hash_of cached_cell), None)]}.

Lemma cached_node_holds k now : holds (cached_node k) now k cached_cell None.
Proof.
  split; [apply cached_cell_wf|]. split; [|done]. unfold look, mem_redis, mem_look, cached_node. rewrite lookup_singleton_eq.
  by rewrite bool_decide_eq_false_2 by (vm_compute; congruence).
Qed.

Lemma cached_node_lease k now : lease_holds (cached_node k) now (leaseKey k) None.
Proof.
  unfold lease_holds, look, mem_redis, mem_look, cached_node. rewrite lookup_singleton_ne; [done|]. apply leaseKey_ne.
Qed.

Lemma demo_ctl_connected : ∃ cl g, openCache two_shards 0 (λ _, Ok tt) = Ok (cl, g) ∧ 1000000 ≤ cl_ttl cl ∧
  group_ok 0 g ∧ ∀ k, k ≠ "" → Client_poolFor cl k = Ok "n1:6379".
Proof.
  destruct (cache_New_run "" ["n1:6379"] (cn_EntryTTL (cf_Consistency two_shards)) (le_TTL (cc_Lease (cf_Cache two_shards)))
    (cc_Breaker (cf_Cache two_shards)) 0 (λ _, Ok tt)) as (cl & Hcl & Httl & _); [done| | | | |done|].
  - split; [set_solver|]. apply NoDup_singleton.
  - vm_compute. reflexivity.
  - vm_compute. reflexivity.
  - vm_compute. intuition congruence.
  - exists cl, (mkGroup (breakerOptions (cc_Breaker (cf_Cache two_shards))) ∅). split; [exact Hcl|]. rewrite Httl.
    split; [done|]. split; [unfold group_ok; split_and!; [lia|reflexivity|intros now; vm_compute; reflexivity|vm_compute; congruence|]|].
    + intros node b. cbn [g_breakers w_breakers]. by rewrite lookup_empty.
    + intros k Hk. destruct (cache_New_ready _ _ _ _ _ k Hcl Hk) as (_ & _ & _ & node & Hp & Hin & _).
      by apply list_elem_of_singleton in Hin as ->.
Qed.

Lemma cached_key_at cl k g now : Client_poolFor cl k = Ok "n1:6379" →
  key_at (mkWorld {["n1:6379" := cached_node k]} g) cl k now cached_cell None None.
Proof.
  intros Hp. exists "n1:6379", (cached_node k). split; [done|]. split; [apply lookup_singleton_eq|].
  split; [apply cached_node_holds|apply cached_node_lease].
Qed.

Lemma Inspect_sees_nothing_witness :
  ∃ cl g loc w', openCache two_shards 0 (λ _, Ok tt) = Ok (cl, g) ∧
    ctl_Inspect (λ s, s) (λ s, s) cl demo_io demo_io two_shards "users:1" (mkWorld {["n1:6379" := cached_node (kl_Key loc)]} g) =
      (Ok (mkKeyInspection loc false 0 None), w').
Proof.
  destruct demo_ctl_connected as (cl & g & Ho & _ & Hg & Hp). destruct demo_located as (loc & Hl & Hk).
  assert (Client_poolFor cl (kl_Key loc) = Ok "n1:6379") as Hp' by (apply Hp; by rewrite Hk).
  pose proof (Inspect_sees_nothing (λ s, s) (λ s, s) two_shards 0 (λ _, Ok tt) cl g demo_io demo_io "users:1" loc
    (mkWorld {["n1:6379" := cached_node (kl_Key loc)]} g) cached_cell None None "n1:6379" 0 5 Ho Hl Hg demo_io_ok Hp'
    (cached_key_at cl (kl_Key loc) g _ Hp') cached_cell_owned) as (w' & [Hw|[Hw _]]); [|by contradiction Hw].
  exists cl, g, loc, w'. split; [exact Ho|exact Hw].
Defined.

Lemma Invalidate_spec_witness :
  ∃ cl g w', openCache two_shards 0 (λ _, Ok tt) = Ok (cl, g) ∧
    key_at w' cl "users:1" 1000 (cell_tombstone (2 ^ 20) cached_cell) (Some (1000 + Milliseconds (cl_ttl cl))) None.
Proof.
  destruct demo_ctl_connected as (cl & g & Ho & Httl & Hg & Hp). destruct demo_located as (loc & Hl & Hk).
  assert (Client_poolFor cl (kl_Key loc) = Ok "n1:6379") as Hp' by (apply Hp; by rewrite Hk).
  assert (Clock_Next 16 NewClock = (Ok (2 ^ 20), (Clock_Next 16 NewClock).2)) as Hv by (vm_compute; reflexivity).
  assert (is_u64 (2 ^ 20)) as Hu by (vm_compute; intuition congruence).
  destruct (Invalidate_spec (λ s, s) (λ s, s) cl demo_io 16 two_shards "users:1" loc (2 ^ 20) (Clock_Next 16 NewClock).2
    (mkWorld {["n1:6379" := cached_node (kl_Key loc)]} g) cached_cell None None 0 5 Hl Hv Hu Hg demo_io_ok Httl
    (cached_key_at cl (kl_Key loc) g _ Hp') eq_refl) as (_ & w' & _ & Hw).
  exists cl, g, w'. split; [exact Ho|]. rewrite <-Hk. exact Hw.
Defined.
