(* ===== verification/SextantRun.v ===== *)
(** The verifier's own configuration and the two ways it is started:
    [src/pkg/sextant/config.go], the key file of [keysource.go], and
    [src/cmd/sextant].

    What databases, caches and files answer while it starts is an argument; the
    system a running verifier watches is a state that changes by [tick] before
    every call. *)

From S2P Require Import Prelude GoStd Floats Hlc Consistency Schema Regexp Table Mysql Storage Introspect Ring Breaker CacheClient Engine Cdc Config Process Sextant Verifier Sources.

Local Open Scope Z_scope.

(** ** Key sources *)

Definition SourceBinlog : string := "binlog".
Definition SourceFile : string := "file".
Definition SourceScan : string := "scan".

Inductive KeySource :=
  | KRecent (r : RecentKeys)
  | KFile (f : FileKeys)
  | KScan (s : ScanKeys).

Definition KeySource_Kind (k : KeySource) : string :=
  match k with KRecent _ => SourceBinlog | KFile _ => SourceFile | KScan _ => SourceScan end.
Definition KeySource_Degraded (k : KeySource) : bool := match k with KScan _ => true | _ => false end.

(** A draw from a source; [IntN n] is the generator's draw below [n]. *)
Definition KeySource_Next (IntN : nat → nat) (k : KeySource) : option string * KeySource :=
  match k with
  | KRecent r => (RecentKeys_Next IntN r, k)
  | KFile f => match FileKeys_Next f with (Ok key, f) => (Some key, KFile f) | (_, f) => (None, KFile f) end
  | KScan s => (ScanKeys_Next IntN s, k)
  end.

(** [bufio.Scanner] over a file: its lines without their ends, as long as each
    fits the scanner's buffer. *)
Definition MaxScanTokenSize : nat := 65536.
Definition drop_empty_last (l : list string) : list string :=
  match last l with Some s => if bool_decide (s = "") then take (length l - 1) l else l | None => l end.
Definition dropCR (line : string) : string := TrimSuffix line (String (byte_of 13) "").
Definition scan_lines (file : string) : result (list string) :=
  let lines := drop_empty_last (split_byte (byte_of 10) file) in
  if forallb (λ l, (String.length l <? MaxScanTokenSize)%nat) lines then Ok (dropCR <$> lines)
  else Err (Errorf "bufio.Scanner: token too long").

Definition key_lines (lines : list string) : list string :=
  filter (λ l, l ≠ "" ∧ str_prefix "#" l = false) (TrimSpace <$> lines).

Definition NewFileKeys (file : result string) : result FileKeys :=
  match file with
  | Err e => Err (Wrapf "sextant: read key file" e)
  | Panic w => Panic w
  | Ok file =>
      match scan_lines file with
      | Err e => Err (Wrapf "sextant: read key file" e)
      | Panic w => Panic w
      | Ok lines =>
          let keys := key_lines lines in
          if bool_decide (keys = []) then Err (Errorf "sextant: key file has no keys") else Ok (mkFileKeys keys 0)
      end
  end.

(** ** The loop *)

(** [Run] until it is cancelled, after [ticks] ticks. *)
Fixpoint Verifier_Run {W} `{Adapters W} (ticks : nat) : M (VS W) unit :=
  match ticks with O => mret tt | S ticks => Verifier_RunOnce;; Verifier_Run ticks end.

(** ** The configuration *)

Record OriginConfig := mkOriginConfig {
  oc_DSNs : list string; oc_Table : string; oc_KeyColumn : string; oc_VersionColumn : string;
  oc_ValueColumns : list string; oc_Shard : string;
}.
Record CacheConfig := mkCacheConfig {
  xc_Addrs : list string; xc_KeyTemplate : string; xc_Codec : string; xc_VersionField : string; xc_ValueFields : list string;
}.
Record KeysConfig := mkKeysConfig { kc_Source : string; kc_File : string; kc_Capacity : Z }.
Record BoundConfig := mkBoundConfig { bc_WritePathInvalidationBudget : Z; bc_CDCLagBound : Z; bc_MaxClockSkew : Z }.
Record SamplingConfig := mkSamplingConfig { sg_Interval : Z; sg_Batch : Z }.

Record sx_Config := mkSxConfig {
  xf_Tier : string;
  xf_Origin : OriginConfig;
  xf_Cache : CacheConfig;
  xf_Keys : KeysConfig;
  xf_Bound : BoundConfig;
  xf_Sampling : SamplingConfig;
  xf_SLOWindow : Z;
  xf_MetricsListen : string;
  xf_Shadow : bool;
}.

Definition DefaultConfig : sx_Config :=
  mkSxConfig TierVersion (mkOriginConfig [] "" "" "" [] "") (mkCacheConfig [] "" CodecRaw "" [])
    (mkKeysConfig SourceBinlog "" 10000) (mkBoundConfig (50 * Millisecond) (5 * Second) (250 * Millisecond))
    (mkSamplingConfig Second 100) (5 * Minute) ":9101" false.

(** The checks of [Validate], in order. *)
Definition Validate_fields (c : sx_Config) : result unit :=
  if bool_decide (oc_DSNs (xf_Origin c) = []) then Err (Errorf "sextant: origin.dsns is empty")
  else if bool_decide (oc_Table (xf_Origin c) = "") then Err (Errorf "sextant: origin.table is empty")
  else if bool_decide (oc_KeyColumn (xf_Origin c) = "") then Err (Errorf "sextant: origin.key_column is empty")
  else if bool_decide (xc_Addrs (xf_Cache c) = []) then Err (Errorf "sextant: cache.addrs is empty")
  else if bool_decide (xc_KeyTemplate (xf_Cache c) = "") then Err (Errorf "sextant: cache.key_template is empty")
  else Ok tt.

Definition Validate_tier (tier codec : string) (c : sx_Config) : result unit :=
  if Tier_ComparesVersions tier then
    if bool_decide (oc_VersionColumn (xf_Origin c) = "") then Err (Errorf "sextant: origin.version_column is required")
    else if bool_decide (codec = CodecRaw) then Err (Errorf "sextant: cache.codec cannot extract a version")
    else Ok tt
  else if bool_decide (oc_ValueColumns (xf_Origin c) = []) then Err (Errorf "sextant: origin.value_columns is required")
  else Ok tt.

Definition Validate_keys (k : KeysConfig) : result unit :=
  if bool_decide (kc_Source k = SourceBinlog) || bool_decide (kc_Source k = SourceScan) then Ok tt
  else if bool_decide (kc_Source k = SourceFile) then
    if bool_decide (kc_File k = "") then Err (Errorf "sextant: keys.source is file, so keys.file is required") else Ok tt
  else Err (Errorf "sextant: unknown keys.source; want binlog, file or scan").

Definition Validate_shard (o : OriginConfig) : result unit :=
  if negb (bool_decide (oc_Shard o = "")) && negb (bool_decide (oc_Shard o = "single")) && negb (bool_decide (oc_Shard o = "hash")) then
    Err (Errorf "sextant: unknown origin.shard; want single or hash")
  else if bool_decide (oc_Shard o = "hash") && (length (oc_DSNs o) <? 2)%nat then
    Err (Errorf "sextant: origin.shard is hash with a single writer; use single")
  else Ok tt.

Definition Validate_rates (c : sx_Config) : result unit :=
  let b := xf_Bound c in
  if i64 (i64 (bc_WritePathInvalidationBudget b + bc_CDCLagBound b) + bc_MaxClockSkew b) <=? 0 then
    Err (Errorf "sextant: the propagation bound sums to zero")
  else if (sg_Interval (xf_Sampling c) <=? 0) || (sg_Batch (xf_Sampling c) <=? 0) then
    Err (Errorf "sextant: sampling.interval and sampling.batch must be positive")
  else if xf_SLOWindow c <=? 0 then Err (Errorf "sextant: slo_window must be positive")
  else Ok tt.

Definition sx_Validate (c : sx_Config) : result unit :=
  tier ← ParseTier (xf_Tier c);
  codec ← ParseCodec (xc_Codec (xf_Cache c));
  Validate_fields c;;
  Validate_tier tier codec c;;
  Validate_keys (xf_Keys c);;
  Validate_shard (xf_Origin c);;
  Validate_rates c.

(** [LoadConfig]: [decoded] is the file decoded onto [DefaultConfig]. *)
Definition sx_LoadConfig (decoded : result sx_Config) : result sx_Config :=
  cfg ← decoded;
  sx_Validate cfg;;
  Ok cfg.

(** ** Building a verifier *)

Record Built := mkBuilt { bt_Verifier : Verifier; bt_Keys : KeySource; bt_origin : SQLOrigin; bt_cache : RedisCacheOptions }.

Definition buildKeySource (file : result string) (k : KeysConfig) : result KeySource :=
  if bool_decide (kc_Source k = SourceFile) then f ← NewFileKeys file; Ok (KFile f)
  else if bool_decide (kc_Source k = SourceScan) then Err (Errorf "sextant: keys.source scan must be built by the caller")
  else Ok (KRecent (NewRecentKeys (if kc_Capacity k <=? 0 then 10000 else kc_Capacity k))).

Definition origin_options (o : OriginConfig) : SQLOriginOptions :=
  mkSQLOriginOptions (oc_DSNs o) (oc_Table o) (oc_KeyColumn o) (oc_VersionColumn o) (oc_ValueColumns o)
    (if bool_decide (oc_Shard o = "hash") then Some (HashShard (Z.of_nat (length (oc_DSNs o)))) else None).

Definition cache_options (codec : string) (c : CacheConfig) : RedisCacheOptions :=
  mkRedisCacheOptions (xc_Addrs c) (xc_KeyTemplate c) codec (xc_VersionField c) (xc_ValueFields c).

Definition Build (reach : string → option error) (ping : option error) (file : result string) (cfg : sx_Config) : result Built :=
  sx_Validate cfg;;
  (* both were parsed by Validate *)
  let tier := match ParseTier (xf_Tier cfg) with Ok t => t | _ => "" end in
  let codec := match ParseCodec (xc_Codec (xf_Cache cfg)) with Ok c => c | _ => "" end in
  origin ← NewSQLOrigin reach (origin_options (xf_Origin cfg));
  cache ← NewRedisCache ping (cache_options codec (xf_Cache cfg));
  keys ← buildKeySource file (xf_Keys cfg);
  let b := xf_Bound cfg in
  verifier ← NewVerifier
    (mkVerifierOptions true true true
       (NewPropagationBound (bc_WritePathInvalidationBudget b) (bc_CDCLagBound b) (bc_MaxClockSkew b))
       (Some (NewSLO (xf_SLOWindow cfg))) (Some (NewTracer (mkTracerOptions 0 0))) tier
       (sg_Interval (xf_Sampling cfg)) (sg_Batch (xf_Sampling cfg)) (xf_Shadow cfg) false);
  Ok (mkBuilt verifier keys origin cache).

(** [runStandalone] up to the loop it runs: nothing else is handed the key source. *)
Definition runStandalone (reach : string → option error) (ping : option error) (file : result string) (decoded : result sx_Config) :
    result Built :=
  cfg ← sx_LoadConfig decoded;
  Build reach ping file cfg.

(** What a standalone verifier watches: its own key source beside the rest of the
    world, which answers and moves as it likes. *)
Section standalone.
Context {E : Type} (tick : E → E) (now : E → Z) (draw : E → nat → nat).
Context (query : E → string → string → string → result (option (list (option string)))).
Context (Unmarshal : string → result (gmap string string)).
Context (HGetAll : E → string → result (gmap string string)) (Get : E → string → result (option string)).

Definition standalone_adapters (b : Built) : Adapters (KeySource * E) := {|
  sx_Peek key := λ w, (RedisCache_Peek Unmarshal (HGetAll w.2) (Get w.2) (bt_cache b) key, (w.1, tick w.2));
  sx_StateOf key := λ w, (SQLOrigin_State (query w.2) (bt_origin b) key, (w.1, tick w.2));
  sx_ShardOf key := λ w, (SQLOrigin_Shard (bt_origin b) key, w);
  sx_NextKey := λ w, let '(k, ks) := KeySource_Next (draw w.2) w.1 in (k, (ks, tick w.2));
  sx_Now := λ w, (now w.2, (w.1, tick w.2));
|}.
End standalone.

(** ** The native process *)

Record sextant_flags := mkSextantFlags { sf_shadow : bool; sf_interval : Z; sf_batch : Z; sf_window : Z; sf_candidates : Z }.

Record sextant_process := mkSextantProcess {
  sp_verifier : Verifier; sp_keys : RecentKeys; sp_client : Client * Group; sp_origin : OriginAdapter;
}.

Section native.
Context (linux : bool) (ToUpper ToLower sha256_16 : string → string).
Context (normalise : string → result string) (ping_db ping_node : string → result unit).

Definition sextant_run (now : Z) (fl : sextant_flags) (loaded : result Config) : result sextant_process :=
  cfg ← loaded;
  Config_Validate linux ToUpper ToLower sha256_16 cfg;;
  if bool_decide (cc_Addresses (cf_Cache cfg) = []) then
    Err (Errorf "sextant: no cache configured; there would be nothing to verify")
  else
    cc ← cache_New (mkCacheOptions "" (cc_Addresses (cf_Cache cfg)) (cn_EntryTTL (cf_Consistency cfg))
                      (mkOptions 0 0 0 f_zero f_zero) (le_TTL (cc_Lease (cf_Cache cfg)))) now ping_node;
    shards ← openShards normalise ping_db (cf_Shards cfg) ∅;
    router ← storage_NewRouter (cs_ID <$> cf_Shards cfg);
    verifier ← NewVerifier
      (mkVerifierOptions true true true
         (NewPropagationBound (cn_WritePathInvalidationBudget (cf_Consistency cfg)) (cn_CDCLagBound (cf_Consistency cfg))
            (cn_MaxClockSkew (cf_Consistency cfg)))
         (Some (NewSLO (sf_window fl))) (Some (NewTracer (mkTracerOptions 0 0))) ""
         (sf_interval fl) (sf_batch fl) (sf_shadow fl) true);
    Ok (mkSextantProcess verifier (NewRecentKeys (sf_candidates fl)) cc (mkOriginAdapter router shards)).

(** The loop of [tailForCandidates] from shard [i] on: a shard whose tailer cannot
    be made is left out. *)
Fixpoint candidate_tailers (table : Descriptor) (i : Z) (shards : list cfg_Shard) : list tailing :=
  match shards with
  | [] => []
  | sc :: shards =>
      let serverID := u32 (6000 + i) in
      match ParseDSN (cs_DSN sc) with
      | Ok dsn =>
          match cdc_New true true serverID (d_Name table) (mkCdcOptions (Some table) 0) with
          | Ok (opts, tailer) => [mkTailing (cs_ID sc) dsn serverID (d_Name table) opts tailer]
          | _ => []
          end
      | _ => []
      end ++ candidate_tailers table (i + 1) shards
  end.

Definition tailForCandidates (cfg : Config) : result (list tailing) :=
  match Config_Descriptors ToLower sha256_16 cfg with
  | Ok descriptors => table ← first_descriptor descriptors; Ok (candidate_tailers table 0 (cf_Shards cfg))
  | Err _ => Ok []
  | Panic w => Panic w
  end.
End native.

(** [observeOnly]: what its tailers call instead of a cache. *)
Definition observe_Tombstone (shard : string) (now : Z) (key : string) (version : Z) : M (RecentKeys * Tracer) bool := λ s,
  (Ok false, (RecentKeys_Touch key s.1, Tracer_Record key (mkEvent OpTombstone version now shard SourceCDC) s.2)).

(** The deployment a native verifier watches. *)
Section deployment.
Context {C D E : Type} `{Cache C} `{Mysql D}.

Record deployment := mkDeployment {
  dp_keys : RecentKeys; dp_cache : C; dp_dbs : gmap string (ShardW D); dp_env : E;
}.

Context (tick : deployment → deployment) (now : E → Z) (draw : E → nat → nat) (fate_of : E → fate).

Definition native_adapters (a : OriginAdapter) : Adapters deployment := {|
  sx_Peek key := λ w, let w := tick w in
    let '(r, c) := CacheAdapter_Peek key (dp_cache w) in (r, mkDeployment (dp_keys w) c (dp_dbs w) (dp_env w));
  sx_StateOf key := λ w, let w := tick w in
    let '(r, dbs) := OriginAdapter_State a (now (dp_env w)) (fate_of (dp_env w)) key (dp_dbs w) in
    (r, mkDeployment (dp_keys w) (dp_cache w) dbs (dp_env w));
  sx_ShardOf key := λ w, (OriginAdapter_Shard a key, w);
  sx_NextKey := λ w, let w := tick w in (RecentKeys_Next (draw (dp_env w)) (dp_keys w), w);
  sx_Now := λ w, let w := tick w in (now (dp_env w), w);
|}.
End deployment.
Arguments deployment : clear implicits.
