(* ===== verification/SextantRunSpec.v ===== *)
(** What the two ways of starting the verifier measure: which configurations
    build, what the adapters built can compare, and the deployments that are
    never checked. *)

From S2P Require Import Prelude GoStd Floats Hlc Consistency Schema Regexp Table Mysql Storage Introspect Ring Breaker LuaCache CacheClient Engine RefCache Cdc Config ConfigSpec Process ProcessSpec Sextant Verifier Sources SextantRun.

Local Open Scope Z_scope.

(** ** Lemmas *)

Section runs.
Context {W : Type} `{Adapters W}.

(** A verifier that has sampled nothing. *)
Definition unsampled (v0 v : Verifier) : Prop :=
  vr_SLO v = vr_SLO v0 ∧ vr_reported v = vr_reported v0 ∧ vr_Batch v = vr_Batch v0 ∧
  vs_Checked (vr_stats v) = vs_Checked (vr_stats v0) ∧ vs_Violations (vr_stats v) = vs_Violations (vr_stats v0).

Definition blind : Prop := ∀ key w x, (sx_StateOf key w).1 ≠ Ok x.

Lemma blind_check key (s : VS W) : blind →
  (∀ u, (Verifier_check key s).1 ≠ Ok u) ∧ vs_ver (Verifier_check key s).2 = vs_ver s ∧ vs_round (Verifier_check key s).2 = vs_round s.
Proof.
  intros Hb. specialize (Hb key (vs_world s)). destruct s as [v r w]. unfold Verifier_check, on_world. mrun. cbn [vs_world vs_ver vs_round] in *.
  destruct (sx_StateOf key w) as [[[state ex]|e|p] w1]; [by destruct (Hb (state, ex))|done..].
Qed.

Definition unseen (s s' : VS W) : Prop :=
  vs_ver s' = vs_ver s ∧ vs_Checked (vs_round s') = vs_Checked (vs_round s) ∧ vs_Violations (vs_round s') = vs_Violations (vs_round s).

Lemma unseen_trans s1 s2 s3 : unseen s1 s2 → unseen s2 s3 → unseen s1 s3.
Proof. intros (? & ? & ?) (? & ? & ?). unfold unseen. split_and!; congruence. Qed.

Lemma blind_batch n (s : VS W) : blind → unseen s (run_batch n s).2.
Proof.
  intros Hb. revert s. induction n as [|n IH]; intros s; [done|]. cbn [run_batch].
  unfold mbind at 1, M_bind. unfold on_world at 1. destruct (sx_NextKey (vs_world s)) as [[key|] w]; [|done].
  set (s1 := mkVS _ _ _). unfold mbind at 1, M_bind, M_try. destruct (blind_check key s1 Hb) as (Hn & Hv & Hr).
  destruct (Verifier_check key s1) as [[u|e|p] s2]; cbn [fst snd] in *; [by destruct (Hn u)| |].
  - unfold mbind, M_bind, on_round, M_modify. cbn [fst snd]. eapply unseen_trans; [|apply IH].
    unfold unseen. cbn [vs_ver vs_round]. by rewrite Hv, Hr.
  - unfold unseen. by rewrite Hv, Hr.
Qed.

Lemma blind_run ticks : blind → ∀ s : VS W, unsampled (vs_ver s) (vs_ver (Verifier_Run ticks s).2).
Proof.
  intros Hb. induction ticks as [|ticks IH]; intros s; [done|]. cbn [Verifier_Run]. unfold mbind at 1, M_bind.
  assert (unsampled (vs_ver s) (vs_ver (Verifier_RunOnce s).2)) as Hround.
  { unfold Verifier_RunOnce, on_round, this_verifier, on_verifier. mrun. cbn [vs_ver vs_round vs_world].
    match goal with |- context [run_batch ?n ?s0] => destruct (blind_batch n s0 Hb) as (Hv & Hc & Hvi); destruct (run_batch n s0) as [r s1] end.
    cbn [fst snd vs_ver vs_round vs_Checked vs_Violations] in *. unfold unsampled.
    destruct r as [[]|e|p]; cbn [fst snd vs_ver]; rewrite ?Hv; [|done..]. rewrite Hc, Hvi. cbn. split_and!; try done; lia. }
  destruct (Verifier_RunOnce s) as [[st|e|p] s1]; cbn [fst snd] in *; [|done..].
  destruct (IH s1) as (? & ? & ? & ? & ?), Hround as (? & ? & ? & ? & ?). unfold unsampled. split_and!; congruence.
Qed.

(** A source that stays without keys. *)
Definition idle (I : W → Prop) : Prop := ∀ w, I w → (sx_NextKey w).1 = None ∧ I (sx_NextKey w).2.

Lemma idle_run I ticks : idle I → ∀ s : VS W, I (vs_world s) →
  ∃ r w, Verifier_Run ticks s =
    (Ok tt, mkVS (with_stats (λ t, mkStats (vs_Rounds t + Z.of_nat ticks) (vs_Checked t) (vs_Violations t) (vs_Errors t)) (vs_ver s)) r w).
Proof.
  intros Hi. induction ticks as [|ticks IH]; intros [v r w] Hw.
  - exists r, w. cbn. unfold with_stats. destruct v as [? ? ? ? ? ? ? ? ? [? ? ? ?] ?]. cbn. by rewrite Z.add_0_r.
  - destruct (Hi w Hw) as [Hn Hw']. cbn [Verifier_Run vs_world] in *.
    assert (∃ st, Verifier_RunOnce (mkVS v r w) =
      (Ok st, mkVS (with_stats (λ t, mkStats (vs_Rounds t + 1) (vs_Checked t + 0) (vs_Violations t + 0) (vs_Errors t + 0)) v) (mkStats 0 0 0 0)
                (if decide (Z.to_nat (vr_Batch v) = O) then w else (sx_NextKey w).2))) as [st Hst].
    { unfold Verifier_RunOnce, on_round, this_verifier, on_verifier. mrun. cbn [vs_ver vs_round vs_world].
      destruct (Z.to_nat (vr_Batch v)) as [|n]; cbn [run_batch]; [by eexists|].
      unfold on_world. mrun. cbn [vs_ver vs_round vs_world]. destruct (sx_NextKey w) as [k w1]. cbn [fst snd] in *. subst k. by eexists. }
    rewrite (M_bind_run _ _ _ _ _ Hst).
    destruct (IH (mkVS (with_stats (λ t, mkStats (vs_Rounds t + 1) (vs_Checked t + 0) (vs_Violations t + 0) (vs_Errors t + 0)) v) (mkStats 0 0 0 0)
                (if decide (Z.to_nat (vr_Batch v) = O) then w else (sx_NextKey w).2))) as (r' & w' & ->).
    { cbn [vs_world]. by case_decide. }
    exists r', w'. f_equal. f_equal. cbn [vs_ver]. unfold with_stats. cbn. f_equal. f_equal; lia.
Qed.
End runs.

(** *** The deployment's own origin *)

Lemma State_tableless {D} `{Mysql D} (a : OriginAdapter) now f key (dbs : gmap string (ShardW D)) x :
  (∀ id sh, oa_shards a !! id = Some sh → sh_tables sh = ∅) → (OriginAdapter_State a now f key dbs).1 ≠ Ok x.
Proof.
  intros Ht. unfold OriginAdapter_State. destruct (ParseKey key) as [parsed|e|w]; [|done..].
  destruct (OriginAdapter_Shard a key) as [id|e|w]; [|done..].
  unfold mbind, M_bind, M_lift. destruct (oa_shards a !! id) as [sh|] eqn:E; [|done].
  unfold M_try, on_open_shard. destruct (dbs !! id) as [sw|]; [|done].
  assert (∀ r, (Shard_GetRow sh now f parsed sw).1 ≠ Ok r) as Hg.
  { intros r. unfold Shard_GetRow. unfold mbind at 1, M_bind. destruct (on_clock (Clock_Now now) sw) as [[v|e|w] sw']; [|done..].
    unfold mbind, M_bind, M_lift, Shard_Table. by rewrite (Ht _ _ E), lookup_empty. }
  destruct (Shard_GetRow sh now f parsed sw) as [[r|e|w] sw']; [by destruct (Hg r)|done..].
Qed.

Lemma openShards_tableless normalise ping shards : ∀ conns conns', openShards normalise ping shards conns = Ok conns' →
  (∀ id sh, conns !! id = Some sh → sh_tables sh = ∅) → ∀ id sh, conns' !! id = Some sh → sh_tables sh = ∅.
Proof.
  induction shards as [|sc shards IH]; intros conns conns'; cbn [openShards]; [by intros [= <-]|].
  intros (sh & Hsh & H)%result_bind_ok Hc. eapply IH; [exact H|]. intros id sh'.
  assert (sh_tables sh = ∅) as Hs.
  { unfold OpenShard in Hsh. case_bool_decide; [done|]. destruct (normalise _) as [d|e|w]; [|done..].
    destruct (ping d) as [[]|e|w]; [|done..]. by injection Hsh as <-. }
  destruct (decide (cs_ID sc = id)) as [->|Hne]; [rewrite lookup_insert_eq; by intros [= <-]|].
  rewrite lookup_insert_ne by done. apply Hc.
Qed.

Lemma fresh_unknown Log10 level at_ window : rp_Known (SLO_Report Log10 level at_ (NewSLO window)).1 = false.
Proof. unfold SLO_Report, NewSLO. cbn [slo_levels]. by rewrite lookup_empty. Qed.

(** *** Building *)

Lemma NewVerifier_built bound slo tr tier interval batch shadow call : Tier_Valid tier = true → 0 < interval → 0 < batch →
  NewVerifier (mkVerifierOptions true true true bound (Some slo) (Some tr) tier interval batch shadow call) =
  Ok (mkVerifier bound slo tr tier interval batch shadow call ∅ (mkStats 0 0 0 0) []).
Proof.
  intros Ht Hi Hb. unfold NewVerifier. cbn.
  destruct (Z.leb_spec interval 0); [lia|]. destruct (Z.leb_spec batch 0); [lia|].
  rewrite (bool_decide_eq_false_2 (tier = "")) by by intros ->. by rewrite Ht.
Qed.

Lemma open_writers_iff reach dsns : ∀ i, is_ok (open_writers reach i dsns) = true ↔ Forall (λ d, reach d = None) dsns.
Proof.
  induction dsns as [|d dsns IH]; intros i; cbn [open_writers]; [by split|]. rewrite Forall_cons, <-(IH (S i)).
  destruct (reach d); [split; [done|by intros [? _]]|]. destruct (open_writers reach (S i) dsns) as [[dbs names]|e|w]; cbn; by intuition.
Qed.

(** What validation leaves of a configuration. *)
Record validated (c : sx_Config) : Prop := {
  vd_tier : Tier_Valid (xf_Tier c) = true;
  vd_codec : Codec_Valid (xc_Codec (xf_Cache c)) = true;
  vd_dsns : oc_DSNs (xf_Origin c) ≠ [];
  vd_addrs : xc_Addrs (xf_Cache c) ≠ [];
  vd_columns : if Tier_ComparesVersions (xf_Tier c) then oc_VersionColumn (xf_Origin c) ≠ "" ∧ xc_Codec (xf_Cache c) ≠ CodecRaw
               else oc_ValueColumns (xf_Origin c) ≠ [];
  vd_source : kc_Source (xf_Keys c) ∈ [SourceBinlog; SourceScan; SourceFile];
  vd_interval : 0 < sg_Interval (xf_Sampling c);
  vd_batch : 0 < sg_Batch (xf_Sampling c);
}.

Lemma sx_Validate_validated c : sx_Validate c = Ok tt → validated c.
Proof.
  unfold sx_Validate, ParseTier, ParseCodec. destruct (Tier_Valid (xf_Tier c)) eqn:Et; [|done]. destruct (Codec_Valid (xc_Codec (xf_Cache c))) eqn:Ec; [|done].
  cbn [negb mbind result_bind]. intros ([] & Hf & ([] & Hti & ([] & Hk & ([] & _ & Hr)%result_bind_ok)%result_bind_ok)%result_bind_ok)%result_bind_ok.
  unfold Validate_fields in Hf. repeat (case_bool_decide; [done|]). unfold Validate_rates in Hr. cbv zeta in Hr.
  destruct (_ <=? 0) in Hr; [done|]. destruct (Z.leb_spec (sg_Interval (xf_Sampling c)) 0); [done|].
  destruct (Z.leb_spec (sg_Batch (xf_Sampling c)) 0); [done|]. split; try done.
  - unfold Validate_tier in Hti. destruct (Tier_ComparesVersions (xf_Tier c)); repeat case_bool_decide; done.
  - unfold Validate_keys in Hk. repeat case_bool_decide; set_solver.
Qed.

Lemma Build_inv reach ping file c b : Build reach ping file c = Ok b →
  validated c ∧ NewSQLOrigin reach (origin_options (xf_Origin c)) = Ok (bt_origin b) ∧
  bt_cache b = cache_options (xc_Codec (xf_Cache c)) (xf_Cache c) ∧
  buildKeySource file (xf_Keys c) = Ok (bt_Keys b) ∧ vr_Tier (bt_Verifier b) = xf_Tier c ∧
  vr_SLO (bt_Verifier b) = NewSLO (xf_SLOWindow c) ∧ vr_stats (bt_Verifier b) = mkStats 0 0 0 0.
Proof.
  unfold Build. intros ([] & Hv%sx_Validate_validated & H)%result_bind_ok. pose proof Hv as [Ht Hc _ _ _ _ Hi Hb].
  unfold ParseTier, ParseCodec in H. rewrite Ht, Hc in H. cbn [negb] in H.
  apply result_bind_ok in H as (og & Hog & (ca & Hca & (ks & Hks & (v & Hvf & [= <-])%result_bind_ok)%result_bind_ok)%result_bind_ok).
  rewrite NewVerifier_built in Hvf by done. injection Hvf as <-. cbn. split_and!; try done.
  unfold NewRedisCache in Hca. destruct (bool_decide _) in Hca; [done|]. destruct (negb _) in Hca; [done|].
  cbn [rco_Codec cache_options] in Hca. rewrite bool_decide_eq_false_2 in Hca by by intros E; rewrite E in Hc.
  rewrite Hc in Hca. cbn [negb] in Hca. destruct (_ && _) in Hca; [done|]. destruct ping; [done|]. by injection Hca as <-.
Qed.

(** Every identifier the statement of an origin is built from. *)
Definition identifiers_ok (o : OriginConfig) : Prop :=
  Forall (λ s, validIdentifier s = true) ([oc_Table o; oc_KeyColumn o] ++ oc_ValueColumns o ++ (if bool_decide (oc_VersionColumn o = "") then [] else [oc_VersionColumn o])).

Lemma NewSQLOrigin_iff reach o : oc_DSNs o ≠ [] → (oc_VersionColumn o ≠ "" ∨ oc_ValueColumns o ≠ []) →
  is_ok (NewSQLOrigin reach (origin_options o)) = true ↔ identifiers_ok o ∧ Forall (λ d, reach d = None) (oc_DSNs o).
Proof.
  intros Hd Hc. unfold NewSQLOrigin, identifiers_ok. cbn [so_DSNs so_Table so_KeyColumn so_ValueColumns so_VersionColumn origin_options].
  rewrite bool_decide_eq_false_2, app_assoc, Forall_app, <-(open_writers_iff reach _ 0) by done.
  assert (∀ l, Forall (λ s, validIdentifier s = true) l ↔ validIdentifiers l = Ok tt) as Hids.
  { intros l. unfold validIdentifiers. induction l as [|x l IH]; [by split|]. rewrite Forall_cons. cbn [forallb].
    destruct (validIdentifier x); cbn [andb]; [rewrite IH; by intuition|split; [by intros [? _]|done]]. }
  rewrite Hids. destruct (validIdentifiers (_ ++ _)) as [[]|e|w]; cbn [mbind result_bind is_ok]; [|split; [done|intros [[? _] _]; congruence]..].
  assert (bool_decide (oc_VersionColumn o = "") && bool_decide (oc_ValueColumns o = []) = false) as Hnone.
  { destruct Hc as [Hc|Hc]; rewrite (bool_decide_eq_false_2 _ Hc); [done|by rewrite andb_comm]. }
  rewrite Hnone. case_bool_decide.
  - cbn [mbind result_bind]. destruct (open_writers reach 0 (oc_DSNs o)) as [[dbs names]|e|w]; cbn; rewrite Hids; by intuition.
  - rewrite Hids. destruct (validIdentifiers [oc_VersionColumn o]) as [[]|e|w]; cbn [mbind result_bind is_ok]; [|split; [done|intros [[_ ?] _]; congruence]..].
    destruct (open_writers reach 0 (oc_DSNs o)) as [[dbs names]|e|w]; cbn; by intuition.
Qed.

Lemma NewRedisCache_iff ping codec c : xc_Addrs c ≠ [] → Codec_Valid codec = true →
  is_ok (NewRedisCache ping (cache_options codec c)) = true ↔
  Contains (xc_KeyTemplate c) "{key}" = true ∧ (codec = CodecRaw ∨ xc_VersionField c ≠ "") ∧ ping = None.
Proof.
  intros Ha Hc. unfold NewRedisCache. cbn [rco_Addrs rco_KeyTemplate rco_Codec rco_VersionField rco_ValueFields cache_options].
  rewrite bool_decide_eq_false_2, (bool_decide_eq_false_2 (codec = "")), Hc by (done || by intros ->).
  destruct (Contains _ _); cbn [negb]; [|split; [done|by intros [? _]]].
  assert (is_ok (match ping with Some err => Err (Wrapf "sextant: reach cache" err) | None => Ok (cache_options codec c) end) = true ↔ ping = None) as Hp
    by (by destruct ping).
  case_bool_decide as Hr; cbn [negb andb].
  - rewrite Hp. by intuition.
  - case_bool_decide as Hf; cbn [andb]; [split; [done|by intros (_ & [?|?] & _)]|]. rewrite Hp. by intuition.
Qed.

Lemma buildKeySource_iff file k : kc_Source k ∈ [SourceBinlog; SourceScan; SourceFile] →
  is_ok (buildKeySource file k) = true ↔ kc_Source k = SourceBinlog ∨ kc_Source k = SourceFile ∧ is_ok (NewFileKeys file) = true.
Proof.
  intros Hs. unfold buildKeySource. case_bool_decide as Hf; [|case_bool_decide as Hc].
  - rewrite Hf. destruct (NewFileKeys file); cbn; split; try done; try (by right); by intros [?|[_ ?]].
  - rewrite Hc. cbn. split; [done|]. by intros [?|[? _]].
  - cbn. split; [intros _; left; set_solver|done].
Qed.

(** ** Properties *)

(** A verifier is built exactly from a validated configuration whose names
    are plain identifiers, whose writers and cache answer, whose template says
    where the key goes, whose codec knows its version field, and whose keys
    come from the binlog or from a file that holds some; keys to be scanned for,
    which validation accepts, never build. *)
Theorem Build_iff reach ping file c :
  is_ok (Build reach ping file c) = true ↔
  sx_Validate c = Ok tt ∧ identifiers_ok (xf_Origin c) ∧ Forall (λ d, reach d = None) (oc_DSNs (xf_Origin c)) ∧
  Contains (xc_KeyTemplate (xf_Cache c)) "{key}" = true ∧
  (xc_Codec (xf_Cache c) = CodecRaw ∨ xc_VersionField (xf_Cache c) ≠ "") ∧ ping = None ∧
  (kc_Source (xf_Keys c) = SourceBinlog ∨ kc_Source (xf_Keys c) = SourceFile ∧ is_ok (NewFileKeys file) = true).
Proof.
  unfold Build. destruct (sx_Validate c) as [[]|e|w] eqn:Ev; [|split; [done|by intros [? _]]..]. cbn [mbind result_bind].
  pose proof (sx_Validate_validated _ Ev) as [Ht Hc Hd Ha Hcols Hs Hi Hb]. unfold ParseTier, ParseCodec. rewrite Ht, Hc. cbn [negb].
  rewrite <-(buildKeySource_iff _ _ Hs).
  assert (oc_VersionColumn (xf_Origin c) ≠ "" ∨ oc_ValueColumns (xf_Origin c) ≠ []) as Hcol.
  { destruct (Tier_ComparesVersions _); [left; apply Hcols|by right]. }
  pose proof (NewSQLOrigin_iff reach _ Hd Hcol) as Hog. pose proof (NewRedisCache_iff ping _ (xf_Cache c) Ha Hc) as Hca.
  destruct (NewSQLOrigin reach _) as [og|e|w]; cbn [mbind result_bind is_ok] in *; [|split; [done|by intuition]..].
  destruct (NewRedisCache ping _) as [ca|e|w]; cbn [mbind result_bind is_ok] in *; [|split; [done|by intuition]..].
  destruct (buildKeySource file (xf_Keys c)) as [ks|e|w]; cbn [mbind result_bind is_ok] in *; [|split; [done|by intuition]..].
  rewrite NewVerifier_built by done. cbn. by intuition.
Qed.

(** What a built verifier reads it can compare, but for two cases: at a tier
    of versions a row whose version is NULL, and at the tier of values a cache of
    hashes with no value fields declared, which validation accepts; there every
    comparison fails. *)
Theorem built_compares reach ping file c b query Unmarshal HGetAll Get key e s
    (Hb : Build reach ping file c = Ok b)
    (He : RedisCache_Peek Unmarshal HGetAll Get (bt_cache b) key = Ok (e, true))
    (Hs : SQLOrigin_State query (bt_origin b) key = Ok (s, true)) :
  is_ok (Verifier_compare (bt_Verifier b) e s) = false ↔
  if Tier_ComparesVersions (xf_Tier c) then ss_VersionKnown s = false
  else xc_Codec (xf_Cache c) = CodecHash ∧ xc_ValueFields (xf_Cache c) = [].
Proof.
  apply Build_inv in Hb as ([_ Hc _ _ Hcols _ _ _] & Hog & Hca & _ & Ht & _). unfold Verifier_compare. rewrite Ht.
  unfold RedisCache_Peek in He. rewrite Hca in He. cbn [rco_Codec rco_VersionField rco_ValueFields cache_options] in He.
  destruct (Tier_ComparesVersions (xf_Tier c)).
  - assert (se_VersionKnown e = true) as ->; [|by destruct (ss_VersionKnown s)]. destruct Hcols as [_ Hraw]. case_bool_decide as Hh.
    + destruct (HGetAll _) as [fields|er|w]; [|done..]. case_bool_decide; [done|]. unfold entryFromHash in He.
      destruct (fields !! _) as [raw|]; [|done]. destruct (parseVersion raw); by simplify_eq.
    + destruct (Get _) as [[raw|]|er|w]; [|done..]. case_bool_decide as Hj.
      * destruct (versionFromJSON _ _ _); by simplify_eq.
      * unfold Codec_Valid in Hc. rewrite (bool_decide_eq_false_2 _ Hraw), (bool_decide_eq_false_2 _ Hj), (bool_decide_eq_false_2 _ Hh) in Hc. done.
  - assert (is_Some (ss_Value s)) as [v ->].
    { unfold SQLOrigin_State in Hs. apply result_bind_ok in Hs as ([db nm] & _ & Hs). destruct (query _ _ _) as [[row|]|er|w]; [|done..].
      destruct (negb _); [done|]. cbv zeta in Hs. apply result_bind_ok in Hs as (out & _ & Heq). injection Heq as <-. cbn [ss_Value].
      unfold NewSQLOrigin in Hog. destruct (bool_decide _) in Hog; [done|].
      apply result_bind_ok in Hog as (u1 & _ & (u2 & _ & (u3 & _ & ([dbs names] & _ & Heq)%result_bind_ok)%result_bind_ok)%result_bind_ok).
      injection Heq as <-. cbn [og_valueColumns so_ValueColumns origin_options]. by destruct (oc_ValueColumns (xf_Origin c)). }
    case_bool_decide as Hh.
    + destruct (HGetAll _) as [fields|er|w]; [|done..]. case_bool_decide; [done|]. unfold entryFromHash in He.
      cbn [rco_VersionField rco_ValueFields cache_options] in He. destruct (fields !! _) as [raw|]; [|done].
      destruct (parseVersion raw); [|done..]. case_bool_decide; simplify_eq; cbn; by intuition.
    + assert (is_Some (se_Value e)) as [ev ->].
      { destruct (Get _) as [[raw|]|er|w]; [|done..]. case_bool_decide; [destruct (versionFromJSON _ _ _)|]; by simplify_eq. }
      cbn. split; [done|by intros [? _]].
Qed.

(** A verifier started from its own configuration with the keys of the binlog,
    the default, is handed a source nothing ever writes to: after any number of
    rounds it has checked no key, recorded no violation and knows no figure. *)
Theorem standalone_binlog_idle {E} (tick : E → E) now draw query Unmarshal HGetAll Get reach ping file decoded c b ticks (e : E)
    (Hc : decoded = Ok c) (Hb : runStandalone reach ping file decoded = Ok b) (Hs : kc_Source (xf_Keys c) = SourceBinlog) :
  let H := standalone_adapters tick now draw query Unmarshal HGetAll Get b in
  ∃ r w, Verifier_Run ticks (mkVS (bt_Verifier b) (mkStats 0 0 0 0) (bt_Keys b, e)) =
    (Ok tt, mkVS (with_stats (λ _, mkStats (Z.of_nat ticks) 0 0 0) (bt_Verifier b)) r w) ∧
    ∀ Log10 level at_, rp_Known (SLO_Report Log10 level at_ (vr_SLO (bt_Verifier b))).1 = false.
Proof.
  cbv zeta. subst decoded. unfold runStandalone, sx_LoadConfig in Hb. cbn [mbind result_bind] in Hb.
  apply result_bind_ok in Hb as (c' & (u & _ & Heq)%result_bind_ok & Hb). injection Heq as <-.
  apply Build_inv in Hb as (_ & _ & _ & Hk & _ & Hslo & Hst). unfold buildKeySource in Hk.
  rewrite Hs in Hk. rewrite !bool_decide_eq_false_2 in Hk by done. injection Hk as Hk.
  set (H := standalone_adapters _ _ _ _ _ _ _ _).
  destruct (idle_run (W := KeySource * E) (λ w, w.1 = bt_Keys b) ticks) with (s := mkVS (bt_Verifier b) (mkStats 0 0 0 0) (bt_Keys b, e))
    as (r & w & Hr); [|done|].
  { intros [ks w] Hw. cbn [fst] in Hw. subst ks. unfold sx_NextKey, H, standalone_adapters. cbn [fst snd]. by rewrite <-Hk. }
  exists r, w. rewrite Hr. cbn [vs_ver]. unfold with_stats. rewrite Hst. split; [done|].
  intros Log10 level at_. by rewrite Hslo, fresh_unknown.
Qed.

Lemma sextant_run_inv linux ToUpper ToLower sha normalise ping_db ping_node now fl loaded p :
  sextant_run linux ToUpper ToLower sha normalise ping_db ping_node now fl loaded = Ok p →
  cl_fingerprint (sp_client p).1 = "" ∧ vr_SLO (sp_verifier p) = NewSLO (sf_window fl) ∧
  vr_reported (sp_verifier p) = [] ∧ vr_stats (sp_verifier p) = mkStats 0 0 0 0 ∧
  ∀ id sh, oa_shards (sp_origin p) !! id = Some sh → sh_tables sh = ∅.
Proof.
  unfold sextant_run. intros (cfg & _ & (u & _ & H)%result_bind_ok)%result_bind_ok. case_bool_decide; [done|].
  apply result_bind_ok in H as ([cl g] & Hc & (shards & Hs & (router & _ & (v & Hv & [= <-])%result_bind_ok)%result_bind_ok)%result_bind_ok).
  cbn [sp_client sp_verifier sp_origin oa_shards fst]. split_and!.
  - unfold cache_New in Hc. destruct (bool_decide _) in Hc; [done|]. destruct (_ <=? _) in Hc; [done|].
    by apply result_bind_ok in Hc as (r & _ & (gr & _ & (ps & _ & [= <- _])%result_bind_ok)%result_bind_ok).
  - unfold NewVerifier in Hv. cbn in Hv. by injection Hv as <-.
  - unfold NewVerifier in Hv. cbn in Hv. by injection Hv as <-.
  - unfold NewVerifier in Hv. cbn in Hv. by injection Hv as <-.
  - eapply openShards_tableless; [exact Hs|]. intros id sh. by rewrite lookup_empty.
Qed.

(** C17: the verifier of a deployment, started from the configuration of its
    engine, opens the shards without their tables and the cache without a
    fingerprint: whatever the cache and the databases hold and however they
    change, after any number of rounds no key has been checked, no violation
    reported, and no level has a figure. *)
Theorem native_never_checks {C D E} `{Cache C} `{Mysql D} linux ToUpper ToLower sha normalise ping_db ping_node start fl loaded p
    (tick : deployment C D E → deployment C D E) now draw fate_of ticks w
    (Hp : sextant_run linux ToUpper ToLower sha normalise ping_db ping_node start fl loaded = Ok p) :
  let A := native_adapters tick now draw fate_of (sp_origin p) in
  let v := vs_ver (Verifier_Run ticks (mkVS (sp_verifier p) (mkStats 0 0 0 0) w)).2 in
  vs_Checked (vr_stats v) = 0 ∧ vr_reported v = [] ∧
  (∀ Log10 level at_, rp_Known (SLO_Report Log10 level at_ (vr_SLO v)).1 = false) ∧
  cl_fingerprint (sp_client p).1 = "".
Proof.
  cbv zeta. apply sextant_run_inv in Hp as (Hf & Hslo & Hrep & Hst & Ht). set (A := native_adapters _ _ _ _ _).
  destruct (blind_run (W := deployment C D E) ticks) with (s := mkVS (sp_verifier p) (mkStats 0 0 0 0) w) as (H1 & H2 & _ & H4 & _).
  { intros key w' x. unfold sx_StateOf, A, native_adapters.
    pose proof (State_tableless (sp_origin p) (now (dp_env (tick w'))) (fate_of (dp_env (tick w'))) key (dp_dbs (tick w')) x Ht) as Hn.
    by destruct (OriginAdapter_State _ _ _ _ _) as [r dbs]. }
  cbn [vs_ver] in *. rewrite H4, H2, H1, Hst, Hrep, Hslo. split_and!; [done|done| |done]. intros. apply fresh_unknown.
Qed.

(** ** Witnesses *)

Definition watch_config (tier : string) (keys : KeysConfig) : sx_Config :=
  mkSxConfig tier (mkOriginConfig ["w0"] "users" "id" "version" ["name"] "single") (mkCacheConfig ["c:6379"] "u:{key}" CodecHash "v" [])
    keys (xf_Bound DefaultConfig) (xf_Sampling DefaultConfig) (xf_SLOWindow DefaultConfig) ":9101" false.

Abbreviation demo_build c := (Build (λ _, None) None (Err (Errorf "no file")) c).

Lemma built_compares_witness :
  ∃ b e s, demo_build (watch_config TierValue (xf_Keys DefaultConfig)) = Ok b ∧ is_ok (Verifier_compare (bt_Verifier b) e s) = false.
Proof.
  destruct (demo_build (watch_config TierValue (xf_Keys DefaultConfig))) as [b|er|w] eqn:E.
  2,3: exfalso; assert (is_ok (demo_build (watch_config TierValue (xf_Keys DefaultConfig))) = true) as H by (vm_compute; reflexivity);
    by rewrite E in H.
  exists b, (mkSxEntry 7 true None), (mkSxState 9 true (Some "ann")). split; [exact eq_refl|].
  apply (built_compares _ _ _ _ b (λ _ _ _, Ok (Some [Some "9"; Some "ann"])) (λ _, Ok ∅) (λ _, Ok {["v" := "7"]}) (λ _, Ok None) "1" _ _ E);
    [| |by vm_compute].
  - vm_compute in E. injection E as <-. vm_compute. reflexivity.
  - vm_compute in E. injection E as <-. vm_compute. reflexivity.
Defined.

Lemma standalone_binlog_idle_witness :
  ∃ b r w, runStandalone (λ _, None) None (Err (Errorf "no file")) (Ok (watch_config TierVersion (xf_Keys DefaultConfig))) = Ok b ∧
    @Verifier_Run _ (standalone_adapters (λ e : Z, e + 1) (λ e, e) (λ _ _, 0%nat) (λ _ _ _ _, Ok (Some [Some "9"; Some "ann"])) (λ _, Ok ∅)
                       (λ _ _, Ok {["v" := "7"]}) (λ _ _, Ok None) b) 1000
      (mkVS (bt_Verifier b) (mkStats 0 0 0 0) (bt_Keys b, 0)) =
    (Ok tt, mkVS (with_stats (λ _, mkStats 1000 0 0 0) (bt_Verifier b)) r w).
Proof.
  destruct (runStandalone (λ _, None) None (Err (Errorf "no file")) (Ok (watch_config TierVersion (xf_Keys DefaultConfig)))) as [b|er|w] eqn:E.
  2,3: exfalso; assert (is_ok (runStandalone (λ _, None) None (Err (Errorf "no file")) (Ok (watch_config TierVersion (xf_Keys DefaultConfig)))) = true)
    as H by (vm_compute; reflexivity); by rewrite E in H.
  destruct (standalone_binlog_idle (λ e : Z, e + 1) (λ e, e) (λ _ _, 0%nat) (λ _ _ _ _, Ok (Some [Some "9"; Some "ann"])) (λ _, Ok ∅)
    (λ _ _, Ok {["v" := "7"]}) (λ _ _, Ok None) (λ _, None) None (Err (Errorf "no file")) _ _ b 1000 0 eq_refl E eq_refl) as (r & w & Hr & _).
  exists b, r, w. split; [exact eq_refl|exact Hr].
Defined.

#[local] Existing Instance ref_cache.
#[local] Instance watched_mysql : Mysql (gmap (list string) cells) := mem_mysql users_t.

Abbreviation demo_native :=
  (sextant_run true (λ s, s) (λ s, s) (λ s, s) Ok (λ _, Ok tt) (λ _, Ok tt) 0 (mkSextantFlags true 0 0 0 0) (Ok two_shards)).

Lemma native_never_checks_witness :
  ∃ p, demo_native = Ok p ∧
    let A := native_adapters (C := gmap string cell) (D := gmap (list string) cells) (λ w, w) (λ t : Z, t) (λ _ _, 0%nat) (λ _, None) (sp_origin p) in
    vs_Checked (vr_stats (vs_ver (Verifier_Run 5 (mkVS (sp_verifier p) (mkStats 0 0 0 0) (mkDeployment (RecentKeys_Touch "users:1" (sp_keys p)) ∅ ∅ 0))).2)) = 0.
Proof.
  destruct demo_native as [p|er|w] eqn:E.
  2,3: exfalso; assert (is_ok demo_native = true) as H by (exact_no_check (@eq_refl bool true)); by rewrite E in H.
  exists p. split; [exact eq_refl|].
  exact (proj1 (native_never_checks true (λ s, s) (λ s, s) (λ s, s) Ok (λ _, Ok tt) (λ _, Ok tt) 0 (mkSextantFlags true 0 0 0 0) (Ok two_shards) p
    (λ w, w) (λ t : Z, t) (λ _ _, 0%nat) (λ _, None) 5 (mkDeployment (RecentKeys_Touch "users:1" (sp_keys p)) ∅ ∅ 0) E)).
Defined.
