(* ===== verification/FileCheckpoint.v ===== *)
(** The checkpoint file: [FileCheckpoint] of [src/internal/cdc/checkpoint.go], over a
    file system with the promises a crash leaves.

    A disk is a directory of names and the contents of inodes.  What a crash keeps
    of a name is what it named in some state since the disk was last known to be
    whole, the present one included: nothing here syncs a directory.  Contents
    survive when they were synced and are anything otherwise.  A process can be
    killed before any system call. *)

From S2P Require Import Prelude GoStd Regexp Cdc.

Local Open Scope Z_scope.

(** ** The file system *)

Record disk := mkDisk {
  dk_names : gmap string nat;
  dk_data : gmap nat string;
  dk_synced : gset nat;
  dk_was : list (gmap string nat);
  dk_next : nat;
}.

Definition dk_states (d : disk) : list (gmap string nat) := dk_names d :: dk_was d.

Definition renames (f : gmap string nat → gmap string nat) (d : disk) : disk :=
  mkDisk (f (dk_names d)) (dk_data d) (dk_synced d) (dk_names d :: dk_was d) (dk_next d).

(** What a start after a crash may find. *)
Definition crash (d d' : disk) : Prop :=
  (∀ n, ∃ m, m ∈ dk_states d ∧ dk_names d' !! n = m !! n) ∧
  ∀ i, i ∈ dk_synced d → dk_data d' !! i = dk_data d !! i.

Definition contents (path : string) (d : disk) : option string := dk_names d !! path ≫= λ i, dk_data d !! i.

(** One system call of a process that is killed after so many. *)
Definition sys {A} (f : disk → result A * disk) : M (option nat * disk) A := λ s,
  match s.1 with
  | Some O => (Panic "killed", s)
  | k => let '(r, d) := f s.2 in (r, (pred <$> k, d))
  end.

Definition fails (e : option error) : result unit := match e with Some e => Err e | None => Ok tt end.

(** ** Paths *)

(** [filepath.Dir] of a cleaned path, and how [os.CreateTemp] names a file in it. *)
Definition Dir (path : string) : string :=
  match str_LastIndex path "/" with None => "." | Some O => "/" | Some n => str_take n path end.
Definition joinPath (dir name : string) : string :=
  if str_suffix "/" dir then dir +:+ name else dir +:+ "/" +:+ name.
Definition temp_name (path : string) (n : Z) : string := joinPath (Dir path) (".flux-checkpoint-" +:+ FormatUint n).

(** ** The checkpoint *)

(** The fate of each call of a save; a failed write has written some bytes. *)
Record save_io := mkSaveIO {
  si_suffix : Z;
  si_temp : option error;
  si_write : option (nat * error);
  si_sync : option error;
  si_close : option error;
  si_rename : option error;
  si_remove : option error;
}.

Definition create_temp (path : string) (io : save_io) (d : disk) : result (string * nat) * disk :=
  let name := temp_name path (si_suffix io) in
  match si_temp io, dk_names d !! name with
  | Some e, _ => (Err e, d)
  | None, Some _ => (Err (Errorf "file exists"), d)
  | None, None =>
      let i := dk_next d in
      (Ok (name, i), mkDisk (<[name := i]> (dk_names d)) (<[i := ""]> (dk_data d)) (dk_synced d) (dk_names d :: dk_was d) (S i))
  end.

Definition write_file (i : nat) (s : string) (fate : option (nat * error)) (d : disk) : result unit * disk :=
  let put s := mkDisk (dk_names d) (<[i := s]> (dk_data d)) (dk_synced d ∖ {[i]}) (dk_was d) (dk_next d) in
  match fate with
  | None => (Ok tt, put s)
  | Some (n, e) => (Err e, put (str_take n s))
  end.

Definition sync_file (i : nat) (fate : option error) (d : disk) : result unit * disk :=
  (fails fate, match fate with
               | Some _ => d
               | None => mkDisk (dk_names d) (dk_data d) ({[i]} ∪ dk_synced d) (dk_was d) (dk_next d)
               end).

Definition close_file (fate : option error) (d : disk) : result unit * disk := (fails fate, d).

Definition remove_file (name : string) (fate : option error) (d : disk) : result unit * disk :=
  (fails fate, match fate with Some _ => d | None => renames (delete name) d end).

(** The old name is that of a file just made. *)
Definition rename_file (old new : string) (i : nat) (fate : option error) (d : disk) : result unit * disk :=
  (fails fate, match fate with Some _ => d | None => renames (λ m, <[new := i]> (delete old m)) d end).

Section checkpoint.
Context (Marshal : Position → string) (Unmarshal : string → result Position).

(** A step of a save: on an error clean up and report it. *)
Definition step_or {A} (step : M (option nat * disk) unit) (cleanup : M (option nat * disk) unit) (what : string)
    (k : M (option nat * disk) A) : M (option nat * disk) A :=
  r ← M_try step;
  match r with
  | inr e => cleanup;; M_fail (Wrapf what e)
  | inl _ => k
  end.

Definition FileCheckpoint_Save (path : string) (io : save_io) (p : Position) : M (option nat * disk) unit :=
  created ← M_try (sys (create_temp path io));
  match created with
  | inr e => M_fail (Wrapf "cdc: create temp checkpoint" e)
  | inl (tmp, i) =>
      let remove := _ ← M_try (sys (remove_file tmp (si_remove io))); mret tt in
      let cleanup := _ ← M_try (sys (close_file (si_close io))); remove in
      step_or (sys (write_file i (Marshal p) (si_write io))) cleanup "cdc: write temp checkpoint"
      (step_or (sys (sync_file i (si_sync io))) cleanup "cdc: sync temp checkpoint"
      (step_or (sys (close_file (si_close io))) remove "cdc: close temp checkpoint"
      (step_or (sys (rename_file tmp path i (si_rename io))) remove "cdc: rename checkpoint into place"
      (mret tt))))
  end.

(** [err]: why the file cannot be read, if it cannot. *)
Definition FileCheckpoint_Load (path : string) (err : option error) (d : disk) : result (option Position) :=
  match err with
  | Some e => Err (Wrapf "cdc: read checkpoint" e)
  | None =>
      match contents path d with
      | None => Ok None
      | Some data =>
          match Unmarshal data with
          | Err e => Err (Wrapf "cdc: parse checkpoint" e)
          | Panic w => Panic w
          | Ok p => Ok (Some p)
          end
      end
  end.

(** The checkpoint of a shard as the tailer uses it, nobody killing it: the disk and
    the fates of the calls to come. *)
Record file_store := mkFileStore { fs_disk : disk; fs_reads : nat → option error; fs_saves : nat → save_io; fs_used : nat }.

#[local] Instance file_checkpoint (path : string) : Checkpoint file_store := {
  chk_Load := λ k, (FileCheckpoint_Load path (fs_reads k (fs_used k)) (fs_disk k),
                    k);
  chk_Save p := λ k,
    let '(r, (_, d)) := FileCheckpoint_Save path (fs_saves k (fs_used k)) p (None, fs_disk k) in
    (r, mkFileStore d (fs_reads k) (fs_saves k) (S (fs_used k)));
}.
End checkpoint.
