(* ===== verification/FileCheckpointSpec.v ===== *)
(** A checkpoint file is never torn: what a save leaves, however far it got, and
    what a crash makes of that.  The store satisfies the laws the tailer relies on. *)

From S2P Require Import Prelude GoStd Regexp EngineSpec RefCache Cdc CdcSpec FileCheckpoint.

Local Open Scope Z_scope.

(** ** Lemmas *)

Definition disk_wf (d : disk) : Prop :=
  ∀ m n i, m ∈ dk_states d → m !! n = Some i → (i < dk_next d)%nat.

(** Whatever a directory state names [path] is whole and satisfies [P]. *)
Definition whole (P : string → Prop) (path : string) (d : disk) : Prop :=
  ∀ m i, m ∈ dk_states d → m !! path = Some i → i ∈ dk_synced d ∧ ∃ s, dk_data d !! i = Some s ∧ P s.

(** [s] was the checkpoint in some state of the directory. *)
Definition was_checkpoint (path : string) (d : disk) (s : string) : Prop :=
  ∃ m i, m ∈ dk_states d ∧ m !! path = Some i ∧ dk_data d !! i = Some s.

Definition settled_at (path : string) (d : disk) : Prop := disk_wf d ∧ whole (λ _, True) path d.

Lemma whole_crash P path d d' : whole P path d → crash d d' →
  ∀ i, dk_names d' !! path = Some i → ∃ s, dk_data d' !! i = Some s ∧ P s.
Proof.
  intros Hw [Hn Hd] i Hi. destruct (Hn path) as (m & Hm & Heq). rewrite Hi in Heq.
  destruct (Hw m i Hm (eq_sym Heq)) as (Hs & s & Hds & HP). exists s. by rewrite Hd.
Qed.

(** A checkpoint path is none of the names a temporary file may get. *)
Fixpoint last_byte (s : string) : option ascii :=
  match s with "" => None | String c s => match last_byte s with None => Some c | l => l end end.

Lemma last_byte_app s t c : last_byte t = Some c → last_byte (s +:+ t) = Some c.
Proof. intros Ht. induction s as [|d s IH]; [done|]. cbn. by rewrite IH. Qed.

Lemma last_byte_all P s : str_all P s = true → s ≠ "" → ∃ c, last_byte s = Some c ∧ P c = true.
Proof.
  induction s as [|c s IH]; [done|]. cbn [str_all last_byte]. intros [Hc Hs]%andb_true_iff _.
  destruct s as [|c' s]; [by exists c|]. destruct IH as (l & Hl & HP); [done|done|]. exists l. by rewrite Hl.
Qed.

Lemma temp_name_ne path base n : path = base +:+ ".pos" → 0 ≤ n → temp_name path n ≠ path.
Proof.
  intros Hp Hn Heq. destruct (FormatUint_spec n Hn) as (_ & Hd & Hne).
  destruct (last_byte_all _ _ Hd Hne) as (c & Hc & HP).
  assert (last_byte (temp_name path n) = Some c) as H1.
  { unfold temp_name, joinPath. destruct (str_suffix _ _); repeat apply last_byte_app; done. }
  assert (last_byte path = Some "s"%char) as H2 by (rewrite Hp; by apply last_byte_app).
  rewrite Heq, H2 in H1. by injection H1 as <-.
Qed.

(** *** What every call of a save keeps *)

Section save.
Context (Marshal : Position → string) (path : string) (P : string → Prop) (tmp : string) (i : nat).
Context (Htmp : tmp ≠ path).

(** The temporary file [i] is known under [tmp] only. *)
Record saving (d : disk) : Prop := {
  sv_wf : disk_wf d;
  sv_whole : whole P path d;
  sv_apart : ∀ m, m ∈ dk_states d → m !! path ≠ Some i;
  sv_made : (i < dk_next d)%nat;
}.

Lemma saving_write d d' s fate r : write_file i s fate d = (r, d') → saving d →
  saving d' ∧ dk_names d' = dk_names d ∧ dk_was d' = dk_was d ∧ (r = Ok tt → dk_data d' !! i = Some s).
Proof.
  intros Hd Hs. assert (∃ s', d' = mkDisk (dk_names d) (<[i := s']> (dk_data d)) (dk_synced d ∖ {[i]}) (dk_was d) (dk_next d) ∧ (r = Ok tt → s' = s))
    as (s' & -> & Hr).
  { unfold write_file in Hd. destruct fate as [[n e]|]; injection Hd as <- <-; eexists; by split. }
  destruct Hs as [Hwf Hw Ha Hm]. split_and!; [|done|done|].
  - split; [done| |done|done]. intros m j Hin Hj. destruct (Hw m j Hin Hj) as (Hsy & t & Ht & HP).
    assert (j ≠ i) as Hne by (intros ->; by destruct (Ha m Hin)). cbn [dk_synced dk_data].
    split; [set_solver|]. exists t. by rewrite lookup_insert_ne.
  - intros H. cbn [dk_data]. rewrite (Hr H). apply lookup_insert_eq.
Qed.

Lemma saving_sync d d' fate r : sync_file i fate d = (r, d') → saving d →
  saving d' ∧ dk_names d' = dk_names d ∧ dk_was d' = dk_was d ∧ dk_data d' = dk_data d ∧ (r = Ok tt → i ∈ dk_synced d').
Proof.
  unfold sync_file. intros [= <- <-] Hs. destruct fate as [e|]; [by split_and!|]. destruct Hs as [Hwf Hw Ha Hm].
  split_and!; [|done|done|done|set_solver]. split; [done| |done|done].
  intros m j Hin Hj. destruct (Hw m j Hin Hj) as (Hsy & Ht). split; [cbn; set_solver|done].
Qed.

Lemma saving_remove d d' fate r : remove_file tmp fate d = (r, d') → saving d →
  saving d' ∧ dk_data d' = dk_data d ∧ dk_names d' = match fate with None => delete tmp (dk_names d) | Some _ => dk_names d end.
Proof.
  unfold remove_file. intros [= <- <-] Hs. destruct fate as [e|]; [by split_and!|]. destruct Hs as [Hwf Hw Ha Hm].
  assert (∀ m, m ∈ dk_states (renames (delete tmp) d) → ∃ m', m' ∈ dk_states d ∧ m !! path = m' !! path ∧
            ∀ n j, m !! n = Some j → m' !! n = Some j) as Hst.
  { intros m [->|Hin]%elem_of_cons; [|by exists m]. exists (dk_names d). cbn [renames dk_names].
    split; [by left|]. split; [by rewrite lookup_delete_ne|].
    intros n j [_ ?]%lookup_delete_Some. done. }
  split_and!; [|done|done]. split; [| | |done].
  - intros m n j (m' & Hm' & _ & Hl)%Hst Hj. eapply Hwf; [done|by apply Hl].
  - intros m j (m' & Hm' & Heq & _)%Hst Hj. rewrite Heq in Hj. by apply (Hw m').
  - intros m (m' & Hm' & -> & _)%Hst. by apply Ha.
Qed.

Lemma saving_rename d d' s fate r : rename_file tmp path i fate d = (r, d') → saving d →
  dk_data d !! i = Some s → i ∈ dk_synced d → P s →
  disk_wf d' ∧ whole P path d' ∧ match fate with
                                 | None => r = Ok tt ∧ dk_names d' = <[path := i]> (delete tmp (dk_names d)) ∧ dk_data d' = dk_data d
                                 | Some _ => d' = d
                                 end.
Proof.
  unfold rename_file. intros [= <- <-] [Hwf Hw Ha Hm] Hs Hsy HP. destruct fate as [e|]; [done|]. split_and!; [| |done..].
  - intros m n j [->|Hin]%elem_of_cons Hj; [|by eapply Hwf]. cbn [renames dk_names dk_next] in *. destruct (decide (n = path)) as [->|Hne].
    + rewrite lookup_insert_eq in Hj. by injection Hj as <-.
    + rewrite lookup_insert_ne in Hj by done. apply lookup_delete_Some in Hj as [_ Hj]. eapply Hwf; [left|done].
  - intros m j [->|Hin]%elem_of_cons Hj; [|by eapply Hw]. cbn [renames dk_names] in Hj. rewrite lookup_insert_eq in Hj. injection Hj as <-.
    split; [done|]. by exists s.
Qed.
End save.

Lemma saving_create path P io d r d' : create_temp path io d = (r, d') → disk_wf d → whole P path d →
  temp_name path (si_suffix io) ≠ path →
  match r with
  | Ok (tmp, i) => tmp = temp_name path (si_suffix io) ∧ dk_names d !! tmp = None ∧ saving path P i d' ∧
      dk_names d' = <[tmp := i]> (dk_names d) ∧ ∀ j, j ≠ i → dk_data d' !! j = dk_data d !! j
  | Err _ => d' = d
  | Panic _ => False
  end.
Proof.
  unfold create_temp. intros Hr Hwf Hw Hne. destruct (si_temp io) as [e|]; [by injection Hr as <- <-|].
  destruct (dk_names d !! temp_name path (si_suffix io)) eqn:En; injection Hr as <- <-; [done|].
  assert (∀ m, m ∈ dk_states d → m !! path ≠ Some (dk_next d)) as Hno by (intros m Hm Hj; specialize (Hwf m path _ Hm Hj); lia).
  split_and!; [done|done| |done|by intros; cbn; rewrite lookup_insert_ne].
  split; cbn [dk_next]; [| | |lia].
  - intros m n j [->|Hin]%elem_of_cons Hj; cbn [dk_next].
    + cbn [dk_names] in Hj. apply lookup_insert_Some in Hj as [[_ <-]|[_ Hj]]; [lia|]. enough (j < dk_next d)%nat by lia. eapply Hwf; [left|done].
    + enough (j < dk_next d)%nat by lia. by eapply Hwf.
  - assert (∀ m j, m ∈ dk_states d → m !! path = Some j →
      j ∈ dk_synced d ∧ ∃ s, <[dk_next d := ""]> (dk_data d) !! j = Some s ∧ P s) as Hold.
    { intros m j Hm Hj. destruct (Hw m j Hm Hj) as (Hsy & s & Hs & HP). split; [done|]. exists s.
      rewrite lookup_insert_ne; [done|]. intros <-. by destruct (Hno m Hm). }
    intros m j [->|Hin]%elem_of_cons Hj; [|by eapply Hold]. cbn [dk_names] in Hj. rewrite lookup_insert_ne in Hj by done.
    by apply (Hold (dk_names d)); [left|].
  - intros m [->|Hin]%elem_of_cons; [|by apply Hno]. cbn [dk_names]. rewrite lookup_insert_ne by done. apply Hno. by left.
Qed.

(** *** A save *)

Lemma wp_sys {A} (f : disk → result A * disk) Q (k : option nat) d :
  (k ≠ None → Q (Panic "killed") (k, d)) → (∀ r d', f d = (r, d') → Q r (pred <$> k, d')) → wp (sys f) Q (k, d).
Proof.
  intros Hk Hf. unfold wp, sys. cbn [fst snd]. destruct k as [[|k]|]; [by apply Hk|..];
    destruct (f d) as [r d'] eqn:E; by apply Hf.
Qed.

Section run.
Context (Marshal : Position → string) (path : string) (P : string → Prop) (io : save_io) (p : Position).
Context (tmp : string) (i : nat) (k0 : option nat) (d0 : disk).
Context (Htmp : tmp ≠ path) (Hfresh : dk_names d0 !! tmp = None).

(** While the temporary file is there. *)
Record phase (d : disk) : Prop := {
  ph_saving : saving path P i d;
  ph_names : dk_names d = <[tmp := i]> (dk_names d0);
  ph_data : ∀ j, j ≠ i → dk_data d !! j = dk_data d0 !! j;
}.

(** What a save leaves, by its outcome. *)
Definition saved (r : result unit) (s : option nat * disk) : Prop :=
  disk_wf s.2 ∧ whole P path s.2 ∧
  match r with
  | Ok _ => contents path s.2 = Some (Marshal p) ∧ dom (dk_names s.2) = {[path]} ∪ dom (dk_names d0)
  | Err _ => contents path s.2 = contents path d0 ∧ (si_remove io = None → dk_names s.2 = dk_names d0)
  | Panic _ => contents path s.2 = contents path d0 ∧ k0 ≠ None
  end.

Lemma contents_kept d : saving path P i d → dk_names d !! path = dk_names d0 !! path →
  (∀ j, j ≠ i → dk_data d !! j = dk_data d0 !! j) → contents path d = contents path d0.
Proof.
  intros [_ _ Ha _] Hn Hd. unfold contents. rewrite Hn. destruct (dk_names d0 !! path) as [j|] eqn:E; [|done]. cbn.
  apply Hd. intros ->. apply (Ha (dk_names d)); [left|by rewrite Hn].
Qed.

Lemma phase_contents d : phase d → contents path d = contents path d0.
Proof. intros [Hs Hn Hd]. apply contents_kept; [done| |done]. by rewrite Hn, lookup_insert_ne. Qed.

Lemma phase_killed d k : phase d → k0 ≠ None → saved (Panic "killed") (k, d).
Proof. intros Hp Hk. split_and!; [apply Hp|apply Hp|by apply phase_contents|done]. Qed.

Lemma remove_wp d k e : phase d → (k ≠ None → k0 ≠ None) →
  wp ((_ ← M_try (sys (remove_file tmp (si_remove io))); mret tt);; M_fail e) saved (k, d).
Proof.
  intros Hp Hk. apply wp_bind, wp_bind, wp_try, wp_sys; [intros ?; apply phase_killed; auto|]. intros r d' Hr.
  assert (saved (Err e) (pred <$> k, d')) as Hs.
  { destruct (saving_remove _ _ _ _ Htmp _ _ _ _ Hr (ph_saving _ Hp)) as (Hs & Hd & Hn). destruct Hp as [_ Hpn Hpd].
    assert (dk_names d' !! path = dk_names d0 !! path) as Hpath.
    { rewrite Hn. destruct (si_remove io); rewrite ?lookup_delete_ne, Hpn, lookup_insert_ne by done; done. }
    split_and!; [apply Hs|apply Hs| |].
    - apply contents_kept; [done|done|]. intros j Hj. cbn [snd]. rewrite Hd. by apply Hpd.
    - intros Hsi. cbn [snd]. rewrite Hn, Hsi, Hpn. by rewrite delete_insert_id. }
  unfold remove_file in Hr. injection Hr as <- _. by destruct (si_remove io).
Qed.

Lemma cleanup_wp d k e : phase d → (k ≠ None → k0 ≠ None) →
  wp ((_ ← M_try (sys (close_file (si_close io))); _ ← M_try (sys (remove_file tmp (si_remove io))); mret tt);; M_fail e) saved (k, d).
Proof.
  intros Hp Hk. apply wp_bind, wp_bind, wp_try, wp_sys; [intros ?; apply phase_killed; auto|].
  intros r d' [= <- <-]. assert (pred <$> k ≠ None → k0 ≠ None) as Hk' by (intros Hq; apply Hk; by destruct k).
  pose proof (remove_wp d (pred <$> k) e Hp Hk') as Hw. unfold wp, mbind, M_bind, mret, M_ret in *.
  destruct (si_close io); cbn [fails]; by destruct (M_try _ _) as [[r|er|w] s'].
Qed.

(** A step that may fail. *)
Lemma step_wp (f : disk → result unit * disk) cleanup what (rest : M (option nat * disk) unit) d k :
  phase d → (k ≠ None → k0 ≠ None) →
  (∀ r d', f d = (r, d') → match r with
                           | Ok _ => wp rest saved (pred <$> k, d')
                           | Err e => wp (cleanup;; M_fail (Wrapf what e)) saved (pred <$> k, d')
                           | Panic _ => False
                           end) →
  wp (step_or (sys f) cleanup what rest) saved (k, d).
Proof.
  intros Hp Hk Hf. unfold step_or. apply wp_bind, wp_try, wp_sys; [intros ?; apply phase_killed; auto|].
  intros r d' Hr. specialize (Hf r d' Hr). by destruct r.
Qed.
End run.

Lemma Save_run Marshal path P io p k d :
  temp_name path (si_suffix io) ≠ path → disk_wf d → whole P path d → P (Marshal p) →
  wp (FileCheckpoint_Save Marshal path io p) (saved Marshal path P io p k d) (k, d).
Proof.
  intros Hne Hwf Hw HP. unfold FileCheckpoint_Save. apply wp_bind, wp_try, wp_sys; [by intros ?|].
  intros r d1 Hr. pose proof (saving_create _ _ _ _ _ _ Hr Hwf Hw Hne) as Hc.
  destruct r as [[tmp i]|e|w]; [|subst d1; by split_and!|done]. destruct Hc as (-> & Hfresh & Hs & Hn & Hd).
  set (tmp := temp_name path (si_suffix io)) in *.
  assert (phase path P tmp i d d1) as Hp1 by (by split).
  assert (∀ k' : option nat, pred <$> k' ≠ None → k' ≠ None) as Hk by (by intros []).
  apply (step_wp Marshal path P io p tmp i k d Hne); [done|apply Hk|]. intros r d2 Hr2.
  edestruct saving_write as (Hs2 & Hn2 & _ & Hdata); [exact Hne|exact Hr2|exact Hs|].
  assert (phase path P tmp i d d2) as Hp2.
  { split; [done|by rewrite Hn2|]. intros j Hj. rewrite <-Hd by done. unfold write_file in Hr2.
    destruct (si_write io) as [[n e]|]; injection Hr2 as _ <-; cbn; by rewrite lookup_insert_ne. }
  destruct r as [[]|e|w]; [|apply (cleanup_wp Marshal path P io p tmp i k d Hne Hfresh); auto 10|].
  2: { unfold write_file in Hr2. by destruct (si_write io) as [[n e]|]. }
  apply (step_wp Marshal path P io p tmp i k d Hne); [done|by auto 10|]. intros r d3 Hr3.
  edestruct saving_sync as (Hs3 & Hn3 & _ & Hd3 & Hsy); [exact Hne|exact Hr3|exact Hs2|].
  assert (phase path P tmp i d d3) as Hp3.
  { destruct Hp2 as [_ H2 H3]. split; [done|by rewrite Hn3|]. intros j Hj. rewrite Hd3. by apply H3. }
  destruct r as [[]|e|w]; [|apply (cleanup_wp Marshal path P io p tmp i k d Hne Hfresh); auto 10|].
  2: { unfold sync_file in Hr3. by destruct (si_sync io). }
  apply (step_wp Marshal path P io p tmp i k d Hne); [done|by auto 10|]. intros r d4 Hr4.
  assert (d4 = d3) as -> by (by injection Hr4 as _ <-).
  destruct r as [[]|e|w]; [|apply (remove_wp Marshal path P io p tmp i k d Hne Hfresh); auto 10|].
  2: { unfold close_file in Hr4. by destruct (si_close io). }
  apply (step_wp Marshal path P io p tmp i k d Hne); [done|by auto 10|]. intros r d5 Hr5.
  edestruct saving_rename as (Hwf5 & Hw5 & H5);
    [exact Hr5|exact Hs3|rewrite Hd3; by apply Hdata|by apply Hsy|exact HP|].
  destruct (si_rename io) as [e|] eqn:Esi.
  - unfold rename_file in Hr5. injection Hr5 as <- <-. cbn [fails].
    apply (remove_wp Marshal path P io p tmp i k d Hne Hfresh); auto 10.
  - destruct H5 as (-> & Hn5 & Hd5). apply wp_ret. unfold saved. cbn [snd]. split_and!; [done|done| |].
    + unfold contents. rewrite Hn5, lookup_insert_eq. cbn. rewrite Hd5, Hd3. by apply Hdata.
    + rewrite Hn5, Hn3, Hn2, Hn, delete_insert_id by done. apply dom_insert_L.
Qed.

(** Reading back, for a later start. *)
Definition stored_at (Unmarshal : string → result Position) (path : string) (d : disk) : option Position :=
  contents path d ≫= λ s, match Unmarshal s with Ok p => Some p | _ => None end.

Lemma whole_before path d : whole (λ _, True) path d → ∀ (P : string → Prop), (∀ s, was_checkpoint path d s → P s) → whole P path d.
Proof.
  intros Hw P HP m i Hm Hi. destruct (Hw m i Hm Hi) as (Hsy & s & Hs & _). split; [done|]. exists s. split; [done|].
  apply HP. by exists m, i.
Qed.

Lemma saved_settled Marshal path P io p k d r s : saved Marshal path P io p k d r s → settled_at path s.2.
Proof.
  intros (Hwf & Hw & _). split; [done|]. intros m i Hm Hi. destruct (Hw m i Hm Hi) as (Hsy & t & Ht & _).
  split; [done|]. by exists t.
Qed.

(** ** The store of a tailer *)

Section store.
Context (Marshal : Position → string) (Unmarshal : string → result Position) (base : string).
Context (Hjson : ∀ p, Unmarshal (Marshal p) = Ok p) (Htotal : ∀ s, no_panic (Unmarshal s)).
Let path := base +:+ ".pos".

Definition good_store (k : file_store) : Prop := settled_at path (fs_disk k) ∧ ∀ n, 0 ≤ si_suffix (fs_saves k n).
Definition kept_store := {k : file_store | good_store k}.

Definition saved_store (p : Position) (k : file_store) : result unit * file_store :=
  @chk_Save _ (file_checkpoint Marshal Unmarshal path) p k.

Lemma save_spec p k : good_store k →
  let '(r, k') := saved_store p k in
  good_store k' ∧ no_panic r ∧
  match r with
  | Ok _ => stored_at Unmarshal path (fs_disk k') = Some p
  | _ => stored_at Unmarshal path (fs_disk k') = stored_at Unmarshal path (fs_disk k)
  end.
Proof.
  intros [[Hwf Hw] Hsuf]. unfold saved_store, chk_Save, file_checkpoint.
  set (io := fs_saves k (fs_used k)).
  pose proof (Save_run Marshal path (λ _, True) io p None (fs_disk k) (temp_name_ne path base _ eq_refl (Hsuf _)) Hwf Hw I) as Hr.
  unfold wp in Hr. destruct (FileCheckpoint_Save Marshal path io p (None, fs_disk k)) as [r [k' d']].
  pose proof (saved_settled _ _ _ _ _ _ _ _ _ Hr) as Hset. destruct Hr as (_ & _ & Hr). cbn [snd fs_disk fs_saves] in *.
  split_and!; [by split|destruct r; [done..|by destruct Hr]|]. unfold stored_at. destruct r as [[]|e|w].
  - destruct Hr as [-> _]. cbn. by rewrite Hjson.
  - by destruct Hr as [-> _].
  - by destruct Hr.
Qed.

Definition kept_save (p : Position) (k : kept_store) : result unit * kept_store :=
  ((saved_store p (`k)).1, exist good_store (saved_store p (`k)).2
    (match saved_store p (`k) as s return (let '(r, k') := s in good_store k' ∧ no_panic r ∧ _) → good_store s.2 with
     | (r, k') => λ H, proj1 H
     end (save_spec p (`k) (proj2_sig k)))).

#[local] Instance kept_checkpoint : Checkpoint kept_store := {
  chk_Load := λ k, (FileCheckpoint_Load Unmarshal path (fs_reads (`k) (fs_used (`k))) (fs_disk (`k)), k);
  chk_Save := kept_save;
}.

(** A checkpoint file is the store the tailer relies on. *)
#[local] Instance file_laws : CheckpointLaws kept_store (λ k, stored_at Unmarshal path (fs_disk (`k))).
Proof.
  split.
  - intros k. unfold chk_Load, kept_checkpoint, FileCheckpoint_Load, stored_at.
    destruct (fs_reads _ _) as [e|]; [right; by eexists|]. destruct (contents path _) as [s|]; [|by left]. cbn.
    pose proof (Htotal s) as Ht. destruct (Unmarshal s) as [p|e|w]; [by left|right; by eexists|by destruct (Ht w)].
  - intros p k. unfold wp, chk_Save, kept_checkpoint, kept_save. cbn [fst snd proj1_sig].
    pose proof (save_spec p (`k) (proj2_sig k)) as Hs. destruct (saved_store p (`k)) as [r k']. destruct Hs as (_ & Hn & Hr). cbn [fst snd].
    split; [done|]. destruct r; [split; [by left|done]|split; [by right|done]..].
Qed.
End store.

(** ** Properties *)

(** C28: a save is atomic.  Killed before any of its system calls, failing at any of
    them or done, and the machine then crashing or not, what a start finds at the
    path is a whole checkpoint, the new one or one that was there before, and
    never part of one.  A save that succeeds is read back and leaves no other file;
    one that fails leaves the checkpoint as it was, and no file of its own if the
    removal worked. *)
Theorem Save_crash_atomic Marshal path base io p kill (d : disk)
    (Hpath : path = base +:+ ".pos") (Hsuf : 0 ≤ si_suffix io) (Hd : settled_at path d) :
  let '(r, (_, d')) := FileCheckpoint_Save Marshal path io p (kill, d) in
  settled_at path d' ∧
  (∀ d'' i, crash d' d'' → dk_names d'' !! path = Some i →
     ∃ s, dk_data d'' !! i = Some s ∧ (s = Marshal p ∨ was_checkpoint path d s)) ∧
  match r with
  | Ok _ => contents path d' = Some (Marshal p) ∧ dom (dk_names d') = {[path]} ∪ dom (dk_names d)
  | Err _ => contents path d' = contents path d ∧ (si_remove io = None → dk_names d' = dk_names d)
  | Panic _ => contents path d' = contents path d ∧ kill ≠ None
  end.
Proof.
  destruct Hd as [Hwf Hw].
  pose proof (Save_run Marshal path (λ s, s = Marshal p ∨ was_checkpoint path d s) io p kill d (temp_name_ne path base _ Hpath Hsuf) Hwf
    (whole_before _ _ Hw _ (λ s Hs, or_intror Hs)) (or_introl eq_refl)) as Hr.
  unfold wp in Hr. destruct (FileCheckpoint_Save Marshal path io p (kill, d)) as [r [k' d']].
  split; [by apply (saved_settled _ _ _ _ _ _ _ _ _ Hr)|]. destruct Hr as (_ & Hw' & Hr). split; [|exact Hr].
  intros d'' i Hc Hi. by eapply whole_crash.
Qed.

(** Over checkpoint files whose encoding reads back, the tailer keeps what it
    promises over any atomic store: the position a later start finds never passes
    an invalidation that was not delivered. *)
Theorem Run_over_files_safe {C} `{!Invalidator C, !InvalidatorLaws C} Marshal Unmarshal base
    (Hjson : ∀ p, Unmarshal (Marshal p) = Ok p) (Htotal : ∀ s, no_panic (Unmarshal s))
    opts current evs how (w : TailerW C (kept_store base)) :
  tw_tailer w = fresh_tailer → Forall ticking_event evs → no_panic current →
  let S := kept_checkpoint Marshal Unmarshal base Hjson in
  no_panic (Tailer_Run opts current evs how w).1 ∧
  checkpoint_safe (λ k : kept_store base, stored_at Unmarshal (base +:+ ".pos") (fs_disk (`k))) opts current evs w
    (Tailer_Run opts current evs how w).2.
Proof.
  intros Hf Ht Hc S. pose proof (file_laws Marshal Unmarshal base Hjson Htotal) as Hl.
  exact (run_safe _ opts current evs how w Hf Ht Hc).
Qed.

(** ** Witnesses *)

Definition demo_disk : disk := mkDisk {["/flux/s1.pos" := 0%nat]} {[0%nat := "binlog.000001:4"]} {[0%nat]} [] 1.
Definition demo_save : save_io := mkSaveIO 7 None None None None None None.

Lemma demo_settled : settled_at "/flux/s1.pos" demo_disk.
Proof.
  split.
  - intros m n i ->%list_elem_of_singleton. cbn [demo_disk dk_names]. intros [<- <-]%lookup_singleton_Some. cbn. lia.
  - intros m i ->%list_elem_of_singleton. cbn [demo_disk dk_names]. intros [_ <-]%lookup_singleton_Some. split; [change (0%nat ∈ ({[0%nat]} : gset nat)); set_solver|]. by eexists.
Qed.

(** Killed after the write, before it is synced. *)
Lemma Save_crash_atomic_witness :
  ∃ d', FileCheckpoint_Save Position_String "/flux/s1.pos" demo_save (mkPosition "binlog.000002" 88) (Some 2%nat, demo_disk) =
    (Panic "killed", (Some 0%nat, d')) ∧ contents "/flux/s1.pos" d' = Some "binlog.000001:4".
Proof.
  pose proof (Save_crash_atomic Position_String "/flux/s1.pos" "/flux/s1" demo_save (mkPosition "binlog.000002" 88) (Some 2%nat) demo_disk
    eq_refl ltac:(done) demo_settled) as H.
  destruct (FileCheckpoint_Save Position_String "/flux/s1.pos" demo_save (mkPosition "binlog.000002" 88) (Some 2%nat, demo_disk)) as [r [k d']] eqn:E.
  assert (r = Panic "killed" ∧ k = Some 0%nat) as [-> ->] by (vm_compute in E; by injection E as <- <- _).
  exists d'. split; [exact eq_refl|]. exact (proj1 (proj2 (proj2 H))).
Defined.

(** An encoding of positions that reads back. *)
Definition demo_marshal (p : Position) : string := str_repeat "1" (encode_nat (pos_Offset p)) +:+ "0" +:+ pos_File p.
Fixpoint demo_count (s : string) (n : nat) : option (nat * string) :=
  match s with "" => None | String c s => if bool_decide (c = "1"%char) then demo_count s (S n) else Some (n, s) end.
Definition demo_unmarshal (s : string) : result Position :=
  match demo_count s 0 with
  | Some (n, f) => match decode_nat n with Some o => Ok (mkPosition f o) | None => Err (Errorf "offset") end
  | None => Err (Errorf "truncated")
  end.

Lemma demo_reads_back p : demo_unmarshal (demo_marshal p) = Ok p.
Proof.
  unfold demo_unmarshal, demo_marshal.
  assert (∀ n k f, demo_count (str_repeat "1" n +:+ String "0" f) k = Some ((k + n)%nat, f)) as Hc.
  { induction n as [|n IH]; intros k f; cbn; [by rewrite Nat.add_0_r|]. rewrite IH. f_equal. f_equal. lia. }
  change ("0" +:+ pos_File p) with (String "0" (pos_File p)). rewrite Hc. cbn [Nat.add]. rewrite decode_encode_nat. by destruct p.
Qed.

Lemma demo_total s : no_panic (demo_unmarshal s).
Proof. intros w. unfold demo_unmarshal. destruct (demo_count s 0) as [[n f]|]; [|done]. by destruct (decode_nat n). Qed.

Definition demo_files : file_store := mkFileStore demo_disk (λ _, None) (λ _, demo_save) 0.
Lemma demo_files_good : good_store "/flux/s1" demo_files.
Proof. split; [exact demo_settled|]. intros n. cbn. lia. Qed.
Definition demo_store : kept_store "/flux/s1" := exist _ demo_files demo_files_good.

#[local] Existing Instance ref_invalidator.
#[local] Existing Instance ref_invalidator_laws.

Lemma Run_over_files_safe_witness :
  let S := kept_checkpoint demo_marshal demo_unmarshal "/flux/s1" demo_reads_back in
  let w := mkTailerW fresh_tailer (∅ : gmap string LuaCache.cell) demo_store [] in
  let evs := [EvSynced (mkPosition "bin.1" 9); EvTick] in
  checkpoint_safe (λ k : kept_store "/flux/s1", stored_at demo_unmarshal "/flux/s1.pos" (fs_disk (`k))) demo_cdc (Ok (mkPosition "bin.1" 4)) evs w
    (Tailer_Run demo_cdc (Ok (mkPosition "bin.1" 4)) evs (CanalStopped None) w).2.
Proof.
  apply (Run_over_files_safe demo_marshal demo_unmarshal "/flux/s1" demo_reads_back demo_total demo_cdc (Ok (mkPosition "bin.1" 4))
    [EvSynced (mkPosition "bin.1" 9); EvTick] (CanalStopped None) (mkTailerW fresh_tailer (∅ : gmap string LuaCache.cell) demo_store []));
    [reflexivity|repeat constructor|done].
Defined.
