(* ===== verification/Flags.v ===== *)
(** What the commands use of Go's [flag] package, with the parsing of the values of
    flags: booleans, integers in any base and durations. *)

From S2P Require Import Prelude GoStd Floats Regexp Engine.

Local Open Scope Z_scope.

(** ** Values *)

(** [strconv.ParseBool]. *)
Definition ParseBool (s : string) : option bool :=
  if bool_decide (s ∈ ["1"; "t"; "T"; "TRUE"; "true"; "True"]) then Some true
  else if bool_decide (s ∈ ["0"; "f"; "F"; "FALSE"; "false"; "False"]) then Some false
  else None.

(** [c | ('x' - 'X')]. *)
Definition lower (c : ascii) : Z := Z.lor (byte_val c) 32.

Definition digit_of (c : ascii) : option Z :=
  if is_digit c then Some (digit_val c)
  else if (97 <=? lower c) && (lower c <=? 122) then Some (lower c - 97 + 10) else None.

(** Digits of a base, underscores between them. *)
Fixpoint base_val (base acc : Z) (s : string) : option Z :=
  match s with
  | "" => Some acc
  | String c s =>
      if bool_decide (c = "_"%char) then base_val base acc s
      else match digit_of c with
           | Some d => if d <? base then base_val base (acc * base + d) s else None
           | None => None
           end
  end.

(** What the last byte was: nothing yet or something else, a digit, an underscore. *)
Inductive saw := SawOther | SawDigit | SawUnderscore.

Fixpoint underscores_from (hex : bool) (i : saw) (s : string) : bool :=
  match s with
  | "" => match i with SawUnderscore => false | _ => true end
  | String c s =>
      if is_digit c || (hex && (97 <=? lower c) && (lower c <=? 102)) then underscores_from hex SawDigit s
      else if bool_decide (c = "_"%char) then
        match i with SawDigit => underscores_from hex SawUnderscore s | _ => false end
      else match i with SawUnderscore => false | _ => underscores_from hex SawOther s end
  end.

(** The base a number's prefix names, and its digits. *)
Definition base_prefix (s : string) : Z * string :=
  match s with
  | String "0" (String x (String c rest)) =>
      if lower x =? 98 then (2, String c rest) else if lower x =? 111 then (8, String c rest)
      else if lower x =? 120 then (16, String c rest) else (8, String x (String c rest))
  | String "0" rest => (8, rest)
  | _ => (10, s)
  end.

Definition underscoreOK (s : string) : bool :=
  let s := match s with String c r => if bool_decide (c = "-"%char ∨ c = "+"%char) then r else s | "" => s end in
  match s with
  | String "0" (String x rest) =>
      if (lower x =? 98) || (lower x =? 111) || (lower x =? 120) then underscores_from (lower x =? 120) SawDigit rest
      else underscores_from false SawOther s
  | _ => underscores_from false SawOther s
  end.

(** [strconv.ParseUint(s, 0, 64)]. *)
Definition ParseUint0 (s : string) : option Z :=
  if bool_decide (s = "") then None
  else
    let '(base, digits) := base_prefix s in
    v ← base_val base 0 digits;
    if contains_byte "_" digits && negb (underscoreOK s) then None
    else if v <? 2 ^ 64 then Some v else None.

(** [strconv.ParseInt(s, 0, 64)]. *)
Definition ParseInt0 (s : string) : option Z :=
  match s with
  | "" => None
  | String c r =>
      let neg := bool_decide (c = "-"%char) in
      u ← ParseUint0 (if neg || bool_decide (c = "+"%char) then r else s);
      if neg then (if u <=? 2 ^ 63 then Some (- u) else None) else if u <? 2 ^ 63 then Some u else None
  end.

(** [leadingInt]: [None] on overflow. *)
Fixpoint leadingInt (x : Z) (s : string) : option (Z * string) :=
  match s with
  | String c r =>
      if negb (is_digit c) then Some (x, s)
      else if 2 ^ 63 / 10 <? x then None
      else let x := x * 10 + digit_val c in if 2 ^ 63 <? x then None else leadingInt x r
  | "" => Some (x, s)
  end.

(** [leadingFraction]: digits past what fits are dropped. *)
Fixpoint leadingFraction (overflow : bool) (x : Z) (scale : float64) (s : string) : Z * float64 * string :=
  match s with
  | String c r =>
      if negb (is_digit c) then (x, scale, s)
      else if overflow then leadingFraction true x scale r
      else if (2 ^ 63 - 1) / 10 <? x then leadingFraction true x scale r
      else
        let y := x * 10 + digit_val c in
        if 2 ^ 63 <? y then leadingFraction true x scale r
        else leadingFraction false y (f_mul scale (f_of_int 10)) r
  | "" => (x, scale, s)
  end.

(** The unit in front, up to a digit or a point. *)
Fixpoint unit_name (s : string) : string * string :=
  match s with
  | String c r =>
      if bool_decide (c = "."%char) || is_digit c then ("", s) else let '(u, r) := unit_name r in (String c u, r)
  | "" => ("", "")
  end.

(** The Greek letter and the sign for micro. *)
Definition micro_sign : string := String (byte_of 194) (String (byte_of 181) "s").
Definition micro_letter : string := String (byte_of 206) (String (byte_of 188) "s").

Definition unitMap (u : string) : option Z :=
  if bool_decide (u = "ns") then Some 1
  else if bool_decide (u ∈ ["us"; micro_sign; micro_letter]) then Some 1000
  else if bool_decide (u = "ms") then Some Millisecond
  else if bool_decide (u = "s") then Some Second
  else if bool_decide (u = "m") then Some Minute
  else if bool_decide (u = "h") then Some Hour else None.

(** The whole part of a positive float64. *)
Definition f_trunc (x : float64) : Z :=
  match x with
  | S754_finite false m e => if 0 <=? e then Z.shiftl (Zpos m) e else Z.shiftr (Zpos m) (- e)
  | _ => 0
  end.

(** One number with its unit. *)
Definition duration_term (s : string) : option (Z * string) :=
  match s with
  | "" => None
  | String c _ =>
      if negb (bool_decide (c = "."%char) || is_digit c) then None
      else
        '(v, s1) ← leadingInt 0 s;
        let pre := negb (str_len s1 =? str_len s) in
        let '(f, scale, s2, post) :=
          match s1 with
          | String "." r => let '(f, scale, s2) := leadingFraction false 0 f_one r in (f, scale, s2, negb (str_len s2 =? str_len r))
          | _ => (0, f_one, s1, false)
          end in
        if negb pre && negb post then None
        else
          let '(u, s3) := unit_name s2 in
          unit ← (if bool_decide (u = "") then None else unitMap u);
          if 2 ^ 63 / unit <? v then None
          else
            let v := v * unit in
            let v := if 0 <? f then v + f_trunc (f_mul (f_of_int f) (f_div (f_of_int unit) scale)) else v in
            if (0 <? f) && (2 ^ 63 <? v) then None else Some (v, s3)
  end.

Fixpoint duration_terms (fuel : nat) (d : Z) (s : string) : option Z :=
  match fuel with
  | O => None
  | S fuel =>
      if bool_decide (s = "") then Some d
      else '(v, s) ← duration_term s; if 2 ^ 63 <? d + v then None else duration_terms fuel (d + v) s
  end.

(** [time.ParseDuration]: each term takes at least a byte. *)
Definition ParseDuration (s : string) : option Z :=
  let '(neg, s) :=
    match s with
    | String c r => if bool_decide (c = "-"%char ∨ c = "+"%char) then (bool_decide (c = "-"%char), r) else (false, s)
    | "" => (false, s)
    end in
  if bool_decide (s = "0") then Some 0
  else if bool_decide (s = "") then None
  else
    d ← duration_terms (S (Z.to_nat (str_len s))) 0 s;
    if neg : bool then Some (- d) else if 2 ^ 63 - 1 <? d then None else Some d.

(** ** Flags *)

(** A boolean flag, or one that takes a value its type accepts. *)
Inductive flag_kind := BoolFlag | ValueFlag (accepts : string → bool).
Definition FlagSet := string → option flag_kind.

Definition isBoolFlag (k : flag_kind) : bool := match k with BoolFlag => true | ValueFlag _ => false end.

Definition accepts (k : flag_kind) (v : string) : bool :=
  match k with BoolFlag => is_some (ParseBool v) | ValueFlag ok => ok v end.

(** A flag's name and, after an equals sign, its value. *)
Definition split_flag (s : string) : string * option string :=
  match cut_byte "=" s with Some (n, v) => (n, Some v) | None => (s, None) end.

(** The name of a token of a flag: after one dash or two. *)
Definition flag_body (s : string) : string := if str_prefix "--" s then str_drop 2 s else str_drop 1 s.

(** [flag.FlagSet.Parse]: the settings in order, and the arguments left when it stops. *)
Fixpoint flag_Parse (fs : FlagSet) (args : list string) : result (list (string * string) * list string) :=
  match args with
  | [] => Ok ([], [])
  | s :: rest =>
      if (String.length s <? 2)%nat || negb (str_prefix "-" s) then Ok ([], args)
      else if bool_decide (s = "--") then Ok ([], rest)
      else
        let body := flag_body s in
        if bool_decide (body = "") || str_prefix "-" body || str_prefix "=" body then Err (Errorf "bad flag syntax")
        else
          let '(name, value) := split_flag body in
          match fs name with
          | None => if bool_decide (name ∈ ["help"; "h"]) then Err (Errorf "flag: help requested")
                    else Err (Errorf "flag provided but not defined")
          | Some k =>
              match (match value with Some v => Some v | None => if isBoolFlag k then Some "true" else None end) with
              | Some v =>
                  if negb (accepts k v) then Err (Errorf "invalid value for flag")
                  else '(set, more) ← flag_Parse fs rest; Ok ((name, v) :: set, more)
              | None =>
                  match rest with
                  | [] => Err (Errorf "flag needs an argument")
                  | v :: rest =>
                      if negb (accepts k v) then Err (Errorf "invalid value for flag")
                      else '(set, more) ← flag_Parse fs rest; Ok ((name, v) :: set, more)
                  end
              end
          end
  end.

(** The value a flag has after parsing: the last one it was set to. *)
Definition flag_value (set : list (string * string)) (name : string) : option string :=
  last ((List.filter (λ x, bool_decide (x.1 = name)) set).*2).
Definition string_flag (set : list (string * string)) (name : string) (def : string) : string := default def (flag_value set name).
Definition bool_flag (set : list (string * string)) (name : string) : bool := default false (flag_value set name ≫= ParseBool).

Definition int_flag (set : list (string * string)) (name : string) (def : Z) : Z :=
  default def (flag_value set name ≫= ParseInt0).
Definition duration_flag (set : list (string * string)) (name : string) (def : Z) : Z :=
  default def (flag_value set name ≫= ParseDuration).

(** The kinds of value the commands declare. *)
Definition StringFlag : flag_kind := ValueFlag (λ _, true).
Definition IntFlag : flag_kind := ValueFlag (λ v, is_some (ParseInt0 v)).
Definition DurationFlag : flag_kind := ValueFlag (λ v, is_some (ParseDuration v)).
