(* ===== verification/Cachetctl.v ===== *)
(** The operator's command line: [src/cmd/cachetctl/main.go].

    Loading the configuration, the answers of the cache nodes and the readings of
    the clock are arguments; the state is what the nodes hold and the files.  What
    is printed before an error is left out; a benchmark against a live deployment
    is an argument. *)

From S2P Require Import Prelude GoStd Floats Hlc Regexp Schema Ring Breaker Redis LuaCache CacheClient Engine Admission Cdc Config Ctl Sources Flags.

Local Open Scope Z_scope.

(** ** Arguments *)

(** Flags and their values first, the rest after. *)
Fixpoint permute (fs : FlagSet) (args : list string) : list string * list string :=
  match args with
  | [] => ([], [])
  | a :: rest =>
      if negb (str_prefix "-" a) || bool_decide (a = "-") then let '(f, p) := permute fs rest in (f, a :: p)
      else if bool_decide (a = "--") then ([], rest)
      else
        let '(name, value) := split_flag (trim_left "-" a) in
        if is_some value then let '(f, p) := permute fs rest in (a :: f, p)
        else
          match fs name, rest with
          | Some (ValueFlag _), v :: rest => let '(f, p) := permute fs rest in (a :: v :: f, p)
          | _, _ => let '(f, p) := permute fs rest in (a :: f, p)
          end
  end.

Definition parseArgs (fs : FlagSet) (args : list string) : result (list (string * string) * list string) :=
  let '(flags, positional) := permute fs args in
  '(set, _) ← flag_Parse fs flags;
  Ok (set, positional).

Definition commonFlags : FlagSet := λ n,
  if bool_decide (n = "config") then Some (StringFlag)
  else if bool_decide (n = "json") then Some BoolFlag else None.

Definition status_flags : FlagSet := λ n, if bool_decide (n = "timeout") then Some DurationFlag else commonFlags n.
Definition ring_flags : FlagSet := λ n, if bool_decide (n = "sample") then Some IntFlag else commonFlags n.
Definition checkpoint_flags : FlagSet := λ n, if bool_decide (n = "state-dir") then Some StringFlag else commonFlags n.
Definition migrate_flags : FlagSet := λ n,
  if bool_decide (n = "config") then Some StringFlag else if bool_decide (n = "w") then Some BoolFlag else None.
Definition check_flags : FlagSet := λ n,
  if bool_decide (n = "rendered") then Some StringFlag else if bool_decide (n = "json") then Some BoolFlag else None.
Definition invalidate_flags : FlagSet := λ n, if bool_decide (n = "dry-run") then Some BoolFlag else commonFlags n.

(** ** The environment *)

(** [envMap]: [os.Environ] as a map, each entry cut at its first equals sign. *)
Definition envMap (environ : list string) : gmap string string :=
  foldl (λ m kv, match cut_byte "=" kv with Some (k, v) => <[k := v]> m | None => m end) ∅ environ.

(** [load]: the loader has validated already. *)
Definition load (linux : bool) (ToUpper ToLower sha256_16 : string → string) (decoded : string → result Config)
    (environ : list string) (path : string) : result Config :=
  cfg ← Config_Load linux ToUpper ToLower sha256_16 (decoded path) (envMap environ);
  Config_Validate linux ToUpper ToLower sha256_16 cfg;;
  Ok cfg.

(** ** A rendered chart *)

Record RenderedReport := mkRenderedReport { rr_Shards : Z; rr_Topologies : Z; rr_Tables : list string }.

Definition RenderedReport_String (r : RenderedReport) : string :=
  "the rendered config loads: " +:+ FormatInt (rr_Shards r) +:+ " shard(s), " +:+ FormatInt (rr_Topologies r) +:+
  " topology(ies), tables [" +:+ join " " (rr_Tables r) +:+ "]" +:+ newline.

(** The documents of a stream that decode before the first that does not. *)
Fixpoint configMapFrom (docs : list (string * gmap string string)) : result string :=
  match docs with
  | [] => Err (Errorf "ctl: no ConfigMap with a config.yaml in the rendered chart")
  | (kind, data) :: docs =>
      if negb (bool_decide (kind = "ConfigMap")) then configMapFrom docs
      else match data !! "config.yaml" with Some body => Ok body | None => configMapFrom docs end
  end.

(** Why writing the temporary file fails, if it does. *)
Definition CheckRendered (linux : bool) (ToUpper ToLower sha256_16 : string → string) (docs : string → list (string * gmap string string))
    (decoded : string → gmap string string → result Config) (tmp : option error) (raw : result string) (env : gmap string string) :
    result RenderedReport :=
  raw ← (match raw with Err e => Err (Wrapf "ctl: read" e) | r => r end);
  body ← configMapFrom (docs raw);
  match tmp with
  | Some e => Err (Wrapf "ctl" e)
  | None =>
      match Config_Load linux ToUpper ToLower sha256_16 (decoded body env) env with
      | Err e => Err (Wrapf "the config this chart renders does not load" e)
      | Panic w => Panic w
      | Ok cfg => Ok (mkRenderedReport (Z.of_nat (length (cf_Shards cfg))) (Z.of_nat (length (cf_Topologies cfg)))
                        ((λ t, tc_Name (ct_TableConfig t)) <$> cf_Tables cfg))
      end
  end.

(** The variables a deployment mounts from a secret, unless they are set. *)
Definition checked_env (env : gmap string string) : gmap string string :=
  foldl (λ m n, match m !! n with Some _ => m | None => <[n := "checked-by-cachetctl"]> m end) env ["CACHET_DB_USERNAME"; "CACHET_DB_PASSWORD"].

(** ** Commands *)

Section commands.
Context (ToLower sha256_16 : string → string) (loaded : string → result Config) (ping : string → result unit).
Context {R : Type} `{Redis R}.

(** Connect, and run an operation of the client on the nodes. *)
Definition with_client {A} (cfg : Config) (now : Z) (m : Client → M (World R) A) : M (gmap string R) A := λ nodes,
  match openCache cfg now ping with
  | Ok (cl, g) => let '(r, w) := m cl (mkWorld nodes g) in (r, w_nodes w)
  | Err e => (Err e, nodes)
  | Panic p => (Panic p, nodes)
  end.

(** The report, and whether it is to be printed as JSON. *)
Definition inspectCmd (now : Z) (i i' : io) (args : list string) : M (gmap string R) (KeyInspection * bool) :=
  '(set, rest) ← M_lift (parseArgs commonFlags args);
  match rest with
  | [key] =>
      cfg ← M_lift (loaded (string_flag set "config" ""));
      if bool_decide (cc_Addresses (cf_Cache cfg) = []) then M_fail (Errorf "no cache configured; there is nothing to inspect")
      else
        report ← with_client cfg now (λ cl, ctl_Inspect ToLower sha256_16 cl i i' cfg key);
        mret (report, bool_flag set "json")
  | _ => M_fail (Errorf "usage: cachetctl inspect <key>")
  end.

Definition invalidateCmd (now nowMillis : Z) (i : io) (args : list string) : M (gmap string R) (InvalidateResult * bool) :=
  '(set, rest) ← M_lift (parseArgs invalidate_flags args);
  match rest with
  | [key] =>
      cfg ← M_lift (loaded (string_flag set "config" ""));
      if bool_decide (cc_Addresses (cf_Cache cfg) = []) then M_fail (Errorf "no cache configured; there is nothing to invalidate")
      else
        report ← with_client cfg now (λ cl, ctl_Invalidate ToLower sha256_16 cl i nowMillis cfg key (bool_flag set "dry-run"));
        mret (report, bool_flag set "json")
  | _ => M_fail (Errorf "usage: cachetctl invalidate <key> [-dry-run]")
  end.

(** Commands that only read: from the arguments after the name to a report. *)
Definition statusCmd (probe : Z → string → Z + error) (args : list string) : result (list NodeHealth * bool) :=
  '(set, _) ← parseArgs status_flags args;
  cfg ← loaded (string_flag set "config" "");
  report ← ctl_Health (probe (duration_flag set "timeout" (2 * Second))) cfg;
  Ok (report, bool_flag set "json").

Definition ringCmd (args : list string) : result (RingReport * bool) :=
  '(set, _) ← parseArgs ring_flags args;
  cfg ← loaded (string_flag set "config" "");
  report ← ctl_Ring cfg (int_flag set "sample" 30000);
  Ok (report, bool_flag set "json").

Definition checkpointCmd (stat : string → result bool) (join_path : string → string → string)
    (load_position : string → result (option Position)) (args : list string) : result (CheckpointReport * bool) :=
  '(set, _) ← parseArgs checkpoint_flags args;
  cfg ← loaded (string_flag set "config" "");
  report ← ctl_Checkpoints stat join_path load_position cfg (string_flag set "state-dir" "./.flux");
  Ok (report, bool_flag set "json").

(** The policy of the configuration over counters that have counted nothing. *)
Definition fresh_controller (a : cfg_Admission) (now : Z) : Controller :=
  NewController (Some (NewSketch (mkSketchOptions 0 0 (ca_Window a) 0) now))
    (NewPolicy (mkPolicyOptions (ca_AdmitRatio a) (ca_EvictRatio a) (ca_MinSamples a) (ca_MinDwell a) true)) 0 now.

(** The readings of the clock: of the counters' start, of an explanation and of its
    counts. *)
Record explain_clock := mkExplainClock { xc_start : Z; xc_now : Z; xc_now' : Z; xc_at : Z; xc_count : Z; xc_count' : Z }.

Definition admissionCmd (x : explain_clock) (args : list string) : result (AdmissionExplanation * bool) :=
  match args with
  | "explain" :: args =>
      '(set, rest) ← parseArgs commonFlags args;
      match rest with
      | [key] =>
          cfg ← loaded (string_flag set "config" "");
          if negb (ca_Enabled (cc_Admission (cf_Cache cfg))) then
            Err (Errorf "adaptive admission is disabled (cache.admission.enabled); every key is cached")
          else
            report ← (ctl_ExplainAdmission ToLower sha256_16 cfg (xc_now x) (xc_now' x) (xc_at x) (xc_count x) (xc_count' x) key
                        (fresh_controller (cc_Admission (cf_Cache cfg)) (xc_start x))).1;
            Ok (report, bool_flag set "json")
      | _ => Err (Errorf "usage: cachetctl admission explain <key>")
      end
  | _ => Err (Errorf "usage: cachetctl admission explain <key>")
  end.

(** The fate of the calls on a file: reading it, its mode, and writing it, where a
    failed write has written some bytes. *)
Record file_io := mkFileIO { fi_read : option error; fi_stat : option error; fi_write : option (nat * error) }.

Definition ReadFile (io : file_io) (path : string) (files : gmap string string) : result string :=
  match fi_read io, files !! path with
  | Some e, _ => Err e
  | None, None => Err (Errorf "file does not exist")
  | None, Some data => Ok data
  end.

(** What the file declares, and its shard ids. *)
Context (declared : string → result (bool * list cfg_Shard)).

(** What is printed to standard output. *)
Definition migrateCmd (fio : file_io) (args : list string) : M (gmap string string) string :=
  '(set, _) ← M_lift (parseArgs migrate_flags args);
  let path := string_flag set "config" "" in
  if bool_decide (path = "") then M_fail (Errorf "cachetctl config migrate: -config <path> is required")
  else
    files ← M_get;
    src ← M_lift (match ReadFile fio path files with Err e => Err (Wrapf "cachetctl: read" e) | r => r end);
    '(declares, shards) ← M_lift (declared src);
    migrated ← M_lift (Migrate src declares shards);
    if negb (bool_flag set "w") then mret migrated
    else
      match fi_stat fio, fi_write fio with
      | Some e, _ => M_fail (Wrapf "cachetctl: stat" e)
      | None, Some (n, e) => M_put (<[path := str_take n migrated]> files);; M_fail (Wrapf "cachetctl: write" e)
      | None, None => M_put (<[path := migrated]> files);; mret ""
      end.

Context (check_rendered : result string → gmap string string → result RenderedReport) (environ : list string).

Definition configCheckCmd (fio : file_io) (args : list string) (files : gmap string string) : result (RenderedReport * bool) :=
  '(set, _) ← parseArgs check_flags args;
  let path := string_flag set "rendered" "" in
  if bool_decide (path = "") then Err (Errorf "cachetctl config check: -rendered <path> is required")
  else
    report ← check_rendered (ReadFile fio path files) (checked_env (envMap environ));
    Ok (report, bool_flag set "json").

(** *** The program *)

Inductive report :=
  | ReportHealth (l : list NodeHealth)
  | ReportRing (r : RingReport)
  | ReportKey (k : KeyInspection)
  | ReportInvalidate (r : InvalidateResult)
  | ReportCheckpoints (r : CheckpointReport)
  | ReportAdmission (e : AdmissionExplanation)
  | ReportRendered (r : RenderedReport).

(** Texts with numbers in floating point, texts of errors, and JSON are arguments. *)
Context (float_text : report → string) (error_text : error → string) (json : report → result string).

Definition report_String (r : report) : string :=
  match r with
  | ReportHealth l => HealthReport_String error_text l
  | ReportKey k => KeyInspection_String k
  | ReportInvalidate r => InvalidateResult_String r
  | ReportCheckpoints r => CheckpointReport_String r
  | ReportRendered r => RenderedReport_String r
  | ReportRing _ | ReportAdmission _ => float_text r
  end.

Definition emit (r : report) (asJSON : bool) : result string :=
  if negb asJSON then Ok (report_String r)
  else match json r with
       | Ok b => Ok (b +:+ newline)
       | Err e => Err (Wrapf "render json" e)
       | Panic w => Panic w
       end.

(** What a run of the tool gets of the outside. *)
Record cli_env := mkCliEnv {
  ce_now : Z; ce_millis : Z; ce_io : io; ce_io' : io; ce_file : file_io; ce_clock : explain_clock;
  ce_probe : Z → string → Z + error; ce_stat : string → result bool; ce_join : string → string → string;
  ce_position : string → result (option Position);
  ce_version : string; ce_usage : string;
  ce_bench : list string → result string;
}.

(** The nodes of the cache, and the files. *)
Record cli := mkCli { cli_nodes : gmap string R; cli_files : gmap string string }.

Definition on_nodes {A} (m : M (gmap string R) A) : M cli A := λ w, let '(r, n) := m (cli_nodes w) in (r, mkCli n (cli_files w)).
Definition on_files {A} (m : M (gmap string string) A) : M cli A := λ w, let '(r, f) := m (cli_files w) in (r, mkCli (cli_nodes w) f).

Definition emitted {A} (mk : A → report) (m : M cli (A * bool)) : M cli string :=
  '(r, asJSON) ← m; M_lift (emit (mk r) asJSON).

Definition admission_note : string := newline +:+
  "Note: this reflects the configured policy against a fresh counter set. The live" +:+ newline +:+
  "read:write history lives in the engine process and is not shared with this tool." +:+ newline.

(** [run]: from the arguments to what is printed. *)
Definition cachetctl_run (e : cli_env) (args : list string) : M cli string :=
  match args with
  | [] => M_fail (Errorf "no command given")
  | name :: args =>
      if bool_decide (name = "status") then emitted ReportHealth (M_lift (statusCmd (ce_probe e) args))
      else if bool_decide (name = "ring") then emitted ReportRing (M_lift (ringCmd args))
      else if bool_decide (name = "inspect") then emitted ReportKey (on_nodes (inspectCmd (ce_now e) (ce_io e) (ce_io' e) args))
      else if bool_decide (name = "invalidate") then
        emitted ReportInvalidate (on_nodes (invalidateCmd (ce_now e) (ce_millis e) (ce_io e) args))
      else if bool_decide (name = "checkpoint") then
        emitted ReportCheckpoints (M_lift (checkpointCmd (ce_stat e) (ce_join e) (ce_position e) args))
      else if bool_decide (name = "admission") then
        '(r, asJSON) ← M_lift (admissionCmd (ce_clock e) args);
        text ← M_lift (emit (ReportAdmission r) asJSON);
        mret (if asJSON : bool then text else text +:+ admission_note)
      else if bool_decide (name = "bench") then M_lift (ce_bench e args)
      else if bool_decide (name = "config") then
        match args with
        | [] => M_fail (Errorf "usage: cachetctl config migrate|check")
        | sub :: args =>
            if bool_decide (sub = "check") then
              w ← M_get; emitted ReportRendered (M_lift (configCheckCmd (ce_file e) args (cli_files w)))
            else if negb (bool_decide (sub = "migrate")) then M_fail (Errorf "usage: cachetctl config migrate -config <path> [-w]")
            else on_files (migrateCmd (ce_file e) args)
        end
      else if bool_decide (name ∈ ["-version"; "--version"; "version"]) then mret ("cachetctl " +:+ ce_version e +:+ newline)
      else if bool_decide (name ∈ ["-h"; "--help"; "help"]) then mret (ce_usage e)
      else M_fail (Errorf "unknown command")
  end.
End commands.
