(* ===== verification/CachetctlSpec.v ===== *)
(** What the operator's command line means: flags and arguments may come in any
    order, each token has one reading, and only an invalidation that was asked for
    is carried out. *)

From S2P Require Import Prelude GoStd Floats Hlc Regexp Ring Breaker Redis LuaCache CacheClient Engine Config Ctl CtlSpec Sources Flags Cachetctl.

Local Open Scope Z_scope.

(** ** The language of a command line *)

(** A token that is a flag: its name, and the value it carries. *)
Definition flag_token (s : string) : option (string * option string) :=
  let body := flag_body s in
  if str_prefix "-" s && negb (bool_decide (body = "" ∨ str_prefix "-" body = true ∨ str_prefix "=" body = true))
  then Some (split_flag body) else None.

Definition positional (s : string) : Prop := str_prefix "-" s = false ∨ s = "-".

Inductive reads (fs : FlagSet) : list string → list (string * string) → list string → Prop :=
  | reads_nil : reads fs [] [] []
  | reads_positional a args set pos : positional a → reads fs args set pos → reads fs (a :: args) set (a :: pos)
  | reads_end args : reads fs ("--" :: args) [] args
  | reads_with_value a name v k args set pos :
      flag_token a = Some (name, Some v) → fs name = Some k → accepts k v = true →
      reads fs args set pos → reads fs (a :: args) ((name, v) :: set) pos
  | reads_bool a name args set pos :
      flag_token a = Some (name, None) → fs name = Some BoolFlag →
      reads fs args set pos → reads fs (a :: args) ((name, "true") :: set) pos
  | reads_next a name ok v args set pos :
      flag_token a = Some (name, None) → fs name = Some (ValueFlag ok) → ok v = true →
      reads fs args set pos → reads fs (a :: v :: args) ((name, v) :: set) pos.

(** ** Lemmas *)

Lemma flag_token_body a t : flag_token a = Some t →
  str_prefix "-" a = true ∧ flag_body a ≠ "" ∧ str_prefix "-" (flag_body a) = false ∧ str_prefix "=" (flag_body a) = false ∧
  split_flag (flag_body a) = t.
Proof.
  unfold flag_token. destruct (str_prefix "-" a); cbn [andb]; [|done]. case_bool_decide as Hb; [done|]. cbn [negb]. intros [= <-].
  split_and!; try done; [by intros H; apply Hb; left| |]; apply not_true_is_false; tauto.
Qed.

Lemma trim_left_stop c s : (∀ s', s ≠ String c s') → trim_left c s = s.
Proof. destruct s as [|d s]; cbn; [done|]. intros H. rewrite bool_decide_eq_false_2; [done|]. by intros ->; destruct (H s). Qed.

Lemma prefix_dash s : str_prefix "-" s = true → ∃ s', s = String "-" s'.
Proof. destruct s as [|c s]; [done|]. cbn. case_bool_decide as H; [|done]. subst c. by exists s. Qed.

(** The two readings of a token agree: trimming every dash, and one or two. *)
Lemma trim_flag a : str_prefix "-" a = true → str_prefix "-" (flag_body a) = false → trim_left "-" a = flag_body a.
Proof.
  intros (s & ->)%prefix_dash Hb. unfold flag_body in *. destruct s as [|c s]; [done|]. cbn [str_prefix str_drop] in *.
  rewrite bool_decide_eq_true_2 in * by done. cbn [andb] in *. cbn [trim_left]. rewrite bool_decide_eq_true_2 by done.
  destruct (bool_decide_reflect ("-"%char = c)) as [<-|Hc]; cbn [andb] in *.
  - rewrite bool_decide_eq_true_2 by done. apply trim_left_stop. intros s' ->. by cbn in Hb.
  - by rewrite bool_decide_eq_false_2.
Qed.

(** A token past the checks of both functions. *)
Definition dashed (a : string) : Prop := str_prefix "-" a = true ∧ a ≠ "-" ∧ a ≠ "--".

Lemma dashed_long a : dashed a → (String.length a <? 2)%nat = false ∧ flag_body a ≠ "".
Proof.
  intros ((s & ->)%prefix_dash & H1 & H2). split.
  - apply Nat.ltb_ge. destruct s; [done|]. cbn. lia.
  - unfold flag_body. destruct s as [|c s]; [done|]. cbn [str_prefix str_drop]. destruct (bool_decide_reflect ("-"%char = c)) as [<-|].
    + destruct s; [done|]. done.
    + by rewrite andb_comm.
Qed.

Lemma token_cases a : positional a ∨ a = "--" ∨ dashed a ∧ (flag_token a = None ∨ ∃ name value, flag_token a = Some (name, value)).
Proof.
  destruct (str_prefix "-" a) eqn:Ep; [|by left; left]. destruct (decide (a = "-")) as [->|H1]; [by left; right|].
  destruct (decide (a = "--")) as [->|H2]; [by right; left|]. right; right. split; [done|].
  destruct (flag_token a) as [[name value]|]; [right; by eexists _, _|by left].
Qed.

Lemma Parse_bad fs a rest : dashed a → flag_token a = None → ∃ e, flag_Parse fs (a :: rest) = Err e.
Proof.
  intros Hd Ht. destruct (dashed_long a Hd) as [Hl Hb]. destruct Hd as (Hp & _ & H2). cbn [flag_Parse]. rewrite Hl, Hp.
  cbn [negb orb]. rewrite (bool_decide_eq_false_2 _ H2). unfold flag_token in Ht. rewrite Hp in Ht. cbn [andb] in Ht.
  case_bool_decide as Hbad; [|done]. destruct (bool_decide (flag_body a = "") || _ || _) eqn:E; [by eexists|].
  apply orb_false_iff in E as [[E1%bool_decide_eq_false E2]%orb_false_iff E3]. destruct Hbad as [?|[?|?]]; congruence.
Qed.

Lemma Parse_token fs a name value rest : flag_token a = Some (name, value) → dashed a →
  flag_Parse fs (a :: rest) =
  match fs name with
  | None => if bool_decide (name ∈ ["help"; "h"]) then Err (Errorf "flag: help requested") else Err (Errorf "flag provided but not defined")
  | Some k =>
      match (match value with Some v => Some v | None => if isBoolFlag k then Some "true" else None end) with
      | Some v => if negb (accepts k v) then Err (Errorf "invalid value for flag")
                  else '(set, more) ← flag_Parse fs rest; Ok ((name, v) :: set, more)
      | None =>
          match rest with
          | [] => Err (Errorf "flag needs an argument")
          | v :: rest => if negb (accepts k v) then Err (Errorf "invalid value for flag")
                         else '(set, more) ← flag_Parse fs rest; Ok ((name, v) :: set, more)
          end
      end
  end.
Proof.
  intros Ht Hd. destruct (dashed_long a Hd) as [Hl _]. destruct Hd as (Hp & _ & H2).
  apply flag_token_body in Ht as (_ & Hb & H3 & H4 & Hs). cbn [flag_Parse].
  rewrite Hl, Hp, (bool_decide_eq_false_2 _ H2), (bool_decide_eq_false_2 _ Hb), H3, H4, Hs. done.
Qed.

Lemma permute_token fs a name value rest : flag_token a = Some (name, value) → dashed a →
  permute fs (a :: rest) =
  if is_some value then let '(f, p) := permute fs rest in (a :: f, p)
  else match fs name, rest with
       | Some (ValueFlag _), v :: rest => let '(f, p) := permute fs rest in (a :: v :: f, p)
       | _, _ => let '(f, p) := permute fs rest in (a :: f, p)
       end.
Proof.
  intros Ht (Hp & H1 & H2). apply flag_token_body in Ht as (_ & _ & H3 & _ & Hs). cbn [permute].
  rewrite Hp, (bool_decide_eq_false_2 _ H1), (bool_decide_eq_false_2 _ H2), (trim_flag a Hp H3), Hs. done.
Qed.

(** *** One token of [parseArgs] *)

Lemma parse_positional fs a args : positional a →
  parseArgs fs (a :: args) = ('(set, pos) ← parseArgs fs args; Ok (set, a :: pos)).
Proof.
  intros Ha. unfold parseArgs. cbn [permute].
  assert (negb (str_prefix "-" a) || bool_decide (a = "-") = true) as ->.
  { destruct Ha as [->| ->]; [done|]. by rewrite bool_decide_eq_true_2, orb_true_r. }
  destruct (permute fs args) as [f p]. by destruct (flag_Parse fs f) as [[set more]|e|w].
Qed.

Lemma parse_end fs args : parseArgs fs ("--" :: args) = Ok ([], args).
Proof. done. Qed.

Lemma parse_bad fs a args : dashed a → flag_token a = None → ∃ e, parseArgs fs (a :: args) = Err e.
Proof.
  intros Hd Ht. assert (∃ f p, permute fs (a :: args) = (a :: f, p)) as (f & p & Hp).
  { destruct Hd as (Hp & H1 & H2). cbn [permute]. rewrite Hp, (bool_decide_eq_false_2 _ H1), (bool_decide_eq_false_2 _ H2). cbn [negb orb].
    destruct (split_flag _) as [name [v|]]; cbn [is_some].
    - destruct (permute fs args); by eexists _, _.
    - destruct (fs name) as [[|ok]|]; [| |]; destruct args as [|v args]; try destruct (permute fs _); by eexists _, _. }
  unfold parseArgs. rewrite Hp. destruct (Parse_bad fs a f Hd Ht) as [e ->]. by eexists.
Qed.

Lemma token_dashed a t : flag_token a = Some t → dashed a.
Proof. intros (Hp & Hb & _)%flag_token_body. split; [done|]. split; by intros ->. Qed.

(** A setting, before what the rest of the line sets. *)
Definition with_setting (x : string * string) (r : result (list (string * string) * list string)) :
    result (list (string * string) * list string) :=
  '(set, pos) ← r; Ok (x :: set, pos).

Lemma parse_with_value fs a name v args : flag_token a = Some (name, Some v) →
  match fs name with
  | Some k => if accepts k v then parseArgs fs (a :: args) = with_setting (name, v) (parseArgs fs args)
              else ∃ e, parseArgs fs (a :: args) = Err e
  | None => ∃ e, parseArgs fs (a :: args) = Err e
  end.
Proof.
  intros Ht. pose proof (token_dashed a _ Ht) as Hd. unfold parseArgs, with_setting. rewrite (permute_token fs a name (Some v) args Ht Hd).
  cbn [is_some]. destruct (permute fs args) as [f p]. rewrite (Parse_token fs a name (Some v) f Ht Hd).
  destruct (fs name) as [k|]; [|case_bool_decide; by eexists]. destruct (accepts k v); cbn [negb]; [|by eexists].
  by destruct (flag_Parse fs f) as [[set more]|e|w].
Qed.

Lemma parse_bare fs a name args : flag_token a = Some (name, None) →
  match fs name with
  | Some BoolFlag => parseArgs fs (a :: args) = with_setting (name, "true") (parseArgs fs args)
  | Some (ValueFlag ok) =>
      match args with
      | v :: rest => if ok v then parseArgs fs (a :: args) = with_setting (name, v) (parseArgs fs rest)
                     else ∃ e, parseArgs fs (a :: args) = Err e
      | [] => ∃ e, parseArgs fs [a] = Err e
      end
  | None => ∃ e, parseArgs fs (a :: args) = Err e
  end.
Proof.
  intros Ht. pose proof (token_dashed a _ Ht) as Hd. unfold parseArgs, with_setting. rewrite (permute_token fs a name None args Ht Hd).
  cbn [is_some]. destruct (fs name) as [[|ok]|] eqn:Ek.
  - destruct (permute fs args) as [f p]. rewrite (Parse_token fs a name None f Ht Hd), Ek. cbn.
    by destruct (flag_Parse fs f) as [[set more]|e|w].
  - destruct args as [|v rest].
    + rewrite (permute_token fs a name None [] Ht Hd), Ek. cbn [is_some permute]. rewrite (Parse_token fs a name None [] Ht Hd), Ek. by eexists.
    + destruct (permute fs rest) as [f p]. rewrite (Parse_token fs a name None (v :: f) Ht Hd), Ek. cbn [isBoolFlag accepts].
      destruct (ok v); cbn [negb]; [|by eexists]. by destruct (flag_Parse fs f) as [[set more]|e|w].
  - destruct (permute fs args) as [f p]. rewrite (Parse_token fs a name None f Ht Hd), Ek. case_bool_decide; by eexists.
Qed.

Lemma with_setting_Ok x r set pos : with_setting x r = Ok (set, pos) ↔ ∃ set', set = x :: set' ∧ r = Ok (set', pos).
Proof.
  unfold with_setting. destruct r as [[s p]|e|w]; cbn; split; try done; try (by intros (? & _ & ?)).
  - intros [= <- <-]. by exists s.
  - by intros (s' & -> & [= <- <-]).
Qed.

Lemma reads_sound fs args set pos : reads fs args set pos → parseArgs fs args = Ok (set, pos).
Proof.
  induction 1 as [|a args set pos Ha _ IH|args|a name v k args set pos Ht Hk Hv _ IH|a name args set pos Ht Hk _ IH|a name ok v args set pos Ht Hk Hv _ IH].
  - done.
  - by rewrite parse_positional, IH.
  - apply parse_end.
  - pose proof (parse_with_value fs a name v args Ht) as H. rewrite Hk, Hv, IH in H. exact H.
  - pose proof (parse_bare fs a name args Ht) as H. rewrite Hk, IH in H. exact H.
  - pose proof (parse_bare fs a name (v :: args) Ht) as H. rewrite Hk, Hv, IH in H. exact H.
Qed.

Lemma reads_complete fs n : ∀ args set pos, (length args ≤ n)%nat → parseArgs fs args = Ok (set, pos) → reads fs args set pos.
Proof.
  induction n as [|n IH]; intros args set pos Hn Hok.
  { destruct args; [|cbn in Hn; lia]. injection Hok as <- <-. constructor. }
  destruct args as [|a args]; [injection Hok as <- <-; constructor|]. cbn [length] in Hn.
  destruct (token_cases a) as [Hpos|[->|[Hd [Hno|(name & value & Ht)]]]].
  - rewrite parse_positional in Hok by done. destruct (parseArgs fs args) as [[s p]|e|w] eqn:E; [|done..].
    injection Hok as <- <-. apply reads_positional; [done|]. apply IH; [lia|done].
  - rewrite parse_end in Hok. injection Hok as <- <-. constructor.
  - destruct (parse_bad fs a args Hd Hno) as [e He]. congruence.
  - destruct value as [v|].
    + pose proof (parse_with_value fs a name v args Ht) as H. destruct (fs name) as [k|] eqn:Ek; [|destruct H; congruence].
      destruct (accepts k v) eqn:Ev; [|destruct H; congruence]. rewrite H in Hok. apply with_setting_Ok in Hok as (s & -> & Hs).
      eapply reads_with_value; [done..|]. apply IH; [lia|done].
    + pose proof (parse_bare fs a name args Ht) as H. destruct (fs name) as [[|ok]|] eqn:Ek; [| |destruct H; congruence].
      * rewrite H in Hok. apply with_setting_Ok in Hok as (s & -> & Hs). apply reads_bool; [done..|]. apply IH; [lia|done].
      * destruct args as [|v rest]; [destruct H; congruence|]. destruct (ok v) eqn:Ev; [|destruct H; congruence].
        rewrite H in Hok. apply with_setting_Ok in Hok as (s & -> & Hs). cbn [length] in Hn.
        eapply reads_next; [done..|]. apply IH; [lia|done].
Qed.

(** *** What an invalidation touches *)

Section nodes.
Context {R : Type} `{Redis R}.

(** From [nodes] to [nodes'] at most this node changed. *)
Definition only_node (node : string) (nodes nodes' : gmap string R) : Prop := ∀ n, n ≠ node → nodes' !! n = nodes !! n.

Lemma run_script_only {A} node f (m : M R A) (w : World R) :
  wp (run_script node f m) (λ _ w', only_node node (w_nodes w) (w_nodes w')) w.
Proof.
  unfold wp, run_script, only_node. destruct (w_nodes w !! node) as [r|]; [|done].
  destruct f; cbn; intros n Hn; try done; by rewrite lookup_insert_ne.
Qed.

Lemma record_only node i (ok : bool) (w : World R) :
  wp (if ok then Success node i else Failure node i) (λ _ w', w_nodes w' = w_nodes w) w.
Proof. unfold wp, Success, Failure, on_breaker. destruct ok, (Group_For _ _ _ _); done. Qed.

Lemma Tombstone_only (cl : Client) i key v (w : World R) node : Client_poolFor cl key = Ok node →
  wp (Client_Tombstone cl i key v) (λ _ w', only_node node (w_nodes w) (w_nodes w')) w.
Proof.
  intros Hp. unfold Client_Tombstone. apply wp_bind, wp_lift. rewrite Hp. apply wp_bind.
  eapply wp_mono; [apply run_script_only|]. intros r w' Hw. destruct r as [[[a|]|er]|er|why]; [| | |exact Hw..]; apply wp_bind.
  - eapply wp_mono; [apply (record_only node i true)|]. intros r w'' Hn. rewrite <-Hn in Hw. by destruct r.
  - eapply wp_mono; [apply (record_only node i false)|]. intros r w'' Hn. rewrite <-Hn in Hw. by destruct r.
  - eapply wp_mono; [apply (record_only node i false)|]. intros r w'' Hn. rewrite <-Hn in Hw. by destruct r.
Qed.

(** The node the client of the tool writes to is the one the tool names. *)
Lemma tool_pool ToLower sha256_16 c now ping cl g key loc : openCache c now ping = Ok (cl, g) →
  ctl_Locate ToLower sha256_16 c key = Ok loc → Client_poolFor cl (kl_Key loc) = Ok (kl_CacheNode loc).
Proof.
  intros Ho Hl. destruct (Locate_ok _ _ _ _ _ Hl) as (k & _ & _ & Hne & _ & _ & Hown).
  destruct (cache_New_ready _ _ _ _ _ _ Ho Hne) as (_ & _ & _ & node & Hp & Hin & Hn). cbn in Hin, Hn.
  rewrite Hp. f_equal. apply (Owns_unique _ _ _ _ Hn), Hown. by intros Hnil; rewrite Hnil in Hin; apply not_elem_of_nil in Hin.
Qed.

Lemma Invalidate_only ToLower sha256_16 (cl : Client) i nowMillis c key dry (w : World R) :
  (∀ loc, ctl_Locate ToLower sha256_16 c key = Ok loc → Client_poolFor cl (kl_Key loc) = Ok (kl_CacheNode loc)) →
  wp (ctl_Invalidate ToLower sha256_16 cl i nowMillis c key dry) (λ _ w', w_nodes w' = w_nodes w ∨
    dry = false ∧ ∃ loc, ctl_Locate ToLower sha256_16 c key = Ok loc ∧ only_node (kl_CacheNode loc) (w_nodes w) (w_nodes w')) w.
Proof.
  intros Hp. unfold ctl_Invalidate. apply wp_bind, wp_lift. destruct (ctl_Locate _ _ c key) as [loc|e|why]; [|by left..].
  apply wp_bind, wp_lift. destruct (Clock_Next nowMillis NewClock).1 as [v|e|why]; [|by left..].
  destruct dry; [by left|]. apply wp_bind. eapply wp_mono; [|].
  - instantiate (1 := λ _ w', only_node (kl_CacheNode loc) (w_nodes w) (w_nodes w')). unfold wp, wrapping_ctl.
    pose proof (Tombstone_only cl i (kl_Key loc) v w _ (Hp loc eq_refl)) as Ht. unfold wp in Ht.
    destruct (Client_Tombstone _ _ _ _ _) as [[a|e|why] w']; exact Ht.
  - intros r w' Hw. assert (∃ loc', Ok loc = Ok loc' ∧ only_node (kl_CacheNode loc') (w_nodes w) (w_nodes w')) as Hex by by exists loc.
    destruct r; right; by split.
Qed.
End nodes.

(** ** Properties *)

(** Flags may come before and after the arguments.  A command line is accepted
    exactly when it can be read from left to right, each token being an argument, a
    flag carrying its value, a boolean flag, a flag whose value is the next token
    whatever it looks like, or the end of the flags; the settings and the arguments
    are those of that reading, in order, and nothing is ever taken for an argument
    that is an unknown flag. *)
Theorem parseArgs_iff fs args set pos : parseArgs fs args = Ok (set, pos) ↔ reads fs args set pos.
Proof. split; [by apply (reads_complete fs (length args))|apply reads_sound]. Qed.

(** An invalidation happens only when it was asked for.  Whatever the arguments,
    the configuration and the cache, either the command changes no node, or the
    arguments read as one key, settings that leave the dry run off and a loaded
    configuration that locates the key, and then no node changes but the one the
    command reports the key on. *)
Theorem invalidateCmd_only_asked {R} `{Redis R} ToLower sha256_16 loaded ping now nowMillis i args (nodes : gmap string R) :
  let nodes' := (invalidateCmd ToLower sha256_16 loaded ping now nowMillis i args nodes).2 in
  nodes' = nodes ∨
  ∃ set key c loc, reads invalidate_flags args set [key] ∧ bool_flag set "dry-run" = false ∧
    loaded (string_flag set "config" "") = Ok c ∧ ctl_Locate ToLower sha256_16 c key = Ok loc ∧
    only_node (kl_CacheNode loc) nodes nodes'.
Proof.
  match goal with |- let n := (?m nodes).2 in @?Q n => change (wp m (λ _, Q) nodes) end.
  unfold invalidateCmd. apply wp_bind, wp_lift. destruct (parseArgs invalidate_flags args) as [[set rest]|e|why] eqn:Hargs; [|by left..].
  destruct rest as [|key [|]]; [by left| |by left]. apply wp_bind, wp_lift.
  destruct (loaded _) as [c|e|why] eqn:Hc; [|by left..]. case_bool_decide as Hnone; [by left|].
  apply wp_bind. unfold wp at 1, with_client. destruct (openCache c now ping) as [[cl g]|e|why] eqn:Ho; [|by left..].
  pose proof (Invalidate_only ToLower sha256_16 cl i nowMillis c key (bool_flag set "dry-run") (mkWorld nodes g)
    (λ loc Hl, tool_pool _ _ _ _ _ _ _ _ _ Ho Hl)) as Hw.
  unfold wp in Hw. destruct (ctl_Invalidate _ _ _ _ _ _ _ _ _) as [r w']. cbn [fst snd w_nodes] in *.
  assert (w_nodes w' = nodes ∨ ∃ set key c loc, reads invalidate_flags args set [key] ∧ bool_flag set "dry-run" = false ∧
    loaded (string_flag set "config" "") = Ok c ∧ ctl_Locate ToLower sha256_16 c key = Ok loc ∧
    only_node (kl_CacheNode loc) nodes (w_nodes w')) as Hgoal; [|by destruct r].
  destruct Hw as [Hw|(Hd & loc & Hl & Hw)]; [by left|right]. exists set, key, c, loc.
  split_and!; [by apply (reads_complete _ (length args))|done..|done].
Qed.

(** ** What a run of the tool can change *)

Section run.
Context (ToLower sha256_16 : string → string) (loaded : string → result Config) (ping : string → result unit).
Context {R : Type} `{Redis R}.
Context (declared : string → result (bool * list cfg_Shard)).

Definition same_nodes {A} (m : M (cli (R:=R)) A) : Prop := ∀ w, cli_nodes (m w).2 = cli_nodes w.
Definition same_files {A} (m : M (cli (R:=R)) A) : Prop := ∀ w, cli_files (m w).2 = cli_files w.

Lemma emitted_state {A} float_text error_text json mk (m : M (cli (R:=R)) (A * bool)) w :
  (emitted float_text error_text json mk m w).2 = (m w).2.
Proof.
  unfold emitted, mbind, M_bind. destruct (m w) as [[[a j]|e|why] w']; [|done..].
  unfold M_lift. by destruct (emit _ _ _ _ _).
Qed.

Lemma on_nodes_files {A} (m : M (gmap string R) A) : same_files (on_nodes m).
Proof. intros w. unfold on_nodes. by destruct (m (cli_nodes w)). Qed.

Lemma on_files_nodes {A} (m : M (gmap string string) A) : same_nodes (on_files m).
Proof. intros w. unfold on_files. by destruct (m (cli_files w)). Qed.

(** The file a migration rewrites in place, and what it is left as. *)
Definition migrates (args : list string) (files files' : gmap string string) (done : Prop) : Prop :=
  ∃ set pos path, reads migrate_flags args set pos ∧ path = string_flag set "config" "" ∧ path ≠ "" ∧ bool_flag set "w" = true ∧
    (∀ q, q ≠ path → files' !! q = files !! q) ∧
    ∃ src more, files !! path = Some src ∧ (done → files' !! path = Some (src +:+ more)).

Lemma Migrate_extends src declares shards out : Migrate src declares shards = Ok out → ∃ more, out = src +:+ more.
Proof.
  unfold Migrate. destruct declares; [done|]. case_bool_decide; [done|]. destruct (existsb _ _); [done|]. intros [= <-]. by eexists.
Qed.

Lemma migrateCmd_spec fio args files :
  wp (migrateCmd declared fio args) (λ r files', files' = files ∨ migrates args files files' (is_ok r = true)) files.
Proof.
  unfold migrateCmd. apply wp_bind, wp_lift. destruct (parseArgs migrate_flags args) as [[set rest]|e|why] eqn:Hargs; [|by left..].
  case_bool_decide as Hp; [by left|]. apply wp_bind, wp_get, wp_bind, wp_lift. unfold ReadFile.
  destruct (fi_read fio) as [e|]; [by left|]. destruct (files !! string_flag set "config" "") as [src|] eqn:Ef; [|by left].
  apply wp_bind, wp_lift. destruct (declared src) as [[d sh]|e|why]; [|by left..]. apply wp_bind, wp_lift.
  destruct (Migrate src d sh) as [out|e|why] eqn:Hm; [|by left..]. destruct (Migrate_extends _ _ _ _ Hm) as [more ->].
  destruct (bool_flag set "w") eqn:Hw; [|by left]. cbn [negb].
  assert (∀ data done', (done' → data = src +:+ more) → migrates args files (<[string_flag set "config" "" := data]> files) done') as Hmig.
  { intros data done' Hd. exists set, rest, (string_flag set "config" "").
    split_and!; [by apply (reads_complete _ (length args))|done..|intros q Hq; by rewrite lookup_insert_ne|].
    exists src, more. split; [done|]. intros Hok. by rewrite lookup_insert_eq, (Hd Hok). }
  destruct (fi_stat fio); [by left|]. destruct (fi_write fio) as [[n e]|]; right; apply Hmig; done.
Qed.

Definition run_changes (args : list string) (w : cli (R:=R)) (r : result string) (w' : cli (R:=R)) : Prop :=
  (cli_files w' = cli_files w ∨
   ∃ rest, args = "config" :: "migrate" :: rest ∧ migrates rest (cli_files w) (cli_files w') (is_ok r = true)) ∧
  (cli_nodes w' = cli_nodes w ∨ ∃ name rest, args = name :: rest ∧ name ∈ ["inspect"; "invalidate"]).

Lemma run_still args (m : M (cli (R:=R)) string) w : (m w).2 = w → wp m (run_changes args w) w.
Proof. unfold wp. intros ->. split; by left. Qed.

Lemma run_nodes {A} float_text error_text json mk (m : M (gmap string R) (A * bool)) name rest w : name ∈ ["inspect"; "invalidate"] →
  wp (emitted float_text error_text json mk (on_nodes m)) (run_changes (name :: rest) w) w.
Proof.
  intros Hn. unfold wp. rewrite emitted_state. split; [left; apply on_nodes_files|right]. by exists name, rest.
Qed.

Lemma run_files fio rest w : wp (on_files (migrateCmd declared fio rest)) (run_changes ("config" :: "migrate" :: rest) w) w.
Proof.
  unfold wp. split; [|left; apply on_files_nodes]. pose proof (migrateCmd_spec fio rest (cli_files w)) as Hm. unfold wp, on_files in *.
  destruct (migrateCmd declared fio rest (cli_files w)) as [r f]. cbn in *. destruct Hm as [->|Hm]; [by left|right]. by exists rest.
Qed.
End run.

