(* ===== verification/Server.v ===== *)
(** The listening side of the engine process: [src/internal/engine/server.go].

    A host is a file system, of which only sockets matter here, and the addresses
    bound on the network.  The fate of each call to the operating system is an
    argument.  The gRPC server is a library: what its calls answer is an argument
    too. *)

From S2P Require Import Prelude GoStd Floats Hlc Regexp Config.

Local Open Scope Z_scope.

(** ** The host *)

(** A file that is no socket, or a socket some process listens on or none does. *)
Inductive host_file := OtherFile | SocketFile (listening : bool).

Record host := mkHost { h_files : gmap string host_file; h_bound : gset string }.

(** The fate of the calls made for one address: an error they fail with, whether a
    probe of a listening process gets through, and the address the system binds
    when it is asked for any port. *)
Record bind_io := mkBindIO {
  b_stat : option error;
  b_probe : bool;
  b_remove : option error;
  b_listen : option error;
  b_port : string;
}.

(** A bound listener: its network and the address bound. *)
Record net_listener := mkNetListener { nl_Network : string; nl_Addr : string }.

Definition set_file (path : string) (f : option host_file) (h : host) : host :=
  mkHost (match f with Some f => <[path := f]> (h_files h) | None => delete path (h_files h) end) (h_bound h).

(** [net.ListenConfig.Listen]. *)
Definition net_Listen (spec : Listener) (io : bind_io) : M host net_listener :=
  h ← M_get;
  match b_listen io with
  | Some e => M_fail e
  | None =>
      if bool_decide (ln_Network spec = "unix") then
        match h_files h !! ln_Address spec with
        | Some _ => M_fail (Errorf "bind: address already in use")
        | None =>
            M_put (set_file (ln_Address spec) (Some (SocketFile true)) h);;
            mret (mkNetListener (ln_Network spec) (ln_Address spec))
        end
      else if bool_decide (b_port io ∈ h_bound h) then M_fail (Errorf "bind: address already in use")
      else
        M_put (mkHost (h_files h) ({[b_port io]} ∪ h_bound h));;
        mret (mkNetListener (ln_Network spec) (b_port io))
  end.

(** [net.Listener.Close], which unlinks the file of a socket. *)
Definition close_listener (l : net_listener) (h : host) : host :=
  if bool_decide (nl_Network l = "unix") then set_file (nl_Addr l) None h
  else mkHost (h_files h) (h_bound h ∖ {[nl_Addr l]}).

(** ** A stale socket *)

Definition removeStaleSocket (path : string) (io : bind_io) : M host unit :=
  h ← M_get;
  match b_stat io, h_files h !! path with
  | Some e, _ => M_fail (Wrapf "engine: stat socket" e)
  | None, None => mret tt
  | None, Some OtherFile => M_fail (Errorf "engine: exists and is not a socket")
  | None, Some (SocketFile listening) =>
      if listening && b_probe io then M_fail (Errorf "engine: is already in use by a running process")
      else
        match b_remove io with
        | Some e => M_fail (Wrapf "engine: remove stale socket" e)
        | None => M_put (set_file path None h)
        end
  end.

(** ** Binding *)

Record ServerOptions := mkServerOptions { so_Listen : list string; so_DrainTimeout : Z }.
Record Server := mkServer { sv_listeners : list net_listener; sv_drainTimeout : Z; sv_v2 : bool }.

(** What is served: nothing, a service that only speaks v1, or the engine. *)
Inductive service := NilService | StubService | EngineService.

Definition closeAll (listeners : list net_listener) : M host unit := M_modify (λ h, foldl (λ h l, close_listener l h) h listeners).

(** On an error close what was bound so far and report it. *)
Definition or_close {A B} (listeners : list net_listener) (m : M host A) (k : A → M host B) : M host B :=
  r ← M_try m;
  match r with
  | inr e => closeAll listeners;; M_fail e
  | inl a => k a
  end.

Fixpoint bind_all (linux : bool) (raws : list string) (ios : nat → bind_io) (n : nat) (listeners : list net_listener) :
    M host (list net_listener) :=
  match raws with
  | [] => mret listeners
  | raw :: raws =>
      or_close listeners (M_lift (ParseListen linux raw)) (λ spec,
      or_close listeners (if bool_decide (ln_Network spec = "unix") then removeStaleSocket (ln_Address spec) (ios n) else mret tt) (λ _,
      or_close listeners (λ h, match net_Listen spec (ios n) h with
                               | (Err e, h) => (Err (Wrapf "engine: listen" e), h)
                               | r => r
                               end) (λ l,
      bind_all linux raws ios (S n) (listeners ++ [l]))))
  end.

Definition NewServer (linux : bool) (svc : service) (opts : ServerOptions) (ios : nat → bind_io) : M host Server :=
  match svc with
  | NilService => M_fail (Errorf "engine: nil service")
  | _ =>
      if bool_decide (so_Listen opts = []) then M_fail (Errorf "engine: no listen addresses")
      else if so_DrainTimeout opts <=? 0 then M_fail (Errorf "engine: drain timeout must be positive")
      else
        listeners ← bind_all linux (so_Listen opts) ios 0 [];
        mret (mkServer listeners (so_DrainTimeout opts) (match svc with EngineService => true | _ => false end))
  end.

Definition Server_Addrs (s : Server) : list string := nl_Addr <$> sv_listeners s.

(** ** Serving and shutting down *)

(** A request in flight when shutdown begins: how long it still needs. *)
Inductive request_end := Finished | CutOff.

(** Requests in flight are let finish for the drain timeout; then the rest is
    stopped.  The flag is whether the server drained by itself; [tie] is what a
    request ending exactly at the timeout sees. *)
Definition shutdown (s : Server) (tie : bool) (in_flight : list Z) : bool * list request_end :=
  let in_time d := (d <? sv_drainTimeout s) || (tie && (d =? sv_drainTimeout s)) in
  let clean := forallb in_time in_flight in
  (clean, (λ d, if clean || in_time d then Finished else CutOff) <$> in_flight).

(** How serving one listener ended. *)
Inductive serve_end := ServeReturned | ServerStopped | ServeFailed (e : error).

Definition listener_error (o : serve_end) : option error :=
  match o with ServeFailed e => Some (Wrapf "engine: serve" e) | _ => None end.

(** [Serve]: [ends] are the listeners in the order they ended, [cancelled] the error
    of the context, which is set unless a listener failed first. *)
Definition Server_Serve (ends : list serve_end) (cancelled : option error) : option error :=
  match omap listener_error ends with
  | e :: _ => Some e
  | [] => cancelled
  end.
