(* ===== verification/ServerSpec.v ===== *)
(** Binding is all or nothing, takes no address from anybody, and works again after
    a crash. *)

From S2P Require Import Prelude GoStd Floats Hlc Regexp Schema Table Config ConfigSpec Server.

Local Open Scope Z_scope.

(** ** What a host looks like while listeners are being bound *)

Definition is_unix (l : net_listener) : bool := bool_decide (nl_Network l = "unix").
Definition socket_paths (ls : list net_listener) : list string := nl_Addr <$> List.filter is_unix ls.
Definition ports (ls : list net_listener) : list string := nl_Addr <$> List.filter (λ l, negb (is_unix l)) ls.

(** A path nobody listens on. *)
Definition free_path (h : host) (path : string) : Prop :=
  h_files h !! path = None ∨ h_files h !! path = Some (SocketFile false).

(** At most stale sockets are gone. *)
Definition swept (h h' : host) (path : string) : Prop :=
  h_files h' !! path = h_files h !! path ∨ h_files h !! path = Some (SocketFile false) ∧ h_files h' !! path = None.

(** [h'] is [h] with these listeners. *)
Record bound_on (h : host) (ls : list net_listener) (h' : host) : Prop := {
  bo_paths : ∀ path, path ∈ socket_paths ls → h_files h' !! path = Some (SocketFile true) ∧ free_path h path;
  bo_others : ∀ path, path ∉ socket_paths ls → swept h h' path;
  bo_ports : h_bound h' = h_bound h ∪ list_to_set (ports ls);
  bo_taken : ∀ a, a ∈ ports ls → a ∉ h_bound h;
  bo_paths_once : NoDup (socket_paths ls);
  bo_ports_once : NoDup (ports ls);
}.

(** Probes get through to whoever listens. *)
Definition truthful (ios : nat → bind_io) : Prop := ∀ n, b_probe (ios n) = true.

(** ** Lemmas *)

Lemma bound_on_refl h : bound_on h [] h.
Proof.
  split; [|by left|cbn; set_solver|..|constructor|constructor]; cbn; intros a Ha; by apply not_elem_of_nil in Ha.
Qed.

Lemma socket_paths_app ls l : socket_paths (ls ++ [l]) = socket_paths ls ++ (if is_unix l then [nl_Addr l] else []).
Proof. unfold socket_paths. rewrite List.filter_app, fmap_app. f_equal. cbn. by destruct (is_unix l). Qed.

Lemma ports_app ls l : ports (ls ++ [l]) = ports ls ++ (if is_unix l then [] else [nl_Addr l]).
Proof. unfold ports. rewrite List.filter_app, fmap_app. f_equal. cbn. by destruct (is_unix l). Qed.

Lemma socket_paths_cons l ls : socket_paths (l :: ls) = (if is_unix l then [nl_Addr l] else []) ++ socket_paths ls.
Proof. unfold socket_paths. cbn. by destruct (is_unix l). Qed.

Lemma ports_cons l ls : ports (l :: ls) = (if is_unix l then [] else [nl_Addr l]) ++ ports ls.
Proof. unfold ports. cbn. by destruct (is_unix l). Qed.

Lemma socket_paths_cons' l ls : socket_paths ([l] ++ ls) = socket_paths [l] ++ socket_paths ls.
Proof. cbn [app]. rewrite !socket_paths_cons. by rewrite app_nil_r. Qed.

Lemma ports_cons' l ls : ports ([l] ++ ls) = ports [l] ++ ports ls.
Proof. cbn [app]. rewrite !ports_cons. by rewrite app_nil_r. Qed.

Lemma close_listeners ls h :
  let h' := foldl (λ h l, close_listener l h) h ls in
  (∀ path, h_files h' !! path = if bool_decide (path ∈ socket_paths ls) then None else h_files h !! path) ∧
  h_bound h' = h_bound h ∖ list_to_set (ports ls).
Proof.
  cbv zeta. revert h. induction ls as [|l ls IH]; intros h; cbn [foldl].
  - split; [|cbn; set_solver]. intros path. by rewrite bool_decide_eq_false_2 by apply not_elem_of_nil.
  - destruct (IH (close_listener l h)) as [IHf IHb]. rewrite socket_paths_cons, ports_cons. split.
    + intros path. rewrite IHf. unfold close_listener, is_unix. destruct (bool_decide (nl_Network l = "unix")); cbn [set_file h_files app].
      * destruct (decide (path = nl_Addr l)) as [->|Hne].
        -- rewrite lookup_delete_eq, (bool_decide_eq_true_2 (nl_Addr l ∈ _ :: _)) by by left. by case_bool_decide.
        -- rewrite lookup_delete_ne by done. erewrite (bool_decide_ext (path ∈ _ :: _)); [done|]. rewrite elem_of_cons. tauto.
      * done.
    + rewrite IHb. unfold close_listener, is_unix. clear IHf IHb. case_bool_decide; cbn [set_file h_bound app list_to_set]; set_solver.
Qed.

(** Closing what was bound leaves the host as it was, but for stale sockets. *)
Lemma bound_closed h ls h' : bound_on h ls h' →
  let h'' := foldl (λ h l, close_listener l h) h' ls in h_bound h'' = h_bound h ∧ ∀ path, swept h h'' path.
Proof.
  intros Hb. cbv zeta. destruct (close_listeners ls h') as [Hf Hbd]. split.
  - rewrite Hbd, (bo_ports _ _ _ Hb). pose proof (bo_taken _ _ _ Hb) as Ht. apply set_eq. intros a.
    rewrite elem_of_difference, elem_of_union, elem_of_list_to_set. split; [tauto|]. intros Ha. split; [by left|]. intros Hin. by apply (Ht a).
  - intros path. unfold swept. rewrite Hf. case_bool_decide as Hin; [|by apply (bo_others _ _ _ Hb)].
    destruct (bo_paths _ _ _ Hb path Hin) as [_ [->| ->]]; [by left|by right].
Qed.

Lemma removeStaleSocket_spec path io h : b_probe io = true →
  wp (removeStaleSocket path io) (λ r h', match r with
    | Ok _ => h_files h' !! path = None ∧ free_path h path ∧ h_bound h' = h_bound h ∧ ∀ q, q ≠ path → h_files h' !! q = h_files h !! q
    | Err _ => h' = h
    | Panic _ => False
    end) h.
Proof.
  intros Hp. unfold wp, removeStaleSocket, M_get, mbind, M_bind, free_path. cbn [fst snd].
  destruct (b_stat io) as [e|]; [done|]. destruct (h_files h !! path) as [[|l]|] eqn:Ef; [done| |by split_and!; [|left|..]].
  rewrite Hp, andb_true_r. destruct l; [done|]. destruct (b_remove io) as [e|]; [done|]. cbn.
  split_and!; [apply lookup_delete_eq|by right|done|]. intros q Hq. by rewrite lookup_delete_ne.
Qed.

(** A path that was swept and is free was free. *)
Lemma swept_free h h' path : swept h h' path → free_path h' path → free_path h path.
Proof. unfold swept, free_path. intros [->|[H _]] Hf; [done|by right]. Qed.

Definition after_bind (h : host) (ls : list net_listener) (spec : Listener) (io : bind_io) (r : result net_listener) (h' : host) : Prop :=
  match r with
  | Ok l => bound_on h (ls ++ [l]) h' ∧ nl_Network l = ln_Network spec ∧ nl_Addr l = (if is_unix l then ln_Address spec else b_port io)
  | Err _ => h_bound h' = h_bound h ∧ ∀ path, swept h h' path
  | Panic _ => False
  end.

Definition listen_wrapped (spec : Listener) (io : bind_io) : M host net_listener := λ h,
  match net_Listen spec io h with (Err e, h) => (Err (Wrapf "engine: listen" e), h) | r => r end.

Lemma listen_one h ls h1 spec io : bound_on h ls h1 →
  (ln_Network spec = "unix" → h_files h1 !! ln_Address spec = None ∧ free_path h (ln_Address spec) ∧ ln_Address spec ∉ socket_paths ls) →
  wp (or_close ls (listen_wrapped spec io) mret) (after_bind h ls spec io) h1.
Proof.
  intros Hb Hfree. apply wp_bind, wp_try. unfold wp at 1, listen_wrapped, net_Listen, M_get, mbind, M_bind.
  destruct (b_listen io) as [e|]; [exact (bound_closed _ _ _ Hb)|]. case_bool_decide as Hu.
  - destruct (Hfree Hu) as (Hnone & Hfp & Hnin). rewrite Hnone. cbn.
    set (l := mkNetListener (ln_Network spec) (ln_Address spec)).
    assert (is_unix l = true) as Hiu by by apply bool_decide_eq_true_2. split; [|by rewrite Hiu].
    split; rewrite ?socket_paths_app, ?ports_app, Hiu, ?app_nil_r; [| |by apply Hb..| |by apply Hb].
    + intros path [Hin|Heq%list_elem_of_singleton]%elem_of_app; cbn.
      * rewrite lookup_insert_ne by (intros Heq; apply Hnin; by rewrite Heq). by apply Hb.
      * subst path. by rewrite lookup_insert_eq.
    + intros path [Hn1 Hn2]%not_elem_of_app. unfold swept. cbn.
      rewrite lookup_insert_ne by (intros Heq; apply Hn2; rewrite <-Heq; apply list_elem_of_here). by apply Hb.
    + apply NoDup_app. split; [apply Hb|]. split; [|apply NoDup_singleton]. intros x Hx ->%list_elem_of_singleton. done.
  - case_bool_decide as Hin; [exact (bound_closed _ _ _ Hb)|]. cbn.
    set (l := mkNetListener (ln_Network spec) (b_port io)).
    assert (is_unix l = false) as Hiu by by apply bool_decide_eq_false_2. split; [|by rewrite Hiu].
    rewrite (bo_ports _ _ _ Hb), not_elem_of_union, elem_of_list_to_set in Hin. destruct Hin as [Hin1 Hin2].
    split; rewrite ?socket_paths_app, ?ports_app, Hiu, ?app_nil_r; [by apply Hb..| | |by apply Hb|].
    + cbn. rewrite (bo_ports _ _ _ Hb), list_to_set_app_L. cbn. clear. set_solver.
    + intros a [Ha|Ha%list_elem_of_singleton]%elem_of_app; [by apply (bo_taken _ _ _ Hb)|by subst a].
    + apply NoDup_app. split; [apply Hb|]. split; [|apply NoDup_singleton]. intros x Hx ->%list_elem_of_singleton. done.
Qed.

(** One more address bound. *)
Lemma bound_one h ls h0 spec io : bound_on h ls h0 → b_probe io = true →
  wp (or_close ls (if bool_decide (ln_Network spec = "unix") then removeStaleSocket (ln_Address spec) io else mret tt) (λ _,
      or_close ls (listen_wrapped spec io) mret)) (after_bind h ls spec io) h0.
Proof.
  intros Hb Hp. unfold or_close at 1. apply wp_bind, wp_try.
  case_bool_decide as Hu; [|by apply wp_ret, listen_one].
  eapply wp_mono; [by apply removeStaleSocket_spec|]. intros r h1 Hr. destruct r as [[]|e|why]; [|subst h1; exact (bound_closed _ _ _ Hb)|done].
  destruct Hr as (Hnone & Hfree & Hbd & Hq).
  assert (ln_Address spec ∉ socket_paths ls) as Hnin.
  { intros Hin. destruct (bo_paths _ _ _ Hb _ Hin) as [Ht _]. destruct Hfree; congruence. }
  pose proof (bo_others _ _ _ Hb _ Hnin) as Hsw. apply listen_one; [|intros _; split_and!; [done|by apply (swept_free h h0)|done]].
  split; [| |by rewrite Hbd; apply Hb|apply Hb..].
  - intros path Hin. rewrite Hq by (intros ->; done). by apply Hb.
  - intros path Hn. destruct (decide (path = ln_Address spec)) as [->|Hne].
    + unfold swept in *. rewrite Hnone. destruct Hsw as [Heq|[? _]]; [|by right]. unfold free_path in Hfree. rewrite Heq in Hfree.
      destruct Hfree as [Hf|Hf]; [left; by rewrite Hf|by right].
    + unfold swept. rewrite Hq by done. by apply Hb.
Qed.

(** *** The whole list *)

(** The listeners bound for a list of addresses, from the [n]th on. *)
Inductive serves (linux : bool) (ios : nat → bind_io) : nat → list string → list net_listener → Prop :=
  | serves_nil n : serves linux ios n [] []
  | serves_cons n raw raws spec l ls : ParseListen linux raw = Ok spec →
      nl_Network l = ln_Network spec → nl_Addr l = (if is_unix l then ln_Address spec else b_port (ios n)) →
      serves linux ios (S n) raws ls → serves linux ios n (raw :: raws) (l :: ls).

Lemma bind_all_cons linux raw raws ios n ls h :
  bind_all linux (raw :: raws) ios n ls h =
  or_close ls (M_lift (ParseListen linux raw)) (λ spec,
    l ← or_close ls (if bool_decide (ln_Network spec = "unix") then removeStaleSocket (ln_Address spec) (ios n) else mret tt) (λ _,
          or_close ls (listen_wrapped spec (ios n)) mret);
    bind_all linux raws ios (S n) (ls ++ [l])) h.
Proof.
  cbn [bind_all]. unfold or_close at 1 4, M_try, M_lift, mbind, M_bind. destruct (ParseListen linux raw) as [spec|e|why]; [|done..].
  unfold or_close, M_try, mbind, M_bind, listen_wrapped.
  destruct (bool_decide (ln_Network spec = "unix")).
  - destruct (removeStaleSocket (ln_Address spec) (ios n) h) as [[[]|e|why] h1]; [|done..].
    by destruct (net_Listen spec (ios n) h1) as [[l|e|why] h2].
  - unfold mret, M_ret. by destruct (net_Listen spec (ios n) h) as [[l|e|why] h2].
Qed.

Lemma wp_conv {S A} (m m' : M S A) Q s : m s = m' s → wp m' Q s → wp m Q s.
Proof. unfold wp. by intros ->. Qed.

Lemma ParseListen_no_panic linux raw why : ParseListen linux raw ≠ Panic why.
Proof.
  unfold ParseListen. destruct (cut_str raw "://") as [[scheme rest]|]; [|done]. case_ifs; done.
Qed.

Lemma bind_all_spec linux ios h raws : truthful ios → ∀ n ls h0, bound_on h ls h0 →
  wp (bind_all linux raws ios n ls) (λ r h', match r with
    | Ok out => ∃ more, out = ls ++ more ∧ serves linux ios n raws more ∧ bound_on h out h'
    | Err _ => h_bound h' = h_bound h ∧ ∀ path, swept h h' path
    | Panic _ => False
    end) h0.
Proof.
  intros Ht. induction raws as [|raw raws IH]; intros n ls h0 Hb.
  { apply wp_ret. exists []. rewrite app_nil_r. split_and!; [done|constructor|done]. }
  eapply wp_conv; [apply bind_all_cons|]. unfold or_close at 1. apply wp_bind, wp_try, wp_lift.
  pose proof (ParseListen_no_panic linux raw) as Hnp. destruct (ParseListen linux raw) as [spec|e|why] eqn:Hp;
    [|exact (bound_closed _ _ _ Hb)|by destruct (Hnp why)].
  apply wp_bind. eapply wp_mono; [by apply (bound_one h)|]. intros r h1 Hr. destruct r as [l|e|why]; [|exact Hr..].
  destruct Hr as (Hb1 & Hn & Ha). eapply wp_mono; [by apply IH|]. intros r h2 Hr. destruct r as [out|e|why]; [|done..].
  destruct Hr as (more & -> & Hs & Hb2). exists (l :: more). rewrite <-app_assoc in *. split_and!; [done| |done].
  by eapply serves_cons.
Qed.

(** *** A host where nothing is in the way *)

(** No call fails, and the system binds the ports it bound before. *)
Definition quiet (ios ios' : nat → bind_io) : Prop :=
  ∀ n, b_stat (ios' n) = None ∧ b_remove (ios' n) = None ∧ b_listen (ios' n) = None ∧ b_port (ios' n) = b_port (ios n).

Lemma bind_ready spec io l h : b_stat io = None → b_remove io = None → b_listen io = None →
  nl_Network l = ln_Network spec → nl_Addr l = (if is_unix l then ln_Address spec else b_port io) →
  (∀ path, path ∈ socket_paths [l] → free_path h path) → (∀ a, a ∈ ports [l] → a ∉ h_bound h) →
  ∃ h', (∀ path, path ∉ socket_paths [l] → h_files h' !! path = h_files h !! path) ∧ h_bound h' = h_bound h ∪ list_to_set (ports [l]) ∧
    ∀ ls, (or_close ls (if bool_decide (ln_Network spec = "unix") then removeStaleSocket (ln_Address spec) io else mret tt) (λ _,
           or_close ls (listen_wrapped spec io) mret)) h = (Ok l, h').
Proof.
  destruct l as [net addr]. cbn. intros Hs Hr Hl -> -> Hp Ha. unfold socket_paths, ports, is_unix in *. cbn in *.
  unfold or_close, M_try, listen_wrapped, net_Listen, removeStaleSocket, M_get, mbind, M_bind. rewrite Hs, Hr, Hl.
  case_bool_decide as Hu; cbn in *.
  - destruct (Hp (ln_Address spec)) as [Hf|Hf]; [by left|..]; rewrite Hf; cbn; rewrite ?Hf, ?lookup_delete_eq; eexists; (split_and!; [..|intros ls; reflexivity]);
      cbn; try set_solver; intros path Hn; rewrite lookup_insert_ne by set_solver; [done|by rewrite lookup_delete_ne by set_solver].
  - rewrite bool_decide_eq_false_2 by (apply Ha; by left). eexists. split_and!; [..|intros ls; reflexivity]; cbn; [done|set_solver].
Qed.

Lemma bind_all_ready linux ios ios' n raws more : serves linux ios n raws more → quiet ios ios' → ∀ ls h,
  (∀ path, path ∈ socket_paths more → free_path h path) → NoDup (socket_paths more) →
  (∀ a, a ∈ ports more → a ∉ h_bound h) → NoDup (ports more) →
  ∃ h', bind_all linux raws ios' n ls h = (Ok (ls ++ more), h').
Proof.
  intros Hs Hq. induction Hs as [n|n raw raws spec l more Hp Hn Ha _ IH]; intros ls h Hpath Hnd Hport Hnd'.
  { exists h. by rewrite app_nil_r. }
  rewrite bind_all_cons. unfold or_close at 1, M_try, M_lift, mbind at 1, M_bind at 1. rewrite Hp.
  change (socket_paths (l :: more)) with (socket_paths ([l] ++ more)) in *. change (ports (l :: more)) with (ports ([l] ++ more)) in *.
  rewrite socket_paths_cons' in Hpath, Hnd. rewrite ports_cons' in Hport, Hnd'.
  apply NoDup_app in Hnd as (_ & Hnd1 & Hnd2). apply NoDup_app in Hnd' as (_ & Hnd1' & Hnd2').
  destruct (Hq n) as (Hq1 & Hq2 & Hq3 & Hq4).
  destruct (bind_ready spec (ios' n) l h Hq1 Hq2 Hq3 Hn) as (h1 & Hf & Hb & Hrun).
  { by rewrite Hq4. } { intros path Hin. apply Hpath, elem_of_app. by left. } { intros a Hin. apply Hport, elem_of_app. by left. }
  rewrite (M_bind_run _ _ _ _ _ (Hrun ls)). destruct (IH (ls ++ [l]) h1) as [h2 Hh2]; [..|done| |done|].
  - intros path Hin. unfold free_path. rewrite Hf by (intros Hin'; by apply (Hnd1 path)). apply Hpath, elem_of_app. by right.
  - intros a Hin. rewrite Hb, not_elem_of_union, elem_of_list_to_set. split; [apply Hport, elem_of_app; by right|]. intros Hin'. by apply (Hnd1' a).
  - exists h2. by rewrite Hh2, <-app_assoc.
Qed.

Lemma serves_total linux ios raws n : Forall (listen_ok linux) raws → ∃ ls, serves linux ios n raws ls.
Proof.
  intros H. revert n. induction H as [|raw raws (network & address & Hraw) _ IH]; intros n; [exists []; constructor|].
  destruct (IH (S n)) as [ls Hls].
  exists (mkNetListener network (if bool_decide (network = "unix") then address else b_port (ios n)) :: ls).
  eapply serves_cons; [by apply ParseListen_iff|done|done|done].
Qed.

(** *** A crash *)

(** What a process killed leaves of its listeners: the files of its sockets. *)
Definition host_crash (ls : list net_listener) (h : host) : host :=
  mkHost (foldr (λ path m, <[path := SocketFile false]> m) (h_files h) (socket_paths ls)) (h_bound h ∖ list_to_set (ports ls)).

Lemma crash_frees ls h path : path ∈ socket_paths ls → free_path (host_crash ls h) path.
Proof.
  intros Hin. right. cbn. induction (socket_paths ls) as [|q ps IH]; [by apply not_elem_of_nil in Hin|]. cbn.
  destruct (decide (path = q)) as [->|Hne]; [apply lookup_insert_eq|]. rewrite lookup_insert_ne by done.
  apply IH. by apply elem_of_cons in Hin as [?|?].
Qed.

(** ** Properties *)


(** A validated configuration can be served: its addresses all parse to
    listeners, and on a host where nobody listens on them, none is asked for twice
    and no call fails, the engine binds them. *)
Theorem NewServer_validated linux ToUpper ToLower sha256_16 (c : Config) ios h
    (Hc : Config_Validate linux ToUpper ToLower sha256_16 c = Ok tt) (Hq : quiet ios ios) :
  ∃ ls, serves linux ios 0 (cf_Listen c) ls ∧
    ((∀ path, path ∈ socket_paths ls → free_path h path) → NoDup (socket_paths ls) →
     (∀ a, a ∈ ports ls → a ∉ h_bound h) → NoDup (ports ls) →
     ∃ h', NewServer linux EngineService (mkServerOptions (cf_Listen c) (cf_DrainTimeout c)) ios h =
       (Ok (mkServer ls (cf_DrainTimeout c) true), h')).
Proof.
  apply validate_rules in Hc. destruct (ok_listen _ _ _ _ _ Hc) as [Hne Hall].
  destruct (serves_total linux ios (cf_Listen c) 0 Hall) as [ls Hs]. exists ls. split; [done|]. intros Hp Hnd Ha Hnd'.
  destruct (bind_all_ready linux ios ios 0 _ ls Hs Hq [] h Hp Hnd Ha Hnd') as [h' Hh']. exists h'. unfold NewServer. cbn [so_Listen so_DrainTimeout].
  rewrite bool_decide_eq_false_2 by done. destruct (Z.leb_spec (cf_DrainTimeout c) 0) as [Hd|Hd]; [pose proof (ok_drain _ _ _ _ _ Hc); lia|].
  by rewrite (M_bind_run _ _ _ _ _ Hh').
Qed.

(** A process that was killed comes back: with the sockets it left behind the
    same addresses are bound again by the next start, if the system lets it. *)
Theorem NewServer_after_crash linux svc opts ios ios' h s h'
    (Hp : truthful ios) (Hok : NewServer linux svc opts ios h = (Ok s, h')) (Hq : quiet ios ios') :
  ∃ h'', NewServer linux svc opts ios' (host_crash (sv_listeners s) h') = (Ok s, h'').
Proof.
  unfold NewServer in *. destruct svc; [done|..]; (case_bool_decide; [done|]); (destruct (so_DrainTimeout opts <=? 0); [done|]);
    apply M_bind_ok in Hok as (out & h1 & Hall & [= <- <-]);
    pose proof (wp_run _ _ _ _ _ (bind_all_spec linux ios h (so_Listen opts) Hp 0 [] h (bound_on_refl h)) Hall) as (more & -> & Hs & Hb);
    (destruct (bind_all_ready linux ios ios' 0 (so_Listen opts) more Hs Hq [] (host_crash more h1)) as [h2 Hh2];
      [by apply crash_frees|apply Hb|cbn; set_solver|apply Hb|]);
    exists h2; by rewrite (M_bind_run _ _ _ _ _ Hh2).
Qed.

(** ** Witnesses *)

(** A host with a stale socket where the server will listen. *)
Definition demo_host : host := mkHost {["/run/cachet.sock" := SocketFile false; "/etc/passwd" := OtherFile]} {["127.0.0.1:9100"]}.
Definition demo_listen : ServerOptions := mkServerOptions ["unix:///run/cachet.sock"; "tcp://127.0.0.1:9090"] 5000000000.
Definition demo_bind (port : string) : bind_io := mkBindIO None true None None port.
Definition demo_listeners : list net_listener := [mkNetListener "unix" "/run/cachet.sock"; mkNetListener "tcp" "127.0.0.1:9090"].


Lemma NewServer_after_crash_witness :
  ∃ s h', NewServer true EngineService demo_listen (λ _, demo_bind "127.0.0.1:9090") demo_host = (Ok s, h') ∧
    sv_listeners s = demo_listeners ∧
    ∃ h'', NewServer true EngineService demo_listen (λ _, demo_bind "127.0.0.1:9090") (host_crash (sv_listeners s) h') = (Ok s, h'').
Proof.
  destruct (NewServer true EngineService demo_listen (λ _, demo_bind "127.0.0.1:9090") demo_host) as [r h'] eqn:E.
  assert (r = Ok (mkServer demo_listeners 5000000000 true)) as -> by (apply (f_equal fst) in E; cbn [fst] in E; rewrite <-E; vm_compute; reflexivity).
  eexists _, h'. split; [reflexivity|]. split; [reflexivity|].
  apply (NewServer_after_crash true EngineService demo_listen (λ _, demo_bind "127.0.0.1:9090") (λ _, demo_bind "127.0.0.1:9090") demo_host _ h');
    [done|exact E|by intros n].
Defined.

Lemma demo_config_valid : Config_Validate true (λ s, s) (λ s, s) (λ s, s) demo_config = Ok tt.
Proof. vm_compute. reflexivity. Qed.

Lemma NewServer_validated_witness :
  ∃ ls, serves true (λ _, demo_bind "127.0.0.1:9090") 0 (cf_Listen demo_config) ls.
Proof.
  destruct (NewServer_validated true (λ s, s) (λ s, s) (λ s, s) demo_config (λ _, demo_bind "127.0.0.1:9090") demo_host
    demo_config_valid ltac:(by intros n)) as (ls & Hs & _).
  by exists ls.
Defined.
