(* ===== verification/Harness.v ===== *)
(** The benchmark load generator: [src/bench/harness/workload.go], [zipf.go],
    [openloop.go] and [recorder.go].

    Arguments: [math.Pow], whose last bit is the platform's, the draws of
    [math/rand], the readings of the clock, and the histogram, a library.  A run is
    a schedule of jobs and their outcomes: the workers share it and add to counters,
    so only the order of the outcomes depends on them. *)

From S2P Require Import Prelude GoStd Floats Regexp Ring Engine Flags.

Local Open Scope Z_scope.

(** ** Keys *)

Definition KeyFor (id : Z) : string := "entities:" +:+ FormatUint (u64 (id + 1)).

Definition scramble (v : Z) : Z :=
  let v := u64 (v + 0x9E3779B97F4A7C15) in
  let v := u64 (Z.lxor v (Z.shiftr v 30) * 0xBF58476D1CE4E5B9) in
  let v := u64 (Z.lxor v (Z.shiftr v 27) * 0x94D049BB133111EB) in
  Z.lxor v (Z.shiftr v 31).

Record Zipfian := mkZipfian {
  zf_items : Z; zf_alpha : float64; zf_zetan : float64; zf_eta : float64; zf_theta : float64;
}.

Section zipf.
Context (Pow : float64 → float64 → float64).

(** [zeta]: the terms from 1 to [n]. *)
Definition zeta (n : Z) (theta : float64) : float64 :=
  foldl (λ sum i, f_add sum (f_div f_one (Pow (f_of_int i) theta))) f_zero (Z.of_nat <$> seq 1 (Z.to_nat n)).

Definition NewZipfian (items : Z) (theta : float64) : result Zipfian :=
  if items =? 0 then Err (Errorf "harness: zipfian needs at least one item")
  else if f_lt theta f_zero || f_le f_one theta then Err (Errorf "harness: zipfian theta must be in [0,1)")
  else
    let zetan := zeta items theta in
    let zeta2 := zeta 2 theta in
    Ok (mkZipfian items (f_div f_one (f_sub f_one theta)) zetan
          (f_div (f_sub f_one (Pow (f_div (f_of_int 2) (f_of_int items)) (f_sub f_one theta))) (f_sub f_one (f_div zeta2 zetan)))
          theta).

(** The rank of a draw in [0, 1), before it is clamped.  A product past a uint64 is
    left as it is, since it is clamped; the conversion of what is no number or
    infinite is up to the platform in Go, and zero here. *)
Definition Zipfian_rank (z : Zipfian) (u : float64) : Z :=
  let uz := f_mul u (zf_zetan z) in
  if f_lt uz f_one then 0
  else if f_lt uz (f_add f_one (Pow (f_div f_one (f_of_int 2)) (zf_theta z))) then 1
  else f_trunc (f_mul (f_of_int (zf_items z)) (Pow (f_add (f_sub (f_mul (zf_eta z) u) (zf_eta z)) f_one) (zf_alpha z))).

Definition Zipfian_Next (z : Zipfian) (u : float64) : Z :=
  let rank := Zipfian_rank z u in
  let rank := if zf_items z <=? rank then zf_items z - 1 else rank in
  scramble rank mod zf_items z.
End zipf.

(** [rand.Int63n] panics unless its bound is positive; [draw n] is in [0, n). *)
Definition Uniform_Next (items : Z) (draw : Z → Z) : result Z :=
  if i64 items <=? 0 then Panic "invalid argument to Int63n" else Ok (u64 (draw (i64 items))).

Inductive Generator := GenUniform (items : Z) | GenZipfian (z : Zipfian) | GenHot (id : Z).

(** [Next], with what it draws. *)
Definition Generator_Next (Pow : float64 → float64 → float64) (g : Generator) (u : float64) (draw : Z → Z) : result Z :=
  match g with
  | GenUniform items => Uniform_Next items draw
  | GenZipfian z => Ok (Zipfian_Next Pow z u)
  | GenHot id => Ok id
  end.

(** ** Workloads *)

Record Workload := mkWorkload {
  wl_ID : string; wl_Name : string; wl_Distribution : string; wl_Theta : float64; wl_ReadFraction : float64;
  wl_Rows : Z; wl_Rate : Z; wl_Workers : Z; wl_Warmup : Z; wl_Measure : Z; wl_Seed : Z; wl_HotKey : Z;
}.

Definition f_ne (x y : float64) : bool := negb (SFeqb x y).

Definition Workload_validate (w : Workload) : result unit :=
  if bool_decide (TrimSpace (wl_ID w) = "") then Err (Errorf "workload has no id")
  else if wl_Rows w =? 0 then Err (Errorf "workload has no rows")
  else if wl_Rate w <=? 0 then Err (Errorf "workload has no rate")
  else if wl_Workers w <=? 0 then Err (Errorf "workload has no workers")
  else if wl_Measure w <=? 0 then Err (Errorf "workload has no measure window")
  else if f_lt (wl_ReadFraction w) f_zero || f_lt f_one (wl_ReadFraction w) then Err (Errorf "workload has read_fraction, want [0,1]")
  else if bool_decide (wl_Distribution w = "zipfian") then
    if f_le (wl_Theta w) f_zero then Err (Errorf "workload is zipfian but has no theta") else Ok tt
  else if bool_decide (wl_Distribution w ∈ ["uniform"; "hot"]) then
    if f_ne (wl_Theta w) f_zero then Err (Errorf "workload theta is meaningless") else Ok tt
  else Err (Errorf "workload has unknown distribution").

(** [decoded] is the outcome of reading and decoding the file. *)
Definition LoadWorkload (decoded : result Workload) : result Workload :=
  w ← decoded;
  match Workload_validate w with
  | Err e => Err (Wrapf "harness" e)
  | Panic p => Panic p
  | Ok _ => Ok w
  end.

Definition Workload_Generator (Pow : float64 → float64 → float64) (w : Workload) : result Generator :=
  if bool_decide (wl_Distribution w = "uniform") then Ok (GenUniform (wl_Rows w))
  else if bool_decide (wl_Distribution w = "zipfian") then z ← NewZipfian Pow (wl_Rows w) (wl_Theta w); Ok (GenZipfian z)
  else if bool_decide (wl_Distribution w = "hot") then Ok (GenHot (wl_HotKey w))
  else Err (Errorf "harness: unknown distribution").

Record Params := mkParams {
  pm_WarmupSeconds : Z; pm_MeasureSeconds : Z; pm_Rate : Z; pm_Workers : Z; pm_Seed : Z; pm_ZipfTheta : float64;
  pm_Rows : Z; pm_ReadFraction : float64;
}.

(** The conversion of a float64 to an int. *)
Definition f_int (x : float64) : Z :=
  match x with S754_finite true m e => - f_trunc (S754_finite false m e) | _ => f_trunc x end.
Definition whole_seconds (d : Z) : Z := f_int (Duration_Seconds d).

Definition Workload_Params (w : Workload) : Params :=
  mkParams (whole_seconds (wl_Warmup w)) (whole_seconds (wl_Measure w)) (wl_Rate w) (wl_Workers w) (wl_Seed w) (wl_Theta w)
    (wl_Rows w) (wl_ReadFraction w).

(** ** Recording *)

Definition minLatencyUs : Z := 1.
Definition maxLatencyUs : Z := 300 * 1000 * 1000.

(** What [Record] hands to the histogram: microseconds, within its range. *)
Definition recorded (d : Z) : Z :=
  let us := Z.quot d 1000 in
  let us := if us <? minLatencyUs then minLatencyUs else us in
  if maxLatencyUs <? us then maxLatencyUs else us.

(** A recorder is what was recorded. *)
Definition Recorder := list Z.
Definition Recorder_Record (r : Recorder) (d : Z) : Recorder := r ++ [recorded d].
Definition MergeRecorders (rs : list Recorder) : Recorder := concat rs.
Definition Recorder_Count (r : Recorder) : Z := Z.of_nat (length r).

(** ** The open loop *)

Record Driver := mkDriver { dv_Rate : Z; dv_Workers : Z; dv_Warmup : Z; dv_Measure : Z; dv_Op : bool }.

(** [job]: its ordinal, when it was to start, and whether it is measured. *)
Record job := mkJob { jb_index : Z; jb_intended : Z; jb_measured : bool }.

(** The interval between two requests. *)
Definition interval (d : Driver) : Z :=
  let i := Z.quot Second (dv_Rate d) in if i <=? 0 then 1 else i.

(** What the dispatching loop meets at a request: the time when it looks, and
    whether the context ends while it waits for the time or for a worker. *)
Record turn := mkTurn { tn_now : Z; tn_stopped_waiting : bool; tn_stopped_sending : bool }.

(** The dispatching loop from ordinal [i] on: the jobs handed out and how many were
    late by more than an interval. *)
Fixpoint dispatch (fuel : nat) (d : Driver) (start : Z) (turns : Z → turn) (i : Z) : option (list job * Z) :=
  match fuel with
  | O => None
  | S fuel =>
      let warmupEnd := start + dv_Warmup d in
      let measureEnd := warmupEnd + dv_Measure d in
      let intended := start + i64 (i * interval d) in
      if negb (intended <? measureEnd) then Some ([], 0)
      else
        let measured := negb (intended <? warmupEnd) in
        let t := turns i in
        let wait := intended - tn_now t in
        if (0 <? wait) && tn_stopped_waiting t then Some ([], 0)
        else
          let late := if negb (0 <? wait) && (wait <? - interval d) then 1 else 0 in
          if tn_stopped_sending t then Some ([], late)
          else
            '(jobs, behind) ← dispatch fuel d start turns (i + 1);
            Some (mkJob i intended measured :: jobs, late + behind)
  end.

(** A job that is done: whether the operation failed, and when. *)
Record done_job := mkDone { dj_job : job; dj_failed : bool; dj_end : Z }.

Record Tally := mkTally { ty_Read : Recorder; ty_Requests : Z; ty_Warmup : Z; ty_Errors : Z }.
Definition no_tally : Tally := mkTally [] 0 0 0.

(** What a worker does with an outcome. *)
Definition tally (t : Tally) (o : done_job) : Tally :=
  if dj_failed o then mkTally (ty_Read t) (ty_Requests t) (ty_Warmup t) (ty_Errors t + 1)
  else if jb_measured (dj_job o) then
    mkTally (Recorder_Record (ty_Read t) (dj_end o - jb_intended (dj_job o))) (ty_Requests t + 1) (ty_Warmup t) (ty_Errors t)
  else mkTally (ty_Read t) (ty_Requests t) (ty_Warmup t + 1) (ty_Errors t).

Record bench_Result := mkBenchResult {
  br_Read : Recorder; br_Requests : Z; br_WarmupRequests : Z; br_Errors : Z; br_Behind : Z; br_Elapsed : Z; br_Throughput : float64;
}.

(** [Run]: [work jobs] is the jobs in the order they were done, with their
    outcomes, [finish] the time when all workers are, and [ended] the error of the
    context by then, which comes with the result. *)
Definition Driver_Run (fuel : nat) (d : Driver) (start : Z) (turns : Z → turn) (work : list job → list done_job) (finish : Z)
    (ended : option error) : option (result (bench_Result * option error)) :=
  if dv_Rate d <=? 0 then Some (Err (Errorf "harness: rate must be positive"))
  else if dv_Workers d <=? 0 then Some (Err (Errorf "harness: workers must be positive"))
  else if dv_Measure d <=? 0 then Some (Err (Errorf "harness: measure window must be positive"))
  else if negb (dv_Op d) then Some (Err (Errorf "harness: no operation"))
  else
    '(jobs, behind) ← dispatch fuel d start turns 0;
    let t := foldl tally no_tally (work jobs) in
    let elapsed := finish - start in
    let measured := if elapsed - dv_Warmup d <=? 0 then elapsed else elapsed - dv_Warmup d in
    Some (Ok (mkBenchResult (ty_Read t) (ty_Requests t) (ty_Warmup t) (ty_Errors t) behind elapsed
                (f_div (f_of_int (ty_Requests t)) (Duration_Seconds measured)), ended)).
