(* ===== verification/HarnessSpec.v ===== *)
(** The load generator is open loop: what it asks for, and when, does not depend on
    how the system answers, and every request is accounted for once.  The keys a
    skewed workload draws are not those its ranks name. *)

From S2P Require Import Prelude GoStd Floats Regexp Ring Engine Flags Harness.

Local Open Scope Z_scope.

(** ** Lemmas: the schedule *)

(** The requests from ordinal [i] on, [n] of them. *)
Fixpoint requests_from (d : Driver) (start : Z) (n : nat) (i : Z) : list job :=
  match n with
  | O => []
  | S n => mkJob i (start + i * interval d) (dv_Warmup d <=? i * interval d) :: requests_from d start n (i + 1)
  end.

(** How many requests start before a run of so long ends. *)
Definition run_length (d : Driver) : Z := dv_Warmup d + dv_Measure d.
Definition request_count (d : Driver) : nat := Z.to_nat ((run_length d + interval d - 1) / interval d).

Definition schedule (d : Driver) (start : Z) : list job := requests_from d start (request_count d) 0.

Lemma interval_pos d : 0 < interval d.
Proof. unfold interval. destruct (Z.leb_spec (Z.quot Second (dv_Rate d)) 0); lia. Qed.

(** Nothing ends the run early. *)
Definition undisturbed (turns : Z → turn) : Prop :=
  ∀ i, tn_stopped_waiting (turns i) = false ∧ tn_stopped_sending (turns i) = false.

Lemma requests_length d start n i : length (requests_from d start n i) = n.
Proof. revert i. induction n as [|n IH]; intros i; cbn; by rewrite ?IH. Qed.

Lemma requests_count d i : 0 ≤ i → i * interval d < run_length d → i < (run_length d + interval d - 1) / interval d.
Proof.
  intros Hi Hlt. pose proof (interval_pos d). enough (i + 1 ≤ (run_length d + interval d - 1) / interval d) by lia.
  apply Z.div_le_lower_bound; lia.
Qed.

Lemma requests_over d i : 0 ≤ i → run_length d ≤ i * interval d → (run_length d + interval d - 1) / interval d ≤ i.
Proof. intros Hi Hge. pose proof (interval_pos d). apply Z.lt_succ_r, Z.div_lt_upper_bound; lia. Qed.

Lemma dispatch_from d start turns fuel : run_length d + interval d < 2 ^ 63 → ∀ i, 0 ≤ i → i * interval d < run_length d + interval d →
  (Z.to_nat ((run_length d + interval d - 1) / interval d - i) < fuel)%nat →
  ∃ jobs behind k, dispatch fuel d start turns i = Some (jobs, behind) ∧ 0 ≤ behind ≤ Z.of_nat k ∧
    jobs = take (length jobs) (requests_from d start (Z.to_nat ((run_length d + interval d - 1) / interval d - i)) i) ∧
    (k ≤ S (length jobs))%nat ∧
    (undisturbed turns → jobs = requests_from d start (Z.to_nat ((run_length d + interval d - 1) / interval d - i)) i).
Proof.
  pose proof (interval_pos d) as Hp. intros Hmax. induction fuel as [|fuel IH]; intros i Hi Hlt Hfuel; [lia|].
  cbn [dispatch]. assert (i64 (i * interval d) = i * interval d) as -> by (apply i64_id; unfold is_i64; nia).
  set (N := (run_length d + interval d - 1) / interval d) in *.
  destruct (Z.ltb_spec (start + i * interval d) (start + dv_Warmup d + dv_Measure d)) as [Hin|Hout]; cbn [negb].
  2: { pose proof (requests_over d i Hi ltac:(unfold run_length; lia)) as Ho. fold N in Ho.
       exists [], 0, 0%nat. replace (Z.to_nat (N - i)) with 0%nat by lia. split_and!; try done; lia. }
  pose proof (requests_count d i Hi ltac:(unfold run_length; lia)) as Hc. fold N in Hc.
  replace (Z.to_nat (N - i)) with (S (Z.to_nat (N - (i + 1)))) by lia. cbn [requests_from].
  destruct ((0 <? start + i * interval d - tn_now (turns i)) && tn_stopped_waiting (turns i)) eqn:Hw.
  { exists [], 0, 0%nat. split_and!; [done|lia|lia|done|lia|]. intros Hu. destruct (Hu i) as [H1 _]. rewrite H1, andb_false_r in Hw. done. }
  set (late := if negb (0 <? _) && (_ <? - interval d) then 1 else 0). assert (0 ≤ late ≤ 1) as Hlate by (unfold late; case_ifs; lia).
  destruct (tn_stopped_sending (turns i)) eqn:Hs.
  { exists [], late, 1%nat. split_and!; [done|lia|lia|done|cbn; lia|]. intros Hu. destruct (Hu i) as [_ H1]. congruence. }
  destruct (IH (i + 1) ltac:(lia) ltac:(unfold run_length in *; rewrite Z.mul_add_distr_r; lia) ltac:(fold N; lia)) as (jobs & behind & k & Hd & Hb & Hj & Hk & Hu).
  rewrite Hd. fold N in Hj, Hu. exists (mkJob i (start + i * interval d) (negb (start + i * interval d <? start + dv_Warmup d)) :: jobs), (late + behind), (S k).
  assert (negb (start + i * interval d <? start + dv_Warmup d) = (dv_Warmup d <=? i * interval d)) as -> by lia.
  split_and!; [done|lia|lia| |cbn; lia|].
  - cbn [length take]. by f_equal.
  - intros Hun. by rewrite <-(Hu Hun).
Qed.

(** ** Lemmas: the tally *)

(** What one outcome adds. *)
Definition latencies (outcomes : list done_job) : list Z :=
  (λ o, recorded (dj_end o - jb_intended (dj_job o))) <$> List.filter (λ o, negb (dj_failed o) && jb_measured (dj_job o)) outcomes.
Definition count_of (P : done_job → bool) (outcomes : list done_job) : Z := Z.of_nat (length (List.filter P outcomes)).

Lemma tally_fold outcomes t :
  foldl tally t outcomes =
  mkTally (ty_Read t ++ latencies outcomes)
    (ty_Requests t + count_of (λ o, negb (dj_failed o) && jb_measured (dj_job o)) outcomes)
    (ty_Warmup t + count_of (λ o, negb (dj_failed o) && negb (jb_measured (dj_job o))) outcomes)
    (ty_Errors t + count_of dj_failed outcomes).
Proof.
  revert t. induction outcomes as [|o os IH]; intros t; cbn [foldl].
  - destruct t. cbn. by rewrite app_nil_r, !Z.add_0_r.
  - rewrite IH. unfold tally, latencies, count_of. cbn [List.filter].
    destruct (dj_failed o), (jb_measured (dj_job o)); cbn [negb andb ty_Read ty_Requests ty_Warmup ty_Errors length fmap list_fmap];
      f_equal; try (unfold Recorder_Record; rewrite <-app_assoc; reflexivity); lia.
Qed.

Lemma count_split outcomes :
  count_of (λ o, negb (dj_failed o) && jb_measured (dj_job o)) outcomes +
  count_of (λ o, negb (dj_failed o) && negb (jb_measured (dj_job o))) outcomes + count_of dj_failed outcomes = Z.of_nat (length outcomes).
Proof.
  unfold count_of. induction outcomes as [|o os IH]; [done|]. cbn [List.filter length].
  destruct (dj_failed o), (jb_measured (dj_job o)); cbn [negb andb length]; lia.
Qed.

(** ** Properties *)

(** The generator is open loop.  A run that nothing cuts short hands out exactly
    the requests of its schedule, each to start at its own time and measured by
    that time alone, whatever the clock reads when the loop looks and however long
    the answers take; so a system that stalls is not spared the requests it stalls.
    Each request is counted once, as measured, warm-up or failed, and the samples
    are the latencies of the measured ones from their intended starts, whatever
    order the workers finish in. *)
Theorem Driver_Run_open_loop d start turns work finish ended fuel
    (Hr : 0 < dv_Rate d) (Hw : 0 < dv_Workers d) (Hm : 0 < dv_Measure d) (Hop : dv_Op d = true)
    (Hmax : 0 ≤ run_length d ∧ run_length d + interval d < 2 ^ 63) (Hu : undisturbed turns) (Hfuel : (request_count d < fuel)%nat)
    (Hwork : dj_job <$> work (schedule d start) ≡ₚ schedule d start) :
  ∃ r, Driver_Run fuel d start turns work finish ended = Some (Ok (r, ended)) ∧
    br_Requests r + br_WarmupRequests r + br_Errors r = Z.of_nat (request_count d) ∧
    br_Read r = latencies (work (schedule d start)) ∧ br_Requests r = Recorder_Count (br_Read r) ∧
    0 ≤ br_Behind r ≤ Z.of_nat (request_count d) + 1.
Proof.
  destruct (dispatch_from d start turns fuel ltac:(lia) 0) as (jobs & behind & k & Hd & Hb & _ & Hk & Hall);
    [lia|pose proof (interval_pos d); lia|by rewrite Z.sub_0_r|]. rewrite Z.sub_0_r in Hall. specialize (Hall Hu). fold (request_count d) in Hall.
  pose proof (requests_length d start (request_count d) 0) as Hlen.
  unfold Driver_Run. rewrite Hop. rewrite !(proj2 (Z.leb_gt _ 0)) by assumption. cbn [negb]. rewrite Hd. subst jobs.
  cbn [mbind option_bind]. rewrite tally_fold. eexists. split; [reflexivity|]. cbn [br_Requests br_WarmupRequests br_Errors br_Read br_Behind ty_Read ty_Requests ty_Warmup ty_Errors no_tally].
  fold (schedule d start) in *. rewrite !Z.add_0_l. split_and!; [|done| |lia|].
  - rewrite count_split. rewrite <-Hlen. apply Permutation_length in Hwork. rewrite length_fmap in Hwork. by rewrite Hwork.
  - unfold Recorder_Count, latencies, count_of. cbn [app]. by rewrite length_fmap.
  - rewrite Hlen in Hk. lia.
Qed.

(** *** Keys *)

Lemma scramble_splitMix64 v : scramble v = splitMix64 v.
Proof. done. Qed.

Lemma f_trunc_nonneg x : 0 ≤ f_trunc x.
Proof. destruct x as [| | |[] m e]; try done. cbn. destruct (0 <=? e); [apply Z.shiftl_nonneg|apply Z.shiftr_nonneg]; lia. Qed.

(** The keys the first ranks of so many items are drawn as. *)
Definition drawn_keys (items : nat) : list Z := remove_dups ((λ r, scramble r mod Z.of_nat items) <$> (Z.of_nat <$> seq 0 items)).

(** A skewed workload stays within its rows, but does not draw as many keys as it
    has ranks.  Scrambling alone merges nothing; taken modulo the number of rows,
    which the code does, it sends ranks that differ to one key: of the thousand rows
    of a quick benchmark 376 are never asked for, and others take the traffic of
    several ranks. *)
Theorem Zipfian_keys_merge :
  (∀ Pow z u, 0 < zf_items z → 0 ≤ Zipfian_Next Pow z u < zf_items z) ∧
  (∀ x y, is_u64 x → is_u64 y → scramble x = scramble y → x = y) ∧
  length (drawn_keys 1000) = 624%nat.
Proof.
  split_and!.
  - intros Pow z u Hz. unfold Zipfian_Next. apply Z.mod_pos_bound. done.
  - intros x y Hx Hy. rewrite !scramble_splitMix64. by apply splitMix64_inj.
  - vm_compute. reflexivity.
Qed.

(** A workload that validates gets its generator, unless it is skewed by a theta
    of one or more, which validation lets pass. *)
Theorem Workload_Generator_iff Pow w (Hw : Workload_validate w = Ok tt) :
  is_ok (Workload_Generator Pow w) = negb (bool_decide (wl_Distribution w = "zipfian") && f_le f_one (wl_Theta w)).
Proof.
  unfold Workload_validate in Hw. case_bool_decide; [done|]. destruct (wl_Rows w =? 0) eqn:Hrows; [done|]. do 4 (destruct (_ : bool) in Hw; [done|]).
  unfold Workload_Generator, NewZipfian. rewrite Hrows. case_bool_decide as Hz.
  - rewrite Hz. destruct (f_le (wl_Theta w) f_zero) eqn:Hle; [done|].
    assert (f_lt (wl_Theta w) f_zero = false) as ->.
    { unfold f_le, f_lt, SFleb, SFltb in *. by destruct (SFcompare (wl_Theta w) f_zero) as [[]|]. }
    cbn [orb bool_decide]. by destruct (f_le f_one (wl_Theta w)).
  - case_bool_decide as Hd; [|done]. cbn [andb negb]. apply elem_of_cons in Hd as [Hd|Hd%list_elem_of_singleton]; by rewrite Hd.
Qed.

(** ** Witnesses *)

Definition demo_driver : Driver := mkDriver 2 4 1000000000 2000000000 true.

(** A system that answers an hour late, last request first. *)
Definition demo_work (jobs : list job) : list done_job := (λ j, mkDone j (jb_index j =? 5) (3600 * Second)) <$> reverse jobs.

Lemma Driver_Run_open_loop_witness :
  ∃ r, Driver_Run 10 demo_driver 0 (λ i, mkTurn (i * Second) false false) demo_work (3600 * Second) None = Some (Ok (r, None)) ∧
    br_Requests r + br_WarmupRequests r + br_Errors r = 6.
Proof.
  destruct (Driver_Run_open_loop demo_driver 0 (λ i, mkTurn (i * Second) false false) demo_work (3600 * Second) None 10)
    as (r & Hr & Ht & _); [reflexivity..|vm_compute; split; [discriminate|reflexivity]|done|vm_compute; lia| |].
  - unfold demo_work. rewrite <-list_fmap_compose. cbn. rewrite list_fmap_id. apply reverse_Permutation.
  - exists r. split; [exact Hr|exact Ht].
Defined.

Definition demo_workload : Workload := mkWorkload "W2" "zipf" "zipfian" (f_ratio 99 100) (f_ratio 95 100) 1000 200 32 0 1000000000 1 0.

Lemma Workload_Generator_iff_witness :
  ∃ Pow, is_ok (Workload_Generator Pow demo_workload) = true.
Proof. exists (λ _ _, f_one). rewrite (Workload_Generator_iff (λ _ _, f_one) demo_workload); vm_compute; reflexivity. Defined.
