(* ===== verification/Results.v ===== *)
(** Published measurements: [src/bench/harness/report.go], [readme.go] and
    [scrape.go].

    Formatting a floating-point number or a date and parsing a float are arguments,
    and so is the order in which Go ranges over a map where it can show. *)

From S2P Require Import Prelude GoStd Floats Regexp Schema Engine Introspect Harness.

Local Open Scope Z_scope.

(** ** Reports *)

Record Latencies := mkLatencies { lt_P50 : Z; lt_P90 : Z; lt_P99 : Z; lt_P999 : Z; lt_Max : Z; lt_Mean : Z; lt_Count : Z }.
Definition no_latencies : Latencies := mkLatencies 0 0 0 0 0 0 0.

Record RunMetrics := mkRunMetrics { rm_Read : Latencies; rm_Write : Latencies; rm_Throughput : float64; rm_Errors : Z; rm_Behind : Z }.

Record ClientMetrics := mkClientMetrics {
  cm_Read : Latencies; cm_Write : Latencies; cm_Throughput : float64; cm_Errors : Z; cm_Behind : Z;
  cm_Spread : Z * Z; cm_Sufficient : bool; cm_Runs : Z;
}.

Record OriginMetrics := mkOriginMetrics { om_QPS : float64; om_PeakQPS : float64 }.
Record CacheMetrics := mkCacheMetrics { cm_HitRate : float64; cm_MemoryBytes : Z }.
Record StalenessMetrics := mkStalenessMetrics { st_Observed : Latencies; st_Observations : Z; st_NotConverged : Z; st_TTLSeconds : Z }.
Record bench_Env := mkEnv {
  en_Host : string; en_OS : string; en_Arch : string; en_CoresAvailable : Z; en_GoVersion : string;
  en_Images : list (string * string); en_CachetCommit : string;
}.

(** [rp_RecordedAt] is in nanoseconds. *)
Record bench_Report := mkReport {
  rp_SchemaVersion : Z; rp_Phase : string; rp_Workload : string; rp_Topology : string; rp_RecordedAt : Z;
  rp_Env : bench_Env; rp_Params : Params; rp_Runs : Z;
  rp_Client : ClientMetrics; rp_Cache : CacheMetrics; rp_Origin : OriginMetrics; rp_Staleness : StalenessMetrics;
}.

(** ** Aggregation *)

Definition minimumRuns : Z := 3.

Definition medianInt (vs : list Z) : Z :=
  match vs with [] => 0 | _ => default 0 (merge_sort Z.le vs !! (length vs / 2)%nat) end.

(** [sort.Float64s]: not-a-numbers first. *)
Definition float_less (x y : float64) : bool := f_lt x y || (is_nan x && negb (is_nan y)).
Definition float_sorted (x y : float64) : Prop := float_less y x = false.
#[global] Instance float_sorted_dec : RelDecision float_sorted := λ x y, decide (float_less y x = false).

Definition medianFloat (vs : list float64) : float64 :=
  match vs with [] => f_zero | _ => default f_zero (merge_sort float_sorted vs !! (length vs / 2)%nat) end.

Definition sumInt (vs : list Z) : Z := foldl (λ total v, i64 (total + v)) 0 vs.

Definition medianLatencies (runs : list RunMetrics) (pick : RunMetrics → Latencies) : Latencies :=
  let over (f : Latencies → Z) := medianInt ((λ r, f (pick r)) <$> runs) in
  mkLatencies (over lt_P50) (over lt_P90) (over lt_P99) (over lt_P999) (over lt_Max) (over lt_Mean)
    (sumInt ((λ r, lt_Count (pick r)) <$> runs)).

Definition Aggregate (runs : list RunMetrics) : ClientMetrics :=
  let n := Z.of_nat (length runs) in
  let sufficient := minimumRuns <=? n in
  match runs with
  | [] => mkClientMetrics no_latencies no_latencies f_zero 0 0 (0, 0) sufficient n
  | _ =>
      let p99s := merge_sort Z.le ((λ r, lt_P99 (rm_Read r)) <$> runs) in
      mkClientMetrics (medianLatencies runs rm_Read) (medianLatencies runs rm_Write) (medianFloat (rm_Throughput <$> runs))
        (sumInt (rm_Errors <$> runs)) (sumInt (rm_Behind <$> runs))
        (default 0 (head p99s), default 0 (last p99s)) sufficient n
  end.

(** ** The latest reports *)

Definition unmeasured (x : float64) : bool := negb (f_ne x f_zero).

Definition merge (older newer : bench_Report) : bench_Report :=
  let keep_client := lt_Count (cm_Read (rp_Client newer)) =? 0 in
  mkReport (rp_SchemaVersion newer) (rp_Phase newer) (rp_Workload newer) (rp_Topology newer) (rp_RecordedAt newer)
    (if bool_decide (en_Host (rp_Env newer) = "") then rp_Env older else rp_Env newer)
    (if keep_client then rp_Params older else rp_Params newer)
    (if keep_client then rp_Runs older else rp_Runs newer)
    (if keep_client then rp_Client older else rp_Client newer)
    (if unmeasured (cm_HitRate (rp_Cache newer)) && (cm_MemoryBytes (rp_Cache newer) =? 0) then rp_Cache older else rp_Cache newer)
    (if unmeasured (om_QPS (rp_Origin newer)) && unmeasured (om_PeakQPS (rp_Origin newer)) then rp_Origin older else rp_Origin newer)
    (if st_Observations (rp_Staleness newer) =? 0 then rp_Staleness older else rp_Staleness newer).

Definition report_key (r : bench_Report) : string := rp_Phase r +:+ "/" +:+ rp_Workload r.

Definition recorded_le (r r' : bench_Report) : Prop := rp_RecordedAt r ≤ rp_RecordedAt r'.
#[global] Instance recorded_le_dec : RelDecision recorded_le := λ r r', decide (rp_RecordedAt r ≤ rp_RecordedAt r').

Definition phase_le (r r' : bench_Report) : Prop := str_le (rp_Phase r) (rp_Phase r').
#[global] Instance phase_le_dec : RelDecision phase_le := λ r r', decide (str_le (rp_Phase r) (rp_Phase r')).

Definition fold_report (best : gmap string bench_Report) (r : bench_Report) : gmap string bench_Report :=
  <[report_key r := match best !! report_key r with None => r | Some cur => merge cur r end]> best.

Definition best_reports (reports : list bench_Report) : gmap string bench_Report :=
  foldl fold_report ∅ (merge_sort recorded_le reports).

(** [Latest]: [order] is the order in which Go ranges over the keys.  [sort.Slice]
    may leave equal elements in any order; here it is the one [merge_sort] leaves. *)
Definition Latest (order : list string) (reports : list bench_Report) : list bench_Report :=
  merge_sort phase_le (omap (λ k, best_reports reports !! k) order).

(** ** The table of the README *)

Definition readmeTableHeader : string := "| Configuration | Hit rate | p99 read | Origin QPS | Staleness | Cache mem |".
Definition provenanceMarker : string := "<sub>Measured on".
Definition placeholder : string := "—".

Definition phaseRows : list (string * string) :=
  [("0-baseline", "No cache"); ("1-ttl", "TTL only"); ("2-cdc", "+ CDC invalidation");
   ("3-exact", "+ exact write-path invalidation"); ("4a-leases", "**+ leases**"); ("4b-admission", "**+ adaptive admission**")].

Section rendering.
(** A float with so many decimals, in the shortest form, and a day. *)
Context (fixed : nat → float64 → string) (shortest : float64 → string) (day : Z → string).

Definition formatMicros (us : Z) : string :=
  if us =? 0 then placeholder
  else
    let d := i64 (us * 1000) in
    if d <? Millisecond then FormatInt us +:+ "µs"
    else if d <? Second then fixed 2 (f_mul (Duration_Seconds d) (f_of_int 1000)) +:+ "ms"
    else fixed 2 (Duration_Seconds d) +:+ "s".

Definition renderStaleness (s : StalenessMetrics) : string :=
  if st_Observations s =? 0 then placeholder
  else
    formatMicros (lt_P99 (st_Observed s)) +:+ " <sub>p99</sub>" +:+
    (if 0 <? st_NotConverged s then " <sub>(" +:+ FormatInt (st_NotConverged s) +:+ " never converged)</sub>" else "").

Definition table_row (label : string) (cells : list string) : string := "| " +:+ join " | " (label :: cells) +:+ " |".

(** [None] is the report of a phase nobody measured. *)
Definition renderRow (label : string) (r : option bench_Report) : string :=
  match r with
  | None => table_row label [placeholder; placeholder; placeholder; placeholder; placeholder]
  | Some r =>
      if bool_decide (rp_Phase r = "") then table_row label [placeholder; placeholder; placeholder; placeholder; placeholder]
      else
        let hitRate := if f_lt f_zero (cm_HitRate (rp_Cache r)) then fixed 1 (f_mul (cm_HitRate (rp_Cache r)) (f_of_int 100)) +:+ "%"
                       else placeholder in
        let p99 := formatMicros (lt_P99 (cm_Read (rp_Client r))) in
        let '(lo, hi) := cm_Spread (rp_Client r) in
        let p99 := if lo <? hi then p99 +:+ " <sub>(" +:+ formatMicros lo +:+ "–" +:+ formatMicros hi +:+ ")</sub>" else p99 in
        let p99 := if cm_Sufficient (rp_Client r) then p99 else p99 +:+ " ⚠️" in
        let originQPS := if f_lt f_zero (om_QPS (rp_Origin r)) then fixed 0 (om_QPS (rp_Origin r)) else placeholder in
        let memory := if 0 <? cm_MemoryBytes (rp_Cache r)
                      then fixed 0 (f_div (f_of_int (cm_MemoryBytes (rp_Cache r))) (f_of_int (2 ^ 20))) +:+ " MB" else placeholder in
        table_row label [hitRate; p99; originQPS; renderStaleness (rp_Staleness r); memory]
  end.

Definition newest (latest : list bench_Report) : option bench_Report :=
  match latest with
  | [] => None
  | r :: rs => Some (foldl (λ n r, if rp_RecordedAt n <? rp_RecordedAt r then r else n) r rs)
  end.

Definition provenance (latest : list bench_Report) : string :=
  match newest latest with
  | None => ""
  | Some n =>
      if bool_decide (en_Host (rp_Env n) = "") then ""
      else
        provenanceMarker +:+ " **" +:+ en_Host (rp_Env n) +:+ "** (" +:+ en_Arch (rp_Env n) +:+ ", " +:+
        FormatInt (en_CoresAvailable (rp_Env n)) +:+ " cores) · " +:+ FormatInt (cm_Runs (rp_Client n)) +:+ " runs · " +:+
        FormatInt (pm_MeasureSeconds (rp_Params n)) +:+ "s measured at " +:+ FormatInt (pm_Rate (rp_Params n)) +:+ " rps · θ=" +:+
        shortest (pm_ZipfTheta (rp_Params n)) +:+ " · " +:+ day (rp_RecordedAt n) +:+
        ". Generated by `make bench-report`; do not edit by hand.</sub>"
  end.

(** A line of the table, and a line that says where the numbers came from. *)
Definition is_table_line (l : string) : bool := str_prefix "|" (TrimSpace l).
Definition is_provenance_line (l : string) : bool := str_prefix provenanceMarker (TrimSpace l).

Fixpoint drop_lines (p : string → bool) (ls : list string) : list string :=
  match ls with l :: ls' => if p l then drop_lines p ls' else ls | [] => [] end.

Fixpoint header_at (ls : list string) : option nat :=
  match ls with
  | [] => None
  | l :: ls => if bool_decide (TrimSpace l = readmeTableHeader) then Some O else S <$> header_at ls
  end.

(** The lines of the document with the table replaced. *)
Definition replace_table (rows : list string) (prov : string) (ls : list string) : result (list string) :=
  match header_at ls with
  | None => Err (Errorf "harness: no benchmark table found")
  | Some at_ =>
      let start := (at_ + 2)%nat in
      if (length ls <? start)%nat then Err (Errorf "harness: benchmark table is truncated")
      else
        let tail := drop_lines is_provenance_line (drop_lines is_table_line (drop start ls)) in
        Ok (take start ls ++ rows ++ (if bool_decide (prov = "") then [] else [prov]) ++ tail)
  end.

Definition by_phase (latest : list bench_Report) : gmap string bench_Report :=
  foldl (λ m r, if bool_decide (rp_Workload r ≠ "" ∧ rp_Workload r ≠ "W2") then m else <[rp_Phase r := r]> m) ∅ latest.

Definition table_rows (latest : list bench_Report) : list string :=
  (λ x, renderRow x.2 (by_phase latest !! x.1)) <$> phaseRows.

(** [UpdateReadme]: what the file holds becomes; writing it may still fail.  The two
    orders are of the two times the latest reports are taken. *)
Definition UpdateReadme (order order' : list string) (data : result string) (reports : list bench_Report) : result string :=
  match data with
  | Err e => Err (Wrapf "harness: read" e)
  | Panic w => Panic w
  | Ok data =>
      ls ← replace_table (table_rows (Latest order reports)) (provenance (Latest order' reports)) (split_byte (byte_of 10) data);
      Ok (join newline ls)
  end.
End rendering.

(** ** Scraping the engine *)

Record Counters := mkCounters { co_CacheHits : float64; co_CacheMisses : float64; co_CacheStale : float64; co_OriginReads : float64 }.

Definition double_quote : string := String (byte_of 34) "".

(** One sample of a counter. *)
Definition count_sample (name labels : string) (v : float64) (c : Counters) : Counters :=
  if bool_decide (name = "cachet_origin_reads_total") then
    mkCounters (co_CacheHits c) (co_CacheMisses c) (co_CacheStale c) (f_add (co_OriginReads c) v)
  else if bool_decide (name = "cachet_cache_operations_total") && str_contains ("op=" +:+ double_quote +:+ "get" +:+ double_quote) labels then
    if str_contains ("result=" +:+ double_quote +:+ "hit" +:+ double_quote) labels then
      mkCounters (f_add (co_CacheHits c) v) (co_CacheMisses c) (co_CacheStale c) (co_OriginReads c)
    else if str_contains ("result=" +:+ double_quote +:+ "miss" +:+ double_quote) labels then
      mkCounters (co_CacheHits c) (f_add (co_CacheMisses c) v) (co_CacheStale c) (co_OriginReads c)
    else if str_contains ("result=" +:+ double_quote +:+ "stale" +:+ double_quote) labels then
      mkCounters (co_CacheHits c) (co_CacheMisses c) (f_add (co_CacheStale c) v) (co_OriginReads c)
    else c
  else c.

Definition count_line (ParseFloat : string → option float64) (c : Counters) (line : string) : Counters :=
  let line := TrimSpace line in
  if bool_decide (line = "") || str_prefix "#" line then c
  else
    match str_LastIndex line " " with
    | None => c
    | Some sep =>
        match ParseFloat (str_drop (S sep) line) with
        | None => c
        | Some v => let series := str_take sep line in
                    match cut_byte "{" series with
                    | Some (name, labels) => count_sample name labels v c
                    | None => count_sample series "" v c
                    end
        end
    end.

(** [lines]: what the scanner makes of the body, lines of at most a mebibyte. *)
Definition parseCounters (ParseFloat : string → option float64) (lines : result (list string)) : result Counters :=
  match lines with
  | Err e => Err (Wrapf "harness: read metrics" e)
  | Panic w => Panic w
  | Ok lines => Ok (foldl (count_line ParseFloat) (mkCounters f_zero f_zero f_zero f_zero) lines)
  end.

Definition HitRate (before after : Counters) : float64 :=
  let hits := f_sub (co_CacheHits after) (co_CacheHits before) in
  let total := f_add (f_add hits (f_sub (co_CacheMisses after) (co_CacheMisses before))) (f_sub (co_CacheStale after) (co_CacheStale before)) in
  if f_le total f_zero then f_zero else f_div hits total.

Definition OriginQPS (before after : Counters) (window : Z) : float64 :=
  if window <=? 0 then f_zero
  else f_div (f_sub (co_OriginReads after) (co_OriginReads before)) (Duration_Seconds window).
