(* ===== verification/ResultsSpec.v ===== *)
(** Aggregation does not depend on the order of the runs; the latest report of a
    phase has, section by section, the newest measurement; and regenerating the
    table of the README touches nothing else and changes nothing twice. *)

From S2P Require Import Prelude GoStd Floats Regexp Schema Engine Introspect Harness Results.

Local Open Scope Z_scope.

(** ** Lemmas: aggregation *)

Lemma merge_sort_Z_perm l l' : l ≡ₚ l' → merge_sort Z.le l = merge_sort Z.le l'.
Proof.
  intros Hp. apply (StronglySorted_unique Z.le); [apply (StronglySorted_merge_sort _)..|]. by rewrite !merge_sort_Permutation.
Qed.

Lemma medianInt_perm l l' : l ≡ₚ l' → medianInt l = medianInt l'.
Proof.
  intros Hp. unfold medianInt. pose proof (Permutation_length Hp) as Hl. rewrite (merge_sort_Z_perm _ _ Hp), Hl.
  destruct l, l'; try done; by apply Permutation_nil_l in Hp || apply Permutation_nil_r in Hp.
Qed.

Lemma i64_add a b : i64 (i64 a + b) = i64 (a + b).
Proof.
  unfold i64. f_equal. replace ((a + 2 ^ 63) mod 2 ^ 64 - 2 ^ 63 + b + 2 ^ 63) with ((a + 2 ^ 63) mod 2 ^ 64 + b) by lia.
  rewrite Z.add_mod_idemp_l by lia. f_equal. lia.
Qed.

Lemma sumInt_sum l : sumInt l = i64 (foldr Z.add 0 l).
Proof.
  unfold sumInt. assert (∀ a, foldl (λ total v, i64 (total + v)) (i64 a) l = i64 (a + foldr Z.add 0 l)) as H; [|apply (H 0)].
  induction l as [|v l IH]; intros a; cbn; [by rewrite Z.add_0_r|]. rewrite i64_add, IH. f_equal. lia.
Qed.

Lemma sumInt_perm l l' : l ≡ₚ l' → sumInt l = sumInt l'.
Proof. intros Hp. rewrite !sumInt_sum. f_equal. induction Hp; cbn; lia. Qed.

Lemma medianLatencies_perm runs runs' pick : runs ≡ₚ runs' → medianLatencies runs pick = medianLatencies runs' pick.
Proof.
  intros Hp. unfold medianLatencies. f_equal; try apply medianInt_perm; try apply sumInt_perm; by apply fmap_Permutation.
Qed.

(** A median lies between the ends. *)
Lemma sorted_between l i x : StronglySorted Z.le l → l !! i = Some x → default 0 (head l) ≤ x ≤ default 0 (last l).
Proof.
  intros Hs. revert i x. induction Hs as [|y l Hs IH Hy]; intros i x Hx; [done|]. cbn [head default].
  destruct i as [|i]; cbn in Hx.
  - injection Hx as <-. split; [cbn; lia|]. destruct l as [|z l]; [cbn; lia|]. rewrite last_cons_cons.
    destruct (last_is_Some (z :: l)) as [_ [w Hw]]; [done|]. rewrite Hw. cbn. rewrite Forall_forall in Hy. apply Hy.
    by apply last_Some_elem_of.
  - destruct (IH i x Hx) as [_ H2]. split.
    + cbn. rewrite Forall_forall in Hy. apply Hy. by eapply list_elem_of_lookup_2.
    + destruct l; [done|]. by rewrite last_cons_cons.
Qed.

Lemma median_between l : l ≠ [] →
  default 0 (head (merge_sort Z.le l)) ≤ medianInt l ≤ default 0 (last (merge_sort Z.le l)).
Proof.
  intros Hne. unfold medianInt. assert (length (merge_sort Z.le l) = length l) as Hl by apply Permutation_length, merge_sort_Permutation.
  destruct l as [|x l]; [done|]. destruct (lookup_lt_is_Some_2 (merge_sort Z.le (x :: l)) (length (x :: l) / 2)%nat) as [m Hm].
  { rewrite Hl. apply Nat.div_lt; cbn; lia. }
  rewrite Hm. cbn [default]. eapply sorted_between; [apply (StronglySorted_merge_sort _)|done].
Qed.

(** ** Lemmas: the latest reports *)

(** The newest report of a list that was measured, or the first. *)
Definition newest_measured {A} (measured : A → bool) (first : A) (rest : list A) : A :=
  foldl (λ cur r, if measured r then r else cur) first rest.

Definition client_measured (r : bench_Report) : bool := negb (lt_Count (cm_Read (rp_Client r)) =? 0).
Definition cache_measured (r : bench_Report) : bool :=
  negb (unmeasured (cm_HitRate (rp_Cache r)) && (cm_MemoryBytes (rp_Cache r) =? 0)).
Definition origin_measured (r : bench_Report) : bool :=
  negb (unmeasured (om_QPS (rp_Origin r)) && unmeasured (om_PeakQPS (rp_Origin r))).
Definition staleness_measured (r : bench_Report) : bool := negb (st_Observations (rp_Staleness r) =? 0).
Definition host_known (r : bench_Report) : bool := negb (bool_decide (en_Host (rp_Env r) = "")).

Lemma section_fold {A} (f : bench_Report → A) (measured : bench_Report → bool) :
  (∀ older newer, f (merge older newer) = if measured newer then f newer else f older) →
  ∀ rest first, f (foldl merge first rest) = f (newest_measured measured first rest).
Proof.
  intros Hm rest first. unfold newest_measured.
  assert (∀ cur cur', f cur = f cur' → f (foldl merge cur rest) = f (foldl (λ cur r, if measured r then r else cur) cur' rest)) as H; [|by apply H].
  induction rest as [|r rest IH]; intros cur cur' Heq; [done|]. cbn [foldl]. apply IH. rewrite Hm. by destruct (measured r).
Qed.

(** The reports of a key, oldest first. *)
Definition of_key (k : string) (reports : list bench_Report) : list bench_Report :=
  List.filter (λ r, bool_decide (report_key r = k)) (merge_sort recorded_le reports).

Lemma best_fold k rs m :
  foldl fold_report m rs !! k =
  match m !! k, List.filter (λ r, bool_decide (report_key r = k)) rs with
  | Some cur, l => Some (foldl merge cur l)
  | None, r :: l => Some (foldl merge r l)
  | None, [] => None
  end.
Proof.
  revert m. induction rs as [|r rs IH]; intros m; cbn [foldl List.filter]; [by destruct (m !! k)|]. rewrite IH. unfold fold_report at 1.
  case_bool_decide as Hk; [subst k; rewrite lookup_insert_eq|by rewrite lookup_insert_ne]. by destruct (m !! report_key r).
Qed.

Lemma best_reports_key k reports :
  best_reports reports !! k = match of_key k reports with r :: l => Some (foldl merge r l) | [] => None end.
Proof. unfold best_reports. by rewrite best_fold, lookup_empty. Qed.

(** ** Lemmas: the table of the README *)

Lemma TrimSpace_between c d m :
  (∀ s, find (λ f, str_prefix f (String c s)) space_forms = None) →
  (∀ s, find (λ f, str_prefix f (String d s)) ((λ f, str_rev f "") <$> space_forms) = None) →
  TrimSpace (String c (m +:+ String d "")) = String c (m +:+ String d "").
Proof.
  intros Hc Hd. unfold TrimSpace.
  assert (∀ forms x s, (∀ s, find (λ f, str_prefix f (String x s)) forms = None) → ∀ n, trim_forms n forms (String x s) = String x s) as Ht.
  { intros forms x s Hx n. destruct n as [|n]; cbn [trim_forms]; [done|]. by rewrite Hx. }
  assert (str_rev (String c (m +:+ String d "")) "" = String d (str_rev m (String c ""))) as Hrev by (cbn [str_rev]; by rewrite str_rev_app).
  rewrite (Ht space_forms), Hrev, Ht, <-Hrev by done. apply str_rev_involutive.
Qed.

Lemma table_row_is_line label cells : is_table_line (table_row label cells) = true.
Proof.
  unfold is_table_line, table_row. replace ("| " +:+ join " | " (label :: cells) +:+ " |") with (String "|" ((" " +:+ join " | " (label :: cells) +:+ " ") +:+ String "|" "")).
  - rewrite TrimSpace_between; [done|intros s; reflexivity..].
  - change ("| " +:+ ?x) with (String "|" (" " +:+ x)). f_equal. rewrite <-!str_app_assoc. done.
Qed.

Lemma provenance_is_line m : is_provenance_line (provenanceMarker +:+ m +:+ "</sub>") = true ∧ is_table_line (provenanceMarker +:+ m +:+ "</sub>") = false.
Proof.
  unfold is_provenance_line, is_table_line.
  assert (TrimSpace (provenanceMarker +:+ m +:+ "</sub>") = provenanceMarker +:+ m +:+ "</sub>") as ->.
  { replace (provenanceMarker +:+ m +:+ "</sub>") with (String "<" (("sub>Measured on" +:+ m +:+ "</sub") +:+ String ">" "")).
    - apply TrimSpace_between; intros s; reflexivity.
    - unfold provenanceMarker. change ("<sub>Measured on" +:+ ?x) with (String "<" ("sub>Measured on" +:+ x)). f_equal. by rewrite <-!str_app_assoc. }
  split; [apply str_prefix_app|done].
Qed.

Lemma drop_lines_split p ls : ∃ before, ls = before ++ drop_lines p ls ∧ Forall (λ l, p l = true) before.
Proof.
  induction ls as [|l ls (before & Heq & Hall)]; [by exists []|]. cbn [drop_lines]. destruct (p l) eqn:E; [|by exists []].
  exists (l :: before). split; [cbn; by f_equal|by constructor].
Qed.

Lemma drop_lines_app p before ls : Forall (λ l, p l = true) before → drop_lines p (before ++ ls) = drop_lines p ls.
Proof. induction 1 as [|l before Hl _ IH]; [done|]. cbn [app drop_lines]. by rewrite Hl. Qed.

Lemma drop_lines_idem p ls : drop_lines p (drop_lines p ls) = drop_lines p ls.
Proof. induction ls as [|l ls IH]; [done|]. cbn [drop_lines]. destruct (p l) eqn:E; [done|]. cbn [drop_lines]. by rewrite E. Qed.

Lemma header_at_lt ls n : header_at ls = Some n → (n < length ls)%nat.
Proof.
  revert n. induction ls as [|l ls IH]; intros n; cbn [header_at length]; [done|]. case_bool_decide; [intros [= <-]; lia|].
  destruct (header_at ls) as [m|]; [|done]. intros [= <-]. specialize (IH m eq_refl). lia.
Qed.

Lemma header_at_prefix ls ls' n m : header_at ls = Some n → (n < m)%nat → header_at (take m ls ++ ls') = Some n.
Proof.
  revert n m. induction ls as [|l ls IH]; intros n m; cbn [header_at]; [done|]. destruct m as [|m]; [lia|]. cbn [take app header_at].
  case_bool_decide; [done|]. destruct (header_at ls) as [k|]; [|done]. intros [= <-] Hm. rewrite (IH k m eq_refl); [done|lia].
Qed.

(** What a regeneration keeps, and what it replaces. *)
Lemma replace_table_spec rows prov ls out : replace_table rows prov ls = Ok out →
  ∃ kept old dropped tail, ls = kept ++ old ++ dropped ++ tail ∧
    out = kept ++ rows ++ (if bool_decide (prov = "") then [] else [prov]) ++ tail ∧
    Forall (λ l, is_table_line l = true) old ∧ Forall (λ l, is_provenance_line l = true) dropped.
Proof.
  unfold replace_table. destruct (header_at ls) as [n|]; [|done]. destruct (Nat.ltb_spec (length ls) (n + 2)); [done|]. intros [= <-].
  destruct (drop_lines_split is_table_line (drop (n + 2) ls)) as (old & Hold & H1).
  destruct (drop_lines_split is_provenance_line (drop_lines is_table_line (drop (n + 2) ls))) as (dropped & Hdropped & H2).
  exists (take (n + 2) ls), old, dropped, (drop_lines is_provenance_line (drop_lines is_table_line (drop (n + 2) ls))).
  split_and!; [|done..]. rewrite <-Hdropped, <-Hold. by rewrite take_drop.
Qed.

Lemma replace_table_twice rows prov ls out : replace_table rows prov ls = Ok out →
  Forall (λ l, is_table_line l = true) rows → prov ≠ "" → is_provenance_line prov = true → is_table_line prov = false →
  replace_table rows prov out = Ok out.
Proof.
  unfold replace_table. destruct (header_at ls) as [n|] eqn:Hh; [|done]. destruct (Nat.ltb_spec (length ls) (n + 2)) as [|Hlen]; [done|]. intros [= <-] Hr Hne Hp Ht.
  rewrite (header_at_prefix ls _ n (n + 2) Hh) by lia. rewrite (bool_decide_eq_false_2 _ Hne).
  assert (length (take (n + 2) ls) = (n + 2)%nat) as Htl by (rewrite length_take; lia).
  destruct (Nat.ltb_spec (length (take (n + 2) ls ++ rows ++ [prov] ++ drop_lines is_provenance_line (drop_lines is_table_line (drop (n + 2) ls)))) (n + 2)) as [Hs|_];
    [rewrite length_app in Hs; lia|].
  rewrite take_app_length', drop_app_length' by done. rewrite (drop_lines_app is_table_line rows) by done. cbn [app drop_lines]. rewrite Ht. cbn [drop_lines].
  by rewrite Hp, drop_lines_idem.
Qed.

Section readme.
Context (fixed : nat → float64 → string) (shortest : float64 → string) (day : Z → string).

Lemma provenance_form latest : provenance shortest day latest = "" ∨ ∃ m, provenance shortest day latest = provenanceMarker +:+ m +:+ "</sub>".
Proof.
  unfold provenance. destruct (newest latest) as [n|]; [|by left]. case_bool_decide; [by left|]. right.
  exists (" **" +:+ en_Host (rp_Env n) +:+ "** (" +:+ en_Arch (rp_Env n) +:+ ", " +:+
    FormatInt (en_CoresAvailable (rp_Env n)) +:+ " cores) · " +:+ FormatInt (cm_Runs (rp_Client n)) +:+ " runs · " +:+
    FormatInt (pm_MeasureSeconds (rp_Params n)) +:+ "s measured at " +:+ FormatInt (pm_Rate (rp_Params n)) +:+ " rps · θ=" +:+
    shortest (pm_ZipfTheta (rp_Params n)) +:+ " · " +:+ day (rp_RecordedAt n) +:+ ". Generated by `make bench-report`; do not edit by hand.").
  rewrite <-!str_app_assoc. reflexivity.
Qed.

Lemma table_rows_lines latest : Forall (λ l, is_table_line l = true) (table_rows fixed latest).
Proof.
  unfold table_rows. apply Forall_fmap, Forall_true. intros [phase label]. cbn. unfold renderRow.
  destruct (by_phase latest !! phase) as [r|]; [|apply table_row_is_line]. case_bool_decide; [apply table_row_is_line|].
  destruct (cm_Spread (rp_Client r)) as [lo hi]. apply table_row_is_line.
Qed.

Definition one_line (s : string) : Prop := contains_byte (byte_of 10) s = false.

Lemma split_lines s : Forall one_line (split_byte (byte_of 10) s).
Proof. apply split_elements. Qed.

(** Regenerating the table of the README replaces its rows and the line under it
    and keeps every other line, and doing it again changes nothing: rows written by
    hand or by an older run do not pile up, provided the numbers come with where
    they were measured and no cell spans lines. *)
Theorem UpdateReadme_stable order order' data reports out
    (Hok : UpdateReadme fixed shortest day order order' (Ok data) reports = Ok out)
    (Hrows : Forall one_line (table_rows fixed (Latest order reports)))
    (Hprov : one_line (provenance shortest day (Latest order' reports)))
    (Hne : provenance shortest day (Latest order' reports) ≠ "") :
  (∃ kept old dropped tail, split_byte (byte_of 10) data = kept ++ old ++ dropped ++ tail ∧
     split_byte (byte_of 10) out = kept ++ table_rows fixed (Latest order reports) ++ [provenance shortest day (Latest order' reports)] ++ tail ∧
     Forall (λ l, is_table_line l = true) old ∧ Forall (λ l, is_provenance_line l = true) dropped) ∧
  UpdateReadme fixed shortest day order order' (Ok out) reports = Ok out.
Proof.
  unfold UpdateReadme in *. apply result_bind_ok in Hok as (ls & Hls & [= <-]).
  set (rows := table_rows fixed (Latest order reports)) in *. set (prov := provenance shortest day (Latest order' reports)) in *.
  destruct (replace_table_spec _ _ _ _ Hls) as (kept & old & dropped & tail & Hdata & Hout & Hold & Hdropped).
  rewrite (bool_decide_eq_false_2 _ Hne) in Hout.
  assert (split_byte (byte_of 10) (join newline ls) = ls) as Hsplit.
  { apply split_join.
    - pose proof (split_lines data) as Hl. rewrite Hdata, !Forall_app in Hl. destruct Hl as (Hk & _ & _ & Ht).
      rewrite Hout, !Forall_app. split_and!; [done|done|by constructor|done].
    - rewrite Hout. intros Hnil. apply app_eq_nil in Hnil as [_ Hnil]. apply app_eq_nil in Hnil as [_ Hnil]. done. }
  split; [exists kept, old, dropped, tail; split_and!; [done|by rewrite Hsplit, Hout|done..]|].
  rewrite Hsplit. destruct (provenance_form (Latest order' reports)) as [H|[m Hm]]; [by destruct Hne|]. fold prov in Hm.
  destruct (provenance_is_line m) as [Hp Ht]. rewrite <-Hm in Hp, Ht.
  by rewrite (replace_table_twice rows prov _ _ Hls (table_rows_lines _) Hne Hp Ht).
Qed.
End readme.

(** Combining runs does not depend on their order, and the published p99 is one
    between the smallest and the largest of the runs, the errors of all runs
    counted. *)
Theorem Aggregate_spec runs runs' (Hp : runs ≡ₚ runs') (Hne : runs ≠ []) :
  let a := Aggregate runs in let a' := Aggregate runs' in
  (cm_Read a = cm_Read a' ∧ cm_Write a = cm_Write a' ∧ cm_Errors a = cm_Errors a' ∧ cm_Behind a = cm_Behind a' ∧
   cm_Spread a = cm_Spread a' ∧ cm_Sufficient a = cm_Sufficient a' ∧ cm_Runs a = cm_Runs a') ∧
  (cm_Spread a).1 ≤ lt_P99 (cm_Read a) ≤ (cm_Spread a).2 ∧
  cm_Errors a = i64 (foldr Z.add 0 (rm_Errors <$> runs)) ∧ cm_Sufficient a = (3 <=? Z.of_nat (length runs)).
Proof.
  cbv zeta. pose proof (Permutation_length Hp) as Hl.
  assert (runs' ≠ []) as Hne' by (intros ->; by apply Permutation_nil_r in Hp).
  unfold Aggregate. destruct runs as [|r runs]; [done|]. destruct runs' as [|r' runs']; [done|].
  cbn [cm_Read cm_Write cm_Errors cm_Behind cm_Spread cm_Sufficient cm_Runs]. rewrite Hl. split_and!; try done.
  - by apply medianLatencies_perm.
  - by apply medianLatencies_perm.
  - by apply sumInt_perm, fmap_Permutation.
  - by apply sumInt_perm, fmap_Permutation.
  - erewrite merge_sort_Z_perm; [done|]. by apply fmap_Permutation.
  - unfold medianLatencies. cbn [lt_P99 fst]. apply median_between. done.
  - unfold medianLatencies. cbn [lt_P99 snd]. apply median_between. done.
  - by rewrite sumInt_sum.
Qed.

(** The latest report of a phase and workload is one, and each of its sections
    is the newest that was measured: a report of one command never erases what
    another one measured, and a measurement that was repeated is never brought
    back.  A section counts as measured when its numbers are not all zero. *)
Theorem Latest_newest_sections order reports
    (Hnd : NoDup order) (Hord : ∀ k, k ∈ order ↔ is_Some (best_reports reports !! k)) :
  length (Latest order reports) = length order ∧
  ∀ r, r ∈ Latest order reports ↔ ∃ k first rest, of_key k reports = first :: rest ∧ r = foldl merge first rest ∧
    rp_Client r = rp_Client (newest_measured client_measured first rest) ∧
    rp_Params r = rp_Params (newest_measured client_measured first rest) ∧
    rp_Runs r = rp_Runs (newest_measured client_measured first rest) ∧
    rp_Cache r = rp_Cache (newest_measured cache_measured first rest) ∧
    rp_Origin r = rp_Origin (newest_measured origin_measured first rest) ∧
    rp_Staleness r = rp_Staleness (newest_measured staleness_measured first rest) ∧
    rp_Env r = rp_Env (newest_measured host_known first rest).
Proof.
  unfold Latest. split.
  - rewrite merge_sort_Permutation. assert (∀ k, k ∈ order → is_Some (best_reports reports !! k)) as H by (intros k; apply Hord). clear Hord Hnd.
    induction order as [|k ks IH]; [done|]. cbn [omap list_omap]. destruct (H k) as [r ->]; [by left|]. cbn [length]. f_equal. apply IH.
    intros k' Hk'. apply H. by right.
  - intros r. rewrite merge_sort_Permutation, list_elem_of_omap. split.
    + intros (k & Hk & Hb). rewrite best_reports_key in Hb. destruct (of_key k reports) as [|first rest] eqn:E; [done|]. injection Hb as <-.
      exists k, first, rest. split_and!; [done|done|..]; apply section_fold; intros older newer;
        unfold client_measured, cache_measured, origin_measured, staleness_measured, host_known, merge; cbn; by case_ifs.
    + intros (k & first & rest & Hk & -> & _). exists k. rewrite Hord, best_reports_key, Hk. by split; [eexists|].
Qed.

(** ** Witnesses *)

Definition demo_latencies (p99 : Z) : Latencies := mkLatencies 10 20 p99 40 50 12 1000.
Definition demo_metrics (p99 errors : Z) : RunMetrics := mkRunMetrics (demo_latencies p99) no_latencies f_one errors 0.

Lemma Aggregate_spec_witness :
  lt_P99 (cm_Read (Aggregate [demo_metrics 10 0; demo_metrics 100 2; demo_metrics 12 0])) = 12 ∧
  cm_Errors (Aggregate [demo_metrics 10 0; demo_metrics 100 2; demo_metrics 12 0]) =
  cm_Errors (Aggregate [demo_metrics 100 2; demo_metrics 10 0; demo_metrics 12 0]).
Proof.
  destruct (Aggregate_spec [demo_metrics 10 0; demo_metrics 100 2; demo_metrics 12 0] [demo_metrics 100 2; demo_metrics 10 0; demo_metrics 12 0])
    as ((_ & _ & He & _) & _); [apply perm_swap|done|].
  split; [vm_compute; reflexivity|exact He].
Defined.

(** A run, and a later probe of the same phase that measured staleness only. *)
Definition demo_env : bench_Env := mkEnv "ci" "linux" "amd64" 4 "go1.24" [] "".
Definition demo_params : Params := mkParams 5 15 200 32 42 (f_ratio 99 100) 1000 (f_ratio 95 100).
Definition no_client : ClientMetrics := mkClientMetrics no_latencies no_latencies f_zero 0 0 (0, 0) false 0.
Definition demo_run_report : bench_Report :=
  mkReport 1 "1-ttl" "W2" "one" 100 demo_env demo_params 3
    (mkClientMetrics (demo_latencies 900) no_latencies f_one 0 0 (900, 900) true 3)
    (mkCacheMetrics (f_ratio 1 2) 0) (mkOriginMetrics f_one f_one) (mkStalenessMetrics no_latencies 0 0 0).
Definition demo_probe_report : bench_Report :=
  mkReport 1 "1-ttl" "W2" "one" 200 (mkEnv "" "" "" 0 "" [] "") (mkParams 0 0 0 0 0 f_zero 0 f_zero) 0 no_client
    (mkCacheMetrics f_zero 0) (mkOriginMetrics f_zero f_zero) (mkStalenessMetrics (demo_latencies 5000) 7 1 30).

Lemma Latest_newest_sections_witness :
  ∃ r, r ∈ Latest ["1-ttl/W2"] [demo_probe_report; demo_run_report] ∧
    rp_Client r = rp_Client demo_run_report ∧ rp_Staleness r = rp_Staleness demo_probe_report.
Proof.
  pose (reports := [demo_probe_report; demo_run_report]).
  assert (of_key "1-ttl/W2" reports = [demo_run_report; demo_probe_report]) as Hk by (vm_compute; reflexivity).
  destruct (Latest_newest_sections ["1-ttl/W2"] reports) as [_ H]; [apply NoDup_singleton| |].
  { intros k. rewrite list_elem_of_singleton. split.
    - intros ->. rewrite best_reports_key, Hk. by eexists.
    - rewrite best_reports_key. intros [r Hr]. unfold of_key in Hr.
      destruct (List.filter _ _) as [|first rest] eqn:E; [done|]. assert (first ∈ first :: rest) as Hin by by left.
      rewrite <-E in Hin. apply list_elem_of_In, List.filter_In in Hin as [Hin Hkk%bool_decide_eq_true]. subst k. apply list_elem_of_In in Hin.
      rewrite merge_sort_Permutation in Hin. unfold reports in Hin. apply elem_of_cons in Hin as [Hf|Hf%list_elem_of_singleton]; subst first; reflexivity. }
  exists (merge demo_run_report demo_probe_report).
  assert (merge demo_run_report demo_probe_report ∈ Latest ["1-ttl/W2"] reports) as Hin.
  { apply H. exists "1-ttl/W2", demo_run_report, [demo_probe_report]. split_and!; [exact Hk|done..]. }
  split; [exact Hin|]. apply H in Hin as (k & first & rest & Hk' & Hm & Hc & _). split; reflexivity.
Defined.

Definition demo_fixed (n : nat) (x : float64) : string := "1.0".
Definition demo_readme : string := join newline ["# Cachet"; readmeTableHeader; "|---|"; "| old | row |"; "<sub>Measured on something</sub>"; "text"].

Lemma UpdateReadme_stable_witness :
  ∃ out, UpdateReadme demo_fixed (λ _, "0.99") (λ _, "2026-01-01") ["1-ttl/W2"] ["1-ttl/W2"] (Ok demo_readme) [demo_run_report] = Ok out ∧
    UpdateReadme demo_fixed (λ _, "0.99") (λ _, "2026-01-01") ["1-ttl/W2"] ["1-ttl/W2"] (Ok out) [demo_run_report] = Ok out.
Proof.
  destruct (UpdateReadme demo_fixed (λ _, "0.99") (λ _, "2026-01-01") ["1-ttl/W2"] ["1-ttl/W2"] (Ok demo_readme) [demo_run_report]) as [out|e|why] eqn:E;
    [|exfalso; vm_compute in E; discriminate..].
  exists out. split; [reflexivity|].
  refine (proj2 (UpdateReadme_stable demo_fixed (λ _, "0.99") (λ _, "2026-01-01") ["1-ttl/W2"] ["1-ttl/W2"] demo_readme [demo_run_report] out E _ _ _)).
  - apply Forall_forall. intros l Hl. unfold one_line. apply (bool_decide_unpack _). revert l Hl. apply Forall_forall. vm_compute. by repeat constructor.
  - vm_compute. reflexivity.
  - vm_compute. discriminate.
Defined.
