(* ===== verification/Faults.v ===== *)
(** The fault record: [src/internal/faults/render.go]. *)

From S2P Require Import Prelude GoStd Regexp Schema Table.

Local Open Scope Z_scope.

Record fault_Record := mkFault {
  ft_Number : Z; ft_Title : string; ft_Injection : string; ft_Claim : string; ft_Fired : string; ft_Observed : string;
  ft_Explanation : string;
}.

(** The planned faults, in the order of their numbers. *)
Definition Catalogue : list (Z * string) :=
  [(1, "Cache node killed mid-traffic"); (2, "Cache node slow, not dead"); (3, "Cache partitioned from the engine");
   (4, "Valkey evicts under memory pressure"); (5, "Shard killed mid-transaction"); (6, "Binlog tailer killed mid-stream");
   (7, "Tailer rewound to an old checkpoint"); (8, "Clock skew injected between nodes"); (9, "Lease holder dies during a slow fill");
   (10, "A cache node stops answering and its keys would hit the database")].

Definition latest_faults (records : list fault_Record) : gmap Z fault_Record := foldl (λ m r, <[ft_Number r := r]> m) ∅ records.

Definition number_le (r r' : fault_Record) : Prop := ft_Number r ≤ ft_Number r'.
#[global] Instance number_le_dec : RelDecision number_le := λ r r', decide (ft_Number r ≤ ft_Number r').

(** Numbers differ, so the order Go ranges over the map in does not show. *)
Definition sorted_faults (records : list fault_Record) : list fault_Record := merge_sort number_le (map_to_list (latest_faults records)).*2.

Definition firstLine (s : string) : string := match str_Index s newline with Some i => str_take i s | None => s end.

Definition outstanding (faults : list fault_Record) : list (Z * string) :=
  List.filter (λ x, negb (existsb (λ r, ft_Number r =? x.1) faults)) Catalogue.

Definition faults_head : string :=
"# Faults, and what explained them

> **Generated by the chaos suite. Do not edit.** Regenerate with `make test-chaos`,
> then `go run ./cmd/benchctl faults`.
>
> **The bar is not that Cachet survived.** Surviving a fault is table stakes; every cache
> survives its backing store being slow. Each entry below has to name the command or metric
> that tells an operator *why* — an entry that can only say " +:+ String (byte_of 34) "the system recovered" +:+ String (byte_of 34) " has not
> met the bar and is not recorded.
>
> Every entry also carries the evidence that its injection actually fired. A toxic that
> silently failed to apply produces a serene green test asserting nothing.

".

Definition fault_row (r : fault_Record) : string :=
  "| " +:+ FormatInt (ft_Number r) +:+ " | ✅ " +:+ ft_Title r +:+ " | " +:+ firstLine (ft_Explanation r) +:+ " |" +:+ newline.

Definition paragraph (s : string) : string := s +:+ newline +:+ newline.

Definition fault_section (r : fault_Record) : string :=
  paragraph ("## " +:+ FormatInt (ft_Number r) +:+ ". " +:+ ft_Title r) +:+
  paragraph ("**Injection.** " +:+ ft_Injection r) +:+
  paragraph ("**Claim.** " +:+ ft_Claim r) +:+
  paragraph ("**The injection fired.** " +:+ ft_Fired r) +:+
  paragraph ("**Observed.** " +:+ ft_Observed r) +:+
  paragraph ("**Explained by.** " +:+ ft_Explanation r).

Definition str_concat (l : list string) : string := foldr String.append "" l.

Definition Render (records : list fault_Record) : string :=
  let sorted := sorted_faults records in
  let left := outstanding sorted in
  faults_head +:+
  paragraph ("**Coverage: " +:+ FormatInt (Z.of_nat (length sorted)) +:+ " of " +:+ FormatInt (Z.of_nat (length Catalogue)) +:+ ".**") +:+
  (if bool_decide (sorted = []) then ""
   else "| # | Fault | Explained by |" +:+ newline +:+ "|---|---|---|" +:+ newline +:+ str_concat (fault_row <$> sorted) +:+ newline) +:+
  str_concat (fault_section <$> sorted) +:+
  paragraph "## Not yet covered" +:+
  (if bool_decide (left = []) then "Nothing. Every fault in the catalogue has an entry above." +:+ newline
   else
     "These are planned and not yet recorded. They are listed so this document cannot be" +:+ newline +:+
     paragraph "mistaken for a complete one." +:+
     str_concat ((λ x, "- **" +:+ FormatInt x.1 +:+ ".** " +:+ x.2 +:+ newline) <$> left)).

(** ** Properties *)

Lemma latest_faults_lookup records n :
  latest_faults records !! n = last (List.filter (λ r, ft_Number r =? n) records).
Proof.
  unfold latest_faults. assert (∀ m : gmap Z fault_Record, foldl (λ m r, <[ft_Number r := r]> m) m records !! n =
    match last (List.filter (λ r, ft_Number r =? n) records) with Some r => Some r | None => m !! n end) as H.
  { induction records as [|r rs IH]; intros m; [done|]. cbn [foldl List.filter]. rewrite IH.
    destruct (Z.eqb_spec (ft_Number r) n) as [Heq|Hne].
    - rewrite last_cons, Heq, lookup_insert_eq. by destruct (last _).
    - by rewrite lookup_insert_ne. }
  rewrite H, lookup_empty. by destruct (last _).
Qed.

(** The document shows the last observation of each fault, whatever else was
    recorded: records that end alike, number by number, render alike, so running the
    suite again changes only what it observed anew, and running it twice counts no
    fault twice. *)
Theorem Render_last_observations :
  (∀ records records', (∀ n, last (List.filter (λ r, ft_Number r =? n) records) = last (List.filter (λ r, ft_Number r =? n) records')) →
     Render records = Render records') ∧
  (∀ records, Render (records ++ records) = Render records) ∧
  (∀ records n, (∃ r, r ∈ records ∧ ft_Number r = n) ↔ ∃ r, r ∈ sorted_faults records ∧ ft_Number r = n).
Proof.
  assert (∀ records records', (∀ n, last (List.filter (λ r, ft_Number r =? n) records) = last (List.filter (λ r, ft_Number r =? n) records')) →
     Render records = Render records') as Hext.
  { intros rs rs' H. unfold Render, sorted_faults. assert (latest_faults rs = latest_faults rs') as ->; [|done].
    apply map_eq. intros n. by rewrite !latest_faults_lookup. }
  split_and!; [done| |].
  - intros rs. apply Hext. intros n. rewrite List.filter_app, last_app. by destruct (last _).
  - intros rs n. unfold sorted_faults. split.
    + intros (r & Hin & Hn). assert (is_Some (latest_faults rs !! n)) as [r' Hr'].
      { rewrite latest_faults_lookup. apply last_is_Some. intros Hnil. assert (r ∈ List.filter (λ r, ft_Number r =? n) rs) as Hf.
        { apply list_elem_of_In, List.filter_In. split; [by apply list_elem_of_In|lia]. }
        rewrite Hnil in Hf. by apply not_elem_of_nil in Hf. }
      exists r'. rewrite merge_sort_Permutation. split; [apply list_elem_of_fmap; exists (n, r'); split; [done|by apply elem_of_map_to_list]|].
      rewrite latest_faults_lookup in Hr'. apply last_Some_elem_of, list_elem_of_In, List.filter_In in Hr' as [_ H]. lia.
    + intros (r & Hin & Hn). rewrite merge_sort_Permutation in Hin. apply list_elem_of_fmap in Hin as ([m r'] & -> & Hin).
      apply elem_of_map_to_list in Hin. rewrite latest_faults_lookup in Hin.
      apply last_Some_elem_of, list_elem_of_In, List.filter_In in Hin as [Hin _]. exists r'. split; [by apply list_elem_of_In|done].
Qed.
