(* ===== verification/Bench.v ===== *)
(** The history of micro-benchmarks, a row per commit: [src/bench/harness/microbench.go].

    Parsing and printing floating-point numbers, logarithms and exponentials are
    arguments.  The index of a spark is a panic when the conversion of its float64
    is no index, as it is on amd64. *)

From S2P Require Import Prelude GoStd Floats Regexp Schema Engine Introspect Ctl Sources Harness.

Local Open Scope Z_scope.

(** ** Results *)

Record BenchResult := mkBench { bn_Name : string; bn_NsPerOp : float64; bn_BytesPerOp : Z; bn_AllocsPerOp : Z }.
Record BenchRow := mkBenchRow { bw_Commit : string; bw_Date : string; bw_Results : list BenchResult }.

(** [strings.Fields]. *)
Fixpoint fields_from (fuel : nat) (word s : string) : list string :=
  let flush := if bool_decide (word = "") then [] else [word] in
  match fuel, s with
  | O, _ | _, "" => flush
  | S fuel, String c s' =>
      match find (λ f, str_prefix f s) space_forms with
      | Some f => flush ++ fields_from fuel "" (str_drop (String.length f) s)
      | None => fields_from fuel (word +:+ String c "") s'
      end
  end.
Definition Fields (s : string) : list string := fields_from (String.length s) "" s.

Definition trimProcSuffix (name : string) : string :=
  match str_LastIndex name "-" with
  | Some i => if (0 <? i)%nat && is_ok (ParseInt (str_drop (S i) name)) then str_take i name else name
  | None => name
  end.

(** The pairs of a value and its unit that follow the time. *)
Fixpoint bench_units (res : BenchResult) (fields : list string) : BenchResult :=
  match fields with
  | v :: unit :: fields =>
      bench_units
        (match ParseInt v with
         | Ok v => if bool_decide (unit = "B/op") then mkBench (bn_Name res) (bn_NsPerOp res) v (bn_AllocsPerOp res)
                   else if bool_decide (unit = "allocs/op") then mkBench (bn_Name res) (bn_NsPerOp res) (bn_BytesPerOp res) v
                   else res
         | _ => res
         end) fields
  | _ => res
  end.

Definition bench_line (ParseFloat : string → option float64) (line : string) : option BenchResult :=
  match Fields line with
  | name :: _ :: ns :: op :: units =>
      if negb (str_prefix "Benchmark" name) then None
      else if negb (bool_decide (op = "ns/op")) then None
      else ns ← ParseFloat ns; Some (bench_units (mkBench (trimProcSuffix name) ns 0 0) units)
  | _ => None
  end.

(** [lines]: what the scanner makes of the output. *)
Definition ParseBenchmarks (ParseFloat : string → option float64) (lines : result (list string)) : result (list BenchResult) :=
  match lines with
  | Ok lines => Ok (omap (bench_line ParseFloat) lines)
  | Err e => Err (Wrapf "harness: read benchmark output" e)
  | Panic w => Panic w
  end.

(** ** Floats *)

(** [math.Abs], [math.Min] and [math.Max]. *)
Definition f_abs : float64 → float64 := SFabs.
Definition f_min (x y : float64) : float64 :=
  match x, y with
  | S754_infinity true, _ | _, S754_infinity true => S754_infinity true
  | S754_nan, _ | _, S754_nan => S754_nan
  | S754_zero s, S754_zero _ => if s then x else y
  | _, _ => if f_lt x y then x else y
  end.
Definition f_max (x y : float64) : float64 :=
  match x, y with
  | S754_infinity false, _ | _, S754_infinity false => S754_infinity false
  | S754_nan, _ | _, S754_nan => S754_nan
  | S754_zero s, S754_zero _ => if s then y else x
  | _, _ => if f_lt y x then x else y
  end.

Definition least (first : float64) (vs : list float64) : float64 := foldl f_min first vs.
Definition greatest (first : float64) (vs : list float64) : float64 := foldl f_max first vs.

(** [(c / p - 1) * 100]. *)
Definition percent (c p : float64) : float64 := f_mul (f_sub (f_div c p) f_one) (f_of_int 100).

(** ** Reading movements *)

Definition uniformShiftFloor : float64 := f_of_int 10.
Definition uniformShiftSpread : float64 := f_of_int 10.

Definition one_shift (deltas : list float64) : bool :=
  match deltas with
  | [] => false
  | first :: _ =>
      forallb (λ d, Bool.eqb (f_lt f_zero d) (f_lt f_zero first)) deltas &&
      f_le uniformShiftFloor (f_abs (least first deltas)) &&
      f_le (f_sub (greatest first deltas) (least first deltas)) uniformShiftSpread
  end.

(** The movement of a benchmark, if both times are positive. *)
Definition movement (cur prev : gmap string BenchResult) (name : string) : option float64 :=
  let ns m := match m !! name with Some r => bn_NsPerOp r | None => f_zero end in
  if f_le (ns cur) f_zero || f_le (ns prev) f_zero then None else Some (percent (ns cur) (ns prev)).

Definition looksLikeHostEffect (cur prev : gmap string BenchResult) (shared : list string) : bool :=
  if (length shared <? 3)%nat then false
  else match mapM (movement cur prev) shared with Some deltas => one_shift deltas | None => false end.

Definition uniform (deltas : list float64) : bool := if (length deltas <? 3)%nat then false else one_shift deltas.

(** The results of a name over the rows, in order. *)
Definition results_of (rows : list BenchRow) (name : string) : list BenchResult :=
  rows ≫= λ r, List.filter (λ res, bool_decide (bn_Name res = name)) (bw_Results r).

Definition allocationsFlat (rows : list BenchRow) (names : list string) : bool :=
  forallb (λ name, match results_of rows name with
                   | [] => true
                   | (first :: _) as seen => forallb (λ r, bn_AllocsPerOp r =? bn_AllocsPerOp first) seen
                   end) names.

Definition pick (pct : float64) (slower faster : string) : string := if f_lt f_zero pct then slower else faster.

Definition trendBar (pct : float64) : string :=
  let mag := f_abs pct in
  if f_lt mag (f_of_int 2) then "▬"
  else if f_lt mag (f_of_int 10) then pick pct "▲" "▽"
  else if f_lt mag (f_of_int 50) then pick pct "▲▲" "▽▽"
  else pick pct "▲▲▲" "▽▽▽".

Definition sparkRunes : list string := ["▁"; "▂"; "▃"; "▄"; "▅"; "▆"; "▇"; "█"].

(** [int] of a float64, when it is finite. *)
Definition f_index (x : float64) : option Z := match x with S754_nan | S754_infinity _ => None | _ => Some (f_int x) end.

Definition spark (lo hi v : float64) : result string :=
  match f_index (f_mul (f_div (f_sub v lo) (f_sub hi lo)) (f_of_int (Z.of_nat (length sparkRunes) - 1))) with
  | Some i => if i <? 0 then Panic "index out of range"
              else match sparkRunes !! Z.to_nat i with Some s => Ok s | None => Panic "index out of range" end
  | None => Panic "index out of range"
  end.

Definition Sparkline (values : list float64) : result string :=
  match values with
  | [] => Ok ""
  | first :: _ =>
      let lo := least first values in
      let hi := greatest first values in
      if negb (f_ne hi lo) then Ok (str_repeat "▁" (length values))
      else foldr (λ v acc, s ← spark lo hi v; t ← acc; Ok (s +:+ t)) (Ok "") values
  end.

(** ** Rendering *)

(** The name without the part all names share. *)
Definition short_name (name : string) : string := TrimPrefix name "Benchmark".

Definition missing : string := "—".

(** Each text on a line of its own. *)
Fixpoint text_lines (ls : list string) : string :=
  match ls with [] => "" | l :: ls => l +:+ newline +:+ text_lines ls end.

Definition benchNames (rows : list BenchRow) : list string :=
  sort_Strings (elements (list_to_set (C := gset string) (bn_Name <$> (rows ≫= bw_Results)))).

(** The last result of each name. *)
Definition by_name (results : list BenchResult) : gmap string BenchResult := foldl (λ m r, <[bn_Name r := r]> m) ∅ results.

(** The newest row of each commit. *)
Fixpoint unique_rows (seen : gset string) (rows : list BenchRow) : list BenchRow :=
  match rows with
  | [] => []
  | r :: rows => if bool_decide (bw_Commit r ∈ seen) then unique_rows seen rows
                 else r :: unique_rows ({[bw_Commit r]} ∪ seen) rows
  end.

Section history.
(** Parsing a float, printing one with so many decimals and one with its sign and
    none, and the two functions of a geometric mean. *)
Context (ParseFloat : string → option float64) (fixed : nat → float64 → string) (signed : float64 → string)
  (Log Exp : float64 → float64).

Definition formatNs (ns : float64) : string :=
  if f_le (f_of_int 1000000) ns then fixed 2 (f_div ns (f_of_int 1000000)) +:+ "ms"
  else if f_le (f_of_int 1000) ns then fixed 2 (f_div ns (f_of_int 1000)) +:+ "µs"
  else fixed 1 ns +:+ "ns".

Definition parseNs (s : string) : option float64 :=
  if str_suffix "ms" s then (λ v, f_mul v (f_of_int 1000000)) <$> ParseFloat (TrimSuffix s "ms")
  else if str_suffix "µs" s then (λ v, f_mul v (f_of_int 1000)) <$> ParseFloat (TrimSuffix s "µs")
  else if str_suffix "ns" s then ParseFloat (TrimSuffix s "ns")
  else None.

Definition geomeanNs (results : gmap string BenchResult) (names : list string) : option float64 :=
  let times := omap (λ name, r ← results !! name; if f_le (bn_NsPerOp r) f_zero then None else Some (bn_NsPerOp r)) names in
  match times with
  | [] => None
  | _ => Some (Exp (f_div (foldl (λ sum t, f_add sum (Log t)) f_zero times) (f_of_int (Z.of_nat (length times)))))
  end.

Definition signed_int (n : Z) : string := if n <? 0 then FormatInt n else "+" +:+ FormatInt n.

Definition trendCell (cur prev : gmap string BenchResult) : string :=
  let shared := sort_Strings (List.filter (λ n, is_some (prev !! n)) (map_to_list cur).*1) in
  match geomeanNs cur shared, geomeanNs prev shared with
  | Some curMean, Some prevMean =>
      if negb (f_ne prevMean f_zero) then missing
      else
        let pct := percent curMean prevMean in
        let allocs m name := match m !! name with Some r => bn_AllocsPerOp r | None => 0 end in
        let allocDelta := foldl (λ d name, i64 (d + i64 (allocs cur name - allocs prev name))) 0 shared in
        if (allocDelta =? 0) && looksLikeHostEffect cur prev shared then "≈ " +:+ signed pct +:+ "% · host?"
        else trendBar pct +:+ " " +:+ signed pct +:+ "%" +:+
             (if allocDelta =? 0 then "" else " · allocs " +:+ signed_int allocDelta)
  | _, _ => missing
  end.

Definition header_line (names : list string) : string :=
  "| Commit | Date |" +:+ foldr (λ n acc, " " +:+ short_name n +:+ "<br/><sub>ns/op · allocs/op</sub> |" +:+ acc) "" names +:+
  " Trend<br/><sub>ns/op vs previous</sub> |".
Definition rule_line (names : list string) : string :=
  "|---|---|" +:+ foldr (λ _ acc, "---|" +:+ acc) "" names +:+ "---|".

Definition bench_cell (byName : gmap string BenchResult) (name : string) : string :=
  match byName !! name with
  | None => missing
  | Some res => formatNs (bn_NsPerOp res) +:+ " · " +:+ FormatInt (bn_AllocsPerOp res)
  end.

(** A row with its movement against the row below it. *)
Definition bench_row_line (names : list string) (r : BenchRow) (below : list BenchRow) : string :=
  let byName := by_name (bw_Results r) in
  "| `" +:+ bw_Commit r +:+ "` | " +:+ bw_Date r +:+ " |" +:+
  foldr (λ n acc, " " +:+ bench_cell byName n +:+ " |" +:+ acc) "" names +:+ " " +:+
  match below with prev :: _ => trendCell byName (by_name (bw_Results prev)) | [] => missing end +:+ " |".

Fixpoint row_lines (names : list string) (rows : list BenchRow) : list string :=
  match rows with r :: rows => bench_row_line names r rows :: row_lines names rows | [] => [] end.

(** The spark of a benchmark measured more than once, and its movement end to end. *)
Definition trend_line (rows : list BenchRow) (width : nat) (name : string) : result (option (string * float64)) :=
  match bn_NsPerOp <$> results_of (reverse rows) name with
  | (oldest :: _ :: _) as series =>
      let newest := default oldest (last series) in
      let pct := if f_lt f_zero oldest then percent newest oldest else f_zero in
      sparks ← Sparkline series;
      Ok (Some (pad_right width (short_name name) +:+ "  " +:+ sparks +:+ "  " +:+ formatNs oldest +:+ " → " +:+ formatNs newest +:+
                "  (" +:+ signed pct +:+ "%)", pct))
  | _ => Ok None
  end.

Definition trend_head : list string :=
  [""; "## Trend"; "";
   "One line per benchmark, oldest to newest, scaled to that benchmark's own range —";
   "so the shapes show movement and cannot be compared BETWEEN benchmarks. Read them for";
   "direction; read the table for values."; ""; "```"].
Definition host_note : list string :=
  [""; "Every benchmark above moved the same way by a similar amount, and no allocation count";
   "changed. That is usually the MACHINE rather than the code: unrelated code paths do not";
   "get uniformly faster together, and a change that made them faster would almost always";
   "show up in allocations too."].

Definition renderTrendSection (rows : list BenchRow) (names : list string) : result (list string) :=
  if (length rows <? 2)%nat then Ok []
  else
    let width := foldl (λ w n, max w (String.length (short_name n))) 0%nat names in
    drawn ← foldr (λ n acc, l ← trend_line rows width n; ls ← acc; Ok (option_list l ++ ls)) (Ok []) names;
    Ok (trend_head ++ drawn.*1 ++ ["```"] ++ (if uniform drawn.*2 && allocationsFlat rows names then host_note else [])).

Definition benchTableHeader : string :=
"# Benchmark history, per commit

> **Generated by CI. Do not edit.** Updated by `.github/workflows/bench.yml` on every push
> that touches `internal/**` or `pkg/**`. Every row here was measured by the same class of
> runner, which is the only reason the rows are comparable to each other at all. Do not add one by
> hand: a row measured on a developer machine is indistinguishable from a CI row and reads as a
> regression when the only thing that changed was the hardware.
>
> **These are regression signals, not published benchmarks.** They run on a shared GitHub Actions
> runner, which is the environment [the benchmarking methodology](../docs/cachet-benchmarking.md)
> describes as giving latency that is neither predictable nor representative. Do not quote a ns/op
> from this file as a measurement of Cachet.
>
> **The allocs/op column is the one to trust.** Allocation counts do not depend on how fast or how
> busy the machine is, so a change there is a real change in the code every time. ns/op is noisy in
> absolute terms but still catches what matters: the admission defect that cost 630ms of tail
> latency showed up here as a 4x regression, which no amount of runner noise would have hidden.
>
> Published figures live in the [README benchmark table](../README.md#benchmarks), measured by
> `make bench` on a host whose characteristics are disclosed.

".

(** ** Reading a table back *)

Definition is_bar (c : ascii) : bool := is_char "|" c.
Definition is_tick (c : ascii) : bool := is_char "`" c || is_char " " c.

Definition splitRow (line : string) : list string := TrimSpace <$> split_byte "|" (str_Trim is_bar line).

(** The benchmark of a column; the trend is none. *)
Definition column_name (cell : string) : option string :=
  let name := TrimSpace (default cell (fst <$> cut_str cell "<br/>")) in
  if bool_decide (name = "Trend") then None else Some ("Benchmark" +:+ name).

Definition header_names (line : string) : result (list string) :=
  match splitRow line with
  | _ :: _ :: cells => Ok (omap column_name cells)
  | _ => Panic "slice bounds out of range"
  end.

(** [strconv.ParseInt] with its error dropped: a number out of range is clamped. *)
Definition parse_clamped (s : string) : Z :=
  match ParseInt s with
  | Ok v => v
  | _ =>
      match s with
      | "" => 0
      | String c r =>
          let neg := is_char "-" c in
          let body := if neg || is_char "+" c then r else s in
          if bool_decide (body = "") || negb (str_all is_digit body) then 0 else if neg then - 2 ^ 63 else 2 ^ 63 - 1
      end
  end.

Definition parse_cell (name cell : string) : option BenchResult :=
  if bool_decide (TrimSpace cell = missing) then None
  else
    '(nsText, allocsText) ← cut_str cell "·";
    ns ← parseNs (TrimSpace nsText);
    Some (mkBench name ns 0 (parse_clamped (TrimSpace allocsText))).

Definition parse_row (names : list string) (line : string) : option BenchRow :=
  match splitRow line with
  | commit :: date :: cells =>
      Some (mkBenchRow (str_Trim is_tick commit) (TrimSpace date)
              (omap (λ nc, parse_cell nc.1 nc.2) (zip names cells)))
  | _ => None
  end.

Fixpoint parse_lines (names : list string) (lines : list string) : result (list BenchRow) :=
  match lines with
  | [] => Ok []
  | line :: lines =>
      if str_prefix "| Commit |" line then names ← header_names line; parse_lines names lines
      else if str_prefix "| `" line then rows ← parse_lines names lines; Ok (option_list (parse_row names line) ++ rows)
      else parse_lines names lines
  end.

Definition parseBenchTable (existing : string) : result (list BenchRow) :=
  if bool_decide (existing = "") then Ok [] else parse_lines [] (split_byte (byte_of 10) existing).

(** The rows a table has once a row is folded in. *)
Definition kept_rows (row : BenchRow) (parsed : list BenchRow) (keep : Z) : list BenchRow :=
  let keep := if keep <=? 0 then 25 else keep in
  take (Z.to_nat keep) (unique_rows ∅ (row :: parsed)).

Definition RenderBenchTable (existing : string) (row : BenchRow) (keep : Z) : result string :=
  parsed ← parseBenchTable existing;
  let unique := kept_rows row parsed keep in
  let names := benchNames unique in
  trend ← renderTrendSection unique names;
  Ok (benchTableHeader +:+ text_lines ([header_line names; rule_line names] ++ row_lines names unique ++ trend)).

Definition RerenderBenchTable (existing : string) (keep : Z) : result string :=
  rows ← parseBenchTable existing;
  match rows with
  | [] => Ok existing
  | row :: _ => RenderBenchTable existing row keep
  end.
End history.
