(* ===== verification/BenchSpec.v ===== *)
(** The history of micro-benchmarks reads back: a row per commit, newest first, and
    of each benchmark its last time, as rounded, and its allocations. *)

From S2P Require Import Prelude GoStd Floats Regexp Schema Engine Introspect Table Ctl Sources Harness Results ResultsSpec Bench.

Local Open Scope Z_scope.

(** ** Lemmas: printable text *)

Definition printable (c : ascii) : bool := (33 <=? byte_val c) && (byte_val c <=? 126) && negb (is_char "|" c).

Definition head_ok (s : string) : bool := match s with String c _ => printable c | "" => true end.
Definition tail_ok (s : string) : bool := head_ok (str_rev s "").

Lemma all_head s : str_all printable s = true → head_ok s = true.
Proof. destruct s; [done|]. cbn. by intros [H _]%andb_true_iff. Qed.

Lemma str_all_rev P s : ∀ acc, str_all P (str_rev s acc) = str_all P s && str_all P acc.
Proof.
  induction s as [|c s IH]; intros acc; [done|]. cbn [str_rev str_all]. rewrite IH. cbn [str_all].
  by destruct (P c), (str_all P s).
Qed.

Lemma all_tail s : str_all printable s = true → tail_ok s = true.
Proof. intros H. apply all_head. rewrite str_all_rev, H. done. Qed.

Lemma tail_ok_app a b : b ≠ "" → tail_ok (a +:+ b) = tail_ok b.
Proof.
  intros Hb. unfold tail_ok. rewrite str_rev_app, (str_rev_acc b). destruct (str_rev b "") eqn:E; [|done].
  apply (f_equal (λ s, str_rev s "")) in E. rewrite str_rev_involutive in E. done.
Qed.

Lemma head_ok_app a b : a ≠ "" → head_ok (a +:+ b) = head_ok a.
Proof. by destruct a. Qed.

Lemma printable_no_space c s forms : forms = space_forms ∨ forms = ((λ f, str_rev f "") <$> space_forms) →
  printable c = true → find (λ f, str_prefix f (String c s)) forms = None.
Proof.
  intros [-> | ->]; destruct c as [[] [] [] [] [] [] [] []]; intros H; vm_compute in H; try discriminate H; reflexivity.
Qed.

Lemma trim_forms_head forms n s : forms = space_forms ∨ forms = ((λ f, str_rev f "") <$> space_forms) →
  head_ok s = true → trim_forms n forms s = s.
Proof.
  intros Hf Hs. destruct n as [|n], s as [|c s]; cbn [trim_forms]; try done.
  - by destruct Hf as [-> | ->].
  - by rewrite printable_no_space.
Qed.

Lemma trim_forms_space forms n s : forms = space_forms ∨ forms = ((λ f, str_rev f "") <$> space_forms) →
  trim_forms (S n) forms (String " " s) = trim_forms n forms s.
Proof. intros [-> | ->]; cbn [trim_forms]; reflexivity. Qed.

Lemma TrimSpace_left s : TrimSpace (String " " s) = TrimSpace s.
Proof.
  unfold TrimSpace. change (String.length (String " " s)) with (S (String.length s)).
  by rewrite (trim_forms_space space_forms) by auto.
Qed.

Lemma TrimSpace_edged s : head_ok s = true → tail_ok s = true → TrimSpace s = s.
Proof.
  intros Hh Ht. unfold TrimSpace. rewrite (trim_forms_head space_forms) by auto.
  rewrite trim_forms_head by auto. apply str_rev_involutive.
Qed.

Lemma TrimSpace_right s : head_ok s = true → tail_ok s = true → TrimSpace (s +:+ " ") = s.
Proof.
  intros Hh Ht. destruct s as [|c s]; [reflexivity|]. unfold TrimSpace.
  rewrite (trim_forms_head space_forms) by auto. rewrite str_rev_app. cbn [str_rev].
  rewrite str_length_app, Nat.add_comm. change (String.length " " + ?n)%nat with (S n).
  rewrite trim_forms_space by auto. rewrite trim_forms_head by auto. apply (str_rev_involutive (String c s)).
Qed.

Lemma TrimSpace_cell s : head_ok s = true → tail_ok s = true → TrimSpace (" " +:+ s +:+ " ") = s.
Proof. intros. change (" " +:+ ?x) with (String " " x). rewrite TrimSpace_left. by apply TrimSpace_right. Qed.

(** A sub-string found after a prefix none of whose bytes can begin it. *)
Lemma str_index_skip c sub p t i : contains_byte c p = false →
  str_index (p +:+ t) (String c sub) i = str_index t (String c sub) (i + String.length p).
Proof.
  revert i. induction p as [|d p IH]; intros i; [cbn; by rewrite Nat.add_0_r|]. cbn [contains_byte]. intros [Hd Hp]%orb_false_iff.
  rewrite str_app_cons. cbn [str_index str_prefix]. rewrite bool_decide_eq_false_2 by (apply bool_decide_eq_false in Hd; congruence).
  cbn [andb]. rewrite IH by done. f_equal. cbn. lia.
Qed.

Lemma str_index_here c sub t i : str_index (String c sub +:+ t) (String c sub) i = Some i.
Proof. cbn [str_index]. rewrite str_app_cons. pose proof (str_prefix_app (String c sub) t) as H. rewrite str_app_cons in H. cbn [str_index]. by rewrite H. Qed.

Lemma cut_str_at c sub p t : contains_byte c p = false → cut_str (p +:+ String c sub +:+ t) (String c sub) = Some (p, t).
Proof.
  intros Hp. unfold cut_str, str_Index. rewrite str_index_skip, str_index_here by done. cbn [Nat.add].
  rewrite str_take_length_app. f_equal. f_equal.
  rewrite str_app_assoc, <-str_length_app. apply str_drop_length_app.
Qed.

Lemma printable_no c s : str_all printable s = true → printable c = false → contains_byte c s = false.
Proof. apply str_all_contains. Qed.

(** ** Lemmas: lines *)

Lemma newline_eq : newline = String (byte_of 10) "".
Proof. done. Qed.

Lemma split_text_lines ls : Forall one_line ls → split_byte (byte_of 10) (text_lines ls) = ls ++ [""].
Proof.
  induction 1 as [|l ls Hl _ IH]; [done|]. cbn [text_lines]. change (newline +:+ text_lines ls) with (String (byte_of 10) (text_lines ls)).
  rewrite split_byte_app by done. cbn. by rewrite IH.
Qed.

Lemma text_lines_app ls ls' : text_lines (ls ++ ls') = text_lines ls +:+ text_lines ls'.
Proof. induction ls as [|l ls IH]; [done|]. cbn [app text_lines]. by rewrite IH, !str_app_assoc. Qed.

(** ** Lemmas: rows of a table *)

(** The pieces of a row, each ended by a bar. *)
Lemma pieces_join p ps : "|" +:+ p +:+ "|" +:+ foldr (λ q acc, q +:+ "|" +:+ acc) "" ps = "|" +:+ join "|" (p :: ps) +:+ "|".
Proof.
  revert p. induction ps as [|q ps IH]; intros p; [done|]. cbn [foldr join]. specialize (IH q). cbn in IH. injection IH as IH.
  change (join "|" (q :: ps)) with (join "|" (q :: ps)) in *. f_equal. rewrite <-!str_app_assoc. f_equal. f_equal. exact IH.
Qed.

Lemma trim_bars m : str_Trim is_bar ("|" +:+ " " +:+ m +:+ " |") = " " +:+ m +:+ " ".
Proof.
  unfold str_Trim, trim_right_set. change ("|" +:+ " " +:+ ?x) with (String "|" (String " " x)). cbn [trim_left_set].
  change (is_bar "|") with true. change (is_bar " ") with false. cbv iota.
  assert (∀ x, str_rev (String " " (x +:+ " |")) "" = String "|" (str_rev (String " " (x +:+ " ")) "")) as Hrev.
  { intros x. cbn [str_rev]. by rewrite !str_rev_app. }
  rewrite Hrev. cbn [trim_left_set]. change (is_bar "|") with true. cbv iota.
  assert (∀ x, ∃ y, str_rev (String " " (x +:+ " ")) "" = String " " y) as Hsp.
  { intros x. cbn [str_rev]. rewrite str_rev_app. by eexists. }
  destruct (Hsp m) as [y Hy]. rewrite Hy. cbn [trim_left_set]. change (is_bar " ") with false. cbv iota. rewrite <-Hy.
  apply str_rev_involutive.
Qed.

(** ** Lemmas: times *)

Lemma str_suffix_spec suf s : str_suffix suf s = true ↔ ∃ a, s = a +:+ suf.
Proof.
  split.
  - induction s as [|c s IH]; cbn [str_suffix]; intros [H|H]%orb_true_iff.
    + apply bool_decide_eq_true in H as <-. by exists "".
    + done.
    + apply bool_decide_eq_true in H as <-. by exists "".
    + destruct (IH H) as [a ->]. by exists (String c a).
  - intros [a ->]. induction a as [|c a IH]; [destruct suf|]; cbn [String.append str_suffix]; rewrite ?bool_decide_eq_true_2 by done; [done..|].
    rewrite IH. apply orb_true_r.
Qed.

(** Texts that end differently. *)
Lemma str_suffix_differs suf p u :
  str_prefix (str_rev suf "") (str_rev u "" +:+ str_rev p "") = false → str_suffix suf (p +:+ u) = false.
Proof.
  intros H. apply not_true_iff_false. intros [a Ha]%str_suffix_spec. apply (f_equal (λ s, str_rev s "")) in Ha.
  rewrite !str_rev_app, (str_rev_acc u), (str_rev_acc suf) in Ha. rewrite Ha, str_prefix_app in H. done.
Qed.

Section laws.
Context (ParseFloat : string → option float64) (fixed : nat → float64 → string) (signed : float64 → string)
  (Log Exp : float64 → float64).

(** What is used of the standard library: a printed float is not empty, has no
    blank and no bar, and reads back as some number. *)
Record float_text : Prop := {
  ft_plain : ∀ n x, str_all printable (fixed n x) = true;
  ft_some : ∀ n x, fixed n x ≠ "";
  ft_reads : ∀ n x, is_Some (ParseFloat (fixed n x));
  ft_signed : ∀ x, str_all printable (signed x) = true;
}.
Context (Hft : float_text).

Notation formatNs := (formatNs fixed).
Notation parseNs := (parseNs ParseFloat).

Definition time_units : list string := ["ms"; "µs"; "ns"].

Lemma formatNs_shape x : ∃ n y u, formatNs x = fixed n y +:+ u ∧ u ∈ time_units.
Proof.
  unfold Bench.formatNs, time_units. case_match; [|case_match]; do 3 eexists; (split; [reflexivity|set_solver]).
Qed.

Lemma formatNs_reads x : is_Some (parseNs (formatNs x)).
Proof.
  destruct (formatNs_shape x) as (n & y & u & -> & Hu). destruct (ft_reads Hft n y) as [v Hv]. unfold Bench.parseNs.
  assert (∀ u, u ≠ "" → str_suffix u (fixed n y +:+ u) = true) as Hs by (intros u' _; apply str_suffix_spec; by eexists).
  unfold time_units in Hu. repeat (apply elem_of_cons in Hu as [->|Hu]); [..|by apply elem_of_nil in Hu].
  - rewrite Hs, TrimSuffix_app, Hv by done. by eexists.
  - rewrite (str_suffix_differs "ms"), Hs, TrimSuffix_app, Hv by done. by eexists.
  - rewrite (str_suffix_differs "ms"), (str_suffix_differs "µs"), Hs, TrimSuffix_app, Hv by done. by eexists.
Qed.

(** The time a row keeps of a measured one. *)
Definition kept_time (x : float64) : float64 := default x (parseNs (formatNs x)).

Lemma formatNs_head x : head_ok (formatNs x) = true ∧ formatNs x ≠ "".
Proof.
  destruct (formatNs_shape x) as (n & y & u & -> & Hu). pose proof (ft_some Hft n y). pose proof (ft_plain Hft n y) as Hp.
  split; [rewrite head_ok_app by done; by apply all_head|]. by destruct (fixed n y).
Qed.

Lemma formatNs_tail x : tail_ok (formatNs x) = true.
Proof.
  destruct (formatNs_shape x) as (n & y & u & -> & Hu). unfold time_units in Hu.
  repeat (apply elem_of_cons in Hu as [->|Hu]); [..|by apply elem_of_nil in Hu]; rewrite tail_ok_app; done.
Qed.

Lemma formatNs_no c x : printable c = false → c ≠ byte_of 194 → c ≠ byte_of 181 → contains_byte c (formatNs x) = false.
Proof.
  intros Hc H1 H2. destruct (formatNs_shape x) as (n & y & u & -> & Hu). rewrite contains_byte_app.
  rewrite (printable_no c (fixed n y)) by (done || apply Hft). cbn [orb]. unfold time_units in Hu.
  assert (contains_byte c "mns" = false) as Hp by (by apply printable_no).
  cbn [contains_byte] in Hp. rewrite !orb_false_iff, !bool_decide_eq_false in Hp. destruct Hp as (Hm & Hn & Hs & _).
  repeat (apply elem_of_cons in Hu as [->|Hu]); [..|by apply elem_of_nil in Hu];
    cbn [contains_byte]; rewrite !bool_decide_eq_false_2; try done; intros ->; by (apply H1 || apply H2 || congruence).
Qed.

(** ** Lemmas: numbers *)

Lemma digits_printable s : str_all is_digit s = true → str_all printable s = true.
Proof.
  induction s as [|c s IH]; [done|]. cbn [str_all]. intros [Hc Hs]%andb_true_iff. rewrite IH by done. rewrite andb_true_r.
  destruct c as [[] [] [] [] [] [] [] []]; vm_compute in Hc; try discriminate Hc; reflexivity.
Qed.

Lemma FormatInt_printable n : str_all printable (FormatInt n) = true ∧ FormatInt n ≠ "".
Proof.
  unfold FormatInt. destruct (Z.ltb_spec n 0).
  - destruct (FormatUint_spec (- n)) as (_ & Hd & _); [lia|]. split; [|done]. cbn [String.append str_all]. by rewrite (digits_printable _ Hd).
  - destruct (FormatUint_spec n) as (_ & Hd & Hne); [lia|]. split; [by apply digits_printable|done].
Qed.

Lemma ParseInt_FormatInt n : is_i64 n → ParseInt (FormatInt n) = Ok n.
Proof.
  unfold is_i64. intros Hn. unfold FormatInt, ParseInt. destruct (Z.ltb_spec n 0).
  - cbn [String.append]. rewrite bool_decide_eq_true_2 by done. cbn [orb]. rewrite ParseUint_FormatUint by lia. cbn [mbind result_bind].
    rewrite (proj2 (Z.leb_le _ _)) by lia. f_equal. lia.
  - destruct (FormatUint_spec n) as (_ & Hd & Hne); [lia|]. destruct (FormatUint n) as [|c r] eqn:E; [done|].
    cbn [str_all] in Hd. apply andb_true_iff in Hd as [Hc _].
    assert (c ≠ "-"%char ∧ c ≠ "+"%char) as [H1 H2] by (split; intros ->; discriminate Hc).
    rewrite !bool_decide_eq_false_2 by done. cbn [orb]. rewrite <-E, ParseUint_FormatUint by lia. cbn [mbind result_bind].
    by rewrite (proj2 (Z.ltb_lt _ _)) by lia.
Qed.

Lemma parse_FormatInt n : is_i64 n → parse_clamped (FormatInt n) = n.
Proof. intros Hn. unfold parse_clamped. by rewrite ParseInt_FormatInt. Qed.

(** ** Lemmas: rows *)

(** A benchmark whose name a column can carry, and a row of such. *)
Definition name_ok (name : string) : Prop :=
  ∃ m, name = "Benchmark" +:+ m ∧ str_all printable m = true ∧ contains_byte "<" m = false ∧ m ≠ "Trend".
Definition commit_char (c : ascii) : bool := printable c && negb (is_char "`" c).
Definition row_ok (r : BenchRow) : Prop :=
  str_all commit_char (bw_Commit r) = true ∧ str_all printable (bw_Date r) = true ∧
  ∀ res, res ∈ bw_Results r → name_ok (bn_Name res) ∧ is_i64 (bn_AllocsPerOp res).

(** What the history keeps of a result and of a row. *)
Definition kept_result (name : string) (res : BenchResult) : BenchResult := mkBench name (kept_time (bn_NsPerOp res)) 0 (bn_AllocsPerOp res).
Definition kept_row (names : list string) (r : BenchRow) : BenchRow :=
  mkBenchRow (bw_Commit r) (bw_Date r) (omap (λ n, kept_result n <$> by_name (bw_Results r) !! n) names).

Definition separator (c : ascii) : Prop := c = "|"%char ∨ c = byte_of 10.

Lemma separator_no c s : separator c → str_all printable s = true → contains_byte c s = false.
Proof. intros [-> | ->] Hs; by apply printable_no. Qed.

Lemma separator_time c x : separator c → contains_byte c (formatNs x) = false.
Proof. intros [-> | ->]; apply formatNs_no; done. Qed.

Lemma cell_no c byName name : separator c → contains_byte c (bench_cell fixed byName name) = false.
Proof.
  intros Hc. unfold bench_cell. destruct (byName !! name) as [res|]; [|by destruct Hc as [-> | ->]].
  rewrite !contains_byte_app, separator_time, (separator_no c (FormatInt _)) by (done || apply FormatInt_printable).
  by destruct Hc as [-> | ->].
Qed.

Lemma cell_trimmed byName name : TrimSpace (" " +:+ bench_cell fixed byName name +:+ " ") = bench_cell fixed byName name ∧
  TrimSpace (bench_cell fixed byName name) = bench_cell fixed byName name.
Proof.
  unfold bench_cell. destruct (byName !! name) as [res|]; [|split; reflexivity].
  destruct (formatNs_head (bn_NsPerOp res)) as [Hh Hne]. destruct (FormatInt_printable (bn_AllocsPerOp res)) as [Ha Hane].
  assert (head_ok (formatNs (bn_NsPerOp res) +:+ " · " +:+ FormatInt (bn_AllocsPerOp res)) = true) as H1 by (by rewrite head_ok_app).
  assert (tail_ok (formatNs (bn_NsPerOp res) +:+ " · " +:+ FormatInt (bn_AllocsPerOp res)) = true) as H2.
  { rewrite str_app_assoc, tail_ok_app by done. by apply all_tail. }
  split; [by apply TrimSpace_cell|by apply TrimSpace_edged].
Qed.

Lemma cut_dot x t : cut_str (formatNs x +:+ " · " +:+ t) "·" = Some (formatNs x +:+ " ", " " +:+ t).
Proof.
  assert (str_Index (formatNs x +:+ " · " +:+ t) "·" = Some (String.length (formatNs x +:+ " "))) as Hi.
  { destruct (formatNs_shape x) as (n & y & u & -> & Hu). unfold str_Index. rewrite <-!str_app_assoc.
    rewrite str_index_skip by (apply printable_no; [apply Hft|done]). rewrite !str_length_app. unfold time_units in Hu.
    repeat (apply elem_of_cons in Hu as [->|Hu]); [..|by apply elem_of_nil in Hu]; cbn; f_equal; lia. }
  unfold cut_str. rewrite Hi. replace (formatNs x +:+ " · " +:+ t) with ((formatNs x +:+ " ") +:+ "·" +:+ " " +:+ t) by (by rewrite <-!str_app_assoc).
  rewrite str_take_length_app. do 2 f_equal. rewrite str_app_assoc, <-str_length_app. apply str_drop_length_app.
Qed.

Lemma parse_bench_cell byName name : (∀ res, byName !! name = Some res → is_i64 (bn_AllocsPerOp res)) →
  parse_cell ParseFloat name (bench_cell fixed byName name) = kept_result name <$> byName !! name.
Proof.
  intros Ha. unfold parse_cell. rewrite (proj2 (cell_trimmed byName name)). unfold bench_cell.
  destruct (byName !! name) as [res|]; [|done]. destruct (formatNs_head (bn_NsPerOp res)) as [Hh Hne].
  rewrite bool_decide_eq_false_2.
  2: { intros He. apply (f_equal head_ok) in He. rewrite head_ok_app, Hh in He by done. discriminate He. }
  rewrite cut_dot. cbn [mbind option_bind]. rewrite TrimSpace_right by (done || apply formatNs_tail).
  destruct (formatNs_reads (bn_NsPerOp res)) as [v Hv]. rewrite Hv. cbn [mbind option_bind fmap option_fmap option_map].
  destruct (FormatInt_printable (bn_AllocsPerOp res)) as [Hp Hpne].
  change (" " +:+ ?x) with (String " " x). rewrite TrimSpace_left, TrimSpace_edged by first [by apply all_head|by apply all_tail].
  rewrite parse_FormatInt by by apply Ha. unfold kept_result, kept_time. by rewrite Hv.
Qed.

(** Cells between bars. *)
Definition spaced (x : string) : string := " " +:+ x +:+ " ".
Definition bars (contents : list string) : string := "|" +:+ join "|" (spaced <$> contents) +:+ "|".

Lemma join_spaced contents : contents ≠ [] → ∃ m, join "|" (spaced <$> contents) = " " +:+ m +:+ " ".
Proof.
  induction contents as [|x xs IH]; [done|]. intros _. destruct xs as [|y ys]; [by exists x|].
  destruct IH as [m Hm]; [done|]. rewrite !fmap_cons in *. cbn [join] in *. rewrite Hm. exists (x +:+ " | " +:+ m).
  unfold spaced. by rewrite <-!str_app_assoc.
Qed.

Lemma splitRow_bars contents : contents ≠ [] → Forall (λ x, contains_byte "|" x = false) contents →
  splitRow (bars contents) = (λ x, TrimSpace (spaced x)) <$> contents.
Proof.
  intros Hne Hall. unfold splitRow, bars. destruct (join_spaced contents Hne) as [m Hm].
  assert (str_Trim is_bar ("|" +:+ join "|" (spaced <$> contents) +:+ "|") = join "|" (spaced <$> contents)) as ->.
  { rewrite Hm. rewrite <-(trim_bars m) at 2. f_equal. by rewrite <-!str_app_assoc. }
  rewrite split_join; [by rewrite <-list_fmap_compose| |by destruct contents].
  apply Forall_fmap. eapply Forall_impl; [exact Hall|]. intros x Hx. unfold spaced. cbn. by rewrite !contains_byte_app, Hx.
Qed.

Lemma bars_one_line contents : Forall one_line contents → one_line (bars contents).
Proof.
  intros Hall. unfold one_line, bars. rewrite !contains_byte_app, contains_join; [done..|].
  apply Forall_fmap. eapply Forall_impl; [exact Hall|]. intros x Hx. unfold one_line in Hx. unfold spaced. cbn. by rewrite !contains_byte_app, Hx.
Qed.

(** The text of a line, cell by cell. *)
Definition cell_text (x acc : string) : string := " " +:+ x +:+ " |" +:+ acc.

Lemma bars_cells contents : contents ≠ [] → bars contents = "|" +:+ foldr cell_text "" contents.
Proof.
  intros Hne. unfold bars. f_equal. induction contents as [|x xs IH]; [done|]. cbn [foldr]. destruct xs as [|y ys].
  - unfold cell_text, spaced. cbn. by rewrite <-!str_app_assoc.
  - rewrite <-IH by done. rewrite !fmap_cons. cbn [join]. unfold cell_text, spaced at 1. by rewrite <-!str_app_assoc.
Qed.

Lemma cells_app (f : string → string) names t :
  foldr (λ n acc, cell_text (f n) acc) "" names +:+ t = foldr cell_text t (f <$> names).
Proof.
  induction names as [|n names IH]; [done|]. cbn [foldr fmap list_fmap]. rewrite <-IH. unfold cell_text. by rewrite <-!str_app_assoc.
Qed.

Lemma row_bars names r below : ∃ last_,
  bench_row_line fixed signed Log Exp names r below =
  bars (("`" +:+ bw_Commit r +:+ "`") :: bw_Date r :: (bench_cell fixed (by_name (bw_Results r)) <$> names) ++ [last_]) ∧
  ∀ c, separator c → contains_byte c last_ = false.
Proof.
  exists (match below with prev :: _ => trendCell signed Log Exp (by_name (bw_Results r)) (by_name (bw_Results prev)) | [] => missing end).
  split.
  - rewrite bars_cells by done. cbn [foldr]. rewrite foldr_app. cbn [foldr]. unfold bench_row_line.
    rewrite <-cells_app. unfold cell_text at 1 2. rewrite <-!str_app_assoc. cbn [String.append]. by do 3 f_equal.
  - intros c Hc. assert (∀ x, contains_byte c (signed x) = false) as Hs by (intros x; apply separator_no; [done|apply Hft]).
    assert (∀ n, contains_byte c (signed_int n) = false) as Hi.
    { intros n. unfold signed_int. destruct (FormatInt_printable n) as [Hn _]. case_ifs;
        rewrite ?contains_byte_app, (separator_no c (FormatInt n)) by done; [done|by destruct Hc as [-> | ->]]. }
    assert (∀ x, contains_byte c (trendBar x) = false) as Hb.
    { intros x. unfold trendBar, pick. case_ifs; by destruct Hc as [-> | ->]. }
    destruct below as [|prev below]; [by destruct Hc as [-> | ->]|]. unfold trendCell.
    repeat case_match; rewrite ?contains_byte_app, ?Hs, ?Hb, ?Hi; by destruct Hc as [-> | ->].
Qed.

Lemma commit_printable s : str_all commit_char s = true → str_all printable s = true.
Proof.
  induction s as [|c s IH]; [done|]. cbn [str_all]. unfold commit_char at 1. rewrite !andb_true_iff. intros [[H _] Hs]. auto.
Qed.

Lemma tick_stops s t : str_all commit_char s = true → s ≠ "" → trim_left_set is_tick (s +:+ t) = s +:+ t.
Proof.
  destruct s as [|d r]; [done|]. cbn [str_all]. intros [Hd _]%andb_true_iff _. rewrite str_app_cons. cbn [trim_left_set].
  assert (is_tick d = false) as ->; [|done].
  destruct d as [[] [] [] [] [] [] [] []]; vm_compute in Hd; first [discriminate Hd|reflexivity].
Qed.

Lemma trim_ticks c : str_all commit_char c = true → str_Trim is_tick ("`" +:+ c +:+ "`") = c.
Proof.
  intros Hc. unfold str_Trim, trim_right_set. change ("`" +:+ ?x) with (String "`" x). cbn [trim_left_set].
  change (is_tick "`") with true. cbv iota. destruct (decide (c = "")) as [->|Hne]; [reflexivity|].
  rewrite tick_stops, str_rev_app by done. cbn [str_rev trim_left_set]. change (is_tick "`") with true. cbv iota.
  rewrite <-(str_app_nil_r (str_rev c "")), tick_stops, str_app_nil_r; [apply str_rev_involutive|by rewrite str_all_rev, Hc|].
  intros He. apply (f_equal (λ s, str_rev s "")) in He. by rewrite str_rev_involutive in He.
Qed.

Lemma by_name_elem rs n res : by_name rs !! n = Some res → res ∈ rs ∧ bn_Name res = n.
Proof.
  unfold by_name. assert (∀ m : gmap string BenchResult, foldl (λ m r, <[bn_Name r := r]> m) m rs !! n = Some res →
    m !! n = Some res ∨ res ∈ rs ∧ bn_Name res = n) as H.
  { induction rs as [|r rs IH]; intros m Hl; [by left|]. cbn [foldl] in Hl. destruct (IH _ Hl) as [Hm|[Hin Hn]].
    - destruct (decide (bn_Name r = n)) as [<-|Hne].
      + rewrite lookup_insert_eq in Hm. injection Hm as <-. right. split; [by left|done].
      + rewrite lookup_insert_ne in Hm by done. by left.
    - right. split; [by right|done]. }
  intros Hl. by destruct (H ∅ Hl) as [Hm|?]; [rewrite lookup_empty in Hm|].
Qed.

Lemma zip_cells {A} (f : string → string) (g : string → string → option A) (h : string → option A) names rest :
  (∀ n, n ∈ names → g n (f n) = h n) →
  omap (λ nc, g nc.1 nc.2) (zip names ((f <$> names) ++ rest)) = omap h names.
Proof.
  induction names as [|n names IH]; intros Hg; [done|].
  transitivity (match g n (f n) with
                | Some y => y :: omap (λ nc, g nc.1 nc.2) (zip names ((f <$> names) ++ rest))
                | None => omap (λ nc, g nc.1 nc.2) (zip names ((f <$> names) ++ rest))
                end); [reflexivity|].
  rewrite IH by (intros; apply Hg; by right). by rewrite (Hg n) by by left.
Qed.

Lemma row_reads names r below : row_ok r →
  parse_row ParseFloat names (bench_row_line fixed signed Log Exp names r below) = Some (kept_row names r) ∧
  one_line (bench_row_line fixed signed Log Exp names r below) ∧
  str_prefix "| Commit |" (bench_row_line fixed signed Log Exp names r below) = false ∧
  str_prefix "| `" (bench_row_line fixed signed Log Exp names r below) = true.
Proof.
  intros (Hc & Hd & Hres). destruct (row_bars names r below) as (last_ & Heq & Hlast). pose proof (commit_printable _ Hc) as Hp.
  assert (∀ c, separator c → Forall (λ x, contains_byte c x = false)
    (("`" +:+ bw_Commit r +:+ "`") :: bw_Date r :: (bench_cell fixed (by_name (bw_Results r)) <$> names) ++ [last_])) as Hno.
  { intros c Hs. apply Forall_cons. split; [rewrite !contains_byte_app, (separator_no c (bw_Commit r)) by done; by destruct Hs as [-> | ->]|].
    apply Forall_cons. split; [by apply separator_no|]. apply Forall_app. split; [|apply Forall_singleton; by apply Hlast].
    apply Forall_fmap, Forall_true. intros n. by apply cell_no. }
  split_and!; [|rewrite Heq; apply bars_one_line, Hno; by right|by rewrite Heq..].
  rewrite Heq. unfold parse_row. rewrite splitRow_bars by (done || apply Hno; by left). rewrite !fmap_cons, fmap_app, <-list_fmap_compose.
  unfold kept_row. f_equal. f_equal.
  - unfold spaced. rewrite TrimSpace_cell; [by apply trim_ticks|done|]. rewrite str_app_assoc. by rewrite tail_ok_app.
  - unfold spaced. pose proof (all_head _ Hd). pose proof (all_tail _ Hd). rewrite TrimSpace_cell by done. by apply TrimSpace_edged.
  - rewrite (list_fmap_ext _ (bench_cell fixed (by_name (bw_Results r)))) by (intros ? n _; apply cell_trimmed).
    apply zip_cells. intros n _. apply parse_bench_cell. intros res Hl. apply by_name_elem in Hl as [Hin _]. by apply Hres.
Qed.

Lemma short_name_of m : short_name ("Benchmark" +:+ m) = m.
Proof.
  unfold short_name, TrimPrefix. assert (String.prefix "Benchmark" ("Benchmark" +:+ m) = true) as -> by (cbn; by destruct m).
  rewrite str_length_app. change (String.length "Benchmark") with 9%nat. replace (9 + String.length m - 9)%nat with (String.length m) by lia.
  change (String.substring 9 (String.length m) ("Benchmark" +:+ m)) with (String.substring 0 (String.length m) m).
  induction m as [|c m IH]; [done|]. cbn [String.length String.substring]. by rewrite IH.
Qed.

Lemma column_reads m : str_all printable m = true → contains_byte "<" m = false → m ≠ "Trend" →
  column_name (TrimSpace (spaced (m +:+ "<br/><sub>ns/op · allocs/op</sub>"))) = Some ("Benchmark" +:+ m).
Proof.
  intros Hm Hlt Hne. unfold column_name, spaced. rewrite TrimSpace_cell; [| |by rewrite tail_ok_app].
  2: { destruct m as [|d m]; [done|]. rewrite head_ok_app by done. by apply all_head. }
  change (m +:+ "<br/><sub>ns/op · allocs/op</sub>") with (m +:+ String "<" "br/>" +:+ "<sub>ns/op · allocs/op</sub>").
  change "<br/>" with (String "<" "br/>"). rewrite cut_str_at by done. cbn [fmap option_fmap option_map fst default].
  rewrite TrimSpace_edged by first [by apply all_head|by apply all_tail]. by rewrite bool_decide_eq_false_2.
Qed.

Lemma header_reads names : Forall name_ok names →
  header_names (header_line names) = Ok names ∧ one_line (header_line names) ∧ str_prefix "| Commit |" (header_line names) = true.
Proof.
  intros Hn. set (f := λ n, short_name n +:+ "<br/><sub>ns/op · allocs/op</sub>").
  assert (header_line names = bars ("Commit" :: "Date" :: (f <$> names) ++ ["Trend<br/><sub>ns/op vs previous</sub>"])) as Heq.
  { rewrite bars_cells by done. cbn [foldr]. rewrite foldr_app. cbn [foldr]. rewrite <-cells_app. unfold header_line.
    unfold cell_text at 1 2. rewrite (foldr_ext (λ n acc, cell_text (f n) acc)
      (λ n acc, " " +:+ short_name n +:+ "<br/><sub>ns/op · allocs/op</sub> |" +:+ acc) "" "" names names); [reflexivity| |done..].
    intros n acc. unfold cell_text, f. by rewrite <-!str_app_assoc. }
  assert (∀ c, separator c → Forall (λ x, contains_byte c x = false)
    ("Commit" :: "Date" :: (f <$> names) ++ ["Trend<br/><sub>ns/op vs previous</sub>"])) as Hno.
  { intros c Hs. repeat (apply Forall_cons; split; [by destruct Hs as [-> | ->]|]). apply Forall_app. split; [|apply Forall_singleton; by destruct Hs as [-> | ->]].
    apply Forall_fmap. eapply Forall_impl; [exact Hn|]. intros n (m & -> & Hm & _). unfold f, compose. cbv beta. rewrite short_name_of, contains_byte_app, (separator_no c m) by done.
    by destruct Hs as [-> | ->]. }
  split_and!; [|rewrite Heq; apply bars_one_line, Hno; by right|by rewrite Heq].
  rewrite Heq. unfold header_names. rewrite splitRow_bars by (done || apply Hno; by left). rewrite !fmap_cons, fmap_app, <-list_fmap_compose.
  f_equal. rewrite omap_app. change (omap _ (_ <$> ["Trend<br/><sub>ns/op vs previous</sub>"])) with (@nil string). rewrite app_nil_r.
  clear Heq Hno. induction Hn as [|n names (m & -> & Hm & Hlt & Hne) _ IH]; [done|].
  transitivity (match column_name (TrimSpace (spaced (f ("Benchmark" +:+ m)))) with
                | Some y => y :: omap column_name ((λ x, TrimSpace (spaced x)) ∘ f <$> names)
                | None => omap column_name ((λ x, TrimSpace (spaced x)) ∘ f <$> names)
                end); [reflexivity|]. unfold f at 1. by rewrite short_name_of, column_reads, IH.
Qed.

(** ** Lemmas: the lines of a table *)

(** A line that is no row and no header. *)
Definition otherb (l : string) : bool :=
  negb (contains_byte (byte_of 10) l) && negb (str_prefix "| Commit |" l) && negb (str_prefix "| `" l).
Definition other_line (l : string) : Prop := otherb l = true.

Lemma other_no_bar l : one_line l → match l with String c _ => c ≠ "|"%char | "" => True end → other_line l.
Proof.
  unfold other_line, otherb, one_line. intros -> Hl. destruct l as [|c l]; [done|]. cbn [str_prefix].
  rewrite !bool_decide_eq_false_2 by congruence. done.
Qed.

Lemma other_one_line l : other_line l → one_line l.
Proof. unfold other_line, otherb, one_line. rewrite !andb_true_iff, !negb_true_iff. tauto. Qed.

Lemma parse_others names ls rest : Forall other_line ls → parse_lines ParseFloat names (ls ++ rest) = parse_lines ParseFloat names rest.
Proof.
  induction 1 as [|l ls Hl _ IH]; [done|]. unfold other_line, otherb in Hl. rewrite !andb_true_iff, !negb_true_iff in Hl. destruct Hl as [[_ H1] H2].
  cbn [app parse_lines]. by rewrite H1, H2.
Qed.

Lemma parse_rows names rows rest tail : Forall row_ok rows → parse_lines ParseFloat names rest = Ok tail →
  parse_lines ParseFloat names (row_lines fixed signed Log Exp names rows ++ rest) = Ok ((kept_row names <$> rows) ++ tail).
Proof.
  intros Hok Hrest. induction Hok as [|r rows Hr _ IH]; [done|]. destruct (row_reads names r rows Hr) as (Hrow & _ & H1 & H2).
  cbn [row_lines app parse_lines]. by rewrite H1, H2, IH, Hrow.
Qed.

Lemma rows_one_line names rows : Forall row_ok rows → Forall one_line (row_lines fixed signed Log Exp names rows).
Proof.
  induction 1 as [|r rows Hr _ IH]; [constructor|]. cbn [row_lines]. constructor; [by apply row_reads|done].
Qed.

Lemma head_lines : ∃ hl, benchTableHeader = text_lines hl ∧ Forall other_line hl.
Proof.
  exists (removelast (split_byte (byte_of 10) benchTableHeader)). split; [vm_compute; reflexivity|].
  apply Forall_forall. intros l Hl. assert (forallb otherb (removelast (split_byte (byte_of 10) benchTableHeader)) = true) as H by (vm_compute; reflexivity).
  rewrite forallb_forall in H. by apply H, list_elem_of_In.
Qed.

Lemma rule_other names : other_line (rule_line names).
Proof.
  unfold other_line, otherb, rule_line. rewrite !contains_byte_app.
  assert (contains_byte (byte_of 10) (foldr (λ (_ : string) acc, "---|" +:+ acc) "" names) = false) as ->; [|done].
  induction names as [|n names IH]; [done|]. cbn [foldr]. by rewrite contains_byte_app, IH.
Qed.

Lemma spark_one_line lo hi v s : spark lo hi v = Ok s → one_line s.
Proof.
  unfold spark. case_match; [|done]. case_match; [done|]. destruct (sparkRunes !! _) as [s'|] eqn:E; [|done]. intros [= <-].
  apply list_elem_of_lookup_2 in E. unfold sparkRunes in E. repeat (apply elem_of_cons in E as [->|E]; [reflexivity|]). by apply elem_of_nil in E.
Qed.

Lemma Sparkline_spec values :
  match Sparkline values with Ok s => one_line s | Err _ => False | Panic _ => True end.
Proof.
  unfold Sparkline. destruct values as [|first values]; [done|]. destruct (negb (f_ne _ _)).
  - assert (∀ n, one_line (str_repeat "▁" n)) as H'; [|apply H'].
    intros n. induction n as [|n IH]; [done|]. unfold one_line in *. cbn [str_repeat]. by rewrite contains_byte_app, IH.
  - generalize (least first (first :: values)) (greatest first (first :: values)). intros lo hi. generalize (first :: values). intros vs.
    induction vs as [|v vs IH]; [done|]. cbn [foldr]. destruct (spark lo hi v) as [s| |] eqn:E; cbn; [|by unfold spark in E; repeat case_match|done].
    destruct (foldr _ _ vs) as [t| |]; cbn; [|done..]. unfold one_line. by rewrite contains_byte_app, (spark_one_line _ _ _ _ E), IH.
Qed.

(** Where a panic comes from. *)
Definition spark_panics (why : string) : Prop := ∃ values, Sparkline values = Panic why.

Lemma trend_line_spec rows width name : name_ok name →
  match trend_line fixed signed rows width name with
  | Ok l => ∀ x, l = Some x → other_line x.1
  | Err _ => False
  | Panic why => spark_panics why
  end.
Proof.
  intros (m & -> & Hm & _). unfold trend_line. destruct (bn_NsPerOp <$> _) as [|a [|b l]]; [done..|].
  rewrite short_name_of. pose proof (Sparkline_spec (a :: b :: l)) as Hs. destruct (Sparkline (a :: b :: l)) as [s| |why] eqn:E; cbn [mbind result_bind]; [|done|by exists (a :: b :: l)].
  intros x Hx. apply (inj Some) in Hx. subst x. cbn [fst]. set (rest := "  " +:+ (s +:+ _)).
  assert (one_line rest) as Hrest.
  { assert (separator (byte_of 10)) as Hnl by by right. unfold one_line, rest. rewrite !contains_byte_app, Hs, !separator_time by done.
    by rewrite (separator_no _ (signed _)) by (done || apply Hft). }
  assert (∀ n, one_line (str_repeat " " n)) as Hsp.
  { intros n. induction n as [|n IH]; [done|]. unfold one_line in *. cbn [str_repeat]. by rewrite contains_byte_app, IH. }
  apply other_no_bar; unfold pad_right.
  - unfold one_line. rewrite !contains_byte_app, Hrest, (Hsp _), (separator_no _ m); [done|by right|done].
  - destruct m as [|c m]; [|cbn in Hm |- *; apply andb_true_iff in Hm as [Hc _]; by intros ->].
    cbn [String.append]. by destruct (_ - _)%nat.
Qed.

Lemma trend_section_spec rows names : Forall name_ok names →
  match renderTrendSection fixed signed rows names with
  | Ok ls => Forall other_line ls
  | Err _ => False
  | Panic why => spark_panics why
  end.
Proof.
  intros Hn. unfold renderTrendSection. destruct (length rows <? 2)%nat; [constructor|]. generalize (foldl (λ w n, w `max` String.length (short_name n))%nat 0%nat names). intros width.
  assert (match foldr (λ n acc, l ← trend_line fixed signed rows width n; ls ← acc; Ok (option_list l ++ ls)) (Ok []) names with
          | Ok drawn => Forall other_line drawn.*1 | Err _ => False | Panic why => spark_panics why end) as Hd.
  { induction Hn as [|n names Hok _ IH]; [constructor|]. cbn [foldr]. pose proof (trend_line_spec rows width n Hok) as Hl.
    destruct (trend_line _ _ _ _ _) as [l| |]; cbn; [|done..]. destruct (foldr _ _ names) as [ls| |]; cbn; [|done..].
    rewrite fmap_app. apply Forall_app. split; [|done]. destruct l as [x|]; cbn; [|constructor]. apply Forall_singleton. by apply Hl. }
  destruct (foldr _ _ names) as [drawn| |]; cbn [mbind result_bind]; [|done..].
  assert (∀ ls, forallb otherb ls = true → Forall other_line ls) as Hb.
  { intros ls H'. apply Forall_forall. intros l Hl. rewrite forallb_forall in H'. by apply H', list_elem_of_In. }
  repeat (apply Forall_app; split); [by apply Hb; vm_compute|done|by apply Hb; vm_compute|]. destruct (_ && _); by apply Hb; vm_compute.
Qed.

(** ** Lemmas: the rows that are kept *)

Lemma unique_rows_spec seen rows :
  NoDup (bw_Commit <$> unique_rows seen rows) ∧
  (∀ r, r ∈ unique_rows seen rows → r ∈ rows ∧ bw_Commit r ∉ seen).
Proof.
  revert seen. induction rows as [|r rows IH]; intros seen; cbn [unique_rows].
  { split; [constructor|]. by intros r ?%elem_of_nil. }
  case_bool_decide as Hin.
  - destruct (IH seen) as [Hnd Hall]. split; [done|]. intros r' Hr. destruct (Hall r' Hr). split; [by right|done].
  - destruct (IH ({[bw_Commit r]} ∪ seen)) as [Hnd Hall]. split.
    + rewrite fmap_cons. apply NoDup_cons. split; [|done]. intros (r' & Hc & Hr)%list_elem_of_fmap. destruct (Hall r' Hr) as [_ Hn]. set_solver.
    + intros r' [->|Hr]%elem_of_cons; [split; [by left|done]|]. destruct (Hall r' Hr). split; [by right|set_solver].
Qed.

Lemma kept_rows_spec row parsed keep :
  NoDup (bw_Commit <$> kept_rows row parsed keep) ∧ head (kept_rows row parsed keep) = Some row ∧
  Z.of_nat (length (kept_rows row parsed keep)) ≤ (if keep <=? 0 then 25 else keep) ∧
  ∀ r, r ∈ kept_rows row parsed keep → r ∈ row :: parsed.
Proof.
  unfold kept_rows. set (n := if keep <=? 0 then 25 else keep). assert (0 < n) as Hn by (unfold n; case_ifs; lia).
  destruct (unique_rows_spec ∅ (row :: parsed)) as [Hnd Hall]. split_and!.
  - rewrite <-(take_drop (Z.to_nat n) (unique_rows _ _)), fmap_app in Hnd. by apply NoDup_app in Hnd as [? _].
  - cbn [unique_rows]. rewrite bool_decide_eq_false_2 by set_solver. destruct (Z.to_nat n) eqn:E; [lia|done].
  - rewrite length_take. lia.
  - intros r Hr. apply Hall. apply list_elem_of_lookup in Hr as [i Hi]. apply lookup_take_Some in Hi as [Hi _].
    by eapply list_elem_of_lookup_2.
Qed.

Lemma benchNames_elem rows n : n ∈ benchNames rows ↔ ∃ r res, r ∈ rows ∧ res ∈ bw_Results r ∧ bn_Name res = n.
Proof.
  unfold benchNames, sort_Strings. rewrite merge_sort_Permutation, elem_of_elements, elem_of_list_to_set, list_elem_of_fmap. split.
  - intros (res & -> & (r & Hres & Hr)%list_elem_of_bind). by exists r, res.
  - intros (r & res & Hr & Hres & <-). exists res. split; [done|]. apply list_elem_of_bind. by exists r.
Qed.

Lemma kept_by_name names r n : (∀ res, res ∈ bw_Results r → bn_Name res ∈ names) →
  by_name (bw_Results (kept_row names r)) !! n = kept_result n <$> by_name (bw_Results r) !! n.
Proof.
  intros Hall. unfold kept_row. cbn [bw_Results]. set (m := by_name (bw_Results r)). unfold by_name.
  assert (∀ acc : gmap string BenchResult, foldl (λ m r, <[bn_Name r := r]> m) acc (omap (λ n, kept_result n <$> m !! n) names) !! n =
    match decide (n ∈ names), m !! n with left _, Some res => Some (kept_result n res) | _, _ => acc !! n end) as H.
  { clear Hall. induction names as [|k names IH]; intros acc.
    { cbn. destruct (decide (n ∈ [])) as [?%elem_of_nil|]; [done|]. done. }
    transitivity (foldl (λ m r, <[bn_Name r := r]> m) (match m !! k with Some res => <[k := kept_result k res]> acc | None => acc end)
      (omap (λ n, kept_result n <$> m !! n) names) !! n).
    { cbn [omap list_omap]. by destruct (m !! k). }
    rewrite IH. destruct (decide (n ∈ names)) as [Hin|Hni], (decide (n ∈ k :: names)) as [Hin'|Hni']; try set_solver.
    - destruct (m !! n) eqn:E; [done|]. destruct (m !! k) eqn:Ek; [|done]. rewrite lookup_insert_ne; [done|congruence].
    - assert (k = n) as -> by set_solver. destruct (m !! n) as [res|]; [by rewrite lookup_insert_eq|done].
    - destruct (m !! k); [|done]. rewrite lookup_insert_ne; [done|set_solver]. }
  rewrite H, lookup_empty. destruct (m !! n) as [res|] eqn:E; [|by destruct (decide _)].
  destruct (decide (n ∈ names)) as [_|Hni]; [done|]. apply by_name_elem in E as [Hin <-]. by destruct Hni; apply Hall.
Qed.

Lemma kept_row_ok names r : row_ok r → Forall name_ok names → row_ok (kept_row names r).
Proof.
  intros (Hc & Hd & Hres) Hn. split_and!; [done..|]. intros res Hin. unfold kept_row in Hin. cbn [bw_Results] in Hin.
  apply list_elem_of_omap in Hin as (n & Hn' & Hk). destruct (by_name (bw_Results r) !! n) as [res'|] eqn:E; [|done].
  injection Hk as <-. cbn. rewrite Forall_forall in Hn. split; [by apply Hn|]. apply by_name_elem in E as [Hin _]. by apply Hres.
Qed.

(** The history reads back.  Recording a row gives a table with a row per commit,
    the recorded one first and no more than are kept, and reading that table finds
    for every row its commit, its date, and for every benchmark the allocations and
    the time, as rounded, of its last result: rows stay readable however often the
    table is redrawn.  Nothing fails, save that drawing a spark may panic. *)
Theorem RenderBenchTable_roundtrip existing row keep parsed
    (Hp : parseBenchTable ParseFloat existing = Ok parsed) (Hok : Forall row_ok (row :: parsed)) :
  let kept := kept_rows row parsed keep in
  NoDup (bw_Commit <$> kept) ∧ head kept = Some row ∧ Z.of_nat (length kept) ≤ (if keep <=? 0 then 25 else keep) ∧
  match RenderBenchTable ParseFloat fixed signed Log Exp existing row keep with
  | Ok out =>
      ∃ rows, parseBenchTable ParseFloat out = Ok rows ∧ Forall row_ok rows ∧
        Forall2 (λ r r', bw_Commit r' = bw_Commit r ∧ bw_Date r' = bw_Date r ∧
                   ∀ n, by_name (bw_Results r') !! n = kept_result n <$> by_name (bw_Results r) !! n) kept rows
  | Err _ => False
  | Panic why => spark_panics why
  end.
Proof.
  intros kept. destruct (kept_rows_spec row parsed keep) as (Hnd & Hhead & Hlen & Hin). split_and!; [done..|].
  assert (Forall row_ok kept) as Hk by (rewrite Forall_forall in Hok |- *; intros r Hr; by apply Hok, Hin).
  set (names := benchNames kept).
  assert (Forall name_ok names) as Hn.
  { apply Forall_forall. intros n (r & res & Hr & Hres & <-)%benchNames_elem. rewrite Forall_forall in Hk. by apply (Hk r Hr). }
  unfold RenderBenchTable. rewrite Hp. cbn [mbind result_bind]. fold kept. fold names. pose proof (trend_section_spec kept names Hn) as Ht.
  destruct (renderTrendSection _ _ _ _) as [trend| |]; cbn [mbind result_bind]; [|done..].
  destruct head_lines as (hl & Hhl & Hother). destruct (header_reads names Hn) as (Hh & Hh1 & Hh2).
  exists (kept_row names <$> kept). split_and!.
  - unfold parseBenchTable. rewrite bool_decide_eq_false_2 by (unfold benchTableHeader; done).
    rewrite Hhl, <-text_lines_app, split_text_lines.
    + rewrite <-!app_assoc, parse_others by done. change ([header_line names; rule_line names] ++ ?x) with (header_line names :: [rule_line names] ++ x).
      cbn [parse_lines]. rewrite Hh2, Hh. cbn [mbind result_bind].
      rewrite (parse_others names [rule_line names] _) by (apply Forall_singleton, rule_other).
      rewrite (parse_rows names kept _ []); [by rewrite app_nil_r|done|]. by rewrite parse_others.
    + repeat (apply Forall_app; split); [by eapply Forall_impl; [exact Hother|apply other_one_line]| | |by eapply Forall_impl; [exact Ht|apply other_one_line]].
      * repeat constructor; [done|apply other_one_line, rule_other].
      * by apply rows_one_line.
  - apply Forall_fmap. eapply Forall_impl; [exact Hk|]. intros r Hr. by apply kept_row_ok.
  - apply Forall2_fmap_r, Forall_Forall2_diag, Forall_forall. intros r Hr. split_and!; [done..|]. intros n. apply kept_by_name.
    intros res Hres. apply benchNames_elem. by exists r, res.
Qed.
End laws.

(** ** Rows the history does not keep, and movements it reads wrongly *)

(** Whole numbers of nanoseconds. *)
Definition whole_float (s : string) : option float64 := match ParseInt s with Ok v => Some (f_of_int v) | _ => None end.
Definition whole_text (n : nat) (x : float64) : string := FormatInt (i64 (f_int x)).
Definition whole_signed (x : float64) : string := signed_int (i64 (f_int x)).

Lemma whole_floats : float_text whole_float whole_text whole_signed.
Proof.
  split.
  - intros n x. apply FormatInt_printable.
  - intros n x. apply FormatInt_printable.
  - intros n x. unfold whole_float, whole_text. rewrite ParseInt_FormatInt by apply i64_is. by eexists.
  - intros x. unfold whole_signed, signed_int. destruct (FormatInt_printable (i64 (f_int x))) as [Hp _]. case_ifs; [done|by rewrite str_all_app, Hp].
Qed.

(** A benchmark named Trend is taken for the column of trends when the table is
    read back: its column gives no name, and the times below it go to the benchmark
    of the next column. *)
Theorem trend_benchmark_shifts :
  ∃ out, RenderBenchTable whole_float whole_text whole_signed id id ""
           (mkBenchRow "abc" "2026-10-04" [mkBench "BenchmarkTrend" (f_of_int 5) 0 1; mkBench "BenchmarkZ" (f_of_int 7) 0 2]) 25 = Ok out ∧
    parseBenchTable whole_float out = Ok [mkBenchRow "abc" "2026-10-04" [mkBench "BenchmarkZ" (f_of_int 5) 0 1]].
Proof. eexists. split; [vm_compute; reflexivity|vm_compute; reflexivity]. Qed.

Definition times (l : list Z) : gmap string BenchResult :=
  by_name (zip_with (λ n t, mkBench n (f_of_int t) 0 0) ["BenchmarkA"; "BenchmarkB"; "BenchmarkC"] l).

(** The floor of a uniform movement is tested on the movement of least value, which
    is the greatest one when everything got faster: three, five and twelve per cent
    faster are put down to the machine, as much slower are not. *)
Theorem looksLikeHostEffect_asymmetric :
  let names := ["BenchmarkA"; "BenchmarkB"; "BenchmarkC"] in
  looksLikeHostEffect (times [97; 95; 88]) (times [100; 100; 100]) names = true ∧
  looksLikeHostEffect (times [103; 105; 112]) (times [100; 100; 100]) names = false.
Proof. split; vm_compute; reflexivity. Qed.

(** The number of processors is taken off a name, whatever it is. *)
Theorem trimProcSuffix_spec name k : name ≠ "" → 0 ≤ k < 2 ^ 63 → trimProcSuffix (name +:+ "-" +:+ FormatUint k) = name.
Proof.
  intros Hne Hk. unfold trimProcSuffix. destruct (FormatUint_spec k) as (_ & Hd & Hf); [lia|].
  rewrite (str_LastIndex_at "-" name (FormatUint k) _ eq_refl).
  - assert (str_drop (S (String.length name)) (name +:+ "-" +:+ FormatUint k) = FormatUint k) as ->.
    { rewrite str_app_assoc. replace (S (String.length name)) with (String.length (name +:+ "-")) by (rewrite str_length_app; cbn; lia).
      apply str_drop_length_app. }
    assert (FormatInt k = FormatUint k) as <- by (unfold FormatInt; by rewrite (proj2 (Z.ltb_ge _ _)) by lia).
    rewrite ParseInt_FormatInt by (unfold is_i64; lia). destruct name as [|a name]; [done|]. cbn [String.length Nat.ltb Nat.leb is_ok andb]. apply (str_take_length_app (String a name)).
  - intros p' post' Heq. destruct (Nat.le_gt_cases (String.length p') (String.length name)) as [|Hgt]; [done|exfalso].
    destruct (str_app_split name _ _ _ Heq) as (d & -> & Hr); [lia|]. destruct d as [|c d]; [rewrite str_length_app in Hgt; cbn in Hgt; lia|].
    cbn [String.append] in Hr. injection Hr as _ Hr. rewrite Hr, !str_all_app in Hd. cbn in Hd. by rewrite andb_false_r in Hd.
Qed.

(** ** A witness *)

Definition demo_bench : BenchRow :=
  mkBenchRow "88f2da5" "2026-10-04" [mkBench "BenchmarkRingLookup" (f_of_int 12) 0 0; mkBench "BenchmarkTokenAdvance" (f_of_int 2500) 16 2].

Lemma demo_bench_ok : Forall row_ok [demo_bench].
Proof.
  apply Forall_singleton. split_and!; [vm_compute; reflexivity..|]. intros res Hres. unfold demo_bench in Hres. cbn [bw_Results] in Hres.
  repeat (apply elem_of_cons in Hres as [->|Hres]); [| |by apply elem_of_nil in Hres]; (split; [|done]); eexists;
    (split; [reflexivity|]); split_and!; done.
Qed.

Lemma RenderBenchTable_roundtrip_witness :
  ∃ out rows, RenderBenchTable whole_float whole_text whole_signed id id "" demo_bench 25 = Ok out ∧
    parseBenchTable whole_float out = Ok rows ∧ bw_Commit <$> rows = ["88f2da5"].
Proof.
  assert (∃ out, RenderBenchTable whole_float whole_text whole_signed id id "" demo_bench 25 = Ok out) as [out Hout]
    by (eexists; vm_compute; reflexivity).
  destruct (RenderBenchTable_roundtrip whole_float whole_text whole_signed id id whole_floats "" demo_bench 25 [] eq_refl demo_bench_ok)
    as (_ & _ & _ & H). rewrite Hout in H. destruct H as (rows & Hrows & _ & Hall). exists out, rows. split; [exact Hout|]. split; [exact Hrows|].
  change (kept_rows demo_bench [] 25) with [demo_bench] in Hall. apply Forall2_cons_inv_l in Hall as (r & l & [Hc _] & Hl & ->).
  apply Forall2_nil_inv_l in Hl as ->. cbn. by rewrite Hc.
Defined.
