(* ===== verification/Benchctl.v ===== *)
(** The benchmark commands: [src/cmd/benchctl/main.go], the files of reports of
    [src/bench/harness/report.go], and the quick benchmark of
    [src/internal/ctl/bench.go].

    The files are a map from paths to contents, and the fate of each call on a file
    is an argument.  What a running engine answers, what the load generator of
    Harness.v meets, the encodings of reports and workloads, and numbers and dates
    as text are arguments; lines printed along the way are left out. *)

From S2P Require Import Prelude GoStd Floats Regexp Ring Schema Row Mysql Storage CacheClient Engine Sextant Introspect Config Ctl Sources Sdk Flags Cachetctl Harness Results Faults Bench.

Local Open Scope Z_scope.

(** ** Paths *)

(** [filepath.Clean], on the elements between the slashes: [up] is the stack of
    elements kept, last first. *)
Definition clean_step (rooted : bool) (up : list string) (e : string) : list string :=
  if bool_decide (e = "") || bool_decide (e = ".") then up
  else if bool_decide (e = "..") then
    match up with
    | x :: rest => if bool_decide (x = "..") then ".." :: up else rest
    | [] => if rooted then [] else [".."]
    end
  else e :: up.

Definition IsAbs (p : string) : bool := str_prefix "/" p.

Definition Clean (p : string) : string :=
  let kept := reverse (foldl (clean_step (IsAbs p)) [] (split_byte "/" p)) in
  if IsAbs p then "/" +:+ join "/" kept
  else match kept with [] => "." | _ => join "/" kept end.

Definition safeOutputPath (p : string) : result string :=
  if IsAbs p then Err (Errorf "benchctl microbench: -out must be a relative path inside the repository")
  else
    let clean := Clean p in
    if bool_decide (clean = "..") || str_prefix "../" clean then Err (Errorf "benchctl microbench: -out escapes the working directory")
    else Ok clean.

(** [os.WriteFile]; a failed write has written some bytes. *)
Definition WriteFile (fio : file_io) (path data : string) : M (gmap string string) unit :=
  files ← M_get;
  match fi_write fio with
  | Some (n, e) => M_put (<[path := str_take n data]> files);; M_fail e
  | None => M_put (<[path := data]> files)
  end.

(** ** Flags *)

Definition uint_flag (set : list (string * string)) (name : string) (def : Z) : Z := default def (flag_value set name ≫= ParseUint0).
Definition UintFlag : flag_kind := ValueFlag (λ v, is_some (ParseUint0 v)).

(** The flags of a command by kind. *)
Definition flag_names (strings ints durations bools uints : list string) : FlagSet := λ n,
  if bool_decide (n ∈ strings) then Some StringFlag
  else if bool_decide (n ∈ ints) then Some IntFlag
  else if bool_decide (n ∈ durations) then Some DurationFlag
  else if bool_decide (n ∈ bools) then Some BoolFlag
  else if bool_decide (n ∈ uints) then Some UintFlag
  else None.

(** ** Reports in files *)

Section files.
Context (stamp : Z → string) (encode : bench_Report → result string) (decode : string → result bench_Report).

Definition SchemaVersion : Z := 1.

(** The time of a report that has none: the first of January of the year one. *)
Definition zeroTime : Z := - 62135596800 * Second.

(** [Save]: [now] is taken when the report has no time, and [mkdir] is why making
    the directory fails. *)
Definition Report_Save (r : bench_Report) (now : Z) (join_path : string → string → string) (mkdir : option error) (fio : file_io) (dir : string) :
    M (gmap string string) string :=
  let r := mkReport (if rp_SchemaVersion r =? 0 then SchemaVersion else rp_SchemaVersion r) (rp_Phase r) (rp_Workload r) (rp_Topology r)
             (if rp_RecordedAt r =? zeroTime then now else rp_RecordedAt r) (rp_Env r) (rp_Params r) (rp_Runs r)
             (rp_Client r) (rp_Cache r) (rp_Origin r) (rp_Staleness r) in
  match mkdir with
  | Some e => M_fail (Wrapf "harness: create" e)
  | None =>
      let path := join_path dir (rp_Phase r +:+ "_" +:+ rp_Workload r +:+ "_" +:+ stamp (rp_RecordedAt r) +:+ ".json") in
      data ← M_lift (match encode r with Err e => Err (Wrapf "harness: encode report" e) | x => x end);
      wrapping "harness: write" (WriteFile fio path (data +:+ newline));;
      mret path
  end.

(** [LoadReports]: [entries] are the names in the directory with whether each is a
    directory itself, nothing when there is no such directory. *)
Definition LoadReports (entries : result (option (list (string * bool)))) (read : string → result string) : result (list bench_Report) :=
  match entries with
  | Err e => Err (Wrapf "harness: read" e)
  | Panic w => Panic w
  | Ok None => Ok []
  | Ok (Some es) =>
      foldr (λ e acc,
        if (snd e : bool) || negb (str_suffix ".json" (fst e)) then acc
        else
          data ← (match read (fst e) with Err x => Err (Wrapf "harness: read" x) | x => x end);
          r ← (match decode data with Err x => Err (Wrapf "harness: parse" x) | x => x end);
          rs ← acc; Ok (r :: rs)) (Ok []) es
  end.
End files.

(** ** The gate *)

Definition guard_by_phase (reports : list bench_Report) : gmap string bench_Report := foldl (λ m r, <[rp_Phase r := r]> m) ∅ reports.

(** What the gate compares: nothing, or two phases and the change. *)
Inductive guard_outcome := NothingToCompare | Compared (base cand : bench_Report) (change : float64).

(** [guard], on the reports as [Latest] leaves them. *)
Definition guard_check (reports : list bench_Report) (baseline candidate : string) (threshold : float64) : result guard_outcome :=
  let byPhase := guard_by_phase reports in
  match byPhase !! baseline with
  | None => Err (Errorf "no results for baseline phase")
  | Some base =>
      let name := if bool_decide (candidate = "")
                  then foldl (λ name r, if bool_decide (rp_Phase r = baseline) then name else rp_Phase r) "" reports else candidate in
      if bool_decide (name = "") then Ok NothingToCompare
      else
        match byPhase !! name with
        | None => Err (Errorf "no results for phase")
        | Some cand =>
            let p99 r := lt_P99 (cm_Read (rp_Client r)) in
            let change := f_div (f_of_int (i64 (p99 cand - p99 base))) (f_of_int (p99 base)) in
            if f_lt threshold change then Err (Errorf "p99 regressed over the budget") else Ok (Compared base cand change)
        end
  end.

(** ** A measured run *)

(** What one request asks of the engine. *)
Inductive bench_request := BenchGet (key : string) | BenchPut (key payload : string).

Definition payloadBytes : nat := 256.
Definition payload : string := str_of_bytes ((λ i, 97 + Z.of_nat i mod 26) <$> seq 0 payloadBytes).

Definition readsPerCycle (w : Workload) : Z := f_int (f_mul (wl_ReadFraction w) (f_of_int 100)).

(** The request of an ordinal, for the row index the generator draws. *)
Definition run_op (w : Workload) (index i : Z) : bench_request :=
  if i mod 100 <? readsPerCycle w then BenchGet (KeyFor index) else BenchPut (KeyFor index) payload.

(** The target of a connection. *)
Definition dial_target (target : string) : result string :=
  if str_prefix "unix://" target then Ok target
  else if str_prefix "tcp://" target then Ok ("passthrough:///" +:+ TrimPrefix target "tcp://")
  else Err (Errorf "target must be tcp://host:port or unix:///path").

(** What a run of the generator meets. *)
Record load_io := mkLoadIO {
  ld_fuel : nat; ld_start : Z; ld_turns : Z → turn; ld_work : list job → list done_job; ld_finish : Z; ld_ended : option error;
}.

Definition drive (io : load_io) (d : Driver) : result (bench_Result * option error) :=
  match Driver_Run (ld_fuel io) d (ld_start io) (ld_turns io) (ld_work io) (ld_finish io) (ld_ended io) with
  | Some r => r
  | None => Panic "out of fuel"
  end.

Section runs.
Context (Pow : float64 → float64 → float64) (summarise : Recorder → Latencies).

(** An interrupt ends a run early without an error. *)
Definition singleRun (w : Workload) (io : load_io) : result RunMetrics :=
  _ ← Workload_Generator Pow w;
  '(res, ended) ← drive io (mkDriver (wl_Rate w) (wl_Workers w) (wl_Warmup w) (wl_Measure w) true);
  match ended with
  | Some e => if errors_Is e ErrCanceled then Ok (mkRunMetrics (summarise (br_Read res)) no_latencies (br_Throughput res) (br_Errors res) (br_Behind res))
              else Err e
  | None => Ok (mkRunMetrics (summarise (br_Read res)) no_latencies (br_Throughput res) (br_Errors res) (br_Behind res))
  end.

(** One run with the counters read before and after it and how long it took; [None]
    reads no counters. *)
Record run_io := mkRunIO { ro_before : option (result Counters); ro_load : load_io; ro_elapsed : Z; ro_after : option (result Counters) }.

Definition scrapeIfConfigured (scraped : option (result Counters)) : result Counters :=
  match scraped with
  | None => Ok (mkCounters f_zero f_zero f_zero f_zero)
  | Some (Err e) => Err (Wrapf "(pass -metrics= to run without cache and origin measurements)" e)
  | Some r => r
  end.

(** The runs, and the means of the hit rate and of the load on the origin. *)
Fixpoint run_loop (w : Workload) (runs : Z) (ios : list run_io) (hit qps : float64) : result (list RunMetrics * float64 * float64) :=
  match ios with
  | [] => Ok ([], hit, qps)
  | io :: ios =>
      before ← scrapeIfConfigured (ro_before io);
      m ← (match singleRun w (ro_load io) with Err e => Err (Wrapf "run" e) | r => r end);
      let window := ro_elapsed io - wl_Warmup w in
      after ← scrapeIfConfigured (ro_after io);
      '(ms, hit, qps) ← run_loop w runs ios (f_add hit (f_div (HitRate before after) (f_of_int runs)))
                          (f_add qps (f_div (OriginQPS before after window) (f_of_int runs)));
      Ok (m :: ms, hit, qps)
  end.

Definition run_flags : FlagSet :=
  flag_names ["workload"; "target"; "phase"; "topology"; "out"; "host"; "metrics"] ["runs"; "rate"] ["warmup"; "measure"] [] [].

Definition override (given def : Z) : Z := if 0 <? given then given else def.

(** What the command meets: the workload file, whether connecting and the handshake
    fail, its runs, and the environment recorded. *)
Record bench_io := mkBenchIO {
  bi_workload : string → result Workload; bi_dial : option error; bi_handshake : option error; bi_runs : nat → run_io;
  bi_env : string → bench_Env; bi_now : Z; bi_mkdir : option error; bi_file : file_io;
}.

(** The report of a benchmark. *)
Definition bench_report (set : list (string * string)) (bi : bench_io) : result bench_Report :=
  w ← LoadWorkload (bi_workload bi (string_flag set "workload" "bench/workloads/w2.yaml"));
  let w := mkWorkload (wl_ID w) (wl_Name w) (wl_Distribution w) (wl_Theta w) (wl_ReadFraction w) (wl_Rows w)
             (override (int_flag set "rate" 0) (wl_Rate w)) (wl_Workers w) (override (duration_flag set "warmup" 0) (wl_Warmup w))
             (override (duration_flag set "measure" 0) (wl_Measure w)) (wl_Seed w) (wl_HotKey w) in
  let host := string_flag set "host" "" in
  if bool_decide (host = "") then Err (Errorf "-host is required: a number without its environment is not reproducible")
  else
    _ ← dial_target (string_flag set "target" "tcp://127.0.0.1:9090");
    match bi_dial bi, bi_handshake bi with
    | Some e, _ => Err (Wrapf "dial" e)
    | None, Some e => Err (Wrapf "handshake with" e)
    | None, None =>
        let runs := int_flag set "runs" 3 in
        if runs <? 0 then Panic "makeslice: cap out of range"
        else
        '(ms, hit, qps) ← run_loop w runs (bi_runs bi <$> seq 0 (Z.to_nat runs)) f_zero f_zero;
        Ok (mkReport SchemaVersion (string_flag set "phase" "0-baseline") (wl_ID w) (string_flag set "topology" "service") zeroTime
              (bi_env bi host) (Workload_Params w) runs (Aggregate ms) (mkCacheMetrics hit 0) (mkOriginMetrics qps f_zero)
              (mkStalenessMetrics no_latencies 0 0 0))
    end.

Definition runBenchmark (stamp : Z → string) (encode : bench_Report → result string) (join_path : string → string → string)
    (bi : bench_io) (args : list string) : M (gmap string string) string :=
  '(set, _) ← M_lift (flag_Parse run_flags args);
  rep ← M_lift (bench_report set bi);
  Report_Save stamp encode rep (bi_now bi) join_path (bi_mkdir bi) (bi_file bi) (string_flag set "out" "bench/results").

(** ** The staleness probe *)

(** A poll of a probe: when the deadline is looked at, what the read answers, when
    that is recorded, and whether the wait after it is interrupted. *)
Record poll := mkPoll { po_look : Z; po_read : result string; po_seen : Z; po_stopped : bool }.
Record probe_io := mkProbeIO {
  pr_cancelled : bool; pr_warm : result bool; pr_commit : Z; pr_put : result unit; pr_polls : nat → poll;
}.

Inductive probe_end := Converged (after : Z) | NotConverged | Interrupted.

Fixpoint probe_wait (fuel : nat) (giveUp : Z) (want : string) (p : probe_io) (n : nat) : result probe_end :=
  match fuel with
  | O => Panic "out of fuel"
  | S fuel =>
      let o := pr_polls p n in
      if negb (po_look o - pr_commit p <? giveUp) then Ok NotConverged
      else
        got ← (match po_read o with Err e => Err (Wrapf "probe read" e) | r => r end);
        if bool_decide (got = want) then Ok (Converged (po_seen o - pr_commit p))
        else if po_stopped o then Ok Interrupted
        else probe_wait fuel giveUp want p (S n)
  end.

(** What the probes saw: the recorder, how many writes were observed, how many never
    became visible; or the whole command ended by an interrupt. *)
Inductive probe_result := ProbeStopped | Probed (rec : Recorder) (observations notConverged : Z).

Fixpoint probe_loop (fuel : nat) (giveUp : Z) (ps : list probe_io) (i : Z) (rec : Recorder) (obs missed : Z) : result probe_result :=
  match ps with
  | [] => Ok (Probed rec obs missed)
  | p :: ps =>
      if pr_cancelled p then Ok (Probed rec obs missed)
      else
        warm ← (match pr_warm p with Err e => Err (Wrapf "warm read" e) | r => r end);
        if negb warm then Err (Errorf "probe key does not exist in the fixture")
        else
          _ ← (match pr_put p with Err e => Err (Wrapf "probe write" e) | r => r end);
          e ← probe_wait fuel giveUp ("seq-" +:+ FormatInt i) p 0;
          match e with
          | Interrupted => Ok ProbeStopped
          | Converged d => probe_loop fuel giveUp ps (i + 1) (Recorder_Record rec d) (obs + 1) missed
          | NotConverged => probe_loop fuel giveUp ps (i + 1) rec (obs + 1) (missed + 1)
          end
  end.

(** The key of a probe. *)
Definition probe_key (keyBase i : Z) : string := KeyFor (u64 (keyBase + i mod 16)).

Definition probe_flags : FlagSet :=
  flag_names ["target"; "phase"; "out"; "host"] ["samples"] ["interval"; "give-up"; "poll"; "ttl"] [] ["key-base"].

Definition probeStaleness (stamp : Z → string) (encode : bench_Report → result string) (join_path : string → string → string)
    (fuel : nat) (probes : nat → probe_io) (bi : bench_io) (args : list string) : M (gmap string string) (option string) :=
  '(set, _) ← M_lift (flag_Parse probe_flags args);
  let host := string_flag set "host" "" in
  if bool_decide (host = "") then M_fail (Errorf "-host is required: a number without its environment is not reproducible")
  else
    _ ← M_lift (dial_target (string_flag set "target" "tcp://127.0.0.1:9090"));
    match bi_dial bi with
    | Some e => M_fail (Wrapf "dial" e)
    | None =>
        r ← M_lift (probe_loop fuel (duration_flag set "give-up" (45 * Second)) (probes <$> seq 0 (Z.to_nat (int_flag set "samples" 50))) 0 [] 0 0);
        match r with
        | ProbeStopped => mret None
        | Probed rec obs missed =>
            path ← Report_Save stamp encode
              (mkReport SchemaVersion (string_flag set "phase" "1-ttl") "W2" "" zeroTime (bi_env bi host)
                 (mkParams 0 0 0 0 0 f_zero 0 f_zero) 1
                 (mkClientMetrics no_latencies no_latencies f_zero 0 0 (0, 0) false 0) (mkCacheMetrics f_zero 0) (mkOriginMetrics f_zero f_zero)
                 (mkStalenessMetrics (summarise rec) obs missed (whole_seconds (duration_flag set "ttl" 0))))
              (bi_now bi) join_path (bi_mkdir bi) (bi_file bi) (string_flag set "out" "bench/results");
            mret (Some path)
        end
    end.
End runs.

(** ** Regenerating documents *)

Section documents.
Context (ParseFloat : string → option float64) (fixed : nat → float64 → string) (shortest signed : float64 → string) (day : Z → string)
  (Log Exp : float64 → float64) (decode : string → result bench_Report) (decode_faults : string → result (list fault_Record)).

(** [report]: the orders are those in which Go ranges over the latest reports. *)
Definition report_flags : FlagSet := flag_names ["in"; "readme"] [] [] [] [].

Definition reportCmd (entries : string → result (option (list (string * bool)))) (read : string → string → result string)
    (order order' : list string) (fio : file_io) (args : list string) : M (gmap string string) unit :=
  '(set, _) ← M_lift (flag_Parse report_flags args);
  let dir := string_flag set "in" "bench/results" in
  let readme := string_flag set "readme" "README.md" in
  reports ← M_lift (LoadReports decode (entries dir) (read dir));
  files ← M_get;
  text ← M_lift (UpdateReadme fixed shortest day order order' (ReadFile fio readme files) reports);
  WriteFile fio readme text.

Definition guard_flags : FlagSet := λ n,
  if bool_decide (n = "threshold") then Some (ValueFlag (λ v, is_some (ParseFloat v)))
  else flag_names ["in"; "baseline"; "candidate"] [] [] [] [] n.

Definition guard (entries : string → result (option (list (string * bool)))) (read : string → string → result string)
    (order : list string) (args : list string) : result guard_outcome :=
  '(set, _) ← flag_Parse guard_flags args;
  let dir := string_flag set "in" "bench/results" in
  reports ← LoadReports decode (entries dir) (read dir);
  guard_check (Latest order reports) (string_flag set "baseline" "0-baseline") (string_flag set "candidate" "")
    (default (f_ratio 1 10) (flag_value set "threshold" ≫= ParseFloat)).

(** Reading a file: a path that does not exist is told apart. *)
Definition read_existing (fio : file_io) (path : string) (files : gmap string string) : result (option string) :=
  match fi_read fio, files !! path with
  | Some e, _ => Err e
  | None, None => Ok None
  | None, Some data => Ok (Some data)
  end.

Definition rerenderHistory (fio : file_io) (out : string) (keep : Z) : M (gmap string string) unit :=
  outPath ← M_lift (safeOutputPath out);
  files ← M_get;
  existing ← M_lift (match ReadFile fio outPath files with Err e => Err (Wrapf "benchctl microbench: read" e) | r => r end);
  redrawn ← M_lift (RerenderBenchTable ParseFloat fixed signed Log Exp existing keep);
  if bool_decide (redrawn = existing) then mret tt
  else wrapping "benchctl microbench: write" (WriteFile fio outPath redrawn).

Definition microbench_flags : FlagSet := flag_names ["in"; "out"; "commit"; "date"] ["keep"] [] ["rerender"] [].

(** [input]: the lines of the standard input or of the file named. *)
Definition microbenchCmd (input : option string → result (result (list string))) (today : string) (fio : file_io) (args : list string) :
    M (gmap string string) unit :=
  '(set, _) ← M_lift (flag_Parse microbench_flags args);
  let out := string_flag set "out" "bench/PER-COMMIT.md" in
  let keep := int_flag set "keep" 25 in
  if bool_flag set "rerender" then rerenderHistory fio out keep
  else
    let commit := string_flag set "commit" "" in
    if bool_decide (commit = "") then M_fail (Errorf "benchctl microbench: -commit is required")
    else
      let date := string_flag set "date" "" in
      let date := if bool_decide (date = "") then today else date in
      let path := string_flag set "in" "-" in
      lines ← M_lift (match input (if bool_decide (path = "-") then None else Some (Clean path)) with
                      | Err e => Err (Wrapf "benchctl microbench" e) | r => r end);
      results ← M_lift (ParseBenchmarks ParseFloat lines);
      match results with
      | [] => M_fail (Errorf "benchctl microbench: no benchmark results found in the input")
      | _ =>
          outPath ← M_lift (safeOutputPath out);
          files ← M_get;
          existing ← M_lift (match read_existing fio outPath files with Err e => Err (Wrapf "benchctl microbench: read" e) | r => r end);
          table ← M_lift (RenderBenchTable ParseFloat fixed signed Log Exp (default "" existing)
                            (mkBenchRow (str_take 7 commit) date results) keep);
          wrapping "benchctl microbench: write" (WriteFile fio outPath table)
      end.

Definition faults_flags : FlagSet := flag_names ["in"; "out"] [] [] [] [].

Definition faultsCmd (fio : file_io) (args : list string) : M (gmap string string) unit :=
  '(set, _) ← M_lift (flag_Parse faults_flags args);
  files ← M_get;
  raw ← M_lift (match ReadFile fio (Clean (string_flag set "in" "test/chaos/testdata/faults.json")) files with
                | Err e => Err (Wrapf "benchctl faults: (run `make test-chaos` first)" e) | r => r end);
  records ← M_lift (match decode_faults raw with Err e => Err (Wrapf "benchctl faults: parse" e) | r => r end);
  match records with
  | [] => M_fail (Errorf "benchctl faults: no fault records; refusing to write a document claiming coverage of nothing")
  | _ =>
      outPath ← M_lift (safeOutputPath (string_flag set "out" "FAULTS.md"));
      wrapping "benchctl faults: write" (WriteFile fio outPath (Render records))
  end.
End documents.

(** ** The quick benchmark of the operator tool *)

Record BenchOptions := mkBenchOptions {
  bo_Target : string; bo_Rate : Z; bo_Workers : Z; bo_Warmup : Z; bo_Measure : Z; bo_Keys : Z; bo_KeyBase : Z; bo_ReadFraction : float64;
}.

Record BenchReport := mkBenchReport {
  be_Target : string; be_Rate : Z; be_Measure : Z; be_Requests : Z; be_Errors : Z; be_Throughput : float64;
  be_P50 : Z; be_P90 : Z; be_P99 : Z; be_HitRate : float64; be_OriginQPS : float64; be_Scraped : bool; be_Behind : Z;
}.

(** [dialTarget]. *)
Definition dialTarget (target : string) : string :=
  if str_prefix "unix://" target then target
  else if str_prefix "tcp://" target then "passthrough:///" +:+ TrimPrefix target "tcp://"
  else "passthrough:///" +:+ target.

Definition bench_defaults (o : BenchOptions) : BenchOptions :=
  mkBenchOptions (bo_Target o)
    (if bo_Rate o <=? 0 then 200 else bo_Rate o) (if bo_Workers o <=? 0 then 32 else bo_Workers o) (bo_Warmup o)
    (if bo_Measure o <=? 0 then 15 * Second else bo_Measure o) (if bo_Keys o =? 0 then 1000 else bo_Keys o) (bo_KeyBase o)
    (if f_le (bo_ReadFraction o) f_zero then f_ratio 95 100 else bo_ReadFraction o).

(** The request for a row index and a draw in [0, 1). *)
Definition quick_op (o : BenchOptions) (index : Z) (draw : float64) : bench_request :=
  let key := "entities:" +:+ FormatUint (u64 (bo_KeyBase o + index)) in
  if f_le (bo_ReadFraction o) draw then BenchPut key "bench" else BenchGet key.

(** [percentile]: of the recorder, in nanoseconds; [dial] is why connecting fails. *)
Definition BenchQuick (Pow : float64 → float64 → float64) (percentile : Recorder → Z → Z) (opts : BenchOptions)
    (dial : option error) (before after : result Counters) (io : load_io) : result BenchReport :=
  let o := bench_defaults opts in
  match dial with
  | Some e => Err (Wrapf "ctl: dial" e)
  | None =>
      _ ← (match NewZipfian Pow (bo_Keys o) (f_ratio 99 100) with Err e => Err (Wrapf "ctl: bench workload" e) | r => r end);
      '(res, ended) ← (match drive io (mkDriver (bo_Rate o) (bo_Workers o) (bo_Warmup o) (bo_Measure o) true) with
                       | Err e => Err (Wrapf "ctl: bench" e) | r => r end);
      match ended with
      | Some e => Err (Wrapf "ctl: bench" e)
      | None =>
          let report scraped hit qps :=
            mkBenchReport (bo_Target o) (bo_Rate o) (bo_Measure o) (br_Requests res) (br_Errors res) (br_Throughput res)
              (percentile (br_Read res) 50) (percentile (br_Read res) 90) (percentile (br_Read res) 99) hit qps scraped (br_Behind res) in
          match before, after with
          | Ok before, Ok after => Ok (report true (HitRate before after) (OriginQPS before after (br_Elapsed res)))
          | _, _ => Ok (report false f_zero f_zero)
          end
      end
  end.

Definition round_latency (d : Z) : Z := if Millisecond <=? d then Duration_Round d 10000 else Duration_Round d 1000.

Definition BenchReport_String (fixed : nat → float64 → string) (r : BenchReport) : string :=
  "cachet bench quick — " +:+ be_Target r +:+ ", " +:+ FormatInt (be_Rate r) +:+ " rps for " +:+ Duration_String (be_Measure r) +:+ newline +:+ newline +:+
  "  requests    " +:+ FormatInt (be_Requests r) +:+ " (" +:+ fixed 0%nat (be_Throughput r) +:+ " rps achieved, " +:+ FormatInt (be_Errors r) +:+
  " errors)" +:+ newline +:+
  "  latency     p50 " +:+ Duration_String (round_latency (be_P50 r)) +:+ " · p90 " +:+ Duration_String (round_latency (be_P90 r)) +:+
  " · p99 " +:+ Duration_String (round_latency (be_P99 r)) +:+ newline +:+
  (if be_Scraped r then
     "  hit rate    " +:+ fixed 1%nat (f_mul (be_HitRate r) (f_of_int 100)) +:+ "%" +:+ newline +:+
     "  origin      " +:+ fixed 0%nat (be_OriginQPS r) +:+ " qps reaching the database" +:+ newline
   else "  hit rate    unavailable — could not scrape the engine's metrics endpoint" +:+ newline) +:+ newline +:+
  (if 0 <? be_Behind r then
     "  ⚠ the generator fell behind on " +:+ FormatInt (be_Behind r) +:+ " requests, so this run measured the" +:+ newline +:+
     "    load generator rather than the system. Lower --rate and try again." +:+ newline +:+ newline
   else "") +:+
  "  This is a smoke test, not a published benchmark: one run, a short window, and" +:+ newline +:+
  "  whatever else your machine is doing. It answers " +:+ double_quote +:+ "is this doing anything for me" +:+ double_quote +:+ "," +:+ newline +:+
  "  not " +:+ double_quote +:+ "what is the p99" +:+ double_quote +:+ ". Origin QPS is the number worth watching — it is the" +:+ newline +:+
  "  database load the cache removed." +:+ newline.

(** *** The command of the operator tool *)

Definition quick_flags : FlagSet := λ n,
  match commonFlags n with
  | Some k => Some k
  | None => flag_names ["target"; "metrics"] ["rate"; "workers"] ["measure"; "warmup"] [] ["keys"; "key-base"] n
  end.

(** [benchCmd]; [quick] is the benchmark against the engine and the endpoint named. *)
Definition benchCmd (loaded : string → result Config) (quick : BenchOptions → string → result BenchReport) (args : list string) :
    result (BenchReport * bool) :=
  match args with
  | "quick" :: args =>
      '(set, _) ← parseArgs quick_flags args;
      _ ← loaded (string_flag set "config" "");
      report ← quick (mkBenchOptions (string_flag set "target" "tcp://127.0.0.1:9090") (int_flag set "rate" 200) (int_flag set "workers" 32)
                        (duration_flag set "warmup" (5 * Second)) (duration_flag set "measure" (15 * Second))
                        (uint_flag set "keys" 1000) (uint_flag set "key-base" 1) (f_ratio 95 100))
                 (string_flag set "metrics" "http://127.0.0.1:9100/metrics");
      Ok (report, bool_flag set "json")
  | _ => Err (Errorf "usage: cachetctl bench quick [flags]")
  end.
