(* ===== verification/BenchctlSpec.v ===== *)
(** What the benchmark commands write stays below the working directory; a probe
    accounts for every write; and what the gate lets pass. *)

From S2P Require Import Prelude GoStd Floats Regexp Ring Schema Mysql Storage Engine Introspect Ctl Sources Flags Cachetctl Harness Results Faults Bench Benchctl.

Local Open Scope Z_scope.

(** ** Where a path leads *)

(** A step of a path from a directory: the stack of its elements, last first. *)
Definition resolve_step (up : list string) (e : string) : list string :=
  if bool_decide (e = "") || bool_decide (e = ".") then up
  else if bool_decide (e = "..") then tail up
  else e :: up.

(** The directory a relative path leads to from [base], symbolic links aside. *)
Definition resolve (base : list string) (p : string) : list string :=
  reverse (foldl resolve_step (reverse base) (split_byte "/" p)).

(** A relative path that leads below wherever one starts. *)
Definition inside (p : string) : Prop := IsAbs p = false ∧ ∀ base, base `prefix_of` resolve base p.

Definition plain_element (e : string) : Prop := e ≠ "" ∧ e ≠ "." ∧ e ≠ ".." ∧ contains_byte "/" e = false.

Lemma tail_drop {A} n (l : list A) : tail (drop n l) = drop (S n) l.
Proof. revert l. induction n as [|n IH]; intros [|x l]; cbn; [done..|apply IH]. Qed.

(** Cleaning keeps what goes up in front of what goes down. *)
Lemma clean_fold es : Forall (λ e, contains_byte "/" e = false) es →
  ∃ names k, foldl (clean_step false) [] es = names ++ replicate k ".." ∧ Forall plain_element names ∧
    ∀ up, foldl resolve_step up es = names ++ drop k up.
Proof.
  induction es as [|e es IH] using rev_ind; intros Hes.
  { exists [], 0%nat. by split_and!. }
  apply Forall_app in Hes as [Hes He]. apply Forall_cons in He as [He _]. destruct (IH Hes) as (names & k & Hc & Hn & Hr).
  assert (∀ up, foldl resolve_step up (es ++ [e]) = resolve_step (names ++ drop k up) e) as Hr' by (intros up; rewrite foldl_app; cbn; by rewrite Hr).
  rewrite foldl_app. cbn [foldl]. rewrite Hc. unfold clean_step, resolve_step in *.
  destruct (bool_decide (e = "") || bool_decide (e = ".")) eqn:E1; [by exists names, k|].
  apply orb_false_iff in E1 as [E1%bool_decide_eq_false E2%bool_decide_eq_false].
  case_bool_decide as E3.
  - destruct names as [|x names]; [destruct k as [|k]|].
    + exists [], 1%nat. split_and!; [done..|]. intros up. rewrite Hr'. by destruct up.
    + exists [], (S (S k)). split_and!; [cbn; by rewrite bool_decide_eq_true_2|done|]. intros up. rewrite Hr'. cbn [app].
      apply tail_drop.
    + apply Forall_cons in Hn as [Hx Hn]. exists names, k. split_and!; [cbn; by rewrite bool_decide_eq_false_2 by apply Hx|done|].
      intros up. by rewrite Hr'.
  - exists (e :: names), k. split_and!; [done|by constructor|]. intros up. by rewrite Hr'.
Qed.

Lemma join_head e es : contains_byte "/" e = false →
  str_prefix "../" (join "/" (e :: es)) = true → e = ".." ∧ es ≠ [].
Proof.
  intros He [post Hp]%str_prefix_spec. change ("../" +:+ post) with (".." +:+ String "/" post) in Hp.
  pose proof (cut_byte_app "/" ".." post eq_refl) as Hc. rewrite <-Hp in Hc. cbn [join] in Hc. destruct es as [|e' es].
  - apply cut_byte_Some in Hc as [Hc _]. rewrite Hc, contains_byte_app in He. by rewrite orb_true_r in He.
  - change (e +:+ "/" +:+ ?x) with (e +:+ String "/" x) in Hc. rewrite cut_byte_app in Hc by done. by injection Hc.
Qed.

(** What a cleaned path is made of. *)
Lemma Clean_shape p : IsAbs p = false → ∃ names k,
  Clean p = match replicate k ".." ++ reverse names with [] => "." | l => join "/" l end ∧ Forall plain_element names ∧
  ∀ base, resolve base p = reverse (drop k (reverse base)) ++ reverse names.
Proof.
  intros Hp. destruct (clean_fold (split_byte "/" p) (split_elements _ _)) as (names & k & Hc & Hn & Hr). exists names, k.
  unfold Clean. rewrite Hp, Hc, reverse_app, reverse_replicate. split_and!; [by destruct (replicate k ".." ++ reverse names)|done|].
  intros base. unfold resolve. by rewrite Hr, reverse_app.
Qed.

Lemma resolve_plain base names : Forall plain_element names →
  resolve base (match reverse names with [] => "." | l => join "/" l end) = base ++ reverse names.
Proof.
  intros Hn. unfold resolve.
  assert (∀ up l, Forall plain_element l → foldl resolve_step up l = reverse l ++ up) as Hf.
  { intros up l. revert up. induction l as [|e l IH]; intros up Hl; [done|]. apply Forall_cons in Hl as [(H1 & H2 & H3 & _) Hl].
    cbn [foldl]. assert (resolve_step up e = e :: up) as -> by (unfold resolve_step; by rewrite !bool_decide_eq_false_2 by done). rewrite IH, reverse_cons by done. by rewrite <-app_assoc. }
  apply Forall_reverse in Hn. destruct (reverse names) as [|e l] eqn:E.
  - change (foldl resolve_step (reverse base) (split_byte "/" ".")) with (reverse base). by rewrite reverse_involutive, app_nil_r.
  - rewrite (split_join "/" (e :: l)) by (done || (eapply Forall_impl; [exact Hn|by intros ? (_ & _ & _ & ?)])).
    by rewrite Hf, reverse_app, !reverse_involutive by done.
Qed.

Lemma safe_cases p : IsAbs p = false →
  (∃ names, safeOutputPath p = Ok (Clean p) ∧ Forall plain_element names ∧ Clean p = match reverse names with [] => "." | l => join "/" l end ∧
     ∀ base, resolve base p = base ++ reverse names) ∨
  is_err (safeOutputPath p) = true ∧ ∃ names k, Forall plain_element names ∧ ∀ base, resolve base p = reverse (drop (S k) (reverse base)) ++ reverse names.
Proof.
  intros Hp. destruct (Clean_shape p Hp) as (names & k & Hc & Hn & Hr). unfold safeOutputPath. rewrite Hp. destruct k as [|k].
  - left. exists names. cbn [replicate app drop] in *. apply Forall_reverse in Hn as Hn'. split_and!; [|done|done|].
    2: { intros base. rewrite Hr. change (drop 0 ?l) with l. by rewrite reverse_involutive. }
    assert (bool_decide (Clean p = "..") || str_prefix "../" (Clean p) = false) as ->; [|done].
    rewrite Hc. destruct (reverse names) as [|e l]; [done|]. apply Forall_cons in Hn' as [(H1 & H2 & H3 & H4) Hl].
    apply orb_false_iff. split.
    + apply bool_decide_eq_false. intros He. destruct l as [|e' l]; [done|]. cbn [join] in He.
      assert (contains_byte "/" "..") as Hs; [|done]. rewrite <-He. change (e +:+ "/" +:+ ?x) with (e +:+ String "/" x).
      rewrite contains_byte_app. cbn [contains_byte]. rewrite bool_decide_eq_true_2 by done. by rewrite orb_true_r.
    + apply not_true_iff_false. intros [Hee _]%join_head; [congruence|done].
  - right. split; [|by exists names, k].
    assert (bool_decide (Clean p = "..") || str_prefix "../" (Clean p) = true) as ->; [|done].
    rewrite Hc. cbn [replicate app]. destruct (replicate k ".." ++ reverse names) as [|e l]; [done|].
    cbn [join]. change (".." +:+ "/" +:+ ?x) with ("../" +:+ x). by rewrite str_prefix_app, orb_true_r.
Qed.

(** The guard on an output path is exact.  A relative path is accepted exactly
    when it leads below the working directory, whatever that is, and the path that
    is written then is relative, without a way up, and leads to the same place as
    the one asked for; an absolute path is refused. *)
Theorem safeOutputPath_inside p :
  (IsAbs p = true → is_err (safeOutputPath p) = true) ∧
  (IsAbs p = false → is_ok (safeOutputPath p) = true ↔ ∀ base, base `prefix_of` resolve base p) ∧
  (∀ c, safeOutputPath p = Ok c → inside c ∧ ∀ base, resolve base c = resolve base p).
Proof.
  split_and!.
  - unfold safeOutputPath. by intros ->.
  - intros Hp. destruct (safe_cases p Hp) as [(names & -> & _ & _ & Hr)|(He & names & k & _ & Hr)].
    + split; [|done]. intros _ base. rewrite Hr. by eexists.
    + split; [by destruct (safeOutputPath p)|]. intros Hall. exfalso. set (x := fresh (list_to_set (C := gset string) names)).
      specialize (Hall [x]). rewrite Hr in Hall. change (reverse [x]) with [x] in Hall. rewrite drop_ge in Hall by (cbn; lia).
      destruct Hall as [l Hl]. cbn in Hl. assert (x ∈ names) as Hin.
      { rewrite <-(reverse_involutive names), elem_of_reverse, Hl. by left. }
      apply (is_fresh (list_to_set (C := gset string) names)). by apply elem_of_list_to_set.
  - intros c Hc. assert (IsAbs p = false) as Hp by (unfold safeOutputPath in Hc; by destruct (IsAbs p)).
    destruct (safe_cases p Hp) as [(names & Hs & Hn & Hcl & Hr)|(He & _)]; [|by rewrite Hc in He].
    rewrite Hs in Hc. injection Hc as <-. rewrite Hcl. split; [split|].
    + apply Forall_reverse in Hn. destruct (reverse names) as [|e l]; [done|]. apply Forall_cons in Hn as [(H1 & _ & _ & H4) _].
      unfold IsAbs. apply not_true_iff_false. intros [post Hpost]%str_prefix_spec. destruct e as [|d e]; [done|].
      cbn [join] in Hpost. assert (d = "/"%char) as -> by (destruct l; cbn in Hpost; by injection Hpost).
      cbn in H4. discriminate H4.
    + intros base. rewrite resolve_plain by done. by eexists.
    + intros base. by rewrite resolve_plain, Hr.
Qed.


(** ** What the commands write *)

(** Whatever the outcome, only files under these names change. *)
Definition writes_only {A} (P : string → Prop) (m : M (gmap string string) A) : Prop :=
  ∀ files q, (m files).2 !! q = files !! q ∨ P q.

Lemma wo_ret {A} P (a : A) : writes_only P (mret a).
Proof. by left. Qed.
Lemma wo_lift {A} P (r : result A) : writes_only P (M_lift r).
Proof. by left. Qed.
Lemma wo_fail {A} P e : writes_only P (M_fail (A := A) e).
Proof. by left. Qed.

Lemma wo_bind {A B} P (m : M (gmap string string) A) (k : A → M (gmap string string) B) :
  writes_only P m → (∀ files a files', m files = (Ok a, files') → writes_only P (k a)) → writes_only P (a ← m; k a).
Proof.
  intros Hm Hk files q. unfold mbind, M_bind. pose proof (Hm files q) as H1. destruct (m files) as [[a|e|w] files1] eqn:E; cbn in *; [|done..].
  destruct (Hk _ _ _ E files1 q) as [H2|]; [|by right]. destruct H1 as [H1|]; [left; by rewrite H2|by right].
Qed.

Lemma wo_get {A} P (k : gmap string string → M (gmap string string) A) : (∀ files, writes_only P (k files)) → writes_only P (files ← M_get; k files).
Proof. intros Hk files q. by apply Hk. Qed.

Lemma wo_bind_lift {A B} P (r : result A) (k : A → M (gmap string string) B) :
  (∀ a, r = Ok a → writes_only P (k a)) → writes_only P (a ← M_lift r; k a).
Proof. intros Hk. apply wo_bind; [apply wo_lift|]. intros files a files' [= Hr _]. by apply Hk. Qed.

Lemma wo_write P fio path data : P path → writes_only P (WriteFile fio path data).
Proof.
  intros Hp files q. destruct (decide (q = path)) as [->|Hne]; [by right|left]. unfold WriteFile.
  destruct (fi_write fio) as [[n e]|];
    [change ((<[path := str_take n data]> files) !! q = files !! q)|change ((<[path := data]> files) !! q = files !! q)];
    by rewrite lookup_insert_ne.
Qed.

Lemma wo_wrapping {A} P msg (m : M (gmap string string) A) : writes_only P m → writes_only P (wrapping msg m).
Proof. intros Hm files q. unfold wrapping. pose proof (Hm files q) as H. by destruct (m files) as [[]?]. Qed.

Create HintDb writes.
#[export] Hint Resolve wo_ret wo_lift wo_fail wo_write wo_wrapping : writes.

Ltac writes_step :=
  lazymatch goal with
  | |- writes_only _ (mbind _ M_get) => apply wo_get; intros ?
  | |- writes_only _ (mbind _ (M_lift _)) => apply wo_bind_lift; intros ? ?
  | |- writes_only _ (match ?x with _ => _ end) => destruct x eqn:?
  | |- _ => solve [eauto with writes]
  end.

(** The commands that are handed an output path write below the working
    directory.  Whatever their arguments, whatever the files hold and whichever
    call fails, recording micro-benchmarks, redrawing their history and rendering
    the fault document change no file but the one at the path they were given,
    cleaned, and only when it leads below the directory they run in. *)
Theorem benchctl_writes_inside ParseFloat fixed signed Log Exp decode_faults input today fio args files :
  (∀ q, (microbenchCmd ParseFloat fixed signed Log Exp input today fio args files).2 !! q = files !! q ∨ inside q) ∧
  (∀ q, (faultsCmd decode_faults fio args files).2 !! q = files !! q ∨ inside q).
Proof.
  assert (∀ p c, safeOutputPath p = Ok c → inside c) as Hin by (intros p c Hc; by apply (safeOutputPath_inside p)).
  assert (∀ out fio keep, writes_only inside (rerenderHistory ParseFloat fixed signed Log Exp fio out keep)) as Hre.
  { intros out fio' keep. unfold rerenderHistory. repeat writes_step. }
  assert (writes_only inside (microbenchCmd ParseFloat fixed signed Log Exp input today fio args)) as Hm.
  { unfold microbenchCmd. apply wo_bind_lift. intros [set rest] _. repeat writes_step. }
  assert (writes_only inside (faultsCmd decode_faults fio args)) as Hf.
  { unfold faultsCmd. apply wo_bind_lift. intros [set rest] _. repeat writes_step. }
  split; intros q; [apply Hm|apply Hf].
Qed.

(** ** The gate *)

(** A report of a phase and workload with this 99th percentile. *)
Definition p99_report (phase workload : string) (at_ p99 : Z) : bench_Report :=
  mkReport 1 phase workload "" at_ (mkEnv "host" "" "" 0 "" [] "") (mkParams 0 0 0 0 0 f_zero 0 f_zero) 3
    (mkClientMetrics (mkLatencies 0 0 p99 0 0 0 (if p99 =? 0 then 0 else 1)) no_latencies f_zero 0 0 (p99, p99) true 3)
    (mkCacheMetrics f_zero 0) (mkOriginMetrics f_zero f_zero) (mkStalenessMetrics no_latencies 0 0 0).

(** The gate passes what nobody measured.  A candidate whose reads were not measured
    passes against any baseline that was, and against one that was not either: the
    change is minus a hundred per cent, or not a number, and neither is over the
    budget. *)
Theorem guard_passes_unmeasured :
  guard_check [p99_report "0-baseline" "W2" 1 400; p99_report "2-cdc" "W2" 2 0] "0-baseline" "" (f_ratio 1 10) =
    Ok (Compared (p99_report "0-baseline" "W2" 1 400) (p99_report "2-cdc" "W2" 2 0) (f_of_int (-1))) ∧
  guard_check [p99_report "0-baseline" "W2" 1 0; p99_report "2-cdc" "W2" 2 0] "0-baseline" "" (f_ratio 1 10) =
    Ok (Compared (p99_report "0-baseline" "W2" 1 0) (p99_report "2-cdc" "W2" 2 0) S754_nan).
Proof. split; vm_compute; reflexivity. Qed.

(** The gate does not look at workloads.  Of two workloads measured in a phase it
    compares the one Go's map happens to range over last: on one set of files it
    passes or fails from run to run. *)
Theorem guard_depends_on_map_order :
  let reports := [p99_report "0-baseline" "W2" 1 400; p99_report "2-cdc" "W1" 2 900; p99_report "2-cdc" "W2" 3 300] in
  is_ok (guard_check (Latest ["0-baseline/W2"; "2-cdc/W2"; "2-cdc/W1"] reports) "0-baseline" "" (f_ratio 1 10)) = true ∧
  is_ok (guard_check (Latest ["0-baseline/W2"; "2-cdc/W1"; "2-cdc/W2"] reports) "0-baseline" "" (f_ratio 1 10)) = false.
Proof. split; vm_compute; reflexivity. Qed.

(** The candidate the gate takes by itself is the last phase by name, not the newest. *)
Theorem guard_takes_last_name :
  guard_check (Latest ["0-baseline/W2"; "1-ttl/W2"; "2-cdc/W2"]
                 [p99_report "0-baseline" "W2" 1 400; p99_report "2-cdc" "W2" 2 300; p99_report "1-ttl" "W2" 9 900]) "0-baseline" "" (f_ratio 1 10) =
    Ok (Compared (p99_report "0-baseline" "W2" 1 400) (p99_report "2-cdc" "W2" 2 300) (f_div (f_of_int (-1)) (f_of_int 4))).
Proof. vm_compute. reflexivity. Qed.

(** ** What a run publishes *)

(** The load on the origin counts the reads of the warm-up and divides by the time
    without it.  An engine that reads its database ten times a second throughout a
    minute of warm-up and half a minute of measuring is published at thirty. *)
Theorem origin_load_counts_warmup :
  let w := mkWorkload "W2" "" "hot" f_zero f_one 1 10 1 (60 * Second) (30 * Second) 0 0 in
  let load := mkLoadIO 1000 0 (λ i, mkTurn (i * 100 * Millisecond) false false) (λ jobs, (λ j, mkDone j false (jb_intended j)) <$> jobs) (90 * Second) None in
  let io := mkRunIO (Some (Ok (mkCounters f_zero f_zero f_zero f_zero))) load (90 * Second)
              (Some (Ok (mkCounters f_zero (f_of_int 900) f_zero (f_of_int 900)))) in
  ∃ ms, run_loop (λ _ _, f_one) (λ _, no_latencies) w 1 [io] f_zero f_zero = Ok (ms, f_zero, f_of_int 30).
Proof. eexists. vm_compute. reflexivity. Qed.

(** The reads of a hundred requests are cut to a whole number, one short of the
    fraction when its product with a hundred rounds down: 28 for 0.29. *)
Theorem read_fraction_cut :
  readsPerCycle (mkWorkload "W2" "" "hot" f_zero (f_ratio 29 100) 1 10 1 0 Second 0 0) = 28.
Proof. vm_compute. reflexivity. Qed.

(** ** The probe *)

(** Time goes on while a probe waits. *)
Definition gives_up (fuel : nat) (giveUp : Z) (p : probe_io) : Prop := ∃ n, (n < fuel)%nat ∧ giveUp ≤ po_look (pr_polls p n) - pr_commit p.
(** The engine's answers are answers or errors. *)
Definition answered (p : probe_io) : Prop :=
  (∀ w, pr_warm p ≠ Panic w) ∧ (∀ w, pr_put p ≠ Panic w) ∧ ∀ n w, po_read (pr_polls p n) ≠ Panic w.

Lemma probe_wait_spec giveUp want p : answered p → ∀ fuel n,
  (∃ m, (n ≤ m < n + fuel)%nat ∧ giveUp ≤ po_look (pr_polls p m) - pr_commit p) →
  match probe_wait fuel giveUp want p n with
  | Ok (Converged d) => ∃ m, po_read (pr_polls p m) = Ok want ∧ d = po_seen (pr_polls p m) - pr_commit p
  | Panic _ => False
  | _ => True
  end.
Proof.
  intros (_ & _ & Ha). induction fuel as [|fuel IH]; intros n (m & Hm & Hg); [lia|]. cbn [probe_wait].
  destruct (Z.ltb_spec (po_look (pr_polls p n) - pr_commit p) giveUp) as [Hlt|]; [|done]. cbn [negb].
  destruct (po_read (pr_polls p n)) as [got| |w] eqn:Er; cbn [mbind result_bind]; [|done|by apply Ha in Er].
  case_bool_decide as Hgot; [subst got; by exists n|]. destruct (po_stopped _); [done|]. apply IH. exists m. split; [|done].
  destruct (decide (m = n)) as [->|]; lia.
Qed.

(** A probe accounts for every write.  With time going on, the probe of any
    number of keys ends; unless it is interrupted or the engine fails, every write
    it made is either recorded, at the time from its commit to a read that saw it,
    or counted as never visible, and no other sample is recorded. *)
Theorem probe_loop_counts fuel giveUp ps
    (Ht : Forall (gives_up fuel giveUp) ps) (Ha : Forall answered ps) :
  match probe_loop fuel giveUp ps 0 [] 0 0 with
  | Ok (Probed rec obs missed) =>
      Recorder_Count rec + missed = obs ∧ 0 ≤ missed ∧ obs ≤ Z.of_nat (length ps) ∧
      ∀ us, us ∈ rec → ∃ p m i, p ∈ ps ∧ po_read (pr_polls p m) = Ok ("seq-" +:+ FormatInt i) ∧
                         us = recorded (po_seen (pr_polls p m) - pr_commit p)
  | Panic _ => False
  | _ => True
  end.
Proof.
  assert (∀ i rec obs missed, 0 ≤ missed → Recorder_Count rec + missed = obs →
    match probe_loop fuel giveUp ps i rec obs missed with
    | Ok (Probed rec' obs' missed') =>
        Recorder_Count rec' + missed' = obs' ∧ 0 ≤ missed' ∧ obs' ≤ obs + Z.of_nat (length ps) ∧
        ∀ us, us ∈ rec' → us ∈ rec ∨ ∃ p m i, p ∈ ps ∧ po_read (pr_polls p m) = Ok ("seq-" +:+ FormatInt i) ∧
                            us = recorded (po_seen (pr_polls p m) - pr_commit p)
    | Panic _ => False
    | _ => True
    end) as H.
  2: { specialize (H 0 [] 0 0 ltac:(lia) eq_refl). destruct (probe_loop _ _ _ _ _ _ _) as [[|rec obs missed]| |]; [done| |done..].
       destruct H as (H1 & H2 & H3 & H4). split_and!; [done..|]. intros us Hus. by destruct (H4 us Hus) as [?%elem_of_nil|]. }
  induction Ht as [|p ps Hp _ IH]; intros i rec obs missed Hm Hc; cbn [probe_loop].
  { split_and!; [done|done|cbn; lia|by left]. }
  apply Forall_cons in Ha as [Hpa Ha]. specialize (IH Ha). pose proof Hpa as (Hw & Hput & _).
  destruct (pr_cancelled p). { split_and!; [done|done|lia|by left]. }
  destruct (pr_warm p) as [[]| |w] eqn:Ew; cbn [mbind result_bind negb]; [|done|done|by destruct (Hw w)].
  destruct (pr_put p) as [[]| |w] eqn:Ep; cbn [mbind result_bind]; [|done|by destruct (Hput w)].
  pose proof (probe_wait_spec giveUp ("seq-" +:+ FormatInt i) p Hpa fuel 0%nat) as Hwait.
  destruct (probe_wait _ _ _ _ _) as [[d| |]| |]; cbn [mbind result_bind]; try done; try (exfalso; apply Hwait; by destruct Hp as (n & ? & ?); exists n; lia).
  - destruct Hwait as (m & Hread & ->); [by destruct Hp as (n & ? & ?); exists n; lia|].
    specialize (IH (i + 1) (Recorder_Record rec (po_seen (pr_polls p m) - pr_commit p)) (obs + 1) missed Hm).
    destruct (probe_loop _ _ _ _ _ _ _) as [[|rec' obs' missed']| |]; [done| |done|].
    2: { apply IH. unfold Recorder_Count, Recorder_Record in *. rewrite length_app. cbn. lia. }
    destruct IH as (H1 & H2 & H3 & H4); [unfold Recorder_Count, Recorder_Record in *; rewrite length_app; cbn; lia|].
    split_and!; [done|done|cbn [length]; lia|]. intros us Hus. destruct (H4 us Hus) as [Hin|(p' & m' & i' & Hin & Hr)].
    + unfold Recorder_Record in Hin. apply elem_of_app in Hin as [Hin|Hin]; [by left|right].
      apply list_elem_of_singleton in Hin as ->. exists p, m, i. split; [by left|done].
    + right. exists p', m', i'. split; [by right|done].
  - specialize (IH (i + 1) rec (obs + 1) (missed + 1) ltac:(lia) ltac:(lia)).
    destruct (probe_loop _ _ _ _ _ _ _) as [[|rec' obs' missed']| |]; [done| |done..].
    destruct IH as (H1 & H2 & H3 & H4). split_and!; [done|done|cbn [length]; lia|].
    intros us Hus. destruct (H4 us Hus) as [Hin|(p' & m' & i' & Hin & Hr)]; [by left|right]. exists p', m', i'. split; [by right|done].
Qed.
