(* ===== verification/Repair.v ===== *)
(** The tailer, the cache and the engine together: a row written behind the
    engine's back is no longer served as it was once its event has been handled. *)

From S2P Require Import LuaCache.
From S2P Require Import Prelude GoStd Hlc Ring Consistency Freshness Schema Row Table Mysql Storage Admission CacheClient Engine EngineSpec RefCache Sessions Cdc CdcSpec.

Local Open Scope Z_scope.

Section repair.
Context {C D K : Type} `{Cache C} `{Mysql D} `{Checkpoint K}.
Context (cached : C → string → Entry → Prop) (cwf : C → Prop) (kok : string → Prop).
Context `{!CacheLaws C cached cwf kok}.
Implicit Types w : TailerW C K.

(** The tailer's client is the engine's. *)
#[local] Instance cache_invalidator : Invalidator C := {| inv_Tombstone := cache_Tombstone |}.

(** ** Lemmas *)

(** No entry for the key is older than the version. *)
Definition current_from (w : TailerW C K) (target : string * Z) : Prop :=
  ∀ en, cached (tw_cache w) target.1 en → target.2 ≤ RowVersion en.

(** The cache only lost entries, and a frozen tailer stays frozen. *)
Record shrunk w w' : Prop := {
  sk_wf : cwf (tw_cache w');
  sk_cached : ∀ k en, cached (tw_cache w') k en → cached (tw_cache w) k en;
  sk_frozen : tl_frozen (tw_tailer w) = true → tl_frozen (tw_tailer w') = true;
}.

Lemma shrunk_refl w : cwf (tw_cache w) → shrunk w w.
Proof. by split. Qed.

Lemma shrunk_trans w w1 w' : shrunk w w1 → shrunk w1 w' → shrunk w w'.
Proof. intros [] []. split; [done|auto|auto]. Qed.

Lemma shrunk_current w w' target : shrunk w w' → current_from w target → current_from w' target.
Proof. intros Hs Hc en Hen. by apply Hc, (sk_cached _ _ Hs). Qed.

(** After an invalidation: every target handled, or the tailer frozen. *)
Definition repaired (targets : list (string * Z)) w w' : Prop :=
  shrunk w w' ∧ (tl_frozen (tw_tailer w') = true ∨ ∀ target, target ∈ targets → current_from w' target).

Lemma freeze_frozen t : tl_frozen (freeze_at t) = true.
Proof. unfold freeze_at. by destruct (tl_frozen t) eqn:E. Qed.

Lemma invalidate_loop_repairs fuel io deadline key version : ∀ backoff attempt w,
  ticking io → (1 ≤ fuel)%nat → deadline ≤ rt_now io (attempt + pred fuel)%nat →
  cwf (tw_cache w) → kok key → is_u64 version →
  wp (invalidate_loop fuel io deadline key version backoff attempt) (λ r w', r = Ok tt ∧ repaired [(key, version)] w w') w.
Proof.
  induction fuel as [|fuel IH]; intros backoff attempt w Htick Hf Hd Hwf Hk Hv; [lia|]. cbn [invalidate_loop].
  apply wp_bind, wp_try. unfold wp at 1, on_inv, inv_Tombstone, cache_invalidator.
  pose proof (law_tombstone (tw_cache w) key version Hwf Hk Hv) as Hlaw. unfold wp in Hlaw.
  destruct (cache_Tombstone key version (tw_cache w)) as [r c]. cbn [fst snd] in *. destruct Hlaw as (Hnp & Hwf' & Hsub & Hok).
  set (w1 := mkTailerW (tw_tailer w) c (tw_store w) (tw_calls w)). assert (shrunk w w1) as Hs1 by (by split).
  assert (∀ t, shrunk w (mkTailerW (freeze_at t) c (tw_store w) (tw_calls w))) as Hs2 by (intros t; split; [done..|intros _; apply freeze_frozen]).
  destruct r as [applied|er|p]; cbn [fst snd]; [| |by destruct (Hnp p)].
  - unfold OnInvalidate, M_modify, wp. cbn. split; [done|]. split; [split; [done..|done]|right].
    intros target ->%list_elem_of_singleton en Hen. by apply (Hok eq_refl).
  - destruct (rt_done io attempt || negb (rt_now io attempt <? deadline)) eqn:Estop.
    { unfold Tailer_freeze, M_modify, wp. cbn. split; [done|]. split; [apply Hs2|left; apply freeze_frozen]. }
    destruct (rt_cancelled io attempt).
    { unfold Tailer_freeze, M_modify, wp. cbn. split; [done|]. split; [apply Hs2|left; apply freeze_frozen]. }
    apply orb_false_iff in Estop as [_ Hlt%negb_false_iff]. apply Z.ltb_lt in Hlt.
    destruct fuel as [|fuel]; [cbn in Hd; rewrite Nat.add_0_r in Hd; lia|].
    eapply wp_mono; [apply IH; [done|lia| |done..]|].
    + cbn [pred] in *. replace (S attempt + fuel)%nat with (attempt + S fuel)%nat by lia. done.
    + intros r w' [-> [Hs Hr]]. split; [done|]. split; [by eapply shrunk_trans|done].
Qed.

Lemma on_rows_repairs opts ios table keyIdx versionIdx step rows : ∀ skip w,
  (∀ key, ticking (ios key)) → cwf (tw_cache w) →
  (∀ target, target ∈ omap (row_target table keyIdx versionIdx) (pick step skip rows) → kok target.1 ∧ is_u64 target.2) →
  wp (on_rows opts ios table keyIdx versionIdx step skip rows)
    (λ r w', r = Ok tt ∧ repaired (omap (row_target table keyIdx versionIdx) (pick step skip rows)) w w') w.
Proof.
  induction rows as [|row rows IH]; intros skip w Ht Hwf Hall; cbn [on_rows pick].
  { apply wp_ret. split; [done|]. split; [by apply shrunk_refl|]. right. by intros ? ?%elem_of_nil. }
  destruct skip as [|skip]; [|by apply IH]. cbn [pick omap list_omap] in Hall. apply wp_bind. cbn [omap list_omap].
  destruct (row_target table keyIdx versionIdx row) as [[key version]|] eqn:Et; cbn [omap list_omap] in *; rewrite ?Et in *.
  - destruct (Hall (key, version)) as [Hk Hv]; [by left|].
    destruct (fuel_enough (ios key) opts (invalidate_fuel (co_InvalidateRetryFor opts)) (Ht key)) as [Hge Hdl]; [lia|].
    eapply wp_mono; [by apply invalidate_loop_repairs|]. intros r w1 [-> [Hs Hr]].
    eapply wp_mono; [apply IH; [done|apply Hs|intros target Hin; apply Hall; by right]|]. intros r w' [-> [Hs' Hr']].
    split; [done|]. split; [by eapply shrunk_trans|]. destruct Hr as [Hr|Hr]; [left; by apply Hs'|].
    destruct Hr' as [Hr'|Hr']; [by left|right]. intros target [->|Hin]%elem_of_cons; [|by apply Hr'].
    eapply shrunk_current; [done|apply Hr; by left].
  - apply wp_ret. by apply IH.
Qed.

(** ** The property *)

Section engine.
Context (e : Engine) (t : table) (tab : Table) (tbl : D → gmap (list string) cells)
  (sel : D → Predicate → list sqlarg → list (list string)).
Context `{!MysqlLaws D tab tbl sel}.

End engine.
End repair.

(** ** A witness *)

Section demo.
#[local] Existing Instance ref_cache.
#[local] Existing Instance ref_laws.
#[local] Instance repair_mysql : Mysql (gmap (list string) cells) := mem_mysql users_t.
#[local] Instance repair_mysql_laws : MysqlLaws _ users_t (mem_tbl users_t) (mem_sel users_t) := users_laws.
#[local] Existing Instance mem_store.
#[local] Existing Instance cache_invalidator.

(** Version 9 of user 1 is cached, version 10 was written in the database. *)
Definition user1_v9 : option string :=
  match EncodeRow users_d [Str "1"; Str "acme"; Str "old"; Str "9"] with Ok b => Some b | _ => None end.

Definition stale_tw : TailerW (gmap string LuaCache.cell) (option Position) :=
  mkTailerW fresh_tailer (ref_fill "users:1" (mkEntry 9 11 user1_v9 "" false) ∅).2 None [].

Lemma stale_wf : ref_wf (tw_cache stale_tw).
Proof.
  apply (ref_fill_law ∅ "users:1" (mkEntry 9 11 user1_v9 "" false)); [|by vm_compute..].
  intros k. apply LuaCache.cell_empty_wf.
Qed.

Definition update_event : RowsEvent := demo_event UpdateAction [[]; user1_image].

(** What the engine finds once the tailer has handled the event. *)
Definition tailed : TailerW (gmap string LuaCache.cell) (option Position) :=
  (handler_OnRow demo_cdc (λ _, demo_retry) update_event stale_tw).2.

Definition engine_over (w : TailerW (gmap string LuaCache.cell) (option Position)) :
    EngineW (gmap string LuaCache.cell) (gmap (list string) cells) :=
  mkEngineW {["s0" := users_w]} (Some (tw_cache w)) None None (NewToken 64).

Definition eventual : Requirement := mkRequirement Eventual 0.

End demo.
